(* ===== verification/_CoqProject ===== *)
-Q . S2P
Prelude.v
Memory.v
Prog.v
Equiv.v
FlatType.v
History.v
SeqCount.v
SharedMemory.v
Seqlock.v
CyclicBuffer.v
CyclicRing.v
CyclicReaders.v
CyclicConcurrent.v
Stamped.v
Float.v
Reads.v
SanitizedKey.v
TimeSeries.v
TimeSeriesFacts.v
TimeSeriesRing.v
RingLog.v
Fuzz.v
FuzzCyclicBuffer.v
FuzzTimeSeries.v
Pool.v
RelyGuarantee.v
StoreBuffer.v
Session.v
Blocking.v
Processes.v
TimeSeriesProcesses.v
Examples.v
ShmLock.v
LockPool.v
LockBuffers.v
Ownership.v
Image.v
Lifecycle.v
DoubleBuffer.v
Loader.v
Delivery.v
LoaderBuffers.v
ProducerConsumer.v
Bindings.v
PySession.v
BindingsLoader.v
Bench.v
BenchKernel.v
