(* ===== verification/Prelude.v ===== *)
(** * safe-shm: a verified model of the shared-memory primitives

    safe-shm is a header-only C++ library (src/include/safe-shm/) of
    primitives that processes share through POSIX shared memory: a seqlock, a
    ring buffer with one sequence counter per slot, time-series lookups on it,
    a futex mutex with the storage it guards, double-buffered loaders, a
    semaphore pipeline, image types and life-cycle helpers.  This development
    translates the headers, statement by statement, into executable
    definitions over a byte-addressed memory and proves what makes each
    primitive correct.

    ** The machine

    - [Memory]: a mapped region is a list of bytes; little-endian words,
      bounds and alignment of an access; [rd], [wr], [ld32], [ld64].
    - [Prog]: C++ code is a [prog], a sequence of single atomic accesses, of
      copied bytes and of futex calls.  [runs e p t m a t' m'] executes it in an
      environment [e] that changes the memory between any two actions and
      answers system calls; [wp] is total correctness (termination, no access out
      of bounds or misaligned); [hist] lists the memories a run goes
      through; [run] executes with fuel.  [Reads] is a logic for programs
      that only read, with its rules as the class [AnswerLogic].
    - [History], [SeqCount]: what a reader sees of a writer's sequence of
      memories ([schedule]: any interleaving), and the counter protocol of one slot
      ([write_slot], [read_attempt]) shared by seqlock and ring.
    - [Equiv]: [p ≡ q], the same actions in the same order with the same
      results, an action being the same only with the same memory order,
      operands and futex arguments ([label], [trace]); the monad laws and
      rewriting.
    - [Pool]: any number of [prog]s interleaved on one memory, with futex
      sleepers; which sleepers a wake releases is the interface [FutexKernel].
      [RelyGuarantee]: a logic for the threads of a pool, each of which relies on
      what the others guarantee, with an account of the wakes owed to the
      sleepers of one word, and its soundness.
    - [StoreBuffer]: the same threads on a machine on which stores wait in a
      buffer per thread.  [first_only] empties it in order, as x86 does;
      [release_only] goes by the memory orders of the accesses alone.  Where no
      write of one thread changes what another has read since its oldest
      pending store ([robust], a condition on the interleaving alone) the
      first machine does nothing the interleaving does not do
      ([trails_step], a simulation).  Three ways to be robust: one writer and
      readers that only read; threads that never load ([LockBuffers]); and
      [Ownership], threads that load flags with an empty buffer only and
      anything else only while it is theirs, by the proof in [RelyGuarantee].
    - [Session]: what is proved of a writer running alone holds in a pool in
      which it alone writes, and what a reader then may rely on.
    - [FlatType]: the concept of flat_type.hpp as a class of types with a size,
      an alignment and a lossless byte image.  [Float]: the binary32/binary64
      operations the code uses, on the Standard Library's SpecFloat.

    The programs carry the memory orders of the code ([memory_order]); the
    interleaving of [Pool] and of [runs] ignores them and is sequential
    consistency at the granularity of atomic accesses and of single bytes of a
    copy: a copy may be torn at every byte.  It is justified
    on x86 for the seqlock and the ring by [Processes], for the lookups by
    [TimeSeriesProcesses], for the lock and the storage by [LockBuffers], for
    the loaders by [LoaderBuffers]; an execution in [Processes] shows that the
    orders alone do not.
    Machine integers are [Z] with the wrap-around written out ([u8], [u32],
    [u64], [i32]).

    ** The parts

    - [Seqlock] (seqlock.hpp: SeqlockRegion, SeqlockWriter, SeqlockReader,
      Seqlock, the combined class written out like its text and proved equal
      to the two others).  Loads under every interleaving with the writer are
      linearizable, load_blocking answers a new whole value or a timeout,
      loads terminate once the writer is done and never if it dies half way.
      The counter may wrap; a reader must not be overtaken by 2^31 stores within
      one attempt, a hypothesis of the theorems ([schedule] and the number of
      stores).
    - [CyclicBuffer], [CyclicRing], [CyclicReaders], [CyclicConcurrent]
      (cyclic_buffer.hpp: CyclicSlot, CyclicRegion, CyclicBufferWriter,
      CyclicBufferReader, CyclicBuffer).  [RingConfig] is the static
      assertion on the capacity and the alignment of the slots.  At rest the ring
      refines a list ([ring_refines_list]); during inserts try_get answers
      whole elements, none older than asked for.
    - [Blocking]: load_blocking and wait_for_write among any number of threads;
      no reader sleeps through a store or an insert.
    - [Processes]: a writer process and reader processes of a seqlock or a
      ring, with what the readers find put into their programs as assertions;
      no assertion fails, interleaved or on the machine with x86's buffers.
    - [Stamped] (stamped.hpp), [SanitizedKey] (sanitized_key.hpp),
      [TimeSeries], [TimeSeriesFacts], [TimeSeriesRing] (time_series.hpp).
      [KeyExtractor] is the template parameter.  [rest_view] and [live_view] are
      what the ring promises its client; the lookups are proved against
      them in any [AnswerLogic]; [TimeSeriesRing] discharges them for a reader
      beside a writer, [TimeSeriesProcesses] for the processes of a pool and on
      the machine with buffers: find_closest equals exhaustive
      search, interpolation pairs bracket the target with alpha in [0, 1], and
      all lookups terminate while the writer inserts.
    - [ShmLock], [LockPool] (shm_lock.hpp, storage.hpp).  Each thread follows
      an automaton ([next]); mutual exclusion, no lost wake-up and whole
      values for any number of threads and every [FutexKernel].  [LockBuffers]:
      the same on a machine with store buffers.
    - [DoubleBuffer] (double_buffer_swapper.hpp, swap_runner.hpp,
      dblbuf_loader.hpp, image_shm.hpp, snapshot.hpp).  Pointers are words of
      one address space, a failed assertion or null dereference is [trap].
      [Loader] runs client, runner and storing processes together: each cell
      belongs to a thread by the phase of the protocol or by the lock, and no
      thread ever reaches [trap], snapshots being whole.  [Delivery] is the
      loader with a client of its own: a baton goes to and fro between client
      and runner, and the account of the wakes owed on both flags shows that
      the two never sleep together, and that each round delivers.
      [LoaderBuffers] carries both over to a machine with store buffers.
    - [ProducerConsumer] (producer_consumer.hpp).  Semaphores are the class
      [Semaphore]; every interleaving of producers and consumers hands the
      values over once, in order and whole.
    - [SharedMemory] (shared_memory.hpp, shm_stats.hpp), [Image] (image.hpp:
      packed layout and the single-precision size).
    - [Lifecycle] (shm_lifecycle.hpp, and the owner and the clean-up loop of
      examples/lifecycle_example.cpp): header layout, OwnedShm,
      is_writer_alive, and the directory queries over the class [Devices] of
      what the manual pages say of stat, unlink and readdir, each of which
      may fail for reasons of its own.
    - [RingLog]: the view of a ring in exclusive use as a growing list, with
      [get] for every index.  On it [Fuzz], [FuzzCyclicBuffer] and
      [FuzzTimeSeries] model the harnesses of fuzz/ block by block and prove
      that no input makes one of their checks fail.  [Bindings]
      (src/bindings/) translates the Python modules and proves what their
      validators and their producer/consumer object do; [PySession] runs
      scripts of any calls on the ring of the module.
    - [Examples] (examples/seqlock_example.cpp, cyclic_buffer_example.cpp): the
      two programs a user starts from, and what their readers print.
      [BindingsLoader]: the Python snapshot and double buffer.
    - [Bench] (bench/benchmark.cpp, benchmark_competitors.cpp): the payloads
      and every block as a program repeated any number of times.
      [BenchKernel]: what they compare with, the raw segment as an object that
      owns kernel resources, the pipe, the message queue, the socket pair; the
      kernel is the classes [PosixShm], [ByteStream] with [Pipe] and
      [SocketPair], and [MessageQueue], with the laws of the manual pages.

    ** Theorems by group

    Linearizability and interleavings: [load_linearizable],
    [try_get_concurrent], [lookups_wait_free], [lock_excludes],
    [storage_whole], [handoff_fifo]; on a machine
    with store buffers [seqlock_on_x86], [ring_on_x86], [series_on_x86],
    [storage_on_x86], [loader_on_x86], [delivery_on_x86].  Refinement of an abstract object:
    [ring_refines_list], [producer_consumer_is_channel], and on the same
    list [python_session].  Termination and
    progress: [load_finishes], [lock_no_deadlock], [load_blocking_not_lost],
    [wait_for_write_not_lost], [delivery_on_x86],
    [cross_process_delivers], [handoff_progress], [channels_hand_over], and the opposite,
    [load_stuck_writer], [try_read_slot_never_gives_up].  Equivalence: [combined_classes_equal], and with
    exhaustive search [find_closest_correct],
    [find_interpolation_pair_correct].  Whole
    programs: [fuzz_cyclic_buffer_never_traps],
    [fuzz_time_series_never_traps], [seqlock_example_prints],
    [cyclic_example_reports], [benchmarks_read_back], [lookups_benchmarked].  Effects and resources:
    [readers_invisible] (no reader's method changes the memory),
    [raw_segment_releases], [cleanup_removes_prefix].  Layout, bounds and round trips:
    [load_returns_last], [timespec_roundtrip], [to_timespec_exact],
    [image_size_exact], [get_any_index], [owned_shm_initialises].  Where the
    code falls short the files hold a concrete execution that shows it:
    [release_stores_tear], [fallback_drops_max_distance],
    [pair_moves_under_inserts],
    [destroy_breaks_exclusion], [back_to_back_loads_trap],
    [wait_returns_early], [throwing_consumer_stalls],
    [heartbeat_ahead_is_dead], [image_size_inexact],
    [odd_slots_misaligned], [loads_share_one_image],
    [array_follows_the_buffer].

    ** Fuel and bounds

    Loops are [Iter] without fuel; termination is part of [wp] and of
    the termination theorems.  Fuel appears only in [run] and [trace], used for
    concrete executions, where the result shows that it was enough, in
    equivalences for every amount of it, and in [python_session], which says
    how much is enough; and in [recv_loop], whose theorem says that one more
    than the buffer's length is enough.

    ** Not modelled

    The shm library (shm::Shm, shm::Semaphore), clocks, processes and the
    file system are parameters or interfaces, since their code is not in the
    repository, and so are the channels of the kernel; how often a benchmark
    repeats its operation, which nanobench decides, is an argument.  logger.hpp
    and config.hpp hold no logic.  Of segment names that are not one path
    component ([component]) nothing is said.  Tests are drivers.  Of memory models weaker than x86's
    only the store side is modelled, enough to show what fails there. *)
From Stdlib Require Export ZArith Lia.
From stdpp Require Export base decidable list numbers option.

Declare Scope shm_scope.
Delimit Scope shm_scope with shm.
#[global] Open Scope Z_scope.

Create HintDb shm.
Create Rewrite HintDb shm.

(** ** Machine words

    Unsigned integers are [Z] kept in range by an explicit wrap-around. *)

Definition wrap (w z : Z) : Z := z mod 2 ^ w.
Definition u8 (z : Z) : Z := wrap 8 z.
Definition u32 (z : Z) : Z := wrap 32 z.
Definition u64 (z : Z) : Z := wrap 64 z.
Definition i32 (z : Z) : Z := let r := u32 z in if r <? 2 ^ 31 then r else r - 2 ^ 32.

Definition uint32_max : Z := 2 ^ 32 - 1.
Definition uint64_max : Z := 2 ^ 64 - 1.

Section Wrap.
Context (w : Z) (Hw : 0 <= w).

Lemma wrap_range z : 0 <= wrap w z < 2 ^ w.
Proof using Hw. apply Z.mod_pos_bound, Z.pow_pos_nonneg; lia. Qed.

Lemma wrap_small z : 0 <= z < 2 ^ w -> wrap w z = z.
Proof using Type. apply Z.mod_small. Qed.

Lemma wrap_wrap z : wrap w (wrap w z) = wrap w z.
Proof using Hw. apply wrap_small, wrap_range. Qed.

Lemma wrap_add_l a b : wrap w (wrap w a + b) = wrap w (a + b).
Proof using Type. apply Zplus_mod_idemp_l. Qed.

Lemma wrap_add_r a b : wrap w (a + wrap w b) = wrap w (a + b).
Proof using Type. apply Zplus_mod_idemp_r. Qed.

Lemma wrap_sub_l a b : wrap w (wrap w a - b) = wrap w (a - b).
Proof using Type. apply Zminus_mod_idemp_l. Qed.

Lemma wrap_sub_r a b : wrap w (a - wrap w b) = wrap w (a - b).
Proof using Type. apply Zminus_mod_idemp_r. Qed.

(** Two numbers less than a full turn apart are told apart by their wraps. *)
Lemma wrap_inj_window a b : a <= b < a + 2 ^ w -> wrap w a = wrap w b -> a = b.
Proof using Hw.
  unfold wrap; intros Hab Heq.
  assert (0 < 2 ^ w) by (apply Z.pow_pos_nonneg; lia).
  pose proof (Z.div_mod a (2 ^ w)); pose proof (Z.div_mod b (2 ^ w)).
  assert (a / 2 ^ w = b / 2 ^ w) by nia.
  lia.
Qed.
End Wrap.

Lemma u32_range z : 0 <= u32 z < 2 ^ 32.
Proof. apply wrap_range; lia. Qed.

Lemma u64_range z : 0 <= u64 z < 2 ^ 64.
Proof. apply wrap_range; lia. Qed.

Lemma u32_small z : 0 <= z < 2 ^ 32 -> u32 z = z.
Proof. apply wrap_small. Qed.

Lemma u64_small z : 0 <= z < 2 ^ 64 -> u64 z = z.
Proof. apply wrap_small. Qed.

(** The low 32 bits of a 64-bit counter are the 32-bit counter. *)
Lemma u32_u64 z : u32 (u64 z) = u32 z.
Proof.
  unfold u32, u64, wrap. change (2 ^ 64) with (2 ^ 32 * 2 ^ 32).
  rewrite Z.rem_mul_r, Z.add_mod_idemp_l by lia.
  rewrite Z.add_mod, (Z.mul_comm (2 ^ 32)), Z.mod_mul, Z.add_0_r, !Z.mod_mod by lia.
  reflexivity.
Qed.

(** Parity survives the wrap: bit 0 of a counter is bit 0 of its low word. *)
Lemma land_1_mod z : Z.land z 1 = z mod 2.
Proof. change 1 with (Z.ones 1) at 1. rewrite Z.land_ones by lia. reflexivity. Qed.

Lemma u32_parity z : Z.land (u32 z) 1 = z mod 2.
Proof.
  rewrite land_1_mod. unfold u32, wrap.
  change (2 ^ 32) with (2 * 2 ^ 31).
  rewrite Z.rem_mul_r, Z.mul_comm, Z.mod_add by lia. apply Z.mod_mod; lia.
Qed.

(** Masking with a power of two minus one is the remainder. *)
Lemma land_mask (x k : Z) : 0 <= k -> Z.land x (2 ^ k - 1) = x mod 2 ^ k.
Proof. intros. rewrite <- Z.land_ones by lia. rewrite Z.ones_equiv. reflexivity. Qed.

(** A multiple of a power of two from four on is a multiple of four. *)
Lemma mod_pow2_4 a x : 2 <= a -> x mod 2 ^ a = 0 -> x mod 4 = 0.
Proof.
  intros Ha Hx. assert (0 < 2 ^ a) by (apply Z.pow_pos_nonneg; lia).
  apply Z.mod_divide in Hx; [|lia]. destruct Hx as [q ->].
  replace (2 ^ a) with (2 ^ (a - 2) * 4).
  - rewrite Z.mul_assoc. apply Z.mod_mul. lia.
  - change 4 with (2 ^ 2). rewrite <- Z.pow_add_r by lia. f_equal. lia.
Qed.

#[export] Hint Resolve u32_range u64_range wrap_range : shm.

(** ** Tactics *)

(** Turn boolean comparisons in the context into propositions. *)
Ltac zbool :=
  repeat match goal with
  | H : (_ <? _) = true |- _ => apply Z.ltb_lt in H
  | H : (_ <? _) = false |- _ => apply Z.ltb_ge in H
  | H : (_ <=? _) = true |- _ => apply Z.leb_le in H
  | H : (_ <=? _) = false |- _ => apply Z.leb_gt in H
  | H : (_ >? _) = true |- _ => rewrite Z.gtb_ltb in H; apply Z.ltb_lt in H
  | H : (_ >? _) = false |- _ => rewrite Z.gtb_ltb in H; apply Z.ltb_ge in H
  | H : (_ >=? _) = true |- _ => rewrite Z.geb_leb in H; apply Z.leb_le in H
  | H : (_ >=? _) = false |- _ => rewrite Z.geb_leb in H; apply Z.leb_gt in H
  | H : (_ =? _) = true |- _ => apply Z.eqb_eq in H
  | H : (_ =? _) = false |- _ => apply Z.eqb_neq in H
  | H : andb _ _ = true |- _ => apply andb_prop in H; destruct H
  | H : negb _ = true |- _ => apply negb_true_iff in H
  | H : negb _ = false |- _ => apply negb_false_iff in H
  end.

(** Split on the boolean scrutinised by the goal, then normalise. *)
Ltac zcase :=
  match goal with
  | |- context [if ?b then _ else _] => destruct b eqn:?; zbool
  end.

(** Break the option/pair binds that a successful run leaves behind. *)
Ltac inv_some :=
  repeat match goal with
  | H : Some _ = Some _ |- _ => injection H as H; subst
  | H : None = Some _ |- _ => discriminate H
  | H : Some _ = None |- _ => discriminate H
  | H : (_, _) = (_, _) |- _ => injection H as H; subst
  end.

(** ** Little-endian words *)

Fixpoint le_bytes (n : nat) (v : Z) : list Z :=
  match n with
  | O => []
  | S n => v mod 256 :: le_bytes n (v / 256)
  end.

Fixpoint le_val (bs : list Z) : Z :=
  match bs with
  | [] => 0
  | b :: bs => b + 256 * le_val bs
  end.

Lemma length_le_bytes n v : length (le_bytes n v) = n.
Proof. revert v; induction n; simpl; auto. Qed.

Lemma le_val_bytes n v : le_val (le_bytes n v) = v mod 2 ^ (8 * Z.of_nat n).
Proof.
  revert v; induction n as [|n IH]; intros v; cbn [le_bytes le_val].
  { rewrite Z.mul_0_r. change (2 ^ 0) with 1. rewrite Z.mod_1_r. reflexivity. }
  rewrite IH. replace (8 * Z.of_nat (S n)) with (8 + 8 * Z.of_nat n) by lia.
  rewrite Z.pow_add_r by lia. change (2 ^ 8) with 256.
  rewrite Z.rem_mul_r by lia. reflexivity.
Qed.

Definition byte_ok (b : Z) : Prop := 0 <= b < 256.

Lemma le_bytes_ok n v : Forall byte_ok (le_bytes n v).
Proof.
  revert v; induction n; intros v; simpl; constructor; auto.
  apply Z.mod_pos_bound; lia.
Qed.

Lemma le_bytes_val bs : Forall byte_ok bs -> le_bytes (length bs) (le_val bs) = bs.
Proof.
  induction 1 as [|b bs Hb _ IH]; [reflexivity|]. cbn [length le_bytes le_val].
  unfold byte_ok in Hb. f_equal.
  - rewrite Z.mul_comm, Z.mod_add by lia. apply Z.mod_small; lia.
  - rewrite Z.mul_comm, Z.div_add, Z.div_small by lia. exact IH.
Qed.

Lemma le_val_range bs : Forall byte_ok bs -> 0 <= le_val bs < 2 ^ (8 * Z.of_nat (length bs)).
Proof.
  intros Hbs. rewrite <- (le_bytes_val bs Hbs), le_val_bytes, length_le_bytes.
  apply Z.mod_pos_bound, Z.pow_pos_nonneg; lia.
Qed.

Lemma le_val_app bs cs :
  le_val (bs ++ cs) = le_val bs + 2 ^ (8 * Z.of_nat (length bs)) * le_val cs.
Proof.
  induction bs as [|b bs IH]; cbn [app le_val length]; [rewrite Z.mul_0_r; lia|].
  rewrite IH. replace (8 * Z.of_nat (S (length bs))) with (8 + 8 * Z.of_nat (length bs)) by lia.
  rewrite Z.pow_add_r by lia. change (2 ^ 8) with 256. lia.
Qed.

#[export] Hint Resolve le_bytes_ok : shm.
#[export] Hint Rewrite length_le_bytes : shm.
