(* ===== verification/Memory.v ===== *)
(** * Shared memory as a region of bytes

    The [shm::Shm] object of the [shm] library hands out a pointer to a
    mapped region; every header under [include/safe-shm/] then computes byte
    offsets from that pointer.  A region is the list of its bytes, read and
    written by offset.  Words are little-endian (x86_64 and ARM64 Linux). *)
From S2P Require Import Prelude.

Abbreviation mem := (list Z).

(** ** Raw byte ranges *)

Definition rd (m : mem) (off : Z) (n : nat) : list Z := take n (drop (Z.to_nat off) m).
Definition wr (m : mem) (off : Z) (bs : list Z) : mem := list_inserts (Z.to_nat off) bs m.

(** The access [off, off + n) lies inside the mapping. *)
Definition in_bounds (m : mem) (off : Z) (n : nat) : bool :=
  (0 <=? off) && (off + Z.of_nat n <=? Z.of_nat (length m)).

(** An atomic access of [n] bytes: inside the mapping and aligned to its size
    (mappings start on a page boundary, so the offset decides). *)
Definition atomic_ok (m : mem) (off : Z) (n : nat) : bool :=
  in_bounds m off n && (off mod Z.of_nat n =? 0).

Definition ld32 (m : mem) (off : Z) : Z := le_val (rd m off 4).
Definition ld64 (m : mem) (off : Z) : Z := le_val (rd m off 8).
Definition st32 (m : mem) (off v : Z) : mem := wr m off (le_bytes 4 v).
Definition st64 (m : mem) (off v : Z) : mem := wr m off (le_bytes 8 v).

(** A fresh mapping is zero-filled. *)
Definition fresh (n : Z) : mem := replicate (Z.to_nat n) 0.

Definition disjoint (o1 : Z) (n1 : nat) (o2 : Z) (n2 : nat) : Prop :=
  o1 + Z.of_nat n1 <= o2 \/ o2 + Z.of_nat n2 <= o1.

(** ** Laws of reading and writing *)

Lemma length_wr m off bs : length (wr m off bs) = length m.
Proof. apply length_inserts. Qed.

Lemma rd_lookup m off n i :
  rd m off n !! i = if decide (i < n)%nat then m !! (Z.to_nat off + i)%nat else None.
Proof.
  unfold rd. case_decide.
  - rewrite lookup_take_lt by done. apply lookup_drop.
  - apply lookup_take_ge. lia.
Qed.

Lemma length_rd m off n : in_bounds m off n = true -> length (rd m off n) = n.
Proof.
  unfold in_bounds, rd. intros. zbool. rewrite length_take, length_drop. lia.
Qed.

Lemma in_bounds_wr m off' bs off n : in_bounds (wr m off' bs) off n = in_bounds m off n.
Proof. unfold in_bounds. rewrite length_wr. reflexivity. Qed.

Lemma atomic_ok_wr m off' bs off n : atomic_ok (wr m off' bs) off n = atomic_ok m off n.
Proof. unfold atomic_ok. rewrite in_bounds_wr. reflexivity. Qed.

Lemma in_bounds_intro m off n :
  0 <= off -> off + Z.of_nat n <= Z.of_nat (length m) -> in_bounds m off n = true.
Proof. intros. unfold in_bounds. apply andb_true_intro; split; apply Z.leb_le; lia. Qed.

Lemma atomic_ok_bounds m off n : atomic_ok m off n = true -> in_bounds m off n = true.
Proof. unfold atomic_ok. intros. zbool. done. Qed.

Lemma atomic_ok_intro m off n :
  0 <= off -> off + Z.of_nat n <= Z.of_nat (length m) -> off mod Z.of_nat n = 0 ->
  atomic_ok m off n = true.
Proof.
  intros. unfold atomic_ok. rewrite in_bounds_intro by done. by apply Z.eqb_eq.
Qed.

(** What was written is read back. *)
Lemma rd_wr_same m off bs :
  in_bounds m off (length bs) = true -> rd (wr m off bs) off (length bs) = bs.
Proof.
  unfold in_bounds. intros. zbool. apply list_eq. intros i. rewrite rd_lookup. case_decide.
  - unfold wr. rewrite list_lookup_inserts by lia. f_equal. lia.
  - symmetry. apply lookup_ge_None. lia.
Qed.

Lemma rd_wr_same' m off bs n :
  n = length bs -> in_bounds m off n = true -> rd (wr m off bs) off n = bs.
Proof. intros ->. apply rd_wr_same. Qed.

(** A write does not disturb a disjoint range. *)
Lemma rd_wr_disjoint m off n off' bs :
  0 <= off -> 0 <= off' -> disjoint off n off' (length bs) ->
  rd (wr m off' bs) off n = rd m off n.
Proof.
  intros H0 H1 Hd. apply list_eq. intros i. rewrite !rd_lookup. case_decide; [|done].
  unfold wr. destruct Hd.
  - apply list_lookup_inserts_lt. lia.
  - apply list_lookup_inserts_ge. lia.
Qed.

Lemma rd_app m off n1 n2 :
  0 <= off -> rd m off (n1 + n2) = rd m off n1 ++ rd m (off + Z.of_nat n1) n2.
Proof.
  intros. unfold rd. rewrite Z2Nat.inj_add, Nat2Z.id by lia.
  rewrite <- drop_drop. symmetry. apply take_take_drop.
Qed.

(** Equal ranges have equal parts. *)
Lemma rd_part m m' off n k l :
  0 <= off -> (k + l <= n)%nat -> rd m' off n = rd m off n -> rd m' (off + Z.of_nat k) l = rd m (off + Z.of_nat k) l.
Proof.
  intros H0 Hl E. apply list_eq. intros i. rewrite !rd_lookup. case_decide; [|done].
  pose proof (f_equal (fun x => x !! (k + i)%nat) E) as Ei. cbn beta in Ei. rewrite !rd_lookup, !decide_True in Ei by lia.
  by replace (Z.to_nat (off + Z.of_nat k) + i)%nat with (Z.to_nat off + (k + i))%nat by lia.
Qed.

Lemma rd_0 m off : rd m off 0 = [].
Proof. reflexivity. Qed.

(** Byte-by-byte writing is a block write. *)
Lemma wr_cons m off b bs :
  0 <= off -> in_bounds m off (S (length bs)) = true ->
  wr (wr m off [b]) (off + 1) bs = wr m off (b :: bs).
Proof.
  intros H0 Hb. unfold in_bounds in Hb. zbool. apply list_eq. intros i.
  unfold wr. rewrite Z2Nat.inj_add by lia. change (Z.to_nat 1) with 1%nat.
  destruct (decide (i < Z.to_nat off)%nat).
  { rewrite !list_lookup_inserts_lt by lia. done. }
  destruct (decide (i = Z.to_nat off)) as [->|].
  { rewrite list_lookup_inserts_lt by lia.
    rewrite !list_lookup_inserts by (simpl; lia). rewrite !Nat.sub_diag. done. }
  destruct (decide (i < Z.to_nat off + 1 + length bs)%nat).
  - rewrite !list_lookup_inserts by (rewrite ?length_inserts; simpl; lia).
    replace (i - Z.to_nat off)%nat with (S (i - (Z.to_nat off + 1)))%nat by lia. done.
  - rewrite !list_lookup_inserts_ge by (simpl; lia). done.
Qed.

Lemma wr_nil m off : wr m off [] = m.
Proof. reflexivity. Qed.

(** Two memories of the same size that agree on a range. *)
Definition agree (off : Z) (n : nat) (m m' : mem) : Prop :=
  length m = length m' /\ rd m off n = rd m' off n.

#[export] Instance agree_equiv off n : Equivalence (agree off n).
Proof.
  split.
  - by intros m.
  - intros m m' [? ?]; split; congruence.
  - intros a b c [? ?] [? ?]; split; congruence.
Qed.

Lemma agree_wr off n m off' bs :
  0 <= off -> 0 <= off' -> disjoint off n off' (length bs) ->
  agree off n (wr m off' bs) m.
Proof. intros. split; [apply length_wr | by apply rd_wr_disjoint]. Qed.

Lemma agree_sub off n off' n' m m' :
  0 <= off -> off <= off' -> off' + Z.of_nat n' <= off + Z.of_nat n ->
  agree off n m m' -> agree off' n' m m'.
Proof.
  intros ? ? ? [Hl Hr]. split; [done|]. apply list_eq. intros i.
  rewrite !rd_lookup. case_decide; [|done].
  assert (Hi := f_equal (.!! (Z.to_nat off' - Z.to_nat off + i)%nat) Hr). cbn in Hi.
  rewrite !rd_lookup in Hi. rewrite !decide_True in Hi by lia.
  replace (Z.to_nat off' + i)%nat
    with (Z.to_nat off + (Z.to_nat off' - Z.to_nat off + i))%nat by lia. done.
Qed.

Lemma in_bounds_length m m' off n : length m = length m' -> in_bounds m off n = in_bounds m' off n.
Proof. unfold in_bounds. intros ->. done. Qed.

Lemma atomic_ok_length m m' off n : length m = length m' -> atomic_ok m off n = atomic_ok m' off n.
Proof. unfold atomic_ok. intros H. by rewrite (in_bounds_length _ _ _ _ H). Qed.

#[export] Instance ld32_agree off : Proper (agree off 4 ==> eq) (fun m => ld32 m off).
Proof. intros m m' [_ H]. unfold ld32. by rewrite H. Qed.

#[export] Instance ld64_agree off : Proper (agree off 8 ==> eq) (fun m => ld64 m off).
Proof. intros m m' [_ H]. unfold ld64. by rewrite H. Qed.

(** Two memories of the same size that agree everywhere but on a range. *)
Definition outside (off : Z) (n : nat) (m m' : mem) : Prop :=
  length m = length m' /\
  forall i, (i < Z.to_nat off \/ Z.to_nat off + n <= i)%nat -> m !! i = m' !! i.

#[export] Instance outside_equiv off n : Equivalence (outside off n).
Proof.
  split.
  - by intros m.
  - intros m m' [? H]; split; [done|]. intros i Hi. symmetry. by apply H.
  - intros a b c [? Hab] [? Hbc]; split; [congruence|]. intros i Hi.
    rewrite Hab by done. by apply Hbc.
Qed.

Lemma outside_wr off n m bs : (length bs <= n)%nat -> outside off n (wr m off bs) m.
Proof.
  intros. split; [apply length_wr|]. intros i [Hi|Hi]; unfold wr.
  - apply list_lookup_inserts_lt. lia.
  - apply list_lookup_inserts_ge. lia.
Qed.

Lemma outside_sub off n off' n' m m' :
  0 <= off <= off' -> off' + Z.of_nat n' <= off + Z.of_nat n ->
  outside off' n' m m' -> outside off n m m'.
Proof. intros ? ? [? H]. split; [done|]. intros i Hi. apply H. lia. Qed.

Lemma outside_agree off n o k m m' :
  0 <= off -> 0 <= o -> disjoint o k off n -> outside off n m m' -> agree o k m m'.
Proof.
  intros ? ? Hd [? H]. split; [done|]. apply list_eq. intros i. rewrite !rd_lookup.
  case_decide; [|done]. apply H. unfold disjoint in Hd. lia.
Qed.

(** ** Words *)

Lemma ld32_st32_same m off v :
  in_bounds m off 4 = true -> ld32 (st32 m off v) off = u32 v.
Proof.
  intros. unfold ld32, st32. rewrite (rd_wr_same' m off (le_bytes 4 v) 4) by done.
  rewrite le_val_bytes. reflexivity.
Qed.

Lemma ld64_st64_same m off v :
  in_bounds m off 8 = true -> ld64 (st64 m off v) off = u64 v.
Proof.
  intros. unfold ld64, st64. rewrite (rd_wr_same' m off (le_bytes 8 v) 8) by done.
  rewrite le_val_bytes. reflexivity.
Qed.

(** A futex on a 64-bit counter looks at the counter's low 32 bits. *)
Lemma ld32_st64_low m off v :
  in_bounds m off 8 = true -> ld32 (st64 m off v) off = u32 v.
Proof.
  intros Hb.
  assert (Hs : rd (st64 m off v) off 8 = le_bytes 8 v) by by apply rd_wr_same'.
  assert (H0 : 0 <= off) by (unfold in_bounds in Hb; zbool; lia).
  rewrite (rd_app _ _ 4 4) in Hs by done.
  unfold ld32. apply (f_equal (take 4)) in Hs. unfold rd at 1 in Hs.
  rewrite take_app_length' in Hs.
  - unfold rd. rewrite Hs. cbn [le_bytes take].
    change ([v mod 256; v / 256 mod 256; v / 256 / 256 mod 256; v / 256 / 256 / 256 mod 256])
      with (le_bytes 4 v). rewrite le_val_bytes. reflexivity.
  - unfold in_bounds in Hb. zbool. unfold st64, wr.
    rewrite length_take, length_drop, length_inserts. lia.
Qed.

Lemma ld32_range m off : Forall byte_ok m -> 0 <= ld32 m off < 2 ^ 32.
Proof.
  intros Hm. unfold ld32.
  assert (Hf : Forall byte_ok (rd m off 4)) by (unfold rd; auto using Forall_take, Forall_drop).
  pose proof (le_val_range _ Hf) as Hr.
  assert (length (rd m off 4) <= 4)%nat by (unfold rd; rewrite length_take; lia).
  assert (2 ^ (8 * Z.of_nat (length (rd m off 4))) <= 2 ^ 32) by (apply Z.pow_le_mono_r; lia).
  lia.
Qed.

Lemma length_st32 m off v : length (st32 m off v) = length m.
Proof. apply length_wr. Qed.

Lemma length_st64 m off v : length (st64 m off v) = length m.
Proof. apply length_wr. Qed.

Lemma length_fresh n : length (fresh n) = Z.to_nat n.
Proof. apply length_replicate. Qed.

Lemma rd_fresh sz off n :
  in_bounds (fresh sz) off n = true -> rd (fresh sz) off n = replicate n 0.
Proof.
  unfold in_bounds. rewrite length_fresh. intros. zbool. unfold rd, fresh.
  rewrite drop_replicate, take_replicate. f_equal. lia.
Qed.

#[export] Hint Rewrite length_wr length_st32 length_st64 length_fresh
  in_bounds_wr atomic_ok_wr : shm.
#[export] Hint Resolve atomic_ok_bounds : shm.
