(* ===== verification/Prog.v ===== *)
(** * Programs over shared memory

    The methods of the library are sequences of atomic loads and stores,
    byte copies and futex system calls on the mapped region, with loops that
    retry.  [prog A] is the syntax of such a method; [run] executes it one
    action at a time, letting an environment (the other processes) change
    the memory before every action and choose what each futex wait returns. *)
From S2P Require Import Prelude Memory.

Record timespec := Timespec { tv_sec : Z; tv_nsec : Z }.

(** The orders of [std::memory_order] the code names; [plain] is an access to
    a member that is not atomic. Interleaving is blind to them. *)
Inductive memory_order : Set := plain | relaxed | acquire | release.

(** The actions, with the type of their result: [std::atomic_ref] loads,
    stores and exchanges, one byte of a [memcpy], and the [SYS_futex] system
    call ([FUTEX_WAIT] answers the pair of its return code and [errno]). *)
Inductive act : Set -> Set :=
| ALoad32 (o : memory_order) (off : Z) : act Z
| AStore32 (o : memory_order) (off v : Z) : act unit
| AXchg32 (o : memory_order) (off v : Z) : act Z
| ALoad64 (o : memory_order) (off : Z) : act Z
| AStore64 (o : memory_order) (off v : Z) : act unit
| ALoadB (off : Z) : act Z
| AStoreB (off b : Z) : act unit
| AFutexWait (off expected : Z) (timeout : option timespec) : act (Z * Z)
| AFutexWake (off count : Z) : act unit.

Inductive prog (A : Set) : Type :=
| Ret (a : A)
| Act (a : act A)
| Bind (B : Set) (p : prog B) (k : B -> prog A)
| Iter (S : Set) (body : S -> prog (S + A)) (s : S).
Arguments Ret {A} a.
Arguments Act {A} a.
Arguments Bind {A B} p k.
Arguments Iter {A S} body s.

Notation "x <- p ;; q" := (Bind p (fun x => q))
  (at level 100, p at next level, right associativity) : shm_scope.
Notation "p ;;; q" := (Bind p (fun _ => q))
  (at level 100, right associativity) : shm_scope.
#[global] Open Scope shm_scope.

Definition load32 (o : memory_order) (off : Z) : prog Z := Act (ALoad32 o off).
Definition store32 (o : memory_order) (off v : Z) : prog unit := Act (AStore32 o off v).
Definition exchange32 (o : memory_order) (off v : Z) : prog Z := Act (AXchg32 o off v).
Definition load64 (o : memory_order) (off : Z) : prog Z := Act (ALoad64 o off).
Definition store64 (o : memory_order) (off v : Z) : prog unit := Act (AStore64 o off v).
Definition load_byte (off : Z) : prog Z := Act (ALoadB off).
Definition store_byte (off b : Z) : prog unit := Act (AStoreB off b).
Definition futex_wait_call (off expected : Z) (timeout : option timespec) : prog (Z * Z) :=
  Act (AFutexWait off expected timeout).
Definition futex_wake_call (off count : Z) : prog unit := Act (AFutexWake off count).

(** The end of the program: an access that is never allowed. *)
Definition trap : prog unit := load_byte (-1) ;;; Ret tt.

(** An assertion that fails, and equally a null dereference: no further
    behaviour. *)
Definition assert (b : bool) : prog unit := if b then Ret tt else trap.

(** [while (true)] whose body either goes round again ([None]) or returns. *)
Definition forever {A : Set} (body : prog (option A)) : prog A :=
  Iter (fun _ : unit =>
    r <- body ;; Ret (match r with Some a => inr a | None => inl tt end)) tt.

(** [std::memcpy] out of and into the region, byte by byte. *)
Fixpoint memcpy_from (off : Z) (n : nat) : prog (list Z) :=
  match n with
  | O => Ret []
  | S n => b <- load_byte off ;; bs <- memcpy_from (off + 1) n ;; Ret (b :: bs)
  end.

Fixpoint memcpy_to (off : Z) (bs : list Z) : prog unit :=
  match bs with
  | [] => Ret tt
  | b :: bs => store_byte off b ;;; memcpy_to (off + 1) bs
  end.

(** ** One action

    [None] is undefined behaviour: an access outside the mapping, or an
    atomic access that is not aligned. *)
Definition guard_opt {A : Set} (b : bool) (x : A) : option A := if b then Some x else None.

Definition act_step (rc : Z * Z) {A : Set} (a : act A) (m : mem) : option (A * mem) :=
  match a in act A return option (A * mem) with
  | ALoad32 _ off => guard_opt (atomic_ok m off 4) (ld32 m off, m)
  | AStore32 _ off v => guard_opt (atomic_ok m off 4) (tt, st32 m off v)
  | AXchg32 _ off v => guard_opt (atomic_ok m off 4) (ld32 m off, st32 m off v)
  | ALoad64 _ off => guard_opt (atomic_ok m off 8) (ld64 m off, m)
  | AStore64 _ off v => guard_opt (atomic_ok m off 8) (tt, st64 m off v)
  | ALoadB off => guard_opt (in_bounds m off 1) (le_val (rd m off 1), m)
  | AStoreB off b => guard_opt (in_bounds m off 1) (tt, wr m off [b])
  | AFutexWait off _ _ => guard_opt (atomic_ok m off 4) (rc, m)
  | AFutexWake off _ => guard_opt (atomic_ok m off 4) (tt, m)
  end.

(** A program that needs no further action has a result. *)
Fixpoint ret_of {A : Set} (p : prog A) : option A :=
  match p with
  | Ret a => Some a
  | Act _ => None
  | Bind p k => match ret_of p with Some b => ret_of (k b) | None => None end
  | Iter _ _ => None
  end.

(** The next step: the first action, or unrolling a loop once. *)
Fixpoint step (rc : Z * Z) {A : Set} (p : prog A) (m : mem) : option (prog A * mem) :=
  match p with
  | Ret _ => None
  | Act a => match act_step rc a m with
             | Some (v, m') => Some (Ret v, m')
             | None => None
             end
  | Bind p k =>
      match ret_of p with
      | Some b => step rc (k b) m
      | None => match step rc p m with
                | Some (p', m') => Some (Bind p' k, m')
                | None => None
                end
      end
  | Iter body s =>
      Some (Bind (body s) (fun r => match r with inl s' => Iter body s' | inr a => Ret a end), m)
  end.

(** ** Runs *)

Record env := Env {
  interfere : nat -> mem -> mem;   (* what the others do before step t *)
  futex_rc : nat -> Z * Z          (* what a futex wait at step t answers *)
}.

Inductive result (A : Set) : Set :=
| Value (a : A) (t : nat) (m : mem)
| UB
| OutOfFuel.
Arguments Value {A} a t m.
Arguments UB {A}.
Arguments OutOfFuel {A}.

Fixpoint run (fuel : nat) (e : env) {A : Set} (p : prog A) (t : nat) (m : mem) : result A :=
  match ret_of p with
  | Some a => Value a t m
  | None =>
      match fuel with
      | O => OutOfFuel
      | S fuel =>
          match step (futex_rc e t) p (interfere e t m) with
          | Some (p', m') => run fuel e p' (S t) m'
          | None => UB
          end
      end
  end.

(** The memories met by a run, each as the step sees it. *)
Fixpoint hist (n : nat) (e : env) {A : Set} (p : prog A) (t : nat) (m : mem) : list mem :=
  match n with
  | O => []
  | S n =>
      match step (futex_rc e t) p (interfere e t m) with
      | Some (p', m') => interfere e t m :: hist n e p' (S t) m'
      | None => []
      end
  end.

(** [p] started at step [t] on [m] finishes at step [t'] on [m'] with [a]. *)
Definition runs (e : env) {A : Set} (p : prog A) (t : nat) (m : mem) (a : A) (t' : nat) (m' : mem) : Prop :=
  (t <= t')%nat /\ run (t' - t) e p t m = Value a t' m'.

(** Total correctness: the run finishes, and its result, final memory and
    history satisfy [Q]. *)
Definition wp (e : env) {A : Set} (p : prog A) (t : nat) (m : mem)
    (Q : A -> nat -> mem -> list mem -> Prop) : Prop :=
  exists a t' m', runs e p t m a t' m' /\ Q a t' m' (hist (t' - t) e p t m).

(** No interference: the process has the region for itself. *)
Definition quiet (rc : nat -> Z * Z) : env := Env (fun _ m => m) rc.

(** A process that only reads sees, at step [t], the memory [obs t]. *)
Definition observing (obs : nat -> mem) (rc : nat -> Z * Z) : env := Env (fun t _ => obs t) rc.

(** ** Laws of [run] *)
Section Laws.
Context (e : env).

Lemma run_ret {A : Set} (a : A) f t m : run f e (Ret a) t m = Value a t m.
Proof using Type. destruct f; reflexivity. Qed.

Lemma run_time {A : Set} f (p : prog A) t m a t' m' :
  run f e p t m = Value a t' m' -> (t <= t' <= t + f)%nat.
Proof using Type.
  revert p t m; induction f as [|f IH]; intros p t m; simpl;
    destruct (ret_of p); try discriminate; try (intros [= -> -> ->]; lia).
  destruct (step _ p _) as [[p' m1]|]; [|discriminate].
  intros H. apply IH in H. lia.
Qed.

(** More fuel changes nothing. *)
Lemma run_more {A : Set} f (p : prog A) t m a t' m' :
  run f e p t m = Value a t' m' ->
  forall f', (t' - t <= f')%nat -> run f' e p t m = Value a t' m'.
Proof using Type.
  revert p t m; induction f as [|f IH]; intros p t m; simpl;
    destruct (ret_of p) eqn:Er; try discriminate.
  - intros [= -> -> ->] f' _. destruct f'; simpl; rewrite Er; done.
  - intros [= -> -> ->] f' _. destruct f'; simpl; rewrite Er; done.
  - destruct (step _ p _) as [[p' m1]|] eqn:Es; [|discriminate].
    intros H f' Hf. pose proof (run_time _ _ _ _ _ _ _ H).
    destruct f' as [|f']; [lia|]. simpl. rewrite Er, Es. apply IH; [done|lia].
Qed.

Lemma run_runs {A : Set} f (p : prog A) t m a t' m' :
  run f e p t m = Value a t' m' -> runs e p t m a t' m'.
Proof using Type.
  intros H. pose proof (run_time _ _ _ _ _ _ _ H). split; [lia|].
  eapply run_more; eauto.
Qed.

Lemma runs_run {A : Set} (p : prog A) t m a t' m' f :
  runs e p t m a t' m' -> (t' - t <= f)%nat -> run f e p t m = Value a t' m'.
Proof using Type. intros [_ H] Hf. eapply run_more; eauto. Qed.

(** Runs are deterministic once the environment is fixed. *)
Lemma runs_det {A : Set} (p : prog A) t m a1 t1 m1 a2 t2 m2 :
  runs e p t m a1 t1 m1 -> runs e p t m a2 t2 m2 -> a1 = a2 /\ t1 = t2 /\ m1 = m2.
Proof using Type.
  intros H1 H2.
  pose proof (runs_run _ _ _ _ _ _ (Nat.max (t1 - t) (t2 - t)) H1 ltac:(lia)) as E1.
  pose proof (runs_run _ _ _ _ _ _ (Nat.max (t1 - t) (t2 - t)) H2 ltac:(lia)) as E2.
  rewrite E1 in E2. by injection E2.
Qed.

Lemma runs_ret {A : Set} (a : A) t m a' t' m' :
  runs e (Ret a) t m a' t' m' <-> a' = a /\ t' = t /\ m' = m.
Proof using Type.
  unfold runs. rewrite run_ret. split.
  - intros [_ [= -> -> ->]]. done.
  - intros (-> & -> & ->). split; [lia|done].
Qed.

Lemma runs_step {A : Set} (p : prog A) t m a t' m' :
  ret_of p = None ->
  runs e p t m a t' m' <->
  exists p1 m1, step (futex_rc e t) p (interfere e t m) = Some (p1, m1)
                /\ runs e p1 (S t) m1 a t' m'.
Proof using Type.
  intros Er. split.
  - intros [Hle H]. destruct (t' - t)%nat as [|f] eqn:Ef; simpl in H; rewrite Er in H;
      [discriminate|].
    destruct (step _ p _) as [[p1 m1]|]; [|discriminate].
    exists p1, m1. split; [done|]. by apply run_runs with f.
  - intros (p1 & m1 & Es & [Hle H]). split; [lia|].
    replace (t' - t)%nat with (S (t' - S t)) by lia. simpl. rewrite Er, Es. done.
Qed.

Lemma ret_of_runs {A : Set} (p : prog A) b t m :
  ret_of p = Some b -> forall a t' m', runs e p t m a t' m' <-> a = b /\ t' = t /\ m' = m.
Proof using Type.
  intros Er a t' m'. unfold runs.
  destruct (t' - t)%nat eqn:E; simpl; rewrite Er; split;
    try (intros [? [= -> -> ->]]; split; [done|split; [lia|done]]);
    intros (-> & -> & ->); lia || (split; [lia|done]).
Qed.

Lemma runs_bind_ret {A B : Set} (p : prog B) (k : B -> prog A) b t m a t' m' :
  ret_of p = Some b ->
  runs e (Bind p k) t m a t' m' <-> runs e (k b) t m a t' m'.
Proof using Type.
  intros Er. destruct (ret_of (k b)) as [a'|] eqn:Ek.
  - assert (ret_of (Bind p k) = Some a') by (simpl; rewrite Er; done).
    rewrite !ret_of_runs by eauto. done.
  - rewrite !runs_step by (simpl; rewrite ?Er; done). simpl. rewrite Er. done.
Qed.

Lemma runs_bind {A B : Set} (p : prog B) (k : B -> prog A) t m a t' m' :
  runs e (Bind p k) t m a t' m' <->
  exists b t1 m1, runs e p t m b t1 m1 /\ runs e (k b) t1 m1 a t' m'.
Proof using Type.
  remember (t' - t)%nat as n eqn:En. revert p t m En.
  induction n as [n IH] using lt_wf_ind; intros p t m En.
  destruct (ret_of p) as [b|] eqn:Er.
  { rewrite (runs_bind_ret _ _ b) by done. split.
    - intros H. exists b, t, m. split; [|done]. by apply (ret_of_runs p b t m Er).
    - intros (b' & t1 & m1 & Hp & Hk). rewrite ret_of_runs in Hp by eauto.
      destruct Hp as (-> & -> & ->). done. }
  rewrite runs_step by (simpl; rewrite Er; done). simpl. rewrite Er. split.
  - intros (p1 & m1 & Es & H).
    destruct (step _ p _) as [[p0 m0]|] eqn:Ep; [|discriminate].
    injection Es as <- <-. pose proof (proj1 H).
    apply (IH (t' - S t)%nat) in H; [|lia|done].
    destruct H as (b & t1 & m1' & Hp & Hk). exists b, t1, m1'. split; [|done].
    rewrite runs_step by done. eauto.
  - intros (b & t1 & m1 & Hp & Hk). rewrite runs_step in Hp by done.
    destruct Hp as (p0 & m0 & Es & Hp). rewrite Es. exists (Bind p0 k), m0. split; [done|].
    assert (S t <= t')%nat by (destruct Hp, Hk; lia).
    apply (IH (t' - S t)%nat); [lia|done|]. eauto.
Qed.

Lemma runs_act {A : Set} (x : act A) t m a t' m' :
  runs e (Act x) t m a t' m' <->
  act_step (futex_rc e t) x (interfere e t m) = Some (a, m') /\ t' = S t.
Proof using Type.
  rewrite runs_step by done. simpl. split.
  - intros (p1 & m1 & Es & H). destruct (act_step _ x _) as [[v m0]|]; [|discriminate].
    injection Es as <- <-. apply runs_ret in H. destruct H as (-> & -> & ->). done.
  - intros [-> ->]. do 2 eexists. split; [done|]. by apply runs_ret.
Qed.

Lemma runs_iter {A S0 : Set} (body : S0 -> prog (S0 + A)) s t m a t' m' :
  runs e (Iter body s) t m a t' m' <->
  exists r t1 m1, runs e (body s) (S t) (interfere e t m) r t1 m1 /\
    match r with
    | inl s' => runs e (Iter body s') t1 m1 a t' m'
    | inr b => a = b /\ t' = t1 /\ m' = m1
    end.
Proof using Type.
  rewrite runs_step by done. simpl. split.
  - intros (p1 & m1 & [= <- <-] & H). apply runs_bind in H.
    destruct H as (r & t1 & m1 & Hb & Hk). exists r, t1, m1. split; [done|].
    destruct r; [done|]. by apply runs_ret in Hk.
  - intros (r & t1 & m1 & Hb & Hk). do 2 eexists. split; [done|].
    apply runs_bind. exists r, t1, m1. split; [done|].
    destruct r; [done|]. by apply runs_ret.
Qed.

(** [forever]: every round is one run of the body. *)
Lemma runs_forever {A : Set} (body : prog (option A)) t m a t' m' :
  runs e (forever body) t m a t' m' <->
  exists r t1 m1, runs e body (S t) (interfere e t m) r t1 m1 /\
    match r with
    | None => runs e (forever body) t1 m1 a t' m'
    | Some b => a = b /\ t' = t1 /\ m' = m1
    end.
Proof using Type.
  unfold forever at 1. rewrite runs_iter. split.
  - intros (r & t1 & m1 & Hb & Hk). apply runs_bind in Hb.
    destruct Hb as (r0 & t0 & m0 & Hb & Hr). apply runs_ret in Hr.
    destruct Hr as (-> & -> & ->). exists r0, t0, m0. split; [done|].
    destruct r0; done.
  - intros (r & t1 & m1 & Hb & Hk).
    exists (match r with Some a => inr a | None => inl tt end), t1, m1. split.
    + apply runs_bind. exists r, t1, m1. split; [done|]. by apply runs_ret.
    + destruct r; done.
Qed.
End Laws.

(** ** Rules of the total-correctness logic *)
Section Wp.
Context (e : env).

Lemma hist_bind_ret {A B : Set} (p : prog B) (k : B -> prog A) b n t m :
  ret_of p = Some b -> hist n e (Bind p k) t m = hist n e (k b) t m.
Proof using Type. intros Er. destruct n; [done|]. simpl. rewrite Er. done. Qed.

Lemma step_ret_of rc {A : Set} (p : prog A) a m : ret_of p = Some a -> step rc p m = None.
Proof using Type.
  revert a m. induction p as [|?|A B p IHp k IHk|]; simpl; try done.
  destruct (ret_of p) eqn:E; [|done]. intros. by eapply IHk.
Qed.

Lemma hist_ret_of {A : Set} (p : prog A) a n t m : ret_of p = Some a -> hist n e p t m = [].
Proof using Type. intros Er. destruct n as [|n]; [done|]. simpl. by rewrite (step_ret_of _ p a). Qed.

Lemma hist_bind {A B : Set} (p : prog B) (k : B -> prog A) t m b t1 m1 n :
  runs e p t m b t1 m1 ->
  hist (t1 - t + n) e (Bind p k) t m = hist (t1 - t) e p t m ++ hist n e (k b) t1 m1.
Proof using Type.
  remember (t1 - t)%nat as d eqn:Ed. revert p t m Ed.
  induction d as [|d IH]; intros p t m Ed H.
  - destruct (ret_of p) as [b'|] eqn:Er.
    + rewrite (ret_of_runs _ _ _ _ _ Er) in H. destruct H as (-> & -> & ->).
      rewrite (hist_bind_ret _ _ b') by done. done.
    + apply runs_step in H; [|done]. destruct H as (? & ? & _ & [Hle _]). lia.
  - destruct (ret_of p) as [b'|] eqn:Er.
    { rewrite (ret_of_runs _ _ _ _ _ Er) in H. destruct H as (-> & -> & ->). lia. }
    rewrite runs_step in H by done. destruct H as (p0 & m0 & Es & H). simpl.
    rewrite Er, Es. simpl. f_equal. apply IH; [lia|done].
Qed.

Lemma wp_ret {A : Set} (a : A) t m Q : Q a t m [] -> wp e (Ret a) t m Q.
Proof using Type.
  intros. exists a, t, m. split; [by apply runs_ret|]. by rewrite Nat.sub_diag.
Qed.

Lemma wp_conseq {A : Set} (p : prog A) t m Q Q' :
  wp e p t m Q -> (forall a t' m' l, Q a t' m' l -> Q' a t' m' l) -> wp e p t m Q'.
Proof using Type. intros (a & t' & m' & Hr & HQ) H. exists a, t', m'. eauto. Qed.

Lemma wp_bind {A B : Set} (p : prog B) (k : B -> prog A) t m Q :
  wp e p t m (fun b t1 m1 l1 => wp e (k b) t1 m1 (fun a t2 m2 l2 => Q a t2 m2 (l1 ++ l2))) ->
  wp e (Bind p k) t m Q.
Proof using Type.
  intros (b & t1 & m1 & Hp & (a & t2 & m2 & Hk & HQ)). exists a, t2, m2. split.
  { apply runs_bind. eauto. }
  replace (t2 - t)%nat with (t1 - t + (t2 - t1))%nat by (destruct Hp, Hk; lia).
  rewrite (hist_bind _ _ _ _ _ _ _ _ Hp). done.
Qed.

Lemma wp_act {A : Set} (x : act A) t m Q v m' :
  act_step (futex_rc e t) x (interfere e t m) = Some (v, m') ->
  Q v (S t) m' [interfere e t m] -> wp e (Act x) t m Q.
Proof using Type.
  intros Hx HQ. exists v, (S t), m'. split; [by apply runs_act|].
  rewrite Nat.sub_succ_l, Nat.sub_diag by lia. simpl. rewrite Hx. done.
Qed.

Lemma wp_iter {A S0 : Set} (body : S0 -> prog (S0 + A)) s t m Q :
  wp e (body s) (S t) (interfere e t m)
     (fun r t1 m1 l1 =>
        match r with
        | inl s' => wp e (Iter body s') t1 m1
                       (fun a t2 m2 l2 => Q a t2 m2 (interfere e t m :: l1 ++ l2))
        | inr a => Q a t1 m1 (interfere e t m :: l1)
        end) ->
  wp e (Iter body s) t m Q.
Proof using Type.
  intros (r & t1 & m1 & Hb & H).
  assert (Hr : wp e (Bind (body s) (fun r => match r with
                 | inl s' => Iter body s' | inr a => Ret a end)) (S t) (interfere e t m)
               (fun a t2 m2 l => Q a t2 m2 (interfere e t m :: l))).
  { apply wp_bind. exists r, t1, m1. split; [done|]. destruct r; [done|].
    apply wp_ret. by rewrite app_nil_r. }
  destruct Hr as (a & t2 & m2 & Hr & HQ). exists a, t2, m2. split.
  { apply runs_step; [done|]. simpl. eauto. }
  replace (t2 - t)%nat with (S (t2 - S t)) by (destruct Hr; lia). simpl. done.
Qed.

Lemma wp_forever {A : Set} (body : prog (option A)) t m Q :
  wp e body (S t) (interfere e t m)
     (fun r t1 m1 l1 =>
        match r with
        | None => wp e (forever body) t1 m1
                    (fun a t2 m2 l2 => Q a t2 m2 (interfere e t m :: l1 ++ l2))
        | Some a => Q a t1 m1 (interfere e t m :: l1)
        end) ->
  wp e (forever body) t m Q.
Proof using Type.
  intros H. unfold forever. apply wp_iter, wp_bind. eapply wp_conseq; [exact H|].
  intros r t1 m1 l1 Hr. apply wp_ret. rewrite app_nil_r. destruct r; done.
Qed.

(** A finished run is the only outcome there is. *)
Lemma wp_runs {A : Set} (p : prog A) t m Q a t' m' :
  wp e p t m Q -> runs e p t m a t' m' -> Q a t' m' (hist (t' - t) e p t m).
Proof using Type.
  intros (a0 & t0 & m0 & Hr & HQ) H.
  destruct (runs_det _ _ _ _ _ _ _ _ _ _ Hr H) as (-> & -> & ->). done.
Qed.
End Wp.

(** Rules for single actions, in the form in which [wp_act] is used. *)
Section Actions.
Context (e : env) (t : nat) (m : mem).
Let m0 := interfere e t m.

Lemma wp_load32 o off Q :
  atomic_ok m0 off 4 = true -> Q (ld32 m0 off) (S t) m0 [m0] -> wp e (load32 o off) t m Q.
Proof using Type.
  intros Hb HQ. eapply wp_act; [|exact HQ]. simpl. fold m0. by rewrite Hb.
Qed.

Lemma wp_store32 o off v Q :
  atomic_ok m0 off 4 = true -> Q tt (S t) (st32 m0 off v) [m0] -> wp e (store32 o off v) t m Q.
Proof using Type.
  intros Hb HQ. eapply wp_act; [|exact HQ]. simpl. fold m0. by rewrite Hb.
Qed.

Lemma wp_load64 o off Q :
  atomic_ok m0 off 8 = true -> Q (ld64 m0 off) (S t) m0 [m0] -> wp e (load64 o off) t m Q.
Proof using Type.
  intros Hb HQ. eapply wp_act; [|exact HQ]. simpl. fold m0. by rewrite Hb.
Qed.

Lemma wp_store64 o off v Q :
  atomic_ok m0 off 8 = true -> Q tt (S t) (st64 m0 off v) [m0] -> wp e (store64 o off v) t m Q.
Proof using Type.
  intros Hb HQ. eapply wp_act; [|exact HQ]. simpl. fold m0. by rewrite Hb.
Qed.

Lemma wp_load_byte off Q :
  in_bounds m0 off 1 = true -> Q (le_val (rd m0 off 1)) (S t) m0 [m0] ->
  wp e (load_byte off) t m Q.
Proof using Type.
  intros Hb HQ. eapply wp_act; [|exact HQ]. simpl. fold m0. by rewrite Hb.
Qed.

Lemma wp_store_byte off b Q :
  in_bounds m0 off 1 = true -> Q tt (S t) (wr m0 off [b]) [m0] ->
  wp e (store_byte off b) t m Q.
Proof using Type.
  intros Hb HQ. eapply wp_act; [|exact HQ]. simpl. fold m0. by rewrite Hb.
Qed.

Lemma wp_futex_wait off x tmo Q :
  atomic_ok m0 off 4 = true -> Q (futex_rc e t) (S t) m0 [m0] ->
  wp e (futex_wait_call off x tmo) t m Q.
Proof using Type.
  intros Hb HQ. eapply wp_act; [|exact HQ]. simpl. fold m0. by rewrite Hb.
Qed.

Lemma wp_futex_wake off n Q :
  atomic_ok m0 off 4 = true -> Q tt (S t) m0 [m0] -> wp e (futex_wake_call off n) t m Q.
Proof using Type.
  intros Hb HQ. eapply wp_act; [|exact HQ]. simpl. fold m0. by rewrite Hb.
Qed.
End Actions.

(** ** Copies *)

Lemma in_bounds_split m off n k :
  in_bounds m off (n + k) = true ->
  in_bounds m off n = true /\ in_bounds m (off + Z.of_nat n) k = true.
Proof. unfold in_bounds. intros. zbool. split; apply in_bounds_intro; lia. Qed.

(** Undisturbed, [memcpy] into the region writes the block; on the way only
    the target range changes. *)
Lemma wp_memcpy_to rc off bs t m Q :
  in_bounds m off (length bs) = true ->
  (forall t' l, Forall (outside off (length bs) m) l -> Q tt t' (wr m off bs) l) ->
  wp (quiet rc) (memcpy_to off bs) t m Q.
Proof.
  revert off t m Q; induction bs as [|b bs IH]; intros off t m Q Hb HQ.
  { apply wp_ret. rewrite <- (wr_nil m off). by apply HQ. }
  assert (0 <= off) by (unfold in_bounds in Hb; zbool; done).
  pose proof (in_bounds_split m off 1 (length bs) Hb) as [Hb1 Hb2].
  cbn [memcpy_to length]. apply wp_bind, wp_store_byte; [done|].
  apply IH; [by rewrite in_bounds_wr|]. intros t' l Hl.
  cbn [interfere quiet]. rewrite wr_cons by done. apply HQ. simpl. constructor; [done|].
  eapply Forall_impl; [|exact Hl]. intros m' Hm'.
  transitivity (wr m off [b]).
  - symmetry. apply outside_wr. simpl. lia.
  - eapply outside_sub; [| |exact Hm']; lia.
Qed.

(** A reader copies each byte from the memory it sees at that moment. *)
Lemma runs_memcpy_from obs rc off n t m bs t' m' :
  runs (observing obs rc) (memcpy_from off n) t m bs t' m' ->
  t' = (t + n)%nat /\ length bs = n /\
  forall i, (i < n)%nat -> bs !! i = Some (le_val (rd (obs (t + i)%nat) (off + Z.of_nat i) 1)).
Proof.
  revert off t m bs. induction n as [|n IH]; intros off t m bs H; cbn [memcpy_from] in H.
  { apply runs_ret in H. destruct H as (-> & -> & ->). split; [lia|]. split; [done|lia]. }
  apply runs_bind in H. destruct H as (b & t1 & m1 & H1 & H).
  apply runs_act in H1. destruct H1 as [H1 ->].
  apply runs_bind in H. destruct H as (bs' & t2 & m2 & H2 & H).
  apply runs_ret in H. destruct H as (-> & -> & ->).
  apply IH in H2. destruct H2 as (-> & Hlen & Hi).
  simpl in H1. destruct (in_bounds _ _ _); [|discriminate]. injection H1 as <- <-.
  split; [lia|]. split; [simpl; lia|]. intros [|i] Hlt.
  - simpl. by rewrite Nat.add_0_r, Z.add_0_r.
  - cbn [lookup list_lookup]. rewrite Hi by lia. do 3 f_equal; [f_equal; lia|lia].
Qed.

Lemma rd_byte m off n i :
  0 <= off -> (i < n)%nat -> in_bounds m off n = true ->
  rd m off n !! i = Some (le_val (rd m (off + Z.of_nat i) 1)).
Proof.
  intros H0 Hi Hb. unfold in_bounds in Hb. zbool. rewrite rd_lookup, decide_True by done.
  destruct (lookup_lt_is_Some_2 m (Z.to_nat off + i)%nat) as [b Eb]; [lia|].
  rewrite Eb. f_equal. unfold rd. rewrite Z2Nat.inj_add, Nat2Z.id by lia.
  rewrite (drop_S _ b) by done. simpl. lia.
Qed.

Lemma rd_cons m off n :
  0 <= off -> in_bounds m off (S n) = true -> rd m off (S n) = le_val (rd m off 1) :: rd m (off + 1) n.
Proof.
  intros H0 Hin. apply list_eq. intros [|i].
  - rewrite rd_byte by (lia || done). by rewrite Z.add_0_r.
  - rewrite lookup_cons, !rd_lookup. replace (Z.to_nat (off + 1) + i)%nat with (Z.to_nat off + S i)%nat by lia.
    by repeat case_decide; try lia.
Qed.

(** If the range held [bytes] all along, that is what the copy returns. *)
Lemma runs_memcpy_stable obs rc off n t m bs t' m' bytes :
  0 <= off ->
  runs (observing obs rc) (memcpy_from off n) t m bs t' m' ->
  (forall s, (t <= s < t + n)%nat -> rd (obs s) off n = bytes /\ in_bounds (obs s) off n = true) ->
  n = length bytes -> bs = bytes.
Proof.
  intros H0 H Hs Hn. apply runs_memcpy_from in H. destruct H as (_ & Hlen & Hi).
  apply list_eq. intros i. destruct (decide (i < n)%nat).
  - rewrite Hi by done. destruct (Hs (t + i)%nat) as [<- Hb]; [lia|].
    rewrite (rd_byte _ _ n) by done. done.
  - rewrite !(proj2 (lookup_ge_None _ _)) by lia. done.
Qed.

(** Nobody else writes from step [t] on: what a reader finds is [m]. *)
Definition steady (e : env) (t : nat) (m : mem) : Prop :=
  forall s, (t <= s)%nat -> interfere e s m = m.

Lemma steady_quiet rc t m : steady (quiet rc) t m.
Proof. by intros s _. Qed.

Lemma steady_later e t t' m : (t <= t')%nat -> steady e t m -> steady e t' m.
Proof. intros ? H s Hs. apply H. lia. Qed.

#[export] Hint Resolve steady_quiet : shm.

Lemma wp_memcpy_from e off n t m Q :
  steady e t m -> 0 <= off -> in_bounds m off n = true ->
  (forall l, Forall (eq m) l -> Q (rd m off n) (t + n)%nat m l) ->
  wp e (memcpy_from off n) t m Q.
Proof.
  revert off t Q; induction n as [|n IH]; intros off t Q Hst H0 Hb HQ; cbn [memcpy_from].
  { apply wp_ret. rewrite <- (Nat.add_0_r t). by apply HQ. }
  pose proof (in_bounds_split m off 1 n Hb) as [Hb1 Hb2].
  pose proof (Hst t (le_n t)) as Ht.
  apply wp_bind, wp_load_byte; rewrite Ht; [done|].
  apply wp_bind, IH; [by eapply steady_later; [|done]; lia|lia|done|]. intros l Hl. apply wp_ret.
  replace (S t + n)%nat with (t + S n)%nat by lia.
  replace (le_val (rd m off 1) :: rd m (off + 1) n) with (rd m off (S n)).
  - apply HQ. rewrite app_nil_r. constructor; done.
  - change (S n) with (1 + n)%nat. rewrite (rd_app m off 1 n) by done. change (Z.of_nat 1) with 1.
    assert (Hl1 : length (rd m off 1) = 1%nat) by by apply length_rd.
    destruct (rd m off 1) as [|b [|]]; try done. simpl. do 2 f_equal. lia.
Qed.

(** A copy out of the region always finishes. *)
Lemma runs_memcpy_finishes obs rc off n t m :
  (forall s, in_bounds (obs s) off n = true) ->
  exists bs m', runs (observing obs rc) (memcpy_from off n) t m bs (t + n)%nat m'.
Proof.
  revert off t m. induction n as [|n IH]; intros off t m Hb; cbn [memcpy_from].
  { exists [], m. apply runs_ret. rewrite Nat.add_0_r. done. }
  destruct (IH (off + 1) (S t) (obs t)) as (bs & m' & Hr).
  { intros s. specialize (Hb s). by apply (in_bounds_split _ off 1 n) in Hb as [_ ?]. }
  exists (le_val (rd (obs t) off 1) :: bs), m'. apply runs_bind.
  exists (le_val (rd (obs t) off 1)), (S t), (obs t). split.
  - apply runs_act. simpl. specialize (Hb t). apply (in_bounds_split _ off 1 n) in Hb as [-> _]. done.
  - apply runs_bind. exists bs, (S t + n)%nat, m'. split; [done|]. apply runs_ret.
    split; [done|]. split; [lia|done].
Qed.

(** ** Loops *)

(** The round that ended a [forever] loop. *)
Lemma runs_forever_last e {A : Set} (body : prog (option A)) t m a t' m' :
  runs e (forever body) t m a t' m' ->
  exists s ms, (t < s <= t')%nat /\ runs e body s ms (Some a) t' m'.
Proof.
  remember (t' - t)%nat as n eqn:En. revert t m En.
  induction n as [n IH] using lt_wf_ind; intros t m En H.
  apply runs_forever in H. destruct H as (r & t1 & m1 & Hb & H).
  pose proof (proj1 Hb). destruct r as [b|].
  - destruct H as (-> & -> & ->). exists (S t), (interfere e t m). split; [lia|done].
  - pose proof (proj1 H).
    destruct (IH (t' - t1)%nat ltac:(lia) t1 m1 eq_refl H) as (s & ms & Hs & Hr).
    exists s, ms. split; [lia|done].
Qed.

(** A loop whose body, whenever it finishes, asks for another round, and
    which can only be left through the body, never returns. *)
Lemma runs_forever_spin e {A : Set} (body : prog (option A)) t m a t' m' :
  (forall s ms r s' ms', runs e body s ms r s' ms' -> r = None) ->
  ~ runs e (forever body) t m a t' m'.
Proof.
  intros Hspin H. apply runs_forever_last in H. destruct H as (s & ms & _ & H).
  by apply Hspin in H.
Qed.

(** Take a finished run apart. *)
Ltac runs_inv :=
  repeat match goal with
  | H : runs _ (Bind _ _) _ _ _ _ _ |- _ =>
      apply runs_bind in H; let H' := fresh "Hp" in destruct H as (? & ? & ? & H' & H)
  | H : runs _ (Ret _) _ _ _ _ _ |- _ =>
      apply runs_ret in H; destruct H as (? & ? & ?); subst
  | H : runs _ (Act _) _ _ _ _ _ |- _ =>
      apply runs_act in H; destruct H as [H ?]; subst
  | H : runs _ (load32 _ _) _ _ _ _ _ |- _ =>
      apply runs_act in H; destruct H as [H ?]; subst
  | H : runs _ (store32 _ _ _) _ _ _ _ _ |- _ =>
      apply runs_act in H; destruct H as [H ?]; subst
  | H : runs _ (load64 _ _) _ _ _ _ _ |- _ =>
      apply runs_act in H; destruct H as [H ?]; subst
  | H : runs _ (store64 _ _ _) _ _ _ _ _ |- _ =>
      apply runs_act in H; destruct H as [H ?]; subst
  | H : runs _ (exchange32 _ _) _ _ _ _ _ |- _ =>
      apply runs_act in H; destruct H as [H ?]; subst
  | H : runs _ (futex_wait_call _ _ _) _ _ _ _ _ |- _ =>
      apply runs_act in H; destruct H as [H ?]; subst
  | H : runs _ (futex_wake_call _ _) _ _ _ _ _ |- _ =>
      apply runs_act in H; destruct H as [H ?]; subst
  end.
