(* ===== verification/Equiv.v ===== *)
(** * Equality of programs

    [p ≡ q]: whatever the environment does, [p] and [q] perform the same
    actions, in the same order, with the same result.  An action is the same
    only with the same operands: the memory order of an access, the expected
    value and the timeout of a futex wait, the count of a wake are part of it,
    although the interleaving is blind to some of them.  It is a bisimulation
    cut off at every depth, so that it is an ordinary fixpoint; programs form
    a monad for it, [Bind] and [Iter] respect it, and equal programs have
    the same runs, histories and traces. *)
From S2P Require Import Prelude Memory Prog.

(** ** Labels *)

(** An action, whatever the type of its result. *)
Inductive label : Type := Does (X : Set) (x : act X).
Arguments Does {X} x.

(** What the next step does; [None] is the end, or a loop going round. *)
Fixpoint next_label {A : Set} (p : prog A) : option label :=
  match p with
  | Ret _ => None
  | Act x => Some (Does x)
  | Bind p k => match ret_of p with Some b => next_label (k b) | None => next_label p end
  | Iter _ _ => None
  end.

(** The actions of a run, in order. *)
Fixpoint trace (n : nat) (e : env) {A : Set} (p : prog A) (t : nat) (m : mem) : list label :=
  match n with
  | O => []
  | S n =>
      option_list (next_label p) ++
      match step (futex_rc e t) p (interfere e t m) with
      | Some (p', m') => trace n e p' (S t) m'
      | None => []
      end
  end.

(** ** The bisimulation *)
Fixpoint sim (n : nat) {A : Set} (p q : prog A) : Prop :=
  ret_of p = ret_of q /\ next_label p = next_label q /\
  match n with
  | O => True
  | S n =>
      ret_of p = None -> forall rc m,
      match step rc p m, step rc q m with
      | Some (p', m1), Some (q', m2) => m1 = m2 /\ sim n p' q'
      | None, None => True
      | _, _ => False
      end
  end.

#[export] Instance prog_equiv (A : Set) : Equiv (prog A) := fun p q => forall n, sim n p q.

Section Sim.
Context {A : Set}.

Lemma sim_ret n (p q : prog A) : sim n p q -> ret_of p = ret_of q.
Proof using Type. destruct n; by intros [? _]. Qed.

Lemma sim_label n (p q : prog A) : sim n p q -> next_label p = next_label q.
Proof using Type. destruct n; by intros (_ & ? & _). Qed.

Lemma sim_refl n (p : prog A) : sim n p p.
Proof using Type.
  revert p; induction n as [|n IH]; intros p; (split; [done|]); split; try done.
  intros _ rc m. destruct (step rc p m) as [[p' m1]|]; done.
Qed.

Lemma sim_sym n (p q : prog A) : sim n p q -> sim n q p.
Proof using Type.
  revert p q; induction n as [|n IH]; intros p q (Hr & Hl & Hs); (split; [done|]); split; try done.
  intros Hn rc m. specialize (Hs ltac:(congruence) rc m).
  destruct (step rc p m) as [[p' m1]|], (step rc q m) as [[q' m2]|]; try done.
  destruct Hs as [-> Hs]. split; [done|by apply IH].
Qed.

Lemma sim_trans n (p q r : prog A) : sim n p q -> sim n q r -> sim n p r.
Proof using Type.
  revert p q r; induction n as [|n IH]; intros p q r (Hr & Hl & Hs) (Hr' & Hl' & Hs'); (split; [congruence|]);
    (split; [congruence|]); [done|].
  intros Hn rc m. specialize (Hs Hn rc m). specialize (Hs' ltac:(congruence) rc m).
  destruct (step rc p m) as [[p' m1]|], (step rc q m) as [[q' m2]|], (step rc r m) as [[r' m3]|]; try done.
  destruct Hs as [-> Hs], Hs' as [-> Hs']. split; [done|]. by eapply IH.
Qed.

Lemma sim_le n n' (p q : prog A) : (n' <= n)%nat -> sim n p q -> sim n' p q.
Proof using Type.
  revert n' p q; induction n as [|n IH]; intros [|n'] p q Hle (Hr & Hl & Hs); try lia; (split; [done|]); (split; [done|]); try done.
  intros Hn rc m. specialize (Hs Hn rc m).
  destruct (step rc p m) as [[p' m1]|], (step rc q m) as [[q' m2]|]; try done.
  destruct Hs as [-> Hs]. split; [done|]. apply IH; [lia|done].
Qed.
End Sim.

#[export] Instance prog_equivalence (A : Set) : Equivalence (≡@{prog A}).
Proof.
  split.
  - intros p n. apply sim_refl.
  - intros p q H n. by apply sim_sym.
  - intros p q r H H' n. by eapply sim_trans.
Qed.

(** ** [Bind] *)

(** Of a program with a result, the next step is nothing. *)
Lemma next_label_ret {A : Set} (p : prog A) a : ret_of p = Some a -> next_label p = None.
Proof.
  revert a. induction p as [A a|A x|A B p IHp k IHk|A S0 body IH s]; intros a'; cbn; try done.
  destruct (ret_of p) as [b|]; [apply IHk|done].
Qed.

Lemma sim_bind {A B : Set} n (p q : prog B) (k h : B -> prog A) :
  sim n p q -> (forall b, sim n (k b) (h b)) -> sim n (Bind p k) (Bind q h).
Proof.
  revert p q; induction n as [|n IH]; intros p q Hpq Hk; pose proof (sim_ret _ _ _ Hpq) as Er; pose proof (sim_label _ _ _ Hpq) as El.
  - cbn. rewrite <- Er, <- El. destruct (ret_of p) as [b|]; [|done].
    split; [apply (sim_ret _ _ _ (Hk b))|]. split; [apply (sim_label _ _ _ (Hk b))|done].
  - destruct (ret_of p) as [b|] eqn:Ep.
    + destruct (Hk b) as (Hr & Hl & Hs). cbn. rewrite Ep, <- Er. done.
    + cbn. rewrite Ep, <- Er, <- El. split; [done|]. split; [done|]. intros _ rc m. destruct Hpq as (_ & _ & Hs).
      specialize (Hs Ep rc m). destruct (step rc p m) as [[p' m1]|], (step rc q m) as [[q' m2]|]; try done.
      destruct Hs as [-> Hs]. split; [done|]. apply IH; [done|]. intros b. by apply (sim_le (S n)); [lia|].
Qed.

#[export] Instance Bind_proper (A B : Set) :
  Proper ((≡) ==> pointwise_relation B (≡) ==> (≡)) (@Bind A B).
Proof. intros p q Hpq k h Hk n. apply sim_bind; [done|]. intros b. apply Hk. Qed.

Lemma ret_bind {A B : Set} (b : B) (k : B -> prog A) : Bind (Ret b) k ≡ k b.
Proof. intros n. destruct n; [done|]. split; [done|]. split; [done|]. intros _ rc m. simpl. destruct (step rc (k b) m) as [[p' m1]|]; [|done]. split; [done|]. apply sim_refl. Qed.

Lemma bind_assoc {A B C : Set} (p : prog C) (k : C -> prog B) (h : B -> prog A) :
  Bind (Bind p k) h ≡ Bind p (fun c => Bind (k c) h).
Proof.
  intros n. revert p; induction n as [|n IH]; intros p.
  - cbn. by destruct (ret_of p).
  - split; [cbn; by destruct (ret_of p)|]. split; [cbn; destruct (ret_of p) eqn:E; by rewrite ?(next_label_ret p _ E)|].
    intros Hn rc m. simpl in *.
    destruct (ret_of p) as [c|].
    + destruct (ret_of (k c)) as [b|].
      * destruct (step rc (h b) m) as [[p' m1]|]; [|done]. split; [done|]. apply sim_refl.
      * destruct (step rc (k c) m) as [[p' m1]|]; [|done]. split; [done|]. apply sim_refl.
    + destruct (step rc p m) as [[p' m1]|]; [|done]. split; [done|]. apply IH.
Qed.

Lemma bind_ret {A : Set} (p : prog A) : Bind p Ret ≡ p.
Proof.
  intros n. revert p; induction n as [|n IH]; intros p.
  - cbn. destruct (ret_of p) eqn:E; [|done]. by rewrite (next_label_ret p _ E).
  - split; [cbn; by destruct (ret_of p)|]. split; [cbn; destruct (ret_of p) eqn:E; by rewrite ?(next_label_ret p _ E)|].
    intros Hn rc m. simpl in *.
    destruct (ret_of p) as [c|]; [done|].
    destruct (step rc p m) as [[p' m1]|]; [|done]. split; [done|]. apply IH.
Qed.

(** ** [Iter] *)
Lemma sim_iter {A S0 : Set} n (f g : S0 -> prog (S0 + A)) s :
  (forall s, sim n (f s) (g s)) -> sim n (Iter f s) (Iter g s).
Proof.
  revert s; induction n as [|n IH]; intros s Hf; [done|]. split; [done|]. split; [done|].
  intros _ rc m. simpl. split; [done|]. apply sim_bind; [by apply (sim_le (S n)); [lia|]|].
  intros [s'|a]; [|apply sim_refl]. apply IH. intros s0. by apply (sim_le (S n)); [lia|].
Qed.

#[export] Instance Iter_proper (A S0 : Set) :
  Proper (pointwise_relation S0 (≡) ==> (=) ==> (≡)) (@Iter A S0).
Proof. intros f g Hf s _ <- n. apply sim_iter. intros s'. apply Hf. Qed.

(** What follows a loop can be done before leaving it. *)
Lemma iter_bind {A B S0 : Set} (f : S0 -> prog (S0 + B)) (k : B -> prog A) s :
  Bind (Iter f s) k ≡
  Iter (fun s => r <- f s ;; match r with inl s' => Ret (inl s') | inr b => a <- k b ;; Ret (inr a) end) s.
Proof.
  intros n. revert s; induction n as [|n IH]; intros s; [done|]. split; [done|]. split; [done|].
  intros _ rc m. simpl. split; [done|].
  eapply sim_trans; [apply bind_assoc|]. eapply sim_trans; [|apply sim_sym, bind_assoc].
  apply sim_bind; [apply sim_refl|]. intros [s'|b].
  - eapply sim_trans; [|apply sim_sym, ret_bind]. apply IH.
  - eapply sim_trans; [apply ret_bind|]. eapply sim_trans; [|apply sim_sym, bind_assoc].
    eapply sim_trans; [apply sim_sym, bind_ret|]. apply sim_bind; [apply sim_refl|].
    intros a. apply sim_sym, (ret_bind (inr a : S0 + A)).
Qed.

Lemma forever_bind {A B : Set} (body : prog (option B)) (k : B -> A) :
  (b <- forever body ;; Ret (k b)) ≡ forever (r <- body ;; Ret (option_map k r)).
Proof.
  unfold forever. rewrite iter_bind. apply Iter_proper; [|done]. intros []. rewrite !bind_assoc.
  apply Bind_proper; [done|]. intros [b|]; cbn [option_map]; rewrite !ret_bind; done.
Qed.

#[export] Instance forever_proper (A : Set) : Proper ((≡) ==> (≡)) (@forever A).
Proof. intros p q Hpq. unfold forever. apply Iter_proper; [|done]. intros []. by rewrite Hpq. Qed.

(** ** Equal programs run alike *)
Lemma sim_run {A : Set} n e (p q : prog A) t m :
  sim n p q ->
  run n e p t m = run n e q t m /\ hist n e p t m = hist n e q t m /\ trace n e p t m = trace n e q t m.
Proof.
  revert p q t m; induction n as [|n IH]; intros p q t m Hs; pose proof (sim_ret _ _ _ Hs) as Er; pose proof (sim_label _ _ _ Hs) as El.
  - simpl. by rewrite <- Er.
  - cbn [run hist trace]. rewrite <- Er, <- El. destruct (ret_of p) as [a|] eqn:Ep.
    + rewrite (step_ret_of _ p _ _ Ep), (step_ret_of _ q _ _ (eq_sym Er)). done.
    + destruct Hs as (_ & _ & Hs). specialize (Hs Ep (futex_rc e t) (interfere e t m)).
      destruct (step (futex_rc e t) p _) as [[p' m1]|], (step (futex_rc e t) q _) as [[q' m2]|]; try done.
      destruct Hs as [-> Hs]. destruct (IH p' q' (S t) m2 Hs) as (E1 & E2 & E3). by rewrite E1, E2, E3.
Qed.

Lemma equiv_trace n e {A : Set} (p q : prog A) t m : p ≡ q -> trace n e p t m = trace n e q t m.
Proof. intros Hpq. by apply (sim_run n e p q t m). Qed.

Lemma equiv_runs e {A : Set} (p q : prog A) t m a t' m' : p ≡ q -> runs e p t m a t' m' -> runs e q t m a t' m'.
Proof. intros Hpq [Hle Hr]. split; [done|]. by rewrite <- (proj1 (sim_run _ e p q t m (Hpq _))). Qed.

Lemma equiv_wp e {A : Set} (p q : prog A) t m Q : p ≡ q -> wp e p t m Q -> wp e q t m Q.
Proof.
  intros Hpq (a & t' & m' & Hr & HQ). exists a, t', m'. split; [by eapply equiv_runs|].
  by rewrite <- (proj1 (proj2 (sim_run _ e p q t m (Hpq _)))).
Qed.

(** What is done to the result alone is no step. *)
Lemma run_map {A B : Set} e (f : A -> B) n : forall p t m,
  trace n e (a <- p ;; Ret (f a)) t m = trace n e p t m /\
  run n e (a <- p ;; Ret (f a)) t m =
    match run n e p t m with Value a t' m' => Value (f a) t' m' | UB => UB | OutOfFuel => OutOfFuel end.
Proof.
  induction n as [|n IH]; intros p t m; cbn [trace run ret_of next_label step]; destruct (ret_of p) as [a|] eqn:E; try done.
  - by rewrite (next_label_ret p a E), (step_ret_of _ p a _ E).
  - destruct (step _ p _) as [[p' m']|]; [|done]. by destruct (IH p' (S t) m') as [-> ->].
Qed.

(** ** What the equality tells apart *)
Lemma equiv_label {A : Set} (p q : prog A) : p ≡ q -> next_label p = next_label q.
Proof. intros Hpq. by apply (sim_label 0). Qed.

(** The operands the interleaving is blind to. *)
Definition order_of (l : label) : option memory_order :=
  let 'Does x := l in
  match x with
  | ALoad32 o _ | AStore32 o _ _ | AXchg32 o _ _ | ALoad64 o _ | AStore64 o _ _ => Some o
  | _ => None
  end.
Definition wait_operands (l : label) : option (Z * option timespec) :=
  let 'Does x := l in match x with AFutexWait _ v tmo => Some (v, tmo) | _ => None end.
Definition wake_count (l : label) : option Z :=
  let 'Does x := l in match x with AFutexWake _ n => Some n | _ => None end.

Lemma load32_equiv o o' a : load32 o a ≡ load32 o' a -> o = o'.
Proof. intros E%equiv_label. by apply (f_equal (fun l => l ≫= order_of)) in E; injection E. Qed.

Lemma futex_wait_equiv a v v' tmo tmo' : futex_wait_call a v tmo ≡ futex_wait_call a v' tmo' -> v = v' /\ tmo = tmo'.
Proof. intros E%equiv_label. by apply (f_equal (fun l => l ≫= wait_operands)) in E; injection E. Qed.

Lemma futex_wake_equiv a n n' : futex_wake_call a n ≡ futex_wake_call a n' -> n = n'.
Proof. intros E%equiv_label. by apply (f_equal (fun l => l ≫= wake_count)) in E; injection E. Qed.
