(* ===== verification/FlatType.v ===== *)
(** * Flat types and their layout in the region

    [flat_type.hpp]: the [FlatType] concept (trivially copyable and standard
    layout), i.e. values that are their bytes.  The class states what the
    containers rely on; instances are the unsigned integers, byte arrays and
    (in [Stamped.v], [Lifecycle.v]) the structs of the library. *)
From S2P Require Import Prelude.

(** Rounding up to an alignment as the headers write it, in [std::size_t]:
    [(x + a - 1) & ~(a - 1)]. *)
Definition align_up (x a : Z) : Z := Z.land (u64 (x + a - 1)) (u64 (Z.lnot (a - 1))).

Lemma align_up_eq k x :
  0 <= k < 64 -> 0 <= x -> x + 2 ^ k <= 2 ^ 64 ->
  align_up x (2 ^ k) = (x + 2 ^ k - 1) / 2 ^ k * 2 ^ k.
Proof.
  intros Hk Hx Hs. assert (0 < 2 ^ k) by (apply Z.pow_pos_nonneg; lia).
  unfold align_up. rewrite (u64_small (x + _ - 1)) by lia.
  replace (2 ^ k - 1) with (Z.ones k) by (rewrite Z.ones_equiv; lia).
  unfold u64, wrap. rewrite <- Z.land_ones by lia.
  rewrite (Z.land_comm (Z.lnot _)), Z.land_assoc, Z.land_ones by lia.
  rewrite Z.mod_small by lia. rewrite <- Z.ldiff_land, Z.ldiff_ones_r by lia.
  rewrite Z.shiftl_mul_pow2, Z.shiftr_div_pow2 by lia. reflexivity.
Qed.

(** The least multiple of the alignment that is no less than [x]. *)
Lemma align_up_spec k x :
  0 <= k < 64 -> 0 <= x -> x + 2 ^ k <= 2 ^ 64 ->
  x <= align_up x (2 ^ k) < x + 2 ^ k /\ align_up x (2 ^ k) mod 2 ^ k = 0.
Proof.
  intros Hk Hx Hs. rewrite align_up_eq by done.
  assert (0 < 2 ^ k) by (apply Z.pow_pos_nonneg; lia).
  pose proof (Z.div_mod (x + 2 ^ k - 1) (2 ^ k)).
  pose proof (Z.mod_pos_bound (x + 2 ^ k - 1) (2 ^ k)).
  split; [nia|]. apply Z.mod_mul. lia.
Qed.

Class FlatType (T : Set) := {
  sizeof : nat;
  align_log : nat;                       (* alignof(T) = 2 ^ align_log *)
  to_bytes : T -> list Z;                (* the object representation *)
  of_bytes : list Z -> T;                (* the object held by some bytes *)
  value_init : T;                        (* T{} *)
  length_to_bytes x : length (to_bytes x) = sizeof;
  of_to_bytes x : of_bytes (to_bytes x) = x;
  sizeof_pos : (0 < sizeof)%nat;
  sizeof_small : Z.of_nat sizeof < 2 ^ 62;
  align_small : (align_log <= 12)%nat;
  sizeof_aligned : Z.of_nat sizeof mod 2 ^ Z.of_nat align_log = 0;
}.
#[global] Arguments sizeof T {_}.
#[global] Arguments align_log T {_}.
#[global] Hint Mode FlatType ! : typeclass_instances.

Definition alignof (T : Set) `{FlatType T} : Z := 2 ^ Z.of_nat (align_log T).

Section Facts.
Context `{FlatType T}.

Lemma alignof_bounds : 1 <= alignof T <= 4096.
Proof using Type.
  unfold alignof. pose proof (align_small (T:=T)).
  assert (2 ^ 0 <= 2 ^ Z.of_nat (align_log T)) by (apply Z.pow_le_mono_r; lia).
  assert (2 ^ Z.of_nat (align_log T) <= 2 ^ 12) by (apply Z.pow_le_mono_r; lia). lia.
Qed.

Lemma align_up_T x :
  0 <= x < 2 ^ 63 ->
  x <= align_up x (alignof T) < x + alignof T /\ align_up x (alignof T) mod alignof T = 0.
Proof using Type.
  intros. pose proof alignof_bounds. pose proof (align_small (T:=T)).
  apply align_up_spec; [lia|lia|]. fold (alignof T). lia.
Qed.

Lemma to_bytes_inj (x y : T) : to_bytes x = to_bytes y -> x = y.
Proof using Type. intros E. rewrite <- (of_to_bytes x), E. apply of_to_bytes. Qed.
End Facts.

(** ** Unsigned integers of [n] bytes *)
Record uint (n : nat) := UInt {
  uint_val : Z;
  uint_ok : Is_true (bool_decide (0 <= uint_val < 2 ^ (8 * Z.of_nat n)))
}.
Arguments UInt {n} _ _.
Arguments uint_val {n} _.

Lemma uint_range {n} (x : uint n) : 0 <= uint_val x < 2 ^ (8 * Z.of_nat n).
Proof. destruct x as [z Hz]. simpl. by apply bool_decide_unpack in Hz. Qed.

Lemma uint_eq {n} (x y : uint n) : uint_val x = uint_val y -> x = y.
Proof.
  destruct x as [x Hx], y as [y Hy]. simpl. intros ->. f_equal. apply proof_irrel.
Qed.

Lemma uint_wrap_ok n z : Is_true (bool_decide (0 <= wrap (8 * Z.of_nat n) z < 2 ^ (8 * Z.of_nat n))).
Proof. apply bool_decide_pack, wrap_range. lia. Qed.

(** Conversion to the unsigned type: modulo [2 ^ width]. *)
Definition to_uint (n : nat) (z : Z) : uint n := UInt (wrap (8 * Z.of_nat n) z) (uint_wrap_ok n z).

Lemma uint_val_to_uint n z : uint_val (to_uint n z) = wrap (8 * Z.of_nat n) z.
Proof. done. Qed.

Lemma to_uint_val {n} (x : uint n) : to_uint n (uint_val x) = x.
Proof. apply uint_eq. simpl. apply wrap_small, uint_range. Qed.

(** The object representation determines the value. *)
Lemma to_uint_le_bytes {n} (x : uint n) : to_uint n (le_val (le_bytes n (uint_val x))) = x.
Proof. rewrite le_val_bytes, Z.mod_small by apply uint_range. apply to_uint_val. Qed.

#[export] Instance uint_eq_dec n : EqDecision (uint n).
Proof.
  intros x y. destruct (decide (uint_val x = uint_val y)) as [E|N].
  - left. by apply uint_eq.
  - right. congruence.
Defined.

#[export] Program Instance uint_flat (k : nat) (Hk : TCEq (k <=? 3)%nat true) : FlatType (uint (2 ^ k)) := {|
  sizeof := 2 ^ k;
  align_log := k;
  to_bytes x := le_bytes (2 ^ k) (uint_val x);
  of_bytes bs := to_uint (2 ^ k) (le_val bs);
  value_init := to_uint (2 ^ k) 0;
|}.
Next Obligation. intros. apply length_le_bytes. Qed.
Next Obligation.
  intros k Hk x. simpl. rewrite le_val_bytes. rewrite <- (to_uint_val x) at 2.
  apply uint_eq. simpl. apply wrap_wrap. lia.
Qed.
Next Obligation. intros. pose proof (Nat.pow_nonzero 2 k). simpl. lia. Qed.
Next Obligation.
  intros k Hk. apply TCEq_eq, Nat.leb_le in Hk.
  assert (2 ^ k <= 2 ^ 3)%nat by (apply Nat.pow_le_mono_r; lia). simpl in *. lia.
Qed.
Next Obligation. intros k Hk. apply TCEq_eq, Nat.leb_le in Hk. lia. Qed.
Next Obligation.
  intros. rewrite Nat2Z.inj_pow. apply Z.mod_same. pose proof (Z.pow_pos_nonneg 2 (Z.of_nat k)). lia.
Qed.

Abbreviation uint8 := (uint 1).
Abbreviation uint16 := (uint 2).
Abbreviation uint32 := (uint 4).
Abbreviation uint64 := (uint 8).
#[export] Instance uint8_flat : FlatType uint8 := uint_flat 0 (TCEq_refl _).
#[export] Instance uint16_flat : FlatType uint16 := uint_flat 1 (TCEq_refl _).
#[export] Instance uint32_flat : FlatType uint32 := uint_flat 2 (TCEq_refl _).
#[export] Instance uint64_flat : FlatType uint64 := uint_flat 3 (TCEq_refl _).

(** ** Byte arrays: [std::array<uint8_t, n>], alignment 1 *)
Record byte_array (n : nat) := ByteArray {
  array_bytes : list Z;
  array_ok : Is_true (bool_decide (length array_bytes = n))
}.
Arguments ByteArray {n} _ _.
Arguments array_bytes {n} _.

Lemma byte_array_eq {n} (x y : byte_array n) : array_bytes x = array_bytes y -> x = y.
Proof.
  destruct x as [x Hx], y as [y Hy]. simpl. intros ->. f_equal. apply proof_irrel.
Qed.

Lemma resize_ok n (bs : list Z) : Is_true (bool_decide (length (resize n 0 bs) = n)).
Proof. apply bool_decide_pack, length_resize. Qed.

Definition to_array (n : nat) (bs : list Z) : byte_array n := ByteArray (resize n 0 bs) (resize_ok n bs).

#[export] Program Instance array_flat (n : nat) (Hn : TCEq ((0 <? Z.of_nat n) && (Z.of_nat n <? 2 ^ 40)) true) :
  FlatType (byte_array n) := {|
  sizeof := n;
  align_log := 0;
  to_bytes := array_bytes;
  of_bytes := to_array n;
  value_init := to_array n [];
|}.
Next Obligation. intros n Hn [x Hx]. simpl. by apply bool_decide_unpack in Hx as E. Qed.
Next Obligation.
  intros n Hn [x Hx]. apply byte_array_eq. simpl. apply bool_decide_unpack in Hx as E.
  rewrite <- E at 1. apply resize_all.
Qed.
Next Obligation. intros n Hn. apply TCEq_eq in Hn. zbool. lia. Qed.
Next Obligation. intros n Hn. apply TCEq_eq in Hn. zbool. lia. Qed.
Next Obligation. intros. simpl. lia. Qed.
Next Obligation. intros. simpl. apply Z.mod_1_r. Qed.

(** ** Structs of equal words, packed *)
Definition words_bytes (w : nat) (l : list Z) : list Z := concat (map (le_bytes w) l).
Definition word_at (w i : nat) (bs : list Z) : uint w := to_uint w (le_val (take w (drop (i * w) bs))).

Lemma length_words_bytes w l : length (words_bytes w l) = (length l * w)%nat.
Proof. induction l as [|x l IH]; [done|]. cbn. rewrite length_app, length_le_bytes. unfold words_bytes in IH. lia. Qed.

Lemma word_at_bytes {w} (l : list Z) i (x : uint w) :
  l !! i = Some (uint_val x) -> word_at w i (words_bytes w l) = x.
Proof.
  intros Hi. unfold word_at. revert i Hi. induction l as [|y l IH]; intros i Hi; [done|].
  change (words_bytes w (y :: l)) with (le_bytes w y ++ words_bytes w l). destruct i as [|i].
  - injection Hi as ->. rewrite Nat.mul_0_l, drop_0, take_app_length' by (by rewrite length_le_bytes).
    apply to_uint_le_bytes.
  - rewrite drop_app_ge by (rewrite length_le_bytes; lia). rewrite length_le_bytes.
    replace (S i * w - w)%nat with (i * w)%nat by lia. by apply IH.
Qed.
