(* ===== verification/History.v ===== *)
(** * Versioned histories

    The memories a writer produces, one per action, annotated with a ghost
    version that never goes back.  A reader interleaved with the writer sees
    the history at a non-decreasing sequence of moments. *)
From S2P Require Import Prelude Memory Prog.

Section Versioned.
Context (P : Z -> mem -> Prop).

(** [versioned v l v']: the memories of [l] carry versions satisfying [P]
    that grow from at least [v] to at most [v']. *)
Inductive versioned : Z -> list mem -> Z -> Prop :=
| versioned_nil v v' : v <= v' -> versioned v [] v'
| versioned_cons v w x l v' :
    v <= w -> P w x -> versioned w l v' -> versioned v (x :: l) v'.

Lemma versioned_le v l v' : versioned v l v' -> v <= v'.
Proof using Type. induction 1; lia. Qed.

Lemma versioned_weaken v l v' u u' :
  u <= v -> v' <= u' -> versioned v l v' -> versioned u l u'.
Proof using Type.
  intros Hu Hu' H. revert u Hu. induction H; intros u Hu.
  - constructor. lia.
  - econstructor; [|eassumption|apply IHversioned; lia]. lia.
Qed.

Lemma versioned_app v l1 w l2 v' :
  versioned v l1 w -> versioned w l2 v' -> versioned v (l1 ++ l2) v'.
Proof using Type.
  induction 1 as [|v w0 x l w Hle HP H1 IH]; intros H2; simpl.
  - eapply versioned_weaken; [eassumption| |exact H2]; lia.
  - econstructor; [exact Hle|exact HP|by apply IH].
Qed.

Lemma versioned_const v l : Forall (P v) l -> versioned v l v.
Proof using Type.
  induction 1; [by constructor|]. by apply versioned_cons with v.
Qed.

(** The history as a function of time, constant once the writer is done. *)
Definition at_time (l : list mem) (last : mem) (i : nat) : mem := default last (l !! i).

Lemma versioned_times v l v' last :
  versioned v l v' -> P v' last ->
  exists ver : nat -> Z,
    (forall i, v <= ver i <= v') /\
    (forall i j, (i <= j)%nat -> ver i <= ver j) /\
    (forall i, P (ver i) (at_time l last i)) /\
    (forall i, (length l <= i)%nat -> ver i = v').
Proof using Type.
  induction 1 as [v v' Hle|v w x l v' Hle HP H IH]; intros Hlast.
  - exists (fun _ => v'). repeat split; try lia; done.
  - destruct (IH Hlast) as (ver & Hr & Hm & Hv & He).
    exists (fun i => match i with O => w | S i => ver i end).
    pose proof (versioned_le _ _ _ H).
    split; [intros [|i]; [lia|]; specialize (Hr i); lia|].
    split; [intros [|i] [|j] ?; try lia; [specialize (Hr j); lia|apply Hm; lia]|].
    split; [intros [|i]; [done|apply Hv]|].
    intros [|i] Hi; simpl in Hi; [lia|]. apply He. lia.
Qed.
End Versioned.

Lemma versioned_impl (P Q : Z -> mem -> Prop) v l v' :
  (forall w x, P w x -> Q w x) -> versioned P v l v' -> versioned Q v l v'.
Proof.
  intros HPQ. induction 1; [by constructor|]. econstructor; eauto.
Qed.

(** A reader's clock: its step [t] falls at moment [sched t] of the writer's
    history. *)
Definition schedule (sched : nat -> nat) : Prop := forall s t, (s <= t)%nat -> (sched s <= sched t)%nat.

(** The environment of a reader interleaved with a writer whose history is
    [l], ending in memory [last]. *)
Definition reader_env (l : list mem) (last : mem) (sched : nat -> nat) (rc : nat -> Z * Z) : env :=
  observing (fun t => at_time l last (sched t)) rc.
