(* ===== verification/SeqCount.v ===== *)
(** * The sequence-count protocol

    What [Seqlock] (one value) and [CyclicBuffer] (one per slot) share: a
    32-bit counter, odd while the payload is being copied in, and readers
    that copy the payload out between two equal even readings of it.
    [seqlock.hpp] lines 59-66 and 104-116; [cyclic_buffer.hpp] lines 82-90
    and 235-243. *)
From S2P Require Import Prelude Memory Prog Equiv History.

(** Writer: odd, copy, even. *)
Definition write_slot (seq_off data_off : Z) (bs : list Z) : prog unit :=
  cur <- load32 relaxed seq_off ;;
  store32 release seq_off (u32 (cur + 1)) ;;;
  memcpy_to data_off bs ;;;
  store32 release seq_off (u32 (cur + 2)).

(** Reader: one attempt; [None] means "go round again". *)
Definition read_attempt (seq_off data_off : Z) (n : nat) : prog (option (list Z)) :=
  before <- load32 acquire seq_off ;;
  if negb (Z.land before 1 =? 0) then Ret None
  else
    result <- memcpy_from data_off n ;;
    after <- load32 acquire seq_off ;;
    Ret (if before =? after then Some result else None).

(** Both, written out in front of what follows. *)
Lemma write_slot_then {A : Set} seq_off data_off bs (p : prog A) :
  (cur <- load32 relaxed seq_off ;;
   store32 release seq_off (u32 (cur + 1)) ;;;
   memcpy_to data_off bs ;;;
   store32 release seq_off (u32 (cur + 2)) ;;; p) ≡ (write_slot seq_off data_off bs ;;; p).
Proof.
  symmetry. unfold write_slot. by repeat (rewrite bind_assoc; apply Bind_proper; [done|]; intros ?).
Qed.

Lemma read_attempt_then {A : Set} seq_off data_off n (k : option (list Z) -> prog A) :
  (before <- load32 acquire seq_off ;;
   if negb (Z.land before 1 =? 0) then k None
   else
     result <- memcpy_from data_off n ;;
     after <- load32 acquire seq_off ;;
     k (if before =? after then Some result else None)) ≡ Bind (read_attempt seq_off data_off n) k.
Proof.
  symmetry. unfold read_attempt. rewrite bind_assoc. apply Bind_proper; [done|]. intros before.
  destruct (negb _); [by rewrite ret_bind|].
  repeat (rewrite bind_assoc; apply Bind_proper; [done|]; intros ?). by rewrite ret_bind.
Qed.

(** The loop that returns what it has read. *)
Lemma read_loop_equiv {A : Set} seq_off data_off n (f : list Z -> A) :
  forever (
    before <- load32 acquire seq_off ;;
    if negb (Z.land before 1 =? 0) then Ret None
    else
      result <- memcpy_from data_off n ;;
      after <- load32 acquire seq_off ;;
      Ret (if before =? after then Some (f result) else None)) ≡
  (bs <- forever (read_attempt seq_off data_off n) ;; Ret (f bs)).
Proof.
  rewrite forever_bind. apply forever_proper. rewrite <- read_attempt_then. apply Bind_proper; [done|]. intros before.
  destruct (negb _); [done|]. do 2 (apply Bind_proper; [done|]; intros ?). by destruct (_ =? _).
Qed.

Section Protocol.
(** A slot: counter at [seq_off], [n] payload bytes at [data_off]; the
    bytes of version [2 * k] are [val k]. *)
Context (seq_off data_off : Z) (n : nat) (val : Z -> list Z).

(** The memory is at version [v] of the slot. *)
Definition slot_at (v : Z) (m : mem) : Prop :=
  ld32 m seq_off = u32 v /\ (v mod 2 = 0 -> rd m data_off n = val (v / 2)).

(** Where the slot lies: inside the mapping, counter aligned, payload
    after the counter. *)
Record slot_ok (m : mem) : Prop := {
  slot_seq_ok : atomic_ok m seq_off 4 = true;
  slot_data_ok : in_bounds m data_off n = true;
  slot_order : seq_off + 4 <= data_off
}.

Lemma slot_ok_length m m' : length m = length m' -> slot_ok m -> slot_ok m'.
Proof using Type.
  intros Hl [H1 H2 H3]. split; [|rewrite <- (in_bounds_length m) by done|]; try done.
  by rewrite <- (atomic_ok_length m).
Qed.

Lemma slot_seq_nonneg m : slot_ok m -> 0 <= seq_off /\ 0 <= data_off.
Proof using Type.
  intros [H1%atomic_ok_bounds _ H3]. unfold in_bounds in H1. zbool. lia.
Qed.

(** Everything the writer touches. *)
Definition slot_len : nat := (Z.to_nat (data_off - seq_off) + n)%nat.
Definition slot_outside (m m' : mem) : Prop := outside seq_off slot_len m m'.

Lemma slot_outside_seq m v : slot_ok m -> slot_outside (st32 m seq_off v) m.
Proof using Type.
  intros Hok. pose proof (slot_seq_nonneg _ Hok). destruct Hok as [_ _ H3].
  apply outside_wr. rewrite length_le_bytes. unfold slot_len. lia.
Qed.

Lemma slot_outside_data m m' : slot_ok m -> outside data_off n m' m -> slot_outside m' m.
Proof using Type.
  intros Hok. pose proof (slot_seq_nonneg _ Hok). destruct Hok as [_ _ H3].
  apply outside_sub; unfold slot_len; lia.
Qed.

(** Storing the counter leaves the payload; copying leaves the counter. *)
Lemma slot_seq_keeps_data m v : slot_ok m -> rd (st32 m seq_off v) data_off n = rd m data_off n.
Proof using Type.
  intros Hok. pose proof (slot_seq_nonneg _ Hok). destruct Hok as [_ _ H3].
  apply rd_wr_disjoint; [lia|lia|]. right. rewrite length_le_bytes. lia.
Qed.

Lemma slot_data_keeps_seq m m' :
  slot_ok m -> outside data_off n m m' -> ld32 m' seq_off = ld32 m seq_off.
Proof using Type.
  intros Hok Ho. pose proof (slot_seq_nonneg _ Hok). destruct Hok as [_ _ H3].
  symmetry. apply (ld32_agree seq_off).
  apply outside_agree with data_off n; [lia|lia| |done]. left. lia.
Qed.

(** One store of the payload moves the slot from version [v] to [v + 2]
    through [v + 1], and touches nothing else. *)
Lemma wp_write_slot rc t m v bs Q :
  slot_ok m -> slot_at v m -> v mod 2 = 0 -> length bs = n -> val (v / 2 + 1) = bs ->
  (forall t' m' l,
      versioned (fun w x => slot_at w x /\ slot_outside x m) v l (v + 1) ->
      slot_at (v + 2) m' -> slot_outside m' m -> Q tt t' m' l) ->
  wp (quiet rc) (write_slot seq_off data_off bs) t m Q.
Proof using Type.
  intros Hok [Hseq Hdata] Hev Hlen Hval HQ. unfold write_slot.
  pose proof (slot_seq_ok _ Hok) as Hs. cbn [quiet interfere].
  apply wp_bind, wp_load32; [done|]. cbn [quiet interfere].
  apply wp_bind, wp_store32; [done|]. cbn [quiet interfere].
  set (m1 := st32 m seq_off _).
  assert (Hok1 : slot_ok m1) by (eapply slot_ok_length; [|exact Hok]; symmetry; apply length_wr).
  assert (Hm1 : ld32 m1 seq_off = u32 (v + 1)).
  { unfold m1. rewrite ld32_st32_same by by apply atomic_ok_bounds.
    rewrite Hseq. unfold u32. rewrite wrap_wrap, wrap_add_l by lia. done. }
  assert (Hodd : (v + 1) mod 2 <> 0) by (rewrite Z.add_mod, Hev by lia; done).
  apply wp_bind, wp_memcpy_to; [rewrite Hlen; apply (slot_data_ok _ Hok1)|].
  rewrite Hlen. intros t2 l2 Hl2. set (m2 := wr m1 data_off bs).
  assert (Ho2 : outside data_off n m1 m2) by (symmetry; apply outside_wr; lia).
  assert (Hok2 : slot_ok m2) by (eapply slot_ok_length; [|exact Hok1]; symmetry; apply length_wr).
  apply wp_store32; [apply (slot_seq_ok _ Hok2)|]. cbn [quiet interfere].
  assert (Hout1 : slot_outside m1 m) by by apply slot_outside_seq.
  assert (Hstep : forall x, outside data_off n m1 x -> slot_at (v + 1) x /\ slot_outside x m).
  { intros x Hx. split.
    - split; [|done]. by rewrite (slot_data_keeps_seq m1).
    - transitivity m1; [|done]. apply slot_outside_data; [done|by symmetry]. }
  apply HQ.
  - apply versioned_cons with v; [lia|done|]. apply versioned_cons with v; [lia|done|].
    apply versioned_weaken with (v + 1) (v + 1); [lia|lia|]. apply versioned_const.
    apply Forall_app. split; [by eapply Forall_impl|]. repeat constructor; by apply Hstep.
  - split.
    + rewrite ld32_st32_same by (apply atomic_ok_bounds, (slot_seq_ok _ Hok2)).
      rewrite Hseq. unfold u32. rewrite wrap_wrap, wrap_add_l by lia. done.
    + intros _. rewrite slot_seq_keeps_data by done. unfold m2.
      rewrite (rd_wr_same' _ _ bs) by (done || apply (slot_data_ok _ Hok1)).
      rewrite <- Hval. f_equal. replace (v + 2) with (v + 1 * 2) by lia.
      by rewrite Z.div_add by lia.
  - transitivity m2; [by apply slot_outside_seq|]. by apply Hstep.
Qed.

(** *** Readers *)

(** What a reader relies on: at every moment it looks, the slot is at some
    version, and versions do not go back. *)
Record slot_rely (obs : nat -> mem) (ver : nat -> Z) : Prop := {
  rely_at : forall t, slot_at (ver t) (obs t);
  rely_ok : forall t, slot_ok (obs t);
  rely_mono : forall s t, (s <= t)%nat -> ver s <= ver t
}.

(** An attempt that succeeds, while fewer than [2 ^ 32] version steps pass,
    returns the payload of one version, current from its first load to its
    last: no torn read. *)
Lemma read_attempt_sound obs ver rc t m bs t' m' :
  slot_rely obs ver ->
  runs (observing obs rc) (read_attempt seq_off data_off n) t m (Some bs) t' m' ->
  ver t' < ver t + 2 ^ 32 ->
  length (val (ver t / 2)) = n ->
  (t < t')%nat /\ ver t mod 2 = 0 /\ bs = val (ver t / 2) /\ ver (pred t') = ver t.
Proof using Type.
  intros [Hat Hok Hmono] H Hwin Hlen. unfold read_attempt in H.
  apply runs_bind in H. destruct H as (before & t1 & m1 & Hb & H).
  apply runs_act in Hb. destruct Hb as [Hb ->].
  simpl in Hb. rewrite (slot_seq_ok _ (Hok t)) in Hb. injection Hb as <- <-.
  destruct (Hat t) as [Hseq Hdat]. rewrite Hseq, u32_parity in H.
  destruct (ver t mod 2 =? 0) eqn:Hev; simpl in H; [|apply runs_ret in H as [? _]; discriminate]. zbool.
  apply runs_bind in H. destruct H as (res & t2 & m2 & Hc & H).
  pose proof (runs_memcpy_from _ _ _ _ _ _ _ _ _ Hc) as [Ht2 _].
  apply runs_bind in H. destruct H as (after & t3 & m3 & Ha & H).
  apply runs_act in Ha. destruct Ha as [Ha ->]. subst t2.
  change (S t + n)%nat with (S (t + n)) in *.
  simpl in Ha. rewrite (slot_seq_ok _ (Hok _)) in Ha. injection Ha as <- <-.
  destruct (Hat (S (t + n))) as [Hseq2 _].
  apply runs_ret in H. destruct H as (Hres & -> & ->).
  destruct (_ =? _) eqn:Heq in Hres; [|discriminate]. injection Hres as ->. zbool.
  rewrite Hseq2 in Heq. cbn [pred].
  assert (Hver : ver t = ver (S (t + n))).
  { apply (wrap_inj_window 32); [lia| |exact Heq].
    pose proof (Hmono t (S (t + n)) ltac:(lia)).
    pose proof (Hmono (S (t + n)) (S (S (t + n))) ltac:(lia)). lia. }
  split; [lia|]. split; [done|]. split; [|done].
  pose proof (slot_seq_nonneg _ (Hok t)).
  eapply runs_memcpy_stable; [|exact Hc| |by symmetry]; [lia|].
  intros s Hs. split; [|apply (slot_data_ok _ (Hok s))].
  assert (ver s = ver t) as Es.
  { pose proof (Hmono t s ltac:(lia)). pose proof (Hmono s (S (t + n)) ltac:(lia)). lia. }
  destruct (Hat s) as [_ Hd]. rewrite Es in Hd. by apply Hd.
Qed.

(** Undisturbed and with no write in progress, the first attempt succeeds. *)
Lemma wp_read_attempt e t m v Q :
  steady e t m -> slot_ok m -> slot_at v m -> v mod 2 = 0 ->
  (forall t' l, (t <= t')%nat -> Q (Some (val (v / 2))) t' m l) ->
  wp e (read_attempt seq_off data_off n) t m Q.
Proof using Type.
  intros Hst Hok [Hseq Hdata] Hev HQ. unfold read_attempt.
  pose proof (slot_seq_nonneg _ Hok). pose proof (slot_seq_ok _ Hok) as Hs.
  pose proof (Hst t (le_n t)) as Ht.
  apply wp_bind, wp_load32; rewrite Ht; [done|].
  rewrite Hseq, u32_parity, Hev. simpl.
  apply wp_bind, wp_memcpy_from;
    [by eapply steady_later; [|done]; lia|lia|apply (slot_data_ok _ Hok)|]. intros l _.
  assert (Ht2 : interfere e (S t + n)%nat m = m) by (apply Hst; lia).
  apply wp_bind, wp_load32; rewrite Ht2; [done|].
  apply wp_ret. rewrite Hseq, Z.eqb_refl, Hdata by done. apply HQ. lia.
Qed.

(** While the counter is odd an attempt asks for another round. *)
Lemma read_attempt_odd rc t m r t' m' :
  Z.land (ld32 m seq_off) 1 <> 0 ->
  runs (quiet rc) (read_attempt seq_off data_off n) t m r t' m' -> r = None /\ m' = m.
Proof using Type.
  intros Hodd H. unfold read_attempt in H. runs_inv. simpl in Hp. unfold guard_opt in Hp.
  destruct (atomic_ok m seq_off 4); [|discriminate]. injection Hp as <- <-.
  destruct (_ =? 0) eqn:E in H; [by zbool|]. simpl in H. by runs_inv.
Qed.

(** Whatever the writer does, an attempt finishes. *)
Lemma read_attempt_finishes obs rc t m :
  (forall s, slot_ok (obs s)) ->
  exists r t' m', runs (observing obs rc) (read_attempt seq_off data_off n) t m r t' m'.
Proof using Type.
  intros Hok. pose proof (slot_seq_ok _ (Hok t)) as Hs.
  destruct (negb (Z.land (ld32 (obs t) seq_off) 1 =? 0)) eqn:E.
  - exists None, (S t), (obs t). unfold read_attempt. apply runs_bind.
    exists (ld32 (obs t) seq_off), (S t), (obs t).
    split; [apply runs_act; simpl; by rewrite Hs|]. rewrite E. by apply runs_ret.
  - destruct (runs_memcpy_finishes obs rc data_off n (S t) (obs t)) as (bs & m1 & Hc).
    { intros s. apply (slot_data_ok _ (Hok s)). }
    do 3 eexists. unfold read_attempt. apply runs_bind.
    exists (ld32 (obs t) seq_off), (S t), (obs t).
    split; [apply runs_act; simpl; by rewrite Hs|]. rewrite E. apply runs_bind.
    exists bs, (S t + n)%nat, m1. split; [done|]. apply runs_bind. do 3 eexists.
    split; [|by apply runs_ret]. apply runs_act. simpl.
    rewrite (slot_seq_ok _ (Hok _)). done.
Qed.

(** If from moment [T0] on the slot stays put at an even version, a reader's
    loop, started at any time, finishes. *)
Lemma read_loop_finishes obs rc T0 mf v t m :
  (forall s, slot_ok (obs s)) -> (forall s, (T0 <= s)%nat -> obs s = mf) ->
  slot_at v mf -> v mod 2 = 0 ->
  exists bs t' m', runs (observing obs rc) (forever (read_attempt seq_off data_off n)) t m bs t' m'.
Proof using Type.
  intros Hok Hend Hv Hev. remember (T0 - t)%nat as d eqn:Ed. revert t m Ed.
  induction d as [d IH] using lt_wf_ind; intros t m Ed.
  destruct (read_attempt_finishes obs rc (S t) (obs t) Hok) as (r & t1 & m1 & Hr).
  pose proof (proj1 Hr) as Hle.
  destruct r as [bs|].
  - exists bs, t1, m1. apply runs_forever. by exists (Some bs), t1, m1.
  - destruct (decide (T0 <= t)%nat) as [Ht|Ht].
    + exfalso.
      pose proof (Hend t Ht) as Hobs. rewrite Hobs in Hr.
      assert (Hq : wp (observing obs rc) (read_attempt seq_off data_off n) (S t) mf
                     (fun r _ _ _ => r <> None)).
      { apply wp_read_attempt with v; [|by rewrite <- Hobs|done|done|done].
        intros s Hs. apply Hend. lia. }
      by apply (wp_runs _ _ _ _ _ _ _ _ Hq) in Hr.
    + destruct (IH (T0 - t1)%nat ltac:(lia) t1 m1 eq_refl) as (bs & t2 & m2 & H2).
      exists bs, t2, m2. apply runs_forever. exists None, t1, m1. done.
Qed.
End Protocol.
