(* ===== verification/SharedMemory.v ===== *)
(** * Plain shared memory and statistics

    [shared_memory.hpp]: a mapped object without synchronisation, and
    [shm_stats.hpp]: the counters a primitive may carry. *)
From S2P Require Import Prelude Memory Prog FlatType.

Module SharedMemory.
Section SharedMemory.
Context (T : Set) `{FlatType T}.

(** Through the reference [get()] answers: reading and assigning the object. *)
Definition get : prog T := bs <- memcpy_from 0 (sizeof T) ;; Ret (of_bytes bs).
Definition set_get (d : T) : prog unit := memcpy_to 0 (to_bytes d).
Definition size : Z := Z.of_nat (sizeof T).
End SharedMemory.
End SharedMemory.

Record ShmStats := MkStats {
  total_writes : uint64;
  total_reads : uint64;
  torn_read_retries : uint64;
  lock_contentions : uint64
}.
Inductive Empty : Set := MkEmpty.

Definition stats_member_t (EnableStats : bool) : Set := if EnableStats then ShmStats else Empty.

Section Facts.
Context {T : Set} `{FlatType T}.

(** A value assigned through SharedMemory::get fills the mapping with
    exactly its bytes and is read back unchanged when nobody else writes. *)
Theorem shared_memory_roundtrip rc t (m : mem) (d : T) :
  Z.of_nat (length m) = SharedMemory.size T ->
  wp (quiet rc) (SharedMemory.set_get T d ;;; SharedMemory.get T) t m
     (fun x _ m' _ => x = d /\ m' = to_bytes d).
Proof using Type.
  intros Hlen. unfold SharedMemory.size in Hlen. unfold SharedMemory.set_get, SharedMemory.get.
  assert (Hb : forall m0, length m0 = length m -> in_bounds m0 0 (sizeof T) = true)
    by (intros; apply in_bounds_intro; lia).
  apply wp_bind, wp_memcpy_to; [rewrite length_to_bytes; by apply Hb|]. intros t1 l1 _.
  set (m1 := wr m 0 (to_bytes d)). assert (Hl1 : length m1 = length m) by apply length_wr.
  assert (Hrd : rd m1 0 (sizeof T) = to_bytes d) by (apply rd_wr_same'; [by rewrite length_to_bytes|by apply Hb]).
  apply wp_bind, wp_memcpy_from; [auto with shm|lia|by apply Hb|]. intros l2 _.
  apply wp_ret. rewrite Hrd, of_to_bytes. split; [done|].
  rewrite <- Hrd. unfold rd. rewrite drop_0. symmetry. apply take_ge. lia.
Qed.
End Facts.

Module Witness.
Lemma shared_memory_roundtrip_witness :
  wp (quiet (fun _ => (0, 0))) (SharedMemory.set_get uint32 (to_uint 4 77) ;;; SharedMemory.get uint32) 0 (fresh 4)
     (fun x _ m' _ => x = to_uint 4 77 /\ m' = to_bytes (to_uint 4 77)).
Proof. apply (shared_memory_roundtrip (fun _ => (0, 0)) 0 (fresh 4) (to_uint 4 77)). reflexivity. Defined.

(** Without synchronisation a read that overlaps an assignment returns a
    value that was never stored: here 0x0201 between 0x0101 and 0x0202. *)
Lemma overlapping_read_tears :
  let obs t := if (t =? 0)%nat then le_bytes 2 257 else le_bytes 2 514 in
  runs (observing obs (fun _ => (0, 0))) (SharedMemory.get uint16) 0 (le_bytes 2 257) (to_uint 2 513) 2 (le_bytes 2 514).
Proof. split; [lia|]. vm_compute. reflexivity. Qed.
End Witness.
