(* ===== verification/Seqlock.v ===== *)
(** * Seqlock: one value in shared memory

    [seqlock.hpp].  [SeqlockWriter] publishes values of a flat type [T];
    any number of [SeqlockReader]s copy the current value out without
    locking; [Seqlock] is both in one object (the same method bodies). *)
From S2P Require Import Prelude Memory Prog Equiv History FlatType SeqCount.

Definition INT_MAX : Z := 2 ^ 31 - 1.
Definition ETIMEDOUT : Z := 110.

(** The [struct timespec] both blocking calls build from a timeout. *)
Definition to_timespec (timeout_ns : option Z) : option timespec :=
  match timeout_ns with
  | Some ns => Some (Timespec (ns / 1000000000) (ns mod 1000000000))
  | None => None
  end.

Module SeqlockRegion.
Section Region.
Context (T : Set) `{FlatType T}.
Definition seq_size : Z := 4.
Definition data_offset : Z := align_up seq_size (alignof T).
Definition total_size : Z := u64 (data_offset + Z.of_nat (sizeof T)).
End Region.
End SeqlockRegion.

Module SeqlockWriter.
Section Writer.
Context {T : Set} `{FlatType T}.

Definition seq : Z := 0.
Definition payload : Z := SeqlockRegion.data_offset T.

Definition store (data : T) : prog unit :=
  write_slot seq payload (to_bytes data) ;;;
  futex_wake_call seq INT_MAX.
End Writer.
End SeqlockWriter.

Module SeqlockReader.
Section Reader.
Context (T : Set) `{FlatType T}.

Definition seq : Z := 0.
Definition payload : Z := SeqlockRegion.data_offset T.

Definition load : prog T :=
  bs <- forever (read_attempt seq payload (sizeof T)) ;;
  Ret (of_bytes bs).

(** One round of [load_blocking]; the result pairs the optional value
    with the new content of the caller's [last_seq]. *)
Definition load_blocking_round (last_seq : Z) (ts : option timespec) : prog (option (option T * Z)) :=
  cur <- load32 acquire seq ;;
  if negb (cur =? last_seq) && (Z.land cur 1 =? 0) then
    result <- memcpy_from payload (sizeof T) ;;
    after <- load32 acquire seq ;;
    Ret (if cur =? after then Some (Some (of_bytes result), cur) else None)
  else
    rc <- futex_wait_call seq cur ts ;;
    Ret (if (fst rc =? -1) && (snd rc =? ETIMEDOUT) then Some (None, last_seq) else None).

Definition load_blocking (last_seq : Z) (timeout_ns : option Z) : prog (option T * Z) :=
  forever (load_blocking_round last_seq (to_timespec timeout_ns)).

Definition sequence : prog Z := load32 acquire seq.
End Reader.
End SeqlockReader.

(** The combined class repeats the methods of the two others; they are
    written out here as its text has them. *)
Module Seqlock.
Section Combined.
Context {T : Set} `{FlatType T}.

Definition seq : Z := 0.
Definition payload : Z := SeqlockRegion.data_offset T.

Definition store (data : T) : prog unit :=
  cur <- load32 relaxed seq ;;
  store32 release seq (u32 (cur + 1)) ;;;
  memcpy_to payload (to_bytes data) ;;;
  store32 release seq (u32 (cur + 2)) ;;;
  futex_wake_call seq INT_MAX.

Definition load : prog T :=
  forever (
    before <- load32 acquire seq ;;
    if negb (Z.land before 1 =? 0) then Ret None
    else
      result <- memcpy_from payload (sizeof T) ;;
      after <- load32 acquire seq ;;
      Ret (if before =? after then Some (of_bytes result) else None)).

Definition load_blocking (last_seq : Z) (timeout_ns : option Z) : prog (option T * Z) :=
  let ts := match timeout_ns with
            | Some ns => Some (Timespec (ns / 1000000000) (ns mod 1000000000))
            | None => None
            end in
  forever (
    cur <- load32 acquire seq ;;
    if negb (cur =? last_seq) && (Z.land cur 1 =? 0) then
      result <- memcpy_from payload (sizeof T) ;;
      after <- load32 acquire seq ;;
      if cur =? after then Ret (Some (Some (of_bytes result), cur)) else Ret None
    else
      rc <- futex_wait_call seq cur ts ;;
      if (fst rc =? -1) && (snd rc =? ETIMEDOUT) then Ret (Some (None, last_seq)) else Ret None).

Definition sequence : prog Z := load32 acquire seq.
End Combined.
End Seqlock.

(** It does what the writer and the reader do. *)
Section Combined.
Context {T : Set} `{FlatType T}.

Lemma combined_store (data : T) : Seqlock.store data ≡ SeqlockWriter.store data.
Proof using Type. apply write_slot_then. Qed.

Lemma combined_load : Seqlock.load ≡ SeqlockReader.load T.
Proof using Type. apply read_loop_equiv. Qed.

Lemma combined_load_blocking last_seq timeout_ns :
  Seqlock.load_blocking last_seq timeout_ns ≡ SeqlockReader.load_blocking T last_seq timeout_ns.
Proof using Type.
  apply forever_proper, Bind_proper; [done|]. intros cur. destruct (_ && _).
  - apply Bind_proper; [done|]. intros result. apply Bind_proper; [done|]. intros after. by destruct (cur =? after).
  - apply Bind_proper; [done|]. intros rc. by destruct (_ && _).
Qed.
End Combined.

(** A writer that publishes a list of values, one [store] after the other. *)
Fixpoint stores {T : Set} `{FlatType T} (ds : list T) : prog unit :=
  match ds with
  | [] => Ret tt
  | d :: ds => SeqlockWriter.store d ;;; stores ds
  end.

Section Facts.
Context {T : Set} `{FlatType T}.
Abbreviation data_offset := (SeqlockRegion.data_offset T).
Abbreviation total_size := (SeqlockRegion.total_size T).

(** A mapping of the size the constructors ask for. *)
Definition region_ok (m : mem) : Prop := Z.of_nat (length m) = total_size.

(** The region is stable (no write in progress) and holds [d]. *)
Definition holds (d : T) (m : mem) : Prop :=
  region_ok m /\ ld32 m 0 mod 2 = 0 /\ rd m data_offset (sizeof T) = to_bytes d.

Lemma data_offset_bounds : 4 <= data_offset <= 4099 /\ data_offset mod alignof T = 0.
Proof using Type.
  unfold SeqlockRegion.data_offset. pose proof (alignof_bounds (T:=T)).
  pose proof (align_up_T (T:=T) 4 ltac:(lia)). unfold SeqlockRegion.seq_size. lia.
Qed.

Lemma total_size_eq : total_size = data_offset + Z.of_nat (sizeof T).
Proof using Type.
  unfold SeqlockRegion.total_size. apply u64_small.
  pose proof data_offset_bounds. pose proof (sizeof_small (T:=T)). lia.
Qed.

Lemma region_slot_ok m : region_ok m -> slot_ok 0 data_offset (sizeof T) m.
Proof using Type.
  unfold region_ok. rewrite total_size_eq. intros Hl.
  pose proof data_offset_bounds. split; [apply atomic_ok_intro|apply in_bounds_intro|]; try lia.
  done.
Qed.

Lemma region_ok_length m m' : length m = length m' -> region_ok m -> region_ok m'.
Proof using Type. unfold region_ok. intros ->. done. Qed.

(** [total_size] is one past the last byte of the payload: the mapping is
    just large enough. *)
Lemma slot_at_holds val v m d :
  region_ok m -> slot_at 0 data_offset (sizeof T) val v m -> v mod 2 = 0 ->
  val (v / 2) = to_bytes d -> holds d m.
Proof using Type.
  intros Hm [Hs Hd] Hev Hv. split; [done|]. split; [|by rewrite Hd].
  rewrite Hs, <- land_1_mod, u32_parity. done.
Qed.

Section Stores.
Context (val : Z -> list Z).
Abbreviation at_version := (fun v m => slot_at 0 data_offset (sizeof T) val v m /\ region_ok m).

Lemma wp_store rc t m v (d : T) Q :
  region_ok m -> slot_at 0 data_offset (sizeof T) val v m -> v mod 2 = 0 ->
  val (v / 2 + 1) = to_bytes d ->
  (forall t' m' l, versioned at_version v l (v + 2) -> at_version (v + 2) m' -> Q tt t' m' l) ->
  wp (quiet rc) (SeqlockWriter.store d) t m Q.
Proof using Type.
  intros Hm Hv Hev Hval HQ. unfold SeqlockWriter.store, SeqlockWriter.seq, SeqlockWriter.payload.
  pose proof (region_slot_ok _ Hm) as Hok.
  apply wp_bind. eapply wp_write_slot; [exact Hok|exact Hv|done|apply length_to_bytes|exact Hval|].
  intros t' m' l Hl Hm' Ho.
  assert (Hr : forall x, slot_outside 0 data_offset (sizeof T) x m -> region_ok x).
  { intros x [Hx _]. by apply (region_ok_length m). }
  apply wp_futex_wake; [apply (slot_seq_ok _ _ _ _ (region_slot_ok _ (Hr _ Ho)))|].
  cbn [quiet interfere]. apply HQ; [|split; [done|by apply Hr]].
  apply versioned_app with (v + 1).
  - eapply versioned_impl; [|exact Hl]. intros w x [Hx Hxo]. split; [done|by apply Hr].
  - apply versioned_weaken with (v + 2) (v + 2); [lia|lia|].
    apply versioned_const, Forall_singleton. split; [done|by apply Hr].
Qed.

Lemma wp_stores rc (ds : list T) : forall t m v Q,
  region_ok m -> slot_at 0 data_offset (sizeof T) val v m -> v mod 2 = 0 ->
  (forall i d, ds !! i = Some d -> val (v / 2 + 1 + Z.of_nat i) = to_bytes d) ->
  (forall t' m' l, versioned at_version v l (v + 2 * Z.of_nat (length ds)) ->
                   at_version (v + 2 * Z.of_nat (length ds)) m' -> Q tt t' m' l) ->
  wp (quiet rc) (stores ds) t m Q.
Proof using Type.
  induction ds as [|d ds IH]; intros t m v Q Hm Hv Hev Hval HQ; simpl.
  { apply wp_ret, HQ; [constructor; lia|]. simpl. by rewrite Z.add_0_r. }
  apply wp_bind. eapply wp_store; [done|exact Hv|done| |].
  { rewrite <- (Hval 0%nat d eq_refl). f_equal. lia. }
  intros t1 m1 l1 Hl1 [Hm1 Hr1].
  assert (Hdiv : (v + 2) / 2 = v / 2 + 1)
    by (replace (v + 2) with (v + 1 * 2) by lia; by rewrite Z.div_add by lia).
  apply (IH t1 m1 (v + 2)); [done|done|by rewrite <- Z.add_mod_idemp_r, Z.add_0_r by lia| |].
  { intros i d' Hi. rewrite Hdiv, <- (Hval (S i) d' Hi). f_equal. lia. }
  simpl length in HQ. intros t' m' l Hl Hm'.
  replace (v + 2 + 2 * Z.of_nat (length ds)) with (v + 2 * Z.of_nat (S (length ds))) in Hl, Hm' by lia.
  apply HQ; [|done]. by apply versioned_app with (v + 2).
Qed.
End Stores.
End Facts.

(** ** A writer session read by concurrent readers *)
Section Session.
Context {T : Set} `{FlatType T}.
Abbreviation data_offset := (SeqlockRegion.data_offset T).

(** The writer stores [ds] into [m0]; [l] are the memories on the way and
    [m1] the last one. *)
Definition session (m0 : mem) (ds : list T) (l : list mem) (m1 : mem) : Prop :=
  exists rc t1, runs (quiet rc) (stores ds) 0 m0 tt t1 m1 /\
                l = hist t1 (quiet rc) (stores ds) 0 m0.

(** The payload of version [2 * k], for a session that starts at version
    [v0] with [d0] in place. *)
Definition session_val (v0 : Z) (d0 : T) (ds : list T) (k : Z) : list Z :=
  to_bytes (nth (Z.to_nat (k - v0 / 2)) (d0 :: ds) d0).

Lemma length_session_val v0 d0 ds k : length (session_val v0 d0 ds k) = sizeof T.
Proof using Type. apply length_to_bytes. Qed.

(** The start of a session, its values, its end. *)
Lemma session_start m0 d0 ds :
  Forall byte_ok m0 -> holds d0 m0 ->
  let v0 := ld32 m0 0 in
  u32 v0 = v0 /\ slot_at 0 data_offset (sizeof T) (session_val v0 d0 ds) v0 m0.
Proof using Type.
  intros Hb (Hr & Hev & Hd) v0. assert (Hv0 : u32 v0 = v0) by (apply u32_small, ld32_range; done).
  split; [done|]. split; [by rewrite Hv0|]. intros _. rewrite Hd. unfold session_val. by rewrite Z.sub_diag.
Qed.

Lemma session_val_stored v0 d0 ds i d :
  ds !! i = Some d -> session_val v0 d0 ds (v0 / 2 + 1 + Z.of_nat i) = to_bytes d.
Proof using Type.
  intros Hi. unfold session_val. replace (Z.to_nat (v0 / 2 + 1 + Z.of_nat i - v0 / 2)) with (S i) by lia.
  rewrite nth_lookup. simpl. by rewrite Hi.
Qed.

Lemma session_val_last v0 d0 ds :
  session_val v0 d0 ds ((v0 + 2 * Z.of_nat (length ds)) / 2) = to_bytes (List.last (d0 :: ds) d0).
Proof using Type.
  unfold session_val. rewrite Z.mul_comm, Z.div_add by lia. replace (Z.to_nat _) with (length ds) by lia. f_equal.
  generalize d0 at 1 3. induction ds as [|d ds' IH]; [done|]. intros x. apply (IH d).
Qed.

Lemma wp_session rc m0 d0 ds t :
  Forall byte_ok m0 -> holds d0 m0 ->
  let v0 := ld32 m0 0 in
  let at_version := fun v m => slot_at 0 data_offset (sizeof T) (session_val v0 d0 ds) v m /\ region_ok (T:=T) m in
  let v1 := v0 + 2 * Z.of_nat (length ds) in
  wp (quiet rc) (stores ds) t m0 (fun _ _ m' l => versioned at_version v0 l v1 /\ at_version v1 m').
Proof using Type.
  intros Hb Hd v0 at_version v1. destruct (session_start m0 d0 ds Hb Hd) as [_ Hat]. destruct Hd as (Hr & Hev & _).
  apply (wp_stores (session_val v0 d0 ds)) with v0; [done|done|done|by apply session_val_stored|done].
Qed.

Lemma session_versions m0 d0 ds l m1 :
  Forall byte_ok m0 -> holds d0 m0 -> session m0 ds l m1 ->
  let v0 := ld32 m0 0 in
  exists ver : nat -> Z,
    (forall i, v0 <= ver i <= v0 + 2 * Z.of_nat (length ds)) /\
    (forall i j, (i <= j)%nat -> ver i <= ver j) /\
    (forall i, slot_at 0 data_offset (sizeof T) (session_val v0 d0 ds) (ver i) (at_time l m1 i)
               /\ region_ok (T:=T) (at_time l m1 i)) /\
    (forall i, (length l <= i)%nat -> ver i = v0 + 2 * Z.of_nat (length ds)).
Proof using Type.
  intros Hb Hd (rc & t1 & Hrun & ->). cbv zeta. pose proof (wp_session rc m0 d0 ds 0%nat Hb Hd) as Hwp.
  apply (wp_runs _ _ _ _ _ _ _ _ Hwp) in Hrun. destruct Hrun as [Hl Hm1].
  rewrite Nat.sub_0_r in Hl.
  destruct (versioned_times _ _ _ _ _ Hl Hm1) as (ver & ? & ? & ? & ?). eauto 6.
Qed.

(** A reader's successful attempt inside a session. *)
Lemma session_attempt m0 d0 ds l m1 ver sched rc t m bs t' m' :
  let v0 := ld32 m0 0 in
  Z.of_nat (length ds) < 2 ^ 31 -> schedule sched ->
  (forall i, v0 <= ver i <= v0 + 2 * Z.of_nat (length ds)) ->
  (forall i j, (i <= j)%nat -> ver i <= ver j) ->
  (forall i, slot_at 0 data_offset (sizeof T) (session_val v0 d0 ds) (ver i) (at_time l m1 i)
             /\ region_ok (T:=T) (at_time l m1 i)) ->
  runs (reader_env l m1 sched rc) (read_attempt 0 data_offset (sizeof T)) t m (Some bs) t' m' ->
  (t < t')%nat /\ ver (sched t) mod 2 = 0 /\
  bs = session_val v0 d0 ds (ver (sched t) / 2) /\ ver (sched (pred t')) = ver (sched t).
Proof using Type.
  intros v0 Hlen Hsched Hrange Hmono Hat Hrun.
  apply (read_attempt_sound 0 data_offset (sizeof T) (session_val v0 d0 ds)
           (fun t => at_time l m1 (sched t)) (fun t => ver (sched t)) rc t m bs t' m').
  - split; [intros; apply Hat|intros; apply region_slot_ok, Hat|intros; by apply Hmono, Hsched].
  - exact Hrun.
  - pose proof (Hrange (sched t)). pose proof (Hrange (sched t')). lia.
  - apply length_session_val.
Qed.

(** The stored value that is current at an even version. *)
Lemma session_val_at m0 d0 ds l m1 ver i :
  let v0 := ld32 m0 0 in
  v0 mod 2 = 0 ->
  (forall i, v0 <= ver i <= v0 + 2 * Z.of_nat (length ds)) ->
  (forall i, slot_at 0 data_offset (sizeof T) (session_val v0 d0 ds) (ver i) (at_time l m1 i)
             /\ region_ok (T:=T) (at_time l m1 i)) ->
  ver i mod 2 = 0 ->
  exists x, (d0 :: ds) !! Z.to_nat (ver i / 2 - v0 / 2) = Some x /\
            session_val v0 d0 ds (ver i / 2) = to_bytes x /\ holds x (at_time l m1 i).
Proof using Type.
  intros v0 Hev0 Hrange Hat Hev. specialize (Hrange i). destruct (Hat i) as [Hs Hr].
  destruct (lookup_lt_is_Some_2 (d0 :: ds) (Z.to_nat (ver i / 2 - v0 / 2))) as [x Hx].
  { simpl. pose proof (Z.div_mod v0 2). pose proof (Z.div_mod (ver i) 2). lia. }
  exists x. split; [done|].
  assert (Hv : session_val v0 d0 ds (ver i / 2) = to_bytes x).
  { unfold session_val. by rewrite nth_lookup, Hx. }
  split; [done|]. by eapply slot_at_holds.
Qed.
End Session.

(** ** Properties *)
Section Properties.
Context {T : Set} `{FlatType T}.
Abbreviation data_offset := (SeqlockRegion.data_offset T).

(** C1: A seqlock read by any number of readers while one writer publishes a
    list of values is an atomic register: every load that returns, under every
    interleaving of its single loads and byte copies with the writer's
    actions, returns a value whole, namely the one the region stably held at
    some moment during the call, and values are seen in the order in which
    they were stored. *)
Theorem load_linearizable (m0 m1 : mem) (d0 : T) (ds : list T) (l : list mem) :
  Forall byte_ok m0 -> holds d0 m0 -> session m0 ds l m1 -> Z.of_nat (length ds) < 2 ^ 31 ->
  exists idx : nat -> nat,
    (forall i j, (i <= j)%nat -> (idx i <= idx j)%nat) /\
    (forall i, (length l <= i)%nat -> idx i = length ds) /\
    forall sched rc t m x t' m',
      schedule sched ->
      runs (reader_env l m1 sched rc) (SeqlockReader.load T) t m x t' m' ->
      exists s, (t <= s < t')%nat /\ holds x (at_time l m1 (sched s)) /\
                (d0 :: ds) !! idx (sched s) = Some x.
Proof using Type.
  intros Hb Hd0 Hs Hlen. pose proof Hd0 as (_ & Hev0 & _).
  destruct (session_versions _ _ _ _ _ Hb Hd0 Hs) as (ver & Hrange & Hmono & Hat & Hend).
  set (v0 := ld32 m0 0) in *.
  exists (fun i => Z.to_nat (ver i / 2 - v0 / 2)).
  split; [intros i j Hij; pose proof (Z.div_le_mono _ _ 2 ltac:(lia) (Hmono i j Hij)); lia|].
  split.
  { intros i Hi. rewrite Hend by done.
    replace (v0 + 2 * Z.of_nat (length ds)) with (v0 + Z.of_nat (length ds) * 2) by lia.
    rewrite Z.div_add by lia. lia. }
  intros sched rc t m x t' m' Hsched Hrun. unfold SeqlockReader.load, SeqlockReader.seq, SeqlockReader.payload in Hrun. runs_inv.
  apply runs_forever_last in Hp. destruct Hp as (s & ms & Hst & Hrun).
  destruct (session_attempt _ _ _ _ _ _ _ _ _ _ _ _ _ Hlen Hsched Hrange Hmono Hat Hrun)
    as (Hlt & Hev & -> & _).
  destruct (session_val_at m0 d0 ds l m1 ver (sched s) Hev0 Hrange Hat Hev) as (x & Hx & Hv & Hh).
  exists s. split; [lia|]. rewrite Hv, of_to_bytes. done.
Qed.

(** A round of [load_blocking] that returns a value is a successful read
    attempt, at a counter the caller has not seen; a round that gives up
    was told so by the kernel. *)
Lemma load_blocking_round_inv obs rc last ts t m r seq' t' m' :
  runs (observing obs rc) (SeqlockReader.load_blocking_round T last ts) t m
       (Some (r, seq')) t' m' ->
  match r with
  | Some x => exists bs,
      runs (observing obs rc) (read_attempt 0 data_offset (sizeof T)) t m (Some bs) t' m' /\
      x = of_bytes bs /\ seq' = ld32 (obs t) 0 /\ seq' <> last
  | None => seq' = last /\ rc (S t) = (-1, ETIMEDOUT) /\ t' = S (S t) /\
      (ld32 (obs t) 0 = last \/ Z.land (ld32 (obs t) 0) 1 <> 0)
  end.
Proof using Type.
  unfold SeqlockReader.load_blocking_round, SeqlockReader.seq, SeqlockReader.payload. intros Hrun.
  apply runs_bind in Hrun. destruct Hrun as (cur & t1 & m1 & Hld & Hrun).
  pose proof Hld as Hld'. apply runs_act in Hld. destruct Hld as [Hld ->].
  simpl in Hld. destruct (atomic_ok (obs t) 0 4) eqn:Eok; [|discriminate].
  injection Hld as <- <-. destruct (negb _ && _) eqn:Ec in Hrun.
  - zbool. apply runs_bind in Hrun. destruct Hrun as (bs & t2 & m2 & Hc & Hrun).
    apply runs_bind in Hrun. destruct Hrun as (after & t3 & m3 & Ha & Hrun).
    apply runs_ret in Hrun. destruct Hrun as (Hres & -> & ->).
    destruct (_ =? after) eqn:Eq in Hres; [|discriminate]. injection Hres as -> ->.
    exists bs. split; [|done].
    unfold read_attempt. apply runs_bind. exists (ld32 (obs t) 0), (S t), (obs t).
    split; [done|]. replace (Z.land _ 1 =? 0) with true by (symmetry; by apply Z.eqb_eq). simpl.
    apply runs_bind. exists bs, t2, m2. split; [done|].
    apply runs_bind. exists after, t3, m3. split; [done|].
    apply runs_ret. by rewrite Eq.
  - apply runs_bind in Hrun. destruct Hrun as (c & t2 & m2 & Hw & Hrun).
    apply runs_act in Hw. destruct Hw as [Hw ->].
    apply runs_ret in Hrun. destruct Hrun as (Hres & -> & ->).
    destruct (_ && _) eqn:E in Hres; [|discriminate]. injection Hres as -> ->. zbool.
    simpl in Hw. unfold guard_opt in Hw. destruct (atomic_ok _ 0 4) in Hw; [|discriminate].
    injection Hw as Hc _. destruct c as [c1 c2]. simpl in *. subst.
    split; [done|]. split; [done|]. split; [done|].
    apply andb_false_iff in Ec. destruct Ec as [Ec|Ec]; zbool; [by left|by right].
Qed.

(** C9: load_blocking returns either a whole value that the region held at an
    even counter different from the caller's last_seq, storing that counter in
    last_seq, or nothing, with last_seq unchanged, and then only because the
    kernel reported ETIMEDOUT. *)
Theorem load_blocking_sound (m0 m1 : mem) (d0 : T) (ds : list T) (l : list mem) :
  Forall byte_ok m0 -> holds d0 m0 -> session m0 ds l m1 -> Z.of_nat (length ds) < 2 ^ 31 ->
  forall sched rc last timeout t m r seq' t' m',
    schedule sched ->
    runs (reader_env l m1 sched rc) (SeqlockReader.load_blocking T last timeout) t m (r, seq') t' m' ->
    match r with
    | Some x =>
        exists s, (t <= s < t')%nat /\ holds x (at_time l m1 (sched s)) /\ In x (d0 :: ds) /\
                  seq' = ld32 (at_time l m1 (sched s)) 0 /\ seq' <> last /\ seq' mod 2 = 0
    | None =>
        seq' = last /\
        exists s, (t <= s < t')%nat /\ rc s = (-1, ETIMEDOUT)
    end.
Proof using Type.
  intros Hb Hd0 Hs Hlen sched rc last timeout t m r seq' t' m' Hsched Hrun.
  pose proof Hd0 as (_ & Hev0 & _).
  destruct (session_versions _ _ _ _ _ Hb Hd0 Hs) as (ver & Hrange & Hmono & Hat & Hend).
  set (v0 := ld32 m0 0) in *. unfold SeqlockReader.load_blocking in Hrun.
  apply runs_forever_last in Hrun. destruct Hrun as (s & ms & Hst & Hrun).
  apply load_blocking_round_inv in Hrun. destruct r as [x|].
  - destruct Hrun as (bs & Hrun & -> & -> & Hne).
    destruct (session_attempt _ _ _ _ _ _ _ _ _ _ _ _ _ Hlen Hsched Hrange Hmono Hat Hrun)
      as (Hlt & Hev & -> & _).
    destruct (session_val_at m0 d0 ds l m1 ver (sched s) Hev0 Hrange Hat Hev) as (x & Hx & Hv & Hh).
    exists s. rewrite Hv, of_to_bytes. split; [lia|]. split; [done|].
    split; [apply list_elem_of_In; by eapply list_elem_of_lookup_2|].
    split; [done|]. split; [done|]. by destruct Hh as (_ & ? & _).
  - destruct Hrun as (-> & Hrc & -> & _). split; [done|]. exists (S s). split; [lia|done].
Qed.

(** C12: Storing a list of values and then loading terminates without
    undefined behaviour and returns the last value stored; the counter has
    advanced by two per store, modulo 2^32. *)
Theorem load_returns_last (m0 : mem) (d0 : T) (ds : list T) rc t :
  Forall byte_ok m0 -> holds d0 m0 ->
  wp (quiet rc) (stores ds ;;; SeqlockReader.load T) t m0
     (fun x _ m' _ => x = List.last (d0 :: ds) d0 /\ holds x m' /\
                      ld32 m' 0 = u32 (ld32 m0 0 + 2 * Z.of_nat (length ds))).
Proof using Type.
  intros Hb Hd. set (v0 := ld32 m0 0). set (v1 := v0 + 2 * Z.of_nat (length ds)).
  apply wp_bind. eapply wp_conseq; [by apply (wp_session rc m0 d0 ds t Hb Hd)|]. fold v0. fold v1.
  intros [] t1 m1 l [_ [Hm1 Hr1]].
  assert (Hev1 : v1 mod 2 = 0) by (unfold v1; rewrite Z.mul_comm, Z.mod_add by lia; apply Hd).
  pose proof (session_val_last v0 d0 ds) as Hlast. fold v1 in Hlast.
  unfold SeqlockReader.load, SeqlockReader.seq, SeqlockReader.payload. apply wp_bind, wp_forever.
  apply wp_read_attempt with (val := session_val v0 d0 ds) (v := v1);
    [auto with shm|by apply region_slot_ok|done|done|]. intros t' l' _.
  apply wp_ret. rewrite Hlast, of_to_bytes. split; [done|]. cbn [quiet interfere].
  split; [by eapply slot_at_holds|]. apply Hm1.
Qed.

(** C13: Every load terminates once the writer has finished its stores,
    whenever the load was begun and whatever the readers' schedule. *)
Theorem load_finishes (m0 m1 : mem) (d0 : T) (ds : list T) (l : list mem) sched rc T0 t m :
  Forall byte_ok m0 -> holds d0 m0 -> session m0 ds l m1 ->
  schedule sched -> (length l <= sched T0)%nat ->
  exists x t' m', runs (reader_env l m1 sched rc) (SeqlockReader.load T) t m x t' m'.
Proof using Type.
  intros Hb Hd0 Hs Hsched HT0.
  destruct (session_versions _ _ _ _ _ Hb Hd0 Hs) as (ver & _ & _ & Hat & Hend).
  pose proof Hd0 as (_ & Hev0 & _). set (v0 := ld32 m0 0) in *.
  assert (Hfin : forall s, (T0 <= s)%nat -> at_time l m1 (sched s) = m1).
  { intros s Hle. unfold at_time. rewrite (proj2 (lookup_ge_None l _)); [done|].
    pose proof (Hsched _ _ Hle). lia. }
  destruct (Hat (sched T0)) as [Hv _]. rewrite (Hfin T0), Hend in Hv by lia.
  destruct (read_loop_finishes 0 data_offset (sizeof T) (session_val v0 d0 ds)
              (fun t => at_time l m1 (sched t)) rc T0 m1
              (v0 + 2 * Z.of_nat (length ds)) t m) as (bs & t' & m' & Hrun).
  - intros s. apply region_slot_ok, Hat.
  - exact Hfin.
  - exact Hv.
  - rewrite Z.mul_comm, Z.mod_add by lia. done.
  - exists (of_bytes bs), t', m'. unfold SeqlockReader.load, SeqlockReader.seq, SeqlockReader.payload. apply runs_bind.
    exists bs, t', m'. split; [exact Hrun|]. by apply runs_ret.
Qed.

(** C14: If the writer stops between its two counter stores, leaving the
    counter odd, load never returns. *)
Theorem load_stuck_writer (m : mem) rc t x t' m' :
  Z.land (ld32 m 0) 1 <> 0 -> ~ runs (quiet rc) (SeqlockReader.load T) t m x t' m'.
Proof using Type.
  intros Hodd Hrun. unfold SeqlockReader.load, SeqlockReader.seq, SeqlockReader.payload in Hrun.
  apply runs_bind in Hrun. destruct Hrun as (bs & t1 & m1 & Hrun & _).
  remember (t1 - t)%nat as d eqn:Ed. revert t m Hodd Ed Hrun.
  induction d as [d IH] using lt_wf_ind; intros t m Hodd Ed Hrun.
  apply runs_forever in Hrun. destruct Hrun as (r & t2 & m2 & Hb & Hrun). simpl in Hb.
  pose proof (proj1 Hb). apply read_attempt_odd in Hb; [|done]. destruct Hb as [-> ->].
  pose proof (proj1 Hrun). apply (IH (t1 - t2)%nat) with t2 m; [lia|done|done|done].
Qed.
End Properties.

(** The timespec built from a 64-bit nanosecond timeout is valid (0 <=
    tv_nsec < 10^9, tv_sec fits time_t) and denotes exactly that timeout. *)
Theorem to_timespec_exact (ns : Z) :
  0 <= ns < 2 ^ 64 ->
  exists ts, to_timespec (Some ns) = Some ts /\
    0 <= tv_nsec ts < 1000000000 /\ 0 <= tv_sec ts < 2 ^ 63 /\
    tv_sec ts * 1000000000 + tv_nsec ts = ns.
Proof.
  intros Hns. eexists. split; [reflexivity|]. simpl.
  pose proof (Z.mod_pos_bound ns 1000000000 ltac:(lia)).
  pose proof (Z.div_mod ns 1000000000 ltac:(lia)).
  repeat split; try lia.
Qed.

(** A session of two stores of a 32-bit value: the hypotheses of the
    properties above at concrete values. *)
Module Witness.
Definition d0 : uint32 := to_uint 4 0.
Definition ds : list uint32 := [to_uint 4 42; to_uint 4 99].
Definition rc (t : nat) : Z * Z := (-1, ETIMEDOUT).
Definition m0 : mem := fresh (SeqlockRegion.total_size uint32).
Definition steps : nat := Eval vm_compute in
  match run 100 (quiet rc) (stores ds) 0 m0 with Value _ t _ => t | _ => O end.
Definition final : mem := Eval vm_compute in
  match run 100 (quiet rc) (stores ds) 0 m0 with Value _ _ m => m | _ => [] end.
Definition l : list mem := Eval vm_compute in hist steps (quiet rc) (stores ds) 0 m0.

Lemma bytes_ok : Forall byte_ok m0.
Proof. apply Forall_replicate. unfold byte_ok. lia. Qed.

Lemma holds_start : holds d0 m0.
Proof. split; [vm_compute; reflexivity|split; vm_compute; reflexivity]. Qed.

Lemma session_run : session m0 ds l final.
Proof. exists rc, steps. split; [apply run_runs with 100%nat|]; vm_compute; reflexivity. Qed.

(** A reader that begins in the middle of the first store: its first copy
    is torn, its second one is not. *)
Definition sched (t : nat) : nat := (t + 5)%nat.
Lemma sched_ok : schedule sched.
Proof. intros s t Hst. unfold sched. lia. Qed.

Definition read_end : nat := Eval vm_compute in
  match run 100 (reader_env l final sched rc) (SeqlockReader.load uint32) 0 [] with
  | Value _ t _ => t | _ => O end.

Lemma load_linearizable_witness :
  exists idx : nat -> nat, exists s, (s < read_end)%nat /\ holds (to_uint 4 99) (at_time l final (sched s))
                        /\ (d0 :: ds) !! idx (sched s) = Some (to_uint 4 99).
Proof.
  destruct (load_linearizable m0 final d0 ds l bytes_ok holds_start session_run
              ltac:(vm_compute; reflexivity)) as (idx & _ & _ & Hread).
  assert (Hrun : runs (reader_env l final sched rc) (SeqlockReader.load uint32) 0 []
                   (to_uint 4 99) read_end final).
  { apply run_runs with 100%nat. vm_compute. reflexivity. }
  destruct (Hread sched rc 0%nat [] _ _ _ sched_ok Hrun) as (s & Hs & Hh & Hx).
  exists idx, s. split; [lia|]. split; assumption.
Defined.

(** A blocking reader that has seen the last store times out. *)
Lemma load_blocking_sound_witness :
  exists s, rc s = (-1, ETIMEDOUT) /\ 4 = ld32 final 0.
Proof.
  assert (Hrun : runs (reader_env l final (fun t => t + 100)%nat rc)
            (SeqlockReader.load_blocking uint32 4 (Some 50000000)) 0 [] (None, 4) 3 final).
  { apply run_runs with 100%nat. vm_compute. reflexivity. }
  destruct (load_blocking_sound m0 final d0 ds l bytes_ok holds_start session_run
              ltac:(vm_compute; reflexivity) (fun t => t + 100)%nat rc 4 (Some 50000000)
              0%nat [] None 4 3%nat final ltac:(intros s t Hst; lia) Hrun) as (_ & s & _ & Hs).
  exists s. split; [exact Hs|vm_compute; reflexivity].
Defined.

Lemma load_returns_last_witness :
  wp (quiet rc) (stores ds ;;; SeqlockReader.load uint32) 0 m0
     (fun x _ m' _ => x = to_uint 4 99 /\ holds x m' /\ ld32 m' 0 = u32 (0 + 2 * 2)).
Proof. exact (load_returns_last m0 d0 ds rc 0%nat bytes_ok holds_start). Defined.

Lemma load_finishes_witness :
  exists x t' m', runs (reader_env l final sched rc) (SeqlockReader.load uint32) 3 [] x t' m'.
Proof.
  exact (load_finishes m0 final d0 ds l sched rc 100%nat 3%nat [] bytes_ok holds_start session_run
           sched_ok ltac:(vm_compute; lia)).
Defined.

(** A writer that died right after making the counter odd. *)
Definition stuck : mem := st32 m0 0 1.
Lemma load_stuck_writer_witness : ~ runs (quiet rc) (SeqlockReader.load uint32) 0 stuck d0 50 stuck.
Proof. apply load_stuck_writer. vm_compute. congruence. Defined.

Lemma to_timespec_exact_witness :
  exists ts, to_timespec (Some 1500000000) = Some ts /\
    0 <= tv_nsec ts < 1000000000 /\ 0 <= tv_sec ts < 2 ^ 63 /\
    tv_sec ts * 1000000000 + tv_nsec ts = 1500000000.
Proof. apply to_timespec_exact. lia. Defined.
End Witness.
