(* ===== verification/CyclicBuffer.v ===== *)
(** * Cyclic buffer: a ring of slots, each with its own sequence counter

    [cyclic_buffer.hpp]: the layout ([CyclicSlot], [CyclicRegion]), the
    single writer ([CyclicBufferWriter]), the readers
    ([CyclicBufferReader]) and the combined [CyclicBuffer].

    Region: [total_writes : uint64] [padding] [slot 0] ... [slot N-1],
    each slot [seq : uint32] [padding] [T]. *)
From S2P Require Import Prelude Memory Prog Equiv History FlatType SeqCount Seqlock.

(** [static_assert(N > 0 && (N & (N - 1)) == 0)]. *)
Definition capacity_ok (N : Z) : bool := (0 <? N) && (Z.land N (N - 1) =? 0).

Module CyclicSlot.
Section Slot.
Context (T : Set) `{FlatType T}.
Definition seq_size : Z := 4.
Definition data_offset : Z := align_up seq_size (alignof T).
Definition slot_size : Z := u64 (data_offset + Z.of_nat (sizeof T)).
End Slot.
End CyclicSlot.

Module CyclicRegion.
Section Region.
Context (T : Set) `{FlatType T} (N : Z).
Definition header_size : Z := 8.
Definition slots_offset : Z := align_up header_size (alignof T).
Definition slot_size : Z := CyclicSlot.slot_size T.
Definition total_size : Z := u64 (slots_offset + u64 (slot_size * N)).
End Region.
End CyclicRegion.

(** The byte offsets of the counter and the payload of a slot. *)
Definition slot_seq_offset (T : Set) `{FlatType T} (idx : Z) : Z :=
  u64 (CyclicRegion.slots_offset T + u64 (idx * CyclicSlot.slot_size T)).

Definition slot_data_offset (T : Set) `{FlatType T} (idx : Z) : Z :=
  u64 (CyclicRegion.slots_offset T + u64 (idx * CyclicSlot.slot_size T) + CyclicSlot.data_offset T).

Module CyclicBufferWriter.
Section Writer.
Context {T : Set} `{FlatType T} (N : Z).

Definition total_writes_ref : Z := 0.
Definition total_writes_cref : Z := 0.
Definition total_writes_ptr : Z := 0.
Definition slot_seq (idx : Z) : Z := slot_seq_offset T idx.
Definition slot_data (idx : Z) : Z := slot_data_offset T idx.

Definition insert (data : T) : prog unit :=
  writes <- load64 acquire total_writes_ref ;;
  let idx := Z.land writes (N - 1) in
  write_slot (slot_seq idx) (slot_data idx) (to_bytes data) ;;;
  store64 release total_writes_ref (u64 (writes + 1)) ;;;
  futex_wake_call total_writes_ptr INT_MAX.

Definition total_writes : prog Z := load64 acquire total_writes_cref.
End Writer.
End CyclicBufferWriter.

Module CyclicBufferReader.
Section Reader.
Context (T : Set) `{FlatType T} (N : Z).

Definition total_writes_ref : Z := 0.
Definition total_writes_futex_ptr : Z := 0.
Definition slot_seq (idx : Z) : Z := slot_seq_offset T idx.
Definition slot_data (idx : Z) : Z := slot_data_offset T idx.

Definition read_slot (idx : Z) : prog T :=
  bs <- forever (read_attempt (slot_seq idx) (slot_data idx) (sizeof T)) ;;
  Ret (of_bytes bs).

(** [for (unsigned attempt = 0; attempt <= max_retries; ++attempt)] *)
Definition try_read_slot (idx max_retries : Z) : prog (option T) :=
  Iter (fun attempt =>
    if attempt <=? max_retries then
      r <- read_attempt (slot_seq idx) (slot_data idx) (sizeof T) ;;
      Ret (match r with
           | Some bs => inr (Some (of_bytes bs))
           | None => inl (u32 (attempt + 1))
           end)
    else Ret (inr None)) 0.

Definition get_latest : prog T :=
  writes <- load64 acquire total_writes_ref ;;
  if writes =? 0 then Ret value_init
  else read_slot (Z.land (u64 (writes - 1)) (N - 1)).

Definition get (reverse_index : Z) : prog T :=
  writes <- load64 acquire total_writes_ref ;;
  let idx := Z.land (u64 (u64 (writes - 1) - reverse_index)) (N - 1) in
  read_slot idx.

Definition try_get (reverse_index max_retries : Z) : prog (option T) :=
  writes <- load64 acquire total_writes_ref ;;
  if reverse_index >=? Z.min writes N then Ret None
  else
    let idx := Z.land (u64 (u64 (writes - 1) - reverse_index)) (N - 1) in
    try_read_slot idx max_retries.

Definition available : prog Z :=
  writes <- load64 acquire total_writes_ref ;;
  Ret (Z.min writes N).

Definition total_writes : prog Z := load64 acquire total_writes_ref.

Definition wait_for_write (last_seen : Z) (timeout_ns : option Z) : prog (option Z) :=
  let ts := to_timespec timeout_ns in
  forever (
    cur <- load64 acquire total_writes_ref ;;
    if negb (cur =? last_seen) then Ret (Some (Some cur))
    else
      let expected_lo := u32 last_seen in
      rc <- futex_wait_call total_writes_futex_ptr expected_lo ts ;;
      Ret (if (fst rc =? -1) && (snd rc =? ETIMEDOUT) then Some None else None)).

Definition capacity : Z := N.
End Reader.
End CyclicBufferReader.

(** The combined class for use in one process repeats the methods; they are
    written out here as its text has them. *)
Module CyclicBuffer.
Section Combined.
Context {T : Set} `{FlatType T} (N : Z).

Definition total_writes_ref : Z := 0.
Definition total_writes_ptr : Z := 0.
Definition slot_seq (idx : Z) : Z :=
  u64 (CyclicRegion.slots_offset T + u64 (idx * CyclicSlot.slot_size T)).
Definition slot_data (idx : Z) : Z :=
  u64 (CyclicRegion.slots_offset T + u64 (idx * CyclicSlot.slot_size T) + CyclicSlot.data_offset T).
Definition total_writes_cref : Z := 0.
Definition slot_seq_c (idx : Z) : Z :=
  u64 (CyclicRegion.slots_offset T + u64 (idx * CyclicSlot.slot_size T)).
Definition slot_data_c (idx : Z) : Z :=
  u64 (CyclicRegion.slots_offset T + u64 (idx * CyclicSlot.slot_size T) + CyclicSlot.data_offset T).

Definition insert (data : T) : prog unit :=
  writes <- load64 acquire total_writes_ref ;;
  let idx := Z.land writes (N - 1) in
  let s := slot_seq idx in
  cur <- load32 relaxed s ;;
  store32 release s (u32 (cur + 1)) ;;;
  memcpy_to (slot_data idx) (to_bytes data) ;;;
  store32 release s (u32 (cur + 2)) ;;;
  store64 release total_writes_ref (u64 (writes + 1)) ;;;
  futex_wake_call total_writes_ptr INT_MAX.

Definition read_slot (idx : Z) : prog T :=
  let s := slot_seq_c idx in
  forever (
    before <- load32 acquire s ;;
    if negb (Z.land before 1 =? 0) then Ret None
    else
      result <- memcpy_from (slot_data_c idx) (sizeof T) ;;
      after <- load32 acquire s ;;
      Ret (if before =? after then Some (of_bytes result) else None)).

Definition try_read_slot (idx max_retries : Z) : prog (option T) :=
  let s := slot_seq_c idx in
  Iter (fun attempt =>
    if attempt <=? max_retries then
      before <- load32 acquire s ;;
      if negb (Z.land before 1 =? 0) then Ret (inl (u32 (attempt + 1)))
      else
        result <- memcpy_from (slot_data_c idx) (sizeof T) ;;
        after <- load32 acquire s ;;
        Ret (if before =? after then inr (Some (of_bytes result)) else inl (u32 (attempt + 1)))
    else Ret (inr None)) 0.

Definition get_latest : prog T :=
  writes <- load64 acquire total_writes_cref ;;
  if writes =? 0 then Ret value_init
  else read_slot (Z.land (u64 (writes - 1)) (N - 1)).

Definition get (reverse_index : Z) : prog T :=
  writes <- load64 acquire total_writes_cref ;;
  let idx := Z.land (u64 (u64 (writes - 1) - reverse_index)) (N - 1) in
  read_slot idx.

Definition try_get (reverse_index max_retries : Z) : prog (option T) :=
  writes <- load64 acquire total_writes_cref ;;
  if reverse_index >=? Z.min writes N then Ret None
  else
    let idx := Z.land (u64 (u64 (writes - 1) - reverse_index)) (N - 1) in
    try_read_slot idx max_retries.

Definition available : prog Z :=
  writes <- load64 acquire total_writes_cref ;;
  Ret (Z.min writes N).

Definition total_writes : prog Z := load64 acquire total_writes_cref.
Definition capacity : Z := N.
End Combined.
End CyclicBuffer.

(** It does what the writer and the reader do. *)
Section Combined.
Context {T : Set} `{FlatType T} (N : Z).

Lemma combined_insert (data : T) : CyclicBuffer.insert N data ≡ CyclicBufferWriter.insert N data.
Proof using Type. apply Bind_proper; [done|]. intros writes. apply write_slot_then. Qed.

Lemma combined_read_slot idx : CyclicBuffer.read_slot (T:=T) idx ≡ CyclicBufferReader.read_slot T idx.
Proof using Type. apply read_loop_equiv. Qed.

Lemma combined_try_read_slot idx max_retries :
  CyclicBuffer.try_read_slot (T:=T) idx max_retries ≡ CyclicBufferReader.try_read_slot T idx max_retries.
Proof using Type.
  apply Iter_proper; [|done]. intros attempt. destruct (attempt <=? max_retries); [|done].
  rewrite <- read_attempt_then. apply Bind_proper; [done|]. intros before. destruct (negb _); [done|].
  do 2 (apply Bind_proper; [done|]; intros ?). by destruct (_ =? _).
Qed.

Lemma combined_get_latest : CyclicBuffer.get_latest N ≡ CyclicBufferReader.get_latest T N.
Proof using Type.
  apply Bind_proper; [done|]. intros writes. destruct (writes =? 0); [done|]. apply combined_read_slot.
Qed.

Lemma combined_get r : CyclicBuffer.get N r ≡ CyclicBufferReader.get T N r.
Proof using Type. apply Bind_proper; [done|]. intros writes. apply combined_read_slot. Qed.

Lemma combined_try_get r max_retries :
  CyclicBuffer.try_get N r max_retries ≡ CyclicBufferReader.try_get T N r max_retries.
Proof using Type.
  apply Bind_proper; [done|]. intros writes. destruct (_ >=? _); [done|]. apply combined_try_read_slot.
Qed.

(** Each method of a combined class with the method it repeats. *)
Inductive repeats : forall A : Set, prog A -> prog A -> Prop :=
| SeqlockStore (data : T) : repeats unit (Seqlock.store data) (SeqlockWriter.store data)
| SeqlockLoad : repeats T Seqlock.load (SeqlockReader.load T)
| SeqlockLoadBlocking last_seq timeout_ns :
    repeats _ (Seqlock.load_blocking last_seq timeout_ns) (SeqlockReader.load_blocking T last_seq timeout_ns)
| SeqlockSequence : repeats Z Seqlock.sequence SeqlockReader.sequence
| RingInsert (data : T) : repeats unit (CyclicBuffer.insert N data) (CyclicBufferWriter.insert N data)
| RingGetLatest : repeats T (CyclicBuffer.get_latest N) (CyclicBufferReader.get_latest T N)
| RingGet r : repeats T (CyclicBuffer.get N r) (CyclicBufferReader.get T N r)
| RingTryGet r max_retries :
    repeats _ (CyclicBuffer.try_get N r max_retries) (CyclicBufferReader.try_get T N r max_retries)
| RingAvailable : repeats Z (CyclicBuffer.available N) (CyclicBufferReader.available N)
| RingTotalWrites : repeats Z CyclicBuffer.total_writes CyclicBufferReader.total_writes.

(** C18: The combined classes, which repeat the text of the writers and the
    readers, behave exactly like them: in every environment, from every
    memory, each of their methods performs the same actions in the same order
    - the same accesses with the same memory orders, offsets and values, the
    same futex waits with the same expected value and timeout, the same wakes
    of as many sleepers - and ends with the same result at the same time on
    the same memory. *)
Theorem combined_classes_equal (A : Set) (p q : prog A) :
  repeats A p q ->
  p ≡ q /\
  forall n e t m, trace n e p t m = trace n e q t m /\ run n e p t m = run n e q t m.
Proof using Type.
  intros Hpq. assert (E : p ≡ q).
  { destruct Hpq; auto using combined_store, combined_load, combined_load_blocking, combined_insert,
      combined_get_latest, combined_get, combined_try_get; reflexivity. }
  split; [done|]. intros n e t m. by destruct (sim_run n e p q t m (E n)) as (? & _ & ?).
Qed.
End Combined.

(** Woken by a timeout of a second and a half: what both did. *)
Lemma combined_classes_equal_witness :
  let e := quiet (fun _ => (-1, ETIMEDOUT)) in
  let m := le_bytes 4 4 ++ le_bytes 4 77 in
  trace 100 e (Seqlock.load_blocking (T:=uint32) 4 (Some 1500000000)) 0 m =
    [Does (ALoad32 acquire 0); Does (AFutexWait 0 4 (Some (Timespec 1 500000000)))] /\
  trace 100 e (Seqlock.load_blocking (T:=uint32) 4 (Some 1500000000)) 0 m =
    trace 100 e (SeqlockReader.load_blocking uint32 4 (Some 1500000000)) 0 m.
Proof.
  intros e m. split; [reflexivity|].
  apply (combined_classes_equal (T:=uint32) 2 _ _ _ (SeqlockLoadBlocking 2 4 (Some 1500000000))).
Defined.

(** [max_retries] defaults to 4. *)
Definition default_retries : Z := 4.

(** Quick look: three inserts into a ring of two. *)
Example ring_smoke :
  let d k := to_uint 4 k in
  let p := CyclicBufferWriter.insert 2 (d 10) ;;; CyclicBufferWriter.insert 2 (d 11) ;;;
           CyclicBufferWriter.insert 2 (d 12) ;;;
           a <- CyclicBufferReader.try_get uint32 2 0 4 ;;
           b <- CyclicBufferReader.try_get uint32 2 1 4 ;;
           c <- CyclicBufferReader.try_get uint32 2 2 4 ;;
           n <- CyclicBufferReader.available 2 ;;
           Ret (a, b, c, n) in
  match run 1000 (quiet (fun _ => (0, 0))) p 0 (fresh (CyclicRegion.total_size uint32 2)) with
  | Value (a, b, c, n) _ _ => (uint_val <$> a, uint_val <$> b, uint_val <$> c, n) = (Some 12, Some 11, None, 2)
  | _ => False
  end.
Proof. vm_compute. reflexivity. Qed.

(** [slot_size] is not rounded up: with elements of odd size and small
    alignment the 32-bit counter of slot 1 is misaligned, and
    [std::atomic_ref] on it undefined.  The theorems ask for aligned slots. *)
Lemma odd_slots_misaligned : slot_seq_offset (byte_array 3) 1 = 15 /\ slot_seq_offset (byte_array 3) 1 mod 4 <> 0.
Proof. split; [reflexivity|discriminate]. Qed.

(** ** Arithmetic of the ring *)

(** The static assertion says that the capacity is a power of two. *)
Lemma capacity_ok_pow2 N : capacity_ok N = true -> exists k, 0 <= k /\ N = 2 ^ k.
Proof.
  unfold capacity_ok. intros Hc. zbool. exists (Z.log2 N). split; [apply Z.log2_nonneg|].
  pose proof (Z.log2_spec N ltac:(lia)) as [Hlo Hhi].
  destruct (decide (N = 2 ^ Z.log2 N)) as [|Hne]; [done|]. exfalso.
  assert (Hb : Z.testbit (Z.land N (N - 1)) (Z.log2 N) = true).
  { rewrite Z.land_spec, Z.bit_log2 by lia.
    assert (Hl : Z.log2 (N - 1) = Z.log2 N).
    { apply Z.log2_unique; [apply Z.log2_nonneg|]. lia. }
    rewrite <- Hl, Z.bit_log2; [done|].
    assert (0 < 2 ^ Z.log2 N) by (apply Z.pow_pos_nonneg; [lia|apply Z.log2_nonneg]). lia. }
  replace (Z.land N (N - 1)) with 0 in Hb by lia. by rewrite Z.bits_0 in Hb.
Qed.

Section SlotCount.
Context (N : Z) (HN : 0 < N).

(** How many of the elements [0 .. w - 1] went to slot [i]. *)
Definition slot_count (i w : Z) : Z := (w + N - 1 - i) / N.

Lemma slot_count_0 i : 0 <= i < N -> slot_count i 0 = 0.
Proof using HN. intros. unfold slot_count. apply Z.div_small. lia. Qed.

Lemma slot_count_nonneg i w : 0 <= i < N -> 0 <= w -> 0 <= slot_count i w.
Proof using HN. intros. apply Z.div_pos; lia. Qed.

Lemma slot_count_succ i w :
  0 <= i < N -> 0 <= w ->
  slot_count i (w + 1) = slot_count i w + (if w mod N =? i then 1 else 0).
Proof using HN.
  intros Hi Hw. unfold slot_count.
  pose proof (Z.div_mod w N ltac:(lia)) as Hd. pose proof (Z.mod_pos_bound w N HN) as Hr.
  set (q := w / N) in *. set (r := w mod N) in *. rewrite Hd.
  replace (N * q + r + 1 + N - 1 - i) with (r - i + N + q * N) by lia.
  replace (N * q + r + N - 1 - i) with (r - i + N - 1 + q * N) by lia.
  rewrite !Z.div_add by lia. zcase.
  - subst i. replace (r - r + N) with N by lia. replace (r - r + N - 1) with (N - 1) by lia.
    rewrite Z.div_same, Z.div_small by lia. lia.
  - destruct (decide (i < r)).
    + replace (r - i + N) with (r - i + 1 * N) by lia.
      replace (r - i + 1 * N - 1) with (r - i - 1 + 1 * N) by lia.
      rewrite !Z.div_add, !Z.div_small by lia. lia.
    + rewrite !Z.div_small by lia. lia.
Qed.

Lemma slot_count_mono i w w' : 0 <= i < N -> 0 <= w <= w' -> slot_count i w <= slot_count i w'.
Proof using HN. intros. apply Z.div_le_mono; lia. Qed.

(** The element in slot [i] after [k] of them: number [i + (k - 1) * N]. *)
Definition slot_elem (i k : Z) : Z := i + (k - 1) * N.

Lemma slot_elem_lt i w : 0 <= i < N -> 0 <= w -> slot_elem i (slot_count i w) < w.
Proof using HN.
  intros. unfold slot_elem, slot_count.
  pose proof (Z.mul_div_le (w + N - 1 - i) N HN). nia.
Qed.

Lemma slot_elem_mod i k : 0 <= i < N -> slot_elem i k mod N = i.
Proof using HN. intros. unfold slot_elem. rewrite Z.mod_add, Z.mod_small by lia. done. Qed.

(** Slot of the [r]-th newest element: it holds exactly that element. *)
Lemma slot_elem_newest w r :
  0 <= r < N -> r < w ->
  slot_elem ((w - 1 - r) mod N) (slot_count ((w - 1 - r) mod N) w) = w - 1 - r.
Proof using HN.
  intros Hr Hw. unfold slot_elem, slot_count.
  pose proof (Z.div_mod (w - 1 - r) N ltac:(lia)) as Hd.
  pose proof (Z.mod_pos_bound (w - 1 - r) N HN).
  set (i := (w - 1 - r) mod N) in *. set (q := (w - 1 - r) / N) in *.
  replace (w + N - 1 - i) with (r + (q + 1) * N) by lia.
  rewrite Z.div_add, Z.div_small by lia. lia.
Qed.

Lemma slot_count_pos w r :
  0 <= r < N -> r < w -> 1 <= slot_count ((w - 1 - r) mod N) w.
Proof using HN.
  intros Hr Hw. pose proof (slot_elem_newest w r Hr Hw) as He.
  pose proof (Z.mod_pos_bound (w - 1 - r) N HN).
  pose proof (Z.mod_le (w - 1 - r) N ltac:(lia) HN).
  unfold slot_elem in He. nia.
Qed.
End SlotCount.
