(* ===== verification/CyclicRing.v ===== *)
(** * The cyclic buffer's region: layout, representation, writer

    What the bytes of a [CyclicRegion] mean while a writer is at work, and
    that [insert] takes the region from one state to the next. *)
From S2P Require Import Prelude Memory Prog History FlatType SeqCount Seqlock CyclicBuffer.

(** A ring of [N] slots of [T] that the library can map and use: the static
    assertion, a region that fits the address space, and slots whose
    counters are aligned. *)
Class RingConfig (T : Set) `{FlatType T} (N : Z) : Prop := {
  ring_capacity : capacity_ok N = true;
  ring_fits : CyclicRegion.slots_offset T + CyclicSlot.slot_size T * N < 2 ^ 64;
  ring_aligned : CyclicSlot.slot_size T mod 4 = 0
}.

Section Layout.
Context (T : Set) `{FlatType T}.
Abbreviation data_offset := (CyclicSlot.data_offset T).
Abbreviation slot_size := (CyclicSlot.slot_size T).
Abbreviation slots_offset := (CyclicRegion.slots_offset T).

Lemma slot_data_offset_bounds : 4 <= data_offset <= 4099.
Proof using Type. apply (data_offset_bounds (T:=T)). Qed.

Lemma slot_size_eq : slot_size = data_offset + Z.of_nat (sizeof T).
Proof using Type. apply (total_size_eq (T:=T)). Qed.

Lemma slots_offset_bounds : 8 <= slots_offset <= 4103 /\ slots_offset mod 4 = 0.
Proof using Type.
  unfold CyclicRegion.slots_offset, CyclicRegion.header_size.
  pose proof (alignof_bounds (T:=T)). pose proof (align_up_T (T:=T) 8 ltac:(lia)) as [Hb Hm].
  split; [lia|]. unfold alignof in *. pose proof (align_small (T:=T)).
  destruct (decide (align_log T < 2)%nat) as [Hs|Hs].
  - assert (align_log T = 0 \/ align_log T = 1)%nat as [->| ->] by lia; reflexivity.
  - eapply mod_pow2_4; [|exact Hm]. lia.
Qed.

(** The slots' counters are aligned for every type whose alignment, or
    whose size, is a multiple of four. *)
Lemma slot_size_aligned :
  (2 <= align_log T)%nat \/ (Z.of_nat (sizeof T)) mod 4 = 0 -> slot_size mod 4 = 0.
Proof using Type.
  rewrite slot_size_eq. pose proof (data_offset_bounds (T:=T)) as [_ Hd].
  unfold SeqlockRegion.data_offset, SeqlockRegion.seq_size in Hd.
  unfold CyclicSlot.data_offset, CyclicSlot.seq_size.
  intros Hcase.
  assert (Hmod4 : forall x, (2 <= align_log T)%nat -> x mod alignof T = 0 -> x mod 4 = 0).
  { intros x Hl. apply mod_pow2_4. lia. }
  destruct (decide (2 <= align_log T)%nat) as [Hl|Hl].
  - rewrite Z.add_mod, (Hmod4 _ Hl Hd), (Hmod4 _ Hl (sizeof_aligned (T:=T))) by lia. done.
  - destruct Hcase as [|Hs]; [lia|].
    rewrite Z.add_mod, Hs by lia. unfold alignof in *.
    assert (align_log T = 0 \/ align_log T = 1)%nat as [-> | ->] by lia; reflexivity.
Qed.
End Layout.

Section Ring.
Context {T : Set} `{FlatType T} {N : Z} {HR : RingConfig T N}.
Abbreviation data_offset := (CyclicSlot.data_offset T).
Abbreviation slot_size := (CyclicSlot.slot_size T).
Abbreviation slots_offset := (CyclicRegion.slots_offset T).

Lemma capacity_pos : 0 < N.
Proof using HR. pose proof ring_capacity as Hc. unfold capacity_ok in Hc. zbool. lia. Qed.

Lemma capacity_pow2 : exists k, 0 <= k <= 61 /\ N = 2 ^ k.
Proof using HR.
  destruct (capacity_ok_pow2 N ring_capacity) as (k & Hk & HNk). exists k. split; [|done].
  split; [done|]. pose proof ring_fits as Hf. pose proof slots_offset_bounds T.
  pose proof (slot_size_eq T). pose proof (slot_data_offset_bounds T).
  destruct (decide (k <= 61)); [done|].
  assert (2 ^ 62 <= N) by (rewrite HNk; apply Z.pow_le_mono_r; lia). nia.
Qed.

(** Masking with [N - 1] is reduction modulo [N], of the 64-bit value or of
    the mathematical one. *)
Lemma mask_mod x : Z.land x (N - 1) = x mod N.
Proof using HR. destruct capacity_pow2 as (k & Hk & ->). apply land_mask. lia. Qed.

Lemma u64_mod x : u64 x mod N = x mod N.
Proof using HR.
  destruct capacity_pow2 as (k & Hk & ->). unfold u64, wrap.
  replace (2 ^ 64) with (2 ^ k * 2 ^ (64 - k)) by (rewrite <- Z.pow_add_r by lia; f_equal; lia).
  assert (0 < 2 ^ k) by (apply Z.pow_pos_nonneg; lia).
  assert (0 < 2 ^ (64 - k)) by (apply Z.pow_pos_nonneg; lia).
  rewrite Z.rem_mul_r, Z.mul_comm, Z.mod_add, Z.mod_mod by lia. done.
Qed.

(** The index both [get]s compute. *)
Lemma reverse_slot w r :
  Z.land (u64 (u64 (u64 w - 1) - r)) (N - 1) = (w - 1 - r) mod N.
Proof using HR.
  rewrite mask_mod, u64_mod.
  rewrite Zminus_mod, u64_mod, <- Zminus_mod.
  replace (u64 w - 1 - r) with (u64 w - (1 + r)) by lia.
  rewrite Zminus_mod, u64_mod, <- Zminus_mod. f_equal. lia.
Qed.

Lemma slot_size_bounds : 5 <= slot_size.
Proof using Type.
  rewrite slot_size_eq. pose proof (slot_data_offset_bounds T). pose proof (sizeof_pos (T:=T)). lia.
Qed.

Lemma total_size_ring : CyclicRegion.total_size T N = slots_offset + slot_size * N.
Proof using HR.
  pose proof ring_fits. pose proof slot_size_bounds. pose proof capacity_pos.
  pose proof (slots_offset_bounds T).
  unfold CyclicRegion.total_size, CyclicRegion.slot_size.
  rewrite (u64_small (slot_size * N)) by nia. apply u64_small. nia.
Qed.

Lemma slot_seq_eq i : 0 <= i < N -> slot_seq_offset T i = slots_offset + i * slot_size.
Proof using HR.
  intros. pose proof ring_fits. pose proof slot_size_bounds.
  pose proof (slots_offset_bounds T).
  unfold slot_seq_offset. rewrite (u64_small (i * _)) by nia. apply u64_small. nia.
Qed.

Lemma slot_data_eq i : 0 <= i < N -> slot_data_offset T i = slots_offset + i * slot_size + data_offset.
Proof using HR.
  intros. pose proof ring_fits. pose proof slot_size_bounds.
  pose proof (slots_offset_bounds T). pose proof (slot_size_eq T). pose proof (slot_data_offset_bounds T).
  unfold slot_data_offset. rewrite (u64_small (i * _)) by nia. apply u64_small. nia.
Qed.

(** A mapping of the size the constructors ask for. *)
Definition ring_region (m : mem) : Prop := Z.of_nat (length m) = CyclicRegion.total_size T N.

Lemma ring_slot_ok m i :
  ring_region m -> 0 <= i < N -> slot_ok (slot_seq_offset T i) (slot_data_offset T i) (sizeof T) m.
Proof using HR.
  unfold ring_region. rewrite total_size_ring. intros Hm Hi.
  pose proof (slots_offset_bounds T) as [Ho Ha]. pose proof ring_aligned as Hal.
  pose proof slot_size_bounds. pose proof (slot_size_eq T). pose proof (slot_data_offset_bounds T).
  rewrite slot_seq_eq, slot_data_eq by done.
  split; [apply atomic_ok_intro|apply in_bounds_intro|]; try nia.
  change (Z.of_nat 4) with 4. rewrite Z.add_mod, Ha, Z.mul_mod, Hal, Z.mul_0_r by lia. done.
Qed.

Lemma ring_header_ok m : ring_region m -> atomic_ok m 0 8 = true.
Proof using HR.
  unfold ring_region. rewrite total_size_ring. intros Hm.
  pose proof (slots_offset_bounds T). pose proof slot_size_bounds. pose proof capacity_pos.
  apply atomic_ok_intro; [lia|nia|done].
Qed.

(** The extents of two slots, and the header, do not overlap. *)
(** The low half of [total_writes], which is what the futex compares. *)
Lemma ring_low_ok m : ring_region m -> atomic_ok m 0 4 = true.
Proof using HR.
  intros Hm. pose proof (ring_header_ok m Hm) as Hok. apply atomic_ok_bounds in Hok.
  unfold in_bounds in Hok. zbool. apply atomic_ok_intro; [lia|lia|done].
Qed.

Lemma slot_len_ring i : 0 <= i < N ->
  Z.of_nat (slot_len (slot_seq_offset T i) (slot_data_offset T i) (sizeof T)) = slot_size.
Proof using HR.
  intros. unfold slot_len. rewrite slot_seq_eq, slot_data_eq by done.
  pose proof (slot_size_eq T). pose proof (slot_data_offset_bounds T). lia.
Qed.

Lemma slots_apart i j m m' :
  0 <= i < N -> 0 <= j < N -> i <> j ->
  slot_outside (slot_seq_offset T i) (slot_data_offset T i) (sizeof T) m m' ->
  agree (slot_seq_offset T j) 4 m m' /\ agree (slot_data_offset T j) (sizeof T) m m'.
Proof using HR.
  intros Hi Hj Hne Ho. unfold slot_outside in Ho.
  pose proof (slot_len_ring i Hi). pose proof (slots_offset_bounds T).
  pose proof slot_size_bounds. pose proof (slot_size_eq T). pose proof (slot_data_offset_bounds T).
  split; (eapply outside_agree; [| | |exact Ho]); unfold disjoint;
    rewrite ?H0, ?slot_seq_eq, ?slot_data_eq by done; nia.
Qed.

Lemma slot_header_apart i m m' :
  0 <= i < N -> slot_outside (slot_seq_offset T i) (slot_data_offset T i) (sizeof T) m m' -> agree 0 8 m m'.
Proof using HR.
  intros Hi Ho. pose proof (slots_offset_bounds T). pose proof slot_size_bounds.
  eapply outside_agree; [| | |exact Ho]; unfold disjoint; rewrite ?slot_seq_eq by done; nia.
Qed.

Lemma header_slot_apart i m v :
  0 <= i < N -> agree (slot_seq_offset T i) 4 (st64 m 0 v) m /\ agree (slot_data_offset T i) (sizeof T) (st64 m 0 v) m.
Proof using HR.
  intros Hi. pose proof (slots_offset_bounds T). pose proof slot_size_bounds.
  pose proof (slot_data_offset_bounds T).
  split; apply agree_wr; unfold disjoint; rewrite ?slot_seq_eq, ?slot_data_eq, ?length_le_bytes by done; nia.
Qed.
End Ring.

(** ** The state of a ring

    The ghost version [g = 3 * w + phase] of the region counts completed
    inserts [w] and where the current one is: 0 none, 1 slot being written
    (counter odd), 2 slot written, [total_writes] not yet advanced. *)
Section State.
Context {T : Set} `{FlatType T} {N : Z} {HR : RingConfig T N}.
(** [elem j] is the [j]-th element ever inserted; [init i] what slot [i]
    contained before any. *)
Context (elem : Z -> T) (init : Z -> list Z).

(** Version of slot [i] at ring version [g]. *)
Definition slot_version (i g : Z) : Z :=
  let w := g / 3 in
  2 * slot_count N i w + (if w mod N =? i then g mod 3 else 0).

(** Payload of slot [i] at version [2 * k]. *)
Definition slot_val (i k : Z) : list Z :=
  if k <=? 0 then init i else to_bytes (elem (slot_elem N i k)).

Definition ring_at (g : Z) (m : mem) : Prop :=
  ring_region (T:=T) (N:=N) m /\
  ld64 m 0 = u64 (g / 3) /\
  forall i, 0 <= i < N -> slot_at (slot_seq_offset T i) (slot_data_offset T i) (sizeof T) (slot_val i) (slot_version i g) m.

Lemma div3 w p : 0 <= p < 3 -> (3 * w + p) / 3 = w.
Proof using Type. intros. rewrite Z.mul_comm, Z.add_comm, Z.div_add, Z.div_small; lia. Qed.

Lemma mod3 w p : 0 <= p < 3 -> (3 * w + p) mod 3 = p.
Proof using Type. intros. rewrite Z.mul_comm, Z.add_comm, Z.mod_add, Z.mod_small; lia. Qed.

Lemma slot_version_at i w p :
  0 <= p < 3 ->
  slot_version i (3 * w + p) = 2 * slot_count N i w + (if w mod N =? i then p else 0).
Proof using Type. intros. unfold slot_version. by rewrite div3, mod3. Qed.

Lemma slot_version_step i g :
  0 <= i < N -> 0 <= g -> slot_version i g <= slot_version i (g + 1) <= slot_version i g + 1.
Proof using HR.
  intros Hi Hg. pose proof (capacity_pos (T:=T) (N:=N)).
  pose proof (Z.div_mod g 3 ltac:(lia)) as Hd. pose proof (Z.mod_pos_bound g 3 ltac:(lia)).
  pose proof (Z.div_pos g 3 Hg ltac:(lia)).
  set (w := g / 3) in *. set (p := g mod 3) in *. rewrite Hd.
  destruct (decide (p = 2)) as [->|].
  - replace (3 * w + 2 + 1) with (3 * (w + 1) + 0) by lia.
    rewrite !slot_version_at, slot_count_succ by lia.
    destruct (w mod N =? i), ((w + 1) mod N =? i); lia.
  - replace (3 * w + p + 1) with (3 * w + (p + 1)) by lia.
    rewrite !slot_version_at by lia. destruct (w mod N =? i); lia.
Qed.

Lemma slot_version_mono i g g' :
  0 <= i < N -> 0 <= g <= g' -> slot_version i g <= slot_version i g' <= slot_version i g + (g' - g).
Proof using HR.
  intros Hi Hg. replace g' with (g + (g' - g)) by lia.
  assert (Hd : 0 <= g' - g) by lia. revert Hd. generalize (g' - g).
  apply natlike_ind; [rewrite Z.add_0_r; lia|]. intros d Hd IH.
  replace (g + Z.succ d) with (g + d + 1) by lia.
  pose proof (slot_version_step i (g + d) Hi ltac:(lia)). lia.
Qed.

(** An even slot version [2 * k] is reached while element [slot_elem i k]
    is the newest of slot [i]; its number is below the inserts begun. *)
Lemma slot_version_elem_lt i g :
  0 <= i < N -> 0 <= g -> slot_elem N i (slot_version i g / 2) < (g + 2) / 3.
Proof using HR.
  intros Hi Hg. pose proof (capacity_pos (T:=T) (N:=N)) as HN.
  pose proof (Z.div_mod g 3 ltac:(lia)) as Hd. pose proof (Z.mod_pos_bound g 3 ltac:(lia)).
  pose proof (Z.div_pos g 3 Hg ltac:(lia)).
  set (w := g / 3) in *. set (p := g mod 3) in *. rewrite Hd, slot_version_at by lia.
  pose proof (slot_elem_lt N HN i w Hi ltac:(lia)) as Hlt.
  assert (Hw : (3 * w + p + 2) / 3 = if p =? 0 then w else w + 1).
  { zcase; [replace (3 * w + p + 2) with (3 * w + 2) by lia; by rewrite div3 by lia|].
    replace (3 * w + p + 2) with (3 * (w + 1) + (p - 1)) by lia. by rewrite div3 by lia. }
  rewrite Hw. destruct (w mod N =? i) eqn:Ei; destruct (p =? 0) eqn:Ep; zbool;
    try (rewrite ?Ep, Z.add_0_r, Z.mul_comm, Z.div_mul by lia; lia).
  pose proof (slot_elem_lt N HN i (w + 1) Hi ltac:(lia)) as Hlt1.
  rewrite slot_count_succ in Hlt1 by lia. rewrite (proj2 (Z.eqb_eq _ _) Ei) in Hlt1.
  unfold slot_elem in *.
  assert ((2 * slot_count N i w + p) / 2 <= slot_count N i w + 1) by (apply Z.div_le_upper_bound; lia).
  nia.
Qed.

Lemma slot_at_agree i v m m' :
  agree (slot_seq_offset T i) 4 m' m -> agree (slot_data_offset T i) (sizeof T) m' m ->
  slot_at (slot_seq_offset T i) (slot_data_offset T i) (sizeof T) (slot_val i) v m ->
  slot_at (slot_seq_offset T i) (slot_data_offset T i) (sizeof T) (slot_val i) v m'.
Proof using Type.
  intros Hs [_ Hd] [Hv Hp]. split.
  - rewrite <- Hv. by apply (ld32_agree (slot_seq_offset T i)).
  - intros Hev. rewrite Hd. by apply Hp.
Qed.

(** While slot [i] moves, the rest of the ring stays. *)
Lemma ring_at_slot_step w p m x :
  0 <= w -> 0 <= p < 3 -> ring_at (3 * w) m ->
  slot_at (slot_seq_offset T (w mod N)) (slot_data_offset T (w mod N)) (sizeof T) (slot_val (w mod N))
          (slot_version (w mod N) (3 * w) + p) x ->
  slot_outside (slot_seq_offset T (w mod N)) (slot_data_offset T (w mod N)) (sizeof T) x m ->
  ring_at (3 * w + p) x.
Proof using HR.
  intros Hw Hp (Hr & Htw & Hs) Hx Ho. pose proof (capacity_pos (T:=T) (N:=N)) as HN.
  pose proof (Z.mod_pos_bound w N HN) as Hi. set (i := w mod N) in *.
  assert (Hv0 : slot_version i (3 * w) = 2 * slot_count N i w).
  { replace (3 * w) with (3 * w + 0) by lia. rewrite slot_version_at by lia.
    fold i. rewrite Z.eqb_refl. lia. }
  split; [|split].
  - unfold ring_region in *. by rewrite (proj1 Ho).
  - rewrite div3 by done. rewrite <- (Z.add_0_r (3 * w)), div3 in Htw by lia.
    rewrite <- Htw. apply (ld64_agree 0). by apply (slot_header_apart (T:=T) (N:=N) i).
  - intros j Hj. rewrite slot_version_at by done. fold i. zcase.
    + subst j. by rewrite <- Hv0.
    + destruct (slots_apart (T:=T) (N:=N) i j x m Hi Hj ltac:(lia) Ho) as [Ha Hb].
      apply (slot_at_agree j _ m x); [done|done|].
      specialize (Hs j Hj). rewrite <- (Z.add_0_r (3 * w)), slot_version_at in Hs by lia.
      fold i in Hs. rewrite (proj2 (Z.eqb_neq _ _)) in Hs by lia. done.
Qed.

(** Publishing the new count completes the insert. *)
Lemma ring_at_publish w m :
  0 <= w -> ring_at (3 * w + 2) m -> ring_at (3 * (w + 1)) (st64 m 0 (u64 (u64 w + 1))).
Proof using HR.
  intros Hw (Hr & Htw & Hs). pose proof (capacity_pos (T:=T) (N:=N)) as HN.
  replace (3 * (w + 1)) with (3 * (w + 1) + 0) by lia.
  split; [|split].
  - unfold ring_region in *. by rewrite length_st64.
  - rewrite ld64_st64_same by (by apply atomic_ok_bounds, (ring_header_ok (T:=T) (N:=N))).
    rewrite div3 by lia. unfold u64. by rewrite wrap_wrap, wrap_add_l by lia.
  - intros j Hj. destruct (header_slot_apart (T:=T) (N:=N) j m (u64 (u64 w + 1)) Hj) as [Ha Hb].
    apply (slot_at_agree j _ m); [done|done|].
    specialize (Hs j Hj). rewrite !slot_version_at in * by lia.
    rewrite slot_count_succ by lia.
    destruct (w mod N =? j), ((w + 1) mod N =? j);
      replace (2 * (slot_count N j w + 1) + 0) with (2 * slot_count N j w + 2) by lia;
      rewrite ?Z.add_0_r in *; done.
Qed.

(** [insert] takes the ring through the phases of one more element. *)
Lemma wp_insert rc t m w Q :
  0 <= w -> ring_at (3 * w) m ->
  (forall t' m' l, versioned ring_at (3 * w) l (3 * (w + 1)) -> ring_at (3 * (w + 1)) m' -> Q tt t' m' l) ->
  wp (quiet rc) (CyclicBufferWriter.insert N (elem w)) t m Q.
Proof using HR.
  intros Hw Hm HQ. pose proof Hm as (Hr & Htw & Hs).
  pose proof (capacity_pos (T:=T) (N:=N)) as HN.
  pose proof (Z.mod_pos_bound w N HN) as Hi.
  rewrite <- (Z.add_0_r (3 * w)), div3 in Htw by lia.
  unfold CyclicBufferWriter.insert, CyclicBufferWriter.total_writes_ref, CyclicBufferWriter.total_writes_ptr, CyclicBufferWriter.slot_seq, CyclicBufferWriter.slot_data.
  apply wp_bind, wp_load64; [by apply (ring_header_ok (T:=T) (N:=N))|]. cbn [quiet interfere].
  rewrite Htw, (mask_mod (T:=T)), (u64_mod (T:=T)).
  assert (Hv0 : slot_version (w mod N) (3 * w) = 2 * slot_count N (w mod N) w).
  { rewrite <- (Z.add_0_r (3 * w)), slot_version_at by lia. rewrite Z.eqb_refl. lia. }
  apply wp_bind. eapply wp_write_slot.
  - by apply (ring_slot_ok (T:=T) (N:=N)).
  - by apply Hs.
  - rewrite Hv0, Z.mul_comm. by apply Z.mod_mul.
  - apply length_to_bytes.
  - rewrite Hv0, Z.mul_comm, Z.div_mul by lia. unfold slot_val.
    pose proof (slot_count_nonneg N HN (w mod N) w Hi Hw).
    rewrite (proj2 (Z.leb_gt _ _)) by lia. do 2 f_equal.
    pose proof (slot_elem_newest N HN (w + 1) 0 ltac:(lia) ltac:(lia)) as He.
    replace (w + 1 - 1 - 0) with w in He by lia.
    rewrite slot_count_succ, Z.eqb_refl in He by lia. exact He.
  - intros t1 m1 l1 Hl1 Hm1 Ho1.
    assert (Hr1 : ring_at (3 * w + 2) m1) by (eapply ring_at_slot_step; eauto; lia).
    pose proof (ring_header_ok (T:=T) (N:=N) _ (proj1 Hr1)) as Hh1.
    apply wp_bind, wp_store64; [exact Hh1|]. cbn [quiet interfere].
    pose proof (ring_at_publish w m1 Hw Hr1) as Hr2.
    apply wp_futex_wake.
    { cbn [quiet interfere]. apply atomic_ok_intro; [lia| |done].
      unfold st64. rewrite length_wr. apply atomic_ok_bounds in Hh1.
      unfold in_bounds in Hh1. zbool. lia. }
    cbn [quiet interfere]. apply HQ; [|exact Hr2].
    apply versioned_app with (3 * w).
    { apply versioned_const. by constructor. }
    apply versioned_app with (3 * w + 2).
    { clear -Hl1 Hm Hw Hv0 HR. set (v0 := slot_version (w mod N) (3 * w)) in *.
      assert (Hgen : forall v l v', versioned (fun w0 x =>
          slot_at (slot_seq_offset T (w mod N)) (slot_data_offset T (w mod N)) (sizeof T) (slot_val (w mod N)) w0 x /\
          slot_outside (slot_seq_offset T (w mod N)) (slot_data_offset T (w mod N)) (sizeof T) x m) v l v' ->
          v0 <= v -> v' <= v0 + 1 -> versioned ring_at (3 * w + (v - v0)) l (3 * w + (v' - v0))).
      { induction 1 as [v v' Hle|v u x l v' Hle [Hx Hxo] Hl IH]; intros Hv Hv'.
        - constructor. lia.
        - pose proof (versioned_le _ _ _ _ Hl).
          apply versioned_cons with (3 * w + (u - v0)); [lia| |apply IH; lia].
          apply ring_at_slot_step with m; [done|lia|done| |done].
          fold v0. by replace (v0 + (u - v0)) with u by lia. }
      eapply versioned_weaken; [| |exact (Hgen _ _ _ Hl1 ltac:(lia) ltac:(lia))]; lia. }
    apply versioned_app with (3 * w + 2).
    { apply versioned_const. by constructor. }
    apply versioned_weaken with (3 * (w + 1)) (3 * (w + 1)); [lia|lia|].
    apply versioned_const. by constructor.
Qed.
End State.
