(* ===== verification/CyclicReaders.v ===== *)
(** * The cyclic buffer's readers

    Undisturbed, the buffer is the list of the last [N] elements (a
    refinement of a list specification); read while the writer is at work,
    it returns whole elements that were inserted, never older than asked. *)
From S2P Require Import Prelude Memory Prog Equiv History FlatType SeqCount Seqlock CyclicBuffer CyclicRing.

(** A writer that inserts a list of elements, one after the other. *)
Fixpoint inserts {T : Set} `{FlatType T} (N : Z) (ds : list T) : prog unit :=
  match ds with
  | [] => Ret tt
  | d :: ds => CyclicBufferWriter.insert N d ;;; inserts N ds
  end.

(** ** Undisturbed reads *)
Section Steady.
Context {T : Set} `{FlatType T} {N : Z} {HR : RingConfig T N}.
Context (elem : Z -> T) (init : Z -> list Z).
Abbreviation ring_at := (ring_at (N:=N) elem init).
Abbreviation slot_val := (slot_val (N:=N) elem init).

(** The slot of the [r]-th newest element, in a ring at rest after [w]
    inserts, is at an even version whose payload is that element. *)
Lemma ring_slot_newest w r m :
  0 <= r < N -> r < w -> ring_at (3 * w) m ->
  let i := (w - 1 - r) mod N in
  slot_ok (slot_seq_offset T i) (slot_data_offset T i) (sizeof T) m /\
  slot_at (slot_seq_offset T i) (slot_data_offset T i) (sizeof T) (slot_val i) (2 * slot_count N i w) m /\
  (2 * slot_count N i w) mod 2 = 0 /\
  slot_val i (2 * slot_count N i w / 2) = to_bytes (elem (w - 1 - r)).
Proof using HR.
  intros Hr Hw (Hreg & _ & Hs) i. pose proof (capacity_pos (T:=T) (N:=N)) as HN.
  pose proof (Z.mod_pos_bound (w - 1 - r) N HN) as Hi. fold i in Hi.
  split; [by apply (ring_slot_ok (T:=T) (N:=N))|].
  specialize (Hs i Hi). rewrite <- (Z.add_0_r (3 * w)), slot_version_at in Hs by lia.
  replace (if w mod N =? i then 0 else 0) with 0 in Hs by (destruct (_ =? i); done).
  rewrite Z.add_0_r in Hs. split; [done|].
  rewrite Z.mul_comm, Z.mod_mul, Z.div_mul by lia. split; [done|].
  pose proof (slot_count_pos N HN w r Hr Hw) as Hc. fold i in Hc.
  unfold slot_val. rewrite (proj2 (Z.leb_gt _ _)) by lia.
  unfold i. by rewrite slot_elem_newest.
Qed.

Lemma wp_try_read_slot e t m w r retries Q :
  steady e t m -> 0 <= r < N -> r < w -> 0 <= retries -> ring_at (3 * w) m ->
  (forall t' l, (t <= t')%nat -> Q (Some (elem (w - 1 - r))) t' m l) ->
  wp e (CyclicBufferReader.try_read_slot T ((w - 1 - r) mod N) retries) t m Q.
Proof using HR.
  intros Hst Hr Hw Hret Hm HQ.
  destruct (ring_slot_newest w r m Hr Hw Hm) as (Hok & Hat & Hev & Hval).
  unfold CyclicBufferReader.try_read_slot, CyclicBufferReader.slot_seq, CyclicBufferReader.slot_data. apply wp_iter.
  rewrite (proj2 (Z.leb_le 0 retries)) by done. rewrite (Hst t (le_n t)).
  apply wp_bind. eapply wp_read_attempt;
    [by eapply steady_later; [|done]; lia|exact Hok|exact Hat|exact Hev|].
  intros t' l Ht. apply wp_ret. rewrite Hval, of_to_bytes. apply HQ. lia.
Qed.

Lemma wp_read_slot e t m w r Q :
  steady e t m -> 0 <= r < N -> r < w -> ring_at (3 * w) m ->
  (forall t' l, (t <= t')%nat -> Q (elem (w - 1 - r)) t' m l) ->
  wp e (CyclicBufferReader.read_slot T ((w - 1 - r) mod N)) t m Q.
Proof using HR.
  intros Hst Hr Hw Hm HQ.
  destruct (ring_slot_newest w r m Hr Hw Hm) as (Hok & Hat & Hev & Hval).
  unfold CyclicBufferReader.read_slot, CyclicBufferReader.slot_seq, CyclicBufferReader.slot_data. apply wp_bind, wp_forever.
  rewrite (Hst t (le_n t)). eapply wp_read_attempt;
    [by eapply steady_later; [|done]; lia|exact Hok|exact Hat|exact Hev|].
  intros t' l Ht. apply wp_ret. rewrite Hval, of_to_bytes. apply HQ. lia.
Qed.

(** Loading [total_writes] from a ring at rest. *)
Lemma wp_load_total e t m w Q :
  steady e t m -> ring_at (3 * w) m -> 0 <= w < 2 ^ 64 ->
  (forall l, Q w (S t) m l) -> wp e (load64 acquire 0) t m Q.
Proof using HR.
  intros Hst (Hreg & Htw & _) Hw HQ.
  apply wp_load64; rewrite (Hst t (le_n t)); [by apply (ring_header_ok (T:=T) (N:=N))|].
  rewrite Htw, <- (Z.add_0_r (3 * w)), div3, u64_small by lia. apply HQ.
Qed.

Lemma wp_try_get e t m w r retries Q :
  steady e t m -> ring_at (3 * w) m -> 0 <= w < 2 ^ 64 -> 0 <= r -> 0 <= retries ->
  (forall t' l, (t <= t')%nat ->
     Q (if r <? Z.min w N then Some (elem (w - 1 - r)) else None) t' m l) ->
  wp e (CyclicBufferReader.try_get T N r retries) t m Q.
Proof using HR.
  intros Hst Hm Hw Hr Hret HQ. unfold CyclicBufferReader.try_get, CyclicBufferReader.total_writes_ref.
  apply wp_bind. eapply wp_load_total; [done|exact Hm|done|]. intros l.
  destruct (r >=? Z.min w N) eqn:E; zbool.
  - apply wp_ret. specialize (HQ (S t) (l ++ []) ltac:(lia)).
    by rewrite (proj2 (Z.ltb_ge _ _)) in HQ by lia.
  - rewrite <- (u64_small w) at 1 by done. rewrite (reverse_slot (T:=T)).
    apply wp_try_read_slot; [by eapply steady_later; [|done]; lia|lia|lia|done|done|].
    intros t' l' Ht. specialize (HQ t' (l ++ l') ltac:(lia)).
    by rewrite (proj2 (Z.ltb_lt _ _)) in HQ by lia.
Qed.

Lemma wp_get e t m w r Q :
  steady e t m -> ring_at (3 * w) m -> 0 <= w < 2 ^ 64 -> 0 <= r < Z.min w N ->
  (forall t' l, (t <= t')%nat -> Q (elem (w - 1 - r)) t' m l) ->
  wp e (CyclicBufferReader.get T N r) t m Q.
Proof using HR.
  intros Hst Hm Hw Hr HQ. unfold CyclicBufferReader.get, CyclicBufferReader.total_writes_ref.
  apply wp_bind. eapply wp_load_total; [done|exact Hm|done|]. intros l.
  rewrite <- (u64_small w) at 1 by done. rewrite (reverse_slot (T:=T)).
  apply wp_read_slot; [by eapply steady_later; [|done]; lia|lia|lia|done|].
  intros t' l' Ht. apply HQ. lia.
Qed.

Lemma wp_get_latest e t m w Q :
  steady e t m -> ring_at (3 * w) m -> 0 <= w < 2 ^ 64 ->
  (forall t' l, (t <= t')%nat -> Q (if w =? 0 then value_init else elem (w - 1)) t' m l) ->
  wp e (CyclicBufferReader.get_latest T N) t m Q.
Proof using HR.
  intros Hst Hm Hw HQ. unfold CyclicBufferReader.get_latest, CyclicBufferReader.total_writes_ref.
  apply wp_bind. eapply wp_load_total; [done|exact Hm|done|]. intros l.
  destruct (w =? 0) eqn:E; zbool.
  - apply wp_ret. apply HQ. lia.
  - pose proof (capacity_pos (T:=T) (N:=N)).
    rewrite (mask_mod (T:=T)), (u64_mod (T:=T)). replace (w - 1) with (w - 1 - 0) at 1 by lia.
    apply wp_read_slot; [by eapply steady_later; [|done]; lia|lia|lia|done|].
    intros t' l' Ht. rewrite Z.sub_0_r. apply HQ. lia.
Qed.

Lemma wp_available e t m w Q :
  steady e t m -> ring_at (3 * w) m -> 0 <= w < 2 ^ 64 ->
  (forall t' l, (t <= t')%nat -> Q (Z.min w N) t' m l) ->
  wp e (CyclicBufferReader.available N) t m Q.
Proof using HR.
  intros Hst Hm Hw HQ. unfold CyclicBufferReader.available, CyclicBufferReader.total_writes_ref.
  apply wp_bind. eapply wp_load_total; [done|exact Hm|done|]. intros l. apply wp_ret, HQ. lia.
Qed.

Lemma wp_inserts rc ds : forall t m w Q,
  0 <= w -> ring_at (3 * w) m ->
  (forall i d, ds !! i = Some d -> elem (w + Z.of_nat i) = d) ->
  (forall t' m' l, versioned ring_at (3 * w) l (3 * (w + Z.of_nat (length ds))) ->
     ring_at (3 * (w + Z.of_nat (length ds))) m' -> Q tt t' m' l) ->
  wp (quiet rc) (inserts N ds) t m Q.
Proof using HR.
  induction ds as [|d ds IH]; intros t m w Q Hw Hm Hel HQ; cbn [inserts].
  { apply wp_ret, HQ; [constructor; simpl; lia|]. simpl. by rewrite Z.add_0_r. }
  apply wp_bind. rewrite <- (Hel 0%nat d eq_refl). rewrite Z.add_0_r.
  eapply wp_insert; [done|exact Hm|]. intros t1 m1 l1 Hl1 Hm1.
  apply (IH t1 m1 (w + 1)); [lia|done| |].
  { intros i d' Hi. rewrite <- (Hel (S i) d' Hi). f_equal. lia. }
  intros t' m' l Hl Hm'.
  replace (w + 1 + Z.of_nat (length ds)) with (w + Z.of_nat (length (d :: ds))) in Hl, Hm'
    by (simpl; lia).
  apply HQ; [|done]. by apply versioned_app with (3 * (w + 1)).
Qed.
End Steady.

(** ** A slot whose writer stopped

    Between the two stores of its counter a writer leaves it odd.  A reader
    that may retry [k] times loads the counter [k + 1] times and gives up. *)
Section Stopped.
Context {T : Set} `{FlatType T} (rc : nat -> Z * Z).

Definition attempts (idx max_retries attempt : Z) : prog (option T) :=
  Iter (fun attempt =>
    if attempt <=? max_retries then
      r <- read_attempt (slot_seq_offset T idx) (slot_data_offset T idx) (sizeof T) ;;
      Ret (match r with
           | Some bs => inr (Some (of_bytes bs))
           | None => inl (u32 (attempt + 1))
           end)
    else Ret (inr None)) attempt.

Lemma read_attempt_stopped {A : Set} (k : option (list Z) -> prog A) seq_off data_off n fuel t m :
  atomic_ok m seq_off 4 = true -> Z.land (ld32 m seq_off) 1 <> 0 ->
  let p := Bind (read_attempt seq_off data_off n) k in
  trace (S fuel) (quiet rc) p t m = Does (ALoad32 acquire seq_off) :: trace fuel (quiet rc) (k None) (S t) m /\
  run (S fuel) (quiet rc) p t m = run fuel (quiet rc) (k None) (S t) m.
Proof using Type.
  intros Hok Hodd. cbn -[Z.land]. rewrite Hok. cbn -[Z.land].
  match goal with |- context [trace fuel _ ?q _ _] => assert (E : q ≡ k None) end.
  { rewrite ret_bind, (proj2 (Z.eqb_neq _ _)) by done. cbn [negb]. by rewrite ret_bind. }
  destruct (sim_run fuel (quiet rc) _ _ (S t) m (E fuel)) as (-> & _ & ->). done.
Qed.

Lemma attempts_stopped idx max_retries n : forall attempt fuel t m,
  atomic_ok m (slot_seq_offset T idx) 4 = true -> Z.land (ld32 m (slot_seq_offset T idx)) 1 <> 0 ->
  0 <= attempt -> attempt + Z.of_nat n = max_retries + 1 -> max_retries + 1 < 2 ^ 32 -> (2 * n < fuel)%nat ->
  trace fuel (quiet rc) (attempts idx max_retries attempt) t m =
    replicate n (Does (ALoad32 acquire (slot_seq_offset T idx))) /\
  exists t', run fuel (quiet rc) (attempts idx max_retries attempt) t m = Value None t' m.
Proof using Type.
  induction n as [|n IH]; intros attempt fuel t m Hok Hodd H0 Hn Hmax Hfuel;
    (destruct fuel as [|fuel]; [lia|]); unfold attempts; cbn [trace run ret_of next_label step].
  - rewrite (proj2 (Z.leb_gt _ _)) by lia. split; [by destruct fuel|]. exists (S t). by destruct fuel.
  - rewrite (proj2 (Z.leb_le _ _)) by lia. destruct fuel as [|fuel]; [lia|].
    cbn [quiet interfere futex_rc option_list option_map app].
    match goal with |- context [trace _ _ ?p _ _] =>
      match p with Bind (Bind ?a ?k1) ?k2 => set (k := fun r => Bind (k1 r) k2); assert (E : p ≡ Bind a k) by apply bind_assoc end end.
    destruct (sim_run (S fuel) (quiet rc) _ _ (S t) m (E _)) as (-> & _ & ->).
    edestruct (read_attempt_stopped k) as [Ht Hr]; [exact Hok|exact Hodd|]. rewrite Ht, Hr. clear Ht Hr E.
    assert (E : k None ≡ attempts idx max_retries (attempt + 1)).
    { subst k. cbn beta iota. rewrite ret_bind. by rewrite u32_small by lia. }
    destruct (sim_run fuel (quiet rc) _ _ (S (S t)) m (E _)) as (-> & _ & ->).
    destruct (IH (attempt + 1) fuel (S (S t)) m) as [-> Hrun]; try done || lia.
Qed.
(** The counter of the attempts is an [unsigned]: with the largest limit it
    wraps around before it exceeds it, and the reader never gives up. *)
Lemma try_read_slot_never_gives_up idx t m x t' m' :
  Z.land (ld32 m (slot_seq_offset T idx)) 1 <> 0 ->
  ~ runs (quiet rc) (CyclicBufferReader.try_read_slot T idx (2 ^ 32 - 1)) t m x t' m'.
Proof using Type.
  intros Hodd. enough (Hgen : forall attempt, 0 <= attempt < 2 ^ 32 ->
    ~ runs (quiet rc) (attempts idx (2 ^ 32 - 1) attempt) t m x t' m') by by apply (Hgen 0).
  intros attempt Ha Hrun.
  remember (t' - t)%nat as d eqn:Ed. revert t attempt Ha Ed Hrun.
  induction d as [d IH] using lt_wf_ind; intros t attempt Ha Ed Hrun.
  apply runs_iter in Hrun. destruct Hrun as (r & t1 & m1 & Hb & Hrun). pose proof (proj1 Hb).
  rewrite (proj2 (Z.leb_le _ _)) in Hb by lia. apply runs_bind in Hb. destruct Hb as (r0 & t2 & m2 & Hb & Hr).
  apply read_attempt_odd in Hb; [|done]. destruct Hb as [-> ->]. runs_inv.
  pose proof (proj1 Hrun). eapply (IH (t' - t2)%nat); [|apply u32_range|done|exact Hrun]; lia.
Qed.
End Stopped.

(** A fresh mapping is an empty ring, whatever will be inserted. *)
Lemma ring_fresh {T : Set} `{FlatType T} {N : Z} {HR : RingConfig T N} (elem : Z -> T) :
  ring_at (N:=N) elem (fun _ => replicate (sizeof T) 0) 0 (fresh (CyclicRegion.total_size T N)).
Proof.
  pose proof (capacity_pos (T:=T) (N:=N)) as HN.
  assert (Hreg : ring_region (T:=T) (N:=N) (fresh (CyclicRegion.total_size T N))).
  { unfold ring_region. rewrite length_fresh, (total_size_ring (T:=T)).
    pose proof (slots_offset_bounds T). pose proof (slot_size_bounds (T:=T)). nia. }
  split; [done|]. split.
  - pose proof (ring_header_ok (T:=T) (N:=N) _ Hreg) as Hh.
    unfold ld64. rewrite rd_fresh by by apply atomic_ok_bounds. reflexivity.
  - intros i Hi. pose proof (ring_slot_ok (T:=T) (N:=N) _ i Hreg Hi) as [Hs Hd _].
    assert (Hv : slot_version (N:=N) i 0 = 0).
    { change 0 with (3 * 0 + 0) at 1. rewrite slot_version_at, slot_count_0 by lia.
      destruct (_ =? i); lia. }
    rewrite Hv. split.
    + unfold ld32. rewrite rd_fresh by by apply atomic_ok_bounds. reflexivity.
    + intros _. by rewrite rd_fresh.
Qed.

(** ** Specification: the last [N] of a growing list *)

Inductive ring_op (T : Set) : Set :=
| OpInsert (d : T)
| OpGetLatest
| OpTryGet (reverse_index : Z)
| OpAvailable
| OpTotalWrites.
Arguments OpInsert {T} d.
Arguments OpGetLatest {T}.
Arguments OpTryGet {T} reverse_index.
Arguments OpAvailable {T}.
Arguments OpTotalWrites {T}.

Inductive ring_out (T : Set) : Set :=
| OutUnit
| OutValue (x : T)
| OutOption (o : option T)
| OutNum (n : Z).
Arguments OutUnit {T}.
Arguments OutValue {T} x.
Arguments OutOption {T} o.
Arguments OutNum {T} n.

(** The implementation of an operation: the class's method. *)
Definition run_op {T : Set} `{FlatType T} (N : Z) (op : ring_op T) : prog (ring_out T) :=
  match op with
  | OpInsert d => CyclicBuffer.insert N d ;;; Ret OutUnit
  | OpGetLatest => x <- CyclicBuffer.get_latest N ;; Ret (OutValue x)
  | OpTryGet r => o <- CyclicBuffer.try_get N r default_retries ;; Ret (OutOption o)
  | OpAvailable => n <- CyclicBuffer.available N ;; Ret (OutNum n)
  | OpTotalWrites => n <- CyclicBuffer.total_writes ;; Ret (OutNum n)
  end.

Fixpoint run_ops {T : Set} `{FlatType T} (N : Z) (ops : list (ring_op T)) : prog (list (ring_out T)) :=
  match ops with
  | [] => Ret []
  | op :: ops => o <- run_op N op ;; os <- run_ops N ops ;; Ret (o :: os)
  end.

(** Its specification on the list of everything inserted, newest first. *)
Definition spec_op {T : Set} `{FlatType T} (N : Z) (log : list T) (op : ring_op T) : ring_out T * list T :=
  let kept := take (Z.to_nat N) log in
  match op with
  | OpInsert d => (OutUnit, d :: log)
  | OpGetLatest => (OutValue (hd value_init log), log)
  | OpTryGet r => (OutOption (kept !! Z.to_nat r), log)
  | OpAvailable => (OutNum (Z.of_nat (length kept)), log)
  | OpTotalWrites => (OutNum (Z.of_nat (length log)), log)
  end.

Fixpoint spec_ops {T : Set} `{FlatType T} (N : Z) (log : list T) (ops : list (ring_op T)) : list (ring_out T) :=
  match ops with
  | [] => []
  | op :: ops => let '(o, log') := spec_op N log op in o :: spec_ops N log' ops
  end.

Definition inserted {T : Set} (ops : list (ring_op T)) : list T :=
  omap (fun op => match op with OpInsert d => Some d | _ => None end) ops.

(** [std::size_t] arguments are not negative. *)
Definition op_ok {T : Set} (op : ring_op T) : Prop :=
  match op with OpTryGet r => 0 <= r | _ => True end.

Section Refinement.
Context {T : Set} `{FlatType T} {N : Z} {HR : RingConfig T N}.

(** The elements by number, given the log (newest first) and what is still
    to be inserted. *)
Definition log_elem (log rest : list T) (j : Z) : T :=
  nth (Z.to_nat j) (rev log ++ rest) value_init.

Lemma log_elem_newest log rest r :
  (r < length log)%nat ->
  log !! r = Some (log_elem log rest (Z.of_nat (length log) - 1 - Z.of_nat r)).
Proof using Type.
  intros Hr. unfold log_elem. rewrite app_nth1 by (rewrite length_rev; lia).
  rewrite rev_nth by lia. rewrite nth_lookup.
  replace (length log - S (Z.to_nat _))%nat with r by lia.
  destruct (lookup_lt_is_Some_2 log r Hr) as [x ->]. done.
Qed.

Lemma log_elem_next log d rest :
  log_elem log (d :: rest) (Z.of_nat (length log)) = d.
Proof using Type.
  unfold log_elem. rewrite app_nth2 by (rewrite length_rev; lia).
  rewrite length_rev, Nat2Z.id, Nat.sub_diag. done.
Qed.

Lemma log_elem_shift log d rest : log_elem (d :: log) rest = log_elem log (d :: rest).
Proof using Type. unfold log_elem. cbn [rev]. by rewrite <- app_assoc. Qed.

Abbreviation at_rest := (fun log rest m =>
  ring_at (N:=N) (log_elem log rest) (fun _ => replicate (sizeof T) 0)
          (3 * Z.of_nat (length log)) m).

Lemma wp_run_op rc t m log op rest Q :
  op_ok op -> Z.of_nat (length log) < 2 ^ 64 ->
  at_rest log (inserted [op] ++ rest) m ->
  (forall t' m' l, at_rest (spec_op N log op).2 rest m' -> Q (spec_op N log op).1 t' m' l) ->
  wp (quiet rc) (run_op N op) t m Q.
Proof using HR.
  intros Hop Hlen Hm HQ. pose proof (capacity_pos (T:=T) (N:=N)) as HN.
  assert (Hw : 0 <= Z.of_nat (length log) < 2 ^ 64) by lia.
  assert (Hkept : Z.of_nat (length (take (Z.to_nat N) log)) = Z.min (Z.of_nat (length log)) N).
  { rewrite length_take. lia. }
  destruct op as [d| |r| |]; simpl in Hop, Hm, HQ |- *; apply wp_bind.
  - eapply equiv_wp; [symmetry; apply combined_insert|].
    rewrite <- (log_elem_next log d rest). eapply wp_insert; [lia|exact Hm|].
    intros t' m' l _ Hm'. apply wp_ret, HQ.
    rewrite log_elem_shift. cbn [length].
    replace (Z.of_nat (S (length log))) with (Z.of_nat (length log) + 1) by lia. done.
  - eapply equiv_wp; [symmetry; apply combined_get_latest|].
    eapply wp_get_latest; [auto with shm|exact Hm|done|]. intros t' l _. apply wp_ret.
    replace (if _ =? 0 then _ else _) with (hd value_init log); [by apply HQ|].
    zcase.
    + destruct log; [done|]. simpl in *. lia.
    + pose proof (log_elem_newest log rest 0 ltac:(lia)) as He. simpl in He.
      rewrite Z.sub_0_r in He. destruct log; [done|]. simpl in He. by injection He.
  - eapply equiv_wp; [symmetry; apply combined_try_get|].
    eapply wp_try_get; [auto with shm|exact Hm|done|done|done|]. intros t' l _. apply wp_ret.
    replace (if r <? _ then _ else _) with (take (Z.to_nat N) log !! Z.to_nat r); [by apply HQ|].
    zcase.
    + rewrite lookup_take_lt by lia. rewrite (log_elem_newest log rest) by lia.
      do 2 f_equal. lia.
    + apply lookup_ge_None. lia.
  - eapply wp_available; [auto with shm|exact Hm|done|]. intros t' l _. apply wp_ret.
    rewrite <- Hkept. by apply HQ.
  - eapply wp_load_total; [auto with shm|exact Hm|done|]. intros l. apply wp_ret. by apply HQ.
Qed.

(** C6: Undisturbed, the cyclic buffer refines the list of everything
    inserted: for every sequence of insert, get_latest, try_get, available and
    total_writes on a fresh region, with any power-of-two capacity and any
    flat type with aligned slots, every method terminates without undefined
    behaviour and answers what the list of the last N elements answers. *)
Theorem ring_refines_list rc t (ops : list (ring_op T)) :
  Forall op_ok ops -> Z.of_nat (length (inserted ops)) < 2 ^ 64 ->
  wp (quiet rc) (run_ops N ops) t (fresh (CyclicRegion.total_size T N))
     (fun outs _ _ _ => outs = spec_ops N [] ops).
Proof using HR.
  intros Hops Hlen.
  assert (Hgen : forall log t m, Z.of_nat (length log + length (inserted ops)) < 2 ^ 64 ->
            at_rest log (inserted ops) m ->
            wp (quiet rc) (run_ops N ops) t m (fun outs _ _ _ => outs = spec_ops N log ops)).
  { clear Hlen t. induction Hops as [|op ops Hop _ IH]; intros log t m Hlen Hm.
    { by apply wp_ret. }
    cbn [run_ops]. apply wp_bind. eapply (wp_run_op _ _ _ log op (inserted ops)); [done|lia| |].
    { destruct op; exact Hm. }
    intros t1 m1 l1 Hm1. apply wp_bind. cbn [spec_ops].
    destruct (spec_op N log op) as [o log'] eqn:Eo. cbn [fst snd] in *.
    eapply wp_conseq; [apply (IH log' t1 m1); [|exact Hm1]|].
    - destruct op; simpl in Eo; injection Eo as <- <-; simpl in *; lia.
    - intros outs t2 m2 l2 ->. by apply wp_ret. }
  apply Hgen; [done|]. apply ring_fresh.
Qed.
End Refinement.

(** The refinement at a concrete ring and sequence of operations, with what
    the list specification answers. *)
Module Witness.
#[local] Instance config : RingConfig uint32 2.
Proof. split; reflexivity. Qed.

Definition ops : list (ring_op uint32) :=
  [OpGetLatest; OpTryGet 0; OpInsert (to_uint 4 10); OpInsert (to_uint 4 11); OpAvailable;
   OpInsert (to_uint 4 12); OpTryGet 1; OpTryGet 2; OpGetLatest; OpAvailable; OpTotalWrites].

Lemma ring_refines_list_witness :
  spec_ops 2 [] ops =
    [OutValue (to_uint 4 0); OutOption None; OutUnit; OutUnit; OutNum 2; OutUnit;
     OutOption (Some (to_uint 4 11)); OutOption None; OutValue (to_uint 4 12);
     OutNum 2; OutNum 3] /\
  wp (quiet (fun _ => (0, 0))) (run_ops 2 ops) 0 (fresh (CyclicRegion.total_size uint32 2))
     (fun outs _ _ _ => outs = spec_ops 2 [] ops).
Proof.
  split; [vm_compute; reflexivity|].
  apply (ring_refines_list (N:=2) (fun _ => (0, 0)) 0%nat ops).
  - repeat constructor; simpl; lia.
  - vm_compute. reflexivity.
Defined.
End Witness.
