(* ===== verification/CyclicConcurrent.v ===== *)
(** * The cyclic buffer read while the writer inserts

    Readers interleaved with a writer session, at the granularity of single
    loads, stores and copied bytes. *)
From S2P Require Import Prelude Memory Prog History FlatType SeqCount Seqlock CyclicBuffer CyclicRing CyclicReaders.

Section Concurrent.
Context {T : Set} `{FlatType T} {N : Z} {HR : RingConfig T N}.

(** The writer inserts [ds] into a fresh region; [l] are the memories on
    the way and [m1] the last one. *)
Definition ring_session (ds : list T) (l : list mem) (m1 : mem) : Prop :=
  exists rc t1, let m0 := fresh (CyclicRegion.total_size T N) in
    runs (quiet rc) (inserts N ds) 0 m0 tt t1 m1 /\
    l = hist t1 (quiet rc) (inserts N ds) 0 m0.

Definition session_elem (ds : list T) (j : Z) : T := nth (Z.to_nat j) ds value_init.
Definition session_init (i : Z) : list Z := replicate (sizeof T) 0.
Abbreviation session_at := (fun ds => ring_at (N:=N) (session_elem ds) session_init).

(** Inserts completed, and inserts begun, at ring version [g]. *)
Definition done_at (g : Z) : Z := g / 3.
Definition begun_at (g : Z) : Z := (g + 2) / 3.

Lemma wp_ring_session rc ds t :
  wp (quiet rc) (inserts N ds) t (fresh (CyclicRegion.total_size T N)) (fun _ _ m' l =>
    versioned (session_at ds) 0 l (3 * Z.of_nat (length ds)) /\ session_at ds (3 * Z.of_nat (length ds)) m').
Proof using HR.
  apply (wp_inserts (session_elem ds) session_init) with 0; [lia|apply ring_fresh| |].
  - intros i d Hi. unfold session_elem. rewrite Z.add_0_l, Nat2Z.id, nth_lookup. by rewrite Hi.
  - by intros t' m' l.
Qed.

Lemma ring_session_versions ds l m1 :
  ring_session ds l m1 ->
  exists g : nat -> Z,
    (forall i, 0 <= g i <= 3 * Z.of_nat (length ds)) /\
    (forall i j, (i <= j)%nat -> g i <= g j) /\
    (forall i, session_at ds (g i) (at_time l m1 i)) /\
    (forall i, (length l <= i)%nat -> g i = 3 * Z.of_nat (length ds)).
Proof using HR.
  intros (rc & t1 & Hrun & ->). pose proof (wp_ring_session rc ds 0%nat) as Hwp.
  apply (wp_runs _ _ _ _ _ _ _ _ Hwp) in Hrun. destruct Hrun as [Hl Hm1].
  rewrite Nat.sub_0_r in Hl. exact (versioned_times _ _ _ _ _ Hl Hm1).
Qed.

(** Within one lap of the writer the element is exactly the one asked for. *)
Lemma within_lap w r j b :
  w - 1 - r <= j < b -> j mod N = (w - 1 - r) mod N -> b <= w - 1 - r + N -> j = w - 1 - r.
Proof using HR.
  intros Hj Hmod Hb. pose proof (capacity_pos (T:=T) (N:=N)) as HN.
  pose proof (Z.div_mod j N ltac:(lia)). pose proof (Z.div_mod (w - 1 - r) N ltac:(lia)).
  assert (j / N = (w - 1 - r) / N) by nia. nia.
Qed.

(** The attempt that made a loop succeed. *)
Lemma try_read_slot_last e idx retries t m x t' m' :
  runs e (CyclicBufferReader.try_read_slot T idx retries) t m (Some x) t' m' ->
  exists s ms bs, (t <= s)%nat /\ x = of_bytes bs /\
    runs e (read_attempt (slot_seq_offset T idx) (slot_data_offset T idx) (sizeof T)) s ms (Some bs) t' m'.
Proof using Type.
  unfold CyclicBufferReader.try_read_slot, CyclicBufferReader.slot_seq, CyclicBufferReader.slot_data. generalize 0 at 1 as a.
  remember (t' - t)%nat as d eqn:Ed. revert t m Ed.
  induction d as [d IH] using lt_wf_ind; intros t m Ed a Hrun.
  apply runs_iter in Hrun. destruct Hrun as (r & t1 & m2 & Hb & Hrun).
  destruct (a <=? retries) eqn:E.
  - apply runs_bind in Hb. destruct Hb as (o & t2 & m3 & Ha & Hb).
    apply runs_ret in Hb. destruct Hb as (-> & -> & ->). pose proof (proj1 Ha).
    destruct o as [bs|].
    + destruct Hrun as (Hx & -> & ->). injection Hx as ->.
      exists (S t), (interfere e t m), bs. split; [lia|done].
    + pose proof (proj1 Hrun).
      destruct (IH (t' - t2)%nat ltac:(lia) t2 m3 eq_refl _ Hrun) as (s & ms & bs & Hs & ?).
      exists s, ms, bs. split; [lia|done].
  - apply runs_ret in Hb. destruct Hb as (-> & -> & ->). by destruct Hrun.
Qed.

(** The slot of the [r]-th newest of [w] elements, at a later ring version at
    which no write of it is in progress, holds that element or a later one. *)
Lemma slot_elem_current ds w r g0 g :
  0 <= r < N -> r < w -> w = done_at g0 -> 0 <= g0 <= g /\ g <= 3 * Z.of_nat (length ds) ->
  let i := (w - 1 - r) mod N in
  let k := slot_version (N:=N) i g / 2 in
  slot_version (N:=N) i g = 2 * k ->
  exists j, ds !! Z.to_nat j = Some (of_bytes (slot_val (N:=N) (session_elem ds) session_init i k)) /\
            w - 1 - r <= j < begun_at g /\ j mod N = (w - 1 - r) mod N.
Proof using HR.
  intros Hr Hrw Hw Hg i k Hk. pose proof (capacity_pos (T:=T) (N:=N)) as HN.
  pose proof (Z.mod_pos_bound (w - 1 - r) N HN) as Hi. fold i in Hi.
  (* at least as many elements in the slot as when [w] was read *)
  assert (Hkw : slot_count N i w <= k).
  { pose proof (slot_version_mono (T:=T) i g0 g Hi ltac:(lia)) as [Hv _].
    assert (2 * slot_count N i w <= slot_version (N:=N) i g0).
    { unfold slot_version. rewrite Hw. unfold done_at.
      pose proof (Z.mod_pos_bound g0 3 ltac:(lia)). destruct (_ =? i); lia. }
    lia. }
  pose proof (slot_count_pos N HN w r Hr Hrw) as Hpos. fold i in Hpos.
  pose proof (slot_elem_newest N HN w r Hr Hrw) as Hnew. fold i in Hnew.
  pose proof (slot_version_elem_lt (T:=T) i g Hi ltac:(lia)) as Hlt. fold k in Hlt.
  assert (Hlow : w - 1 - r <= slot_elem N i k) by (unfold slot_elem in *; nia).
  assert (Hlast : begun_at g <= Z.of_nat (length ds)).
  { unfold begun_at. replace (Z.of_nat (length ds)) with ((Z.of_nat (length ds) * 3 + 2) / 3).
    - apply Z.div_le_mono; lia.
    - rewrite Z.add_comm, Z.div_add, Z.div_small by lia. lia. }
  exists (slot_elem N i k). split; [|split; [unfold begun_at; lia|by apply slot_elem_mod]].
  unfold slot_val. rewrite (proj2 (Z.leb_gt _ _)) by lia. rewrite of_to_bytes.
  unfold session_elem. rewrite nth_lookup. unfold begun_at in *.
  destruct (lookup_lt_is_Some_2 ds (Z.to_nat (slot_elem N i k))) as [x ->]; [lia|done].
Qed.

Context (ds : list T) (l : list mem) (m1 : mem) (g : nat -> Z).
Context (Hlen : Z.of_nat (length ds) < 2 ^ 30).
Context (Hrange : forall i, 0 <= g i <= 3 * Z.of_nat (length ds)).
Context (Hmono : forall i j, (i <= j)%nat -> g i <= g j).
Context (Hat : forall i, session_at ds (g i) (at_time l m1 i)).
Context (sched : nat -> nat) (Hsched : schedule sched) (rc : nat -> Z * Z).
Abbreviation env := (reader_env l m1 sched rc).
Abbreviation gs t := (g (sched t)).

Lemma session_load_total t m w t' m' :
  runs env (load64 acquire 0) t m w t' m' ->
  w = done_at (gs t) /\ t' = S t /\ m' = at_time l m1 (sched t).
Proof using HR Hat Hlen Hrange.
  intros Hr. apply runs_act in Hr. destruct Hr as [Hr ->]. simpl in Hr.
  destruct (Hat (sched t)) as (Hreg & Htw & _).
  rewrite (ring_header_ok (T:=T) (N:=N)) in Hr by done. injection Hr as <- <-.
  rewrite Htw, u64_small; [done|].
  pose proof (Hrange (sched t)). pose proof (Z.div_pos (gs t) 3).
  assert (gs t / 3 <= Z.of_nat (length ds)) by (apply Z.div_le_upper_bound; lia). lia.
Qed.

(** A successful attempt on a slot returns an element of that slot, as new
    as the slot was when the attempt began. *)
Lemma session_slot_read i t m bs t' m' :
  0 <= i < N ->
  runs env (read_attempt (slot_seq_offset T i) (slot_data_offset T i) (sizeof T)) t m (Some bs) t' m' ->
  let k := slot_version (N:=N) i (gs t) / 2 in
  slot_version (N:=N) i (gs t) = 2 * k /\ bs = slot_val (N:=N) (session_elem ds) session_init i k.
Proof using HR Hat Hlen Hmono Hrange Hsched.
  intros Hi Hr k.
  assert (Hrely : slot_rely (slot_seq_offset T i) (slot_data_offset T i) (sizeof T)
            (slot_val (N:=N) (session_elem ds) session_init i)
            (fun t => at_time l m1 (sched t)) (fun t => slot_version (N:=N) i (gs t))).
  { split.
    - intros s. by apply (Hat (sched s)).
    - intros s. apply (ring_slot_ok (T:=T) (N:=N)); [apply (Hat (sched s))|done].
    - intros s s' Hs. apply (slot_version_mono (T:=T)); [done|].
      pose proof (Hrange (sched s)). split; [lia|]. by apply Hmono, Hsched. }
  pose proof (proj1 Hr) as Hle.
  destruct (read_attempt_sound _ _ _ _ _ _ _ _ _ _ _ _ Hrely Hr) as (_ & Hev & Hbs & _).
  - pose proof (Hrange (sched t)). pose proof (Hrange (sched t')).
    pose proof (slot_version_mono (T:=T) i (gs t) (gs t') Hi
                  ltac:(split; [lia|by apply Hmono, Hsched])). lia.
  - unfold slot_val. destruct (_ <=? 0); [apply length_replicate|apply length_to_bytes].
  - split; [|done]. unfold k.
    pose proof (Z.div_mod (slot_version (N:=N) i (g (sched t))) 2 ltac:(lia)). lia.
Qed.

(** A read of the slot of the [r]-th newest of [w] elements, begun no
    earlier than [w] was read. *)
Lemma session_read_newest w r t0 t m bs t' m' :
  0 <= r < N -> r < w -> w = done_at (gs t0) -> (t0 <= t)%nat ->
  runs env (read_attempt (slot_seq_offset T ((w - 1 - r) mod N)) (slot_data_offset T ((w - 1 - r) mod N)) (sizeof T))
       t m (Some bs) t' m' ->
  exists j, ds !! Z.to_nat j = Some (of_bytes bs) /\
            w - 1 - r <= j < begun_at (gs t') /\ j mod N = (w - 1 - r) mod N.
Proof using HR Hat Hlen Hmono Hrange Hsched.
  intros Hr Hrw Hw Ht Hrun. pose proof (capacity_pos (T:=T) (N:=N)) as HN.
  pose proof (Z.mod_pos_bound (w - 1 - r) N HN) as Hi.
  pose proof (proj1 Hrun) as Hle. apply session_slot_read in Hrun; [|done]. cbv zeta in Hrun. destruct Hrun as [Hk ->].
  pose proof (Hrange (sched t0)). pose proof (Hrange (sched t)).
  pose proof (Hmono _ _ (Hsched _ _ Ht)) as Hg. pose proof (Hmono _ _ (Hsched _ _ Hle)) as Hg'.
  destruct (slot_elem_current ds w r (gs t0) (gs t)) as (j & Hj & Hb & Hmod); [lia|lia|done|lia|done|].
  exists j. split; [done|]. split; [|done]. split; [lia|]. eapply Z.lt_le_trans; [apply Hb|].
  apply Z.div_le_mono; lia.
Qed.
End Concurrent.

(** ** Properties *)
Section Properties.
Context {T : Set} `{FlatType T} {N : Z} {HR : RingConfig T N}.

(** C5: While the writer inserts, try_get(r) on a cyclic buffer returns, when
    it returns a value, a whole inserted element of the slot asked for, never
    older than the r-th newest at the moment total_writes was read, and
    exactly that element unless the writer has begun to lap the slot before
    the call ends. *)
Theorem try_get_concurrent (ds : list T) (l : list mem) (m1 : mem) :
  ring_session (N:=N) ds l m1 -> Z.of_nat (length ds) < 2 ^ 30 ->
  exists completed begun : nat -> Z,
    (forall i, ld64 (at_time l m1 i) 0 = completed i /\ completed i <= begun i <= completed i + 1) /\
    (forall i j, (i <= j)%nat -> completed i <= completed j /\ begun i <= begun j) /\
    forall sched rc r retries t m x t' m',
      schedule sched -> 0 <= r ->
      runs (reader_env l m1 sched rc) (CyclicBufferReader.try_get T N r retries) t m (Some x) t' m' ->
      let newest := completed (sched t) - 1 - r in
      r < Z.min (completed (sched t)) N /\
      exists j, ds !! Z.to_nat j = Some x /\
                newest <= j < begun (sched t') /\ j mod N = newest mod N /\
                (begun (sched t') <= newest + N -> j = newest).
Proof using HR.
  intros Hs Hlen. destruct (ring_session_versions _ _ _ Hs) as (g & Hrange & Hmono & Hat & _).
  exists (fun i => done_at (g i)), (fun i => begun_at (g i)).
  split.
  { intros i. split.
    - destruct (Hat i) as (_ & -> & _). apply u64_small. pose proof (Hrange i).
      split; [apply Z.div_pos; lia|]. apply Z.div_lt_upper_bound; lia.
    - unfold done_at, begun_at. split; [apply Z.div_le_mono; lia|].
      rewrite <- Z.div_add by lia. apply Z.div_le_mono; lia. }
  split.
  { intros i j Hij. specialize (Hmono i j Hij). unfold done_at, begun_at.
    split; apply Z.div_le_mono; lia. }
  intros sched rc r retries t m x t' m' Hsched Hr Hrun newest.
  unfold CyclicBufferReader.try_get, CyclicBufferReader.total_writes_ref in Hrun.
  apply runs_bind in Hrun. destruct Hrun as (w & t1 & m2 & Hw & Hrun).
  apply (session_load_total ds l m1 g) in Hw; [|done..]. destruct Hw as (-> & -> & ->).
  set (w := done_at (g (sched t))) in *.
  destruct (r >=? Z.min w N) eqn:E; [by apply runs_ret in Hrun as (? & _)|]. zbool.
  split; [done|].
  assert (Hw64 : u64 w = w).
  { apply u64_small. unfold w, done_at. pose proof (Hrange (sched t)).
    split; [apply Z.div_pos; lia|]. apply Z.div_lt_upper_bound; lia. }
  rewrite <- Hw64, (reverse_slot (T:=T)) in Hrun.
  apply try_read_slot_last in Hrun. destruct Hrun as (s & ms & bs & Hst & -> & Hrun).
  destruct (session_read_newest ds l m1 g Hlen Hrange Hmono Hat sched Hsched rc w r t s ms bs t' m')
    as (j & Hj & Hb & Hmod); [lia|lia|done|lia|done|].
  exists j. repeat split; try done; try lia.
  intros Hlap. eapply (within_lap (T:=T) (N:=N)); done.
Qed.
End Properties.

(** Three inserts into a ring of two, and a reader that starts after them:
    the hypotheses of [try_get_concurrent] at concrete values. *)
Module Witness.
#[local] Instance config : RingConfig uint32 2.
Proof. split; reflexivity. Qed.

Definition ds : list uint32 := [to_uint 4 10; to_uint 4 11; to_uint 4 12].
Definition rc (t : nat) : Z * Z := (0, 0).
Definition m0 : mem := fresh (CyclicRegion.total_size uint32 2).
Definition final : mem := Eval vm_compute in
  match run 100 (quiet rc) (inserts 2 ds) 0 m0 with Value _ _ m => m | _ => [] end.
Definition steps : nat := Eval vm_compute in
  match run 100 (quiet rc) (inserts 2 ds) 0 m0 with Value _ t _ => t | _ => O end.
Definition l : list mem := Eval vm_compute in hist steps (quiet rc) (inserts 2 ds) 0 m0.

Lemma session_holds : ring_session (N:=2) ds l final.
Proof. exists rc, steps. split; [apply run_runs with 100%nat|]; vm_compute; reflexivity. Qed.

(** The reader's third step falls after the whole session. *)
Definition sched (t : nat) : nat := (t * 100)%nat.
Definition reader_end : nat := Eval vm_compute in
  match run 100 (reader_env l final sched rc) (CyclicBufferReader.try_get uint32 2 1 4) 1 [] with
  | Value _ t _ => t | _ => O end.

Lemma try_get_concurrent_witness :
  exists completed : nat -> Z, exists j : Z,
    completed (sched 1) = 3 /\ ds !! Z.to_nat j = Some (to_uint 4 11) /\
    completed (sched 1) - 1 - 1 <= j.
Proof.
  destruct (try_get_concurrent (N:=2) ds l final session_holds ltac:(vm_compute; reflexivity))
    as (completed & begun & Hld & _ & Hread).
  assert (Hrun : runs (reader_env l final sched rc) (CyclicBufferReader.try_get uint32 2 1 4)
                   1 [] (Some (to_uint 4 11)) reader_end final).
  { apply run_runs with 100%nat. vm_compute. reflexivity. }
  destruct (Hread sched rc 1 4 1%nat [] _ _ _ ltac:(intros s t Hst; unfold sched; lia)
              ltac:(lia) Hrun) as (_ & j & Hj & Hle & _).
  exists completed, j. split; [|split; [exact Hj|lia]].
  destruct (Hld (sched 1)) as [<- _]. vm_compute. reflexivity.
Defined.
End Witness.
