(* ===== verification/Stamped.v ===== *)
(** * Stamped values and the monotonic clock

    [stamped.hpp]: the metadata envelope [Stamped<T>], itself a flat type,
    and the conversion of [CLOCK_MONOTONIC] to 64-bit nanoseconds.
    [clock_gettime] is the system's; its answer is an argument. *)
From S2P Require Import Prelude Memory Prog FlatType Seqlock.

Record Stamped (T : Set) := MkStamped {
  timestamp_ns : uint64;   (* CLOCK_MONOTONIC nanoseconds *)
  sequence : uint64;       (* writer-assigned monotonic counter *)
  data : T
}.
Arguments MkStamped {T} _ _ _.
Arguments timestamp_ns {T} _.
Arguments sequence {T} _.
Arguments data {T} _.

(** ** The struct's layout: standard layout, members in order *)

Definition stamped_data_offset (T : Set) `{FlatType T} : Z := align_up 16 (alignof T).
Definition stamped_align_log (T : Set) `{FlatType T} : nat := Nat.max 3 (align_log T).
Definition stamped_size (T : Set) `{FlatType T} : Z :=
  align_up (stamped_data_offset T + Z.of_nat (sizeof T)) (2 ^ Z.of_nat (stamped_align_log T)).

Section Layout.
Context (T : Set) `{FlatType T}.

Definition stamped_pad : nat := Z.to_nat (stamped_data_offset T - 16).
Definition stamped_tail : nat :=
  Z.to_nat (stamped_size T - stamped_data_offset T - Z.of_nat (sizeof T)).

Definition stamped_to_bytes (s : Stamped T) : list Z :=
  le_bytes 8 (uint_val (timestamp_ns s)) ++ le_bytes 8 (uint_val (sequence s)) ++
  replicate stamped_pad 0 ++ to_bytes (data s) ++ replicate stamped_tail 0.

Definition stamped_of_bytes (bs : list Z) : Stamped T :=
  MkStamped (to_uint 8 (le_val (take 8 bs)))
            (to_uint 8 (le_val (take 8 (drop 8 bs))))
            (of_bytes (take (sizeof T) (drop (Z.to_nat (stamped_data_offset T)) bs))).

Context (Hsz : Z.of_nat (sizeof T) < 2 ^ 61).

Lemma stamped_offset_bounds : 16 <= stamped_data_offset T <= 16 + 4095.
Proof using Type.
  pose proof (alignof_bounds (T:=T)). pose proof (align_up_T (T:=T) 16 ltac:(lia)).
  unfold stamped_data_offset. lia.
Qed.

Lemma stamped_size_bounds :
  stamped_data_offset T + Z.of_nat (sizeof T) <= stamped_size T
    < stamped_data_offset T + Z.of_nat (sizeof T) + 4096 + 1 /\
  stamped_size T mod 2 ^ Z.of_nat (stamped_align_log T) = 0.
Proof using Hsz.
  pose proof stamped_offset_bounds. pose proof (align_small (T:=T)).
  assert (1 <= 2 ^ Z.of_nat (stamped_align_log T) <= 2 ^ 12).
  { unfold stamped_align_log. split.
    - change 1 with (2 ^ 0). apply Z.pow_le_mono_r; lia.
    - apply Z.pow_le_mono_r; lia. }
  unfold stamped_size. pose proof (align_up_spec (Z.of_nat (stamped_align_log T))
    (stamped_data_offset T + Z.of_nat (sizeof T))) as Ha.
  unfold stamped_align_log in *. specialize (Ha ltac:(lia) ltac:(lia) ltac:(lia)). lia.
Qed.

Lemma length_stamped_to_bytes s : length (stamped_to_bytes s) = Z.to_nat (stamped_size T).
Proof using Hsz.
  unfold stamped_to_bytes, stamped_pad, stamped_tail.
  rewrite !length_app, !length_le_bytes, !length_replicate, length_to_bytes.
  pose proof stamped_offset_bounds. pose proof stamped_size_bounds. lia.
Qed.

Lemma stamped_of_to_bytes s : stamped_of_bytes (stamped_to_bytes s) = s.
Proof using Hsz.
  destruct s as [ts sq d]. pose proof stamped_offset_bounds.
  unfold stamped_of_bytes, stamped_to_bytes. f_equal.
  - rewrite take_app_length' by (by rewrite length_le_bytes). apply to_uint_le_bytes.
  - rewrite drop_app_length' by (by rewrite length_le_bytes).
    rewrite take_app_length' by (by rewrite length_le_bytes). apply to_uint_le_bytes.
  - rewrite !app_assoc, <- (app_assoc _ (to_bytes _)).
    rewrite drop_app_length', take_app_length'; [apply of_to_bytes|by rewrite length_to_bytes|].
    unfold stamped_pad. rewrite !length_app, !length_le_bytes, length_replicate. lia.
Qed.
End Layout.

(** [static_assert(FlatType<Stamped<...>>)]: stamped values nest in every
    container. *)
#[export] Program Instance stamped_flat (T : Set) `{FlatType T}
    (Hsz : TCEq (Z.of_nat (sizeof T) <? 2 ^ 61) true) : FlatType (Stamped T) := {|
  sizeof := Z.to_nat (stamped_size T);
  align_log := stamped_align_log T;
  to_bytes := stamped_to_bytes T;
  of_bytes := stamped_of_bytes T;
  value_init := MkStamped (to_uint 8 0) (to_uint 8 0) value_init;
|}.
Next Obligation. intros. apply TCEq_eq in Hsz. zbool. by apply length_stamped_to_bytes. Qed.
Next Obligation. intros. apply TCEq_eq in Hsz. zbool. by apply stamped_of_to_bytes. Qed.
Next Obligation.
  intros. apply TCEq_eq in Hsz. zbool. pose proof (stamped_offset_bounds T).
  pose proof (stamped_size_bounds T Hsz). simpl. lia.
Qed.
Next Obligation.
  intros. apply TCEq_eq in Hsz. zbool. pose proof (stamped_offset_bounds T).
  pose proof (stamped_size_bounds T Hsz). simpl. lia.
Qed.
Next Obligation. intros. pose proof (align_small (T:=T)). unfold stamped_align_log. lia. Qed.
Next Obligation.
  intros. apply TCEq_eq in Hsz. zbool. pose proof (stamped_offset_bounds T).
  pose proof (stamped_size_bounds T Hsz) as [? Hm]. rewrite Z2Nat.id by lia. done.
Qed.

#[export] Instance stamped_uint64_flat : FlatType (Stamped uint64) := stamped_flat uint64 (TCEq_refl _).

(** ** The clock *)

(** [static_cast<uint64_t>(tv_sec) * 1'000'000'000ULL + static_cast<uint64_t>(tv_nsec)] *)
Definition monotonic_now_ns (ts : timespec) : Z :=
  u64 (u64 (u64 (tv_sec ts) * 1000000000) + u64 (tv_nsec ts)).

Definition stamp {T : Set} (now : timespec) (d : T) (seq : uint64) : Stamped T :=
  MkStamped (to_uint 8 (monotonic_now_ns now)) seq d.

(** What [clock_gettime] answers: a normalised, non-negative time. *)
Definition timespec_ok (ts : timespec) : Prop := 0 <= tv_sec ts /\ 0 <= tv_nsec ts < 1000000000.

(** Up to 584 years after boot the nanoseconds are exact. *)
Lemma monotonic_now_exact ts :
  timespec_ok ts -> tv_sec ts * 1000000000 + tv_nsec ts < 2 ^ 64 ->
  monotonic_now_ns ts = tv_sec ts * 1000000000 + tv_nsec ts.
Proof.
  intros [Hs Hn] Hlt. unfold monotonic_now_ns. rewrite (u64_small (tv_sec ts)) by lia.
  rewrite (u64_small (_ * _)), (u64_small (tv_nsec ts)), u64_small by lia. done.
Qed.

(** A monotonic clock reading converted to 64-bit nanoseconds and back to
    the timespec of a futex timeout is the same reading. *)
Theorem timespec_roundtrip (ts : timespec) :
  timespec_ok ts -> tv_sec ts * 1000000000 + tv_nsec ts < 2 ^ 64 ->
  to_timespec (Some (monotonic_now_ns ts)) = Some ts.
Proof.
  intros Hok Hlt. rewrite monotonic_now_exact by done. destruct Hok as [Hs Hn].
  unfold to_timespec. rewrite Z.add_comm, Z.div_add, Z.mod_add by lia.
  rewrite Z.div_small, Z.mod_small by lia. by destruct ts.
Qed.

Lemma timespec_roundtrip_witness :
  to_timespec (Some (monotonic_now_ns (Timespec 5 250))) = Some (Timespec 5 250).
Proof. apply timespec_roundtrip; [split; simpl; lia|simpl; lia]. Defined.
