(* ===== verification/Float.v ===== *)
(** * Binary floating point

    [float] and [double] are IEEE 754 binary32 and binary64; their
    operations are the Standard Library's [SpecFloat].  The facts the
    components need: conversion of an unsigned 64-bit integer is monotone,
    and the quotient of two ordered ones lies between zero and one. *)
From S2P Require Import Prelude FlatType.
From Stdlib Require Export Floats.SpecFloat.

(** [static_cast<double>(uint64_t)] and [double / double]. *)
Definition f64_of_uint (z : Z) : spec_float := binary_normalize 53 1024 z 0 false.
Definition f64_div (x y : spec_float) : spec_float := SFdiv 53 1024 x y.
Definition f64_zero : spec_float := S754_zero false.
Definition f64_one : spec_float := S754_finite false (2 ^ 52) (-52).

Example f64_half : f64_div (f64_of_uint 1) (f64_of_uint 2) = S754_finite false (2 ^ 52) (-53).
Proof. vm_compute. reflexivity. Qed.

(** ** Floating-point members, as their bits *)

(** The interchange format with [mw] fraction bits and [ew] exponent bits. *)
Definition float_bits (mw ew : Z) (x : spec_float) : Z :=
  let emin := 2 - 2 ^ (ew - 1) - mw in
  let sign (s : bool) := if s then 2 ^ (mw + ew) else 0 in
  match x with
  | S754_zero s => sign s
  | S754_infinity s => sign s + (2 ^ ew - 1) * 2 ^ mw
  | S754_nan => (2 ^ ew - 1) * 2 ^ mw + 2 ^ (mw - 1)
  | S754_finite s m e =>
      sign s + (if Z.pos m <? 2 ^ mw then Z.pos m else (e - emin + 1) * 2 ^ mw + (Z.pos m - 2 ^ mw))
  end.

Definition f64_bits (x : spec_float) : uint64 := to_uint 8 (float_bits 52 11 x).
Definition f32_bits (x : spec_float) : uint32 := to_uint 4 (float_bits 23 8 x).

(** Literals [p / q] and integers, rounded to nearest. *)
Definition f64_lit (p q : Z) : spec_float := f64_div (f64_of_uint p) (f64_of_uint q).
Definition f64_add (x y : spec_float) : spec_float := SFadd 53 1024 x y.
Definition f64_mul (x y : spec_float) : spec_float := SFmul 53 1024 x y.
Definition f32_of_uint (z : Z) : spec_float := binary_normalize 24 128 z 0 false.
Definition f32_lit (p q : Z) : spec_float := SFdiv 24 128 (f32_of_uint p) (f32_of_uint q).
Definition f32_mul (x y : spec_float) : spec_float := SFmul 24 128 x y.

Example bits_of_doubles :
  uint_val (f64_bits (f64_of_uint 1)) = 0x3FF0000000000000 /\
  uint_val (f64_bits (f64_lit 1 10)) = 0x3FB999999999999A /\
  uint_val (f64_bits (f64_lit 101325 100)) = 0x408FAA0000000000.
Proof. vm_compute. done. Qed.

Example bits_of_floats :
  uint_val (f32_bits (f32_lit 1 100)) = 0x3C23D70A /\ uint_val (f32_bits (SFopp (f32_lit 981 100))) = 0xC11CF5C3.
Proof. vm_compute. done. Qed.

(** ** Shifting right with a round and a sticky bit *)

Lemma iter_pos_nat {A} (f : A -> A) p x : iter_pos f p x = Nat.iter (Pos.to_nat p) f x.
Proof.
  revert x; induction p as [p IH|p IH|]; intros x; simpl iter_pos.
  - rewrite !IH, Pos2Nat.inj_xI, <- Nat.iter_add, Nat.iter_swap. simpl. do 2 f_equal. lia.
  - rewrite !IH, Pos2Nat.inj_xO, <- Nat.iter_add. f_equal. lia.
  - done.
Qed.

(** One bit: what is dropped moves into the round bit, the old round bit
    into the sticky bit. *)
Lemma shr_1_spec m r s : 0 <= m -> shr_1 (Build_shr_record m r s) = Build_shr_record (m / 2) (Z.odd m) (r || s).
Proof.
  intros Hm. destruct m as [|[p|p|]|]; try done; try lia; simpl shr_1; simpl Z.odd; f_equal.
  - apply (Z.div_unique _ _ _ 1); lia.
  - apply (Z.div_unique _ _ _ 0); lia.
Qed.

(** Where [x / 2^n] lies between its integer part and the next integer. *)
Definition loc_of (x : Z) (n : nat) : location :=
  let r := x mod 2 ^ Z.of_nat n in
  if r =? 0 then loc_Exact else loc_Inexact (2 * r ?= 2 ^ Z.of_nat n).

Lemma loc_of_bits x n :
  loc_of x (S n) =
  loc_of_shr_record (Build_shr_record 0 (Z.odd (x / 2 ^ Z.of_nat n)) (negb (x mod 2 ^ Z.of_nat n =? 0))).
Proof.
  unfold loc_of. replace (Z.of_nat (S n)) with (Z.of_nat n + 1) by lia.
  rewrite Z.pow_add_r by lia. change (2 ^ 1) with 2.
  assert (Hp : 0 < 2 ^ Z.of_nat n) by (apply Z.pow_pos_nonneg; lia).
  rewrite Z.rem_mul_r by lia. set (p := 2 ^ Z.of_nat n) in *.
  pose proof (Z.mod_pos_bound x p Hp) as Hr. rewrite Zmod_odd.
  destruct (Z.odd (x / p)); destruct (x mod p =? 0) eqn:E; zbool; cbn [negb loc_of_shr_record].
  - rewrite E, (proj2 (Z.eqb_neq _ _)) by lia. f_equal. apply Z.compare_eq_iff. lia.
  - rewrite (proj2 (Z.eqb_neq _ _)) by lia. f_equal. apply Z.compare_gt_iff. lia.
  - by rewrite E, Z.mul_0_r.
  - rewrite (proj2 (Z.eqb_neq _ _)) by lia. f_equal. apply Z.compare_lt_iff. lia.
Qed.

Lemma shr_iter x n :
  0 <= x ->
  Nat.iter (S n) shr_1 (Build_shr_record x false false) =
  Build_shr_record (x / 2 ^ Z.of_nat (S n)) (Z.odd (x / 2 ^ Z.of_nat n)) (negb (x mod 2 ^ Z.of_nat n =? 0)).
Proof.
  intros Hx. induction n as [|n IH].
  { change (shr_1 (Build_shr_record x false false) = Build_shr_record (x / 2) (Z.odd (x / 1)) (negb (x mod 1 =? 0))). rewrite shr_1_spec by done. rewrite Z.div_1_r, Z.mod_1_r. done. }
  rewrite Nat.iter_succ, IH, shr_1_spec.
  2:{ apply Z.div_pos; [done|]. apply Z.pow_pos_nonneg; lia. }
  assert (Hp : 0 < 2 ^ Z.of_nat n) by (apply Z.pow_pos_nonneg; lia).
  replace (2 ^ Z.of_nat (S (S n))) with (2 ^ Z.of_nat (S n) * 2)
    by (rewrite (Nat2Z.inj_succ (S n)), Z.pow_succ_r by lia; lia).
  rewrite <- Z.div_div by lia. f_equal.
  rewrite (Nat2Z.inj_succ n), Z.pow_succ_r, Z.mul_comm, Z.rem_mul_r by lia.
  pose proof (Z.mod_pos_bound x _ Hp). rewrite Zmod_odd.
  set (r := x mod 2 ^ Z.of_nat n) in *.
  destruct (Z.odd (x / _)); destruct (r =? 0) eqn:E; simpl; symmetry;
    try apply negb_true_iff; try apply negb_false_iff; zbool; lia.
Qed.

(** The shift used by the rounding, for a non-negative distance. *)
Lemma shr_exact x e n :
  0 <= x -> 0 <= n ->
  let '(mrs, e') := shr (Build_shr_record x false false) e n in
  shr_m mrs = x / 2 ^ n /\ loc_of_shr_record mrs = loc_of x (Z.to_nat n) /\ e' = e + n.
Proof.
  intros Hx Hn. destruct n as [|p|]; [| |lia].
  { simpl. rewrite Z.div_1_r. unfold loc_of. simpl. rewrite Z.mod_1_r. split; [done|]. split; [done|lia]. }
  cbn [shr]. rewrite iter_pos_nat. change (Z.to_nat (Z.pos p)) with (Pos.to_nat p).
  destruct (Pos.to_nat p) as [|n] eqn:Ep; [lia|].
  rewrite shr_iter, loc_of_bits by done. replace (Z.of_nat (S n)) with (Z.pos p) by lia. done.
Qed.

Lemma shr_m_iter m r s n :
  0 <= m -> shr_m (Nat.iter n shr_1 (Build_shr_record m r s)) = m / 2 ^ Z.of_nat n /\
            0 <= shr_m (Nat.iter n shr_1 (Build_shr_record m r s)).
Proof.
  intros Hm. induction n as [|n [IH H0]]; [simpl; rewrite Z.div_1_r; done|].
  rewrite Nat.iter_succ. destruct (Nat.iter n _ _) as [m' r' s']. simpl in IH, H0. subst m'.
  rewrite shr_1_spec by done. cbn [shr_m].
  assert (0 < 2 ^ Z.of_nat n) by (apply Z.pow_pos_nonneg; lia).
  rewrite Z.div_div, (Z.mul_comm _ 2), <- Z.pow_succ_r, <- Nat2Z.inj_succ by lia.
  split; [done|]. apply Z.div_pos; [done|]. apply Z.pow_pos_nonneg; lia.
Qed.

Lemma shr_any mrs e n :
  0 <= shr_m mrs -> 0 <= n ->
  shr_m (shr mrs e n).1 = shr_m mrs / 2 ^ n /\ (shr mrs e n).2 = e + n.
Proof.
  intros Hm Hn. destruct mrs as [m r s], n as [|p|]; [| |lia].
  { simpl. rewrite Z.div_1_r. split; [done|lia]. }
  cbn [shr fst snd]. rewrite iter_pos_nat. split; [|done].
  rewrite (proj1 (shr_m_iter m r s _ Hm)). cbn [shr_m]. do 2 f_equal. lia.
Qed.

(** ** Digits *)

Lemma digits2_pos_bounds p :
  2 ^ (Z.pos (digits2_pos p) - 1) <= Z.pos p < 2 ^ Z.pos (digits2_pos p).
Proof.
  induction p as [p IH|p IH|]; simpl digits2_pos; [| |done];
    rewrite Pos2Z.inj_succ; set (d := Z.pos (digits2_pos p)) in *;
    assert (Hd : 1 <= d) by (unfold d; lia);
    assert (E : 2 ^ d = 2 * 2 ^ (d - 1)) by (rewrite <- Z.pow_succ_r by lia; f_equal; lia);
    replace (Z.succ d - 1) with d by lia; rewrite Z.pow_succ_r by lia; lia.
Qed.

Lemma Zdigits2_unique m d : 0 <= d -> 2 ^ d <= m < 2 ^ (d + 1) -> Zdigits2 m = d + 1.
Proof.
  intros Hd Hm. assert (0 < 2 ^ d) by (apply Z.pow_pos_nonneg; lia).
  destruct m as [|p|]; [lia| |lia]. simpl. pose proof (digits2_pos_bounds p) as Hb.
  assert (d < Z.pos (digits2_pos p)) by (apply (Z.pow_lt_mono_r_iff 2); lia).
  assert (Z.pos (digits2_pos p) - 1 < d + 1) by (apply (Z.pow_lt_mono_r_iff 2); lia). lia.
Qed.

Lemma Zdigits2_bounds m : 0 < m -> 1 <= Zdigits2 m /\ 2 ^ (Zdigits2 m - 1) <= m < 2 ^ Zdigits2 m.
Proof. destruct m as [|p|]; try lia. intros _. simpl. split; [lia|]. apply digits2_pos_bounds. Qed.

(** ** Rounding to 53 digits *)

(** A 53-digit significand that rounding may have carried to [2 ^ 53]. *)
Definition carried (m e : Z) : spec_float :=
  if m <? 2 ^ 53 then S754_finite false (Z.to_pos m) e else S754_finite false (2 ^ 52) (e + 1).

Lemma fexp_normal e : -1074 <= e - 53 -> fexp 53 1024 e = e - 53.
Proof. intros. unfold fexp, emin. lia. Qed.

(** Rounding of an exact or inexact integer with 53 or more digits. *)
Lemma round_digits m e l :
  0 < m -> 53 <= Zdigits2 m -> -1074 <= e + Zdigits2 m - 53 <= 900 ->
  exists m2,
    binary_round_aux 53 1024 false m e l = carried m2 (e + (Zdigits2 m - 53)) /\
    m / 2 ^ (Zdigits2 m - 53) <= m2 <= m / 2 ^ (Zdigits2 m - 53) + 1 /\
    2 ^ 52 <= m2 <= 2 ^ 53 /\
    (l = loc_Exact -> m2 = round_nearest_even (m / 2 ^ (Zdigits2 m - 53)) (loc_of m (Z.to_nat (Zdigits2 m - 53)))).
Proof.
  intros Hm Hd He. pose proof (Zdigits2_bounds m Hm) as [_ Hb]. set (d := Zdigits2 m) in *.
  unfold binary_round_aux. unfold shr_fexp at 1. rewrite fexp_normal by (fold d; lia). fold d.
  replace (d + e - 53 - e) with (d - 53) by lia.
  assert (Hsm : shr_m (shr_record_of_loc m l) = m) by (destruct l as [|[]]; done).
  destruct (shr_any (shr_record_of_loc m l) e (d - 53)) as [H1 H2]; [lia|lia|].
  rewrite Hsm in H1.
  assert (Hl : l = loc_Exact ->
    loc_of_shr_record (shr (shr_record_of_loc m l) e (d - 53)).1 = loc_of m (Z.to_nat (d - 53))).
  { intros ->. pose proof (shr_exact m e (d - 53) ltac:(lia) ltac:(lia)) as Hx.
    simpl shr_record_of_loc. destruct (shr _ _ _) as [mrs e']. apply Hx. }
  destruct (shr _ _ _) as [mrs e']. simpl in H1, H2, Hl. rewrite H1, H2. subst e'.
  set (q := m / 2 ^ (d - 53)) in *.
  assert (Hq : 2 ^ 52 <= q < 2 ^ 53).
  { assert (0 < 2 ^ (d - 53)) by (apply Z.pow_pos_nonneg; lia). split.
    - apply Z.div_le_lower_bound; [done|]. rewrite <- Z.pow_add_r by lia.
      replace (d - 53 + 52) with (d - 1) by lia. lia.
    - apply Z.div_lt_upper_bound; [done|]. rewrite <- Z.pow_add_r by lia.
      replace (d - 53 + 53) with d by lia. lia. }
  set (m2 := round_nearest_even q _). exists m2.
  assert (Hm2 : q <= m2 <= q + 1).
  { unfold m2, round_nearest_even. destruct (loc_of_shr_record mrs) as [|[]]; try lia.
    destruct (Z.even q); lia. }
  split; [|split; [done|split; [lia|]]].
  2:{ intros E. unfold m2. by rewrite Hl. }
  clearbody m2. unfold carried. zcase.
  - unfold shr_fexp. rewrite (Zdigits2_unique m2 52) by lia.
    rewrite fexp_normal by lia. replace (52 + 1 + (e + (d - 53)) - 53 - (e + (d - 53))) with 0 by lia.
    simpl. destruct m2 as [|p|]; try lia. rewrite (proj2 (Z.leb_le _ _)) by lia. done.
  - replace m2 with (2 ^ 53) by lia. unfold shr_fexp. rewrite (Zdigits2_unique (2 ^ 53) 53) by lia.
    rewrite fexp_normal by lia. replace (53 + 1 + (e + (d - 53)) - 53 - (e + (d - 53))) with 1 by lia.
    change (2 ^ 53) with 9007199254740992. cbn [shr iter_pos shr_record_of_loc shr_1 shr_m].
    rewrite (proj2 (Z.leb_le _ _)) by lia. done.
Qed.

(** ** Conversion of integers *)

(** The significand of [z] before a carry: exact up to 53 digits, rounded
    to nearest even beyond. *)
Definition significand (z : Z) : Z :=
  let d := Zdigits2 z in
  if d <=? 53 then z * 2 ^ (53 - d)
  else round_nearest_even (z / 2 ^ (d - 53)) (loc_of z (Z.to_nat (d - 53))).

Lemma iter_xO p n : Z.pos (Pos.iter xO p n) = Z.pos p * 2 ^ Z.pos n.
Proof.
  revert p; induction n as [|n IH] using Pos.peano_ind; intros p; [simpl; lia|].
  rewrite Pos.iter_succ, (Pos2Z.inj_xO (Pos.iter _ _ _)), IH, Pos2Z.inj_succ, Z.pow_succ_r by lia. lia.
Qed.

Lemma f64_of_uint_carried z :
  0 < z < 2 ^ 64 ->
  f64_of_uint z = carried (significand z) (Zdigits2 z - 53) /\ 2 ^ 52 <= significand z <= 2 ^ 53.
Proof.
  intros Hz. destruct z as [|p|]; try lia. unfold f64_of_uint, binary_normalize, binary_round.
  pose proof (Zdigits2_bounds (Z.pos p) ltac:(lia)) as [Hd1 Hb].
  change (Z.pos (digits2_pos p)) with (Zdigits2 (Z.pos p)). set (d := Zdigits2 (Z.pos p)) in *.
  assert (Hd : d <= 64) by (assert (d - 1 < 64) by (apply (Z.pow_lt_mono_r_iff 2); lia); lia).
  rewrite Z.add_0_r, fexp_normal by lia. unfold shl_align. rewrite Z.sub_0_r.
  unfold significand. fold d. destruct (decide (d < 53)) as [Hlt|Hge].
  - rewrite (proj2 (Z.leb_le d 53)) by lia. destruct (d - 53) as [| |n] eqn:En; try lia.
    assert (Hm : Z.pos (Pos.iter xO p n) = Z.pos p * 2 ^ (53 - d)) by (rewrite iter_xO; do 2 f_equal; lia).
    assert (Hr : 2 ^ 52 <= Z.pos p * 2 ^ (53 - d) < 2 ^ 53).
    { replace (2 ^ 52) with (2 ^ (d - 1) * 2 ^ (53 - d)) by (rewrite <- Z.pow_add_r by lia; f_equal; lia).
      replace (2 ^ 53) with (2 ^ d * 2 ^ (53 - d)) by (rewrite <- Z.pow_add_r by lia; f_equal; lia).
      assert (0 < 2 ^ (53 - d)) by (apply Z.pow_pos_nonneg; lia). nia. }
    rewrite Hm. set (m := Z.pos p * 2 ^ (53 - d)) in *. clearbody m.
    assert (Hdm : Zdigits2 m = 53) by (rewrite (Zdigits2_unique m 52); lia).
    destruct (round_digits m (Z.neg n) loc_Exact) as (m2 & -> & _ & _ & Hm2); [lia|lia|rewrite Hdm; lia|].
    rewrite Hdm in *. specialize (Hm2 eq_refl). simpl in Hm2. rewrite Z.div_1_r in Hm2.
    unfold loc_of in Hm2. simpl in Hm2. rewrite Z.mod_1_r in Hm2. simpl in Hm2. subst m2.
    rewrite Z.add_0_r. split; [done|lia].
  - replace (match d - 53 with Z.neg d0 => (Pos.iter xO p d0, d - 53) | _ => (p, 0) end) with (p, 0)
      by (destruct (d - 53) eqn:?; try done; lia).
    destruct (round_digits (Z.pos p) 0 loc_Exact) as (m2 & -> & _ & Hr & Hm2);
      [lia|fold d; lia|fold d; lia|]. fold d in Hm2 |- *. rewrite Z.add_0_l. specialize (Hm2 eq_refl).
    zcase; [|by subst m2].
    assert (Hd53 : d = 53) by lia. rewrite Hd53 in *.
    unfold loc_of in Hm2. simpl in Hm2. rewrite Z.div_1_r, Z.mod_1_r in Hm2. simpl in Hm2.
    subst m2. simpl. split; [f_equal; lia|lia].
Qed.

(** Rounding at the same position is monotone. *)
Lemma round_even_mono x y n :
  x <= y ->
  round_nearest_even (x / 2 ^ Z.of_nat n) (loc_of x n) <= round_nearest_even (y / 2 ^ Z.of_nat n) (loc_of y n).
Proof.
  intros Hxy. assert (Hp : 0 < 2 ^ Z.of_nat n) by (apply Z.pow_pos_nonneg; lia).
  unfold loc_of. set (p := 2 ^ Z.of_nat n) in *.
  pose proof (Z.div_mod x p ltac:(lia)). pose proof (Z.mod_pos_bound x p Hp).
  pose proof (Z.div_mod y p ltac:(lia)). pose proof (Z.mod_pos_bound y p Hp).
  assert (Hq : x / p <= y / p) by (apply Z.div_le_mono; lia).
  assert (Hrx : forall q r, q <= round_nearest_even q (if r =? 0 then loc_Exact else loc_Inexact (2 * r ?= p)) <= q + 1).
  { intros q r. destruct (r =? 0); [simpl; lia|]. destruct (_ ?= _); simpl; try lia. destruct (Z.even q); lia. }
  pose proof (Hrx (x / p) (x mod p)). pose proof (Hrx (y / p) (y mod p)).
  destruct (decide (x / p = y / p)) as [E|]; [|lia].
  assert (Hr : x mod p <= y mod p) by nia. rewrite E in *. clear Hrx. revert Hr.
  generalize (x mod p), (y mod p). intros r1 r2 Hr.
  destruct (r1 =? 0) eqn:E1; destruct (r2 =? 0) eqn:E2; zbool; try (simpl; lia);
    repeat match goal with |- context [2 * ?r ?= p] => destruct (Z.compare_spec (2 * r) p) end;
    simpl; try lia; destruct (Z.even _); lia.
Qed.

Lemma significand_mono a b :
  0 < a <= b -> Zdigits2 a = Zdigits2 b -> significand a <= significand b.
Proof.
  intros Hab E. unfold significand. rewrite E. set (d := Zdigits2 b). zcase.
  - assert (0 < 2 ^ (53 - d)) by (apply Z.pow_pos_nonneg; lia). nia.
  - rewrite <- (Z2Nat.id (d - 53)) at 1 3 by lia. apply round_even_mono. lia.
Qed.

Lemma Zdigits2_mono a b : 0 < a <= b -> Zdigits2 a <= Zdigits2 b.
Proof.
  intros Hab. pose proof (Zdigits2_bounds a ltac:(lia)). pose proof (Zdigits2_bounds b ltac:(lia)).
  assert (Zdigits2 a - 1 < Zdigits2 b); [|lia]. apply (Z.pow_lt_mono_r_iff 2); lia.
Qed.

(** A positive double by its 53-digit significand and its exponent; the
    order of doubles is that of exponents, then of significands. *)
Definition normal (x : spec_float) (m e : Z) : Prop :=
  x = S754_finite false (Z.to_pos m) e /\ 2 ^ 52 <= m < 2 ^ 53.

Lemma carried_normal m e :
  2 ^ 52 <= m <= 2 ^ 53 -> (m < 2 ^ 53 /\ normal (carried m e) m e) \/ (m = 2 ^ 53 /\ normal (carried m e) (2 ^ 52) (e + 1)).
Proof.
  intros Hm. unfold normal, carried. zcase; [left|right]; (split; [lia|split; [done|lia]]).
Qed.

Lemma f64_of_uint_mono a b :
  0 < a <= b -> b < 2 ^ 64 ->
  exists ma ea mb eb, normal (f64_of_uint a) ma ea /\ normal (f64_of_uint b) mb eb /\
    -52 <= ea /\ eb <= 12 /\ (ea < eb \/ ea = eb /\ ma <= mb).
Proof.
  intros Hab Hb. pose proof (Zdigits2_mono a b Hab) as Hd.
  destruct (f64_of_uint_carried a ltac:(lia)) as [-> Ha].
  destruct (f64_of_uint_carried b ltac:(lia)) as [-> Hb'].
  pose proof (Zdigits2_bounds a ltac:(lia)). pose proof (Zdigits2_bounds b ltac:(lia)).
  assert (Zdigits2 b <= 64) by (assert (Zdigits2 b - 1 < 64) by (apply (Z.pow_lt_mono_r_iff 2); lia); lia).
  assert (Hs : Zdigits2 a = Zdigits2 b -> significand a <= significand b) by by apply significand_mono.
  destruct (carried_normal _ (Zdigits2 a - 53) Ha) as [[? Na]|[? Na]],
           (carried_normal _ (Zdigits2 b - 53) Hb') as [[? Nb]|[? Nb]];
    do 4 eexists; (split; [exact Na|]); (split; [exact Nb|]); repeat split; try lia.
Qed.

(** ** Division *)

Lemma carried_le_one m e : 2 ^ 52 <= m <= 2 ^ 53 -> e <= -53 -> SFleb (carried m e) f64_one = true.
Proof.
  intros Hm He. destruct (carried_normal m e Hm) as [[_ [-> _]]|[_ [-> _]]];
    unfold SFleb, SFcompare, f64_one.
  - by rewrite (proj2 (Z.compare_lt_iff e (-52))) by lia.
  - destruct (Z.compare_spec (e + 1) (-52)); try done. lia.
Qed.

Lemma div_normal_le_one x y ma ea mb eb :
  normal x ma ea -> normal y mb eb -> -52 <= ea -> eb <= 12 ->
  ea < eb \/ ea = eb /\ ma <= mb ->
  exists m e, f64_div x y = S754_finite false m e /\ SFleb (f64_div x y) f64_one = true.
Proof.
  intros [-> Ha] [-> Hb] Hea Heb Hle.
  assert (Hc : exists m2 e2, f64_div (S754_finite false (Z.to_pos ma) ea) (S754_finite false (Z.to_pos mb) eb) = carried m2 e2 /\
            2 ^ 52 <= m2 <= 2 ^ 53 /\ (e2 <= -53 \/ e2 = -52 /\ m2 = 2 ^ 52)).
  { unfold f64_div, SFdiv, SFdiv_core_binary. rewrite !Z2Pos.id by lia.
    rewrite (Zdigits2_unique ma 52), (Zdigits2_unique mb 52) by lia.
    replace (52 + 1 + ea - (52 + 1 + eb)) with (ea - eb) by lia.
    rewrite fexp_normal by lia. rewrite Z.min_l by lia.
    replace (ea - eb - (ea - eb - 53)) with 53 by lia. cbn [xorb].
    rewrite Z.shiftl_mul_pow2 by lia.
    pose proof (Z.div_mod (ma * 2 ^ 53) mb ltac:(lia)) as Hqr.
    pose proof (Z.mod_pos_bound (ma * 2 ^ 53) mb ltac:(lia)) as Hr.
    unfold Z.div, Z.modulo in Hqr, Hr. destruct (Z.div_eucl (ma * 2 ^ 53) mb) as [q r].
    assert (Hq : 2 ^ 52 <= q < 2 ^ 54) by nia.
    destruct (decide (q < 2 ^ 53)) as [Hq53|Hq53].
    - pose proof (Zdigits2_unique q 52 ltac:(lia) ltac:(lia)) as Hdq. simpl in Hdq.
      destruct (round_digits q (ea - eb - 53) (new_location mb r)) as (m2 & -> & _ & Hm2 & _);
        [lia|lia|rewrite Hdq; lia|]. rewrite Hdq. do 2 eexists. split; [done|]. split; [done|lia].
    - pose proof (Zdigits2_unique q 53 ltac:(lia) ltac:(lia)) as Hdq. simpl in Hdq.
      destruct (round_digits q (ea - eb - 53) (new_location mb r)) as (m2 & -> & _ & Hm2 & Hex);
        [lia|lia|rewrite Hdq; lia|]. rewrite Hdq in *. do 2 eexists. split; [done|]. split; [done|].
      destruct Hle as [|[-> Hle]]; [lia|]. right. split; [lia|].
      assert (ma = mb) by nia. subst mb. assert (Hq0 : q = 2 ^ 53 /\ r = 0) by nia.
      destruct Hq0 as [-> ->]. rewrite Hex; [done|].
      unfold new_location. destruct (Z.even ma); done. }
  destruct Hc as (m2 & e2 & -> & Hm2 & He2). destruct (carried_normal m2 e2 Hm2) as [[? [E ?]]|[? [E ?]]];
    do 2 eexists; (split; [exact E|]); (destruct He2 as [|[-> ->]]; [by apply carried_le_one|done]).
Qed.

(** The interpolation factor of [a] within [b]. *)
Lemma ratio_unit_interval a b :
  0 <= a <= b -> 0 < b < 2 ^ 64 ->
  let r := f64_div (f64_of_uint a) (f64_of_uint b) in
  SFleb f64_zero r = true /\ SFleb r f64_one = true /\ (a = 0 -> r = f64_zero).
Proof.
  intros Ha Hb. destruct (decide (a = 0)) as [->|Hne].
  - destruct (f64_of_uint_mono b b ltac:(lia) ltac:(lia)) as (m & e & ? & ? & [-> _] & _). done.
  - destruct (f64_of_uint_mono a b ltac:(lia) ltac:(lia)) as (ma & ea & mb & eb & Na & Nb & ? & ? & ?).
    destruct (div_normal_le_one _ _ ma ea mb eb Na Nb) as (m & e & E & ?); [lia..|].
    split; [by rewrite E|]. split; [done|lia].
Qed.

(** ** Exact results, at any precision *)
Section Exact.
Context (prec emax : Z) (Hprec : 1 <= prec).

Lemma Zdigits2_shift z k : 0 < z -> 0 <= k -> Zdigits2 (z * 2 ^ k) = Zdigits2 z + k.
Proof using Type.
  intros Hz Hk. pose proof (Zdigits2_bounds z Hz) as [Hd Hb].
  assert (0 < 2 ^ k) by (apply Z.pow_pos_nonneg; lia).
  replace (Zdigits2 z + k) with (Zdigits2 z - 1 + k + 1) by lia. apply Zdigits2_unique; [lia|].
  replace (Zdigits2 z - 1 + k + 1) with (Zdigits2 z + k) by lia.
  rewrite !Z.pow_add_r by lia. nia.
Qed.

(** A number with a [prec]-digit significand is its own rounding. *)
Lemma round_exact q s e :
  0 < q -> Zdigits2 q = prec -> 0 <= s -> emin prec emax <= e + s <= emax - prec ->
  binary_round_aux prec emax false (q * 2 ^ s) e loc_Exact = S754_finite false (Z.to_pos q) (e + s).
Proof using Hprec.
  intros Hq Hd Hs He. assert (0 < 2 ^ s) by (apply Z.pow_pos_nonneg; lia).
  assert (Hf : forall x, x = prec -> fexp prec emax (x + (e + s)) = e + s) by (unfold fexp; lia).
  unfold binary_round_aux. unfold shr_fexp at 1. rewrite Zdigits2_shift, Hd by lia.
  replace (prec + s + e) with (prec + (e + s)) by lia. rewrite Hf by done.
  replace (e + s - e) with s by lia.
  pose proof (shr_exact (q * 2 ^ s) e s ltac:(nia) Hs) as Hx.
  change (shr_record_of_loc (q * 2 ^ s) loc_Exact) with (Build_shr_record (q * 2 ^ s) false false).
  destruct (shr _ e s) as [mrs e']. destruct Hx as (Hm & Hl & ->).
  rewrite Hm, Hl, Z.div_mul by lia. unfold loc_of. rewrite Z2Nat.id, Z.mod_mul by lia.
  cbn [Z.eqb round_nearest_even]. unfold shr_fexp. rewrite Hd, Hf, Z.sub_diag by done. cbn.
  destruct q as [|q|]; try lia. by rewrite (proj2 (Z.leb_le _ _)) by lia.
Qed.

(** [z * 2 ^ k] as a float, for [z] of at most [prec] digits. *)
Definition scaled (z k : Z) : spec_float :=
  S754_finite false (Z.to_pos (z * 2 ^ (prec - Zdigits2 z))) (Zdigits2 z - prec + k).

Lemma normalised_digits z : 0 < z -> Zdigits2 z <= prec ->
  0 < z * 2 ^ (prec - Zdigits2 z) /\ Zdigits2 (z * 2 ^ (prec - Zdigits2 z)) = prec.
Proof using Hprec.
  intros Hz Hd. assert (0 < 2 ^ (prec - Zdigits2 z)) by (apply Z.pow_pos_nonneg; lia).
  split; [nia|]. rewrite Zdigits2_shift by lia. lia.
Qed.

Lemma of_uint_exact z :
  0 < z -> Zdigits2 z <= prec -> emin prec emax <= 1 - prec -> prec <= emax ->
  binary_normalize prec emax z 0 false = scaled z 0.
Proof using Hprec.
  intros Hz Hd Hmin Hmax. pose proof (Zdigits2_bounds z Hz) as [Hd1 _].
  destruct (normalised_digits z Hz Hd) as [Hp Hn].
  destruct z as [|p|]; try lia. unfold binary_normalize, binary_round.
  change (Z.pos (digits2_pos p)) with (Zdigits2 (Z.pos p)). unfold scaled.
  set (d := Zdigits2 (Z.pos p)) in *. rewrite Z.add_0_r.
  replace (fexp prec emax d) with (d - prec) by (unfold fexp; lia).
  unfold shl_align. rewrite Z.sub_0_r. destruct (d - prec) as [| |n] eqn:En; try lia.
  - assert (E : 2 ^ (prec - d) = 1) by (replace (prec - d) with 0 by lia; done).
    rewrite E, Z.mul_1_r in *. rewrite <- (Z.mul_1_r (Z.pos p)). change 1 with (2 ^ 0) at 1.
    rewrite (round_exact (Z.pos p) 0) by (done || lia). f_equal; lia.
  - rewrite iter_xO. replace (Z.pos n) with (prec - d) by lia.
    rewrite <- (Z.mul_1_r (Z.pos p * 2 ^ (prec - d))). change 1 with (2 ^ 0) at 1.
    rewrite round_exact by (done || lia). f_equal. lia.
Qed.

Lemma mul_exact a b j k :
  0 < a -> 0 < b -> Zdigits2 (a * b) <= prec ->
  emin prec emax <= Zdigits2 (a * b) - prec + (j + k) <= emax - prec ->
  SFmul prec emax (scaled a j) (scaled b k) = scaled (a * b) (j + k).
Proof using Hprec.
  intros Ha Hb Hd He. pose proof (Zdigits2_mono a (a * b) ltac:(nia)) as Hda.
  pose proof (Zdigits2_mono b (a * b) ltac:(nia)) as Hdb.
  destruct (normalised_digits a Ha ltac:(lia)) as [Hpa _].
  destruct (normalised_digits b Hb ltac:(lia)) as [Hpb _].
  destruct (normalised_digits (a * b) ltac:(nia) Hd) as [Hpc Hdc].
  unfold scaled, SFmul. rewrite Pos2Z.inj_mul, !Z2Pos.id by lia. cbn [xorb].
  set (da := Zdigits2 a) in *. set (db := Zdigits2 b) in *. set (dc := Zdigits2 (a * b)) in *.
  assert (Hdab : da + db - 1 <= dc).
  { destruct (Zdigits2_bounds a Ha) as [? Hba]. destruct (Zdigits2_bounds b Hb) as [? Hbb].
    destruct (Zdigits2_bounds (a * b) ltac:(nia)) as [? Hbc]. fold da in Hba. fold db in Hbb. fold dc in Hbc.
    assert (da - 1 + (db - 1) < dc); [|lia]. apply (Z.pow_lt_mono_r_iff 2); [lia|lia|].
    rewrite Z.pow_add_r by lia. nia. }
  pose proof (Zdigits2_bounds a Ha) as [? _]. pose proof (Zdigits2_bounds b Hb) as [? _]. fold da in H. fold db in H0.
  replace (a * 2 ^ (prec - da) * (b * 2 ^ (prec - db)))
    with (a * b * 2 ^ (prec - dc) * 2 ^ (prec - da - db + dc)).
  - rewrite round_exact by (done || lia). f_equal. lia.
  - rewrite <- Z.mul_assoc, <- Z.pow_add_r by lia.
    replace (a * 2 ^ (prec - da) * (b * 2 ^ (prec - db))) with (a * b * (2 ^ (prec - da) * 2 ^ (prec - db))) by lia.
    rewrite <- Z.pow_add_r by lia. do 2 f_equal. lia.
Qed.
End Exact.

(** ** Comparisons *)
Lemma SFleb_not_ltb x y : SFleb x y = true -> SFltb y x = false.
Proof.
  unfold SFleb, SFltb, SFcompare.
  destruct x as [[]|[]| |[] mx ex], y as [[]|[]| |[] my ey]; try done;
    rewrite (Z.compare_antisym ex ey); destruct (ex ?= ey); try done; cbn [CompOpp];
    pose proof (Pos.compare_cont_antisym mx my Eq) as E; cbn [CompOpp] in E; rewrite <- E;
    destruct (Pos.compare_cont Eq mx my); done.
Qed.
