(* ===== verification/Reads.v ===== *)
(** * Programs that only read

    A small Hoare logic on top of [wp] for the methods of readers: [reads]
    says that a program, started at any moment on any memory of the
    invariant, terminates, keeps the invariant and answers in [P].  With the
    invariant "the memory is [m]" it speaks of a region at rest, with the
    trivial one of a reader that never sees the same memory twice. *)
From S2P Require Import Prelude Memory Prog Equiv.

Section Reads.
Context (e : env) (t0 : nat) (M : mem -> Prop).

Definition reads {A : Set} (p : prog A) (P : A -> Prop) : Prop :=
  forall t m, (t0 <= t)%nat -> M m -> wp e p t m (fun a t' m' _ => (t <= t')%nat /\ M m' /\ P a).

Lemma reads_ret {A : Set} (a : A) (P : A -> Prop) : P a -> reads (Ret a) P.
Proof using Type. intros HP t m Ht Hm. apply wp_ret. auto. Qed.

Lemma reads_conseq {A : Set} (p : prog A) (P P' : A -> Prop) :
  reads p P -> (forall a, P a -> P' a) -> reads p P'.
Proof using Type.
  intros Hp HP t m Ht Hm. eapply wp_conseq; [by apply Hp|].
  intros a t' m' l (? & ? & ?). auto.
Qed.

Lemma equiv_reads {A : Set} (p q : prog A) (P : A -> Prop) : q ≡ p -> reads p P -> reads q P.
Proof using Type. intros Hpq Hp t m Ht Hm. eapply equiv_wp; [symmetry; exact Hpq|by apply Hp]. Qed.

Lemma reads_bind {A B : Set} (p : prog B) (k : B -> prog A) (R : B -> Prop) (P : A -> Prop) :
  reads p R -> (forall b, R b -> reads (k b) P) -> reads (Bind p k) P.
Proof using Type.
  intros Hp Hk t m Ht Hm. apply wp_bind. eapply wp_conseq; [by apply Hp|].
  intros b t1 m1 l1 (Ht1 & Hm1 & Hb). eapply wp_conseq; [apply Hk; [done|lia|done]|].
  intros a t2 m2 l2 (Ht2 & Hm2 & Ha). split; [lia|done].
Qed.

(** Other processes keep the invariant. *)
Context (HM : forall t m, (t0 <= t)%nat -> M m -> M (interfere e t m)).

(** A loop with an invariant on its variables and a measure that falls. *)
Lemma reads_iter {A S0 : Set} (body : S0 -> prog (S0 + A)) (I : S0 -> Prop) (size : S0 -> nat)
    (P : A -> Prop) s :
  I s ->
  (forall s, I s -> reads (body s) (fun r => match r with
                                            | inl s' => I s' /\ (size s' < size s)%nat
                                            | inr a => P a
                                            end)) ->
  reads (Iter body s) P.
Proof using HM.
  intros Hs Hbody. remember (size s) as n eqn:En. revert s Hs En.
  induction n as [n IH] using lt_wf_ind; intros s Hs En t m Ht Hm.
  apply wp_iter. eapply wp_conseq; [apply (Hbody s Hs); [lia|auto]|].
  intros [s'|a] t1 m1 l1 (Ht1 & Hm1 & Hr).
  - destruct Hr as [Hs' Hlt]. eapply wp_conseq; [eapply (IH (size s')); [lia|done|done|lia|done]|].
    intros a t2 m2 l2 (Ht2 & Hm2 & Ha). split; [lia|done].
  - split; [lia|done].
Qed.
End Reads.

(** Conditionals whose branches are programs. *)
Ltac reads_if := match goal with |- reads _ _ _ (if ?b then _ else _) _ => destruct b eqn:?; zbool end.

(** ** What such a logic is

    The proofs that only follow a program's answers need no more than this;
    besides [reads], a thread of a pool has such a logic. *)
Class AnswerLogic (J : forall A : Set, prog A -> (A -> Prop) -> Prop) : Prop := {
  answers_ret {A : Set} (a : A) (P : A -> Prop) : P a -> J A (Ret a) P;
  answers_bind {A B : Set} (p : prog B) (k : B -> prog A) (R : B -> Prop) (P : A -> Prop) :
    J B p R -> (forall b, R b -> J A (k b) P) -> J A (Bind p k) P;
  answers_iter {A S0 : Set} (body : S0 -> prog (S0 + A)) (I : S0 -> Prop) (size : S0 -> nat) (P : A -> Prop) s :
    I s ->
    (forall s, I s -> J (S0 + A)%type (body s) (fun r => match r with
                                                        | inl s' => I s' /\ (size s' < size s)%nat
                                                        | inr a => P a
                                                        end)) ->
    J A (Iter body s) P
}.

#[export] Instance reads_logic e t0 M (HM : forall t m, (t0 <= t)%nat -> M m -> M (interfere e t m)) :
  AnswerLogic (@reads e t0 M).
Proof. split; intros; [by apply reads_ret|by eapply reads_bind|by eapply reads_iter]. Qed.

Ltac answers_if := match goal with |- ?J _ (if ?b then _ else _) _ => destruct b eqn:?; zbool end.
