(* ===== verification/SanitizedKey.v ===== *)
(** * Validated keys

    [sanitized_key.hpp]: a 64-bit key that can only be obtained through a
    validator, and the validators the header offers.  The tag is a phantom
    type: keys of different tags have different Rocq types. *)
From S2P Require Import Prelude FlatType.

(** The constructor is private to [sanitize]. *)
Record SanitizedKey (Tag : Set) := MkKey { value : uint64 }.
Arguments MkKey {Tag} _.
Arguments value {Tag} _.

Inductive MonotonicNsTag : Set := .
Inductive RangeCheckedTag : Set := .
Inductive ProximityCheckedTag : Set := .

Definition validator : Set := uint64 -> bool.

Definition sanitize (Tag : Set) (raw : uint64) (fn : validator) : option (SanitizedKey Tag) :=
  if fn raw then Some (MkKey raw) else None.

Definition RangeValidator (min_val max_val : uint64) : validator := fun v =>
  (uint_val v >=? uint_val min_val) && (uint_val v <=? uint_val max_val).

Definition ProximityValidator (reference tolerance : uint64) : validator := fun v =>
  (if uint_val v >? uint_val reference
   then u64 (uint_val v - uint_val reference)
   else u64 (uint_val reference - uint_val v)) <=? uint_val tolerance.

Definition MIN_NS : uint64 := to_uint 8 1000000000.
Definition MAX_NS : uint64 := to_uint 8 (u64 (u64 (u64 (100 * 365) * 86400) * 1000000000)).

Definition MonotonicNsValidator : validator := fun v =>
  (uint_val v >=? uint_val MIN_NS) && (uint_val v <=? uint_val MAX_NS).

(** [(vs(v) && ...)]: a right fold that stops at the first rejection. *)
Fixpoint AllOf (validators : list validator) : validator := fun v =>
  match validators with
  | [] => true
  | f :: fs => if f v then AllOf fs v else false
  end.

(** ** What a validator accepts *)

Lemma range_spec lo hi v :
  RangeValidator lo hi v = true <-> uint_val lo <= uint_val v <= uint_val hi.
Proof. unfold RangeValidator. rewrite andb_true_iff, Z.geb_leb, !Z.leb_le. done. Qed.

Lemma proximity_spec reference tolerance v :
  ProximityValidator reference tolerance v = true <->
  Z.abs (uint_val v - uint_val reference) <= uint_val tolerance.
Proof.
  unfold ProximityValidator. pose proof (uint_range v). pose proof (uint_range reference).
  simpl Z.of_nat in *. rewrite Z.leb_le, Z.gtb_ltb. zcase; rewrite u64_small by lia; lia.
Qed.

(** [100ULL * 365 * 86400 * 1'000'000'000ULL] does not wrap. *)
Lemma max_ns_exact : uint_val MAX_NS = 100 * 365 * 86400 * 1000000000.
Proof. reflexivity. Qed.

Lemma monotonic_spec v :
  MonotonicNsValidator v = true <->
  1000000000 <= uint_val v <= 100 * 365 * 86400 * 1000000000.
Proof. unfold MonotonicNsValidator. rewrite max_ns_exact, andb_true_iff, Z.geb_leb, !Z.leb_le. done. Qed.

Lemma allof_spec fs v : AllOf fs v = true <-> Forall (fun f => f v = true) fs.
Proof.
  induction fs as [|f fs IH]; cbn [AllOf]; [split; done|].
  rewrite Forall_cons_iff, <- IH. destruct (f v); intuition congruence.
Qed.

#[export] Hint Rewrite range_spec proximity_spec monotonic_spec allof_spec : shm.

(** What the built-in validators mean, as sets of 64-bit values. *)
#[local] Set Warnings "-register-all".
Inductive policy : Set :=
| InRange (lo hi : uint64)
| Near (reference tolerance : uint64)
| MonotonicNs
| All (ps : list policy).

Fixpoint policy_validator (p : policy) : validator :=
  match p with
  | InRange lo hi => RangeValidator lo hi
  | Near reference tolerance => ProximityValidator reference tolerance
  | MonotonicNs => MonotonicNsValidator
  | All ps => AllOf (map policy_validator ps)
  end.

Fixpoint meets (p : policy) (v : Z) : Prop :=
  match p with
  | InRange lo hi => uint_val lo <= v <= uint_val hi
  | Near reference tolerance => Z.abs (v - uint_val reference) <= uint_val tolerance
  | MonotonicNs => 10 ^ 9 <= v <= 100 * 365 * 86400 * 10 ^ 9
  | All ps => foldr (fun p P => meets p v /\ P) True ps
  end.

Lemma policy_ind' (P : policy -> Prop) :
  (forall lo hi, P (InRange lo hi)) -> (forall r t, P (Near r t)) -> P MonotonicNs ->
  (forall ps, Forall P ps -> P (All ps)) -> forall p, P p.
Proof.
  intros H1 H2 H3 H4. fix IH 1. intros [lo hi|r t| |ps]; [apply H1|apply H2|apply H3|].
  apply H4. induction ps as [|p ps IHps]; constructor; [apply IH|exact IHps].
Qed.

Lemma policy_validator_spec p v : policy_validator p v = true <-> meets p (uint_val v).
Proof.
  induction p as [lo hi|r t| |ps IH] using policy_ind'; cbn [policy_validator meets].
  - apply range_spec.
  - apply proximity_spec.
  - apply monotonic_spec.
  - rewrite allof_spec, List.Forall_map. induction IH as [|p ps Hp _ IHps]; [split; done|].
    rewrite Forall_cons_iff. cbn [foldr]. rewrite IHps. unfold compose. by rewrite Hp.
Qed.

(** C26: sanitize yields a key exactly when the value meets the policy of the
    validator, any nesting of range, proximity, monotonic-nanosecond and
    all-of checks over the full 64-bit range, and the key carries the raw
    value unchanged. *)
Theorem sanitize_exact (Tag : Set) (p : policy) (raw : uint64) :
  (meets p (uint_val raw) /\ sanitize Tag raw (policy_validator p) = Some (MkKey raw)) \/
  (~ meets p (uint_val raw) /\ sanitize Tag raw (policy_validator p) = None).
Proof.
  pose proof (policy_validator_spec p raw) as Hp. unfold sanitize.
  destruct (policy_validator p raw); [left|right]; intuition congruence.
Qed.
