(* ===== verification/TimeSeries.v ===== *)
(** * Time series: lookup by key on top of the cyclic buffer

    [time_series.hpp]: closest element, bracketing pair, freshness.  The
    methods are programs over the region, one [try_get] after the other;
    the buffer may change between any two of them. *)
From S2P Require Import Prelude Memory Prog FlatType Seqlock CyclicBuffer Stamped SanitizedKey Float.

(** What a [KeyExtractor] promises: keys of an unsigned type of 32 or 64
    bits (narrower ones would be promoted to [int] by the subtractions). *)
Class KeyExtractor (T : Set) := {
  key_width : Z;
  extractor : T -> Z;
  key_width_ok : key_width = 32 \/ key_width = 64;
  extractor_range x : 0 <= extractor x < 2 ^ key_width
}.
#[global] Arguments key_width T {_}.
#[global] Hint Mode KeyExtractor ! : typeclass_instances.

(** The default: [timestamp_ns] of a stamped value. *)
#[export] Program Instance StampedKeyExtractor (T : Set) : KeyExtractor (Stamped T) := {|
  key_width := 64;
  extractor s := uint_val (timestamp_ns s)
|}.
Next Obligation. intros. by right. Qed.
Next Obligation. intros T x. apply (uint_range (timestamp_ns x)). Qed.

Record InterpPair (T : Set) := MkPair { before : T; after : T; alpha : spec_float }.
Arguments MkPair {T} _ _ _.
Arguments before {T} _.
Arguments after {T} _.
Arguments alpha {T} _.

Module TimeSeries.
Section TimeSeries.
Context {T : Set} `{FlatType T} `{KeyExtractor T} (N : Z).

Definition key_max : Z := 2 ^ key_width T - 1.
Definition key_sub (a b : Z) : Z := wrap (key_width T) (a - b).
Definition key_diff (a b : Z) : Z := if a >? b then key_sub a b else key_sub b a.

Definition try_get (r : Z) : prog (option T) := CyclicBufferReader.try_get T N r default_retries.

(** [static_cast<double>(target - before_key) / static_cast<double>(after_key - before_key)] *)
Definition interp_alpha (target before_key after_key : Z) : spec_float :=
  f64_div (f64_of_uint (key_sub target before_key)) (f64_of_uint (key_sub after_key before_key)).

(** [for (i = 0; i < avail; ++i) { elem = try_get(i); if (!elem) continue; ... }] *)
Definition scan {A : Set} (avail : Z) (body : A -> T -> A) (a0 : A) : prog A :=
  Iter (fun '(i, a) =>
    if i <? avail then
      elem <- try_get i ;;
      Ret (inl (u64 (i + 1), match elem with Some x => body a x | None => a end))
    else Ret (inr a)) (0, a0).

(** The closest element so far. *)
Definition nearest (target : Z) (best : option T * Z) (x : T) : option T * Z :=
  let d := key_diff (extractor x) target in
  if d <? best.2 then (Some x, d) else best.

Definition find_closest_linear (target avail : Z) (max_distance : option Z) : prog (option T) :=
  r <- scan avail (nearest target) (None, key_max) ;;
  Ret (match r, max_distance with
       | (Some x, best_diff), Some md => if best_diff >? md then None else Some x
       | (best, _), _ => best
       end).

(** How the binary search ends: on an exact match, on an overwritten slot,
    or with the index it narrowed down to. *)
Inductive search : Set := Exact (x : T) | Overwritten | Stopped (lo : Z).

Definition binary_search (target avail : Z) : prog search :=
  Iter (fun '(lo, hi) =>
    if lo <? hi then
      let mid := u64 (lo + u64 (hi - lo) / 2) in
      elem <- try_get mid ;;
      Ret (match elem with
           | None => inr Overwritten
           | Some x =>
               let mid_key := extractor x in
               if mid_key >? target then inl (u64 (mid + 1), hi)
               else if mid_key <? target then
                 if mid =? 0 then inr (Stopped lo) else inl (lo, u64 (mid - 1))
               else inr (Exact x)
           end)
    else Ret (inr (Stopped lo))) (0, u64 (avail - 1)).

(** A neighbour replaces the best element if it is strictly closer. *)
Definition closer (target : Z) (best : T * Z) (elem : option T) : T * Z :=
  match elem with
  | Some x => let d := key_diff (extractor x) target in if d <? best.2 then (x, d) else best
  | None => best
  end.

Definition filter_distance (target : Z) (max_distance : option Z) (best : T) : option T :=
  match max_distance with
  | Some md => if key_diff (extractor best) target >? md then None else Some best
  | None => Some best
  end.

Definition find_closest (target : Z) (max_distance : option Z) : prog (option T) :=
  avail <- CyclicBufferReader.available N ;;
  if avail =? 0 then Ret None else
  s <- binary_search target avail ;;
  match s with
  | Exact x => Ret (Some x)
  | Overwritten => find_closest_linear target avail max_distance
  | Stopped lo =>
      best <- try_get lo ;;
      match best with
      | None => find_closest_linear target avail None
      | Some x =>
          let best := (x, key_diff (extractor x) target) in
          best <- (if lo >? 0 then
                     prev <- try_get (u64 (lo - 1)) ;; Ret (closer target best prev)
                   else Ret best) ;;
          best <- (if u64 (lo + 1) <? avail then
                     next <- try_get (u64 (lo + 1)) ;; Ret (closer target best next)
                   else Ret best) ;;
          Ret (filter_distance target max_distance best.1)
      end
  end.

(** The element with the key closest to the target from one side. *)
Definition tighten (x : T) (d : Z) (side : option T * Z) : option T * Z :=
  if d <? side.2 then (Some x, d) else side.

Definition enclose (target : Z) (sides : (option T * Z) * (option T * Z)) (x : T) :
    (option T * Z) * (option T * Z) :=
  let k := extractor x in
  (if k <=? target then tighten x (key_sub target k) sides.1 else sides.1,
   if k >=? target then tighten x (key_sub k target) sides.2 else sides.2).

Definition find_interpolation_pair_linear (target avail : Z) : prog (option (InterpPair T)) :=
  r <- scan avail (enclose target) ((None, key_max), (None, key_max)) ;;
  Ret (match r with
       | ((Some b, _), (Some a, _)) =>
           Some (MkPair b a (if extractor a =? extractor b then f64_zero
                             else interp_alpha target (extractor b) (extractor a)))
       | _ => None
       end).

(** The bracketing search: [None] on an overwritten slot. *)
Definition bracket_search (target avail : Z) : prog (option (Z * Z)) :=
  Iter (fun '(lo, hi) =>
    if u64 (lo + 1) <? hi then
      let mid := u64 (lo + u64 (hi - lo) / 2) in
      elem <- try_get mid ;;
      Ret (match elem with
           | None => inr None
           | Some x => if extractor x >? target then inl (mid, hi) else inl (lo, mid)
           end)
    else Ret (inr (Some (lo, hi)))) (0, u64 (avail - 1)).

Definition find_interpolation_pair (target : Z) : prog (option (InterpPair T)) :=
  avail <- CyclicBufferReader.available N ;;
  if avail <? 2 then Ret None else
  newest <- try_get 0 ;;
  oldest <- try_get (u64 (avail - 1)) ;;
  match newest, oldest with
  | Some newest, Some oldest =>
      if (target >? extractor newest) || (target <? extractor oldest) then Ret None
      else if target =? extractor newest then Ret (Some (MkPair newest newest f64_zero))
      else if target =? extractor oldest then Ret (Some (MkPair oldest oldest f64_zero))
      else
        s <- bracket_search target avail ;;
        match s with
        | None => find_interpolation_pair_linear target avail
        | Some (lo, hi) =>
            after_elem <- try_get lo ;;
            before_elem <- try_get hi ;;
            Ret (match after_elem, before_elem with
                 | Some a, Some b =>
                     if extractor a =? extractor b then Some (MkPair b a f64_zero)
                     else Some (MkPair b a (interp_alpha target (extractor b) (extractor a)))
                 | _, _ => None
                 end)
        end
  | _, _ => Ret None
  end.

Definition get_latest_if_fresh (min_key : Z) : prog (option T) :=
  avail <- CyclicBufferReader.available N ;;
  if avail =? 0 then Ret None else
  latest <- try_get 0 ;;
  Ret (match latest with
       | Some x => if extractor x >=? min_key then Some x else None
       | None => None
       end).

(** The overloads that take a validated key, converted to the key type. *)
Definition find_closest_key {Tag} (target : SanitizedKey Tag) (max_distance : option Z) : prog (option T) :=
  find_closest (wrap (key_width T) (uint_val (value target))) max_distance.
Definition find_interpolation_pair_key {Tag} (target : SanitizedKey Tag) : prog (option (InterpPair T)) :=
  find_interpolation_pair (wrap (key_width T) (uint_val (value target))).
Definition get_latest_if_fresh_key {Tag} (min_key : SanitizedKey Tag) : prog (option T) :=
  get_latest_if_fresh (wrap (key_width T) (uint_val (value min_key))).

(** Delegates. *)
Definition get_latest : prog T := CyclicBufferReader.get_latest T N.
Definition available : prog Z := CyclicBufferReader.available N.
Definition total_writes : prog Z := CyclicBufferReader.total_writes.
Definition capacity : Z := N.
End TimeSeries.
Arguments Exact {T} x.
Arguments Overwritten {T}.
Arguments Stopped {T} lo.
End TimeSeries.
