(* ===== verification/TimeSeriesFacts.v ===== *)
(** * Time series: correctness of the lookups

    The methods of [TimeSeries] are proved against an interface, the
    answers of [available] and [try_get] ([rest_view]: a buffer at rest;
    [live_view]: a buffer that changes between any two calls), which the
    cyclic buffer then implements. *)
From S2P Require Import Prelude Memory Prog History Reads FlatType SeqCount Seqlock CyclicBuffer CyclicRing CyclicReaders CyclicConcurrent Stamped SanitizedKey Float TimeSeries.

(** ** Specification on the list of elements, newest first *)
Section Spec.
Context {T : Set} `{KeyExtractor T}.

Definition key_distance (target : Z) (x : T) : Z := Z.abs (extractor x - target).

Definition within (max_distance : option Z) (d : Z) : Prop :=
  match max_distance with Some md => d <= md | None => True end.

(** An element is answered iff one is near enough, and then a nearest. *)
Definition closest (l : list T) (target : Z) (max_distance : option Z) (ans : option T) : Prop :=
  match ans with
  | Some y => y ∈ l /\ within max_distance (key_distance target y) /\
              forall z, z ∈ l -> key_distance target y <= key_distance target z
  | None => forall z, z ∈ l -> ~ within max_distance (key_distance target z)
  end.

Definition unit_interval (a : spec_float) : Prop :=
  SFleb f64_zero a = true /\ SFleb a f64_one = true.

(** The answered elements bracket the target with nothing in between, and
    the factor is a number between zero and one; no answer means that the
    target is out of range. *)
Definition brackets (l : list T) (target : Z) (ans : option (InterpPair T)) : Prop :=
  match ans with
  | Some p =>
      before p ∈ l /\ after p ∈ l /\ extractor (before p) <= target <= extractor (after p) /\
      (forall z, z ∈ l -> extractor z <= extractor (before p) \/ extractor (after p) <= extractor z) /\
      unit_interval (alpha p) /\ (extractor (before p) = target -> alpha p = f64_zero)
  | None => (length l < 2)%nat \/ (forall z, z ∈ l -> target < extractor z) \/
            (forall z, z ∈ l -> extractor z < target)
  end.

(** Keys do not decrease with insertion. *)
Definition keys_descend (l : list T) : Prop :=
  forall i j x y, (i <= j)%nat -> l !! i = Some x -> l !! j = Some y -> extractor y <= extractor x.
End Spec.

Section Keys.
Context {T : Set} `{HK : KeyExtractor T}.

Definition key_ok (k : Z) : Prop := 0 <= k < 2 ^ key_width T.

Lemma key_width_64 : 2 ^ key_width T <= 2 ^ 64.
Proof using Type. destruct (key_width_ok (T:=T)) as [-> | ->]; lia. Qed.

Lemma key_sub_exact a b : key_ok a -> key_ok b -> b <= a -> TimeSeries.key_sub (T:=T) a b = a - b.
Proof using Type. unfold key_ok. intros. apply wrap_small. lia. Qed.

Lemma key_diff_abs a b : key_ok a -> key_ok b -> TimeSeries.key_diff (T:=T) a b = Z.abs (a - b).
Proof using Type.
  intros Ha Hb. unfold TimeSeries.key_diff. zcase; rewrite key_sub_exact by (done || lia); lia.
Qed.

Lemma extractor_ok (x : T) : key_ok (extractor x).
Proof using Type. apply extractor_range. Qed.

Lemma key_diff_distance (x : T) target :
  key_ok target -> TimeSeries.key_diff (T:=T) (extractor x) target = key_distance target x.
Proof using Type. intros. apply key_diff_abs; [apply extractor_ok|done]. Qed.

Lemma interp_alpha_unit target k1 k2 :
  key_ok target -> key_ok k1 -> key_ok k2 -> k1 <= target <= k2 -> k1 < k2 ->
  unit_interval (TimeSeries.interp_alpha (T:=T) target k1 k2) /\
  (k1 = target -> TimeSeries.interp_alpha (T:=T) target k1 k2 = f64_zero).
Proof using Type.
  intros H1 H2 H3 Hle Hlt. unfold TimeSeries.interp_alpha, unit_interval.
  rewrite !key_sub_exact by (done || lia). pose proof key_width_64. unfold key_ok in *.
  destruct (ratio_unit_interval (target - k1) (k2 - k1)) as (? & ? & Hz); [lia|lia|].
  split; [done|]. intros. apply Hz. lia.
Qed.
End Keys.

(** ** A buffer at rest *)
Section Rest.
Context {T : Set} `{FlatType T} `{HK : KeyExtractor T} (N : Z).
Context (e : env) (t0 : nat) (M : mem -> Prop).
Context (HM : forall t m, (t0 <= t)%nat -> M m -> M (interfere e t m)).
Abbreviation reads := (reads e t0 M).

(** The answers of a buffer that holds [l], newest first. *)
Record rest_view (l : list T) : Prop := {
  view_small : Z.of_nat (length l) < 2 ^ 62;
  view_available : reads (CyclicBufferReader.available N) (eq (Z.of_nat (length l)));
  view_try_get r : 0 <= r -> reads (TimeSeries.try_get N r) (eq (l !! Z.to_nat r))
}.

Context (l : list T) (Hview : rest_view l) (Hkeys : keys_descend l).
Context (target : Z) (Htarget : key_ok (T:=T) target).
Abbreviation n := (Z.of_nat (length l)).

(** The key of the [r]-th newest. *)
Definition key_at (r : Z) : Z :=
  match l !! Z.to_nat r with Some x => extractor x | None => 0 end.

Lemma lookup_at r : 0 <= r < n -> exists x, l !! Z.to_nat r = Some x /\ key_at r = extractor x.
Proof using Type.
  intros. destruct (lookup_lt_is_Some_2 l (Z.to_nat r)) as [x E]; [lia|].
  exists x. unfold key_at. by rewrite E.
Qed.

Lemma key_at_anti i j : 0 <= i <= j -> j < n -> key_at j <= key_at i.
Proof using Hkeys.
  intros. destruct (lookup_at i) as (x & Ex & ->); [lia|]. destruct (lookup_at j) as (y & Ey & ->); [lia|].
  eapply Hkeys; [|exact Ex|exact Ey]. lia.
Qed.

Lemma elem_key z : z ∈ l -> exists r, 0 <= r < n /\ l !! Z.to_nat r = Some z /\ key_at r = extractor z.
Proof using Type.
  intros Hz. apply list_elem_of_lookup in Hz. destruct Hz as [i Hi].
  pose proof (lookup_lt_Some _ _ _ Hi). exists (Z.of_nat i). unfold key_at. rewrite Nat2Z.id, Hi.
  split; [lia|done].
Qed.

Lemma reads_try_get r (P : option T -> Prop) :
  0 <= r -> P (l !! Z.to_nat r) -> reads (TimeSeries.try_get N r) P.
Proof using Hview.
  intros Hr HP. eapply reads_conseq; [by apply (view_try_get _ Hview)|]. by intros a <-.
Qed.

Lemma midpoint lo hi : 0 <= lo <= hi -> hi < n -> u64 (lo + u64 (hi - lo) / 2) = lo + (hi - lo) / 2 /\
  (lo < hi -> lo <= lo + (hi - lo) / 2 < hi) /\ (lo + 1 < hi -> lo < lo + (hi - lo) / 2 < hi).
Proof using Hview.
  intros. pose proof (view_small _ Hview).
  rewrite (u64_small (hi - lo)) by lia.
  pose proof (Z.div_mod (hi - lo) 2 ltac:(lia)). pose proof (Z.mod_pos_bound (hi - lo) 2 ltac:(lia)).
  split; [apply u64_small; lia|]. split; lia.
Qed.

(** What the binary search narrows down to. *)
Definition narrowed (lo : Z) : Prop :=
  0 <= lo < n /\ (forall r, 0 <= r < lo -> target < key_at r) /\
  (forall r, lo < r < n -> key_at r < target).

Lemma reads_binary_search :
  0 < n ->
  reads (TimeSeries.binary_search N target n)
    (fun s => match s with
              | TimeSeries.Exact x => x ∈ l /\ extractor x = target
              | TimeSeries.Overwritten => False
              | TimeSeries.Stopped lo => narrowed lo
              end).
Proof using HM Hview Hkeys.
  intros Hn. pose proof (view_small _ Hview). unfold TimeSeries.binary_search.
  rewrite (u64_small (n - 1)) by lia.
  apply reads_iter with
    (I := fun '(lo, hi) => 0 <= lo < n /\ 0 <= hi < n /\ lo <= hi + 1 /\
            (forall r, 0 <= r < lo -> target < key_at r) /\ (forall r, hi < r < n -> key_at r < target))
    (size := fun '(lo, hi) => Z.to_nat (hi - lo + 1)); [done|repeat split; lia|].
  intros [lo hi] (Hlo & Hhi & Hle & Habove & Hbelow). reads_if.
  - destruct (midpoint lo hi ltac:(lia) ltac:(lia)) as (-> & Hmid & _). specialize (Hmid ltac:(lia)).
    set (mid := lo + (hi - lo) / 2) in *.
    apply reads_bind with (R := eq (l !! Z.to_nat mid)); [by apply (view_try_get _ Hview); lia|].
    intros o <-. apply reads_ret. destruct (lookup_at mid ltac:(lia)) as (x & Ex & Hx).
    rewrite Ex, <- Hx. zcase; [|zcase; [zcase|]].
    + rewrite u64_small by lia. split; [|lia]. repeat split; try lia; [|done].
      intros r Hr. destruct (decide (r < lo)); [apply Habove; lia|].
      pose proof (key_at_anti r mid ltac:(lia) ltac:(lia)). lia.
    + repeat split; try lia. intros r Hr. pose proof (key_at_anti mid r ltac:(lia) ltac:(lia)). lia.
    + rewrite u64_small by lia. split; [|lia]. repeat split; try lia; [done|].
      intros r Hr. destruct (decide (hi < r)); [apply Hbelow; lia|].
      pose proof (key_at_anti mid r ltac:(lia) ltac:(lia)). lia.
    + split; [by eapply list_elem_of_lookup_2|lia].
  - apply reads_ret. split; [lia|]. split; [done|]. intros r Hr. apply Hbelow. lia.
Qed.

Abbreviation dist r := (Z.abs (key_at r - target)).

Lemma key_at_distance r x : l !! Z.to_nat r = Some x -> key_distance target x = dist r.
Proof using Type. unfold key_distance, key_at. by intros ->. Qed.

(** The nearest element is the one found or one of its two neighbours. *)
Lemma narrowed_nearest lo r :
  narrowed lo -> 0 <= r < n ->
  dist lo <= dist r \/ (r < lo /\ dist (lo - 1) <= dist r) \/ (lo < r /\ dist (lo + 1) <= dist r).
Proof using Hkeys.
  intros (Hlo & Habove & Hbelow) Hr.
  destruct (Z.lt_trichotomy r lo) as [Hlt|[->|Hgt]]; [|by left|].
  - right; left. split; [done|]. pose proof (key_at_anti r (lo - 1) ltac:(lia) ltac:(lia)).
    pose proof (Habove (lo - 1) ltac:(lia)). lia.
  - right; right. split; [done|]. pose proof (key_at_anti (lo + 1) r ltac:(lia) ltac:(lia)).
    pose proof (Hbelow (lo + 1) ltac:(lia)). lia.
Qed.

(** A candidate: an element with its distance. *)
Definition candidate (b : T * Z) : Prop := b.1 ∈ l /\ b.2 = key_distance target b.1.

Lemma closer_candidate b r :
  0 <= r -> candidate b ->
  let b' := TimeSeries.closer target b (l !! Z.to_nat r) in
  candidate b' /\ b'.2 <= b.2 /\ (r < n -> b'.2 <= dist r).
Proof using Htarget.
  intros Hr Hb. unfold TimeSeries.closer. destruct (l !! Z.to_nat r) as [x|] eqn:Ex.
  - pose proof (key_at_distance r x Ex) as Hd. rewrite key_diff_distance by done.
    zcase; simpl; (split; [|lia]); [|done]. split; [by eapply list_elem_of_lookup_2|done].
  - apply lookup_ge_None in Ex. split; [done|]. split; [lia|]. lia.
Qed.

Lemma filter_closest max_distance b :
  candidate b -> (forall r, 0 <= r < n -> b.2 <= dist r) ->
  closest l target max_distance (TimeSeries.filter_distance target max_distance b.1).
Proof using Htarget.
  intros [Hin Hb] Hmin. unfold TimeSeries.filter_distance.
  assert (Hall : forall z, z ∈ l -> key_distance target b.1 <= key_distance target z).
  { intros z Hz. destruct (elem_key z Hz) as (r & Hr & Ez & _). rewrite (key_at_distance r z Ez).
    rewrite <- Hb. by apply Hmin. }
  destruct max_distance as [md|]; [|simpl; auto]. rewrite key_diff_distance by done. zcase; simpl.
  - intros z Hz. specialize (Hall z Hz). lia.
  - auto.
Qed.

Lemma reads_find_closest max_distance :
  (forall md, max_distance = Some md -> 0 <= md) ->
  reads (TimeSeries.find_closest N target max_distance) (closest l target max_distance).
Proof using HM Hview Hkeys Htarget.
  intros Hmd. pose proof (view_small _ Hview) as Hsmall. unfold TimeSeries.find_closest.
  eapply reads_bind; [apply (view_available _ Hview)|]. intros avail <-.
  reads_if; [apply reads_ret; destruct l; [intros z Hz; by apply not_elem_of_nil in Hz|simpl in *; lia]|].
  eapply reads_bind; [apply reads_binary_search; lia|]. intros [x| |lo]; [| done |].
  { intros [Hx Hk]. apply reads_ret. simpl. split; [done|]. unfold key_distance. rewrite Hk, Z.sub_diag.
    split; [|lia]. destruct max_distance as [md|]; [|done]. simpl. by apply Hmd. }
  intros Hn. destruct (Hn) as (Hlo & _). destruct (lookup_at lo ltac:(lia)) as (x & Ex & Hx).
  eapply reads_bind; [apply (view_try_get _ Hview); lia|]. intros o <-. rewrite Ex.
  assert (Hc : candidate (x, TimeSeries.key_diff (T:=T) (extractor x) target)).
  { split; [by eapply list_elem_of_lookup_2|]. by apply key_diff_distance. }
  set (b0 := (x, _)) in *.
  assert (H0 : b0.2 = dist lo) by (unfold b0; simpl; rewrite key_diff_distance by done; by apply key_at_distance).
  clearbody b0.
  apply reads_bind with (R := fun b => candidate b /\ b.2 <= dist lo /\ (0 < lo -> b.2 <= dist (lo - 1))).
  { reads_if; [|apply reads_ret; split; [done|lia]]. rewrite u64_small by lia.
    eapply reads_bind; [apply (view_try_get _ Hview); lia|]. intros o <-. apply reads_ret.
    destruct (closer_candidate b0 (lo - 1) ltac:(lia) Hc) as (? & ? & ?). split; [done|]. lia. }
  intros b1 (Hb1 & H1 & H1').
  apply reads_bind with (R := fun b => candidate b /\ b.2 <= dist lo /\ (0 < lo -> b.2 <= dist (lo - 1)) /\ (lo + 1 < n -> b.2 <= dist (lo + 1))).
  { rewrite u64_small by lia. reads_if; [|apply reads_ret; split; [done|lia]].
    eapply reads_bind; [apply (view_try_get _ Hview); lia|]. intros o <-. apply reads_ret.
    destruct (closer_candidate b1 (lo + 1) ltac:(lia) Hb1) as (? & ? & ?). split; [done|]. lia. }
  intros b2 (Hb2 & H2 & H2' & H2''). apply reads_ret, filter_closest; [done|].
  intros r Hr. destruct (narrowed_nearest lo r Hn Hr) as [?|[[? ?]|[? ?]]]; lia.
Qed.

(** ** The bracketing pair *)

Lemma reads_bracket_search :
  1 < n -> target < key_at 0 -> key_at (n - 1) <= target ->
  reads (TimeSeries.bracket_search (T:=T) N target n)
    (fun s => exists lo, s = Some (lo, lo + 1) /\ 0 <= lo /\ lo + 1 < n /\
              key_at (lo + 1) <= target < key_at lo).
Proof using HM Hview.
  intros Hn Hnew Hold. pose proof (view_small _ Hview). unfold TimeSeries.bracket_search.
  rewrite (u64_small (n - 1)) by lia.
  apply reads_iter with
    (I := fun '(lo, hi) => 0 <= lo < hi /\ hi < n /\ key_at hi <= target < key_at lo)
    (size := fun '(lo, hi) => Z.to_nat (hi - lo)); [done|repeat split; lia|].
  intros [lo hi] (Hlo & Hhi & Hk). rewrite (u64_small (lo + 1)) by lia. reads_if.
  - destruct (midpoint lo hi ltac:(lia) ltac:(lia)) as (-> & _ & Hmid). specialize (Hmid ltac:(lia)).
    set (mid := lo + (hi - lo) / 2) in *.
    eapply reads_bind; [apply (view_try_get _ Hview); lia|]. intros o <-. apply reads_ret.
    destruct (lookup_at mid ltac:(lia)) as (x & -> & Hx). rewrite <- Hx.
    zcase; (split; [|lia]); lia.
  - apply reads_ret. exists lo. replace hi with (lo + 1) in * by lia. split; [done|lia].
Qed.

(** Two neighbours around the target bracket it. *)
Lemma neighbours_bracket lo b a :
  0 <= lo -> l !! Z.to_nat lo = Some a -> l !! Z.to_nat (lo + 1) = Some b ->
  lo + 1 < n -> key_at (lo + 1) <= target < key_at lo ->
  brackets l target (Some (MkPair b a (TimeSeries.interp_alpha (T:=T) target (extractor b) (extractor a)))).
Proof using Hkeys Htarget.
  intros Hlo Ea Eb Hn Hk. unfold key_at in Hk. rewrite Ea, Eb in Hk. simpl.
  destruct (interp_alpha_unit (T:=T) target (extractor b) (extractor a)) as [Hu Hz];
    [done|apply extractor_ok|apply extractor_ok|lia|lia|].
  split; [by eapply list_elem_of_lookup_2|]. split; [by eapply list_elem_of_lookup_2|].
  split; [lia|]. split; [|done].
  intros z Hz'. destruct (elem_key z Hz') as (r & Hr & Er & <-).
  destruct (decide (r <= lo)).
  - right. pose proof (key_at_anti r lo ltac:(lia) ltac:(lia)) as Hr'. unfold key_at at 1 in Hr'.
    by rewrite Ea in Hr'.
  - left. pose proof (key_at_anti (lo + 1) r ltac:(lia) ltac:(lia)) as Hr'. unfold key_at at 2 in Hr'.
    by rewrite Eb in Hr'.
Qed.

(** An element with the very key brackets by itself. *)
Lemma exact_brackets x : x ∈ l -> extractor x = target -> brackets l target (Some (MkPair x x f64_zero)).
Proof using Type.
  intros Hx E. simpl. repeat split; try done; try lia; intros; lia.
Qed.

Lemma reads_find_interpolation_pair :
  reads (TimeSeries.find_interpolation_pair (T:=T) N target) (brackets l target).
Proof using HM Hview Hkeys Htarget.
  pose proof (view_small _ Hview). unfold TimeSeries.find_interpolation_pair.
  eapply reads_bind; [apply (view_available _ Hview)|]. intros avail <-.
  reads_if; [apply reads_ret; left; lia|].
  rewrite (u64_small (n - 1)) by lia.
  destruct (lookup_at 0 ltac:(lia)) as (xn & En & Hn).
  destruct (lookup_at (n - 1) ltac:(lia)) as (xo & Eo & Ho).
  eapply reads_bind; [apply (view_try_get _ Hview); lia|]. intros o <-. rewrite En.
  eapply reads_bind; [apply (view_try_get _ Hview); lia|]. intros o <-. rewrite Eo.
  destruct ((target >? _) || _) eqn:Erange.
  { apply reads_ret. right. apply orb_true_iff in Erange as [E|E]; zbool; [right|left]; intros z Hz;
      destruct (elem_key z Hz) as (r & Hr & _ & <-).
    - pose proof (key_at_anti 0 r ltac:(lia) ltac:(lia)). lia.
    - pose proof (key_at_anti r (n - 1) ltac:(lia) ltac:(lia)). lia. }
  apply orb_false_iff in Erange as [? ?]. zbool.
  reads_if; [apply reads_ret, exact_brackets; [by eapply list_elem_of_lookup_2|lia]|].
  reads_if; [apply reads_ret, exact_brackets; [by eapply list_elem_of_lookup_2|lia]|].
  eapply reads_bind; [apply reads_bracket_search; lia|].
  intros s (lo & -> & Hlo & Hlt & Hk).
  destruct (lookup_at lo ltac:(lia)) as (a & Ea & Ha).
  destruct (lookup_at (lo + 1) ltac:(lia)) as (b & Eb & Hb).
  eapply reads_bind; [apply (view_try_get _ Hview); lia|]. intros o <-. rewrite Ea.
  eapply reads_bind; [apply (view_try_get _ Hview); lia|]. intros o <-. rewrite Eb.
  apply reads_ret. rewrite (proj2 (Z.eqb_neq _ _)) by lia. by eapply neighbours_bracket.
Qed.

(** ** Freshness *)

Lemma reads_get_latest_if_fresh min_key :
  reads (TimeSeries.get_latest_if_fresh (T:=T) N min_key)
    (eq (match l with
         | x :: _ => if extractor x >=? min_key then Some x else None
         | [] => None
         end)).
Proof using Hview.
  clear Hkeys. unfold TimeSeries.get_latest_if_fresh.
  eapply reads_bind; [apply (view_available _ Hview)|]. intros avail <-.
  destruct l as [|x l'] eqn:El; [by apply reads_ret|].
  rewrite (proj2 (Z.eqb_neq _ _)) by (simpl; lia).
  eapply reads_bind; [apply (view_try_get _ Hview); lia|]. intros o <-. by apply reads_ret.
Qed.
End Rest.

(** ** A live buffer: every answer comes, and is an element of [good] *)
Section Live.
Context {T : Set} `{FlatType T} `{HK : KeyExtractor T} (N : Z) (good : T -> Prop).
Context (J : forall A : Set, prog A -> (A -> Prop) -> Prop) `{HJ : AnswerLogic J}.
Abbreviation answers p P := (J _ p P).

Definition opt_good (o : option T) : Prop := forall x, o = Some x -> good x.

Record live_view : Prop := {
  live_capacity : 0 < N < 2 ^ 62;
  live_available : answers (CyclicBufferReader.available N) (fun a => 0 <= a <= N);
  live_try_get r : 0 <= r -> answers (TimeSeries.try_get N r) opt_good
}.

Context (Hview : live_view) (target : Z).

Lemma opt_good_some x : good x -> opt_good (Some x).
Proof using Type. by intros ? ? [= ->]. Qed.

Lemma opt_good_none : opt_good None.
Proof using Type. by intros x. Qed.

#[local] Hint Resolve opt_good_some opt_good_none : shm.

(** Scans over the reverse indices end after [avail] rounds. *)
Lemma live_scan {A : Set} avail (body : A -> T -> A) (R : A -> Prop) (a0 : A) :
  0 <= avail <= N -> R a0 -> (forall a x, R a -> good x -> R (body a x)) ->
  answers (TimeSeries.scan N avail body a0) R.
Proof using HJ Hview.
  intros Hav Ha0 Hbody. pose proof (live_capacity Hview).
  apply answers_iter with (I := fun '(i, a) => 0 <= i <= avail /\ R a)
                        (size := fun '(i, a) => Z.to_nat (avail - i)); [by split; [lia|]|].
  intros [i a] [Hi Ha]. answers_if.
  - eapply answers_bind; [apply (live_try_get Hview); lia|]. intros o Ho. apply answers_ret.
    rewrite u64_small by lia. split; [|lia]. split; [lia|]. destruct o; auto.
  - by apply answers_ret.
Qed.

Lemma live_closest_linear avail max_distance :
  0 <= avail <= N -> answers (TimeSeries.find_closest_linear N target avail max_distance) opt_good.
Proof using HJ Hview.
  intros Hav. unfold TimeSeries.find_closest_linear.
  apply answers_bind with (R := fun b : option T * Z => opt_good b.1).
  { apply live_scan; [done|auto with shm|]. intros b x Hb Hx. unfold TimeSeries.nearest.
    zcase; simpl; auto with shm. }
  intros [[x|] d] Hb; apply answers_ret; destruct max_distance; try done. by zcase.
Qed.

Lemma live_binary_search avail :
  0 < avail <= N ->
  answers (TimeSeries.binary_search N target avail)
    (fun s => match s with
              | TimeSeries.Exact x => good x
              | TimeSeries.Overwritten => True
              | TimeSeries.Stopped lo => 0 <= lo < avail
              end).
Proof using HJ Hview.
  intros Hav. pose proof (live_capacity Hview). unfold TimeSeries.binary_search.
  rewrite (u64_small (avail - 1)) by lia.
  apply answers_iter with (I := fun '(lo, hi) => 0 <= lo < avail /\ 0 <= hi < avail /\ lo <= hi + 1)
    (size := fun '(lo, hi) => Z.to_nat (hi - lo + 1)); [repeat split; lia|].
  intros [lo hi] (Hlo & Hhi & Hle). answers_if; [|apply answers_ret; lia].
  pose proof (Z.div_mod (hi - lo) 2 ltac:(lia)). pose proof (Z.mod_pos_bound (hi - lo) 2 ltac:(lia)).
  rewrite (u64_small (hi - lo)), u64_small by lia. set (mid := lo + (hi - lo) / 2) in *.
  eapply answers_bind; [apply (live_try_get Hview); lia|]. intros [x|] Ho; apply answers_ret; [|done].
  zcase; [rewrite u64_small by lia; lia|]. zcase; [|by apply Ho].
  zcase; [lia|]. rewrite u64_small by lia. lia.
Qed.

Lemma live_closer b o : opt_good o -> good b.1 -> good (TimeSeries.closer target b o).1.
Proof using Type. unfold TimeSeries.closer. intros Ho Hb. destruct o; [|done]. zcase; [by apply Ho|done]. Qed.

Lemma live_find_closest max_distance :
  answers (TimeSeries.find_closest N target max_distance) opt_good.
Proof using HJ Hview.
  pose proof (live_capacity Hview). unfold TimeSeries.find_closest.
  eapply answers_bind; [apply (live_available Hview)|]. intros avail Hav; cbv beta in Hav.
  answers_if; [apply answers_ret; auto with shm|].
  eapply answers_bind; [apply live_binary_search; lia|]. intros [x| |lo] Hs; simpl in Hs.
  { apply answers_ret. auto with shm. }
  { by apply live_closest_linear. }
  eapply answers_bind; [apply (live_try_get Hview); lia|]. intros [x|] Hx; [|by apply live_closest_linear].
  assert (Hstep : forall (b : T * Z) r (c : bool), 0 <= r -> good b.1 ->
    answers (if c then prev <- TimeSeries.try_get N r ;; Ret (TimeSeries.closer target b prev) else Ret b)
          (fun b => good b.1)).
  { intros b r c Hr Hb. destruct c; [|by apply answers_ret].
    eapply answers_bind; [by apply (live_try_get Hview)|]. intros o Ho. apply answers_ret. by apply live_closer. }
  eapply answers_bind; [apply Hstep; [apply u64_range|simpl; by apply Hx]|]. intros b1 Hb1; cbv beta in Hb1.
  eapply answers_bind; [apply Hstep; [apply u64_range|exact Hb1]|]. intros b2 Hb2; cbv beta in Hb2.
  apply answers_ret. unfold TimeSeries.filter_distance. destruct max_distance; [zcase|]; auto with shm.
Qed.

Definition pair_good (o : option (InterpPair T)) : Prop :=
  forall p, o = Some p -> good (before p) /\ good (after p).

Lemma pair_good_some b a f : good b -> good a -> pair_good (Some (MkPair b a f)).
Proof using Type. by intros ? ? p [= <-]. Qed.

Lemma pair_good_none : pair_good None.
Proof using Type. by intros p. Qed.

#[local] Hint Resolve pair_good_some pair_good_none : shm.

Lemma live_interpolation_linear avail :
  0 <= avail <= N -> answers (TimeSeries.find_interpolation_pair_linear N target avail) pair_good.
Proof using HJ Hview.
  intros Hav. unfold TimeSeries.find_interpolation_pair_linear.
  eapply answers_bind with (R := fun s : (option T * Z) * (option T * Z) => opt_good s.1.1 /\ opt_good s.2.1).
  { apply live_scan; [done|split; auto with shm|]. intros s x [H1 H2] Hx.
    unfold TimeSeries.enclose, TimeSeries.tighten. simpl.
    split; repeat zcase; simpl; auto with shm. }
  intros [[[b|] ?] [[a|] ?]] [Hb Ha]; apply answers_ret; auto with shm.
Qed.

Lemma live_bracket_search avail :
  1 < avail <= N ->
  answers (TimeSeries.bracket_search (T:=T) N target avail)
    (fun s => forall lo hi, s = Some (lo, hi) -> 0 <= lo /\ 0 <= hi).
Proof using HJ Hview.
  intros Hav. pose proof (live_capacity Hview). unfold TimeSeries.bracket_search.
  rewrite (u64_small (avail - 1)) by lia.
  apply answers_iter with (I := fun '(lo, hi) => 0 <= lo < hi /\ hi < avail)
    (size := fun '(lo, hi) => Z.to_nat (hi - lo)); [repeat split; lia|].
  intros [lo hi] (Hlo & Hhi). rewrite (u64_small (lo + 1)) by lia.
  answers_if; [|apply answers_ret; intros ? ? [= <- <-]; lia].
  pose proof (Z.div_mod (hi - lo) 2 ltac:(lia)). pose proof (Z.mod_pos_bound (hi - lo) 2 ltac:(lia)).
  rewrite (u64_small (hi - lo)), u64_small by lia. set (mid := lo + (hi - lo) / 2) in *.
  eapply answers_bind; [apply (live_try_get Hview); lia|]. intros [x|] Ho; apply answers_ret; [|done].
  zcase; lia.
Qed.

Lemma live_find_interpolation_pair :
  answers (TimeSeries.find_interpolation_pair N target) pair_good.
Proof using HJ Hview.
  pose proof (live_capacity Hview). unfold TimeSeries.find_interpolation_pair.
  eapply answers_bind; [apply (live_available Hview)|]. intros avail Hav; cbv beta in Hav.
  answers_if; [apply answers_ret; auto with shm|].
  eapply answers_bind; [apply (live_try_get Hview); lia|]. intros nw Hn.
  eapply answers_bind; [apply (live_try_get Hview), u64_range|]. intros od Hold.
  destruct nw as [nw|]; [|apply answers_ret; auto with shm].
  destruct od as [od|]; [|apply answers_ret; auto with shm].
  specialize (Hn nw eq_refl). specialize (Hold od eq_refl).
  do 3 (match goal with |- J _ (if ?c then _ else _) _ => destruct c end; [apply answers_ret; auto with shm|]).
  eapply answers_bind; [apply live_bracket_search; lia|]. intros [[lo hi]|] Hs;
    [destruct (Hs lo hi eq_refl)|apply live_interpolation_linear; lia].
  eapply answers_bind; [by apply (live_try_get Hview)|]. intros a Ha.
  eapply answers_bind; [by apply (live_try_get Hview)|]. intros b Hb.
  apply answers_ret. destruct a, b; auto with shm. destruct (_ =? _); auto with shm.
Qed.

Lemma live_get_latest_if_fresh min_key :
  answers (TimeSeries.get_latest_if_fresh N min_key)
    (fun o => forall x, o = Some x -> good x /\ min_key <= extractor x).
Proof using HJ Hview.
  unfold TimeSeries.get_latest_if_fresh.
  eapply answers_bind; [apply (live_available Hview)|]. intros avail Hav; cbv beta in Hav.
  answers_if; [by apply answers_ret|].
  eapply answers_bind; [apply (live_try_get Hview); lia|]. intros [y|] Ho; apply answers_ret; [|done].
  zcase; [|done]. intros x [= <-]. auto.
Qed.
End Live.
