(* ===== verification/TimeSeriesRing.v ===== *)
(** * Time series over the cyclic buffer: properties

    The cyclic buffer implements both interfaces of [TimeSeriesFacts]: at
    rest it shows the newest [N] elements, and while the writer inserts it
    answers every [try_get] in bounded time with an inserted element. *)
From S2P Require Import Prelude Memory Prog History Reads FlatType SeqCount Seqlock CyclicBuffer CyclicRing CyclicReaders CyclicConcurrent Stamped SanitizedKey Float TimeSeries TimeSeriesFacts.

(** The elements a ring of [N] slots keeps of [ds], newest first. *)
Definition kept {T : Set} (N : Z) (ds : list T) : list T := take (Z.to_nat N) (reverse ds).

Lemma kept_lookup {T : Set} (N : Z) (ds : list T) r x :
  kept N ds !! r = Some x <->
  Z.of_nat r < Z.min (Z.of_nat (length ds)) N /\ ds !! (length ds - 1 - r)%nat = Some x.
Proof.
  unfold kept. rewrite lookup_take_Some. split.
  - intros [Hr Hlt]. apply reverse_lookup_Some in Hr as [Hr Hr']. split; [lia|].
    by replace (length ds - 1 - r)%nat with (length ds - S r)%nat by lia.
  - intros [Hlt Hr]. split; [|lia]. apply reverse_lookup_Some. split; [|lia].
    by replace (length ds - S r)%nat with (length ds - 1 - r)%nat by lia.
Qed.

Lemma length_kept {T : Set} (N : Z) (ds : list T) :
  0 <= N -> Z.of_nat (length (kept N ds)) = Z.min (Z.of_nat (length ds)) N.
Proof. intros. unfold kept. rewrite length_take, length_reverse. lia. Qed.

(** Elements are inserted with keys that do not decrease. *)
Definition keys_ascend {T : Set} `{KeyExtractor T} (ds : list T) : Prop :=
  forall i j x y, (i <= j)%nat -> ds !! i = Some x -> ds !! j = Some y -> extractor x <= extractor y.

Lemma kept_descend {T : Set} `{KeyExtractor T} N (ds : list T) : keys_ascend ds -> keys_descend (kept N ds).
Proof.
  intros Ha i j x y Hij Hx Hy. apply kept_lookup in Hx as [_ Hx]. apply kept_lookup in Hy as [_ Hy].
  eapply Ha; [|exact Hy|exact Hx]. lia.
Qed.

(** ** At rest *)
Section Rest.
Context {T : Set} `{FlatType T} `{HK : KeyExtractor T} {N : Z} {HR : RingConfig T N}.

Lemma ring_rest_view (ds : list T) e t0 m :
  steady e t0 m -> Z.of_nat (length ds) < 2 ^ 62 ->
  ring_at (N:=N) (session_elem ds) (session_init (T:=T)) (3 * Z.of_nat (length ds)) m ->
  rest_view (T:=T) N e t0 (eq m) (kept N ds).
Proof using HR.
  intros Hst Hlen Hm. pose proof (capacity_pos (T:=T) (N:=N)) as HN.
  split.
  - rewrite length_kept; lia.
  - intros t m' Ht <-. eapply wp_available; [by eapply steady_later|exact Hm|lia|].
    intros t' l Ht'. rewrite length_kept by lia. done.
  - intros r Hr t m' Ht <-. eapply wp_try_get; [by eapply steady_later|exact Hm|lia|done|done|].
    intros t' l Ht'. split; [done|]. split; [done|]. zcase.
    + apply kept_lookup. split; [lia|].
      destruct (lookup_lt_is_Some_2 ds (length ds - 1 - Z.to_nat r)%nat) as [x Ex]; [lia|].
      rewrite Ex. unfold session_elem. rewrite nth_lookup.
      replace (Z.to_nat (Z.of_nat (length ds) - 1 - r)) with (length ds - 1 - Z.to_nat r)%nat by lia.
      by rewrite Ex.
    + destruct (kept N ds !! Z.to_nat r) eqn:E; [|done]. apply kept_lookup in E as [? _]. lia.
Qed.

(** Insert [ds] into a fresh region, then look something up. *)
Lemma wp_after_inserts (ds : list T) rc t A (p : prog A) (P : A -> Prop) :
  Z.of_nat (length ds) < 2 ^ 62 ->
  (forall t1 m1, rest_view (T:=T) N (quiet rc) t1 (eq m1) (kept N ds) ->
     reads (quiet rc) t1 (eq m1) p P) ->
  wp (quiet rc) (inserts N ds ;;; p) t (fresh (CyclicRegion.total_size T N)) (fun a _ _ _ => P a).
Proof using HR.
  intros Hlen Hp. apply wp_bind.
  apply (wp_inserts (session_elem ds) (session_init (T:=T))) with 0; [lia|apply ring_fresh| |].
  { intros i d Hi. unfold session_elem. rewrite Z.add_0_l, Nat2Z.id, nth_lookup. by rewrite Hi. }
  intros t1 m1 l1 _ Hm1. rewrite Z.add_0_l in Hm1.
  eapply wp_conseq; [apply (Hp t1 m1); [|lia|done]|by intros ? ? ? ? (_ & _ & ?)].
  apply ring_rest_view; [auto with shm|done|done].
Qed.

(** C20: After any inserts with non-decreasing keys, find_closest terminates
    and answers an element of the newest N whose key is at minimal distance
    from the target, if one lies within max_distance, and nothing otherwise;
    the binary search with its two neighbours equals exhaustive search. *)
Theorem find_closest_correct (ds : list T) (target : Z) (max_distance : option Z) rc t :
  keys_ascend ds -> Z.of_nat (length ds) < 2 ^ 62 -> 0 <= target < 2 ^ key_width T ->
  (forall md, max_distance = Some md -> 0 <= md) ->
  wp (quiet rc) (inserts N ds ;;; TimeSeries.find_closest N target max_distance) t
     (fresh (CyclicRegion.total_size T N))
     (fun ans _ _ _ => closest (kept N ds) target max_distance ans).
Proof using HR.
  intros Hk Hlen Ht Hmd. apply wp_after_inserts; [done|]. intros t1 m1 Hv.
  apply reads_find_closest; [by intros ? ? _ <-|done|by apply kept_descend|done|done].
Qed.

(** C21: After any inserts with non-decreasing keys, find_interpolation_pair
    answers two stored elements that bracket the target with no stored key
    strictly between them and an alpha in [0, 1] that is 0.0 on an exact
    match; it answers nothing only if fewer than two elements are stored or
    the target is out of their range. *)
Theorem find_interpolation_pair_correct (ds : list T) (target : Z) rc t :
  keys_ascend ds -> Z.of_nat (length ds) < 2 ^ 62 -> 0 <= target < 2 ^ key_width T ->
  wp (quiet rc) (inserts N ds ;;; TimeSeries.find_interpolation_pair (T:=T) N target) t
     (fresh (CyclicRegion.total_size T N))
     (fun ans _ _ _ => brackets (kept N ds) target ans).
Proof using HR.
  intros Hk Hlen Ht. apply wp_after_inserts; [done|]. intros t1 m1 Hv.
  apply reads_find_interpolation_pair; [by intros ? ? _ <-|done|by apply kept_descend|done].
Qed.

(** At rest, get_latest_if_fresh answers the last element inserted
    exactly when its key is at least min_key. *)
Theorem get_latest_if_fresh_correct (ds : list T) (min_key : Z) rc t :
  Z.of_nat (length ds) < 2 ^ 62 ->
  wp (quiet rc) (inserts N ds ;;; TimeSeries.get_latest_if_fresh (T:=T) N min_key) t
     (fresh (CyclicRegion.total_size T N))
     (fun ans _ _ _ => forall x, ans = Some x <-> ds !! pred (length ds) = Some x /\ min_key <= extractor x).
Proof using HR.
  intros Hlen. apply wp_after_inserts; [done|]. intros t1 m1 Hv.
  eapply reads_conseq; [by apply reads_get_latest_if_fresh|].
  intros a <- x. pose proof (capacity_pos (T:=T) (N:=N)) as HN.
  assert (Hl : kept N ds !! 0%nat = ds !! pred (length ds)).
  { unfold kept. rewrite lookup_take_lt by lia.
    destruct (decide (ds = [])) as [->|Hne]; [done|].
    rewrite reverse_lookup by (destruct ds; [done|simpl; lia]). f_equal. lia. }
  destruct (kept N ds) as [|y k]; simpl in Hl; rewrite <- Hl; [intuition congruence|].
  zcase; split.
  - intros [= ->]. done.
  - by intros [[= ->] _].
  - done.
  - intros [[= ->] ?]. lia.
Qed.
End Rest.

(** ** While the writer inserts *)
Section Live.
Context {T : Set} `{FlatType T} `{HK : KeyExtractor T} {N : Z} {HR : RingConfig T N}.
Context (ds : list T) (l : list mem) (m1 : mem).
Context (Hs : ring_session (N:=N) ds l m1) (Hlen : Z.of_nat (length ds) < 2 ^ 30).
Context (sched : nat -> nat) (Hsched : schedule sched) (rc : nat -> Z * Z).
Abbreviation env := (reader_env l m1 sched rc).
Abbreviation anytime := (reads env 0 (fun _ => True)).

(** A reader never waits: its attempts on a slot are bounded. *)
Lemma live_try_read_slot w r t0 (P : option T -> Prop) :
  0 <= r < N -> (forall i, ring_region (T:=T) (N:=N) (at_time l m1 i)) ->
  (forall t m bs t' m', (t0 <= t)%nat ->
     runs env (read_attempt (slot_seq_offset T ((w - 1 - r) mod N)) (slot_data_offset T ((w - 1 - r) mod N)) (sizeof T))
          t m (Some bs) t' m' -> P (Some (of_bytes bs))) ->
  P None ->
  reads env t0 (fun _ => True) (CyclicBufferReader.try_read_slot T ((w - 1 - r) mod N) default_retries) P.
Proof using HR.
  clear Hs Hlen Hsched ds. intros Hr Hreg HP Hnone. pose proof (capacity_pos (T:=T) (N:=N)) as HN.
  pose proof (Z.mod_pos_bound (w - 1 - r) N HN) as Hi.
  unfold CyclicBufferReader.try_read_slot, CyclicBufferReader.slot_seq, CyclicBufferReader.slot_data.
  apply reads_iter with (I := fun a => 0 <= a <= 5) (size := fun a => Z.to_nat (5 - a)); [done|lia|].
  intros a Ha. unfold default_retries in *. reads_if; [|by apply reads_ret].
  intros t m Ht _. apply wp_bind.
  destruct (read_attempt_finishes (slot_seq_offset T ((w - 1 - r) mod N)) (slot_data_offset T ((w - 1 - r) mod N)) (sizeof T)
              (fun t => at_time l m1 (sched t)) rc t m) as (o & t' & m' & Hrun).
  { intros s. by apply (ring_slot_ok (T:=T) (N:=N)). }
  exists o, t', m'. split; [done|]. pose proof (proj1 Hrun). apply wp_ret.
  split; [lia|]. split; [done|]. destruct o as [bs|].
  - by eapply HP; [|exact Hrun].
  - rewrite u32_small by lia. split; lia.
Qed.

Lemma ring_live_view : live_view (T:=T) N (fun x => x ∈ ds) (@reads env 0 (fun _ => True)).
Proof using HR Hs Hlen Hsched.
  pose proof (capacity_pos (T:=T) (N:=N)) as HN.
  destruct (ring_session_versions _ _ _ Hs) as (g & Hrange & Hmono & Hat & _).
  assert (Hreg : forall i, ring_region (T:=T) (N:=N) (at_time l m1 i)) by (intros i; apply (Hat i)).
  assert (Hload : forall t m, exists w, 0 <= w /\ w = done_at (g (sched t)) /\
            runs env (load64 acquire 0) t m w (S t) (at_time l m1 (sched t))).
  { intros t m. exists (done_at (g (sched t))).
    assert (Hld : runs env (load64 acquire 0) t m (ld64 (at_time l m1 (sched t)) 0) (S t) (at_time l m1 (sched t))).
    { apply runs_act. split; [|done]. simpl. by rewrite (ring_header_ok (T:=T) (N:=N)) by done. }
    destruct (session_load_total ds l m1 g Hlen Hrange Hat sched rc _ _ _ _ _ Hld) as [Hw _].
    rewrite Hw in Hld. split; [|split; [done|exact Hld]].
    apply Z.div_pos; [|lia]. by apply Hrange. }
  split.
  - destruct (capacity_pow2 (T:=T) (N:=N)) as (k & Hk & E). split; [done|]. rewrite E. apply Z.pow_lt_mono_r; lia.
  - intros t m _ _. unfold CyclicBufferReader.available, CyclicBufferReader.total_writes_ref. apply wp_bind.
    destruct (Hload t m) as (w & Hw & _ & Hrun). do 3 eexists. split; [exact Hrun|].
    apply wp_ret. split; [lia|]. split; [done|lia].
  - intros r Hr t m _ _. unfold TimeSeries.try_get, CyclicBufferReader.try_get. apply wp_bind.
    destruct (Hload t m) as (w & Hw & Ew & Hrun). do 3 eexists. split; [exact Hrun|].
    destruct (r >=? Z.min w N) eqn:E; zbool.
    { apply wp_ret. split; [lia|]. split; [done|]. by intros x. }
    rewrite <- (u64_small w) at 1.
    2:{ subst w. pose proof (Hrange (sched t)). unfold done_at. split; [done|].
        apply Z.div_lt_upper_bound; lia. }
    rewrite (reverse_slot (T:=T)). eapply wp_conseq.
    + eapply (live_try_read_slot w r (S t) (opt_good (fun x => x ∈ ds))); [lia|done| |by intros x|lia|done].
      intros s ms bs t' m' Hst Hr'.
      destruct (session_read_newest ds l m1 g Hlen Hrange Hmono Hat sched Hsched rc w r t s ms bs t' m')
        as (j & Hj & _); [lia|lia|done|lia|done|].
      intros x [= <-]. by eapply list_elem_of_lookup_2.
    + intros a t' m' l' (? & _ & ?). split; [lia|done].
Qed.
End Live.

Section Properties.
Context {T : Set} `{FlatType T} `{HK : KeyExtractor T} {N : Z} {HR : RingConfig T N}.

(** C22: While the writer inserts, under every interleaving, find_closest,
    find_interpolation_pair and get_latest_if_fresh terminate and answer only
    whole elements that were inserted, the last one only if its key reaches
    min_key. *)
Theorem lookups_wait_free (ds : list T) (l : list mem) (m1 : mem) sched rc t m target max_distance :
  ring_session (N:=N) ds l m1 -> Z.of_nat (length ds) < 2 ^ 30 -> schedule sched ->
  let env := reader_env l m1 sched rc in
  (exists ans t' m', runs env (TimeSeries.find_closest N target max_distance) t m ans t' m' /\
     forall x, ans = Some x -> x ∈ ds) /\
  (exists ans t' m', runs env (TimeSeries.find_interpolation_pair N target) t m ans t' m' /\
     forall p, ans = Some p -> before p ∈ ds /\ after p ∈ ds) /\
  (exists ans t' m', runs env (TimeSeries.get_latest_if_fresh N target) t m ans t' m' /\
     forall x, ans = Some x -> x ∈ ds /\ target <= extractor x).
Proof using HR.
  intros Hs Hlen Hsched env.
  pose proof (ring_live_view ds l m1 Hs Hlen sched Hsched rc) as Hv.
  pose proof (reads_logic env 0 (fun _ => True) (fun _ _ _ _ => I)) as Hlogic.
  assert (Hend : forall (A : Set) (p : prog A) P, reads env 0 (fun _ => True) p P ->
            exists a t' m', runs env p t m a t' m' /\ P a).
  { intros A p P Hp. destruct (Hp t m ltac:(lia) I) as (a & t' & m' & Hr & _ & _ & Ha). eauto. }
  split; [|split]; apply Hend; 
    [apply (live_find_closest N (fun x => x ∈ ds) _ Hv)|apply (live_find_interpolation_pair N (fun x => x ∈ ds) _ Hv)
    |apply (live_get_latest_if_fresh N (fun x => x ∈ ds) _ Hv)].
Qed.
End Properties.

(** ** Concrete series of stamped values *)
Module Witness.
Abbreviation sample := (Stamped uint64).
#[local] Instance config2 : RingConfig sample 2.
Proof. split; reflexivity. Qed.
#[local] Instance config4 : RingConfig sample 4.
Proof. split; reflexivity. Qed.

Definition at_key (k : Z) : sample := MkStamped (to_uint 8 k) (to_uint 8 0) (to_uint 8 (k * k)).
Definition rc (t : nat) : Z * Z := (0, 0).

(** The writer's session, computed. *)
Definition session (N : Z) (ds : list sample) : nat * mem * list mem :=
  let m0 := fresh (CyclicRegion.total_size sample N) in
  match run 1000 (quiet rc) (inserts N ds) 0 m0 with
  | Value _ t m => (t, m, hist t (quiet rc) (inserts N ds) 0 m0)
  | _ => (O, [], [])
  end.

Definition ds3 : list sample := at_key <$> [1000; 2000; 3000].
Definition ds6 : list sample := at_key <$> [10; 20; 30; 40; 50; 60].
Definition s3 : nat * mem * list mem := Eval vm_compute in session 2 ds3.
Definition s6 : nat * mem * list mem := Eval vm_compute in session 4 ds6.

Lemma session3 : ring_session (N:=2) ds3 s3.2 s3.1.2.
Proof. exists rc, s3.1.1. split; [apply run_runs with 100%nat|]; vm_compute; reflexivity. Qed.

Lemma session6 : ring_session (N:=4) ds6 s6.2 s6.1.2.
Proof. exists rc, s6.1.1. split; [apply run_runs with 200%nat|]; vm_compute; reflexivity. Qed.

Lemma ds6_ascend : keys_ascend ds6.
Proof.
  intros i j x y Hij Hx Hy.
  assert (Hi : (i < 6)%nat) by exact (lookup_lt_Some _ _ _ Hx).
  assert (Hj : (j < 6)%nat) by exact (lookup_lt_Some _ _ _ Hy).
  unfold ds6 in Hx, Hy.
  destruct i as [|[|[|[|[|[|i]]]]]]; try lia; destruct j as [|[|[|[|[|[|j]]]]]]; try lia;
    injection Hx as <-; injection Hy as <-; vm_compute; discriminate.
Qed.

Lemma find_closest_witness :
  wp (quiet rc) (inserts 4 ds6 ;;; TimeSeries.find_closest 4 33 (Some 5)) 0
     (fresh (CyclicRegion.total_size sample 4))
     (fun ans _ _ _ => closest (kept 4 ds6) 33 (Some 5) ans).
Proof.
  apply find_closest_correct; [exact ds6_ascend|reflexivity|simpl; lia|intros md [= <-]; lia].
Defined.

Lemma find_interpolation_pair_witness :
  wp (quiet rc) (inserts 4 ds6 ;;; TimeSeries.find_interpolation_pair (T:=sample) 4 33) 0
     (fresh (CyclicRegion.total_size sample 4))
     (fun ans _ _ _ => brackets (kept 4 ds6) 33 ans).
Proof.
  apply find_interpolation_pair_correct; [exact ds6_ascend|reflexivity|simpl; lia].
Defined.

Lemma get_latest_if_fresh_witness :
  wp (quiet rc) (inserts 4 ds6 ;;; TimeSeries.get_latest_if_fresh (T:=sample) 4 55) 0
     (fresh (CyclicRegion.total_size sample 4))
     (fun ans _ _ _ => forall x, ans = Some x <-> ds6 !! 5%nat = Some x /\ 55 <= extractor x).
Proof. apply (get_latest_if_fresh_correct ds6 55 rc 0). reflexivity. Defined.

Lemma lookups_wait_free_witness :
  exists ans t' m', runs (reader_env s6.2 s6.1.2 (fun t => t) rc) (TimeSeries.find_closest 4 25 None) 0 [] ans t' m' /\
     forall x, ans = Some x -> x ∈ ds6.
Proof.
  destruct (lookups_wait_free (N:=4) ds6 s6.2 s6.1.2 (fun t => t) rc 0 [] 25 None session6)
    as (Hc & _); [reflexivity|by intros s t|exact Hc].
Defined.

(** *** Two places where the lookups do not keep their promise

    The writer stopped inside its third insert, slot 0 odd for good: the
    closest element within 100 of the key 500 is said to be the one at 2000. *)
Lemma fallback_drops_max_distance :
  exists i t' m', runs (observing (fun _ => at_time s3.2 s3.1.2 i) rc)
    (TimeSeries.find_closest 2 500 (Some 100)) 0 [] (Some (at_key 2000)) t' m' /\
    100 < key_distance 500 (at_key 2000).
Proof.
  exists 70%nat, 86%nat, (at_time s3.2 s3.1.2 70). split; [|vm_compute; reflexivity].
  apply run_runs with 100%nat. vm_compute. reflexivity.
Qed.

(** Two inserts between the bracketing search and the reads of its two
    ends: the "pair" around the key 25 is 30 and 40, with a factor of more
    than a million millions. *)
Lemma pair_moves_under_inserts :
  exists sched t' m' (p : InterpPair sample), schedule sched /\
    runs (reader_env s6.2 s6.1.2 sched rc) (TimeSeries.find_interpolation_pair 4 25) 0 [] (Some p) t' m' /\
    extractor (before p) = 30 /\ extractor (after p) = 40 /\
    SFleb (f64_of_uint (10 ^ 12)) (alpha p) = true.
Proof.
  exists (fun t => if (t <? 100)%nat then 120%nat else 200%nat), 199%nat, s6.1.2.
  eexists. split; [|split; [apply run_runs with 300%nat; vm_compute; reflexivity|]].
  - intros s t Hst. destruct (Nat.ltb_spec s 100), (Nat.ltb_spec t 100); lia.
  - split; [|split]; vm_compute; reflexivity.
Qed.
End Witness.
