(* ===== verification/RingLog.v ===== *)
(** * The cyclic buffer as a growing list

    A view of a ring that a client with exclusive use works with: the list
    [ds] of everything inserted so far, oldest first.  [insert] appends to
    it, every reader's method is a function of it. *)
From S2P Require Import Prelude Memory Prog Equiv History Reads FlatType SeqCount Seqlock CyclicBuffer CyclicRing CyclicReaders CyclicConcurrent Stamped SanitizedKey Float TimeSeries TimeSeriesFacts TimeSeriesRing.

(** A program that only reads, at rest. *)
Lemma wp_reads {A : Set} e t0 t m (p : prog A) (P : A -> Prop) Q :
  reads e t0 (eq m) p P -> (t0 <= t)%nat -> (forall a t' l, P a -> Q a t' m l) -> wp e p t m Q.
Proof.
  intros Hp Ht HQ. eapply wp_conseq; [by apply Hp|]. intros a t' m' l (_ & <- & Ha). by apply HQ.
Qed.

Section Log.
Context {T : Set} `{FlatType T} {N : Z} {HR : RingConfig T N}.

(** A ring at rest depends on the elements inserted so far only. *)
Lemma ring_at_ext (elem elem' : Z -> T) init w m :
  0 <= w -> (forall j, 0 <= j < w -> elem j = elem' j) ->
  ring_at (N:=N) elem init (3 * w) m -> ring_at (N:=N) elem' init (3 * w) m.
Proof using HR.
  intros Hw Hext (Hr & Htw & Hs). pose proof (capacity_pos (T:=T) (N:=N)) as HN.
  split; [done|]. split; [done|]. intros i Hi. destruct (Hs i Hi) as [Hc Hv]. split; [done|].
  intros Hev. rewrite (Hv Hev). rewrite <- (Z.add_0_r (3 * w)), slot_version_at in * by lia.
  replace (if w mod N =? i then 0 else 0) with 0 in * by (by destruct (_ =? _)).
  rewrite Z.add_0_r, Z.mul_comm, Z.div_mul in * by lia.
  unfold slot_val. zcase; [done|]. f_equal. apply Hext.
  pose proof (slot_elem_lt N HN i w Hi Hw). unfold slot_elem in *. nia.
Qed.

Definition ring_log (ds : list T) (m : mem) : Prop :=
  ring_at (N:=N) (session_elem ds) (session_init (T:=T)) (3 * Z.of_nat (length ds)) m.

Lemma ring_log_fresh : ring_log [] (fresh (CyclicRegion.total_size T N)).
Proof using HR. apply ring_fresh. Qed.

Lemma session_elem_app ds d j : 0 <= j < Z.of_nat (length ds) -> session_elem (T:=T) ds j = session_elem (ds ++ [d]) j.
Proof using Type. intros Hj. unfold session_elem. rewrite app_nth1 by lia. done. Qed.

Lemma session_elem_last ds d : session_elem (T:=T) (ds ++ [d]) (Z.of_nat (length ds)) = d.
Proof using Type. unfold session_elem. by rewrite app_nth2, Nat2Z.id, Nat.sub_diag by lia. Qed.

Lemma wp_log_insert rc t m ds d Q :
  ring_log ds m -> (forall t' m' l, ring_log (ds ++ [d]) m' -> Q tt t' m' l) ->
  wp (quiet rc) (CyclicBufferWriter.insert N d) t m Q.
Proof using HR.
  intros Hm HQ. rewrite <- (session_elem_last ds d).
  apply (wp_insert (session_elem (ds ++ [d])) (session_init (T:=T)) rc t m (Z.of_nat (length ds))); [lia| |].
  - eapply ring_at_ext; [lia| |exact Hm]. intros j Hj. by apply session_elem_app.
  - intros t' m' l _ Hm'. apply HQ. unfold ring_log. rewrite length_app. simpl.
    by replace (Z.of_nat (length ds + 1)) with (Z.of_nat (length ds) + 1) by lia.
Qed.

(** ** The readers *)
Context (ds : list T) (m : mem) (Hm : ring_log ds m) (Hlen : Z.of_nat (length ds) < 2 ^ 62).
Context (rc : nat -> Z * Z) (t0 : nat).
Abbreviation reads := (reads (quiet rc) t0 (eq m)).

Lemma log_view : rest_view (T:=T) N (quiet rc) t0 (eq m) (kept N ds).
Proof using HR Hm Hlen. apply ring_rest_view; [auto with shm|done|exact Hm]. Qed.

Lemma length_kept_log : Z.of_nat (length (kept N ds)) = Z.min (Z.of_nat (length ds)) N.
Proof using HR. apply length_kept. pose proof (capacity_pos (T:=T) (N:=N)). lia. Qed.

Lemma reads_log_available : reads (CyclicBufferReader.available N) (eq (Z.min (Z.of_nat (length ds)) N)).
Proof using HR Hm Hlen.
  intros t m' _ <-. eapply wp_available; [auto with shm|exact Hm|lia|]. auto.
Qed.

Lemma reads_log_total : reads CyclicBufferReader.total_writes (eq (Z.of_nat (length ds))).
Proof using HR Hm Hlen.
  intros t m' _ <-. eapply wp_load_total; [auto with shm|exact Hm|lia|]. auto.
Qed.

Lemma reads_log_get_latest : reads (CyclicBufferReader.get_latest T N) (fun _ => True).
Proof using HR Hm Hlen.
  intros t m' _ <-. eapply wp_get_latest; [auto with shm|exact Hm|lia|]. auto.
Qed.

Lemma reads_log_get r :
  0 <= r < Z.min (Z.of_nat (length ds)) N -> reads (CyclicBufferReader.get T N r) (fun _ => True).
Proof using HR Hm Hlen.
  intros Hr t m' _ <-. eapply wp_get; [auto with shm|exact Hm|lia|done|]. auto.
Qed.

Lemma reads_log_try_get r :
  0 <= r ->
  reads (CyclicBufferReader.try_get T N r default_retries)
        (fun o => is_Some o <-> r < Z.min (Z.of_nat (length ds)) N).
Proof using HR Hm Hlen.
  intros Hr t m' _ <-. eapply wp_try_get; [auto with shm|exact Hm|lia|done|done|].
  intros t' l Ht. split; [done|]. split; [done|]. zcase; rewrite is_Some_alt; split; done || lia.
Qed.

(** The combined class answers the same. *)
Lemma reads_combined_get_latest : reads (CyclicBuffer.get_latest (T:=T) N) (fun _ => True).
Proof using HR Hm Hlen. eapply equiv_reads; [apply combined_get_latest|apply reads_log_get_latest]. Qed.

Lemma reads_combined_get r :
  0 <= r < Z.min (Z.of_nat (length ds)) N -> reads (CyclicBuffer.get (T:=T) N r) (fun _ => True).
Proof using HR Hm Hlen. intros Hr. eapply equiv_reads; [apply combined_get|by apply reads_log_get]. Qed.

Lemma reads_combined_try_get r :
  0 <= r ->
  reads (CyclicBuffer.try_get (T:=T) N r default_retries)
        (fun o => is_Some o <-> r < Z.min (Z.of_nat (length ds)) N).
Proof using HR Hm Hlen. intros Hr. eapply equiv_reads; [apply combined_try_get|by apply reads_log_try_get]. Qed.

(** *** [get] with any index

    The slot an out-of-range index leads to is a slot of the ring: it holds an
    older element, or zero bytes if none was ever written there. *)
Definition slot_content (i : Z) : T :=
  of_bytes (slot_val (N:=N) (session_elem ds) (session_init (T:=T)) i (slot_count N i (Z.of_nat (length ds)))).

Lemma slot_content_inserted i :
  0 <= i < N -> slot_content i ∈ ds \/ slot_content i = of_bytes (replicate (sizeof T) 0).
Proof using HR.
  clear Hm Hlen. intros Hi. pose proof (capacity_pos (T:=T) (N:=N)) as HN. unfold slot_content, slot_val.
  zcase; [by right|left]. rewrite of_to_bytes. unfold session_elem.
  pose proof (slot_elem_lt N HN i (Z.of_nat (length ds)) Hi ltac:(lia)).
  assert (0 <= slot_elem N i (slot_count N i (Z.of_nat (length ds)))) by (unfold slot_elem; nia).
  apply list_elem_of_In, nth_In. lia.
Qed.

Lemma reads_log_slot i :
  0 <= i < N -> reads (CyclicBufferReader.read_slot T i) (eq (slot_content i)).
Proof using HR Hm Hlen.
  intros Hi t m' _ <-. pose proof Hm as (Hreg & _ & Hs). specialize (Hs i Hi).
  rewrite <- (Z.add_0_r (3 * _)), slot_version_at in Hs by lia.
  replace (if _ =? i then 0 else 0) with 0 in Hs by (by destruct (_ =? i)).
  rewrite Z.add_0_r in Hs. unfold CyclicBufferReader.read_slot, CyclicBufferReader.slot_seq, CyclicBufferReader.slot_data. apply wp_bind, wp_forever.
  eapply wp_read_attempt; [auto with shm|by apply (ring_slot_ok (T:=T) (N:=N))|exact Hs|by rewrite Z.mul_comm, Z.mod_mul|].
  intros t' l Ht. apply wp_ret. cbn [quiet interfere] in *. split; [lia|]. split; [done|].
  unfold slot_content. by rewrite Z.mul_comm, Z.div_mul by lia.
Qed.

Lemma reads_log_get_any r :
  reads (CyclicBufferReader.get T N r)
        (fun x => x ∈ ds \/ x = of_bytes (replicate (sizeof T) 0)).
Proof using HR Hm Hlen.
  pose proof (capacity_pos (T:=T) (N:=N)) as HN. unfold CyclicBufferReader.get, CyclicBufferReader.total_writes_ref.
  eapply reads_bind; [apply reads_log_total|]. intros w <-.
  rewrite <- (u64_small (Z.of_nat (length ds))) at 1 by lia. rewrite (reverse_slot (T:=T)).
  eapply reads_conseq; [apply reads_log_slot, Z.mod_pos_bound; lia|].
  intros x <-. apply slot_content_inserted, Z.mod_pos_bound. lia.
Qed.
End Log.

Section AnyIndex.
Context {T : Set} `{FlatType T} {N : Z} {HR : RingConfig T N}.

(** Insert [ds] into a fresh region, then go on. *)
Lemma wp_inserts_then {A : Set} (ds : list T) rc t (p : prog A) (P : A -> Prop) :
  (forall t1 m1, ring_log (N:=N) ds m1 -> reads (quiet rc) t1 (eq m1) p P) ->
  wp (quiet rc) (inserts N ds ;;; p) t (fresh (CyclicRegion.total_size T N)) (fun a _ _ _ => P a).
Proof using HR.
  intros Hp. apply wp_bind.
  apply (wp_inserts (session_elem ds) (session_init (T:=T))) with 0; [lia|apply ring_fresh| |].
  { intros i d Hi. unfold session_elem. rewrite Z.add_0_l, Nat2Z.id, nth_lookup. by rewrite Hi. }
  intros t1 m1 l1 _ Hm1. rewrite Z.add_0_l in Hm1.
  eapply wp_reads; [by apply (Hp t1 m1)|lia|done].
Qed.

Lemma reads_get_kept (ds : list T) m rc t r x :
  ring_log (N:=N) ds m -> Z.of_nat (length ds) < 2 ^ 62 -> 0 <= r ->
  kept N ds !! Z.to_nat r = Some x -> reads (quiet rc) t (eq m) (CyclicBufferReader.get T N r) (eq x).
Proof using HR.
  intros Hm Hlen Hr Hx t1 m' _ <-. apply kept_lookup in Hx as [Hmin Hx].
  eapply wp_get; [auto with shm|exact Hm|lia|lia|]. intros t' l Ht. split; [done|]. split; [done|].
  unfold session_elem.
  replace (Z.to_nat _) with (length ds - 1 - Z.to_nat r)%nat by lia. by rewrite nth_lookup, Hx.
Qed.

Lemma reads_get_latest_kept (ds : list T) m rc t x :
  ring_log (N:=N) ds m -> Z.of_nat (length ds) < 2 ^ 62 ->
  kept N ds !! 0%nat = Some x -> reads (quiet rc) t (eq m) (CyclicBufferReader.get_latest T N) (eq x).
Proof using HR.
  intros Hm Hlen Hx t1 m' _ <-. apply kept_lookup in Hx as [Hmin Hx].
  eapply wp_get_latest; [auto with shm|exact Hm|lia|]. intros t' l Ht. split; [done|]. split; [done|].
  rewrite (proj2 (Z.eqb_neq _ _)) by lia. unfold session_elem.
  replace (Z.to_nat _) with (length ds - 1 - 0)%nat by lia. by rewrite nth_lookup, Hx.
Qed.

(** get stays within the region and terminates for every index, also
    beyond available(): undisturbed, it answers the element asked for when
    there is one, and otherwise some inserted element or the value of zero
    bytes. *)
Theorem get_any_index (ds : list T) rc t r :
  Z.of_nat (length ds) < 2 ^ 62 -> 0 <= r ->
  wp (quiet rc) (inserts N ds ;;; CyclicBufferReader.get T N r) t (fresh (CyclicRegion.total_size T N))
     (fun x _ _ _ =>
        match kept N ds !! Z.to_nat r with
        | Some y => x = y
        | None => x ∈ ds \/ x = of_bytes (replicate (sizeof T) 0)
        end).
Proof using HR.
  intros Hlen Hr. apply wp_inserts_then. intros t1 m1 Hm.
  destruct (kept N ds !! Z.to_nat r) as [y|] eqn:E.
  - eapply reads_conseq; [by eapply reads_get_kept|]. by intros x <-.
  - by apply (reads_log_get_any ds m1).
Qed.
End AnyIndex.

Module AnyIndexWitness.
#[local] Instance config2 : RingConfig uint32 2.
Proof. split; reflexivity. Qed.

(** Two slots, three elements: index 2 is out of range. *)
Definition ds : list uint32 := [to_uint 4 10; to_uint 4 11; to_uint 4 12].

Lemma get_any_index_witness :
  kept 2 ds !! 1%nat = Some (to_uint 4 11) /\ kept 2 ds !! 2%nat = None /\
  wp (quiet (fun _ => (0, 0))) (inserts 2 ds ;;; CyclicBufferReader.get uint32 2 2) 0
     (fresh (CyclicRegion.total_size uint32 2))
     (fun x _ _ _ => match kept 2 ds !! Z.to_nat 2 with
                     | Some y => x = y
                     | None => x ∈ ds \/ x = of_bytes (replicate (sizeof uint32) 0)
                     end).
Proof.
  split; [reflexivity|]. split; [reflexivity|].
  apply (get_any_index (N:=2) ds (fun _ => (0, 0)) 0 2); [simpl; lia|lia].
Defined.
End AnyIndexWitness.
