(* ===== verification/Fuzz.v ===== *)
(** * The fuzz harnesses: reading the input

    What fuzz_cyclic_buffer.cpp and fuzz_time_series.cpp share: [consume],
    the loop over the input, and the invariant of a ring in exclusive use
    that has taken at most one insert per input byte. *)
From S2P Require Import Prelude Memory Prog Reads FlatType SeqCount Seqlock CyclicBuffer CyclicRing CyclicReaders CyclicConcurrent Stamped RingLog.

(** [Stamped<double>]: a [double] is the 64 bits of its representation. *)
Abbreviation Elem := (Stamped uint64).
Definition Cap : Z := 16.

#[export] Instance fuzz_ring : RingConfig Elem Cap.
Proof. split; reflexivity. Qed.

Definition elem (ts seq val : Z) : Elem := MkStamped (to_uint 8 ts) (to_uint 8 seq) (to_uint 8 val).

(** [consume<U>] for an unsigned [U] of [n] bytes: the value and the rest of
    the input, or nothing (and the input stays as it is). *)
Definition consume (n : nat) (input : list Z) : option (Z * list Z) :=
  if (length input <? n)%nat then None else Some (le_val (take n input), drop n input).

(** [if (!consume(..., out)) out = dflt;] *)
Definition consume_or (n : nat) (dflt : Z) (input : list Z) : Z * list Z :=
  match consume n input with Some r => r | None => (dflt, input) end.

(** [if (cond) __builtin_trap();] *)
Definition trap_if (cond : bool) : prog unit := if cond then trap else Ret tt.

(** [while (remaining > 0) { consume op; switch ... }]; a step answers the
    local variables and what is left of the input. *)
Definition fuzz_loop {S : Set} (step : Z -> S -> list Z -> prog (S * list Z)) (s : S) (input : list Z) : prog S :=
  Iter (fun '(s, input) =>
    match consume 1 input with
    | None => Ret (inr s)
    | Some (op, rest) => r <- step op s rest ;; Ret (inl r)
    end) (s, input).

Lemma consume_some n input v rest :
  consume n input = Some (v, rest) ->
  (n <= length input)%nat /\ v = le_val (take n input) /\ rest = drop n input.
Proof.
  unfold consume. destruct (length input <? n)%nat eqn:E; [done|]. intros [= <- <-].
  apply Nat.ltb_ge in E. done.
Qed.

Lemma consume_suffix n input v rest :
  consume n input = Some (v, rest) -> rest `suffix_of` input /\ (length rest + n = length input)%nat.
Proof.
  intros (Hn & _ & ->)%consume_some. split; [|rewrite length_drop; lia].
  exists (take n input). by rewrite take_drop.
Qed.

Lemma consume_or_suffix n dflt input v rest : consume_or n dflt input = (v, rest) -> rest `suffix_of` input.
Proof.
  unfold consume_or. destruct (consume n input) as [[v' rest']|] eqn:E; intros [= <- <-]; [|done].
  by apply consume_suffix in E as [? _].
Qed.

Lemma suffix_bytes input rest : Forall byte_ok input -> rest `suffix_of` input -> Forall byte_ok rest.
Proof. intros Hb [k ->]. by apply Forall_app in Hb as [_ ?]. Qed.

Lemma consume_range n input v rest :
  Forall byte_ok input -> consume n input = Some (v, rest) -> 0 <= v < 2 ^ (8 * Z.of_nat n).
Proof.
  intros Hb (Hn & -> & ->)%consume_some.
  pose proof (le_val_range (take n input) ltac:(by apply Forall_take)) as Hr.
  by rewrite length_take, Nat.min_l in Hr by done.
Qed.

Lemma wp_trap_if e b t m Q : b = false -> Q tt t m [] -> wp e (trap_if b) t m Q.
Proof. intros -> HQ. by apply wp_ret. Qed.

(** An invariant of the loop that holds for the input still to come. *)
Lemma wp_fuzz_loop {S : Set} rc (step : Z -> S -> list Z -> prog (S * list Z)) (I : S -> list Z -> mem -> Prop)
    (Q : S -> mem -> Prop) :
  (forall op s input rest t m, I s input m -> consume 1 input = Some (op, rest) ->
     wp (quiet rc) (step op s rest) t m (fun r _ m' _ => I r.1 r.2 m' /\ r.2 `suffix_of` rest)) ->
  (forall s input m, I s input m -> consume 1 input = None -> Q s m) ->
  forall s input t m, I s input m ->
  wp (quiet rc) (fuzz_loop step s input) t m (fun s' _ m' _ => Q s' m').
Proof.
  intros Hstep Hend s input. remember (length input) as n eqn:En.
  revert s input En. induction n as [n IH] using lt_wf_ind; intros s input En t m HI.
  apply wp_iter. cbn [quiet interfere]. destruct (consume 1 input) as [[op rest]|] eqn:E.
  - apply wp_bind. eapply wp_conseq; [by eapply Hstep|].
    intros [s' input'] t1 m1 l1 [HI1 Hlen%suffix_length]. apply wp_ret. simpl in *.
    apply consume_suffix in E as [_ E]. apply (IH (length input')); [lia|done|done].
  - apply wp_ret. by eapply Hend.
Qed.

(** ** A ring with room for one insert per byte to come *)
Definition budget (input : list Z) (m : mem) : Prop :=
  Forall byte_ok input /\
  exists ds : list Elem, ring_log (N:=Cap) ds m /\ Z.of_nat (length ds + length input) < 2 ^ 62.

Lemma budget_fresh input :
  Forall byte_ok input -> Z.of_nat (length input) < 2 ^ 62 ->
  budget input (fresh (CyclicRegion.total_size Elem Cap)).
Proof. intros. split; [done|]. exists []. split; [apply (ring_log_fresh (T:=Elem))|done]. Qed.

Lemma budget_suffix input input' m : budget input m -> input' `suffix_of` input -> budget input' m.
Proof.
  intros (Hok & ds & Hm & Hb) Hl. split; [by eapply suffix_bytes|]. exists ds. split; [done|].
  apply suffix_length in Hl. lia.
Qed.

(** Reading leaves the ring as it is. *)
Lemma wp_budget {A : Set} rc (p : prog A) (P : A -> Prop) t m input (Q : A -> nat -> mem -> list mem -> Prop) :
  budget input m ->
  (forall ds : list Elem, ring_log (N:=Cap) ds m -> Z.of_nat (length ds) < 2 ^ 62 -> reads (quiet rc) t (eq m) p P) ->
  (forall a t' l, P a -> Q a t' m l) -> wp (quiet rc) p t m Q.
Proof.
  intros (_ & ds & Hm & Hb) Hp HQ. eapply wp_reads; [apply (Hp ds Hm); lia|lia|exact HQ].
Qed.

(** One byte of the input pays for one insert. *)
Lemma wp_budget_insert rc t m (d : Elem) input rest (Q : unit -> nat -> mem -> list mem -> Prop) :
  budget input m -> rest `suffix_of` input -> (length rest < length input)%nat ->
  (forall t' m' l, budget rest m' -> Q tt t' m' l) ->
  wp (quiet rc) (CyclicBufferWriter.insert Cap d) t m Q.
Proof.
  intros (Hok & ds & Hm & Hb) Hs Hl HQ. eapply wp_log_insert; [exact Hm|]. intros t' m' l Hm'. apply HQ.
  split; [by eapply suffix_bytes|]. exists (ds ++ [d]). split; [done|]. rewrite length_app. simpl. lia.
Qed.
