(* ===== verification/FuzzCyclicBuffer.v ===== *)
(** * fuzz_cyclic_buffer.cpp

    The harness as programs, one per block of the source, each on a region
    of its own; and the proof that no input makes it trap. *)
From S2P Require Import Prelude Memory Prog Equiv Reads FlatType SeqCount Seqlock CyclicBuffer CyclicRing CyclicReaders CyclicConcurrent Stamped RingLog Fuzz.

Module FuzzCyclicBuffer.
Definition try_get (r : Z) : prog (option Elem) := CyclicBuffer.try_get Cap r default_retries.
Definition reader_try_get (r : Z) : prog (option Elem) := CyclicBufferReader.try_get Elem Cap r default_retries.

(** *** size == 0 *)
Definition empty_block : prog unit :=
  CyclicBuffer.get_latest (T:=Elem) Cap ;;;
  CyclicBuffer.available Cap ;;;
  CyclicBuffer.total_writes ;;;
  try_get 0 ;;;
  try_get 999 ;;;
  Ret tt.

(** *** Same process *)
Definition insert_fuzzed (input : list Z) : prog (unit * list Z) :=
  match consume 8 input with
  | None => Ret (tt, input)
  | Some (ts, input) =>
      let '(val, input) := consume_or 8 0 input in
      let '(seq, input) := consume_or 8 0 input in
      CyclicBuffer.insert Cap (elem ts seq val) ;;;
      Ret (tt, input)
  end.

Definition get_fuzzed (input : list Z) : prog (unit * list Z) :=
  match consume 1 input with
  | None => Ret (tt, input)
  | Some (idx, input) =>
      a <- CyclicBuffer.available Cap ;;
      if a >? 0 then
        a <- CyclicBuffer.available Cap ;;
        CyclicBuffer.get (T:=Elem) Cap (idx mod a) ;;;
        Ret (tt, input)
      else Ret (tt, input)
  end.

Definition try_get_fuzzed (input : list Z) : prog (unit * list Z) :=
  match consume 2 input with
  | None => Ret (tt, input)
  | Some (idx, input) => try_get idx ;;; Ret (tt, input)
  end.

Definition check_counts : prog unit :=
  avail <- CyclicBuffer.available Cap ;;
  tw <- CyclicBuffer.total_writes ;;
  trap_if (avail >? Cap) ;;;
  trap_if (avail >? tw).

Definition extreme_timestamp (which : Z) : Z :=
  let k := which mod 4 in
  if k =? 0 then 0 else if k =? 1 then uint64_max else if k =? 2 then uint64_max / 2 else 1.

Definition double_3_14 : Z := 4614253070214989087.   (* 3.14, as bits *)

Definition insert_extreme (input : list Z) : prog (unit * list Z) :=
  match consume 1 input with
  | None => Ret (tt, input)
  | Some (which, input) =>
      CyclicBuffer.insert Cap (elem (extreme_timestamp which) which double_3_14) ;;;
      Ret (tt, input)
  end.

Definition same_step (op : Z) (s : unit) (input : list Z) : prog (unit * list Z) :=
  let k := op mod 6 in
  if k =? 0 then insert_fuzzed input
  else if k =? 1 then CyclicBuffer.get_latest (T:=Elem) Cap ;;; Ret (tt, input)
  else if k =? 2 then get_fuzzed input
  else if k =? 3 then try_get_fuzzed input
  else if k =? 4 then check_counts ;;; Ret (tt, input)
  else insert_extreme input.

Definition same_final : prog unit :=
  avail <- CyclicBuffer.available Cap ;;
  trap_if (avail >? Cap) ;;;
  if avail >? 0 then
    CyclicBuffer.get_latest (T:=Elem) Cap ;;;
    CyclicBuffer.get (T:=Elem) Cap 0 ;;;
    if avail >? 1 then CyclicBuffer.get (T:=Elem) Cap (u64 (avail - 1)) ;;; Ret tt else Ret tt
  else Ret tt.

Definition same_block (data : list Z) : prog unit := fuzz_loop same_step tt data ;;; same_final.

(** *** Writer and reader *)
Definition insert_counted (insert_count : Z) (input : list Z) : prog (Z * list Z) :=
  match consume 8 input with
  | None => Ret (insert_count, input)
  | Some (ts, input) =>
      let '(val, input) := consume_or 8 0 input in
      CyclicBufferWriter.insert Cap (elem ts insert_count val) ;;;
      Ret (u64 (insert_count + 1), input)
  end.

Definition cross_try_get (insert_count : Z) (input : list Z) : prog (Z * list Z) :=
  match consume 1 input with
  | None => Ret (insert_count, input)
  | Some (idx, input) => reader_try_get idx ;;; Ret (insert_count, input)
  end.

Definition cross_counts : prog unit :=
  avail <- CyclicBufferReader.available Cap ;;
  tw <- CyclicBufferReader.total_writes ;;
  trap_if (avail >? Cap) ;;;
  trap_if (avail >? tw).

Definition cross_step (op : Z) (insert_count : Z) (input : list Z) : prog (Z * list Z) :=
  let k := op mod 4 in
  if k =? 0 then insert_counted insert_count input
  else if k =? 1 then CyclicBufferReader.get_latest Elem Cap ;;; Ret (insert_count, input)
  else if k =? 2 then cross_try_get insert_count input
  else cross_counts ;;; Ret (insert_count, input).

Definition cross_block (data : list Z) : prog unit := fuzz_loop cross_step 0 data ;;; Ret tt.

(** *** Overflow *)

(** [for (i = 0; i + sizeof(double) <= size; i += sizeof(double))] *)
Definition overflow_round (data : list Z) (s : Z * Z) : prog (Z * Z + Z) :=
  let '(i, seq) := s in
  if u64 (i + 8) <=? Z.of_nat (length data) then
    let val := le_val (take 8 (drop (Z.to_nat i) data)) in
    CyclicBuffer.insert Cap (elem seq seq val) ;;;
    Ret (inl (u64 (i + 8), u64 (seq + 1)))
  else Ret (inr seq).

Definition overflow_inserts (data : list Z) : prog Z := Iter (overflow_round data) (0, 0).

(** [for (i = 0; i < avail; ++i) { if (!try_get(i)) trap; }] *)
Definition read_all (avail : Z) : prog unit :=
  Iter (fun i =>
    if i <? avail then
      e <- try_get i ;;
      trap_if (negb (bool_decide (is_Some e))) ;;;
      Ret (inl (u64 (i + 1)))
    else Ret (inr tt)) 0.

Definition overflow_block (data : list Z) : prog unit :=
  seq <- overflow_inserts data ;;
  avail <- CyclicBuffer.available Cap ;;
  trap_if (negb (avail =? (if seq <? Cap then seq else Cap))) ;;;
  read_all avail ;;;
  e <- try_get avail ;;
  trap_if (bool_decide (is_Some e)).

(** The blocks one run goes through. *)
Definition LLVMFuzzerTestOneInput (data : list Z) : list (prog unit) :=
  match data with
  | [] => [empty_block]
  | _ => [same_block data; cross_block data; overflow_block data]
  end.
End FuzzCyclicBuffer.
Import FuzzCyclicBuffer.

(** ** No block traps *)
Section Blocks.
Context (rc : nat -> Z * Z).
#[local] Hint Resolve reads_log_get_latest reads_log_available reads_log_total : shm.

(** A step that only reads, whatever it answers. *)
Lemma wp_reading {A : Set} (p : prog A) t m input Q :
  budget input m ->
  (forall ds : list Elem, ring_log (N:=Cap) ds m -> Z.of_nat (length ds) < 2 ^ 62 ->
     reads (quiet rc) t (eq m) p (fun _ => True)) ->
  (forall a t' l, Q a t' m l) -> wp (quiet rc) p t m Q.
Proof using Type. intros Hb Hp HQ. eapply wp_budget; [exact Hb|exact Hp|auto]. Qed.

Lemma reads_checked (b : bool) t m (k : prog unit) :
  b = false -> reads (quiet rc) t (eq m) k (fun _ => True) ->
  reads (quiet rc) t (eq m) (trap_if b ;;; k) (fun _ => True).
Proof using Type.
  intros -> Hk. eapply reads_bind with (R := fun _ => True); [by apply reads_ret|]. by intros _ _.
Qed.

(** The checks of the counts, on either object. *)
Lemma reads_counts (ds : list Elem) t m :
  ring_log (N:=Cap) ds m -> Z.of_nat (length ds) < 2 ^ 62 ->
  reads (quiet rc) t (eq m) cross_counts (fun _ => True).
Proof using Type.
  intros Hm Hl. unfold cross_counts.
  eapply reads_bind; [by apply reads_log_available|]. intros avail <-.
  eapply reads_bind; [by apply (reads_log_total (T:=Elem) (N:=Cap) ds)|]. intros tw <-.
  rewrite !Z.gtb_ltb. apply reads_checked; [apply Z.ltb_ge; lia|].
  rewrite (proj2 (Z.ltb_ge _ _)) by lia. by apply reads_ret.
Qed.

Lemma reads_check_counts (ds : list Elem) t m :
  ring_log (N:=Cap) ds m -> Z.of_nat (length ds) < 2 ^ 62 ->
  reads (quiet rc) t (eq m) check_counts (fun _ => True).
Proof using Type. apply reads_counts. Qed.

Lemma reads_fuzz_try_get (ds : list Elem) t m r :
  ring_log (N:=Cap) ds m -> Z.of_nat (length ds) < 2 ^ 62 -> 0 <= r ->
  reads (quiet rc) t (eq m) (try_get r) (fun o => is_Some o <-> r < Z.min (Z.of_nat (length ds)) Cap).
Proof using Type. intros. by apply (reads_combined_try_get ds m). Qed.

(** Both objects' [try_get] with an index from [n] bytes of input. *)
Lemma wp_fuzzed_index {S0 : Set} (get : Z -> prog (option Elem)) (s : S0) n t m input (Q : _ -> _ -> _ -> _ -> Prop) :
  budget input m ->
  (forall (ds : list Elem) r, ring_log (N:=Cap) ds m -> Z.of_nat (length ds) < 2 ^ 62 -> 0 <= r ->
     reads (quiet rc) t (eq m) (get r) (fun _ => True)) ->
  (forall input' t' l, budget input' m -> input' `suffix_of` input -> Q (s, input') t' m l) ->
  wp (quiet rc) (match consume n input with
                 | None => Ret (s, input)
                 | Some (idx, input) => get idx ;;; Ret (s, input)
                 end) t m Q.
Proof using Type.
  intros Hb Hget HQ. destruct (consume n input) as [[idx rest]|] eqn:E; [|by apply wp_ret, HQ].
  pose proof (consume_suffix _ _ _ _ E) as [Hs _]. pose proof (consume_range _ _ _ _ (proj1 Hb) E).
  apply wp_bind. eapply wp_reading; [exact Hb| |].
  - intros ds Hm Hl. by apply (Hget ds); [..|lia].
  - intros _ t' l. apply wp_ret, HQ; [by eapply budget_suffix|done].
Qed.

Lemma wp_insert_fuzzed t m input rest (Q : _ -> _ -> _ -> _ -> Prop) :
  budget input m -> rest `suffix_of` input -> (length rest < length input)%nat ->
  (forall input' t' m' l, budget input' m' -> input' `suffix_of` rest -> Q (tt, input') t' m' l) ->
  wp (quiet rc) (insert_fuzzed rest) t m Q.
Proof using Type.
  intros Hb Hs Hl HQ. unfold insert_fuzzed.
  destruct (consume 8 rest) as [[ts i1]|] eqn:E1; [|apply wp_ret, HQ; [by eapply budget_suffix|done]].
  pose proof (consume_suffix _ _ _ _ E1) as [S1 _].
  destruct (consume_or 8 0 i1) as [val i2] eqn:E2. pose proof (consume_or_suffix _ _ _ _ _ E2) as S2.
  destruct (consume_or 8 0 i2) as [seq i3] eqn:E3. pose proof (consume_or_suffix _ _ _ _ _ E3) as S3.
  assert (S : i3 `suffix_of` rest) by (etrans; [|exact S1]; by etrans).
  apply wp_bind. eapply equiv_wp; [symmetry; apply combined_insert|].
  eapply (wp_budget_insert rc t m _ input i3); [exact Hb|by etrans| |].
  - apply suffix_length in S. lia.
  - intros t' m' l Hm'. by apply wp_ret, HQ.
Qed.

Lemma wp_get_fuzzed t m input (Q : _ -> _ -> _ -> _ -> Prop) :
  budget input m ->
  (forall input' t' l, budget input' m -> input' `suffix_of` input -> Q (tt, input') t' m l) ->
  wp (quiet rc) (get_fuzzed input) t m Q.
Proof using Type.
  intros Hb HQ. unfold get_fuzzed. destruct (consume 1 input) as [[idx rest]|] eqn:E; [|by apply wp_ret, HQ].
  pose proof (consume_suffix _ _ _ _ E) as [Hs _].
  eapply wp_budget with (P := eq (tt, rest)); [exact Hb| |].
  - intros ds Hm Hl. eapply reads_bind; [by apply reads_log_available|]. intros a <-.
    reads_if; [|by apply reads_ret].
    eapply reads_bind; [by apply reads_log_available|]. intros a <-.
    eapply reads_bind with (R := fun _ => True); [|intros _ _; by apply reads_ret].
    apply (reads_combined_get ds m); [done|lia|]. apply Z.mod_pos_bound. lia.
  - intros _ t' l <-. apply HQ; [by eapply budget_suffix|done].
Qed.

Lemma wp_insert_extreme t m input rest (Q : _ -> _ -> _ -> _ -> Prop) :
  budget input m -> rest `suffix_of` input -> (length rest < length input)%nat ->
  (forall input' t' m' l, budget input' m' -> input' `suffix_of` rest -> Q (tt, input') t' m' l) ->
  wp (quiet rc) (insert_extreme rest) t m Q.
Proof using Type.
  intros Hb Hs Hl HQ. unfold insert_extreme.
  destruct (consume 1 rest) as [[which i1]|] eqn:E1; [|apply wp_ret, HQ; [by eapply budget_suffix|done]].
  pose proof (consume_suffix _ _ _ _ E1) as [S1 S1'].
  apply wp_bind. eapply equiv_wp; [symmetry; apply combined_insert|].
  eapply (wp_budget_insert rc t m _ input i1); [exact Hb|by etrans|lia|].
  intros t' m' l Hm'. by apply wp_ret, HQ.
Qed.

(** One round of each loop. *)
Lemma same_step_ok op s input rest t m :
  budget input m -> consume 1 input = Some (op, rest) ->
  wp (quiet rc) (same_step op s rest) t m (fun r _ m' _ => budget r.2 m' /\ r.2 `suffix_of` rest).
Proof using Type.
  intros Hb E. pose proof (consume_suffix _ _ _ _ E) as [Hs Hl].
  assert (Hb' : budget rest m) by by eapply budget_suffix.
  unfold same_step. repeat zcase.
  - eapply wp_insert_fuzzed; [exact Hb|done|lia|done].
  - apply wp_bind. eapply wp_reading; [exact Hb'|intros; by eapply reads_combined_get_latest|]. intros. by apply wp_ret.
  - eapply wp_get_fuzzed; [exact Hb'|done].
  - apply wp_fuzzed_index; [exact Hb'| |done]. intros. by eapply reads_conseq; [by eapply reads_fuzz_try_get|].
  - apply wp_bind. eapply wp_reading; [exact Hb'|intros; by eapply reads_check_counts|]. intros. by apply wp_ret.
  - eapply wp_insert_extreme; [exact Hb|done|lia|done].
Qed.

Lemma cross_step_ok op s input rest t m :
  budget input m -> consume 1 input = Some (op, rest) ->
  wp (quiet rc) (cross_step op s rest) t m (fun r _ m' _ => budget r.2 m' /\ r.2 `suffix_of` rest).
Proof using Type.
  intros Hb E. pose proof (consume_suffix _ _ _ _ E) as [Hs Hl].
  assert (Hb' : budget rest m) by by eapply budget_suffix.
  unfold cross_step. repeat zcase.
  - unfold insert_counted. destruct (consume 8 rest) as [[ts i1]|] eqn:E1; [|by apply wp_ret].
    pose proof (consume_suffix _ _ _ _ E1) as [S1 L1].
    destruct (consume_or 8 0 i1) as [val i2] eqn:E2. pose proof (consume_or_suffix _ _ _ _ _ E2) as S2.
    assert (S : i2 `suffix_of` rest) by by etrans. pose proof (suffix_length _ _ S).
    apply wp_bind. eapply (wp_budget_insert rc t m _ input i2); [exact Hb|by etrans|lia|].
    intros t' m' l Hm'. by apply wp_ret.
  - apply wp_bind. eapply wp_reading; [exact Hb'|intros; by eapply reads_log_get_latest|]. intros. by apply wp_ret.
  - apply wp_fuzzed_index; [exact Hb'| |done]. intros. by eapply reads_conseq; [by eapply reads_log_try_get|].
  - apply wp_bind. eapply wp_reading; [exact Hb'|intros; by eapply reads_counts|]. intros. by apply wp_ret.
Qed.

Lemma reads_same_final (ds : list Elem) t m :
  ring_log (N:=Cap) ds m -> Z.of_nat (length ds) < 2 ^ 62 -> reads (quiet rc) t (eq m) same_final (fun _ => True).
Proof using Type.
  intros Hm Hl. unfold same_final.
  eapply reads_bind; [by apply reads_log_available|]. intros avail <-. rewrite !Z.gtb_ltb.
  apply reads_checked; [apply Z.ltb_ge; lia|]. zcase; [|by apply reads_ret].
  eapply reads_bind; [by eapply reads_combined_get_latest|]. intros _ _.
  eapply reads_bind; [apply (reads_combined_get ds m); [done|lia|lia]|]. intros _ _.
  zcase; [|by apply reads_ret].
  eapply reads_bind; [apply (reads_combined_get ds m); [done|lia|rewrite u64_small; lia]|]. intros _ _. by apply reads_ret.
Qed.

Lemma reads_empty_block (ds : list Elem) t m :
  ring_log (N:=Cap) ds m -> Z.of_nat (length ds) < 2 ^ 62 -> reads (quiet rc) t (eq m) empty_block (fun _ => True).
Proof using Type.
  intros Hm Hl. unfold empty_block.
  eapply reads_bind; [by eapply reads_combined_get_latest|]. intros _ _.
  eapply reads_bind; [by eapply reads_log_available|]. intros _ _.
  eapply reads_bind; [by eapply (reads_log_total (T:=Elem) (N:=Cap) ds)|]. intros _ _.
  eapply reads_bind; [eapply reads_fuzz_try_get; [done|done|lia]|]. intros _ _.
  eapply reads_bind; [eapply reads_fuzz_try_get; [done|done|lia]|]. intros _ _. by apply reads_ret.
Qed.

(** *** Overflow *)
Lemma reads_read_all (ds : list Elem) t m :
  ring_log (N:=Cap) ds m -> Z.of_nat (length ds) < 2 ^ 62 ->
  reads (quiet rc) t (eq m) (read_all (Z.min (Z.of_nat (length ds)) Cap)) (fun _ => True).
Proof using Type.
  intros Hm Hl. unfold read_all.
  apply reads_iter with (I := fun i => 0 <= i) (size := fun i => Z.to_nat (Z.of_nat (length ds) - i));
    [by intros ? ? _ <-|lia|].
  intros i Hi. reads_if; [|by apply reads_ret].
  eapply reads_bind; [by eapply reads_fuzz_try_get|]. intros o Ho. cbv beta in Ho.
  rewrite bool_decide_eq_true_2 by (apply Ho; lia). cbn [negb].
  eapply reads_bind with (R := fun _ => True); [by apply reads_ret|]. intros _ _. apply reads_ret.
  rewrite u64_small by lia. split; [lia|]. lia.
Qed.

Lemma wp_overflow_from data n : forall (ds : list Elem) t m Q,
  let i := 8 * Z.of_nat (length ds) in
  n = Z.to_nat (Z.of_nat (length data) - i) -> i <= Z.of_nat (length data) < 2 ^ 60 -> ring_log (N:=Cap) ds m ->
  (forall (ds : list Elem) t' m' l, ring_log (N:=Cap) ds m' -> Z.of_nat (length ds) < 2 ^ 62 ->
     Q (Z.of_nat (length ds)) t' m' l) ->
  wp (quiet rc) (Iter (overflow_round data) (i, Z.of_nat (length ds))) t m Q.
Proof using Type.
  induction n as [n IH] using lt_wf_ind; intros ds t m Q i En Hi Hm HQ.
  apply wp_iter. cbn [quiet interfere overflow_round]. rewrite (u64_small (i + 8)) by lia. zcase.
  - apply wp_bind. eapply equiv_wp; [symmetry; apply combined_insert|].
    eapply wp_log_insert; [exact Hm|]. intros t' m' l. set (d := elem _ _ _). intros Hm'.
    apply wp_ret. rewrite (u64_small (Z.of_nat (length ds) + 1)) by lia.
    assert (El : Z.of_nat (length (ds ++ [d])) = Z.of_nat (length ds) + 1) by (rewrite length_app; simpl; lia).
    replace (i + 8) with (8 * Z.of_nat (length (ds ++ [d]))) by lia. rewrite <- El.
    eapply IH; [|reflexivity|lia|exact Hm'|]; [lia|]. intros. by apply HQ.
  - apply wp_ret, HQ; [done|lia].
Qed.

Lemma overflow_block_ok data t m :
  Z.of_nat (length data) < 2 ^ 60 -> ring_log (T:=Elem) (N:=Cap) [] m ->
  wp (quiet rc) (overflow_block data) t m (fun _ _ _ _ => True).
Proof using Type.
  intros Hlen Hm. unfold overflow_block. apply wp_bind.
  apply (wp_overflow_from data _ []) with (1 := eq_refl); [simpl; lia|exact Hm|].
  clear Hm. intros ds t1 m1 l1 Hm Hl.
  eapply wp_reads with (P := fun _ => True); [|done|done].
  eapply reads_bind; [by apply reads_log_available|]. intros avail <-.
  apply reads_checked; [zcase; rewrite negb_false_iff; lia|].
  eapply reads_bind; [by apply reads_read_all|]. intros _ _.
  eapply reads_bind; [eapply reads_fuzz_try_get; [done|done|unfold Cap; lia]|]. intros o Ho. cbv beta in Ho.
  rewrite bool_decide_eq_false_2; [by apply reads_ret|]. intros Hs. apply Ho in Hs. lia.
Qed.
End Blocks.

(** C30: No input makes the fuzz harness of the cyclic buffer fail: for every
    byte string, each of its blocks (empty buffer, random operations, writer
    with reader, overflow) terminates, stays within bounds and passes all its
    checks. *)
Theorem fuzz_cyclic_buffer_never_traps rc t (data : list Z) :
  Forall byte_ok data -> Z.of_nat (length data) < 2 ^ 60 ->
  Forall (fun block => wp (quiet rc) block t (fresh (CyclicRegion.total_size Elem Cap)) (fun _ _ _ _ => True))
         (LLVMFuzzerTestOneInput data).
Proof.
  intros Hok Hlen. assert (Hb : budget data (fresh (CyclicRegion.total_size Elem Cap))) by (apply budget_fresh; [done|lia]).
  assert (Hm : ring_log (T:=Elem) (N:=Cap) [] (fresh (CyclicRegion.total_size Elem Cap))) by apply (ring_log_fresh (T:=Elem)).
  unfold LLVMFuzzerTestOneInput. destruct data as [|b data]; repeat constructor.
  - eapply wp_reads with (P := fun _ => True); [by apply (reads_empty_block rc [])|done|done].
  - unfold same_block. apply wp_bind. eapply wp_conseq.
    + eapply (wp_fuzz_loop rc same_step (fun _ input m => budget input m) (fun _ m => exists input, budget input m));
        [|by eauto|exact Hb]. intros. by eapply same_step_ok.
    + intros _ t1 m1 l1 [input Hb1]. eapply wp_reading; [exact Hb1|intros; by eapply reads_same_final|done].
  - unfold cross_block. apply wp_bind. eapply wp_conseq.
    + eapply (wp_fuzz_loop rc cross_step (fun _ input m => budget input m) (fun _ m => True)); [|done|exact Hb].
      intros. by eapply cross_step_ok.
    + intros. by apply wp_ret.
  - by apply overflow_block_ok.
Qed.

Module FuzzWitness.
(** Check the counts, insert once (no bytes left for [val] and [seq]), read. *)
Definition data : list Z := [4; 0; 7; 0; 0; 0; 0; 0; 0; 0; 1; 3; 2; 0; 4].

Lemma fuzz_cyclic_buffer_never_traps_witness :
  length (LLVMFuzzerTestOneInput data) = 3%nat /\
  Forall (fun block => wp (quiet (fun _ => (0, 0))) block 0 (fresh (CyclicRegion.total_size Elem Cap)) (fun _ _ _ _ => True))
         (LLVMFuzzerTestOneInput data).
Proof.
  split; [reflexivity|].
  apply (fuzz_cyclic_buffer_never_traps (fun _ => (0, 0)) 0 data);
    [repeat constructor; unfold byte_ok; lia|reflexivity].
Defined.

(** A check that fails does trap. *)
Example trap_is_caught : run 9 (quiet (fun _ => (0, 0))) (trap_if (17 >? Cap)) 0 (fresh 8) = UB.
Proof. reflexivity. Qed.
End FuzzWitness.
