(* ===== verification/FuzzTimeSeries.v ===== *)
(** * fuzz_time_series.cpp

    The harness as programs, one per block of the source, each on a region
    of its own; and the proof that no input makes it trap. *)
From S2P Require Import Prelude Memory Prog History Reads FlatType SeqCount Seqlock CyclicBuffer CyclicRing CyclicReaders CyclicConcurrent Stamped SanitizedKey Float TimeSeries TimeSeriesFacts TimeSeriesRing RingLog Fuzz.

Module FuzzTimeSeries.
Definition find_closest (target : Z) (max_distance : option Z) : prog (option Elem) :=
  TimeSeries.find_closest Cap target max_distance.
Definition find_interpolation_pair (target : Z) : prog (option (InterpPair Elem)) :=
  TimeSeries.find_interpolation_pair Cap target.
Definition get_latest_if_fresh (min_key : Z) : prog (option Elem) :=
  TimeSeries.get_latest_if_fresh Cap min_key.

(** *** size == 0 *)
Definition empty_block : prog unit :=
  find_closest 0 None ;;;
  find_closest uint64_max None ;;;
  find_closest 42 (Some 0) ;;;
  find_closest 42 (Some uint64_max) ;;;
  find_interpolation_pair 0 ;;;
  find_interpolation_pair uint64_max ;;;
  get_latest_if_fresh 0 ;;;
  get_latest_if_fresh uint64_max ;;;
  TimeSeries.available Cap ;;;
  TimeSeries.total_writes ;;;
  TimeSeries.get_latest (T:=Elem) Cap ;;;
  Ret tt.

(** *** Inserts and queries interleaved; the locals are [current_ts] and [seq] *)
Definition locals : Set := Z * Z.

Definition advance (current_ts delta : Z) : Z := u64 (current_ts + u64 (delta + 1)).

Definition insert_monotonic (s : locals) (input : list Z) : prog (locals * list Z) :=
  let '(current_ts, seq) := s in
  match consume 2 input with
  | None => Ret (s, input)
  | Some (delta, input) =>
      let '(val, input) := consume_or 8 0 input in
      let current_ts := advance current_ts delta in
      CyclicBufferWriter.insert Cap (elem current_ts seq val) ;;;
      Ret (current_ts, u64 (seq + 1), input)
  end.

(** [if (!consume(..., target)) break; ...] *)
Definition with_input (n : nat) (input : list Z) (k : Z -> prog unit) : prog (list Z) :=
  match consume n input with
  | None => Ret input
  | Some (v, input) => k v ;;; Ret input
  end.

Definition closest_within (input : list Z) : prog (list Z) :=
  match consume 8 input with
  | None => Ret input
  | Some (target, input) => with_input 8 input (fun max_dist => find_closest target (Some max_dist) ;;; Ret tt)
  end.

(** [if (result->alpha < 0.0 || result->alpha > 1.0) __builtin_trap();] *)
Definition checked_pair (target : Z) : prog unit :=
  result <- find_interpolation_pair target ;;
  match result with
  | Some p => trap_if (SFltb (alpha p) f64_zero || SFltb f64_one (alpha p))
  | None => Ret tt
  end.

Definition extreme_closest (current_ts which : Z) : prog unit :=
  let k := which mod 5 in
  let target := if k =? 0 then 0 else if k =? 1 then uint64_max else if k =? 2 then uint64_max / 2
                else if k =? 3 then current_ts else 1 in
  find_closest target None ;;;
  find_closest target (Some 0) ;;;
  find_closest target (Some uint64_max) ;;;
  Ret tt.

Definition extreme_pair (current_ts which : Z) : prog unit :=
  let k := which mod 4 in
  let target := if k =? 0 then 0 else if k =? 1 then uint64_max else if k =? 2 then current_ts
                else if current_ts >? 0 then u64 (current_ts - 1) else 0 in
  find_interpolation_pair target ;;;
  Ret tt.

Definition check_counts (seq : Z) : prog unit :=
  avail <- TimeSeries.available Cap ;;
  tw <- TimeSeries.total_writes ;;
  trap_if (avail >? Cap) ;;;
  trap_if (avail >? tw) ;;;
  trap_if (negb (tw =? seq)).

Definition main_step (op : Z) (s : locals) (input : list Z) : prog (locals * list Z) :=
  let k := op mod 8 in
  if k =? 0 then insert_monotonic s input
  else
    input <- (if k =? 1 then with_input 8 input (fun target => find_closest target None ;;; Ret tt)
              else if k =? 2 then closest_within input
              else if k =? 3 then with_input 8 input checked_pair
              else if k =? 4 then with_input 8 input (fun min_key => get_latest_if_fresh min_key ;;; Ret tt)
              else if k =? 5 then with_input 1 input (extreme_closest s.1)
              else if k =? 6 then with_input 1 input (extreme_pair s.1)
              else check_counts s.2 ;;; Ret input) ;;
    Ret (s, input).

Definition main_block (data : list Z) : prog unit := fuzz_loop main_step (0, 0) data ;;; Ret tt.

(** *** Bulk insert, then queries *)

(** [while (remaining >= sizeof(uint16_t) + sizeof(double))] *)
Definition bulk_round (s : Z * Z * list Z) : prog (Z * Z * list Z + Z * Z) :=
  let '(ts_val, seq, input) := s in
  if Z.of_nat (length input) >=? 10 then
    let '(delta, input) := consume_or 2 0 input in
    let '(val, input) := consume_or 8 0 input in
    let ts_val := advance ts_val delta in
    CyclicBufferWriter.insert Cap (elem ts_val seq val) ;;;
    Ret (inl (ts_val, u64 (seq + 1), input))
  else Ret (inr (ts_val, seq)).

(** [for (i = 0; i < avail; ++i) ts.get_latest();] *)
Definition read_latest_times (avail : Z) : prog unit :=
  Iter (fun i =>
    if i <? avail then TimeSeries.get_latest (T:=Elem) Cap ;;; Ret (inl (u64 (i + 1)))
    else Ret (inr tt)) 0.

Definition sweep (ts_val : Z) : prog unit :=
  find_closest 0 None ;;;
  find_closest uint64_max None ;;;
  find_closest ts_val None ;;;
  find_closest 1 None ;;;
  find_closest (ts_val / 2) None ;;;
  find_closest ts_val (Some 0) ;;;
  find_closest 0 (Some 0) ;;;
  find_interpolation_pair 0 ;;;
  find_interpolation_pair uint64_max ;;;
  find_interpolation_pair ts_val ;;;
  (if ts_val >? 1 then find_interpolation_pair (u64 (ts_val - 1)) ;;; Ret tt else Ret tt) ;;;
  find_interpolation_pair (ts_val / 2) ;;;
  get_latest_if_fresh 0 ;;;
  get_latest_if_fresh uint64_max ;;;
  get_latest_if_fresh ts_val ;;;
  Ret tt.

Definition sweep_block (data : list Z) : prog unit :=
  s <- Iter bulk_round (0, 0, data) ;;
  let '(ts_val, seq) := s in
  if seq =? 0 then Ret tt else
  avail <- TimeSeries.available Cap ;;
  read_latest_times avail ;;;
  sweep ts_val.

Definition LLVMFuzzerTestOneInput (data : list Z) : list (prog unit) :=
  match data with
  | [] => [empty_block]
  | _ => [main_block data; sweep_block data]
  end.
End FuzzTimeSeries.
Import FuzzTimeSeries.

(** ** Queries on a ring in exclusive use *)

(** Neither comparison holds of a number between zero and one. *)
Lemma unit_interval_checks a : unit_interval a -> SFltb a f64_zero || SFltb f64_one a = false.
Proof. intros [H0 H1]. by rewrite (SFleb_not_ltb _ _ H0), (SFleb_not_ltb _ _ H1). Qed.

Lemma keys_ascend_snoc (ds : list Elem) (d : Elem) :
  keys_ascend ds -> (forall x, x ∈ ds -> extractor x <= extractor d) -> keys_ascend (ds ++ [d]).
Proof.
  intros Ha Hd i j x y Hij Hx Hy. apply lookup_app_Some in Hx as [Hx|[Hi Hx]].
  - apply lookup_app_Some in Hy as [Hy|[Hj Hy]]; [by eapply Ha|].
    apply list_lookup_singleton_Some in Hy as [_ <-]. apply Hd. by eapply list_elem_of_lookup_2.
  - apply list_lookup_singleton_Some in Hx as [Hi' <-].
    apply lookup_app_Some in Hy as [Hy|[Hj Hy]]; [apply lookup_lt_Some in Hy; lia|].
    by apply list_lookup_singleton_Some in Hy as [_ <-].
Qed.

Section Queries.
Context (rc : nat -> Z * Z) (t0 : nat) (ds : list Elem) (m : mem).
Context (Hm : ring_log (N:=Cap) ds m) (Hlen : Z.of_nat (length ds) < 2 ^ 62) (Hk : keys_ascend ds).
Abbreviation reads p := (reads (quiet rc) t0 (eq m) p (fun _ => True)).

Lemma at_rest : forall t m', (t0 <= t)%nat -> m = m' -> m = interfere (quiet rc) t m'.
Proof using Type. by intros ? ? _ <-. Qed.

Lemma reads_closest target max_distance :
  0 <= target < 2 ^ 64 -> (forall md, max_distance = Some md -> 0 <= md) -> reads (find_closest target max_distance).
Proof using Hm Hlen Hk.
  intros Ht Hmd. eapply reads_conseq; [|done].
  apply (reads_find_closest (T:=Elem) Cap _ _ _ at_rest (kept Cap ds)); [by apply log_view|by apply kept_descend|done|done].
Qed.

Lemma reads_pair target :
  0 <= target < 2 ^ 64 ->
  Reads.reads (quiet rc) t0 (eq m) (find_interpolation_pair target) (brackets (kept Cap ds) target).
Proof using Hm Hlen Hk.
  intros Ht. apply (reads_find_interpolation_pair (T:=Elem) Cap _ _ _ at_rest (kept Cap ds));
    [by apply log_view|by apply kept_descend|done].
Qed.

Lemma reads_fresh min_key : reads (get_latest_if_fresh min_key).
Proof using Hm Hlen.
  eapply reads_conseq; [|done]. eapply reads_get_latest_if_fresh. by apply log_view.
Qed.
End Queries.

Lemma uint64_constants : 0 <= uint64_max / 2 < 2 ^ 64 /\ uint64_max = 2 ^ 64 - 1.
Proof. split; [split|]; reflexivity || discriminate. Qed.

(** ** What the locals say of the ring *)
Record series (ds : list Elem) (s : locals) (m : mem) : Prop := {
  series_ring : ring_log (N:=Cap) ds m;
  series_ascend : keys_ascend ds;
  series_count : s.2 = Z.of_nat (length ds);
  series_newest x : x ∈ ds -> extractor x <= s.1;
  series_small : 0 <= s.1 <= 2 ^ 16 * Z.of_nat (length ds)
}.

Definition room (ds : list Elem) (input : list Z) : Prop :=
  Forall byte_ok input /\ Z.of_nat (length ds + length input) < 2 ^ 40.

Lemma room_suffix ds input rest : room ds input -> rest `suffix_of` input -> room ds rest.
Proof. intros [Hb Hl] Hs. split; [by eapply suffix_bytes|]. apply suffix_length in Hs. lia. Qed.

Lemma series_fresh : series [] (0, 0) (fresh (CyclicRegion.total_size Elem Cap)).
Proof.
  split; simpl; try done; [apply (ring_log_fresh (T:=Elem))|by intros x Hx%not_elem_of_nil].
Qed.

Lemma wp_series_insert rc t m ds s delta val (Q : unit -> nat -> mem -> list mem -> Prop) :
  series ds s m -> Z.of_nat (length ds) < 2 ^ 40 -> 0 <= delta < 2 ^ 16 ->
  let d := elem (advance s.1 delta) s.2 val in
  (forall t' m' l, series (ds ++ [d]) (advance s.1 delta, u64 (s.2 + 1)) m' -> Q tt t' m' l) ->
  wp (quiet rc) (CyclicBufferWriter.insert Cap d) t m Q.
Proof.
  intros [Hm Ha Hc Hn Hs] Hlen Hd d HQ.
  assert (Eadv : advance s.1 delta = s.1 + (delta + 1)).
  { unfold advance. rewrite (u64_small (delta + 1)), u64_small by lia. done. }
  assert (Hkey : extractor d = s.1 + (delta + 1)).
  { unfold d. rewrite Eadv. simpl. apply wrap_small. simpl. lia. }
  eapply wp_log_insert; [exact Hm|]. intros t' m' l Hm'. apply HQ. split; simpl.
  - done.
  - apply keys_ascend_snoc; [done|]. intros x Hx. rewrite Hkey. pose proof (Hn x Hx). lia.
  - rewrite length_app, Hc, u64_small by (simpl; lia). simpl. lia.
  - intros x Hx. change (uint_val (timestamp_ns x)) with (extractor x). rewrite Eadv.
    apply elem_of_app in Hx as [Hx| ->%list_elem_of_singleton]; [pose proof (Hn x Hx)|rewrite Hkey]; lia.
  - rewrite Eadv, length_app. simpl. lia.
Qed.

Section Blocks.
Context (rc : nat -> Z * Z).

(** Queries leave everything as it is. *)
Section Query.
Context (ds : list Elem) (s : locals) (t : nat) (m : mem) (Hs : series ds s m) (Hlen : Z.of_nat (length ds) < 2 ^ 40).
Abbreviation harmless p := (reads (quiet rc) t (eq m) p (fun _ => True)).

Lemma harmless_closest target max_distance :
  0 <= target < 2 ^ 64 -> (forall md, max_distance = Some md -> 0 <= md) -> harmless (find_closest target max_distance).
Proof using Hs Hlen. destruct Hs. intros. eapply reads_closest; [done|lia|done|done|done]. Qed.

Lemma harmless_pair target : 0 <= target < 2 ^ 64 -> harmless (find_interpolation_pair target).
Proof using Hs Hlen. destruct Hs. intros. eapply reads_conseq; [eapply reads_pair; [done|lia|done|done]|done]. Qed.

Lemma harmless_fresh min_key : harmless (get_latest_if_fresh min_key).
Proof using Hs Hlen. destruct Hs. eapply reads_fresh; [done|lia]. Qed.

Lemma harmless_latest : harmless (TimeSeries.get_latest (T:=Elem) Cap).
Proof using Hs Hlen. destruct Hs. eapply reads_log_get_latest; [done|lia]. Qed.

Lemma harmless_then {A B : Set} (p : prog A) (q : prog B) : harmless p -> harmless q -> harmless (p ;;; q).
Proof using Type. intros Hp Hq. eapply reads_bind; [exact Hp|]. by intros _ _. Qed.

Lemma harmless_ret {A : Set} (a : A) : harmless (Ret a).
Proof using Type. by apply reads_ret. Qed.

Lemma reads_available : reads (quiet rc) t (eq m) (TimeSeries.available Cap) (eq (Z.min (Z.of_nat (length ds)) Cap)).
Proof using Hs Hlen. destruct Hs. eapply (reads_log_available ds); [done|lia]. Qed.

Lemma reads_total_writes : reads (quiet rc) t (eq m) TimeSeries.total_writes (eq (Z.of_nat (length ds))).
Proof using Hs Hlen. destruct Hs. eapply (reads_log_total (T:=Elem) (N:=Cap) ds); [done|lia]. Qed.

Ltac query :=
  lazymatch goal with
  | |- reads _ _ _ (Ret _) _ => apply harmless_ret
  | |- reads _ _ _ (find_closest _ _) _ => apply harmless_closest; [lia|intros ? [=]; unfold uint64_max; lia]
  | |- reads _ _ _ (find_interpolation_pair _) _ => apply harmless_pair; lia
  | |- reads _ _ _ (get_latest_if_fresh _) _ => apply harmless_fresh
  | |- reads _ _ _ (TimeSeries.get_latest _) _ => apply harmless_latest
  end.

Lemma harmless_checked_pair target : 0 <= target < 2 ^ 64 -> harmless (checked_pair target).
Proof using Hs Hlen.
  intros Ht. unfold checked_pair. destruct Hs.
  eapply reads_bind; [eapply reads_pair; [done|lia|done|done]|]. intros [p|] Hp; [|by apply reads_ret].
  destruct Hp as (_ & _ & _ & _ & Hu & _). rewrite unit_interval_checks by done. by apply reads_ret.
Qed.

Lemma series_ts_range : 0 <= s.1 < 2 ^ 64.
Proof using Hs Hlen. pose proof (series_small _ _ _ Hs). lia. Qed.

Lemma harmless_extreme_closest which : harmless (extreme_closest s.1 which).
Proof using Hs Hlen.
  unfold extreme_closest. pose proof series_ts_range.
  match goal with |- context [find_closest ?x None] => set (target := x) end.
  pose proof uint64_constants.
  assert (0 <= target < 2 ^ 64) by (unfold target; repeat zcase; lia).
  repeat (apply harmless_then; [query|]). query.
Qed.

Lemma harmless_extreme_pair which : harmless (extreme_pair s.1 which).
Proof using Hs Hlen.
  unfold extreme_pair. pose proof series_ts_range. pose proof (u64_range (s.1 - 1)).
  match goal with |- context [find_interpolation_pair ?x] => set (target := x) end.
  pose proof uint64_constants.
  assert (0 <= target < 2 ^ 64) by (unfold target; repeat zcase; lia).
  apply harmless_then; query.
Qed.

Lemma harmless_check_counts : harmless (check_counts s.2).
Proof using Hs Hlen.
  unfold check_counts. rewrite (series_count _ _ _ Hs).
  eapply reads_bind; [apply reads_available|]. intros avail <-.
  eapply reads_bind; [apply reads_total_writes|]. intros tw <-.
  set (n := Z.of_nat (length ds)).
  assert (E1 : (Z.min n Cap >? Cap) = false) by (rewrite Z.gtb_ltb; apply Z.ltb_ge; lia).
  assert (E2 : (Z.min n Cap >? n) = false) by (rewrite Z.gtb_ltb; apply Z.ltb_ge; lia).
  rewrite E1, E2, Z.eqb_refl.
  repeat (apply harmless_then; [apply harmless_ret|]). apply harmless_ret.
Qed.

Lemma harmless_sweep : harmless (sweep s.1).
Proof using Hs Hlen.
  unfold sweep. pose proof series_ts_range. pose proof (u64_range (s.1 - 1)).
  assert (0 <= s.1 / 2 < 2 ^ 64) by (split; [apply Z.div_pos; lia|apply Z.div_lt_upper_bound; lia]).
  assert (uint64_max = 2 ^ 64 - 1) by done.
  repeat (apply harmless_then; [try query|]); [|query].
  zcase; [apply harmless_then|]; query.
Qed.

Lemma harmless_read_latest_times n : 0 <= n <= Cap -> harmless (read_latest_times n).
Proof using Hs Hlen.
  intros Hn. unfold Cap in Hn. unfold read_latest_times.
  apply reads_iter with (I := fun i => 0 <= i) (size := fun i => Z.to_nat (n - i)); [by intros ? ? _ <-|lia|].
  intros i Hi. reads_if; [|by apply reads_ret].
  eapply reads_bind; [apply harmless_latest|]. intros _ _. apply reads_ret. rewrite u64_small by lia. lia.
Qed.
End Query.

(** *** The main loop *)
Definition main_inv (s : locals) (input : list Z) (m : mem) : Prop :=
  exists ds, series ds s m /\ room ds input.

Lemma main_inv_suffix s input rest m : main_inv s input m -> rest `suffix_of` input -> main_inv s rest m.
Proof using Type. intros (ds & Hs & Hr) Hx. exists ds. split; [done|by eapply room_suffix]. Qed.

(** A harmless query between two moments of the loop. *)
Lemma wp_harmless {A : Set} (p : prog A) s input t m Q :
  main_inv s input m ->
  (forall ds, series ds s m -> Z.of_nat (length ds) < 2 ^ 40 -> reads (quiet rc) t (eq m) p (fun _ => True)) ->
  (forall a t' l, Q a t' m l) -> wp (quiet rc) p t m Q.
Proof using Type.
  intros (ds & Hs & Hr & Hl) Hp HQ. eapply wp_reads; [apply (Hp ds Hs); lia|lia|auto].
Qed.

Lemma wp_with_input n s input t m (k : Z -> prog unit) (Q : list Z -> nat -> mem -> list mem -> Prop) :
  main_inv s input m ->
  (forall v ds t, 0 <= v < 2 ^ (8 * Z.of_nat n) -> series ds s m -> Z.of_nat (length ds) < 2 ^ 40 ->
     reads (quiet rc) t (eq m) (k v) (fun _ => True)) ->
  (forall rest t' l, rest `suffix_of` input -> Q rest t' m l) ->
  wp (quiet rc) (with_input n input k) t m Q.
Proof using Type.
  intros Hi Hk HQ. unfold with_input. destruct (consume n input) as [[v rest]|] eqn:E; [|by apply wp_ret, HQ].
  pose proof Hi as (ds & _ & Hb & _). pose proof (consume_range _ _ _ _ Hb E).
  apply consume_suffix in E as [Hs _].
  apply wp_bind. eapply wp_harmless; [exact Hi|intros; by eapply Hk|]. intros. by apply wp_ret, HQ.
Qed.

Lemma wp_insert_monotonic s input rest t m (Q : locals * list Z -> nat -> mem -> list mem -> Prop) :
  main_inv s input m -> rest `suffix_of` input -> (length rest < length input)%nat ->
  (forall s' rest' t' m' l, main_inv s' rest' m' -> rest' `suffix_of` rest -> Q (s', rest') t' m' l) ->
  wp (quiet rc) (insert_monotonic s rest) t m Q.
Proof using Type.
  intros Hi Hs Hl HQ. pose proof Hi as (ds & Hser & Hb & Hlen).
  destruct s as [current_ts seq]. unfold insert_monotonic.
  destruct (consume 2 rest) as [[delta i1]|] eqn:E1; [|apply wp_ret, HQ; [by eapply main_inv_suffix|done]].
  pose proof (consume_range _ _ _ _ (suffix_bytes _ _ Hb Hs) E1) as Hd. apply consume_suffix in E1 as [S1 L1].
  destruct (consume_or 8 0 i1) as [val i2] eqn:E2. apply consume_or_suffix in E2 as S2.
  assert (S : i2 `suffix_of` rest) by by etrans. pose proof (suffix_length _ _ S).
  apply wp_bind. eapply (wp_series_insert rc t m ds (current_ts, seq) delta); [done|lia|done|].
  intros t' m' l Hser'. apply wp_ret, HQ; [|done]. eexists. split; [exact Hser'|].
  split; [eapply suffix_bytes; [exact Hb|by etrans]|]. rewrite length_app. simpl. lia.
Qed.

Lemma main_step_ok op s input rest t m :
  main_inv s input m -> consume 1 input = Some (op, rest) ->
  wp (quiet rc) (main_step op s rest) t m (fun r _ m' _ => main_inv r.1 r.2 m' /\ r.2 `suffix_of` rest).
Proof using Type.
  intros Hi E. apply consume_suffix in E as [Hs Hl].
  pose proof (main_inv_suffix _ _ _ _ Hi Hs) as Hi'. unfold main_step.
  zcase; [eapply wp_insert_monotonic; [exact Hi|done|lia|done]|].
  apply wp_bind.
  assert (Hend : forall rest' t', rest' `suffix_of` rest ->
            wp (quiet rc) (Ret (s, rest')) t' m
               (fun r _ m' _ => main_inv r.1 r.2 m' /\ r.2 `suffix_of` rest)).
  { intros. apply wp_ret. split; [by eapply main_inv_suffix|done]. }
  repeat zcase.
  - eapply wp_with_input; [exact Hi'| |by intros; apply Hend]. intros.
    apply harmless_then; [by eapply harmless_closest|apply harmless_ret].
  - unfold closest_within. destruct (consume 8 rest) as [[target i1]|] eqn:E1; [|by apply wp_ret, Hend].
    pose proof Hi' as (ds & _ & Hb & _). pose proof (consume_range _ _ _ _ Hb E1). apply consume_suffix in E1 as [S1 _].
    eapply wp_with_input; [by eapply main_inv_suffix| |by intros; apply Hend; etrans]. intros.
    apply harmless_then; [|apply harmless_ret]. eapply harmless_closest; [done|done|done|intros ? [= <-]; lia].
  - eapply wp_with_input; [exact Hi'| |by intros; apply Hend]. intros. by eapply harmless_checked_pair.
  - eapply wp_with_input; [exact Hi'| |by intros; apply Hend]. intros.
    apply harmless_then; [by eapply harmless_fresh|apply harmless_ret].
  - eapply wp_with_input; [exact Hi'| |by intros; apply Hend]. intros. by eapply harmless_extreme_closest.
  - eapply wp_with_input; [exact Hi'| |by intros; apply Hend]. intros. by eapply harmless_extreme_pair.
  - apply wp_bind. eapply wp_harmless; [exact Hi'|intros; by eapply harmless_check_counts|].
    intros. by apply wp_ret, Hend.
Qed.

(** *** The sweep *)
Lemma wp_bulk n : forall s input t m Q,
  n = length input -> main_inv s input m ->
  (forall s' t' m' l, main_inv s' [] m' -> Q s' t' m' l) ->
  wp (quiet rc) (Iter bulk_round (s, input)) t m Q.
Proof using Type.
  induction n as [n IH] using lt_wf_ind; intros [ts_val seq] input t m Q En Hi HQ.
  apply wp_iter. cbn [quiet interfere bulk_round]. pose proof Hi as (ds & Hser & Hb & Hlen).
  rewrite Z.geb_leb. zcase; [|apply wp_ret, HQ; eapply main_inv_suffix; [exact Hi|apply suffix_nil]].
  destruct (consume_or 2 0 input) as [delta i1] eqn:E1. destruct (consume_or 8 0 i1) as [val i2] eqn:E2.
  assert (H2 : 0 <= delta < 2 ^ 16 /\ i1 `suffix_of` input /\ (length i1 < length input)%nat).
  { unfold consume_or in E1. destruct (consume 2 input) as [[v r]|] eqn:E; injection E1 as <- <-.
    - pose proof (consume_range _ _ _ _ Hb E). apply consume_suffix in E as [? ?]. split; [done|]. split; [done|lia].
    - unfold consume in E. destruct (length input <? 2)%nat eqn:E3; [apply Nat.ltb_lt in E3; lia|done]. }
  destruct H2 as (Hd & S1 & L1). apply consume_or_suffix in E2. pose proof (suffix_length _ _ E2).
  apply wp_bind. eapply (wp_series_insert rc _ m ds (ts_val, seq) delta); [done|lia|done|].
  intros t' m' l Hser'. apply wp_ret. apply (IH (length i2)); [lia|done| |by intros; apply HQ].
  eexists. split; [exact Hser'|]. split; [eapply suffix_bytes; [exact Hb|by etrans]|]. rewrite length_app. simpl. lia.
Qed.

Lemma sweep_block_ok data t m :
  main_inv (0, 0) data m -> wp (quiet rc) (sweep_block data) t m (fun _ _ _ _ => True).
Proof using Type.
  intros Hi. unfold sweep_block. apply wp_bind. eapply wp_bulk; [done|exact Hi|].
  intros [ts_val seq] t1 m1 l1 Hi1. zcase; [by apply wp_ret|]. destruct Hi1 as (ds & Hser & _ & Hlen).
  simpl in Hlen. eapply wp_reads with (P := fun _ => True); [|done|done].
  eapply reads_bind; [eapply reads_available; [done|lia]|]. intros avail <-.
  apply harmless_then; [|eapply (harmless_sweep ds (ts_val, seq)); [done|lia]].
  eapply harmless_read_latest_times; [done|lia|unfold Cap; lia].
Qed.
End Blocks.

Lemma harmless_empty_block rc t m (ds : list Elem) s :
  series ds s m -> Z.of_nat (length ds) < 2 ^ 40 -> reads (quiet rc) t (eq m) empty_block (fun _ => True).
Proof.
  intros Hs Hl. unfold empty_block. pose proof uint64_constants.
  repeat (apply harmless_then;
    [first [eapply harmless_closest; [done|done|lia|intros ? [= <-]; lia]
           |eapply harmless_closest; [done|done|lia|done]
           |eapply harmless_pair; [done|done|lia]|by eapply harmless_fresh|by eapply harmless_latest
           |eapply reads_conseq; [by eapply reads_available|done]
           |eapply reads_conseq; [by eapply reads_total_writes|done]]|]).
  apply harmless_ret.
Qed.

(** C31: No input makes the fuzz harness of the time series fail: for every
    byte string, inserts with increasing timestamps interleaved with any
    queries, extreme targets included, terminate and pass all checks, alpha
    between 0.0 and 1.0 among them. *)
Theorem fuzz_time_series_never_traps rc t (data : list Z) :
  Forall byte_ok data -> Z.of_nat (length data) < 2 ^ 40 ->
  Forall (fun block => wp (quiet rc) block t (fresh (CyclicRegion.total_size Elem Cap)) (fun _ _ _ _ => True))
         (LLVMFuzzerTestOneInput data).
Proof.
  intros Hok Hlen.
  assert (Hi : main_inv (0, 0) data (fresh (CyclicRegion.total_size Elem Cap))).
  { exists []. split; [apply series_fresh|done]. }
  unfold LLVMFuzzerTestOneInput. destruct data as [|b data]; repeat constructor.
  - eapply wp_reads with (P := fun _ => True); [by apply (harmless_empty_block rc t _ [] (0, 0)); [apply series_fresh|]|done|done].
  - unfold main_block. apply wp_bind. eapply wp_conseq.
    + eapply (wp_fuzz_loop rc main_step main_inv (fun _ _ => True)); [|done|exact Hi]. intros. by eapply main_step_ok.
    + intros. by apply wp_ret.
  - by apply sweep_block_ok.
Qed.

Module FuzzWitness.
(** Two inserts, an interpolation between them, the consistency checks. *)
Definition data : list Z :=
  [0; 9; 0; 1; 1; 1; 1; 1; 1; 1; 1; 0; 9; 0; 1; 1; 1; 1; 1; 1; 1; 1; 3; 13; 0; 0; 0; 0; 0; 0; 0; 7].

Lemma fuzz_time_series_never_traps_witness :
  length (LLVMFuzzerTestOneInput data) = 2%nat /\
  Forall (fun block => wp (quiet (fun _ => (0, 0))) block 0 (fresh (CyclicRegion.total_size Elem Cap)) (fun _ _ _ _ => True))
         (LLVMFuzzerTestOneInput data).
Proof.
  split; [reflexivity|].
  apply (fuzz_time_series_never_traps (fun _ => (0, 0)) 0 data);
    [repeat constructor; unfold byte_ok; lia|reflexivity].
Defined.
End FuzzWitness.
