(* ===== verification/Pool.v ===== *)
(** * Threads over one memory, and futexes

    A pool of threads, each running a [prog], interleaved one action at a
    time on a shared memory.  Which of the sleepers a [FUTEX_WAKE] releases
    is the kernel's choice: the class [FutexKernel] states what [futex(2)]
    documents of it. *)
From stdpp Require Import relations.
From S2P Require Import Prelude Memory Prog.

Definition EAGAIN : Z := 11.

(** [wakes waiters n woken]: a wake of [n] may release exactly [woken]. *)
Class FutexKernel := {
  wakes : list nat -> Z -> list nat -> Prop;
  wakes_waiters waiters n woken : wakes waiters n woken -> forall i, i ∈ woken -> i ∈ waiters;
  wakes_count waiters n woken : wakes waiters n woken -> Z.of_nat (length woken) <= Z.max 0 n;
  wakes_some waiters n woken : wakes waiters n woken -> waiters <> [] -> 1 <= n -> woken <> [];
  wakes_all waiters n woken :
    wakes waiters n woken -> Z.of_nat (length waiters) <= n -> forall i, i ∈ waiters -> i ∈ woken;
  wakes_total waiters n : exists woken, wakes waiters n woken
}.

(** Waking the first in line is one such kernel. *)
Definition first_waiters (n : Z) (waiters : list nat) : list nat :=
  take (Z.to_nat (Z.min n (Z.of_nat (length waiters)))) waiters.

#[export] Program Instance fifo_kernel : FutexKernel := {|
  wakes waiters n woken := woken = first_waiters n waiters
|}.
Next Obligation. intros waiters n woken -> i Hi. apply elem_of_take in Hi as (? & ? & _). by eapply list_elem_of_lookup_2. Qed.
Next Obligation. intros waiters n woken ->. unfold first_waiters. rewrite length_take. lia. Qed.
Next Obligation.
  intros waiters n woken -> Hw Hn. destruct waiters as [|w ws]; [done|].
  unfold first_waiters. destruct (Z.to_nat _) eqn:E; [simpl in E; lia|done].
Qed.
Next Obligation.
  intros waiters n woken -> Hn i Hi. unfold first_waiters. by rewrite Z.min_r, Nat2Z.id, take_ge by lia.
Qed.
Next Obligation. intros waiters n. by eexists. Qed.

(** ** The next action of a program *)
Inductive view_t (A : Set) : Type :=
| VRet (a : A)
| VTau (p : prog A)
| VAct (B : Set) (x : act B) (k : B -> prog A).
Arguments VRet {A} a.
Arguments VTau {A} p.
Arguments VAct {A B} x k.

Definition bind_ {A B : Set} (p : prog B) (k : B -> prog A) : prog A :=
  match p with Ret b => k b | _ => Bind p k end.

Fixpoint view {A : Set} (p : prog A) : view_t A :=
  match p with
  | Ret a => VRet a
  | Act x => VAct x (fun b => Ret b)
  | Bind p k =>
      match view p with
      | VRet b => view (k b)
      | VTau p' => VTau (bind_ p' k)
      | VAct x c => VAct x (fun b => bind_ (c b) k)
      end
  | Iter body s =>
      VTau (bind_ (body s) (fun r => match r with inl s' => Iter body s' | inr a => Ret a end))
  end.

Lemma view_bind_ {A B : Set} (p : prog B) (k : B -> prog A) : view (bind_ p k) = view (Bind p k).
Proof. by destruct p. Qed.

Lemma view_Bind {A B : Set} (p q : prog B) (k : B -> prog A) :
  view p = view q -> view (Bind p k) = view (Bind q k).
Proof. intros E. simpl. by rewrite E. Qed.

(** *** Programs of some kinds of action only *)
Section UsesOnly.
Context (ok : forall B : Set, act B -> Prop).

Fixpoint uses_only {A : Set} (p : prog A) : Prop :=
  match p with
  | Ret _ => True
  | Act x => ok _ x
  | Bind p k => uses_only p /\ forall b, uses_only (k b)
  | Iter body _ => forall s, uses_only (body s)
  end.

Lemma uses_only_bind_ {A B : Set} (p : prog B) (k : B -> prog A) :
  uses_only p -> (forall b, uses_only (k b)) -> uses_only (bind_ p k).
Proof using Type. destruct p; simpl; auto. Qed.

Lemma uses_only_view {A : Set} (p : prog A) :
  uses_only p ->
  match view p with
  | VRet _ => True
  | VTau p' => uses_only p'
  | VAct x k => ok _ x /\ forall b, uses_only (k b)
  end.
Proof using Type.
  induction p as [A a|A x|A B p IHp k IHk|A S0 body IH s]; cbn [uses_only view]; [done|done| |].
  - intros [Hp Hk]. specialize (IHp Hp). destruct (view p) as [b|p'|C x c]; [by apply IHk|by apply uses_only_bind_|].
    destruct IHp as [Hx Hc]. split; [done|]. intros c'. by apply uses_only_bind_.
  - intros Hb. apply uses_only_bind_; [done|]. intros [s'|a]; cbn; [done|done].
Qed.
End UsesOnly.

(** ** What one step of a thread does *)
Inductive outcome : Type :=
| Finished
| Trapped                                       (* undefined behaviour *)
| Moves (m : mem) (p : prog unit)
| Sleeps (off : Z) (k : Z * Z -> prog unit)     (* the kernel queues the caller *)
| Wakes (off n : Z) (p : prog unit).

Definition act_outcome {B} (x : act B) (m : mem) : (B -> prog unit) -> outcome :=
  match x in act B return (B -> prog unit) -> outcome with
  | AFutexWait off expected _ => fun k =>
      if atomic_ok m off 4
      then if ld32 m off =? expected then Sleeps off k else Moves m (k (-1, EAGAIN))
      else Trapped
  | AFutexWake off n => fun k => if atomic_ok m off 4 then Wakes off n (k tt) else Trapped
  | x => fun k => match act_step (0, 0) x m with Some (v, m') => Moves m' (k v) | None => Trapped end
  end.

Definition local_step (p : prog unit) (m : mem) : outcome :=
  match view p with
  | VRet _ => Finished
  | VTau p' => Moves m p'
  | VAct x k => act_outcome x m k
  end.

(** What is left to do uses no other kinds of action. *)
Lemma uses_only_step (ok : forall B : Set, act B -> Prop) (p : prog unit) m :
  uses_only ok p ->
  match local_step p m with
  | Moves _ p' | Wakes _ _ p' => uses_only ok p'
  | Sleeps _ k => forall rc, uses_only ok (k rc)
  | _ => True
  end.
Proof.
  intros Hp%uses_only_view. unfold local_step. destruct (view p) as [|q|B x k]; [done..|]. destruct Hp as [_ Hk].
  destruct x; cbn [act_outcome act_step]; unfold guard_opt; repeat case_match; simplify_eq; auto.
Qed.

Inductive thread : Type :=
| Running (p : prog unit)
| Parked (off : Z) (k : Z * Z -> prog unit).

Definition pool : Type := mem * list thread.

(** The threads asleep on a word. *)
Definition parked_on (off : Z) (th : thread) : bool :=
  match th with Parked off' _ => off' =? off | Running _ => false end.
Definition waiters (off : Z) (ts : list thread) : list nat :=
  filter (fun i => from_option (parked_on off) false (ts !! i) = true) (seq 0 (length ts)).

Definition resume (rc : Z * Z) (th : thread) : thread :=
  match th with Parked _ k => Running (k rc) | Running p => Running p end.

Section Steps.
Context `{FutexKernel}.

Inductive pool_step : pool -> pool -> Prop :=
| step_moves i p m m' p' ts :
    ts !! i = Some (Running p) -> local_step p m = Moves m' p' ->
    pool_step (m, ts) (m', <[i := Running p']> ts)
| step_sleeps i p m off k ts :
    ts !! i = Some (Running p) -> local_step p m = Sleeps off k ->
    pool_step (m, ts) (m, <[i := Parked off k]> ts)
| step_wakes i p m off n p' ts woken :
    ts !! i = Some (Running p) -> local_step p m = Wakes off n p' ->
    wakes (waiters off ts) n woken ->
    pool_step (m, ts) (m, foldr (fun j => alter (resume (0, 0)) j) (<[i := Running p']> ts) woken)
| step_interrupted i m off k rc ts :
    (* a signal, a timeout, or no reason at all *)
    ts !! i = Some (Parked off k) -> pool_step (m, ts) (m, <[i := Running (k rc)]> ts).

Definition reachable (from to : pool) : Prop := rtc pool_step from to.

(** A rule for invariants. *)
Lemma reachable_inv (I : pool -> Prop) from to :
  (forall x y, I x -> pool_step x y -> I y) -> I from -> reachable from to -> I to.
Proof using Type. intros Hstep Hfrom H1. induction H1; eauto. Qed.
End Steps.

(** ** Schedules: an executable interleaving, first sleeper first *)
Section Schedule.

Definition exec1 (i : nat) (x : pool) : option pool :=
  let '(m, ts) := x in
  match ts !! i with
  | Some (Running p) =>
      match local_step p m with
      | Moves m' p' => Some (m', <[i := Running p']> ts)
      | Sleeps off k => Some (m, <[i := Parked off k]> ts)
      | Wakes off n p' =>
          Some (m, foldr (fun j => alter (resume (0, 0)) j) (<[i := Running p']> ts)
                         (first_waiters n (waiters off ts)))
      | _ => None
      end
  | _ => None
  end.

Fixpoint exec (sched : list nat) (x : pool) : option pool :=
  match sched with
  | [] => Some x
  | i :: sched => match exec1 i x with Some y => exec sched y | None => None end
  end.

Lemma exec1_sound i x y : exec1 i x = Some y -> pool_step x y.
Proof.
  destruct x as [m ts]. cbn. destruct (ts !! i) as [[p|]|] eqn:Ei; try done.
  destruct (local_step p m) eqn:E; try done; intros [= <-].
  - by eapply step_moves.
  - by eapply step_sleeps.
  - by eapply step_wakes.
Qed.

Lemma exec_reachable sched x y : exec sched x = Some y -> reachable x y.
Proof.
  revert x. induction sched as [|i sched IH]; intros x; cbn [exec]; [intros [= ->]; constructor|].
  destruct (exec1 i x) as [z|] eqn:E; [|done]. intros Hy.
  eapply rtc_l; [by eapply exec1_sound|by apply IH].
Qed.
End Schedule.

(** *** Looking at where a schedule leads *)
Definition run_to (sched : list nat) (x : pool) : pool :=
  match exec sched x with Some y => y | None => x end.
Definition exec_ok (sched : list nat) (x : pool) : bool :=
  match exec sched x with Some _ => true | None => false end.

(** What thread [i] is about to do. *)
Definition status (x : pool) (i : nat) : option outcome :=
  match x.2 !! i with Some (Running p) => Some (local_step p x.1) | _ => None end.
Definition finished (x : pool) (i : nat) : bool :=
  match status x i with Some Finished => true | _ => false end.
Definition trapped (x : pool) (i : nat) : bool :=
  match status x i with Some Trapped => true | _ => false end.
Definition asleep_on (x : pool) (i : nat) : option Z :=
  match x.2 !! i with Some (Parked off _) => Some off | _ => None end.

Lemma run_to_reachable sched x : exec_ok sched x = true -> reachable x (run_to sched x).
Proof.
  unfold exec_ok, run_to. intros Hs. apply (exec_reachable sched). by destruct (exec sched x).
Qed.

Lemma status_running x i o :
  status x i = Some o -> exists p, x.2 !! i = Some (Running p) /\ local_step p x.1 = o.
Proof. unfold status. destruct (x.2 !! i) as [[p|]|]; try done. intros [= <-]. eauto. Qed.

Lemma finished_running x i :
  finished x i = true -> exists p, x.2 !! i = Some (Running p) /\ local_step p x.1 = Finished.
Proof. unfold finished. intros Hf. apply status_running. by destruct (status x i) as [[]|]. Qed.

Lemma trapped_running x i :
  trapped x i = true -> exists p, x.2 !! i = Some (Running p) /\ local_step p x.1 = Trapped.
Proof. unfold trapped. intros Hf. apply status_running. by destruct (status x i) as [[]|]. Qed.

Lemma asleep_parked x i off : asleep_on x i = Some off -> exists k, x.2 !! i = Some (Parked off k).
Proof. unfold asleep_on. destruct (x.2 !! i) as [[|o k]|]; try done. intros [= <-]. eauto. Qed.

(** ** Waking several threads *)
Section Alter.
Context {A : Type} (f : A -> A) (Hf : forall x, f (f x) = f x).

Definition alter_all (js : list nat) (l : list A) : list A := foldr (fun j => alter f j) l js.

Lemma length_alter_all js l : length (alter_all js l) = length l.
Proof using Type. induction js as [|j js IH]; [done|]. cbn. by rewrite length_alter. Qed.

Lemma alter_all_lookup js l i :
  alter_all js l !! i = if decide (i ∈ js) then f <$> l !! i else l !! i.
Proof using Hf.
  induction js as [|j js IH]; [done|]. cbn [alter_all foldr]. fold (alter_all js l).
  destruct (decide (i = j)) as [->|Hne].
  - rewrite list_lookup_alter_eq, decide_True by constructor. rewrite IH.
    case_decide; [|done]. destruct (l !! j); simpl; by rewrite ?Hf.
  - rewrite list_lookup_alter_ne, IH by done.
    destruct (decide (i ∈ js)); [rewrite decide_True by by constructor|rewrite decide_False]; try done.
    intros Hi. by apply elem_of_cons in Hi as [|].
Qed.
End Alter.

Lemma resume_idem rc th : resume rc (resume rc th) = resume rc th.
Proof. by destruct th. Qed.

Lemma waiters_spec off ts i :
  i ∈ waiters off ts <-> exists th, ts !! i = Some th /\ parked_on off th = true.
Proof.
  unfold waiters. rewrite list_elem_of_filter, elem_of_seq. split.
  - intros [H _]. destruct (ts !! i) as [th|]; [|done]. by exists th.
  - intros (th & E & Hp). rewrite E. split; [done|]. apply lookup_lt_Some in E. lia.
Qed.

Lemma length_waiters off ts : (length (waiters off ts) <= length ts)%nat.
Proof. unfold waiters. etrans; [apply length_filter|]. by rewrite length_seq. Qed.

Lemma length_filter_mono {A : Type} (P Q : A -> Prop) `{!forall x, Decision (P x), !forall x, Decision (Q x)} (l : list A) :
  (forall x, P x -> Q x) -> (length (filter P l) <= length (filter Q l))%nat.
Proof.
  intros HPQ. induction l as [|x l IH]; [done|]. rewrite !filter_cons. repeat case_decide; cbn; [lia| |lia|lia].
  exfalso. naive_solver.
Qed.

(** Everybody counts. *)
Lemma length_filter_all n : length (filter (fun _ : nat => true = true) (seq 0 n)) = n.
Proof.
  transitivity (length (seq 0 n)); [|apply length_seq]. f_equal. induction (seq 0 n) as [|x l IH]; [done|].
  rewrite filter_cons_True by done. by rewrite IH.
Qed.

(** No thread appears or disappears. *)
Lemma pool_step_length `{FutexKernel} x y : pool_step x y -> length y.2 = length x.2.
Proof.
  destruct 1 as [| |i p m off n p' ts woken _ _ _| ]; cbn; rewrite ?length_insert; try done.
  induction woken as [|j woken IH]; cbn; [apply length_insert|by rewrite length_alter].
Qed.

Lemma reachable_length `{FutexKernel} x y : reachable x y -> length y.2 = length x.2.
Proof.
  apply (reachable_inv (fun z => length z.2 = length x.2)); [|done]. intros z z' E Hs. by rewrite (pool_step_length z z').
Qed.

(** *** What each step of a thread keeps, the pool keeps *)
Section Keeps.
Context `{FutexKernel} (R : prog unit -> Prop).
Context (HR : forall p m, R p ->
  match local_step p m with Moves _ p' | Wakes _ _ p' => R p' | Sleeps _ k => forall rc, R (k rc) | _ => True end).

Definition keeps (th : thread) : Prop := match th with Running p => R p | Parked _ k => forall rc, R (k rc) end.

Lemma keeps_insert i j th th' (ts : list thread) :
  (keeps th -> keeps th') -> ts !! i = Some th -> (exists th0, ts !! j = Some th0 /\ keeps th0) ->
  exists th1, <[i := th']> ts !! j = Some th1 /\ keeps th1.
Proof using Type.
  intros Hk Hi (th0 & Hj & H0). destruct (decide (i = j)) as [->|Hne].
  - exists th'. split; [apply list_lookup_insert_eq; by eapply lookup_lt_Some|]. rewrite Hj in Hi. injection Hi as ->. auto.
  - exists th0. by rewrite list_lookup_insert_ne.
Qed.

Lemma keeps_resume rc th : keeps th -> keeps (resume rc th).
Proof using Type. destruct th; cbn; auto. Qed.

Lemma keeps_step x y j :
  pool_step x y -> (exists th, x.2 !! j = Some th /\ keeps th) -> exists th', y.2 !! j = Some th' /\ keeps th'.
Proof using HR.
  destruct 1 as [i p m m' p' ts Hi E|i p m off k ts Hi E|i p m off n p' ts woken Hi E _|i m off k rc ts Hi]; cbn; intros Hj;
    try (pose proof (HR p m) as Hp; rewrite E in Hp; by eapply (keeps_insert i j (Running p))).
  - pose proof (HR p m) as Hp. rewrite E in Hp. fold (alter_all (resume (0, 0)) woken (<[i := Running p']> ts)).
    rewrite alter_all_lookup by apply resume_idem.
    destruct (keeps_insert i j (Running p) (Running p') ts Hp Hi Hj) as (th' & -> & Hk). case_decide; [|eauto].
    eexists. split; [done|]. by apply keeps_resume.
  - apply (keeps_insert i j (Parked off k)); cbn; auto.
Qed.

Lemma keeps_reachable x y j th :
  reachable x y -> x.2 !! j = Some th -> keeps th -> exists th', y.2 !! j = Some th' /\ keeps th'.
Proof using HR.
  intros Hr Hj Hk. revert Hr. apply (reachable_inv (fun z => exists th', z.2 !! j = Some th' /\ keeps th')); [|eauto].
  intros z z' Hz Hs. by eapply keeps_step.
Qed.
End Keeps.

(** Either every thread awake is through, or one of them can go on. *)
Lemma all_finished_or (m : mem) (ts : list thread) :
  (forall i p, ts !! i = Some (Running p) -> local_step p m = Finished) \/
  exists i p, ts !! i = Some (Running p) /\ local_step p m <> Finished.
Proof.
  induction ts as [|th ts [IH|(i & p & Hi & Hp)]]; [left; by intros i p Hi|..].
  - destruct th as [p|off k]; [destruct (local_step p m) eqn:E|];
      try (right; exists 0%nat, p; split; [done|congruence]); left; intros [|i] q Hi; try done; try by eapply IH.
    by injection Hi as <-.
  - right. by exists (S i), p.
Qed.
