(* ===== verification/RelyGuarantee.v ===== *)
(** * Rely and guarantee

    A logic for the threads of a [Pool] that share ghost state.  A judgement
    [rg p st Q] says that [p], started in [st] and disturbed at any moment by
    steps in [rely], never runs into undefined behaviour, makes only steps in
    [guar], and returns only values and states in [Q].  It speaks of safety: a
    program that sleeps or loops for ever satisfies every [Q]. *)
From stdpp Require Import relations.
From S2P Require Import Prelude Memory Prog Pool.

(** What a step tells the kernel: nothing, or a wake on a word. *)
Inductive event : Set := Calm | Woke (off n : Z).

(** What a thread needs leave for: to sleep on a word, expecting a value, and
    to load bytes that are no flag. *)
Inductive request : Set := ToSleep (off expected : Z) | ToLoad (off : Z) (n : nat).

Section Logic.
Context {G : Type}.
Abbreviation st := (G * mem)%type.
Context (inv : st -> Prop) (rely : st -> st -> Prop) (guar : event -> st -> st -> Prop)
        (leave : request -> st -> Prop).

(** One action: what every way of answering it must satisfy. *)
Definition safe_act {B : Set} (x : act B) (m : mem) :
    (request -> Prop) -> (event -> B -> mem -> Prop) -> Prop :=
  match x in act B return (request -> Prop) -> (event -> B -> mem -> Prop) -> Prop with
  | AFutexWait off expected _ => fun W K => (atomic_ok m off 4 = true /\ W (ToSleep off expected)) /\ forall rc, K Calm rc m
  | AFutexWake off n => fun _ K => atomic_ok m off 4 = true /\ K (Woke off n) tt m
  | ALoad64 o off => fun W K =>
      W (ToLoad off 8) /\ match act_step (0, 0) (ALoad64 o off) m with Some (v, m') => K Calm v m' | None => False end
  | ALoadB off => fun W K =>
      W (ToLoad off 1) /\ match act_step (0, 0) (ALoadB off) m with Some (v, m') => K Calm v m' | None => False end
  | x => fun _ K => match act_step (0, 0) x m with Some (v, m') => K Calm v m' | None => False end
  end.

Lemma safe_act_mono {B : Set} (x : act B) m W (K K' : event -> B -> mem -> Prop) :
  safe_act x m W K -> (forall ev v m', K ev v m' -> K' ev v m') -> safe_act x m W K'.
Proof using Type.
  intros Hx HK. destruct x; cbn [safe_act] in *;
    try (destruct Hx as [? Hx]; split; [done|]; auto);
    destruct (act_step _ _ _) as [[? ?]|]; auto.
Qed.

Definition stable (P : st -> Prop) : Prop := forall s s', P s -> inv s -> rely s s' -> P s'.

Record closed {A : Set} (S : prog A -> st -> Prop) (Q : A -> st -> Prop) : Prop := {
  closed_stable p : stable (S p);
  closed_step p g m : S p (g, m) -> inv (g, m) ->
    match view p with
    | VRet a => Q a (g, m)
    | VTau p' => S p' (g, m)
    | VAct x k => safe_act x m (fun r => leave r (g, m))
                    (fun ev v m' => exists g', guar ev (g, m) (g', m') /\ S (k v) (g', m'))
    end
}.

Definition rg {A : Set} (p : prog A) (s : st) (Q : A -> st -> Prop) : Prop :=
  exists S, closed S Q /\ S p s.

Lemma rg_closed {A : Set} (Q : A -> st -> Prop) : closed (fun p s => rg p s Q) Q.
Proof using Type.
  split.
  - intros p s s' (S & HS & Hp) Hi Hr. exists S. split; [done|]. by eapply (closed_stable S Q HS).
  - intros p g m (S & HS & Hp) Hi. pose proof (closed_step S Q HS p g m Hp Hi) as H.
    destruct (view p) as [a|p'|B x k]; [done|by exists S|].
    eapply safe_act_mono; [exact H|]. intros ev v m' (g' & Hg & Hk). exists g'. split; [done|]. by exists S.
Qed.

(** ** Triples *)
Definition triple {A : Set} (P : st -> Prop) (p : prog A) (Q : A -> st -> Prop) : Prop :=
  forall s, P s -> inv s -> rg p s Q.

Lemma triple_ret {A : Set} (a : A) (P : st -> Prop) (Q : A -> st -> Prop) :
  stable (Q a) -> (forall s, P s -> Q a s) -> triple P (Ret a) Q.
Proof using Type.
  intros Hst HP s Hs Hi. exists (fun p s => p = Ret a /\ Q a s). split; [split|by auto].
  - intros p s1 s2 [-> Hq] Hi1 Hr. split; [done|]. by eapply Hst.
  - by intros p g m [-> Hq] Hi1.
Qed.

Lemma triple_act {A : Set} (x : act A) (P : st -> Prop) (Q : A -> st -> Prop) :
  stable P -> (forall v, stable (Q v)) ->
  (forall g m, P (g, m) -> inv (g, m) ->
     safe_act x m (fun r => leave r (g, m))
       (fun ev v m' => exists g', guar ev (g, m) (g', m') /\ Q v (g', m'))) ->
  triple P (Act x) Q.
Proof using Type.
  intros HP HQ Hx s Hs Hi.
  exists (fun p s => (p = Act x /\ P s) \/ exists v, p = Ret v /\ Q v s). split; [split|by auto].
  - intros p s1 s2 [[-> Hp]|(v & -> & Hv)] Hi1 Hr; [left|right].
    + split; [done|]. by eapply HP.
    + exists v. split; [done|]. by eapply HQ.
  - intros p g m [[-> Hp]|(v & -> & Hv)] Hi1; [|done]. simpl.
    eapply safe_act_mono; [by apply Hx|]. intros ev v m' (g' & Hg & Hv). exists g'. eauto.
Qed.

Lemma triple_conseq {A : Set} (P P' : st -> Prop) (p : prog A) (Q Q' : A -> st -> Prop) :
  triple P' p Q' -> (forall s, P s -> inv s -> P' s) -> (forall a s, Q' a s -> inv s -> Q a s) -> triple P p Q.
Proof using Type.
  intros Ht HP HQ s Hs Hi. destruct (Ht s (HP s Hs Hi) Hi) as (S & HS & Hp). exists S. split; [|done].
  split; [apply HS|]. intros q g m Hq Hi1. pose proof (closed_step _ _ HS q g m Hq Hi1) as H.
  destruct (view q); auto.
Qed.

Lemma triple_ex {A : Set} {X : Type} (P : X -> st -> Prop) (p : prog A) (Q : A -> st -> Prop) :
  (forall x, triple (P x) p Q) -> triple (fun s => exists x, P x s) p Q.
Proof using Type. intros Hp s [x Hs]. by apply (Hp x). Qed.

Lemma triple_pure {A : Set} (phi : Prop) (P : st -> Prop) (p : prog A) (Q : A -> st -> Prop) :
  (phi -> triple P p Q) -> triple (fun s => phi /\ P s) p Q.
Proof using Type. intros Hp s [Hphi Hs]. by apply Hp. Qed.

Lemma stable_and (P Q : st -> Prop) : stable P -> stable Q -> stable (fun s => P s /\ Q s).
Proof using Type. intros HP HQ s s' [Hp Hq] Hi Hr. split; [by eapply HP|by eapply HQ]. Qed.

Lemma stable_or (P Q : st -> Prop) : stable P -> stable Q -> stable (fun s => P s \/ Q s).
Proof using Type. intros HP HQ s s' [Hp|Hq] Hi Hr; [left; by eapply HP|right; by eapply HQ]. Qed.

Lemma stable_ex {X : Type} (P : X -> st -> Prop) : (forall x, stable (P x)) -> stable (fun s => exists x, P x s).
Proof using Type. intros HP s s' [x Hx] Hi Hr. exists x. by eapply HP. Qed.

Lemma stable_iff (P Q : st -> Prop) : (forall s, P s <-> Q s) -> stable P -> stable Q.
Proof using Type. intros HPQ HP s s' Hq Hi Hr. apply HPQ. apply HPQ in Hq. by eapply HP. Qed.

Lemma stable_pure (phi : Prop) : stable (fun _ => phi).
Proof using Type. by intros s s' H. Qed.

Section Bind.
Context {A B : Set} (k : B -> prog A) (R : B -> st -> Prop) (Q : A -> st -> Prop).
Context (Hk : forall b, triple (R b) (k b) Q).

(** Inside the first program, or already in the second. *)
Definition bound (q : prog A) (s : st) : Prop :=
  inv s -> (exists p, q = Bind p k /\ rg p s R) \/ rg q s Q.

Lemma bound_bind_ p s : rg p s R -> bound (bind_ p k) s.
Proof using Hk.
  intros Hp Hi. destruct p as [b| | | ]; simpl; [|by left; eauto..].
  right. destruct s as [g m]. pose proof (closed_step _ _ (rg_closed R) _ g m Hp Hi) as Hb. by apply Hk.
Qed.

Lemma closed_bound : (forall s s', rely s s' -> inv s') -> closed bound Q.
Proof using Hk.
  intros Hri. split.
  - intros q s s' Hq Hi Hr Hi'. destruct (Hq Hi) as [(p & -> & Hp)|Hp]; [left; exists p; split; [done|]|right].
    + by eapply (closed_stable _ _ (rg_closed R)).
    + by eapply (closed_stable _ _ (rg_closed Q)).
  - intros q g m Hq Hi. destruct (Hq Hi) as [(p & -> & Hp)|Hp].
    + pose proof (closed_step _ _ (rg_closed R) _ g m Hp Hi) as Hv. cbn [view].
      destruct (view p) as [b|p'|C x c].
      * pose proof (Hk b (g, m) Hv Hi) as Hb. pose proof (closed_step _ _ (rg_closed Q) _ g m Hb Hi) as H.
        destruct (view (k b)) as [a|p'|C x c]; [done|by right|].
        eapply safe_act_mono; [exact H|]. intros ev v m' (g' & Hg & Hv'). exists g'. split; [done|]. by right.
      * by apply bound_bind_.
      * eapply safe_act_mono; [exact Hv|]. intros ev v m' (g' & Hg & Hv'). exists g'. split; [done|]. by apply bound_bind_.
    + pose proof (closed_step _ _ (rg_closed Q) _ g m Hp Hi) as H.
      destruct (view q) as [a|p'|C x c]; [done|by right|].
      eapply safe_act_mono; [exact H|]. intros ev v m' (g' & Hg & Hv'). exists g'. split; [done|]. by right.
Qed.
End Bind.

Context (Hrely : forall s s', rely s s' -> inv s').

Lemma triple_bind {A B : Set} (P : st -> Prop) (p : prog B) (k : B -> prog A) (R : B -> st -> Prop) (Q : A -> st -> Prop) :
  triple P p R -> (forall b, triple (R b) (k b) Q) -> triple P (Bind p k) Q.
Proof using Hrely.
  intros Hp Hk s Hs Hi. exists (bound k R Q). split; [by apply closed_bound|].
  intros _. left. exists p. split; [done|]. by apply Hp.
Qed.

Section Iter.
Context {A S0 : Set} (body : S0 -> prog (S0 + A)) (I : S0 -> st -> Prop) (Q : A -> st -> Prop).
Abbreviation after := (fun (r : S0 + A) (s : st) => match r with inl s' => I s' s | inr a => Q a s end).
Abbreviation next := (fun r : S0 + A => match r with inl s' => Iter body s' | inr a => Ret a end).
Context (HI : forall s0, stable (I s0)) (HQ : forall a, stable (Q a)).
Context (Hbody : forall s0, triple (I s0) (body s0) after).

Definition looping (q : prog A) (s : st) : Prop :=
  inv s -> (exists s0, q = Iter body s0 /\ I s0 s) \/ (exists p, q = Bind p next /\ rg p s after) \/
           (exists a, q = Ret a /\ Q a s).

Lemma looping_next r s : after r s -> looping (next r) s.
Proof using Type. intros Hr _. destruct r; eauto 10. Qed.

Lemma looping_bind_ p s : rg p s after -> looping (bind_ p next) s.
Proof using Type.
  intros Hp Hi. destruct p as [r| | | ]; simpl; [|by right; left; eauto..].
  destruct s as [g m]. pose proof (closed_step _ _ (rg_closed after) _ g m Hp Hi) as Hr. by apply looping_next.
Qed.

Lemma looping_iter s0 g m :
  I s0 (g, m) -> inv (g, m) -> looping (bind_ (body s0) next) (g, m).
Proof using Hbody. intros Hs Hi. by apply looping_bind_, Hbody. Qed.

Lemma closed_looping : closed looping Q.
Proof using Hrely HI HQ Hbody.
  split.
  - intros q s s' Hq Hi Hr Hi'. destruct (Hq Hi) as [(s0 & -> & Hs)|[(p & -> & Hp)|(a & -> & Ha)]].
    + left. exists s0. split; [done|]. by eapply HI.
    + right; left. exists p. split; [done|]. by eapply (closed_stable _ _ (rg_closed after)).
    + right; right. exists a. split; [done|]. by eapply HQ.
  - intros q g m Hq Hi. destruct (Hq Hi) as [(s0 & -> & Hs)|[(p & -> & Hp)|(a & -> & Ha)]].
    + cbn [view]. by apply looping_iter.
    + pose proof (closed_step _ _ (rg_closed after) _ g m Hp Hi) as Hv. cbn [view].
      destruct (view p) as [r|p'|C x c].
      * destruct r as [s'|a]; cbn [view]; [by apply looping_iter|done].
      * by apply looping_bind_.
      * eapply safe_act_mono; [exact Hv|]. intros ev v m' (g' & Hg & Hv'). exists g'. split; [done|]. by apply looping_bind_.
    + done.
Qed.

Lemma triple_iter s0 : triple (I s0) (Iter body s0) Q.
Proof using Hrely HI HQ Hbody.
  intros s Hs Hi. exists looping. split; [apply closed_looping|]. intros _. left. eauto.
Qed.
End Iter.

Lemma triple_forever {A : Set} (body : prog (option A)) (I : st -> Prop) (Q : A -> st -> Prop) :
  stable I -> (forall a, stable (Q a)) ->
  triple I body (fun r s => match r with Some a => Q a s | None => I s end) ->
  triple I (forever body) Q.
Proof using Hrely.
  intros HI HQ Hb. unfold forever.
  eapply (triple_iter _ (fun _ : unit => I) Q); [done|done|]. intros [].
  eapply triple_bind; [exact Hb|]. intros [a|]; apply triple_ret; simpl; auto.
Qed.
End Logic.

(** A thread that may do what it likes. *)
Definition anywhere {S : Type} (r : request) (s : S) : Prop := True.

(** A thread that may sleep where [sleeps] says. *)
Definition asking {S : Type} (sleeps : Z -> Z -> S -> Prop) (r : request) (s : S) : Prop :=
  match r with ToSleep off expected => sleeps off expected s | ToLoad _ _ => True end.

(** A thread that loads only what the others leave alone. *)
Definition staying {G : Type} (sleeps : Z -> Z -> G * mem -> Prop) (rely : G * mem -> G * mem -> Prop)
    (r : request) (s : G * mem) : Prop :=
  match r with
  | ToSleep off expected => sleeps off expected s
  | ToLoad off n => forall s', rely s s' -> rd s'.2 off n = rd s.2 off n
  end.
Definition freely {S : Type} (off expected : Z) (s : S) : Prop := True.

(** ** Pools of threads

    Each thread's guarantee is every other's rely.  Besides, the pool keeps an
    account of the wakes owed to the sleepers of one word [a]: while the ghost
    state is [settled] none is owed, and then every sleeper of [a] expects what
    the word holds.  Changing the word unsettles, unless to what its sleepers
    expect; waking everybody who [may] sleep on it settles. *)
Section Pool.
Context {G : Type} `{FutexKernel}.
Abbreviation st := (G * mem)%type.
Context (inv : st -> Prop) (rely : nat -> st -> st -> Prop) (guar : nat -> event -> st -> st -> Prop)
        (leave : nat -> request -> st -> Prop) (Q : nat -> unit -> st -> Prop)
        (a many : Z) (may : nat -> bool) (settled : G -> Prop).

Abbreviation rgi := (fun i p s => rg inv (rely i) (guar i) (leave i) p s (Q i)).

(** A sleeper is a program whose next action is its futex wait. *)
Definition parked_rg (i : nat) (off : Z) (k : Z * Z -> prog unit) (s : st) (expected : Z) : Prop :=
  exists p t, view p = VAct (AFutexWait off expected t) k /\ rgi i p s.

Definition thread_rg (i : nat) (th : thread) (s : st) : Prop :=
  match th with
  | Running p => rgi i p s
  | Parked off k => exists expected, parked_rg i off k s expected /\
                      (settled s.1 -> off = a -> ld32 s.2 a = expected)
  end.

(** At most [many] of [n] threads may sleep on [a]. *)
Definition few (n : nat) : Prop := Z.of_nat (length (filter (fun i => may i = true) (seq 0 n))) <= many.

Definition pool_rg (x : pool) : Prop :=
  few (length x.2) /\
  exists g, inv (g, x.1) /\ forall i th, x.2 !! i = Some th -> thread_rg i th (g, x.1).

Lemma rg_step i p g m :
  rgi i p (g, m) -> inv (g, m) ->
  match view p with
  | VRet v => Q i v (g, m)
  | VTau p' => rgi i p' (g, m)
  | VAct x k => safe_act x m (fun r => leave i r (g, m))
                  (fun ev v m' => exists g', guar i ev (g, m) (g', m') /\ rgi i (k v) (g', m'))
  end.
Proof using Type. apply (closed_step _ _ _ _ _ _ (rg_closed inv (rely i) (guar i) (leave i) (Q i))). Qed.

Lemma sleeps_view p m off k :
  local_step p m = Sleeps off k ->
  exists expected t, view p = VAct (AFutexWait off expected t) k /\ ld32 m off = expected.
Proof using Type.
  unfold local_step. destruct (view p) as [v|p'|B x c]; try done. intros E.
  destruct x; cbn [act_outcome] in E;
    try (destruct (act_step _ _ _) as [[? ?]|]; done); destruct (atomic_ok _ _ _); try done.
  destruct (Z.eqb_spec (ld32 m off0) expected); [|done]. injection E as <- <-. eauto.
Qed.

Lemma not_trapped i p g m : rgi i p (g, m) -> inv (g, m) -> local_step p m <> Trapped.
Proof using Type.
  intros Hp Hi E. apply rg_step in Hp; [|done]. unfold local_step in E.
  destruct (view p) as [v|p'|B x c]; try done. destruct x; cbn [act_outcome safe_act] in *;
    try (try destruct Hp as [_ Hp]; destruct (act_step _ _ _) as [[? ?]|]; done);
    [destruct Hp as [[Hok _] _]|destruct Hp as [Hok _]]; rewrite Hok in E; try done. by destruct (_ =? _).
Qed.

(** What a running thread does next keeps it safe. *)
Lemma rg_local i p g m :
  rgi i p (g, m) -> inv (g, m) ->
  match local_step p m with
  | Moves m' p' => exists g', (guar i Calm (g, m) (g', m') \/ (g', m') = (g, m)) /\ rgi i p' (g', m')
  | Wakes off n p' => exists g', guar i (Woke off n) (g, m) (g', m) /\ rgi i p' (g', m)
  | _ => True
  end.
Proof using Type.
  intros Hp Hi. apply rg_step in Hp; [|done]. unfold local_step.
  destruct (view p) as [v|p'|B x c]; [done|by exists g; auto|]. destruct x; cbn [act_outcome safe_act] in *;
    try (try destruct Hp as [_ Hp]; destruct (act_step _ _ _) as [[? ?]|]; [|done]; destruct Hp as (g' & Hg & Hp); by exists g'; auto).
  - destruct Hp as [[Hok _] Hp]. rewrite Hok. destruct (_ =? _); [done|].
    destruct (Hp (-1, EAGAIN)) as (g' & Hg & Hk). by exists g'; auto.
  - destruct Hp as [Hok (g' & Hg & Hk)]. rewrite Hok. by exists g'.
Qed.

Lemma parked_resume i off k expected rc g m :
  parked_rg i off k (g, m) expected -> inv (g, m) ->
  leave i (ToSleep off expected) (g, m) /\ exists g', guar i Calm (g, m) (g', m) /\ thread_rg i (Running (k rc)) (g', m).
Proof using Type.
  intros (p & t & E & Hp) Hi. apply rg_step in Hp; [|done]. rewrite E in Hp. destruct Hp as [[_ Hw] Hp].
  split; [done|]. apply Hp.
Qed.

Context (Hguar : forall i ev s s', guar i ev s s' -> inv s')
        (Hother : forall i j ev s s', i <> j -> guar i ev s s' -> rely j s s')
        (Hcalm : forall i g m g' m', guar i Calm (g, m) (g', m') -> settled g' ->
                   settled g /\ ld32 m' a = ld32 m a \/ forall j e, leave j (ToSleep a e) (g', m') -> ld32 m' a = e).

(** A step to [(g', m')] leaves the account in order. *)
Definition in_order (g : G) (m : mem) (g' : G) (m' : mem) : Prop :=
  settled g' -> settled g /\ ld32 m' a = ld32 m a \/ forall j e, leave j (ToSleep a e) (g', m') -> ld32 m' a = e.

Lemma rgi_stable i p s s' : rgi i p s -> inv s -> rely i s s' -> rgi i p s'.
Proof using Type. by apply (closed_stable _ _ _ _ _ _ (rg_closed inv (rely i) (guar i) (leave i) (Q i))). Qed.

Lemma thread_rg_stable i th g m g' m' :
  thread_rg i th (g, m) -> inv (g, m) -> inv (g', m') -> rely i (g, m) (g', m') ->
  in_order g m g' m' -> thread_rg i th (g', m').
Proof using Type.
  intros Hth Hi Hi' Hr Hs. destruct th as [p|off k]; [by eapply rgi_stable|].
  destruct Hth as (e & (p & t & E & Hp) & He). exists e.
  assert (Hp' : parked_rg i off k (g', m') e) by (exists p, t; split; [done|by eapply rgi_stable]). split; [done|].
  cbn [fst snd] in *. intros Hs' ->. destruct (Hs Hs') as [[Hs0 ->]|Hq]; [by apply He|].
  apply (Hq i). by apply (parked_resume i a k e (0, 0) g' m' Hp' Hi').
Qed.

(** One thread steps within its guarantee. *)
Lemma pool_rg_update i th th' g m g' m' ts :
  few (length ts) ->
  inv (g, m) -> (forall j x, ts !! j = Some x -> thread_rg j x (g, m)) -> ts !! i = Some th ->
  ((exists ev, guar i ev (g, m) (g', m')) /\ in_order g m g' m' \/ (g', m') = (g, m)) ->
  thread_rg i th' (g', m') -> pool_rg (m', <[i := th']> ts).
Proof using Hguar Hother.
  intros Hl Hi Hts Hth Hg Hth'. split; [cbn; by rewrite length_insert|].
  exists g'. split; [destruct Hg as [[[ev Hg] _]|[= -> ->]]; [by eapply Hguar|done]|].
  intros j x Hj. apply list_lookup_insert_Some in Hj as [(<- & <- & _)|[Hne Hj]]; [done|].
  destruct Hg as [[[ev Hg] Hs]|[= -> ->]]; [|by apply Hts].
  eapply thread_rg_stable; [by apply Hts|done|by eapply Hguar|by eapply Hother|done].
Qed.

Lemma pool_rg_moves i th th' g m g' m' ts :
  few (length ts) ->
  inv (g, m) -> (forall j x, ts !! j = Some x -> thread_rg j x (g, m)) -> ts !! i = Some th ->
  guar i Calm (g, m) (g', m') \/ (g', m') = (g, m) ->
  thread_rg i th' (g', m') -> pool_rg (m', <[i := th']> ts).
Proof using Hguar Hother Hcalm.
  intros Hl Hi Hts Hth Hg Hth'. eapply pool_rg_update; [done|exact Hi|done|exact Hth| |exact Hth'].
  destruct Hg as [Hg|Hg]; [left|by right]. split; [by exists Calm|]. intros Hs. by apply (Hcalm i g m).
Qed.

Lemma pool_rg_resume j rc m ts : pool_rg (m, ts) -> pool_rg (m, alter (resume rc) j ts).
Proof using Hguar Hother Hcalm.
  intros (Hl & g & Hi & Hts). cbn in *. destruct (ts !! j) as [th|] eqn:Ej.
  2:{ split; [cbn; by rewrite length_alter|]. exists g. split; [done|]. intros i x. cbn.
      destruct (decide (i = j)) as [->|Hne];
        [by rewrite list_lookup_alter_eq, Ej|rewrite list_lookup_alter_ne by done; eauto]. }
  assert (E : alter (resume rc) j ts = <[j := resume rc th]> ts).
  { apply list_eq. intros i. destruct (decide (i = j)) as [->|Hne].
    - by rewrite list_lookup_alter_eq, Ej, list_lookup_insert_eq by by eapply lookup_lt_Some.
    - by rewrite list_lookup_alter_ne, list_lookup_insert_ne. }
  rewrite E. destruct th as [p|off k].
  - eapply pool_rg_moves; [done|done|done|exact Ej|by right|by apply Hts].
  - destruct (Hts j _ Ej) as (e & Hp & _).
    destruct (parked_resume j off k e rc g m Hp Hi) as (_ & g' & Hg & Hk).
    by eapply pool_rg_moves; [done|done|done|exact Ej|left|].
Qed.

Lemma pool_rg_resumes rc woken m ts :
  pool_rg (m, ts) -> pool_rg (m, foldr (fun j => alter (resume rc) j) ts woken).
Proof using Hguar Hother Hcalm. intros H0. induction woken as [|j js IH]; [done|]. cbn. by apply pool_rg_resume. Qed.
End Pool.

Section Soundness.
Context {G : Type} `{FutexKernel}.
Abbreviation st := (G * mem)%type.
Context (inv : st -> Prop) (rely : nat -> st -> st -> Prop) (guar : nat -> event -> st -> st -> Prop)
        (leave : nat -> request -> st -> Prop) (Q : nat -> unit -> st -> Prop)
        (a many : Z) (may : nat -> bool) (settled : G -> Prop).
Context (Hguar : forall i ev s s', guar i ev s s' -> inv s')
        (Hother : forall i j ev s s', i <> j -> guar i ev s s' -> rely j s s')
        (Hmay : forall i e s, leave i (ToSleep a e) s -> may i = true)
        (Hcalm : forall i g m g' m', guar i Calm (g, m) (g', m') -> settled g' ->
                   settled g /\ ld32 m' a = ld32 m a \/ forall j e, leave j (ToSleep a e) (g', m') -> ld32 m' a = e)
        (Hwoke : forall i off n g m g' m', guar i (Woke off n) (g, m) (g', m') ->
                   settled g' -> settled g \/ (off = a /\ many <= n)).
Abbreviation pool_rg := (pool_rg inv rely guar leave Q a many may).

Lemma pool_rg_strict m ts :
  pool_rg (fun _ => False) (m, ts) -> (forall i k, ts !! i <> Some (Parked a k)) -> pool_rg settled (m, ts).
Proof using Type.
  intros (Hl & g & Hi & Hts) Hno. split; [done|]. exists g. split; [done|]. intros i th Hth.
  specialize (Hts i th Hth). destruct th as [p|off k]; [done|]. destruct Hts as (e & Hp & _).
  exists e. split; [done|]. intros _ ->. by destruct (Hno i k).
Qed.

(** The sleepers of [a] are among those who may sleep on it. *)
Lemma few_waiters (settled0 : G -> Prop) m ts :
  pool_rg settled0 (m, ts) -> Z.of_nat (length (waiters a ts)) <= many.
Proof using Hmay.
  intros (Hl & g & Hi & Hts). cbn [fst snd] in *. unfold few in Hl. etrans; [|exact Hl]. apply Nat2Z.inj_le.
  unfold waiters. apply length_filter_mono. intros i Hp.
  destruct (ts !! i) as [[p|off k]|] eqn:Ei; try done. cbn in Hp. zbool. subst off.
  destruct (Hts i _ Ei) as (e & Hpk & _).
  destruct (parked_resume _ _ _ _ _ a settled0 i a k e (0, 0) g m Hpk Hi) as [Hs _]. by eapply Hmay.
Qed.

(** Waking everybody leaves nobody asleep. *)
Lemma woken_all i p rc n woken ts :
  Z.of_nat (length (waiters a ts)) <= n -> wakes (waiters a ts) n woken ->
  forall j k, foldr (fun j => alter (resume rc) j) (<[i := Running p]> ts) woken !! j <> Some (Parked a k).
Proof using Type.
  intros Hn Hw j k Hj. change (alter_all (resume rc) woken (<[i := Running p]> ts) !! j = Some (Parked a k)) in Hj.
  rewrite (alter_all_lookup _ (resume_idem rc)) in Hj. destruct (decide (j ∈ woken)) as [Hin|Hout].
  - apply fmap_Some in Hj as (th & _ & E). by destruct th.
  - apply Hout, (wakes_all _ _ _ Hw); [done|].
    apply waiters_spec. apply list_lookup_insert_Some in Hj as [(_ & ? & _)|[_ Hj]]; [done|].
    exists (Parked a k). split; [done|]. simpl. by rewrite Z.eqb_refl.
Qed.

Lemma pool_rg_step x y : pool_rg settled x -> pool_step x y -> pool_rg settled y.
Proof using Hguar Hother Hmay Hcalm Hwoke.
  intros Hx Hs. pose proof Hx as (Hl & g & Hi & Hts).
  destruct Hs as [i p m m' p' ts Ei E|i p m off k ts Ei E|i p m off n p' ts woken Ei E Hw|i m off k rc ts Ei];
    cbn in *; pose proof (Hts i _ Ei) as Hp.
  - pose proof (rg_local _ _ _ _ _ i p g m Hp Hi) as Hstep. rewrite E in Hstep. destruct Hstep as (g' & Hg & Hp').
    by eapply pool_rg_moves.
  - apply sleeps_view in E as (e & t & E & He). eapply pool_rg_moves; try done; [by right|].
    exists e. split; [by exists p, t|]. by intros _ ->.
  - pose proof (rg_local _ _ _ _ _ i p g m Hp Hi) as Hstep. rewrite E in Hstep. destruct Hstep as (g' & Hg & Hp').
    destruct (decide (off = a /\ many <= n)) as [[-> Hn]|Hne].
    + apply pool_rg_strict; [|apply (woken_all i p' _ n); [etrans; [apply (few_waiters settled m ts Hx)|done]|done]].
      apply pool_rg_resumes; [done|done|done|].
      eapply pool_rg_update; [done|done|done|exact Hi| |exact Ei|left; split; [by eexists|by intros []]|exact Hp'].
      intros j th Hj. specialize (Hts j th Hj). destruct th as [q|off' k']; [done|].
      destruct Hts as (e & Hq & _). by exists e.
    + apply pool_rg_resumes; [done|done|done|].
      eapply pool_rg_update; [done|done|done|exact Hi|exact Hts|exact Ei| |exact Hp'].
      left. split; [by eexists|]. intros Hs. left. split; [|done]. by destruct (Hwoke _ _ _ _ _ _ _ Hg Hs).
  - destruct Hp as (e & Hp & _). destruct (parked_resume _ _ _ _ _ a settled i off k e rc g m Hp Hi) as (_ & g' & Hg & Hk).
    by eapply pool_rg_moves; [done|done|done|done|exact Hi|done|exact Ei|left|].
Qed.

(** Soundness.  In every reachable state one ghost state serves all threads:
    none runs into undefined behaviour, the finished ones satisfy their
    postcondition, the sleepers may sleep where they do, and those of the word
    expect what it holds unless a wake is owed to them. *)
Lemma pool_rg_sound x m ts :
  pool_rg settled x -> reachable x (m, ts) ->
  (forall i p, ts !! i = Some (Running p) -> local_step p m <> Trapped) /\
  exists g, inv (g, m) /\
    (forall i p, ts !! i = Some (Running p) -> local_step p m = Finished -> exists v, Q i v (g, m)) /\
    (forall i off k, ts !! i = Some (Parked off k) ->
       exists expected, leave i (ToSleep off expected) (g, m) /\ (settled g -> off = a -> ld32 m a = expected)).
Proof using Hguar Hother Hmay Hcalm Hwoke.
  intros Hx Hr. assert (Hy : pool_rg settled (m, ts)).
  { revert Hr. apply (reachable_inv (pool_rg settled)); [apply pool_rg_step|done]. }
  destruct Hy as (_ & g & Hg & Hts). cbn in *. split.
  { intros i p Hi. pose proof (Hts i _ Hi) as Hp. by eapply not_trapped. }
  exists g. split; [done|]. split.
  - intros i p Hi E. pose proof (Hts i _ Hi) as Hp. pose proof (rg_step _ _ _ _ _ i p g m Hp Hg) as Hv.
    unfold local_step in E. destruct (view p) as [v|p'|B x' c] eqn:Ev; [by exists v|done|].
    destruct x'; cbn [act_outcome] in E; try (destruct (act_step _ _ _) as [[? ?]|]; done);
      destruct (atomic_ok _ _ _); try done. by destruct (_ =? _).
  - intros i off k Hi. destruct (Hts i _ Hi) as (e & Hp & He). exists e. split; [|done].
    by destruct (parked_resume _ _ _ _ _ a settled i off k e (0, 0) g m Hp Hg).
Qed.
End Soundness.

(** Where everybody may sleep. *)
Lemma few_all (many : Z) (n : nat) : Z.of_nat n <= many -> few many (fun _ => true) n.
Proof. unfold few. by rewrite length_filter_all. Qed.
