(* ===== verification/StoreBuffer.v ===== *)
(** * Store buffers

    The same threads on a machine that lets a thread's stores reach the memory
    late: each thread has a buffer of pending stores, reads its own stores out
    of it, and empties it before a locked instruction or a system call.  When a
    store may leave the buffer is a parameter: first in, first out is x86
    (TSO); letting a store overtake older ones it does not overlap, unless it
    is a release, is what a release store promises and no more.

    On the first machine a single writer and readers that do not store behave
    as in the interleaving of [Pool]; on the second they need not. *)
From stdpp Require Import relations.
From S2P Require Import Prelude Memory Prog Pool.

(** ** The machine *)
Record pending : Set := Pending { p_order : memory_order; p_off : Z; p_bytes : list Z }.

Definition put (m : mem) (w : pending) : mem := wr m (p_off w) (p_bytes w).

(** The memory as the owner of the buffer sees it. *)
Definition drain (m : mem) (buf : list pending) : mem := foldl put m buf.

Definition store_of {B : Set} (x : act B) : list pending :=
  match x with
  | AStore32 o off v => [Pending o off (le_bytes 4 v)]
  | AStore64 o off v => [Pending o off (le_bytes 8 v)]
  | AStoreB off b => [Pending plain off [b]]
  | _ => []
  end.

(** Locked instructions and system calls wait for the buffer. *)
Definition is_fence {B : Set} (x : act B) : bool :=
  match x with
  | AXchg32 _ _ _ | AFutexWait _ _ _ | AFutexWake _ _ => true
  | _ => false
  end.

Definition stored (p : prog unit) : list pending :=
  match view p with VAct x _ => store_of x | _ => [] end.
Definition fencing (p : prog unit) : bool :=
  match view p with VAct x _ => is_fence x | _ => false end.

(** May the [k]-th pending store leave? *)
Definition leave_rule : Type := list pending -> nat -> bool.

Definition first_only : leave_rule := fun _ k => (k =? 0)%nat.

Definition overlap (a b : pending) : bool :=
  (p_off a <? p_off b + Z.of_nat (length (p_bytes b))) &&
  (p_off b <? p_off a + Z.of_nat (length (p_bytes a))).

Definition is_release (o : memory_order) : bool := match o with release => true | _ => false end.

Definition release_only : leave_rule := fun buf k =>
  match buf !! k with
  | Some w => (k =? 0)%nat || (negb (is_release (p_order w)) && forallb (fun w' => negb (overlap w w')) (take k buf))
  | None => false
  end.

Abbreviation buffered := (thread * list pending)%type.
Abbreviation machine := (mem * list buffered)%type.

Section Machine.
Context `{FutexKernel} (may_leave : leave_rule).

Inductive sb_step : machine -> machine -> Prop :=
| sb_runs i p buf m m' p' ts         (* a load, a store into the buffer, a silent step *)
    (Eb : ts !! i = Some (Running p, buf)) (Ef : fencing p = false)
    (Ep : local_step p (drain m buf) = Moves m' p') :
    sb_step (m, ts) (m, <[i := (Running p', buf ++ stored p)]> ts)
| sb_leaves i th buf k w m ts
    (Eb : ts !! i = Some (th, buf)) (Ek : buf !! k = Some w) (El : may_leave buf k = true) :
    sb_step (m, ts) (put m w, <[i := (th, delete k buf)]> ts)
| sb_moves i p m m' p' ts            (* with an empty buffer, as in the pool *)
    (Eb : ts !! i = Some (Running p, [])) (Ef : fencing p = true) (Ep : local_step p m = Moves m' p') :
    sb_step (m, ts) (m', <[i := (Running p', [])]> ts)
| sb_sleeps i p m off k ts
    (Eb : ts !! i = Some (Running p, [])) (Ep : local_step p m = Sleeps off k) :
    sb_step (m, ts) (m, <[i := (Parked off k, [])]> ts)
| sb_wakes i p m off n p' ts woken
    (Eb : ts !! i = Some (Running p, [])) (Ep : local_step p m = Wakes off n p')
    (Ew : wakes (waiters off (fst <$> ts)) n woken) :
    sb_step (m, ts) (m, alter_all (fun thb => (resume (0, 0) thb.1, thb.2)) woken
                          (<[i := (Running p', [])]> ts))
| sb_interrupted i m off k rc ts (Eb : ts !! i = Some (Parked off k, [])) :
    sb_step (m, ts) (m, <[i := (Running (k rc), [])]> ts).

Definition sb_reachable : machine -> machine -> Prop := rtc sb_step.
End Machine.

Definition idle (p : prog unit) : buffered := (Running p, []).

(** ** What a program does on its own *)

(** Storing is putting what was stored. *)
Lemma local_step_put p m m' p' :
  fencing p = false -> local_step p m = Moves m' p' -> m' = drain m (stored p).
Proof.
  unfold fencing, local_step, stored. destruct (view p) as [|q|B x k]; [done|by intros _ [= <- _]|].
  destruct x; try done; cbn [act_outcome act_step]; intros _; destruct (guard_opt _ _) as [[v' m1]|] eqn:E; try done;
    unfold guard_opt in E; destruct (_ : bool) in E; try done; injection E as <- <-; by intros [= <- _].
Qed.

Lemma stored_once p : stored p = [] \/ exists w, stored p = [w].
Proof. unfold stored. destruct (view p) as [| |B x k]; auto. destruct x; eauto. Qed.

Lemma drain_app m a b : drain m (a ++ b) = drain (drain m a) b.
Proof. apply foldl_app. Qed.

(** [ran p m buf q]: running alone from [p], the thread stores [buf] and
    comes to [q]. *)
Inductive ran : prog unit -> mem -> list pending -> prog unit -> Prop :=
| ran_nil p m : ran p m [] p
| ran_cons p m m1 p1 buf q :
    fencing p = false -> local_step p m = Moves m1 p1 -> ran p1 m1 buf q ->
    ran p m (stored p ++ buf) q.

Lemma ran_snoc p m buf q m' q' :
  ran p m buf q -> fencing q = false -> local_step q (drain m buf) = Moves m' q' ->
  ran p m (buf ++ stored q) q'.
Proof.
  induction 1 as [p m|p m m1 p1 buf q Hf Hp Hr IH]; intros Hq Hs.
  - cbn [app]. rewrite <- (app_nil_r (stored p)). eapply ran_cons; [done|exact Hs|constructor].
  - rewrite <- app_assoc. eapply ran_cons; [done|exact Hp|]. apply IH; [done|].
    by rewrite drain_app, <- (local_step_put _ _ _ _ Hf Hp) in Hs.
Qed.

(** What each step keeps, running on keeps. *)
Lemma ran_keeps (R : prog unit -> Prop) p m buf q :
  (forall p m, R p ->
     match local_step p m with Moves _ p' | Wakes _ _ p' => R p' | Sleeps _ k => forall rc, R (k rc) | _ => True end) ->
  R p -> ran p m buf q -> R q.
Proof. intros HR Hp Hr. induction Hr as [p m|p m m1 p1 buf q _ E _ IH]; [done|]. apply IH. pose proof (HR p m Hp) as H. by rewrite E in H. Qed.

Section Alone.
Context `{FutexKernel}.

Lemma moves_reachable i p m m' p' ts :
  ts !! i = Some (Running p) -> local_step p m = Moves m' p' ->
  reachable (m, ts) (m', <[i := Running p']> ts).
Proof using Type. intros Hi Hp. apply rtc_once. by eapply step_moves. Qed.

(** Catching up with what it stored. *)
Lemma ran_reachable p m buf q i ts :
  ran p m buf q -> ts !! i = Some (Running p) ->
  reachable (m, ts) (drain m buf, <[i := Running q]> ts).
Proof using Type.
  intros Hr. revert ts. induction Hr as [p m|p m m1 p1 buf q Hf Hp Hr IH]; intros ts Hi.
  - rewrite list_insert_id by done. constructor.
  - pose proof (lookup_lt_Some _ _ _ Hi) as Hlt.
    eapply rtc_trans; [by eapply moves_reachable|].
    rewrite drain_app, <- (local_step_put _ _ _ _ Hf Hp), <- (list_insert_insert_eq _ i (Running q) (Running p1)).
    apply IH. by apply list_lookup_insert_eq.
Qed.

End Alone.

(** What an action puts into the memory. *)
Definition writes (p : prog unit) : list pending :=
  match view p with
  | VAct (AXchg32 o off v) _ => [Pending o off (le_bytes 4 v)]
  | VAct x _ => store_of x
  | _ => []
  end.

(** ** Programs that store nothing *)
Definition reading {B : Set} (x : act B) : Prop :=
  match x with
  | AStore32 _ _ _ | AStore64 _ _ _ | AStoreB _ _ | AXchg32 _ _ _ => False
  | _ => True
  end.

Abbreviation reads_only := (uses_only (@reading)).

Lemma reads_only_writes p : reads_only p -> stored p = [] /\ writes p = [].
Proof.
  intros Hp%uses_only_view. unfold stored, writes. destruct (view p) as [|q|B x k]; [done..|]. destruct Hp as [Hx _]. by destruct x.
Qed.

(** *** Programs whose next action does not look at the memory *)
Definition loadless {B : Set} (x : act B) : Prop :=
  match x with ALoad32 _ _ | ALoad64 _ _ | ALoadB _ => False | _ => True end.

Lemma length_drain m buf : length (drain m buf) = length m.
Proof. revert m. induction buf as [|w buf IH]; intros m; [done|]. cbn. fold (drain (put m w) buf). rewrite IH. apply length_wr. Qed.

(** A store does the same whatever the memory holds. *)
Lemma blind_moves p m m1 p1 m' :
  match view p with VAct x _ => loadless x | _ => True end ->
  fencing p = false -> local_step p m = Moves m1 p1 -> length m' = length m ->
  local_step p m' = Moves (drain m' (stored p)) p1.
Proof.
  unfold fencing, local_step, stored. destruct (view p) as [|q|B x k]; [done|by intros _ _ [= _ ->]|].
  intros Hx. destruct x; try done; cbn [act_outcome act_step store_of]; intros _; unfold guard_opt; intros E Hl.
  - rewrite (atomic_ok_length m' m) by done. destruct (atomic_ok m _ _); [|done]. by injection E as _ <-.
  - rewrite (atomic_ok_length m' m) by done. destruct (atomic_ok m _ _); [|done]. by injection E as _ <-.
  - rewrite (in_bounds_length m' m) by done. destruct (in_bounds m _ _); [|done]. by injection E as _ <-.
Qed.

(** ** First in, first out

    A thread that has stores in its buffer is ahead of the interleaving by what
    it did since the oldest of them.  If no other thread can change what it
    read on the way - a condition on the interleaving alone - each step of the
    machine is some steps of the interleaving, which is behind by what waits in
    the buffers. *)

Lemma stored_writes p w : stored p = [w] -> writes p = [w].
Proof. unfold stored, writes. destruct (view p) as [|q|B x k]; [done..|]. by destruct x. Qed.

Lemma fenced_moves p m m' p' :
  fencing p = true -> local_step p m = Moves m' p' -> m' = m \/ exists w, writes p = [w] /\ m' = put m w.
Proof.
  unfold fencing, local_step, writes. destruct (view p) as [|q|B x k]; [done..|]. destruct x; try done;
    cbn [act_outcome act_step]; unfold guard_opt; intros _; repeat case_match; intros; simplify_eq; eauto.
Qed.

Section Robust.
Context `{FutexKernel}.

(** A write of thread [j] leaves what thread [i] does next as it is, where [i]
    has run from a store of its own. *)
Definition robust (x : pool) : Prop :=
  forall m us i j p buf q q' m1 pj w pj',
    reachable x (m, us) -> i <> j -> us !! i = Some (Running p) -> stored p <> [] -> ran p m buf q ->
    us !! j = Some (Running pj) -> writes pj = [w] -> local_step pj m = Moves (put m w) pj' ->
    fencing q = false -> local_step q (drain m buf) = Moves m1 q' ->
    exists m2, local_step q (drain (put m w) buf) = Moves m2 q'.

Definition trail (m : mem) (th' : thread) (buf : list pending) (th : thread) : Prop :=
  match buf with
  | [] => th' = th
  | _ => exists p q, th' = Running p /\ th = Running q /\ stored p <> [] /\ ran p m buf q
  end.

Definition trails (m : mem) (ts : list buffered) (us : list thread) : Prop :=
  length us = length ts /\
  forall i th buf, ts !! i = Some (th, buf) -> exists th', us !! i = Some th' /\ trail m th' buf th.

Lemma trail_parked m th' buf off k : trail m th' buf (Parked off k) -> buf = [] /\ th' = Parked off k.
Proof using Type. destruct buf as [|w buf]; [done|]. by intros (p & q & _ & E & _). Qed.

Lemma trail_parked_on m th' buf th off : trail m th' buf th -> parked_on off th' = parked_on off th.
Proof using Type. destruct buf as [|w buf]; [by intros ->|]. by intros (p & q & -> & -> & _). Qed.

Lemma trail_resume m th' buf th rc : trail m th' buf th -> trail m (resume rc th') buf (resume rc th).
Proof using Type. destruct buf as [|w buf]; [by intros ->|]. intros (p & q & -> & -> & Hr). by exists p, q. Qed.

Lemma trails_insert m m' ts us i th' buf th :
  trails m ts us -> trail m' th' buf th ->
  (forall j thj bufj thj', i <> j -> us !! j = Some thj' -> trail m thj' bufj thj -> trail m' thj' bufj thj) ->
  trails m' (<[i := (th, buf)]> ts) (<[i := th']> us).
Proof using Type.
  intros [Hl Hr] Ha Hk. split; [by rewrite !length_insert|]. intros j th1 buf1 Hj.
  apply list_lookup_insert_Some in Hj as [(<- & [= <- <-] & Hlt)|[Hne Hj]].
  - exists th'. split; [|done]. apply list_lookup_insert_eq. by rewrite Hl.
  - destruct (Hr j th1 buf1 Hj) as (th1' & Hj' & Ha'). exists th1'. split; [by rewrite list_lookup_insert_ne|by eapply Hk].
Qed.

Lemma trails_put m ts us i th' buf th :
  trails m ts us -> trail m th' buf th -> trails m (<[i := (th, buf)]> ts) (<[i := th']> us).
Proof using Type. intros Hr Ha. by eapply trails_insert. Qed.

Lemma trails_keep m ts us i th' buf th :
  trails m ts us -> us !! i = Some th' -> trail m th' buf th -> trails m (<[i := (th, buf)]> ts) us.
Proof using Type. intros Hr Hi Ha. rewrite <- (list_insert_id us i th') by done. by apply trails_put. Qed.

Lemma trails_waiters m ts us off : trails m ts us -> waiters off (fst <$> ts) = waiters off us.
Proof using Type.
  intros [Hl Hr]. unfold waiters. rewrite length_fmap, Hl. apply list_filter_iff. intros i.
  assert (E : (fst <$> ts) !! i = fst <$> (ts !! i)) by apply list_lookup_fmap. rewrite E.
  destruct (ts !! i) as [[th buf]|] eqn:Ei; cbn.
  - destruct (Hr i th buf Ei) as (th' & -> & Ha). cbn. by rewrite (trail_parked_on _ _ _ _ off Ha).
  - by rewrite (lookup_ge_None_2 us) by (rewrite Hl; by apply lookup_ge_None).
Qed.

Lemma trails_resume m ts us js :
  trails m ts us ->
  trails m (alter_all (fun thb : buffered => (resume (0, 0) thb.1, thb.2)) js ts) (alter_all (resume (0, 0)) js us).
Proof using Type.
  intros [Hl Hr]. split; [by rewrite !length_alter_all|]. intros i th buf.
  rewrite !alter_all_lookup by first [apply resume_idem | intros []; cbn; by rewrite resume_idem].
  case_decide as Hin; [|by apply Hr]. intros Hi. apply fmap_Some in Hi as ([th1 buf1] & Hi & [= -> ->]).
  destruct (Hr i th1 buf1 Hi) as (th' & -> & Ha). eexists. split; [done|]. by apply trail_resume.
Qed.

(** Running on to the next store, or to the end. *)
Lemma ran_settles p m buf q i us :
  ran p m buf q -> us !! i = Some (Running p) ->
  exists th', reachable (m, us) (m, <[i := th']> us) /\ trail m th' buf (Running q).
Proof using Type.
  intros Hr. revert us. induction Hr as [p m|p m m1 p1 buf q Hf Hp Hr IH]; intros us Hi.
  - exists (Running p). split; [rewrite list_insert_id by done; constructor|done].
  - pose proof (lookup_lt_Some _ _ _ Hi) as Hlt. destruct (stored p) as [|w l] eqn:E.
    + pose proof (local_step_put _ _ _ _ Hf Hp) as Hm. rewrite E in Hm. cbn in Hm. subst m1.
      destruct (IH (<[i := Running p1]> us)) as (th' & Hr' & Ht); [by apply list_lookup_insert_eq|].
      exists th'. split; [|done]. rewrite list_insert_insert_eq in Hr'. by eapply rtc_trans; [eapply moves_reachable|].
    + exists (Running p). split; [rewrite list_insert_id by done; constructor|]. exists p, q.
      split; [done|]. split; [done|]. split; [by rewrite E|]. rewrite <- E. by eapply ran_cons.
Qed.

(** A write that changes nothing that is read on the way does not stop it. *)
Lemma ran_disturbed p m m' buf q :
  (forall buf q m1 q', ran p m buf q -> fencing q = false -> local_step q (drain m buf) = Moves m1 q' ->
     exists m2, local_step q (drain m' buf) = Moves m2 q') ->
  ran p m buf q -> ran p m' buf q.
Proof using Type.
  intros Hd.
  assert (Hgen : forall p1 m1 l, ran p1 m1 l q -> forall b, ran p m b p1 -> ran p m' b p1 -> m1 = drain m b -> ran p m' (b ++ l) q).
  { induction 1 as [p1 m1|p1 m1 m2 p2 l q Hf Hp _ IH]; intros b Hb Hb' ->; [by rewrite app_nil_r|].
    destruct (Hd _ _ _ _ Hb Hf Hp) as [m3 Hp']. rewrite app_assoc. apply IH.
    - by eapply ran_snoc.
    - by eapply ran_snoc.
    - rewrite drain_app. by eapply local_step_put. }
  intros Hr. by apply (Hgen _ _ _ Hr []); [constructor|constructor|].
Qed.

Section Simulation.
Context (x : pool) (Hx : robust x).

Lemma trail_disturbed m us i j thj' buf thj pi w pi' :
  reachable x (m, us) -> i <> j -> us !! i = Some (Running pi) -> writes pi = [w] -> local_step pi m = Moves (put m w) pi' ->
  us !! j = Some thj' -> trail m thj' buf thj -> trail (put m w) thj' buf thj.
Proof using Hx.
  intros Hre Hne Hi Hw Hp Hj. destruct buf as [|w' buf]; [done|]. intros (p & q & -> & -> & Hs & Hr). exists p, q.
  split; [done|]. split; [done|]. split; [done|]. eapply ran_disturbed; [|exact Hr]. intros b q1 m1 q2 Hr1 Hf1 Hp1.
  by eapply (Hx m us j i p b q1 q2 m1 pi w pi').
Qed.

(** A load, a store into the buffer, a silent step. *)
Lemma trails_runs i p buf m m1 p' ts us :
  trails m ts us -> ts !! i = Some (Running p, buf) -> fencing p = false -> local_step p (drain m buf) = Moves m1 p' ->
  exists us', reachable (m, us) (m, us') /\ trails m (<[i := (Running p', buf ++ stored p)]> ts) us'.
Proof using Type.
  intros Hr Eb Ef Ep. destruct (proj2 Hr _ _ _ Eb) as (th' & Hi & Ha). destruct buf as [|w buf].
  - cbn in Ha. subst th'. cbn [drain foldl app] in *. pose proof (local_step_put _ _ _ _ Ef Ep) as Hm.
    destruct (stored p) as [|w l] eqn:Est.
    + cbn in Hm. subst m1. eexists. split; [by eapply moves_reachable|]. by apply trails_put.
    + exists us. split; [constructor|]. eapply trails_keep; [exact Hr|exact Hi|]. exists p, p'.
      split; [done|]. split; [done|]. split; [by rewrite Est|]. rewrite <- Est, <- (app_nil_r (stored p)).
      by eapply ran_cons; [done|exact Ep|constructor].
  - exists us. split; [constructor|]. eapply trails_keep; [exact Hr|exact Hi|].
    destruct Ha as (p0 & q & -> & [= <-] & Hs & Hran). exists p0, p'. do 3 (split; [done|]). by eapply (ran_snoc p0 m (w :: buf) p).
Qed.

(** The oldest store leaves. *)
Lemma trails_leaves i th w buf m ts us :
  reachable x (m, us) -> trails m ts us -> ts !! i = Some (th, w :: buf) ->
  exists us', reachable (m, us) (put m w, us') /\ trails (put m w) (<[i := (th, buf)]> ts) us'.
Proof using Hx.
  intros Hre Hr Eb. destruct (proj2 Hr _ _ _ Eb) as (th' & Hi & p & q & -> & -> & Hs & Hran).
  pose proof (lookup_lt_Some _ _ _ Hi) as Hlt. inversion Hran as [|? ? m1 p1 l ? Hf Hp Hran1]; subst.
  pose proof (local_step_put _ _ _ _ Hf Hp) as Hm1. destruct (stored_once p) as [E|[w' E]]; rewrite E in *; [done|].
  cbn [app] in *. simplify_eq. cbn [drain foldl] in *.
  destruct (ran_settles _ _ _ _ i (<[i := Running p1]> us) Hran1) as (th' & Hr1 & Ht); [by apply list_lookup_insert_eq|].
  rewrite list_insert_insert_eq in Hr1. exists (<[i := th']> us). split; [by eapply rtc_trans; [eapply moves_reachable|]|].
  eapply trails_insert; [exact Hr|exact Ht|]. intros j thj bufj thj' Hne Hj Ha.
  eapply (trail_disturbed m us i j); [done|done|exact Hi|by apply stored_writes|exact Hp|done|done].
Qed.

(** A thread with an empty buffer does what it does in the interleaving. *)
Lemma trails_fenced i th th1 m ts us :
  trails m ts us -> ts !! i = Some (th, []) -> (us !! i = Some th -> pool_step (m, us) (m, <[i := th1]> us)) ->
  exists us', reachable (m, us) (m, us') /\ trails m (<[i := (th1, [])]> ts) us'.
Proof using Type.
  intros Hr Eb Hs. destruct (proj2 Hr _ _ _ Eb) as (th' & Hi & ->). exists (<[i := th1]> us).
  split; [by apply rtc_once, Hs|]. by apply trails_put.
Qed.

Lemma trails_locked i p m m' p' ts us :
  reachable x (m, us) -> trails m ts us -> ts !! i = Some (Running p, []) -> fencing p = true -> local_step p m = Moves m' p' ->
  exists us', reachable (m, us) (m', us') /\ trails m' (<[i := (Running p', [])]> ts) us'.
Proof using Hx.
  intros Hre Hr Eb Hf Hp. destruct (proj2 Hr _ _ _ Eb) as (th' & Hi & ->).
  destruct (fenced_moves _ _ _ _ Hf Hp) as [->|(w & Hw & ->)].
  - eapply trails_fenced; [done|exact Eb|]. intros _. by eapply step_moves.
  - exists (<[i := Running p']> us). split; [by eapply moves_reachable|]. eapply trails_insert; [exact Hr|done|].
    intros j thj bufj thj' Hne Hj Ha. by eapply (trail_disturbed m us i j).
Qed.

(** One step of the machine is some steps of the interleaving. *)
Lemma trails_step m ts us m' ts' :
  reachable x (m, us) -> trails m ts us -> sb_step first_only (m, ts) (m', ts') ->
  exists us', reachable (m, us) (m', us') /\ trails m' ts' us'.
Proof using Hx.
  intros Hre Hr Hs. inversion Hs; subst; clear Hs.
  - by eapply trails_runs.
  - destruct k as [|k]; [|done]. destruct buf as [|w' buf]; [done|]. cbn in Ek. injection Ek as ->. by apply trails_leaves.
  - by eapply trails_locked.
  - eapply trails_fenced; [exact Hr|exact Eb|intros Hi; by eapply step_sleeps].
  - destruct (proj2 Hr _ _ _ Eb) as (th' & Hi & ->). eexists. split.
    + apply rtc_once. eapply step_wakes; [exact Hi|exact Ep|]. by rewrite <- (trails_waiters _ _ _ _ Hr).
    + apply trails_resume. by apply trails_put.
  - eapply trails_fenced; [exact Hr|exact Eb|intros Hi; by eapply step_interrupted].
Qed.

Lemma trails_reachable m ts us m' ts' :
  reachable x (m, us) -> trails m ts us -> sb_reachable first_only (m, ts) (m', ts') ->
  exists us', reachable (m, us) (m', us') /\ trails m' ts' us'.
Proof using Hx.
  intros Hre Hr Hs. remember (m, ts) as y eqn:Ey. remember (m', ts') as z eqn:Ez.
  revert m ts us Ey Hre Hr. induction Hs as [y|y [m1 ts1] z Hxy Hyz IH]; intros m ts us -> Hre Hr.
  - injection Ez as -> ->. exists us. split; [constructor|done].
  - destruct (trails_step _ _ _ _ _ Hre Hr Hxy) as (us1 & Hr1 & Hrel1).
    destruct (IH Ez _ _ us1 eq_refl) as (us2 & Hr2 & Hrel2); [by eapply rtc_trans|done|].
    exists us2. split; [by eapply rtc_trans|done].
Qed.
End Simulation.

Lemma trails_start m ps : trails m (idle <$> ps) (Running <$> ps).
Proof using Type.
  split; [by rewrite !length_fmap|]. intros i th buf Hi. apply list_lookup_fmap_Some in Hi as (q & [= -> ->] & Hi).
  exists (Running q). split; [by rewrite list_lookup_fmap, Hi|done].
Qed.

(** A buffer may empty at any time. *)
Lemma sb_flush m ts i th buf :
  ts !! i = Some (th, buf) -> sb_reachable first_only (m, ts) (drain m buf, <[i := (th, [])]> ts).
Proof using Type.
  revert m ts. induction buf as [|w buf IH]; intros m ts Hi.
  - rewrite list_insert_id by done. constructor.
  - pose proof (lookup_lt_Some _ _ _ Hi) as Hlt. eapply rtc_l; [by eapply (sb_leaves first_only i th (w :: buf) 0)|].
    cbn [delete list_delete drain foldl]. rewrite <- (list_insert_insert_eq ts i (th, []) (th, buf)). apply IH.
    by apply list_lookup_insert_eq.
Qed.

Section Behind.
Context (ps : list (prog unit)) (m0 m : mem) (ts : list buffered).
Context (Hrob : robust (m0, Running <$> ps)) (Hts : sb_reachable first_only (m0, idle <$> ps) (m, ts)).
Abbreviation from_start := (reachable (m0, Running <$> ps)).

(** The memory is one of the interleaving. *)
Lemma sb_behind : exists us, from_start (m, us) /\ trails m ts us.
Proof using Hrob Hts. eapply (trails_reachable _ Hrob); [constructor|apply trails_start|exact Hts]. Qed.
End Behind.

(** A thread of the interleaving that can go on can do so on the machine,
    itself or its buffer. *)
Lemma trails_go_on m ts us j p :
  trails m ts us -> us !! j = Some (Running p) -> local_step p m <> Finished -> local_step p m <> Trapped ->
  exists p' buf, ts !! j = Some (Running p', buf) /\ (buf <> [] \/ local_step p' m <> Finished) /\
    exists y, sb_step first_only (m, ts) y.
Proof using Type.
  intros [Hl Hr] Hj Hnf Hnt. destruct (lookup_lt_is_Some_2 ts j) as [[th buf] Hb]; [rewrite <- Hl; by eapply lookup_lt_Some|].
  destruct (Hr _ _ _ Hb) as (th' & Hu & Ha). rewrite Hj in Hu. injection Hu as <-. destruct buf as [|w buf].
  - cbn in Ha. subst th. exists p, []. split; [done|]. split; [by right|].
    destruct (local_step p m) as [| |m' p'|off' k'|off' n p'] eqn:E; [done|done| | |].
    + destruct (fencing p) eqn:Ef; eexists; [by eapply sb_moves|]. eapply sb_runs; [exact Hb|done|exact E].
    + eexists. by eapply sb_sleeps.
    + destruct (wakes_total (waiters off' (fst <$> ts)) n) as [woken Hw]. eexists. by eapply sb_wakes.
  - destruct Ha as (q & q' & _ & -> & _). exists q', (w :: buf). split; [done|]. split; [by left|].
    eexists. by eapply (sb_leaves first_only j _ _ 0).
Qed.

(** When the interleaving is through, so is the machine. *)
Lemma trails_finished m ts us :
  trails m ts us -> (forall i th, us !! i = Some th -> exists p, th = Running p /\ local_step p m = Finished) ->
  forall i th buf, ts !! i = Some (th, buf) -> buf = [] /\ exists p, th = Running p /\ local_step p m = Finished.
Proof using Type.
  intros [_ Hr] Hfin i th buf Hi. destruct (Hr _ _ _ Hi) as (th' & Hu & Ha). destruct (Hfin _ _ Hu) as (p & -> & Hp).
  destruct buf as [|w buf]; [cbn in Ha; subst th; eauto|]. destruct Ha as (p' & q & [= <-] & _ & Hs & _).
  unfold stored, local_step in *. destruct (view p) as [|q'|B x k]; [done..|]. exfalso.
  destruct x; try done; cbn [act_outcome act_step] in Hp; by destruct (guard_opt _ _) as [[? ?]|].
Qed.

(** *** What the interleaving promises, the machine keeps *)
Section Promised.
Context (ps : list (prog unit)) (m0 m : mem) (ts : list buffered).
Context (Hrob : robust (m0, Running <$> ps)) (Hts : sb_reachable first_only (m0, idle <$> ps) (m, ts)).
Abbreviation from_start := (reachable (m0, Running <$> ps)).

(** With a thread's own stores put in place, the thread is in a state of the
    interleaving. *)
Lemma sb_thread_state i th buf :
  ts !! i = Some (th, buf) -> exists us, from_start (drain m buf, us) /\ us !! i = Some th.
Proof using Hrob Hts.
  intros Hi. destruct (sb_behind ps m0 (drain m buf) (<[i := (th, [])]> ts) Hrob) as (us & Hr & _ & Hu).
  { eapply rtc_trans; [exact Hts|by apply sb_flush]. }
  exists us. split; [done|]. destruct (Hu i th []) as (th' & Hi' & ->); [|done].
  apply list_lookup_insert_eq. by eapply lookup_lt_Some.
Qed.

(** So are two threads. *)
Lemma sb_two_states i j th buf th' buf' :
  i <> j -> ts !! i = Some (th, buf) -> ts !! j = Some (th', buf') ->
  exists mx us, from_start (mx, us) /\ us !! i = Some th /\ us !! j = Some th'.
Proof using Hrob Hts.
  intros Hne Hi Hj. assert (Hj1 : <[i := (th, [])]> ts !! j = Some (th', buf')) by by rewrite list_lookup_insert_ne.
  destruct (sb_behind ps m0 (drain (drain m buf) buf') (<[j := (th', [])]> (<[i := (th, [])]> ts)) Hrob) as (us & Hr & _ & Hu).
  { eapply rtc_trans; [exact Hts|]. eapply rtc_trans; [exact (sb_flush _ _ _ _ _ Hi)|exact (sb_flush _ _ _ _ _ Hj1)]. }
  pose proof (lookup_lt_Some _ _ _ Hi) as Hlt. pose proof (lookup_lt_Some _ _ _ Hj) as Hlt'.
  exists (drain (drain m buf) buf'), us. split; [done|]. split.
  - destruct (Hu i th []) as (? & ? & ->); [|done]. rewrite list_lookup_insert_ne by done. by apply list_lookup_insert_eq.
  - destruct (Hu j th' []) as (? & ? & ->); [|done]. apply list_lookup_insert_eq. by rewrite length_insert.
Qed.

Lemma sb_not_trapped :
  (forall m' us i p, from_start (m', us) -> us !! i = Some (Running p) -> local_step p m' <> Trapped) ->
  forall i p buf, ts !! i = Some (Running p, buf) -> local_step p (drain m buf) <> Trapped.
Proof using Hrob Hts. intros Hsafe i p buf Hi. destruct (sb_thread_state _ _ _ Hi) as (us & Hr & Hu). by eapply Hsafe. Qed.
End Promised.

Lemma reachable_start m0 ps m us i :
  reachable (m0, Running <$> ps) (m, us) -> (i < length us)%nat ->
  exists p, ps !! i = Some p /\ (Running <$> ps) !! i = Some (Running p).
Proof using Type.
  intros Hre Hi. pose proof (reachable_length _ _ Hre) as Hlen. cbn in Hlen. rewrite length_fmap in Hlen.
  destruct (lookup_lt_is_Some_2 ps i) as [p Hp]; [lia|]. exists p. by rewrite list_lookup_fmap, Hp.
Qed.

(** *** One writer, readers that only read *)
Lemma one_writer_robust m0 w readers : Forall reads_only readers -> robust (m0, Running <$> (w :: readers)).
Proof using Type.
  intros Hq m us i j p buf q q' m1 pj wj pj' Hre Hne Hi Hs _ Hj Hw _ _ _.
  assert (Hquiet : forall k pk, us !! S k = Some (Running pk) -> reads_only pk).
  { intros k pk Hk. destruct (reachable_start _ _ _ _ (S k) Hre) as (r & Hr & Hst); [by eapply lookup_lt_Some|].
    destruct (keeps_reachable _ (uses_only_step (@reading)) _ _ (S k) (Running r) Hre) as (th & Hth & Hkeep);
      [exact Hst|by eapply (Forall_lookup_1 _ _ _ _ Hq)|].
    cbn in Hth. rewrite Hk in Hth. by injection Hth as <-. }
  destruct i as [|i]; [destruct j as [|j]; [done|]|].
  - destruct (reads_only_writes _ (Hquiet _ _ Hj)) as [_ E]. by rewrite E in Hw.
  - by destruct (reads_only_writes _ (Hquiet _ _ Hi)) as [E _].
Qed.
End Robust.

(** ** Executing a schedule, first sleeper first *)
Inductive sb_move : Set := Acts (i : nat) | Leaves (i k : nat).

(** A thread acts [n] times; its [n] oldest stores leave. *)
Definition acts (i n : nat) : list sb_move := repeat (Acts i) n.
Definition leaves (i n : nat) : list sb_move := repeat (Leaves i 0) n.

Section SbSchedule.
Context (may_leave : leave_rule).

Definition sb_exec1 (mv : sb_move) (x : machine) : option machine :=
  let '(m, ts) := x in
  match mv with
  | Acts i =>
      match ts !! i with
      | Some (Running p, buf) =>
          if fencing p then
            match buf, local_step p m with
            | [], Moves m' p' => Some (m', <[i := (Running p', [])]> ts)
            | [], Sleeps off k => Some (m, <[i := (Parked off k, [])]> ts)
            | [], Wakes off n p' =>
                Some (m, alter_all (fun thb => (resume (0, 0) thb.1, thb.2)) (first_waiters n (waiters off (fst <$> ts)))
                           (<[i := (Running p', [])]> ts))
            | _, _ => None
            end
          else
            match local_step p (drain m buf) with
            | Moves m' p' => Some (m, <[i := (Running p', buf ++ stored p)]> ts)
            | _ => None
            end
      | _ => None
      end
  | Leaves i k =>
      match ts !! i with
      | Some (th, buf) =>
          match buf !! k with
          | Some w => if may_leave buf k then Some (put m w, <[i := (th, delete k buf)]> ts) else None
          | None => None
          end
      | None => None
      end
  end.

Fixpoint sb_exec (sched : list sb_move) (x : machine) : option machine :=
  match sched with
  | [] => Some x
  | mv :: sched => match sb_exec1 mv x with Some y => sb_exec sched y | None => None end
  end.

Lemma sb_exec1_sound mv x y : sb_exec1 mv x = Some y -> sb_step may_leave x y.
Proof using Type.
  destruct x as [m ts], mv as [i|i k]; cbn; destruct (ts !! i) as [[th buf]|] eqn:Ei; try done.
  - destruct th as [p|]; [|done]. destruct (fencing p) eqn:Ef.
    + destruct buf as [|w buf]; [|done]. destruct (local_step p m) eqn:E; try done; intros [= <-].
      * by eapply sb_moves.
      * by eapply sb_sleeps.
      * by eapply sb_wakes.
    + destruct (local_step p (drain m buf)) eqn:E; try done; intros [= <-]. by eapply sb_runs.
  - destruct (buf !! k) eqn:Ek; [|done]. destruct (may_leave buf k) eqn:El; [|done]. intros [= <-].
    by eapply sb_leaves.
Qed.

Lemma sb_exec_reachable sched x y : sb_exec sched x = Some y -> sb_reachable may_leave x y.
Proof using Type.
  revert x. induction sched as [|mv sched IH]; intros x; cbn [sb_exec]; [intros [= ->]; constructor|].
  destruct (sb_exec1 mv x) as [z|] eqn:E; [|done]. intros Hy. eapply rtc_l; [by eapply sb_exec1_sound|by apply IH].
Qed.
End SbSchedule.

Definition sb_run_to (rule : leave_rule) (sched : list sb_move) (x : machine) : machine :=
  match sb_exec rule sched x with Some y => y | None => x end.
Definition sb_exec_ok (rule : leave_rule) (sched : list sb_move) (x : machine) : bool :=
  match sb_exec rule sched x with Some _ => true | None => false end.

(** Nobody is about to trap, and either all are through and their stores out,
    or a thread that runs, or its buffer, can go on. *)
Definition sb_unstuck `{FutexKernel} (x : machine) : Prop :=
  (forall i p buf, x.2 !! i = Some (Running p, buf) -> local_step p (drain x.1 buf) <> Trapped) /\
  ((forall i th buf, x.2 !! i = Some (th, buf) -> buf = [] /\ exists p, th = Running p /\ local_step p x.1 = Finished) \/
   exists i p buf, x.2 !! i = Some (Running p, buf) /\ (buf <> [] \/ local_step p x.1 <> Finished) /\
     exists y, sb_step first_only x y).

(** Thread [i] is about to trap. *)
Definition sb_trapped (x : machine) (i : nat) : bool :=
  match x.2 !! i with
  | Some (Running p, buf) => match local_step p (drain x.1 buf) with Trapped => true | _ => false end
  | _ => false
  end.

Lemma sb_not_trapped_false x i :
  (forall i p buf, x.2 !! i = Some (Running p, buf) -> local_step p (drain x.1 buf) <> Trapped) -> sb_trapped x i = false.
Proof.
  intros Hsafe. unfold sb_trapped. destruct (x.2 !! i) as [[[p|] buf]|] eqn:E; try done. specialize (Hsafe i p buf E).
  by destruct (local_step p (drain x.1 buf)).
Qed.

(** Thread [i] is through and its buffer empty. *)
Definition sb_finished (x : machine) (i : nat) : bool :=
  match x.2 !! i with
  | Some (Running p, []) => match local_step p x.1 with Finished => true | _ => false end
  | _ => false
  end.

Lemma sb_finished_running x i :
  sb_finished x i = true -> exists p, x.2 !! i = Some (Running p, []) /\ local_step p x.1 = Finished.
Proof.
  unfold sb_finished. destruct (x.2 !! i) as [[[p|] [|]]|]; try done.
  destruct (local_step p x.1) eqn:E; try done. by exists p.
Qed.

Lemma sb_run_to_reachable rule sched x :
  sb_exec_ok rule sched x = true -> sb_reachable rule x (sb_run_to rule sched x).
Proof.
  unfold sb_exec_ok, sb_run_to. intros Hs. apply (sb_exec_reachable rule sched). by destruct (sb_exec rule sched x).
Qed.
