(* ===== verification/Session.v ===== *)
(** * A writer's session in a pool

    What is proved of the writer running alone - the memories it produces
    carry versions that only grow ([History]) - holds in a pool of threads in
    which nobody else writes: the version is the ghost state of a rely and
    guarantee proof, and a reader's attempt at a slot that succeeds has read
    the payload of one version. *)
From stdpp Require Import relations.
From S2P Require Import Prelude Memory Prog History SeqCount Pool RelyGuarantee.

(** ** [step] and [view] agree *)
Lemma ret_of_view {A : Set} (p : prog A) a : ret_of p = Some a <-> view p = VRet a.
Proof.
  induction p as [A a0|A x|A B p IHp k IHk|A S0 body IH s]; cbn [ret_of view]; [split; congruence|done| |done].
  destruct (ret_of p) as [b|] eqn:E.
  - rewrite (proj1 (IHp b) eq_refl). apply IHk.
  - destruct (view p) as [b| |]; [|done..]. by pose proof (proj2 (IHp b) eq_refl).
Qed.

Definition seen {A : Set} (p q : prog A) : Prop := view p = view q.

Lemma step_view {A : Set} (p : prog A) rc m :
  match view p with
  | VRet _ => True
  | VTau p' => exists q, step rc p m = Some (q, m) /\ seen p' q
  | VAct x c =>
      match act_step rc x m with
      | Some (v, m') => exists q, step rc p m = Some (q, m') /\ seen (c v) q
      | None => step rc p m = None
      end
  end.
Proof.
  induction p as [A a|A x|A B p IHp k IHk|A S0 body IH s]; cbn [view step]; [done| | |].
  - destruct (act_step rc x m) as [[v m']|]; [|done]. by exists (Ret v).
  - destruct (ret_of p) as [b|] eqn:E.
    + rewrite (proj1 (ret_of_view p b) E). apply IHk.
    + destruct (view p) as [b|p'|C x c] eqn:Ev; [apply ret_of_view in Ev; congruence| |].
      * destruct IHp as (q & -> & Hq). eexists. split; [done|]. unfold seen. rewrite view_bind_. by apply view_Bind.
      * destruct (act_step rc x m) as [[v m']|]; [|by rewrite IHp].
        destruct IHp as (q & -> & Hq). eexists. split; [done|]. unfold seen. rewrite view_bind_. by apply view_Bind.
  - eexists. split; [done|]. unfold seen. by rewrite view_bind_.
Qed.

(** A program that never waits does the same whatever a wait would answer. *)
Definition waitless {B : Set} (x : act B) : Prop := match x with AFutexWait _ _ _ => False | _ => True end.
Abbreviation never_waits := (uses_only (@waitless)).

Lemma never_waits_memcpy_to off bs : never_waits (memcpy_to off bs).
Proof using Type. revert off. induction bs as [|b bs IH]; intros off; [exact I|]. split; [exact I|]. intros _. apply IH. Qed.

Lemma never_waits_memcpy_from off n : never_waits (memcpy_from off n).
Proof. revert off. induction n as [|n IH]; intros off; [done|]. split; [done|]. intros b. split; [apply IH|done]. Qed.

Lemma never_waits_assert b : never_waits (assert b).
Proof. by destruct b. Qed.

Lemma safe_act_step {B : Set} (x : act B) m W (K : event -> B -> mem -> Prop) rc v m' :
  never_waits (Act x) -> (forall off n, W (ToLoad off n)) -> act_step rc x m = Some (v, m') ->
  (forall ev, K ev v m') -> safe_act x m W K.
Proof.
  destruct x; try done; cbn [act_step safe_act]; unfold guard_opt; intros _ HW;
    (case_match; [|done]); intros [= <- <-] HK; auto.
Qed.

(** The first step of a program that finishes. *)
Lemma wp_first e {A : Set} (p : prog A) t m Q :
  ret_of p = None -> wp e p t m Q ->
  exists p1 m1, step (futex_rc e t) p (interfere e t m) = Some (p1, m1) /\
    wp e p1 (S t) m1 (fun a t' m' l => Q a t' m' (interfere e t m :: l)).
Proof.
  intros Er (a & t' & m' & Hr & HQ). apply runs_step in Hr as (p1 & m1 & Es & Hr); [|done].
  exists p1, m1. split; [done|]. exists a, t', m'. split; [done|]. pose proof (proj1 Hr).
  replace (t' - t)%nat with (S (t' - S t)) in HQ by lia. cbn [hist] in HQ. by rewrite Es in HQ.
Qed.

(** The memory [m] at version [v] or later, with [l] and [m'] still to come. *)
Lemma versioned_now (P : Z -> mem -> Prop) v m l V :
  versioned P v (m :: l) V -> exists w, v <= w <= V /\ P w m /\ versioned P w l V.
Proof.
  intros Hv. inversion Hv as [|v0 w x l0 v' Hle Hp Hl]; subst. exists w.
  pose proof (versioned_le _ _ _ _ Hl). split; [lia|done].
Qed.

Lemma wp_current (P : Z -> mem -> Prop) rc {A : Set} (p : prog A) t m v V :
  wp (quiet rc) p t m (fun _ _ m' l => versioned P v l V /\ P V m') ->
  exists w, v <= w <= V /\ P w m /\ wp (quiet rc) p t m (fun _ _ m' l => versioned P w l V /\ P V m').
Proof.
  intros (a & t' & m' & Hr & Hl & HV). pose proof (versioned_le _ _ _ _ Hl). destruct (ret_of p) as [b|] eqn:E.
  - exists V. split; [lia|]. pose proof Hr as Hr'. apply (ret_of_runs _ _ _ _ _ E) in Hr' as (-> & -> & ->).
    split; [done|]. exists b, t, m. split; [done|]. split; [|done]. rewrite Nat.sub_diag. by constructor.
  - pose proof Hr as Hr'. apply runs_step in Hr' as (q & m1 & Es & Hr'); [|done]. pose proof (proj1 Hr').
    assert (Eh : hist (t' - t) (quiet rc) p t m = m :: hist (t' - S t) (quiet rc) q (S t) m1).
    { replace (t' - t)%nat with (S (t' - S t)) by lia. cbn [hist]. by rewrite Es. }
    rewrite Eh in Hl. destruct (versioned_now _ _ _ _ _ Hl) as (w & Hle & Hp & Hl').
    exists w. split; [done|]. split; [done|]. exists a, t', m'. split; [done|]. split; [|done].
    rewrite Eh. by apply versioned_cons with w.
Qed.

(** ** The discipline *)
Section Session.
Context (P : Z -> mem -> Prop) (V0 V : Z).
Abbreviation st := (Z * mem)%type.

(** The memory is at the session's version. *)
Definition inv (s : st) : Prop := P s.1 s.2 /\ V0 <= s.1 <= V.
Definition rely (i : nat) (s s' : st) : Prop := inv s' /\ s.1 <= s'.1 /\ (i = 0%nat -> s' = s).
Definition guar (i : nat) (_ : event) (s s' : st) : Prop := inv s' /\ s.1 <= s'.1 /\ (i <> 0%nat -> s' = s).

Abbreviation tr i := (triple inv (rely i) (guar i) anywhere).

Lemma session_rely i s s' : rely i s s' -> inv s'.
Proof using Type. by intros []. Qed.

(** What the logic says of a pool in which thread 0 writes. *)
Lemma session_sound `{FutexKernel} (threads : list (prog unit)) (Q : nat -> unit -> st -> Prop) v0 m0 m ts :
  inv (v0, m0) ->
  (forall i p, threads !! i = Some p -> tr i (fun s => s = (v0, m0) \/ i <> 0%nat /\ v0 <= s.1) p (Q i)) ->
  reachable (m0, Running <$> threads) (m, ts) ->
  (forall i p, ts !! i = Some (Running p) -> local_step p m <> Trapped) /\
  exists v, inv (v, m) /\
    (forall i p, ts !! i = Some (Running p) -> local_step p m = Finished -> exists u, Q i u (v, m)).
Proof using Type.
  intros Hi Hp Hr.
  edestruct (pool_rg_sound inv rely guar (fun _ => anywhere) Q 0 (Z.of_nat (length threads)) (fun _ => true) (fun _ => False))
    as (Hnt & v & Hi' & Hfin & _); [| |done|done|done| |exact Hr|].
  - by intros i ev s s' [].
  - intros i j ev s s' Hne (Hi' & Hle & Hs). split; [done|]. split; [done|]. intros ->. by apply Hs.
  - split; [apply few_all; cbn; by rewrite length_fmap|]. exists v0. split; [done|]. intros i th Hth. cbn [fst snd] in *.
    apply list_lookup_fmap_Some in Hth as (p & -> & Hth). apply (Hp i p Hth); [by left|done].
  - split; [done|]. by exists v.
Qed.

(** *** The writer *)
Lemma writer_triple {A : Set} rc t v m (p : prog A) :
  never_waits p ->
  wp (quiet rc) p t m (fun _ _ m' l => versioned P v l V /\ P V m') ->
  tr 0%nat (fun s => s = (v, m)) p (fun _ s => P V s.2).
Proof using Type.
  intros Hnw Hwp s -> Hi.
  exists (fun q s => never_waits q /\ exists q0 t, seen q q0 /\
            wp (quiet rc) q0 t s.2 (fun _ _ m' l => versioned P s.1 l V /\ P V m')).
  split; [split|split; [done|by exists p, t]].
  { intros q s s' Hq _ (_ & _ & Hs). by rewrite Hs. }
  intros q g m1 (Hq%uses_only_view & q0 & t0 & Hs & Hw) [_ Hg]. cbn [fst snd] in *. rewrite Hs in Hq. rewrite Hs.
  pose proof (step_view q0 (rc t0) m1) as Hst. destruct (view q0) as [a|q'|B x c] eqn:Ev.
  - apply ret_of_view in Ev. destruct Hw as (a' & t' & m' & Hr & _ & HV).
    by apply (ret_of_runs _ _ _ _ _ Ev) in Hr as (_ & _ & ->).
  - assert (Er : ret_of q0 = None) by (destruct (ret_of q0) eqn:E; [apply ret_of_view in E; congruence|done]).
    split; [done|]. apply wp_first in Hw as (q1 & m2 & Es & Hw); [|done]. cbn [quiet interfere futex_rc] in Es.
    destruct Hst as (q2 & Es' & Hseen). rewrite Es in Es'. injection Es' as -> ->. exists q2, (S t0). split; [done|].
    eapply wp_conseq; [exact Hw|]. intros a t' m' l [Hl HV]. split; [|done].
    destruct (versioned_now _ _ _ _ _ Hl) as (w & Hle & _ & Hl'). by eapply versioned_weaken; [| |exact Hl']; lia.
  - assert (Er : ret_of q0 = None) by (destruct (ret_of q0) eqn:E; [apply ret_of_view in E; congruence|done]).
    destruct Hq as [Hx Hc]. apply wp_first in Hw as (q1 & m2 & Es & Hw); [|done]. cbn [quiet interfere futex_rc] in Es.
    destruct (act_step (rc t0) x m1) as [[b m']|] eqn:Ea; [|congruence].
    destruct Hst as (q2 & Es' & Hseen). rewrite Es in Es'. injection Es' as -> ->.
    eapply safe_act_step; [exact Hx|done|exact Ea|]. intros ev.
    assert (Hw2 : wp (quiet rc) q2 (S t0) m' (fun _ _ m2 l => versioned P g l V /\ P V m2)).
    { eapply wp_conseq; [exact Hw|]. intros a t' mf l [Hl HV]. split; [|done].
      destruct (versioned_now _ _ _ _ _ Hl) as (w & Hle & _ & Hl'). by eapply versioned_weaken; [| |exact Hl']; lia. }
    destruct (wp_current _ _ _ _ _ _ _ Hw2) as (g' & Hg' & Hp & Hw').
    exists g'. split.
    + split; [split; [done|cbn; lia]|]. split; [cbn; lia|done].
    + split; [apply Hc|]. by exists q2, (S t0).
Qed.

(** *** Readers: they change nothing, and versions only grow *)
Section Reader.
Context (i : nat) (Hreader : i <> 0%nat).

Definition from (lo : Z) (s : st) : Prop := lo <= s.1.

Lemma stable_from lo : stable inv (rely i) (from lo).
Proof using Hreader. intros s s' Hlo _ (_ & Hle & _). unfold from in *. lia. Qed.

(** Anything that stays true once true. *)
Lemma stable_mono (phi : Z -> Prop) :
  (forall v w, v <= w -> phi v -> phi w) -> stable inv (rely i) (fun s => phi s.1).
Proof using Hreader. intros Hphi s s' Hs _ (_ & Hle & _). by eapply Hphi. Qed.

Lemma reader_does {A : Set} (x : act A) (Q : st -> Prop) (X : A -> st -> Prop) :
  stable inv (rely i) Q -> (forall v, stable inv (rely i) (X v)) ->
  (forall g m, Q (g, m) -> inv (g, m) ->
     safe_act x m (fun _ => True) (fun _ v m' => m' = m /\ X v (g, m))) ->
  tr i Q (Act x) X.
Proof using Hreader.
  intros HQ HX Hx. apply triple_act; [done|done|]. intros g m Hq Hi. specialize (Hx g m Hq Hi).
  assert (Hw : safe_act x m (fun r => anywhere r (g, m)) (fun _ v m' => m' = m /\ X v (g, m)))
    by exact Hx.
  eapply safe_act_mono; [exact Hw|]. intros ev v m' [-> HXv]. exists g. split; [|done].
  split; [done|]. split; [done|by intros _].
Qed.

(** **** A slot read under the protocol of [SeqCount] *)
Context (seq_off data_off : Z) (n : nat) (val : Z -> list Z) (ver : Z -> Z).
Context (Hslot : forall v m, P v m -> V0 <= v <= V ->
                   slot_at seq_off data_off n val (ver v) m /\ slot_ok seq_off data_off n m)
        (Hver : forall v w, V0 <= v -> v <= w <= V -> ver v <= ver w)
        (Hwindow : ver V < ver V0 + 2 ^ 32).

Lemma ver_range v : V0 <= v <= V -> ver V0 <= ver v <= ver V.
Proof using Hreader Hver. intros Hv. split; apply Hver; lia. Qed.

(** No version of the slot before [u], and [phi] while it is at [u]. *)
Definition while_at (lo u : Z) (phi : Prop) (s : st) : Prop :=
  lo <= s.1 /\ u <= ver s.1 /\ (ver s.1 = u -> phi).

Lemma stable_while lo u phi : stable inv (rely i) (while_at lo u phi).
Proof using Hreader Hver.
  intros s s' (Hl & Hu & Hc) [_ Hs] ([_ Hs'] & Hle & _). pose proof (Hver s.1 s'.1 ltac:(lia) ltac:(lia)).
  split; [lia|]. split; [lia|]. intros E. apply Hc. lia.
Qed.

Lemma reader_copy lo u k : forall off (phi : Prop) chunk,
  0 <= off -> (forall v m, P v m -> V0 <= v <= V -> in_bounds m off k = true /\ (ver v = u -> rd m off k = chunk)) ->
  tr i (while_at lo u phi) (memcpy_from off k) (fun bs => while_at lo u (phi /\ bs = chunk)).
Proof using Hreader Hver.
  induction k as [|k IH]; intros off phi chunk H0 Hc; cbn [memcpy_from].
  - eapply triple_conseq; [apply (triple_ret inv (rely i) (guar i) anywhere [] (while_at lo u (phi /\ [] = chunk)) (fun bs => while_at lo u (phi /\ bs = chunk)))| |].
    + apply stable_while.
    + done.
    + intros s (Hl & Hu & Hp) [HP Hs]. split; [done|]. split; [done|]. intros E.
      destruct (Hc s.1 s.2 HP Hs) as [_ <-]; [|done]. split; [by apply Hp|done].
    + done.
  - eapply triple_bind; [apply session_rely| |].
    + apply (reader_does (ALoadB off) (while_at lo u phi) (fun b => while_at lo u (phi /\ head chunk = Some b)));
        [apply stable_while|intros; apply stable_while|].
      intros g m (Hl & Hu & Hp) [HP Hs]. cbn [fst snd] in *. destruct (Hc g m HP Hs) as [Hin Hrd].
      cbn [safe_act act_step guard_opt]. pose proof Hin as Hin'. change (S k) with (1 + k)%nat in Hin'. apply in_bounds_split in Hin' as [-> _]. cbn [guard_opt]. split; [done|]. split; [done|].
      split; [done|]. split; [done|]. intros E. split; [by apply Hp|]. rewrite <- (Hrd E), rd_cons by done. done.
    + intros b. eapply triple_bind; [apply session_rely| |].
      * apply (IH (off + 1) (phi /\ head chunk = Some b) (tail chunk)); [lia|].
        intros v m HP Hs. destruct (Hc v m HP Hs) as [Hin Hrd]. pose proof Hin as Hin'. change (S k) with (1 + k)%nat in Hin'.
        apply in_bounds_split in Hin' as [_ Hin']. split; [exact Hin'|]. intros E. by rewrite <- (Hrd E), rd_cons.
      * intros bs. eapply triple_conseq; [apply triple_ret with (Q := fun bs' => while_at lo u (phi /\ bs' = chunk)); [apply stable_while|]| |].
        { intros s Hs. exact Hs. }
        { intros s (Hl & Hu & Hp) _. split; [done|]. split; [done|]. intros E. destruct (Hp E) as [[Hphi Hh] ->].
          split; [done|]. destruct chunk as [|b' chunk]; [done|]. cbn in Hh. by injection Hh as ->. }
        done.
Qed.

(** The counter: it is that of a version no older than before. *)
Lemma reader_counter lo o :
  tr i (from lo) (load32 o seq_off) (fun c s => exists v, lo <= v <= s.1 /\ V0 <= v <= V /\ c = u32 (ver v)).
Proof using Hreader Hslot.
  apply reader_does; [apply stable_from| |].
  - intros c. apply (stable_mono (fun w => exists v, lo <= v <= w /\ V0 <= v <= V /\ c = u32 (ver v))).
    intros v w Hle (v' & Hv & ?). exists v'. split; [lia|done].
  - intros g m Hlo [HP Hs]. destruct (Hslot g m HP Hs) as [[Hc _] Hok]. cbn [safe_act act_step fst snd] in *.
    rewrite (slot_seq_ok _ _ _ _ Hok). cbn [guard_opt]. split; [done|]. exists g. unfold from in Hlo. cbn in *. split; [lia|done].
Qed.

(** The payload copied between two readings of the counter that agree is
    that of one version. *)
Definition answered (lo : Z) (bs : list Z) (s : st) : Prop :=
  exists v, lo <= v <= s.1 /\ ver v mod 2 = 0 /\ bs = val (ver v / 2).

Lemma answered_mono lo bs : stable inv (rely i) (answered lo bs).
Proof using Hreader.
  apply (stable_mono (fun w => exists v, lo <= v <= w /\ ver v mod 2 = 0 /\ bs = val (ver v / 2))).
  intros v w Hle (v' & Hv & ?). exists v'. split; [lia|done].
Qed.

Lemma reader_copy_check {A : Set} lo v c o (k : list Z -> Z -> prog A) (Q : A -> st -> Prop) :
  V0 <= v <= V -> lo <= v -> c = u32 (ver v) -> ver v mod 2 = 0 -> 0 <= data_off ->
  (forall bs after, tr i (fun s => from lo s /\ (c = after -> answered lo bs s)) (k bs after) Q) ->
  tr i (from v) (bs <- memcpy_from data_off n ;; after <- load32 o seq_off ;; k bs after) Q.
Proof using Hreader Hslot Hver Hwindow.
  intros Hv Hlo -> Hev Hoff Hk. eapply triple_bind; [apply session_rely| |].
  - eapply triple_conseq; [apply (reader_copy v (ver v) n data_off True (val (ver v / 2))); [done|]| |].
    + intros w m HP Hw. destruct (Hslot w m HP Hw) as [[_ Hd] Hok]. split; [apply Hok|]. intros E. rewrite E in Hd. by apply Hd.
    + intros s Hs [HP Hs']. unfold from in Hs. split; [done|]. split; [apply Hver; lia|done].
    + intros bs s Hs _. exact Hs.
  - intros bs. eapply triple_bind; [apply session_rely| |intros after; apply Hk].
    apply (reader_does (ALoad32 o seq_off) _ (fun after s => from lo s /\ (u32 (ver v) = after -> answered lo bs s))); [apply stable_while| |].
    + intros after. apply stable_and; [apply stable_from|]. intros s s' Hs Hi Hr E. by eapply answered_mono; [apply Hs|..].
    + intros g m (Hg & Hu & Hc) [HP Hs]. cbn [fst snd] in *. destruct (Hslot g m HP Hs) as [[Hsq _] Hok].
      cbn [safe_act act_step]. rewrite (slot_seq_ok _ _ _ _ Hok). cbn [guard_opt]. split; [done|].
      split; [unfold from; cbn; lia|]. rewrite Hsq. intros E. exists v. cbn. split; [lia|]. split; [done|].
      apply Hc. symmetry. apply (wrap_inj_window 32); [lia| |exact E].
      pose proof (ver_range g Hs). pose proof (ver_range v Hv). lia.
Qed.

Lemma slot_offset_nonneg {A : Set} (P1 : st -> Prop) (p : prog A) Q :
  (0 <= data_off -> tr i P1 p Q) -> tr i P1 p Q.
Proof using Hslot.
  intros Hp s Hs Hi. apply Hp; [|done|done]. destruct Hi as [HP Hs']. destruct (Hslot _ _ HP Hs') as [_ Hok].
  by apply (slot_seq_nonneg _ _ _ _ Hok).
Qed.

Lemma reader_attempt lo :
  tr i (from lo) (read_attempt seq_off data_off n)
    (fun r s => from lo s /\ match r with Some bs => answered lo bs s | None => True end).
Proof using Hreader Hslot Hver Hwindow.
  apply slot_offset_nonneg. intros Hoff. unfold read_attempt.
  eapply triple_bind; [apply session_rely|apply reader_counter|]. intros before.
  apply triple_ex. intros v. destruct (negb (Z.land before 1 =? 0)) eqn:E.
  - apply triple_ret.
    + apply stable_and; [apply stable_from|apply stable_pure].
    + intros s (Hv & _). split; [unfold from; lia|done].
  - intros s (Hv & HV & Hb) Hi. revert Hi. rewrite Hb, u32_parity in E.
    apply (reader_copy_check lo v before acquire); [done|lia|done|by destruct (Z.eqb_spec (ver v mod 2) 0)|done| |unfold from; lia].
    intros bs after. apply triple_ret.
    + apply stable_and; [apply stable_from|]. destruct (before =? after); [apply answered_mono|apply stable_pure].
    + intros s1 [Hlo Ha]. split; [done|]. destruct (Z.eqb_spec before after); [by apply Ha|done].
Qed.

(** The loop that retries until an attempt succeeds. *)
Lemma reader_loop lo :
  tr i (from lo) (forever (read_attempt seq_off data_off n)) (answered lo).
Proof using Hreader Hslot Hver Hwindow.
  apply triple_forever; [apply session_rely|apply stable_from|apply answered_mono|].
  eapply triple_conseq; [apply reader_attempt|done|]. by intros [bs|] s [? ?].
Qed.
End Reader.

(** A writer whose session is proved alone, and readers. *)
Lemma session_pool_sound `{FutexKernel} rc t (w : prog unit) (readers : list (prog unit)) m0 m us :
  V0 <= V -> P V0 m0 -> never_waits w ->
  wp (quiet rc) w t m0 (fun _ _ m' l => versioned P V0 l V /\ P V m') ->
  (forall i p, readers !! i = Some p -> tr (S i) (from V0) p (fun _ _ => True)) ->
  reachable (m0, Running <$> (w :: readers)) (m, us) ->
  (forall i p, us !! i = Some (Running p) -> local_step p m <> Trapped) /\
  (forall p, us !! 0%nat = Some (Running p) -> local_step p m = Finished -> P V m).
Proof using Type.
  intros HV Hm0 Hw Hwp Hreaders Hr.
  destruct (session_sound (w :: readers) (fun i _ s => i = 0%nat -> P V s.2) V0 m0 m us) as (Hnt & v & _ & Hfin).
  - split; [done|cbn; lia].
  - intros [|i] p Hp.
    + injection Hp as <-. eapply triple_conseq; [by apply (writer_triple rc t V0 m0 w)|by intros s [Hs|[? _]]|by intros].
    + eapply triple_conseq; [by apply (Hreaders i p)| |done]. intros s [->|[_ Hs]] _; unfold from; cbn; lia.
  - exact Hr.
  - split; [done|]. intros p Hp Hf. destruct (Hfin 0%nat p Hp Hf) as (_ & Hl). by apply Hl.
Qed.
End Session.
