(* ===== verification/Blocking.v ===== *)
(** * Readers that sleep: no wake-up is lost

    [SeqlockReader::load_blocking] and [CyclicBufferReader::wait_for_write]
    sleep on a word that the writer changes before it wakes everybody.  Any
    number of readers and one writer, interleaved on one memory with a kernel
    that queues sleepers: once the writer is through, a reader still asleep is
    one that has nothing to wait for but the next value. *)
From stdpp Require Import relations.
From S2P Require Import Prelude Memory Prog FlatType SeqCount Seqlock CyclicBuffer CyclicRing CyclicReaders Pool RelyGuarantee.

(** ** One writer, readers that only read *)
Section Discipline.
Context (mapped : mem -> Prop) (Hmapped : forall m m', length m' = length m -> mapped m -> mapped m')
        (at_rest : Z -> Prop)            (* what the word may be between two methods of the writer *)
        (asleep : nat -> Z -> Prop)      (* what reader [i] may expect of the word *)
        (many : Z).
Abbreviation st := (bool * mem)%type.

(** The ghost state: a wake is owed. *)
Definition settled (owed : bool) : Prop := owed = false.

Definition inv (s : st) : Prop := mapped s.2 /\ (s.1 = false -> at_rest (ld32 s.2 0)).

(** Thread 0 writes; the others change nothing. *)
Definition rely (i : nat) (s s' : st) : Prop := inv s' /\ (i = 0%nat -> s' = s).

Definition guar (i : nat) (ev : event) (s s' : st) : Prop :=
  inv s' /\ (i <> 0%nat -> s' = s) /\
  (s'.1 = false ->
   match ev with
   | Calm => s.1 = false /\ ld32 s'.2 0 = ld32 s.2 0
   | Woke off n => s.1 = false \/ (off = 0 /\ many <= n)
   end).

Definition sleeps (i : nat) (off expected : Z) (s : st) : Prop := off = 0 /\ asleep i expected.

Lemma rely_discipline i s s' : rely i s s' -> inv s'.
Proof using Type. by intros []. Qed.

Lemma guar_nothing i ev s : inv s -> match ev with Calm => True | Woke _ _ => s.1 = false end -> guar i ev s s.
Proof using Type. intros Hi Hev. split; [done|]. split; [done|]. intros E. destruct ev; auto. Qed.

Abbreviation tr i := (triple inv (rely i) (guar i) (asking (sleeps i))).

(** What the logic says of a pool under this discipline. *)
Lemma discipline_sound `{FutexKernel} (threads : list (prog unit)) (Q : nat -> unit -> st -> Prop) m0 m ts :
  inv (false, m0) -> Z.of_nat (length threads) <= many ->
  (forall i p, threads !! i = Some p -> tr i (fun s => s.1 = false \/ i <> 0%nat) p (Q i)) ->
  reachable (m0, Running <$> threads) (m, ts) ->
  (forall i p, ts !! i = Some (Running p) -> local_step p m <> Trapped) /\
  exists owed, inv (owed, m) /\
    (forall i p, ts !! i = Some (Running p) -> local_step p m = Finished -> exists v, Q i v (owed, m)) /\
    (forall i off k, ts !! i = Some (Parked off k) ->
       exists expected, sleeps i off expected (owed, m) /\ (owed = false -> ld32 m 0 = expected)).
Proof using Type.
  intros Hi Hn Hp Hr.
  edestruct (pool_rg_sound inv rely guar (fun i => asking (sleeps i)) Q 0 many (fun _ => true) settled) as (Hnt & owed & Hi' & Hfin & Hpark);
    [| |done| | | |exact Hr|].
  - by intros i ev s s' [].
  - intros i j ev s s' Hne (Hi' & Hs & _). split; [done|]. intros ->. by apply Hs.
  - intros i g m1 g' m1' (_ & _ & Hs) Ho. left. by apply Hs.
  - intros i off n g m1 g' m1' (_ & _ & Hs). exact Hs.
  - split; [apply few_all; cbn; by rewrite length_fmap|]. exists false. split; [done|]. intros i th Hth. cbn [fst snd] in *.
    rewrite list_lookup_fmap in Hth. apply fmap_Some in Hth as (p & Hth & ->). apply (Hp i p Hth); [by left|done].
  - split; [done|]. exists owed. split; [done|]. split; [done|]. intros i off k Hi1.
    destruct (Hpark i off k Hi1) as (e & He & Hs). exists e. split; [done|]. intros Ho. by apply Hs; [|destruct He].
Qed.

(** *** The writer: nothing changes behind its back *)
Lemma writer_stable P : stable inv (rely 0) P.
Proof using Type. intros s s' Hp _ [_ E]. by rewrite E. Qed.

Lemma writer_act {A : Set} (x : act A) (P : st -> Prop) (Q : A -> st -> Prop) :
  (forall g m, P (g, m) -> inv (g, m) ->
     safe_act x m (fun r => asking (sleeps 0) r (g, m))
       (fun ev v m' => exists g', guar 0 ev (g, m) (g', m') /\ Q v (g', m'))) ->
  tr 0%nat P (Act x) Q.
Proof using Type. apply triple_act; intros; apply writer_stable. Qed.

(** A store: from now on a wake is owed. *)
Lemma writer_stores (Q : st -> Prop) g m m' :
  inv (g, m) -> length m' = length m -> Q (true, m') ->
  exists g', guar 0 Calm (g, m) (g', m') /\ Q (g', m').
Proof using Hmapped.
  intros [Hm _] Hl HQ. exists true. split; [|done]. split; [split; [by eapply Hmapped|done]|done].
Qed.

Lemma writer_memcpy_to off bs (P : st -> Prop) :
  0 <= off -> (forall g m, P (g, m) -> inv (g, m) -> g = true /\ in_bounds m off (length bs) = true) ->
  (forall m o b, P (true, m) -> P (true, wr m o [b])) ->
  tr 0%nat P (memcpy_to off bs) (fun _ => P).
Proof using Hmapped.
  revert off. induction bs as [|b bs IH]; intros off H0 Hb HP; cbn [memcpy_to].
  - apply triple_ret; [apply writer_stable|done].
  - eapply triple_bind; [apply rely_discipline| |].
    + apply (writer_act _ P (fun _ => P)). intros g m Hp Hi. destruct (Hb g m Hp Hi) as [-> Hin].
      cbn [safe_act act_step guard_opt]. cbn [length] in Hin. change (S (length bs)) with (1 + length bs)%nat in Hin.
      apply in_bounds_split in Hin as [-> _]. by apply writer_stores; [exact Hi|apply length_wr|apply HP].
    + intros ?. apply IH; [lia| |done]. intros g m Hp Hi. destruct (Hb g m Hp Hi) as [-> Hin].
      split; [done|]. cbn [length] in Hin. change (S (length bs)) with (1 + length bs)%nat in Hin.
      by apply in_bounds_split in Hin as [_ Hin].
Qed.

(** *** The readers: whatever they see, they change nothing *)
Section Reader.
Context (i : nat).
Abbreviation any := (fun _ : st => True).

Lemma reader_act {A : Set} (x : act A) (R : A -> Prop) :
  (forall m, mapped m -> safe_act x m (fun r => match r with ToSleep off e => off = 0 /\ asleep i e | ToLoad _ _ => True end)
                           (fun ev v m' => ev = Calm /\ m' = m /\ R v)) ->
  tr i any (Act x) (fun v _ => R v).
Proof using Type.
  intros Hx. apply triple_act; [apply stable_pure|intros; apply stable_pure|]. intros g m _ Hi. eapply safe_act_mono; [apply Hx; apply Hi|].
  intros ev v m' (-> & -> & Hr). exists g. split; [|done]. by apply guar_nothing.
Qed.

Lemma reader_bind {A B : Set} (p : prog B) (k : B -> prog A) (R : B -> Prop) Q :
  tr i any p (fun b _ => R b) -> (forall b, R b -> tr i any (k b) Q) -> tr i any (Bind p k) Q.
Proof using Type.
  intros Hp Hk. eapply triple_bind; [apply rely_discipline|exact Hp|]. intros b s Hr Hi. by apply (Hk b Hr).
Qed.

Lemma reader_ret {A : Set} (a : A) : tr i any (Ret a) (fun _ _ => True).
Proof using Type. by apply triple_ret. Qed.

Lemma reader_memcpy_from off n :
  0 <= off -> (forall m, mapped m -> in_bounds m off n = true) ->
  tr i any (memcpy_from off n) (fun _ _ => True).
Proof using Type.
  revert off. induction n as [|n IH]; intros off H0 Hb; cbn [memcpy_from]; [apply reader_ret|].
  eapply reader_bind with (R := fun _ => True).
  - apply reader_act. intros m Hm. cbn [safe_act act_step guard_opt]. pose proof (Hb m Hm) as Hin.
    change (S n) with (1 + n)%nat in Hin. apply in_bounds_split in Hin as [-> _]. by split.
  - intros b _. eapply reader_bind with (R := fun _ => True); [apply IH; [lia|]|intros; apply reader_ret].
    intros m Hm. pose proof (Hb m Hm) as Hin. change (S n) with (1 + n)%nat in Hin.
    by apply in_bounds_split in Hin as [_ Hin].
Qed.

Lemma reader_forever {A : Set} (body : prog (option A)) :
  tr i any body (fun _ _ => True) -> tr i any (forever body) (fun _ _ => True).
Proof using Type.
  intros Hb. apply triple_forever; [apply rely_discipline|done|done|].
  eapply triple_conseq; [exact Hb|done|]. by intros [a|].
Qed.
End Reader.
End Discipline.

(** ** The seqlock *)
Section SeqlockBlocking.
Context {T : Set} `{HT : FlatType T} `{HK : FutexKernel}.

(** A writer of [ds]; each reader calls [load_blocking] with the counter it
    saw last and a timeout. *)
Definition seqlock_threads (ds : list T) (calls : list (Z * option Z)) : list (prog unit) :=
  stores ds :: ((fun '(last_seq, timeout_ns) =>
                   SeqlockReader.load_blocking T last_seq timeout_ns ;;; Ret tt) <$> calls).

(** A reader sleeps on a counter that is odd or the one it knows. *)
Definition seqlock_asleep (calls : list (Z * option Z)) (i : nat) (expected : Z) : Prop :=
  exists j c, i = S j /\ calls !! j = Some c /\ (expected = fst c \/ expected mod 2 = 1).

Section Triples.
Context (calls : list (Z * option Z)) (many : Z) (Hmany : many <= INT_MAX).
Abbreviation region := (region_ok (T:=T)).
Abbreviation even := (fun v => v mod 2 = 0).
Abbreviation asleep := (seqlock_asleep calls).
Abbreviation inv := (inv region even).
Abbreviation tr i := (triple inv (rely region even i) (guar region even many i) (asking (sleeps asleep i))).

Lemma region_same m m' : length m' = length m -> region m -> region m'.
Proof using Type. intros E. by apply region_ok_length. Qed.

Lemma seq_atomic m : region m -> atomic_ok m 0 4 = true.
Proof using Type. intros Hm. apply (region_slot_ok m Hm). Qed.

Lemma payload_ok m : region m -> in_bounds m (SeqlockRegion.data_offset T) (sizeof T) = true.
Proof using Type. intros Hm. apply (region_slot_ok m Hm). Qed.

Lemma tr_seqlock_store (d : T) :
  tr 0%nat (fun s => s.1 = false) (SeqlockWriter.store d) (fun _ s => s.1 = false).
Proof using Hmany.
  unfold SeqlockWriter.store, write_slot, SeqlockWriter.seq, SeqlockWriter.payload.
  pose proof (data_offset_bounds (T:=T)) as [Hoff _].
  eapply triple_bind with (R := fun _ s => s.1 = true /\ even (ld32 s.2 0)); [apply rely_discipline| |].
  - eapply triple_bind; [apply rely_discipline| |].
    { apply (writer_act region even asleep many _ _ (fun v s => s.1 = false /\ ld32 s.2 0 = v)).
      intros g m Hg Hi. cbn [safe_act act_step guard_opt]. rewrite (seq_atomic m) by apply Hi. cbn [guard_opt].
      exists g. split; [by apply guar_nothing|done]. }
    intros cur. apply (triple_conseq _ _ _ _ _ (fun s => cur mod 2 = 0 /\ True) _ _ (fun _ s => s.1 = true /\ even (ld32 s.2 0)));
      [|intros s [Hg <-] Hi; split; [by apply Hi|done]|done].
    apply triple_pure. intros Hev. eapply triple_bind; [apply rely_discipline| |].
    { apply (writer_act region even asleep many _ _ (fun _ s => s.1 = true)). intros g m _ Hi. cbn [safe_act act_step guard_opt].
      rewrite (seq_atomic m) by apply Hi. cbn [guard_opt]. by apply (writer_stores region region_same even many (fun s => s.1 = true)); [exact Hi|apply length_wr|]. }
    intros ?. eapply triple_bind; [apply rely_discipline| |].
    { apply (writer_memcpy_to region region_same even asleep many _ _ (fun s => s.1 = true)); [lia| |done].
      intros g m Hg Hi. rewrite length_to_bytes. split; [done|]. apply payload_ok, Hi. }
    intros ?. apply (writer_act region even asleep many). intros g m Hg Hi. cbn [safe_act act_step guard_opt].
    rewrite (seq_atomic m) by apply Hi. cbn [guard_opt]. cbn [snd fst] in *.
    apply (writer_stores region region_same even many (fun s => s.1 = true /\ even (ld32 s.2 0))); [done|apply length_wr|]. split; [done|]. cbn [snd].
    rewrite ld32_st32_same by by apply atomic_ok_bounds, seq_atomic, Hi.
    rewrite <- land_1_mod, u32_parity, <- land_1_mod, u32_parity. replace (cur + 2) with (cur + 1 * 2) by lia. by rewrite Z.mod_add.
  - intros ?. apply (writer_act region even asleep many). intros g m [Hg Hev] Hi. cbn [safe_act].
    rewrite (seq_atomic m) by apply Hi. cbn [guard_opt]. split; [done|]. exists false. split; [|done].
    split; [split; [apply Hi|done]|]. split; [done|]. intros _. right. by split.
Qed.

Lemma tr_stores (ds : list T) : tr 0%nat (fun s => s.1 = false) (stores ds) (fun _ s => s.1 = false).
Proof using Hmany.
  induction ds as [|d ds IH]; cbn [stores]; [by apply triple_ret; [apply writer_stable|]|].
  eapply triple_bind; [apply rely_discipline|apply tr_seqlock_store|]. by intros ?.
Qed.

Lemma tr_load_blocking j c :
  calls !! j = Some c ->
  tr (S j) (fun _ => True) (SeqlockReader.load_blocking T (fst c) (snd c)) (fun _ _ => True).
Proof using Type.
  intros Hc. pose proof (data_offset_bounds (T:=T)) as [Hoff _].
  assert (Hload : tr (S j) (fun _ => True) (load32 acquire 0) (fun _ _ => True)).
  { apply (reader_act region even asleep many (S j) _ (fun _ => True)). intros m Hm. cbn [safe_act act_step].
    by rewrite (seq_atomic m Hm). }
  unfold SeqlockReader.load_blocking. apply reader_forever.
  unfold SeqlockReader.load_blocking_round, SeqlockReader.seq, SeqlockReader.payload.
  apply (reader_bind region even asleep many (S j) _ _ (fun _ => True)); [exact Hload|]. intros cur _.
  destruct (negb (cur =? fst c) && (Z.land cur 1 =? 0)) eqn:E.
  - apply (reader_bind region even asleep many (S j) _ _ (fun _ => True)).
    { apply reader_memcpy_from; [lia|apply payload_ok]. }
    intros bs _. apply (reader_bind region even asleep many (S j) _ _ (fun _ => True)); [exact Hload|].
    intros after _. apply reader_ret.
  - apply (reader_bind region even asleep many (S j) _ _ (fun _ => True)).
    { apply (reader_act region even asleep many (S j) _ (fun _ => True)). intros m Hm. cbn [safe_act].
      rewrite (seq_atomic m Hm). split; [split; [done|]|done]. split; [done|]. exists j, c. split; [done|].
      split; [done|]. rewrite land_1_mod in E. destruct (Z.eqb_spec cur (fst c)); [by left|right].
      destruct (Z.eqb_spec (cur mod 2) 0); [done|]. pose proof (Z.mod_pos_bound cur 2). lia. }
    intros rc _. apply reader_ret.
Qed.
End Triples.

(** C10: No reader of a seqlock sleeps through a store: one writer publishing
    a list of values, any number of readers in load_blocking with whatever
    last_seq and timeout, every interleaving, every kernel. When the writer is
    through, a reader still asleep is asleep on the counter and was called
    with the counter's present value; and no thread ever accesses memory out
    of bounds or misaligned. *)
Theorem load_blocking_not_lost (ds : list T) calls m0 m ts :
  region_ok (T:=T) m0 -> ld32 m0 0 mod 2 = 0 -> Z.of_nat (length calls) < INT_MAX ->
  reachable (m0, Running <$> seqlock_threads ds calls) (m, ts) ->
  (forall i p, ts !! i = Some (Running p) -> local_step p m <> Trapped) /\
  (forall p j last_seq timeout_ns off k,
     ts !! 0%nat = Some (Running p) -> local_step p m = Finished ->
     calls !! j = Some (last_seq, timeout_ns) -> ts !! S j = Some (Parked off k) ->
     off = 0 /\ ld32 m 0 = last_seq).
Proof using Type.
  intros Hm0 Hev Hn Hr.
  edestruct (discipline_sound (region_ok (T:=T)) (fun v => v mod 2 = 0) (seqlock_asleep calls)
               INT_MAX (seqlock_threads ds calls) (fun i _ s => i = 0%nat -> s.1 = false) m0 m ts)
    as (Hnt & owed & Hi & Hfin & Hpark); [done| | |exact Hr|].
  - unfold seqlock_threads. cbn [length]. rewrite length_fmap. lia.
  - intros [|j] p Hp.
    + cbn in Hp. injection Hp as <-. eapply triple_conseq; [by apply tr_stores| |by intros].
      by intros s [Hs|Hs].
    + cbn in Hp. apply list_lookup_fmap_Some in Hp as ([last_seq timeout_ns] & -> & Hc).
      eapply triple_bind with (R := fun _ _ => True); [apply rely_discipline| |].
      * by eapply triple_conseq; [apply (tr_load_blocking calls INT_MAX j _ Hc)| |].
      * intros ?. by apply triple_ret.
  - split; [exact Hnt|]. intros p j last_seq timeout_ns off k H0 Hf Hc Hj.
    destruct (Hfin 0%nat p H0 Hf) as (_ & Ho). specialize (Ho eq_refl). cbn in Ho. subst owed.
    destruct (Hpark (S j) off k Hj) as (e & (-> & j' & c & [= <-] & Hc' & Hor) & Hw). specialize (Hw eq_refl).
    split; [done|]. rewrite Hc in Hc'. injection Hc' as <-. destruct Hi as [_ Hi]. specialize (Hi eq_refl). cbn in *.
    destruct Hor as [->|Hodd]; [done|]. subst e. lia.
Qed.
End SeqlockBlocking.

(** ** The cyclic buffer *)
Section RingBlocking.
Context {T : Set} `{HT : FlatType T} {N : Z} {HR : RingConfig T N} `{HK : FutexKernel}.

(** A writer of [ds]; each reader calls [wait_for_write] with the count it saw
    last and a timeout. *)
Definition ring_threads (ds : list T) (calls : list (Z * option Z)) : list (prog unit) :=
  inserts N ds :: ((fun '(last_seen, timeout_ns) =>
                      CyclicBufferReader.wait_for_write last_seen timeout_ns ;;; Ret tt) <$> calls).

(** A reader sleeps on the low word of the count it knows. *)
Definition ring_asleep (calls : list (Z * option Z)) (i : nat) (expected : Z) : Prop :=
  exists j c, i = S j /\ calls !! j = Some c /\ expected = u32 (fst c).

Section Triples.
Context (calls : list (Z * option Z)) (many : Z) (Hmany : many <= INT_MAX).
Abbreviation region := (ring_region (T:=T) (N:=N)).
Abbreviation anything := (fun _ : Z => True).
Abbreviation asleep := (ring_asleep calls).
Abbreviation inv := (inv region anything).
Abbreviation tr i := (triple inv (rely region anything i) (guar region anything many i) (asking (sleeps asleep i))).

Lemma ring_same m m' : length m' = length m -> region m -> region m'.
Proof using Type. unfold ring_region. by intros ->. Qed.

Lemma tr_ring_insert (d : T) :
  tr 0%nat (fun s => s.1 = false) (CyclicBufferWriter.insert N d) (fun _ s => s.1 = false).
Proof using HR Hmany.
  unfold CyclicBufferWriter.insert, CyclicBufferWriter.total_writes_ref, CyclicBufferWriter.total_writes_ptr,
    CyclicBufferWriter.slot_seq, CyclicBufferWriter.slot_data.
  set (owing := fun s : bool * mem => s.1 = true).
  assert (Hput : forall g m off bs, inv (g, m) ->
    exists g', guar region anything many 0 Calm (g, m) (g', wr m off bs) /\ owing (g', wr m off bs)).
  { intros g m off bs Hi. by apply (writer_stores region ring_same anything many owing); [exact Hi|apply length_wr|]. }
  eapply triple_bind with (R := fun _ _ => True); [apply rely_discipline| |].
  { apply (writer_act region anything asleep many). intros g m Hg Hi. cbn [safe_act act_step].
    rewrite (ring_header_ok (T:=T) (N:=N) m) by apply Hi. split; [done|]. exists g. split; [by apply guar_nothing|done]. }
  intros writes. set (idx := Z.land writes (N - 1)).
  assert (Hidx : 0 <= idx < N)
    by (destruct (capacity_ok_pow2 N ring_capacity) as (k & Hk & EN); unfold idx; rewrite EN, land_mask by done;
        apply Z.mod_pos_bound, Z.pow_pos_nonneg; lia).
  assert (Hslot : forall m, region m -> slot_ok (slot_seq_offset T idx) (slot_data_offset T idx) (sizeof T) m)
    by (intros m Hm; by apply ring_slot_ok).
  eapply triple_bind with (R := fun _ => owing); [apply rely_discipline| |].
  { unfold write_slot. eapply triple_bind with (R := fun _ _ => True); [apply rely_discipline| |].
    { apply (writer_act region anything asleep many). intros g m _ Hi. cbn [safe_act act_step].
      rewrite (slot_seq_ok _ _ _ m) by apply Hslot, Hi. exists g. split; [|done]. apply guar_nothing; [done|done]. }
    intros cur. eapply triple_bind with (R := fun _ => owing); [apply rely_discipline| |].
    { apply (writer_act region anything asleep many). intros g m _ Hi. cbn [safe_act act_step].
      rewrite (slot_seq_ok _ _ _ m) by apply Hslot, Hi. by apply Hput. }
    intros ?. eapply triple_bind with (R := fun _ => owing); [apply rely_discipline| |].
    { apply (writer_memcpy_to region ring_same anything asleep many _ _ owing); [| |done].
      - unfold slot_data_offset. apply u64_range.
      - intros g m Hg Hi. rewrite length_to_bytes. split; [exact Hg|]. apply Hslot, Hi. }
    intros ?. apply (writer_act region anything asleep many). intros g m _ Hi. cbn [safe_act act_step].
    rewrite (slot_seq_ok _ _ _ m) by apply Hslot, Hi. by apply Hput. }
  intros ?. eapply triple_bind with (R := fun _ => owing); [apply rely_discipline| |].
  { apply (writer_act region anything asleep many). intros g m _ Hi. cbn [safe_act act_step].
    rewrite (ring_header_ok (T:=T) (N:=N) m) by apply Hi. by apply Hput. }
  intros ?. apply (writer_act region anything asleep many). intros g m Hg Hi. cbn [safe_act].
  split; [by apply ring_low_ok, Hi|]. exists false. split; [|done].
  split; [split; [apply Hi|done]|]. split; [done|]. intros _. right. by split.
Qed.

Lemma tr_inserts (ds : list T) : tr 0%nat (fun s => s.1 = false) (inserts N ds) (fun _ s => s.1 = false).
Proof using HR Hmany.
  induction ds as [|d ds IH]; cbn [inserts]; [by apply triple_ret; [apply writer_stable|]|].
  eapply triple_bind; [apply rely_discipline|apply tr_ring_insert|]. by intros ?.
Qed.

Lemma tr_wait_for_write j c :
  calls !! j = Some c ->
  tr (S j) (fun _ => True) (CyclicBufferReader.wait_for_write (fst c) (snd c)) (fun _ _ => True).
Proof using HR.
  intros Hc. unfold CyclicBufferReader.wait_for_write, CyclicBufferReader.total_writes_ref,
    CyclicBufferReader.total_writes_futex_ptr. cbv zeta. apply reader_forever.
  apply (reader_bind region anything asleep many (S j) _ _ (fun _ => True)).
  { apply (reader_act region anything asleep many (S j) _ (fun _ => True)). intros m Hm. cbn [safe_act act_step].
    rewrite (ring_header_ok (T:=T) (N:=N) m Hm). by split. }
  intros cur _. destruct (negb (cur =? fst c)); [apply reader_ret|].
  apply (reader_bind region anything asleep many (S j) _ _ (fun _ => True)); [|intros; apply reader_ret].
  apply (reader_act region anything asleep many (S j) _ (fun _ => True)). intros m Hm. cbn [safe_act].
  split; [|done]. split; [by apply ring_low_ok|]. split; [done|]. by exists j, c.
Qed.
End Triples.

(** C11: No reader of a cyclic buffer sleeps through an insert: one writer
    inserting a list of elements, any number of readers in wait_for_write with
    whatever last_seen and timeout, every interleaving, every kernel. When the
    writer is through, a reader still asleep was called with a count whose low
    32 bits are those of the present total_writes; and no thread ever accesses
    memory out of bounds or misaligned. *)
Theorem wait_for_write_not_lost (ds : list T) calls m0 m ts :
  ring_region (T:=T) (N:=N) m0 -> Z.of_nat (length calls) < INT_MAX ->
  reachable (m0, Running <$> ring_threads ds calls) (m, ts) ->
  (forall i p, ts !! i = Some (Running p) -> local_step p m <> Trapped) /\
  (forall p j last_seen timeout_ns off k,
     ts !! 0%nat = Some (Running p) -> local_step p m = Finished ->
     calls !! j = Some (last_seen, timeout_ns) -> ts !! S j = Some (Parked off k) ->
     off = 0 /\ ld32 m 0 = u32 last_seen).
Proof using HR.
  intros Hm0 Hn Hr.
  edestruct (discipline_sound (ring_region (T:=T) (N:=N)) (fun _ => True) (ring_asleep calls)
               INT_MAX (ring_threads ds calls) (fun i _ s => i = 0%nat -> s.1 = false) m0 m ts)
    as (Hnt & owed & Hi & Hfin & Hpark); [done| | |exact Hr|].
  - unfold ring_threads. cbn [length]. rewrite length_fmap. lia.
  - intros [|j] p Hp.
    + cbn in Hp. injection Hp as <-. eapply triple_conseq; [by apply tr_inserts| |by intros].
      by intros s [Hs|Hs].
    + cbn in Hp. apply list_lookup_fmap_Some in Hp as ([last_seen timeout_ns] & -> & Hc).
      eapply triple_bind with (R := fun _ _ => True); [apply rely_discipline| |].
      * by eapply triple_conseq; [apply (tr_wait_for_write calls INT_MAX j _ Hc)| |].
      * intros ?. by apply triple_ret.
  - split; [exact Hnt|]. intros p j last_seen timeout_ns off k H0 Hf Hc Hj.
    destruct (Hfin 0%nat p H0 Hf) as (_ & Ho). specialize (Ho eq_refl). cbn in Ho. subst owed.
    destruct (Hpark (S j) off k Hj) as (e & (-> & j' & c & [= <-] & Hc' & ->) & Hw). specialize (Hw eq_refl).
    split; [done|]. rewrite Hc in Hc'. injection Hc' as <-. done.
Qed.
End RingBlocking.

(** ** One store, one reader that knows its counter, one that does not *)
Module BlockingWitness.
Definition m0 : mem := fresh (SeqlockRegion.total_size uint32).
Definition calls : list (Z * option Z) := [(2, None); (0, Some 5)].
Definition start : pool := (m0, Running <$> seqlock_threads [to_uint 4 7] calls).

(** Both readers go to sleep, the writer stores, the first reader goes back to
    sleep. *)
Definition sched : list nat :=
  repeat 2%nat 3 ++ repeat 0%nat 8 ++ repeat 1%nat 3.
Definition stop : pool := run_to sched start.

Lemma blocking_stop_reachable : reachable start stop.
Proof. apply run_to_reachable. vm_compute. reflexivity. Qed.

Lemma load_blocking_not_lost_witness :
  finished stop 0 = true /\ asleep_on stop 1 = Some 0 /\ asleep_on stop 2 = None /\ ld32 stop.1 0 = 2.
Proof.
  assert (Hf : finished stop 0 = true) by (vm_compute; reflexivity).
  assert (Ha : asleep_on stop 1 = Some 0) by (vm_compute; reflexivity).
  split; [exact Hf|]. split; [exact Ha|]. split; [vm_compute; reflexivity|].
  apply finished_running in Hf as (p & Hp & Hf). apply asleep_parked in Ha as (k & Hk).
  eapply (load_blocking_not_lost (T:=uint32) [to_uint 4 7] calls m0 stop.1 stop.2) with (j := 0%nat);
    [reflexivity|reflexivity|reflexivity|exact blocking_stop_reachable|exact Hp|exact Hf|reflexivity|exact Hk].
Defined.

#[local] Instance config : RingConfig uint32 2.
Proof. split; reflexivity. Qed.

Definition ring0 : mem := fresh (CyclicRegion.total_size uint32 2).
Definition ring_calls : list (Z * option Z) := [(1, None); (0, Some 5)].
Definition ring_start : pool := (ring0, Running <$> ring_threads (N:=2) [to_uint 4 7] ring_calls).
Definition ring_sched : list nat :=
  repeat 2%nat 3 ++ repeat 0%nat 10 ++ repeat 1%nat 3.
Definition ring_stop : pool := run_to ring_sched ring_start.

Lemma ring_stop_reachable : reachable ring_start ring_stop.
Proof. apply run_to_reachable. vm_compute. reflexivity. Qed.

Lemma wait_for_write_not_lost_witness :
  finished ring_stop 0 = true /\ asleep_on ring_stop 1 = Some 0 /\ asleep_on ring_stop 2 = None /\
  ld32 ring_stop.1 0 = u32 1.
Proof.
  assert (Hf : finished ring_stop 0 = true) by (vm_compute; reflexivity).
  assert (Ha : asleep_on ring_stop 1 = Some 0) by (vm_compute; reflexivity).
  split; [exact Hf|]. split; [exact Ha|]. split; [vm_compute; reflexivity|].
  apply finished_running in Hf as (p & Hp & Hf). apply asleep_parked in Ha as (k & Hk).
  eapply (wait_for_write_not_lost (T:=uint32) (N:=2) [to_uint 4 7] ring_calls ring0 ring_stop.1 ring_stop.2)
    with (j := 0%nat); [reflexivity|reflexivity|exact ring_stop_reachable|exact Hp|exact Hf|reflexivity|exact Hk].
Defined.
End BlockingWitness.
