(* ===== verification/Processes.v ===== *)
(** * A writer process and its reader processes

    The systems the library is for: one process publishing through
    [SeqlockWriter] or [CyclicBufferWriter], any number of processes reading.
    What the readers find is put into their programs as assertions, so that
    "no thread traps" says that every answer was right - in the interleaving
    of single accesses, and on a machine with store buffers. *)
From stdpp Require Import relations.
From S2P Require Import Prelude Memory Prog History FlatType SeqCount Seqlock CyclicBuffer CyclicRing CyclicReaders CyclicConcurrent Stamped Reads SanitizedKey TimeSeries TimeSeriesFacts TimeSeriesRing RingLog Pool RelyGuarantee StoreBuffer Session.

(** ** No reader's method stores anything *)
Create HintDb reading.

Lemma reads_only_forever {A : Set} (body : prog (option A)) : reads_only body -> reads_only (forever body).
Proof. intros Hb. cbn [forever uses_only]. intros _. split; [done|]. by intros [a|]. Qed.

Lemma reads_only_memcpy_from off n : reads_only (memcpy_from off n).
Proof. revert off. induction n as [|n IH]; intros off; [exact I|]. split; [exact I|]. intros b. by split. Qed.

Lemma reads_only_assert b : reads_only (assert b).
Proof. by destruct b. Qed.

#[export] Hint Resolve reads_only_forever reads_only_memcpy_from reads_only_assert : reading.

(** The rest follows the text of the program. *)
Ltac solve_reads_only :=
  repeat match goal with
  | |- True => exact I
  | |- _ /\ _ => split
  | |- forall _, _ => intros ?
  | |- reads_only (Ret _) => exact I
  | |- reads_only (Bind _ _) => split
  | |- reads_only (Act _) => exact I
  | |- reads_only (Iter _ _) => intros ?
  | |- reads_only (load32 _ _) => exact I
  | |- reads_only (load64 _ _) => exact I
  | |- reads_only (futex_wait_call _ _ _) => exact I
  | |- reads_only (match ?x with _ => _ end) => destruct x
  | |- reads_only (let x := _ in _) => cbv zeta
  | |- reads_only _ => solve [auto with reading]
  | |- reads_only (forever _) => apply reads_only_forever
  end.

Lemma reads_only_attempt seq_off data_off n : reads_only (read_attempt seq_off data_off n).
Proof. unfold read_attempt. solve_reads_only. Qed.
#[export] Hint Resolve reads_only_attempt : reading.

Section ReadsOnly.
Context {T : Set} `{HT : FlatType T}.

Lemma reads_only_load : reads_only (SeqlockReader.load T).
Proof using Type. unfold SeqlockReader.load. solve_reads_only. Qed.

Lemma reads_only_load_blocking last_seq timeout_ns : reads_only (SeqlockReader.load_blocking T last_seq timeout_ns).
Proof using Type. unfold SeqlockReader.load_blocking, SeqlockReader.load_blocking_round. solve_reads_only. Qed.

Lemma reads_only_sequence : reads_only SeqlockReader.sequence.
Proof using Type. exact I. Qed.

Context (N : Z).

Lemma reads_only_total_writes : reads_only CyclicBufferReader.total_writes.
Proof using Type. exact I. Qed.

Lemma reads_only_available : reads_only (CyclicBufferReader.available N).
Proof using Type. unfold CyclicBufferReader.available. solve_reads_only. Qed.

Lemma reads_only_get_latest : reads_only (CyclicBufferReader.get_latest T N).
Proof using Type. unfold CyclicBufferReader.get_latest, CyclicBufferReader.read_slot. solve_reads_only. Qed.

Lemma reads_only_get r : reads_only (CyclicBufferReader.get T N r).
Proof using Type. unfold CyclicBufferReader.get, CyclicBufferReader.read_slot. solve_reads_only. Qed.

Lemma reads_only_try_get r retries : reads_only (CyclicBufferReader.try_get T N r retries).
Proof using Type. unfold CyclicBufferReader.try_get, CyclicBufferReader.try_read_slot. solve_reads_only. Qed.

Lemma reads_only_wait_for_write last_seen timeout_ns :
  reads_only (CyclicBufferReader.wait_for_write last_seen timeout_ns).
Proof using Type. unfold CyclicBufferReader.wait_for_write. solve_reads_only. Qed.
End ReadsOnly.
#[export] Hint Resolve reads_only_load reads_only_load_blocking reads_only_sequence reads_only_total_writes
  reads_only_available reads_only_get_latest reads_only_get reads_only_try_get reads_only_wait_for_write : reading.

Section TimeSeriesReadsOnly.
Context {T : Set} `{HT : FlatType T} `{HK : !KeyExtractor T} (N : Z).

Lemma reads_only_try_get_default r : reads_only (TimeSeries.try_get (T:=T) N r).
Proof using Type. apply reads_only_try_get. Qed.
#[local] Hint Resolve reads_only_try_get_default : reading.

Lemma reads_only_scan {A : Set} avail (body : A -> T -> A) a0 : reads_only (TimeSeries.scan (T:=T) N avail body a0).
Proof using Type. unfold TimeSeries.scan. solve_reads_only. Qed.
#[local] Hint Resolve reads_only_scan : reading.

Lemma reads_only_find_closest target max_distance : reads_only (TimeSeries.find_closest (T:=T) N target max_distance).
Proof using Type.
  unfold TimeSeries.find_closest, TimeSeries.find_closest_linear, TimeSeries.binary_search. solve_reads_only.
Qed.

Lemma reads_only_find_interpolation_pair target : reads_only (TimeSeries.find_interpolation_pair (T:=T) N target).
Proof using Type.
  unfold TimeSeries.find_interpolation_pair, TimeSeries.find_interpolation_pair_linear, TimeSeries.bracket_search.
  solve_reads_only.
Qed.

Lemma reads_only_get_latest_if_fresh min_key : reads_only (TimeSeries.get_latest_if_fresh (T:=T) N min_key).
Proof using Type. unfold TimeSeries.get_latest_if_fresh. solve_reads_only. Qed.
End TimeSeriesReadsOnly.
#[export] Hint Resolve reads_only_find_closest reads_only_find_interpolation_pair reads_only_get_latest_if_fresh : reading.

(** *** What [reads_only] means

    A typing of effects: every step of such a program leaves the memory alone,
    so at each moment the memory is what the others make of it. *)
Lemma reads_only_keeps {A : Set} rc (p p' : prog A) m m' :
  reads_only p -> step rc p m = Some (p', m') -> m' = m /\ reads_only p'.
Proof.
  induction p as [A a|A x|A B p IHp k IHk|A S0 body IH s]; cbn [uses_only step]; [done| | |].
  - intros Hx. destruct x; try done; cbn [act_step]; unfold guard_opt; intros; repeat case_match; by simplify_eq/=.
  - intros [Hp Hk]. destruct (ret_of p) as [b|]; [by apply IHk|]. destruct (step rc p m) as [[q m1]|] eqn:E; [|done].
    intros [= <- <-]. destruct (IHp q Hp eq_refl) as [-> Hq]. by repeat split.
  - intros Hb [= <- <-]. split; [done|]. split; [done|]. by intros [s'|a].
Qed.

(** What the others make of the memory in [n] steps. *)
Fixpoint others (e : env) (n t : nat) (m : mem) : mem :=
  match n with O => m | S n => others e n (S t) (interfere e t m) end.

Lemma reads_only_invisible {A : Set} e n : forall (p : prog A) t m a t' m',
  (t' - t <= n)%nat -> reads_only p -> runs e p t m a t' m' -> m' = others e (t' - t) t m.
Proof.
  assert (Hret : forall (p : prog A) t m a t' m' b, ret_of p = Some b -> runs e p t m a t' m' -> m' = others e (t' - t) t m).
  { intros p t m a t' m' b E (_ & -> & ->)%(ret_of_runs _ _ _ _ _ E). by rewrite Nat.sub_diag. }
  induction n as [|n IH]; intros p t m a t' m' Hn Hp Hr; (destruct (ret_of p) as [b|] eqn:E; [by apply (Hret p t m a t' m' b)|]);
    apply runs_step in Hr as (q & m1 & Hs & Hr); try done; pose proof (proj1 Hr); [lia|].
  apply reads_only_keeps in Hs as [-> Hq]; [|done]. replace (t' - t)%nat with (S (t' - S t)) by lia. cbn [others].
  apply (IH q _ _ a); [lia|done|done].
Qed.

Section ReaderMethods.
Context {T : Set} `{HT : FlatType T} `{HK : !KeyExtractor T} (N : Z).

(** The methods of the reader classes and of the time series. *)
Inductive reader_method : forall A : Set, prog A -> Prop :=
| Load : reader_method T (SeqlockReader.load T)
| LoadBlocking last_seq tmo : reader_method (option T * Z) (SeqlockReader.load_blocking T last_seq tmo)
| Sequence : reader_method Z SeqlockReader.sequence
| GetLatest : reader_method T (CyclicBufferReader.get_latest T N)
| Get r : reader_method T (CyclicBufferReader.get T N r)
| TryGet r retries : reader_method (option T) (CyclicBufferReader.try_get T N r retries)
| Available : reader_method Z (CyclicBufferReader.available N)
| TotalWrites : reader_method Z CyclicBufferReader.total_writes
| WaitForWrite last_seen tmo : reader_method _ (CyclicBufferReader.wait_for_write last_seen tmo)
| FindClosest target md : reader_method (option T) (TimeSeries.find_closest N target md)
| FindPair target : reader_method (option (InterpPair T)) (TimeSeries.find_interpolation_pair N target)
| IfFresh min_key : reader_method (option T) (TimeSeries.get_latest_if_fresh N min_key).

(** C19: A reader is invisible: every method of SeqlockReader,
    CyclicBufferReader and TimeSeries is typed as reading only, and in every
    environment, on every memory, when it returns the memory is exactly what
    the other processes alone would have made of it. *)
Theorem readers_invisible (A : Set) (p : prog A) :
  reader_method A p ->
  reads_only p /\ forall e t m a t' m', runs e p t m a t' m' -> m' = others e (t' - t) t m.
Proof using Type.
  intros Hp. assert (Hr : reads_only p) by (destruct Hp; auto with reading). split; [done|].
  intros e t m a t' m'. by apply (reads_only_invisible e (t' - t)).
Qed.
End ReaderMethods.

Lemma readers_invisible_witness :
  reads_only (TimeSeries.find_closest (T:=Stamped uint64) 4 5 None) /\
  forall e t m a t' m', runs e (TimeSeries.find_closest (T:=Stamped uint64) 4 5 None) t m a t' m' -> m' = others e (t' - t) t m.
Proof. apply (readers_invisible (T:=Stamped uint64) 4 _ _ (FindClosest 4 5 None)). Defined.

(** ** The seqlock's processes *)
Inductive seqlock_call : Set :=
| CallLoad
| CallLoadBlocking (timeout_ns : option Z).

Section SeqlockProcesses.
Context {T : Set} `{HT : FlatType T} (in_order : T -> T -> bool).

(** A reader that calls [load] and [load_blocking], keeping its [last_seq],
    and checks every value it gets against the one before, the first against
    itself. *)
Fixpoint check_loads (calls : list seqlock_call) (last_seq : Z) (prev : T) : prog unit :=
  match calls with
  | [] => Ret tt
  | CallLoad :: calls =>
      x <- SeqlockReader.load T ;;
      assert (in_order prev x) ;;;
      check_loads calls last_seq x
  | CallLoadBlocking timeout_ns :: calls =>
      r <- SeqlockReader.load_blocking T last_seq timeout_ns ;;
      match r.1 with
      | Some x => assert (in_order prev x) ;;; check_loads calls r.2 x
      | None => check_loads calls r.2 prev
      end
  end.

Definition seqlock_reader (calls : list seqlock_call) : prog unit :=
  x <- SeqlockReader.load T ;; assert (in_order x x) ;;; check_loads calls 0 x.

Definition seqlock_processes (ds : list T) (readers : list (list seqlock_call)) : list (prog unit) :=
  stores ds :: (seqlock_reader <$> readers).

Lemma reads_only_check_loads calls : forall last_seq prev, reads_only (check_loads calls last_seq prev).
Proof using Type.
  induction calls as [|[|t] calls IH]; intros last_seq prev; cbn [check_loads]; [exact I|..]; solve_reads_only; apply IH.
Qed.

Lemma reads_only_seqlock_readers readers : Forall reads_only (seqlock_reader <$> readers).
Proof using Type.
  apply Forall_fmap, Forall_true. intros calls. split; [apply reads_only_load|]. intros x. split; [apply reads_only_assert|]. intros _. apply reads_only_check_loads.
Qed.

(** The session of the writer: the counter starts at [c]; version [c + 2 a]
    has the [a]-th value. *)
Context (d0 : T) (ds : list T) (c : Z).
Context (Hc : 0 <= c /\ c mod 2 = 0) (Hlen : Z.of_nat (length ds) < 2 ^ 31).
Context (Horder : forall a b x y, (a <= b)%nat ->
           (d0 :: ds) !! a = Some x -> (d0 :: ds) !! b = Some y -> in_order x y = true).

Abbreviation bytes_at := (session_val c d0 ds).
Abbreviation at_version := (fun v m => slot_at 0 (SeqlockRegion.data_offset T) (sizeof T) bytes_at v m /\ region_ok (T:=T) m).
Abbreviation final := (c + 2 * Z.of_nat (length ds)).
Abbreviation tr i := (triple (inv at_version c final) (rely at_version c final i) (guar at_version c final i) anywhere).

Lemma value_index v :
  c <= v <= final -> v mod 2 = 0 ->
  exists a : nat, v = c + 2 * Z.of_nat a /\ (d0 :: ds) !! a = Some (of_bytes (bytes_at (v / 2))).
Proof using Hc.
  intros Hv Hev. pose proof (Z.div_mod v 2). pose proof (Z.div_mod c 2). exists (Z.to_nat (v / 2 - c / 2)). split; [lia|].
  unfold session_val. rewrite of_to_bytes, nth_lookup. destruct ((d0 :: ds) !! Z.to_nat (v / 2 - c / 2)) eqn:E; [done|].
  apply lookup_ge_None in E. cbn in E. lia.
Qed.

Lemma slot_in_session v m : at_version v m -> c <= v <= final ->
  slot_at 0 (SeqlockRegion.data_offset T) (sizeof T) bytes_at v m /\ slot_ok 0 (SeqlockRegion.data_offset T) (sizeof T) m.
Proof using Type. intros [Hat Hm] _. split; [done|]. by apply region_slot_ok. Qed.

Lemma session_order v w : c <= v -> v <= w <= final -> v <= w.
Proof using Type. lia. Qed.

Lemma session_window : final < c + 2 ^ 32.
Proof using Hlen. lia. Qed.

(** A value read by thread [i], no older than version [lo]. *)
Definition got (lo : Z) (x : T) (s : Z * mem) : Prop :=
  exists a : nat, lo <= c + 2 * Z.of_nat a <= s.1 /\ (d0 :: ds) !! a = Some x.

Lemma answered_got lo bs s :
  inv at_version c final s -> c <= lo -> answered bytes_at (fun v => v) lo bs s -> got lo (of_bytes bs) s.
Proof using Hc.
  intros [_ Hs] Hlo (v & Hv & Hev & ->). destruct (value_index v ltac:(lia) Hev) as (a & -> & Hx).
  by exists a; split; [lia|].
Qed.

Section Reader.
Context (i : nat) (Hi : i <> 0%nat).

Lemma got_mono lo x : stable (inv at_version c final) (rely at_version c final i) (got lo x).
Proof using Hi. intros s s' (a & Ha & Hx) _ (_ & Hle & _). exists a. split; [lia|done]. Qed.

Lemma tr_seqlock_load lo : c <= lo -> tr i (from lo) (SeqlockReader.load T) (got lo).
Proof using Hc Hi Hlen.
  intros Hlo. unfold SeqlockReader.load. eapply triple_bind; [apply session_rely| |].
  - apply (reader_loop at_version c final i Hi 0 (SeqlockRegion.data_offset T) (sizeof T) bytes_at (fun v => v));
      [apply slot_in_session|lia|apply session_window].
  - intros bs. eapply triple_conseq with (P' := got lo (of_bytes bs)); [apply triple_ret; [apply got_mono|done]| |done].
    intros s Ha Hinv. by apply answered_got.
Qed.
Definition got_opt (lo : Z) (r : option T * Z) (s : Z * mem) : Prop :=
  from lo s /\ match r.1 with Some x => got lo x s | None => True end.

Lemma got_opt_mono lo r : stable (inv at_version c final) (rely at_version c final i) (got_opt lo r).
Proof using Hi.
  apply stable_and; [by apply stable_from|]. destruct (r.1); [apply got_mono|apply stable_pure].
Qed.

Lemma tr_seqlock_load_blocking lo last_seq timeout_ns :
  c <= lo -> tr i (from lo) (SeqlockReader.load_blocking T last_seq timeout_ns) (got_opt lo).
Proof using Hc Hi Hlen.
  intros Hlo. unfold SeqlockReader.load_blocking.
  apply triple_forever; [apply session_rely|by apply stable_from|apply got_opt_mono|].
  apply (slot_offset_nonneg at_version c final i 0 (SeqlockRegion.data_offset T) (sizeof T) bytes_at (fun v => v) slot_in_session).
  intros Hoff. unfold SeqlockReader.load_blocking_round. eapply triple_bind; [apply session_rely| |].
  { apply (reader_counter at_version c final i Hi 0 (SeqlockRegion.data_offset T) (sizeof T) bytes_at (fun v => v) slot_in_session lo). }
  intros cur. apply triple_ex. intros v. destruct (negb (cur =? last_seq) && (Z.land cur 1 =? 0)) eqn:E.
  - intros s (Hv & HV & Hcur) Hinv. revert Hinv. apply andb_prop in E as [_ E]. rewrite Hcur, u32_parity in E.
    apply (reader_copy_check at_version c final i Hi 0 (SeqlockRegion.data_offset T) (sizeof T) bytes_at (fun v => v)
             slot_in_session session_order session_window lo v cur acquire);
      [done|lia|done|by apply Z.eqb_eq|done| |unfold from; lia].
    intros bs after. eapply triple_conseq; [apply (triple_ret _ _ _ _ (if cur =? after then Some (Some (of_bytes bs), cur) else None)
        (fun s => from lo s /\ if cur =? after then got lo (of_bytes bs) s else True)
        (fun r s => match r with Some r => got_opt lo r s | None => from lo s end))| |].
    + destruct (cur =? after); [apply got_opt_mono|by apply stable_from].
    + intros s1 [Hl Hg]. by destruct (cur =? after).
    + intros s1 [Hl Ha] Hinv. split; [done|]. destruct (Z.eqb_spec cur after); [|done]. by apply answered_got; [|done|apply Ha].
    + done.
  - apply (triple_conseq _ _ _ _ _ (from lo) _ _ (fun r s => match r with Some r => got_opt lo r s | None => from lo s end));
      [|intros s (Hv & _) _; unfold from; lia|done].
    eapply triple_bind with (R := fun _ => from lo); [apply session_rely| |].
    + apply (reader_does at_version c final i Hi (AFutexWait 0 cur (to_timespec timeout_ns)) (from lo) (fun _ => from lo));
        [by apply stable_from|intros; by apply stable_from|].
      intros g m Hg [HP Hs]. cbn [safe_act]. destruct (slot_in_session g m HP Hs) as [_ Hok].
      split; [split; [apply (slot_seq_ok _ _ _ _ Hok)|done]|done].
    + intros rc. set (timed_out := (fst rc =? -1) && (snd rc =? ETIMEDOUT)). apply triple_ret.
      * destruct timed_out; [apply got_opt_mono|by apply stable_from].
      * intros s Hs. by destruct timed_out.
Qed.

(** A value no older than the one before passes the check. *)
Lemma tr_checked a x y (p : prog unit) Q :
  (d0 :: ds) !! a = Some x ->
  (forall b, (d0 :: ds) !! b = Some y -> tr i (from (c + 2 * Z.of_nat b)) p Q) ->
  tr i (got (c + 2 * Z.of_nat a) y) (assert (in_order x y) ;;; p) Q.
Proof using Hi Horder.
  intros Hx Hp s (b & Hb & Hy) Hinv. rewrite (Horder a b x y) by (lia || done).
  assert (Hs : from (c + 2 * Z.of_nat b) s) by (unfold from; lia). revert s Hs Hinv Hb.
  assert (Ht : tr i (from (c + 2 * Z.of_nat b)) (assert true ;;; p) Q).
  { eapply triple_bind; [apply session_rely| |intros ?; by apply (Hp b)]. apply triple_ret; [by apply stable_from|done]. }
  intros s Hs Hinv _. by apply Ht.
Qed.

Lemma tr_check_loads calls : forall last_seq a x,
  (d0 :: ds) !! a = Some x ->
  tr i (from (c + 2 * Z.of_nat a)) (check_loads calls last_seq x) (fun _ _ => True).
Proof using Hc Hi Hlen Horder.
  induction calls as [|[|t] calls IH]; intros last_seq a x Hx; cbn [check_loads].
  - apply triple_ret; [apply stable_pure|done].
  - eapply triple_bind; [apply session_rely|apply tr_seqlock_load; lia|]. intros y. by apply tr_checked; [|intros b Hb; apply IH].
  - eapply triple_bind; [apply session_rely|apply tr_seqlock_load_blocking; lia|]. intros [[y|] last]; cbn [fst snd].
    + eapply triple_conseq; [apply (tr_checked a x y); [done|intros b Hb; by apply IH]|by intros s [_ Hg]|done].
    + eapply triple_conseq; [by apply IH|by intros s [? _]|done].
Qed.

Lemma tr_seqlock_reader calls : tr i (from c) (seqlock_reader calls) (fun _ _ => True).
Proof using Hc Hi Hlen Horder.
  unfold seqlock_reader. eapply triple_bind; [apply session_rely|apply tr_seqlock_load; lia|]. intros x s (a & Ha & Hx) Hinv.
  apply (tr_checked a x x (check_loads calls 0 x) (fun _ _ => True) Hx); [|by exists a; split; [lia|]|done].
  intros b Hb. by apply tr_check_loads.
Qed.
End Reader.

(** *** The writer *)
Lemma never_waits_stores l : never_waits (stores (T:=T) l).
Proof using Type.
  induction l as [|d l IH]; [exact I|]. split; [|intros _; apply IH]. split; [|intros _; exact I].
  split; [exact I|]. intros cur. split; [exact I|]. intros _. split; [apply never_waits_memcpy_to|]. intros _. exact I.
Qed.

End SeqlockProcesses.

Section SeqlockPool.
Context {T : Set} `{HT : FlatType T} `{FutexKernel} (in_order : T -> T -> bool).
Context (d0 : T) (ds : list T) (readers : list (list seqlock_call)) (m0 : mem).
Context (Hm0 : Forall byte_ok m0) (Hd0 : holds d0 m0) (Hlen : Z.of_nat (length ds) < 2 ^ 31).
Context (Horder : forall a b x y, (a <= b)%nat ->
           (d0 :: ds) !! a = Some x -> (d0 :: ds) !! b = Some y -> in_order x y = true).

(** Interleaved, no process traps, and the last value stays. *)
Lemma seqlock_pool_safe m us :
  reachable (m0, Running <$> seqlock_processes in_order ds readers) (m, us) ->
  (forall i p, us !! i = Some (Running p) -> local_step p m <> Trapped) /\
  (forall p, us !! 0%nat = Some (Running p) -> local_step p m = Finished -> holds (List.last (d0 :: ds) d0) m).
Proof using Hm0 Hd0 Hlen Horder.
  intros Hr. set (c := ld32 m0 0). set (final := c + 2 * Z.of_nat (length ds)).
  set (at_version := fun v m => slot_at 0 (SeqlockRegion.data_offset T) (sizeof T) (session_val c d0 ds) v m /\ region_ok (T:=T) m).
  pose proof (wp_session (fun _ => (0, 0)) m0 d0 ds 0%nat Hm0 Hd0) as Hwp. cbv zeta in Hwp. fold c final at_version in Hwp.
  destruct (session_start m0 d0 ds Hm0 Hd0) as [_ Hat].
  assert (Hc : 0 <= c /\ c mod 2 = 0) by (split; [by apply ld32_range|apply Hd0]).
  destruct (session_pool_sound at_version c final (fun _ => (0, 0)) 0%nat (stores ds) (seqlock_reader in_order <$> readers) m0 m us)
    as [Hnt Hfin]; [lia|split; [done|apply Hd0]|apply never_waits_stores|exact Hwp| |exact Hr|].
  - intros i p Hp. apply list_lookup_fmap_Some in Hp as (calls & -> & _). by apply tr_seqlock_reader.
  - split; [done|]. intros p Hp Hf. destruct (Hfin p Hp Hf) as [Hs Hm].
    apply (slot_at_holds (session_val c d0 ds) final); [done|done| |apply session_val_last].
    unfold final. rewrite Z.mul_comm, Z.mod_add by lia. apply Hc.
Qed.

(** C2: On a machine with store buffers emptied in order, as x86 has them, a
    seqlock is read correctly by any number of processes while another writes:
    whatever readers call load and load_blocking, keeping their last_seq,
    however the buffers are emptied in between, every value they get is a
    whole value that was stored, none older than the one before; no process
    accesses memory out of bounds; and when the writer is through and its
    buffer empty, the region holds the last value. *)
Theorem seqlock_on_x86 m (ts : list (thread * list pending)) :
  sb_reachable first_only (m0, idle <$> seqlock_processes in_order ds readers) (m, ts) ->
  (forall i p buf, ts !! i = Some (Running p, buf) -> local_step p (drain m buf) <> Trapped) /\
  (forall p, ts !! 0%nat = Some (Running p, []) -> local_step p m = Finished -> holds (List.last (d0 :: ds) d0) m).
Proof using Hm0 Hd0 Hlen Horder.
  intros Hts. pose proof (reads_only_seqlock_readers in_order readers) as Hq. split.
  - apply (sb_not_trapped _ m0 m ts (one_writer_robust _ _ _ Hq) Hts).
    intros m' us i p Hr. by apply seqlock_pool_safe.
  - intros p Hp. destruct (sb_thread_state _ m0 m ts (one_writer_robust _ _ _ Hq) Hts 0%nat _ [] Hp) as (us & Hr & Hu).
    by apply (proj2 (seqlock_pool_safe m us Hr)).
Qed.
End SeqlockPool.

(** ** The cyclic buffer's processes *)
Inductive ring_call : Set :=
| CallGetLatest
| CallTryGet (reverse_index max_retries : Z)
| CallWaitForWrite (timeout_ns : option Z).

Lemma done_at_mono g g' : g <= g' -> done_at g <= done_at g'.
Proof. apply Z.div_le_mono. lia. Qed.

Section RingProcesses.
Context {T : Set} `{HT : FlatType T} (N : Z) {HR : RingConfig T N} (fresh_at : Z -> T -> bool).

(** A reader that looks at [total_writes] and then calls one of the methods,
    and checks that what it gets is no older than what the count promised. *)
Fixpoint check_ring (calls : list ring_call) : prog unit :=
  match calls with
  | [] => Ret tt
  | CallGetLatest :: calls =>
      c <- CyclicBufferReader.total_writes ;;
      x <- CyclicBufferReader.get_latest T N ;;
      assert (fresh_at c x) ;;;
      check_ring calls
  | CallTryGet r retries :: calls =>
      c <- CyclicBufferReader.total_writes ;;
      x <- CyclicBufferReader.try_get T N r retries ;;
      assert (match x with Some x => fresh_at (c - r) x | None => true end) ;;;
      check_ring calls
  | CallWaitForWrite timeout_ns :: calls =>
      c <- CyclicBufferReader.total_writes ;;
      c' <- CyclicBufferReader.wait_for_write c timeout_ns ;;
      assert (match c' with Some c' => c <? c' | None => true end) ;;;
      check_ring calls
  end.

Definition ring_processes (ds : list T) (readers : list (list ring_call)) : list (prog unit) :=
  inserts N ds :: (check_ring <$> readers).

Lemma reads_only_check_ring calls : reads_only (check_ring calls).
Proof using Type.
  induction calls as [|[|r n|t] calls IH]; cbn [check_ring]; [exact I|..]; solve_reads_only; apply IH.
Qed.

Lemma reads_only_ring_readers readers : Forall reads_only (check_ring <$> readers).
Proof using Type. apply Forall_fmap, Forall_true. intros calls. apply reads_only_check_ring. Qed.

(** The session of the writer: ring version [3 w] has [w] elements. *)
Context (ds : list T) (Hlen : Z.of_nat (length ds) < 2 ^ 30).
Abbreviation at_ring := (ring_at (N:=N) (session_elem ds) (session_init (T:=T))).
Abbreviation final := (3 * Z.of_nat (length ds)).
Abbreviation tr i := (triple (inv at_ring 0 final) (rely at_ring 0 final i) (guar at_ring 0 final i) anywhere).

Lemma done_at_bounds g : 0 <= g <= final -> 0 <= done_at g < 2 ^ 30.
Proof using Hlen. intros Hg. unfold done_at. split; [apply Z.div_pos; lia|apply Z.div_lt_upper_bound; lia]. Qed.

Section RingSlot.
Context (j : Z) (Hj : 0 <= j < N).
Abbreviation ver := (slot_version (N:=N) j).
Abbreviation val := (slot_val (N:=N) (session_elem ds) (session_init (T:=T)) j).

Lemma ring_slot_at v m : at_ring v m -> 0 <= v <= final ->
  slot_at (slot_seq_offset T j) (slot_data_offset T j) (sizeof T) val (ver v) m /\
  slot_ok (slot_seq_offset T j) (slot_data_offset T j) (sizeof T) m.
Proof using HR Hj. intros (Hm & _ & Hs) _. split; [by apply Hs|by apply ring_slot_ok]. Qed.

Lemma ring_slot_order v w : 0 <= v -> v <= w <= final -> ver v <= ver w.
Proof using HR Hj. intros Hv Hw. pose proof (slot_version_mono (T:=T) j v w Hj ltac:(lia)). lia. Qed.

Lemma ring_slot_window : ver final < ver 0 + 2 ^ 32.
Proof using HR Hj Hlen. pose proof (slot_version_mono (T:=T) j 0 final Hj ltac:(lia)). lia. Qed.
End RingSlot.

(** An element no older than the [r]-th newest of the [w] counted. *)
Definition current (w r : Z) (x : T) : Prop := exists j, 0 <= j /\ w - 1 - r <= j /\ ds !! Z.to_nat j = Some x.

Lemma answered_current g r bs s :
  inv at_ring 0 final s -> 0 <= g -> 0 <= r < N -> r < done_at g ->
  let j := (done_at g - 1 - r) mod N in
  answered (slot_val (N:=N) (session_elem ds) (session_init (T:=T)) j) (slot_version (N:=N) j) g bs s ->
  current (done_at g) r (of_bytes bs).
Proof using HR.
  intros [_ Hs] Hg Hr Hrw j (v & Hv & Hev & ->).
  destruct (slot_elem_current ds (done_at g) r g v) as (e & He & Hb & _); [lia|lia|done|lia| |].
  - pose proof (Z.div_mod (slot_version (N:=N) j v) 2). fold j. lia.
  - exists e. split; [lia|]. split; [lia|done].
Qed.
Section Reader.
Context (i : nat) (Hi : i <> 0%nat).

(** The count read by thread [i]. *)
Definition counted (lo w : Z) (s : Z * mem) : Prop := exists g, lo <= g <= s.1 /\ 0 <= g <= final /\ w = done_at g.

Lemma tr_total_writes lo : tr i (from lo) (load64 acquire 0) (counted lo).
Proof using HR Hi Hlen.
  apply (reader_does at_ring 0 final i Hi (ALoad64 acquire 0)); [by apply stable_from| |].
  - intros w. apply (stable_mono at_ring 0 final i Hi (fun v => exists g, lo <= g <= v /\ 0 <= g <= final /\ w = done_at g)).
    intros v v' Hle (g & Hg & ?). exists g. split; [lia|done].
  - intros g m Hg [(Hm & Htw & _) Hs]. cbn [safe_act act_step fst snd] in *. rewrite (ring_header_ok (T:=T) (N:=N)) by done.
    cbn [guard_opt]. split; [done|]. split; [done|]. exists g. split; [unfold from in Hg; cbn in *; lia|]. split; [done|].
    rewrite Htw. apply u64_small. pose proof (done_at_bounds g Hs). unfold done_at in *. lia.
Qed.

(** A slot read under way since version [g]. *)
Lemma tr_read_slot g j :
  0 <= j < N -> 0 <= g ->
  tr i (from g) (CyclicBufferReader.read_slot T j)
    (fun x s => exists bs, x = of_bytes bs /\
       answered (slot_val (N:=N) (session_elem ds) (session_init (T:=T)) j) (slot_version (N:=N) j) g bs s).
Proof using HR Hi Hlen.
  intros Hj Hg. unfold CyclicBufferReader.read_slot, CyclicBufferReader.slot_seq, CyclicBufferReader.slot_data.
  eapply triple_bind; [apply session_rely| |].
  - apply (reader_loop at_ring 0 final i Hi _ _ _ _ _ (ring_slot_at j Hj) (ring_slot_order j Hj) (ring_slot_window j Hj) g).
  - intros bs. apply triple_ret.
    + apply stable_ex. intros bs'. apply stable_and; [apply stable_pure|by apply answered_mono].
    + intros s Ha. by exists bs.
Qed.

Lemma tr_try_read_slot g j retries :
  0 <= j < N -> 0 <= g ->
  tr i (from g) (CyclicBufferReader.try_read_slot T j retries)
    (fun o s => match o with
                | Some x => exists bs, x = of_bytes bs /\
                    answered (slot_val (N:=N) (session_elem ds) (session_init (T:=T)) j) (slot_version (N:=N) j) g bs s
                | None => from g s
                end).
Proof using HR Hi Hlen.
  intros Hj Hg. unfold CyclicBufferReader.try_read_slot, CyclicBufferReader.slot_seq, CyclicBufferReader.slot_data.
  set (Q := fun (o : option T) (s : Z * mem) => match o with Some x => _ | None => from g s end).
  assert (HQ : forall o, stable (inv at_ring 0 final) (rely at_ring 0 final i) (Q o)).
  { intros [x|]; [|by apply stable_from]. apply stable_ex. intros bs.
    apply stable_and; [apply stable_pure|by apply answered_mono]. }
  apply (triple_iter _ _ _ _ (session_rely at_ring 0 final i) _ (fun _ => from g)); [intros; by apply stable_from|done|].
  intros attempt. destruct (attempt <=? retries).
  - eapply triple_bind; [apply session_rely| |].
    + apply (reader_attempt at_ring 0 final i Hi _ _ _ _ _ (ring_slot_at j Hj) (ring_slot_order j Hj) (ring_slot_window j Hj) g).
    + intros [bs|]; apply triple_ret; [apply HQ| |by apply stable_from|by intros s [Hs _]].
      intros s [_ Ha]. by exists bs.
  - apply triple_ret; [apply HQ|done].
Qed.

(** The count first, then what depends on it. *)
Lemma tr_counted {A : Set} lo (k : Z -> prog A) Q :
  (forall g, lo <= g -> 0 <= g <= final -> tr i (from g) (k (done_at g)) Q) ->
  tr i (from lo) (Bind (load64 acquire 0) k) Q.
Proof using HR Hi Hlen.
  intros Hk. eapply triple_bind; [apply session_rely|apply tr_total_writes|].
  intros w s (g & Hg & HV & ->) Hinv. apply (Hk g); [lia|done|unfold from; lia|done].
Qed.

(** What is known of an answer for good: the count [g] it is measured by. *)
Definition since (lo : Z) (phi : Z -> Prop) (s : Z * mem) : Prop := exists g, lo <= g <= s.1 /\ 0 <= g <= final /\ phi g.

Lemma since_mono lo phi : stable (inv at_ring 0 final) (rely at_ring 0 final i) (since lo phi).
Proof using Hi.
  apply (stable_mono at_ring 0 final i Hi (fun v => exists g, lo <= g <= v /\ 0 <= g <= final /\ phi g)).
  intros v w Hle (g & Hg & ?). exists g. split; [lia|done].
Qed.

Lemma tr_get_latest lo :
  tr i (from lo) (CyclicBufferReader.get_latest T N)
    (fun x => since lo (fun g => done_at g = 0 /\ x = value_init \/ current (done_at g) 0 x)).
Proof using HR Hi Hlen.
  apply tr_counted. intros g Hlo Hg. pose proof (capacity_pos (T:=T) (N:=N)) as HN. pose proof (done_at_bounds g Hg).
  destruct (Z.eqb_spec (done_at g) 0) as [E|E].
  - apply triple_ret; [apply since_mono|]. intros s Hs. exists g. unfold from in Hs. split; [lia|]. split; [done|by left].
  - rewrite (mask_mod (T:=T)), (u64_mod (T:=T)). eapply triple_conseq; [apply (tr_read_slot g)|done|].
    + by apply Z.mod_pos_bound.
    + lia.
    + intros x s (bs & -> & Ha) Hinv. pose proof Ha as (v & Hv & _). exists g. split; [lia|]. split; [done|]. right.
      apply (answered_current g 0 bs s Hinv); [lia|lia|lia|]. cbv zeta. by rewrite Z.sub_0_r.
Qed.

Lemma tr_try_get lo r retries :
  0 <= r -> tr i (from lo) (CyclicBufferReader.try_get T N r retries)
    (fun o s => from lo s /\ match o with Some x => r < N /\ since lo (fun g => current (done_at g) r x) s | None => True end).
Proof using HR Hi Hlen.
  intros Hr. apply tr_counted. intros g Hlo Hg. pose proof (capacity_pos (T:=T) (N:=N)) as HN. pose proof (done_at_bounds g Hg).
  destruct (r >=? Z.min (done_at g) N) eqn:E; zbool.
  { apply triple_ret; [apply stable_and; [by apply stable_from|apply stable_pure]|]. unfold from. intros s Hs. split; [lia|done]. }
  rewrite <- (u64_small (done_at g)) by lia. rewrite (reverse_slot (T:=T)).
  eapply triple_conseq; [apply (tr_try_read_slot g); [by apply Z.mod_pos_bound|lia]|done|].
  intros [x|] s Hs Hinv; unfold from in *; [|split; [lia|done]]. destruct Hs as (bs & -> & Ha). pose proof Ha as (v & Hv & _).
  split; [lia|]. split; [lia|]. exists g. split; [lia|]. split; [done|]. apply (answered_current g r bs s); [done|lia|lia|lia|exact Ha].
Qed.

Lemma tr_ring_wait lo last_seen timeout_ns :
  tr i (from lo) (CyclicBufferReader.wait_for_write last_seen timeout_ns)
    (fun o s => match o with Some c => c <> last_seen /\ since lo (fun g => c = done_at g) s | None => True end).
Proof using HR Hi Hlen.
  unfold CyclicBufferReader.wait_for_write, CyclicBufferReader.total_writes_ref. cbv zeta.
  set (Q := fun (o : option Z) (s : Z * mem) => match o with Some c => _ | None => True end).
  assert (HQ : forall o, stable (inv at_ring 0 final) (rely at_ring 0 final i) (Q o)).
  { intros [c|]; [|apply stable_pure]. apply stable_and; [apply stable_pure|apply since_mono]. }
  apply triple_forever; [apply session_rely|by apply stable_from|exact HQ|].
  apply tr_counted. intros g Hlo Hg. destruct (Z.eqb_spec (done_at g) last_seen) as [E|E]; cbn [negb].
  - eapply triple_bind with (R := fun _ => from lo); [apply session_rely| |].
    + apply (reader_does at_ring 0 final i Hi (AFutexWait CyclicBufferReader.total_writes_futex_ptr (u32 last_seen) (to_timespec timeout_ns)) (from g) (fun _ => from lo));
        [by apply stable_from|intros; by apply stable_from|].
      intros g' m Hg' [(Hm & _) _]. cbn [safe_act]. split; [split; [by apply (ring_low_ok (T:=T) (N:=N))|done]|].
      intros rc. split; [done|]. unfold from in *. cbn in *. lia.
    + intros rc. set (timed_out := (fst rc =? -1) && (snd rc =? ETIMEDOUT)). apply triple_ret.
      * destruct timed_out; [exact (HQ None)|by apply stable_from].
      * intros s Hs. by destruct timed_out.
  - apply triple_ret; [apply (HQ (Some _))|]. intros s Hs. split; [done|]. exists g. unfold from in Hs. split; [lia|done].
Qed.

Context (Hfresh : forall c j x, 0 <= j -> c - 1 <= j -> ds !! Z.to_nat j = Some x -> fresh_at c x = true)
        (Hempty : fresh_at 0 value_init = true).

(** A check of something known to hold, and the rest. *)
Lemma tr_check (P : Z * mem -> Prop) b (p : prog unit) :
  (forall s, P s -> inv at_ring 0 final s -> b = true) ->
  tr i (from 0) p (fun _ _ => True) -> tr i P (assert b ;;; p) (fun _ _ => True).
Proof using Hi.
  intros Hb Hp s Hs Hinv. rewrite (Hb s Hs Hinv).
  assert (Ht : tr i (from 0) (assert true ;;; p) (fun _ _ => True)).
  { eapply triple_bind with (R := fun _ => from 0); [apply session_rely| |by intros ?].
    apply triple_ret; [by apply stable_from|done]. }
  apply Ht; [apply Hinv|done].
Qed.

(** An answer measured by a later count is as new as the count promised. *)
Lemma current_fresh g0 g r x :
  g0 <= g -> current (done_at g) r x -> fresh_at (done_at g0 - r) x = true.
Proof using Hi Hfresh.
  intros Hg (j & Hj0 & Hj & Hx). apply (Hfresh _ j); [done| |done]. pose proof (done_at_mono g0 g Hg). lia.
Qed.

Lemma tr_check_ring calls :
  Forall (fun call => match call with CallTryGet r _ => 0 <= r | _ => True end) calls ->
  tr i (from 0) (check_ring calls) (fun _ _ => True).
Proof using HR Hi Hlen Hfresh Hempty.
  induction calls as [|call calls IH]; [by intros _; apply triple_ret; [apply stable_pure|]|].
  inversion 1 as [|? ? Hr Hcalls]; subst. specialize (IH Hcalls).
  destruct call as [|r n|t]; cbn [check_ring]; apply tr_counted; intros g0 _ Hg0.
  - eapply triple_bind; [apply session_rely|apply tr_get_latest|]. intros x. apply tr_check; [|done].
    intros s (g & Hg & HV & [[E ->]|Hx]) _.
    + pose proof (done_at_mono g0 g ltac:(lia)). pose proof (done_at_bounds g0 Hg0).
      by replace (done_at g0) with 0 by lia.
    + rewrite <- (Z.sub_0_r (done_at g0)). apply (current_fresh g0 g 0 x); [lia|done].
  - eapply triple_bind; [apply session_rely|by apply tr_try_get|]. intros o. apply tr_check; [|done].
    intros s [_ Ho] _. destruct o as [x|]; [|done]. destruct Ho as (_ & g & Hg & _ & Hx). apply (current_fresh g0 g r x); [lia|done].
  - eapply triple_bind; [apply session_rely|apply tr_ring_wait|]. intros o. apply tr_check; [|done].
    intros s Ho _. destruct o as [c|]; [|done]. destruct Ho as (Hne & g & Hg & _ & ->).
    pose proof (done_at_mono g0 g ltac:(lia)). apply Z.ltb_lt. lia.
Qed.
End Reader.

Lemma never_waits_inserts (l : list T) : never_waits (inserts N l).
Proof using Type.
  induction l as [|d l IH]; [exact I|]. split; [|intros _; apply IH]. split; [exact I|]. intros w. split.
  - split; [exact I|]. intros cur. split; [exact I|]. intros _. split; [apply never_waits_memcpy_to|]. intros _. exact I.
  - intros _. split; [exact I|]. intros _. exact I.
Qed.
End RingProcesses.



Section RingPool.
Context {T : Set} `{HT : FlatType T} {N : Z} {HR : RingConfig T N} `{FutexKernel} (fresh_at : Z -> T -> bool).
Context (ds : list T) (readers : list (list ring_call)) (Hlen : Z.of_nat (length ds) < 2 ^ 30).
Context (Hreaders : Forall (Forall (fun call => match call with CallTryGet r _ => 0 <= r | _ => True end)) readers).
Context (Hfresh : forall c j x, 0 <= j -> c - 1 <= j -> ds !! Z.to_nat j = Some x -> fresh_at c x = true)
        (Hempty : fresh_at 0 value_init = true).
Abbreviation start := (fresh (CyclicRegion.total_size T N)).

(** Interleaved, no process traps, and in the end the ring is at rest. *)
Lemma ring_pool_safe m us :
  reachable (start, Running <$> ring_processes N fresh_at ds readers) (m, us) ->
  (forall i p, us !! i = Some (Running p) -> local_step p m <> Trapped) /\
  (forall p, us !! 0%nat = Some (Running p) -> local_step p m = Finished -> ring_log (N:=N) ds m).
Proof using HR Hlen Hreaders Hfresh Hempty.
  intros Hr. set (final := 3 * Z.of_nat (length ds)). set (at_ring := ring_at (N:=N) (session_elem ds) (session_init (T:=T))).
  apply (session_pool_sound at_ring 0 final (fun _ => (0, 0)) 0%nat (inserts N ds) (check_ring N fresh_at <$> readers) start m us);
    [lia|apply ring_fresh|apply never_waits_inserts|apply wp_ring_session| |exact Hr].
  intros i p Hp. apply list_lookup_fmap_Some in Hp as (calls & -> & Hc).
  apply (tr_check_ring N fresh_at ds Hlen (S i)); [done|exact Hfresh|exact Hempty|]. exact (Forall_lookup_1 _ _ _ _ Hreaders Hc).
Qed.

(** C3: On a machine with store buffers emptied in order, as x86 has them, a
    cyclic buffer is read correctly by any number of processes while another
    inserts: whatever readers call total_writes and then get_latest,
    try_get(r) or wait_for_write, however the buffers are emptied in between,
    every element they get is a whole element that was inserted, and no older
    than the newest, or the r-th newest, of the count they had seen before
    (get_latest answers a value-initialised element only where that count was
    zero); the count wait_for_write returns is larger; no process accesses
    memory out of bounds; and when the writer is through and its buffer empty
    the ring holds exactly the list inserted. *)
Theorem ring_on_x86 m (ts : list (thread * list pending)) :
  sb_reachable first_only (start, idle <$> ring_processes N fresh_at ds readers) (m, ts) ->
  (forall i p buf, ts !! i = Some (Running p, buf) -> local_step p (drain m buf) <> Trapped) /\
  (forall p, ts !! 0%nat = Some (Running p, []) -> local_step p m = Finished -> ring_log (N:=N) ds m).
Proof using HR Hlen Hreaders Hfresh Hempty.
  intros Hts. pose proof (reads_only_ring_readers N fresh_at readers) as Hq. split.
  - apply (sb_not_trapped _ start m ts (one_writer_robust _ _ _ Hq) Hts).
    intros m' us i p Hr. by apply ring_pool_safe.
  - intros p Hp. destruct (sb_thread_state _ start m ts (one_writer_robust _ _ _ Hq) Hts 0%nat _ [] Hp) as (us & Hr & Hu).
    by apply (proj2 (ring_pool_safe m us Hr)).
Qed.
End RingPool.

(** ** One store of [0x01010101], one reader *)
Module SeqlockProcessesWitness.
Definition d0 : uint32 := to_uint 4 0.
Definition d1 : uint32 := to_uint 4 16843009.
Definition ds : list uint32 := [d1].

(** Only these two values, and never the first after the second. *)
Definition in_order (x y : uint32) : bool :=
  (uint_val x =? uint_val y) && ((uint_val x =? 0) || (uint_val x =? 16843009)) ||
  (uint_val x =? 0) && (uint_val y =? 16843009).

Definition readers : list (list seqlock_call) := [[CallLoadBlocking None; CallLoad]].
Definition m0 : mem := fresh (SeqlockRegion.total_size uint32).
Definition start : mem * list (thread * list pending) := (m0, idle <$> seqlock_processes in_order ds readers).


(** The reader loads, goes to sleep, the writer stores, its buffer leaves, it
    wakes the reader; in the end the writer is through. *)
Definition sched : list sb_move := acts 1 10 ++ acts 0 7 ++ leaves 0 6 ++ acts 0 1 ++ acts 1 14.
Definition stop : mem * list (thread * list pending) := sb_run_to first_only sched start.

Lemma seqlock_stop_reached : sb_reachable first_only start stop.
Proof. apply sb_run_to_reachable. vm_compute. reflexivity. Qed.

Lemma values_in_order a b x y :
  (a <= b)%nat -> (d0 :: ds) !! a = Some x -> (d0 :: ds) !! b = Some y -> in_order x y = true.
Proof.
  intros Hab Ha Hb. destruct a as [|[|a]], b as [|[|b]]; try done; try lia; injection Ha as <-; injection Hb as <-;
    vm_compute; reflexivity.
Qed.

Lemma seqlock_on_x86_witness :
  sb_finished stop 0 = true /\ sb_finished stop 1 = true /\ sb_trapped stop 1 = false /\ holds d1 stop.1.
Proof.
  assert (Hf : sb_finished stop 0 = true) by (vm_compute; reflexivity).
  split; [exact Hf|]. split; [vm_compute; reflexivity|].
  assert (Hb : Forall byte_ok m0) by (repeat constructor; vm_compute; congruence).
  destruct (seqlock_on_x86 in_order d0 ds readers m0 Hb ltac:(split; [|split]; vm_compute; reflexivity)
              ltac:(vm_compute; reflexivity) values_in_order stop.1 stop.2 seqlock_stop_reached) as [Hsafe Hlast].
  split; [by apply sb_not_trapped_false|]. apply sb_finished_running in Hf as (p & Hp & Hf). exact (Hlast p Hp Hf).
Defined.

(** A release store does not hold back the stores that follow it: where a
    machine goes by the order of the access alone, the copy may reach the
    memory before the counter is odd, and a reader takes two bytes of one value
    and two of the other for a value. *)
Definition torn_sched : list sb_move := acts 0 7 ++ [Leaves 0 1; Leaves 0 1] ++ acts 1 7.

Lemma release_stores_tear :
  sb_reachable release_only start (sb_run_to release_only torn_sched start) /\
  sb_trapped (sb_run_to release_only torn_sched start) 1 = true.
Proof. split; [apply sb_run_to_reachable|]; vm_compute; reflexivity. Qed.
End SeqlockProcessesWitness.

(** ** Three elements in a ring of two, one reader *)
Module RingProcessesWitness.
#[local] Instance config : RingConfig uint32 2.
Proof. split; reflexivity. Qed.

Definition ds : list uint32 := [to_uint 4 10; to_uint 4 11; to_uint 4 12].

(** The element [10 + j] is the [j]-th. *)
Definition fresh_at (c : Z) (x : uint32) : bool :=
  let v := uint_val x in
  (10 <=? v) && (v <=? 12) && (c - 1 <=? v - 10) || (v =? 0) && (c =? 0).

Definition readers : list (list ring_call) := [[CallWaitForWrite None; CallGetLatest; CallTryGet 1 4]].
Definition start : mem * list (thread * list pending) :=
  (fresh (CyclicRegion.total_size uint32 2), idle <$> ring_processes 2 fresh_at ds readers).

(** The reader goes to sleep on an empty ring; the writer inserts two elements
    and wakes it; while the reader looks, the third is inserted. *)
Definition insert_one : list sb_move := acts 0 9 ++ leaves 0 7 ++ acts 0 1.
Definition sched : list sb_move :=
  acts 1 4 ++ insert_one ++ insert_one ++ acts 1 5 ++ acts 0 5 ++ leaves 0 2 ++ acts 1 8 ++ acts 0 4 ++ leaves 0 5 ++
  acts 0 1 ++ acts 1 7.
Definition stop : mem * list (thread * list pending) := sb_run_to first_only sched start.

Lemma ring_stop_reached : sb_reachable first_only start stop.
Proof. apply sb_run_to_reachable. vm_compute. reflexivity. Qed.

Lemma elements_fresh c j x : 0 <= j -> c - 1 <= j -> ds !! Z.to_nat j = Some x -> fresh_at c x = true.
Proof.
  intros H0 Hj Hx. assert (Hn : exists n, j = Z.of_nat n) by (exists (Z.to_nat j); lia). destruct Hn as [n ->].
  rewrite Nat2Z.id in Hx. unfold fresh_at.
  assert (Hv : uint_val x = 10 + Z.of_nat n /\ Z.of_nat n <= 2).
  { destruct n as [|[|[|n]]]; [injection Hx as <-; by split..|done]. }
  rewrite (proj2 (Z.leb_le 10 _)), (proj2 (Z.leb_le _ 12)), (proj2 (Z.leb_le (c - 1) _)) by lia. done.
Qed.

Lemma ring_on_x86_witness :
  sb_finished stop 0 = true /\ sb_finished stop 1 = true /\ sb_trapped stop 1 = false /\ ring_log (N:=2) ds stop.1.
Proof.
  assert (Hf : sb_finished stop 0 = true) by (vm_compute; reflexivity).
  split; [exact Hf|]. split; [vm_compute; reflexivity|].
  destruct (ring_on_x86 fresh_at ds readers ltac:(vm_compute; reflexivity)
              ltac:(repeat constructor; vm_compute; congruence) elements_fresh ltac:(vm_compute; reflexivity)
              stop.1 stop.2 ring_stop_reached) as [Hsafe Hlast].
  split; [by apply sb_not_trapped_false|]. apply sb_finished_running in Hf as (p & Hp & Hf). exact (Hlast p Hp Hf).
Defined.
End RingProcessesWitness.
