(* ===== verification/TimeSeriesProcesses.v ===== *)
(** * Processes that look a series up while another inserts

    [time_series.hpp] as it is used: one process inserts, any number of others
    ask for the closest element, a bracketing pair or the latest if it is
    fresh, on a machine with store buffers.  What the lookups answer follows
    from [try_get] and [available] alone ([AnswerLogic]); here these are the
    reads of a thread of the pool. *)
From stdpp Require Import relations.
From S2P Require Import Prelude Memory Prog Equiv History Reads FlatType SeqCount Seqlock CyclicBuffer CyclicRing CyclicReaders CyclicConcurrent Stamped SanitizedKey Float TimeSeries TimeSeriesFacts TimeSeriesRing RingLog Pool RelyGuarantee StoreBuffer Session Processes.

Inductive series_call : Set :=
| CallFindClosest (target : Z) (max_distance : option Z)
| CallFindPair (target : Z)
| CallLatestIfFresh (min_key : Z).

Section SeriesProcesses.
Context {T : Set} `{HT : FlatType T} `{HK : !KeyExtractor T} (N : Z) {HR : RingConfig T N} (fresh_at : Z -> T -> bool).

(** A reader that looks at [total_writes], then looks something up, and checks
    that what it gets was inserted and was among the newest [N] of the count
    it saw, or came later. *)
Fixpoint check_series (calls : list series_call) : prog unit :=
  match calls with
  | [] => Ret tt
  | CallFindClosest target max_distance :: calls =>
      c <- CyclicBufferReader.total_writes ;;
      o <- TimeSeries.find_closest N target max_distance ;;
      assert (match o with Some x => fresh_at (c - (N - 1)) x | None => true end) ;;;
      check_series calls
  | CallFindPair target :: calls =>
      c <- CyclicBufferReader.total_writes ;;
      o <- TimeSeries.find_interpolation_pair N target ;;
      assert (match o with
              | Some p => fresh_at (c - (N - 1)) (before p) && fresh_at (c - (N - 1)) (after p)
              | None => true
              end) ;;;
      check_series calls
  | CallLatestIfFresh min_key :: calls =>
      c <- CyclicBufferReader.total_writes ;;
      o <- TimeSeries.get_latest_if_fresh N min_key ;;
      assert (match o with Some x => fresh_at c x && (min_key <=? extractor x) | None => true end) ;;;
      check_series calls
  end.

Definition series_processes (ds : list T) (readers : list (list series_call)) : list (prog unit) :=
  inserts N ds :: (check_series <$> readers).

Lemma reads_only_check_series calls : reads_only (check_series calls).
Proof using Type.
  induction calls as [|[target md|target|min_key] calls IH]; cbn [check_series]; [exact I|..]; solve_reads_only; exact IH.
Qed.

Lemma reads_only_series_readers readers : Forall reads_only (check_series <$> readers).
Proof using Type. apply Forall_fmap, Forall_true. intros calls. apply reads_only_check_series. Qed.

Context (ds : list T) (Hlen : Z.of_nat (length ds) < 2 ^ 30).
Abbreviation at_ring := (ring_at (N:=N) (session_elem ds) (session_init (T:=T))).
Abbreviation final := (3 * Z.of_nat (length ds)).
Abbreviation tr i := (triple (inv at_ring 0 final) (rely at_ring 0 final i) (guar at_ring 0 final i) anywhere).
Context (Hfresh : forall c j x, 0 <= j -> c - 1 <= j -> ds !! Z.to_nat j = Some x -> fresh_at c x = true).

Section Reader.
Context (i : nat) (Hi : i <> 0%nat) (g0 : Z).

(** What a thread learns of the answers alone, since version [g0]. *)
Definition learns (A : Set) (p : prog A) (P : A -> Prop) : Prop := tr i (from g0) p (fun a s => from g0 s /\ P a).

Lemma still_from (phi : Prop) : stable (inv at_ring 0 final) (rely at_ring 0 final i) (fun s => from g0 s /\ phi).
Proof using Hi. apply stable_and; [by apply stable_from|apply stable_pure]. Qed.

#[local] Instance learns_logic : AnswerLogic learns.
Proof using Hi.
  split; unfold learns.
  - intros A a P HP. apply triple_ret; [apply still_from|by split].
  - intros A B p k R P Hp Hk. eapply triple_bind; [apply session_rely|exact Hp|]. intros b s [Hs Hb] Hinv. by apply (Hk b Hb).
  - intros A S0 body I size P s Hs Hbody.
    eapply triple_conseq; [apply (triple_iter _ _ _ _ (session_rely at_ring 0 final i) body (fun s0 s => from g0 s /\ I s0) (fun a s => from g0 s /\ P a))| |done].
    + intros s0. apply still_from.
    + intros a. apply still_from.
    + intros s0 s1 [Hs1 Hi0] Hinv.
      assert (Ht : tr i (from g0) (body s0) (fun r s => match r with inl s' => from g0 s /\ I s' | inr a => from g0 s /\ P a end)).
      { eapply triple_conseq; [by apply Hbody|done|]. by intros [s'|a] s2 [H2 Hr] _; destruct_and?. }
      by apply Ht.
    + by intros s1 Hs1 _.
Qed.

(** Inserted, and not yet overwritten at the count of [g0]. *)
Definition kept_since (x : T) : Prop := exists j, 0 <= j /\ done_at g0 - N <= j /\ ds !! Z.to_nat j = Some x.

Lemma learns_try_get r : 0 <= r -> learns _ (TimeSeries.try_get N r) (opt_good kept_since).
Proof using HR Hi Hlen.
  intros Hr. eapply triple_conseq; [by apply (tr_try_get N ds Hlen i Hi g0 r)|done|]. intros o s [Hs Ho] _. split; [done|].
  intros x ->. destruct Ho as (HrN & g & Hg & _ & j & Hj & Hjr & Hx). exists j. pose proof (done_at_mono g0 g ltac:(lia)).
  split; [done|]. split; [lia|done].
Qed.

Lemma learns_available : learns _ (CyclicBufferReader.available N) (fun a => 0 <= a <= N).
Proof using HR Hi Hlen.
  unfold CyclicBufferReader.available, CyclicBufferReader.total_writes_ref. apply (tr_counted N ds Hlen i Hi). intros g Hlo Hg.
  pose proof (capacity_pos (T:=T) (N:=N)). pose proof (done_at_bounds ds Hlen g Hg).
  apply triple_ret; [apply still_from|]. unfold from. intros s Hs. split; [lia|]. lia.
Qed.

Lemma learns_view : live_view (T:=T) N kept_since learns.
Proof using HR Hi Hlen.
  split; [|apply learns_available|apply learns_try_get].
  destruct (capacity_pow2 (T:=T) (N:=N)) as (k & Hk & E). split; [apply (capacity_pos (T:=T))|]. rewrite E. apply Z.pow_lt_mono_r; lia.
Qed.

(** The latest, if fresh, is as new as the count. *)
Lemma tr_get_latest_if_fresh min_key :
  tr i (from g0) (TimeSeries.get_latest_if_fresh N min_key)
    (fun o s => from g0 s /\ match o with
                             | Some x => min_key <= extractor x /\ exists j, 0 <= j /\ done_at g0 - 1 <= j /\ ds !! Z.to_nat j = Some x
                             | None => True
                             end).
Proof using HR Hi Hlen.
  unfold TimeSeries.get_latest_if_fresh. eapply triple_bind; [apply session_rely|apply learns_available|].
  intros avail. eapply triple_conseq with (P' := from g0); [|by intros s [Hs _] _|by intros o s Hs _; exact Hs].
  destruct (avail =? 0); [apply triple_ret; [apply still_from|by split]|].
  eapply triple_bind; [apply session_rely|by apply (tr_try_get N ds Hlen i Hi g0 0)|]. intros o.
  apply triple_ret; [apply still_from|]. intros s [Hs Ho]. split; [done|]. destruct o as [x|]; [|done].
  destruct (Z.geb_spec (extractor x) min_key); [|done]. split; [lia|]. destruct Ho as (_ & g & Hg & _ & j & Hj & Hjr & Hx).
  exists j. pose proof (done_at_mono g0 g ltac:(lia)). split; [done|]. split; [lia|done].
Qed.

Lemma kept_since_fresh x : kept_since x -> fresh_at (done_at g0 - (N - 1)) x = true.
Proof using Hfresh. clear Hi. intros (j & Hj & Hjr & Hx). apply (Hfresh _ j); [done|lia|done]. Qed.
End Reader.

Lemma tr_check_series i calls :
  i <> 0%nat -> tr i (from 0) (check_series calls) (fun _ _ => True).
Proof using HR Hlen Hfresh.
  intros Hi. pose proof (fun g => learns_logic i Hi g) as Hlogic. pose proof (fun g => learns_view i Hi g) as Hview.
  induction calls as [|call calls IH]; [by apply triple_ret; [apply stable_pure|]|].
  destruct call as [target md|target|min_key]; cbn [check_series]; apply (tr_counted N ds Hlen i Hi); intros g0 _ Hg0.
  - eapply triple_bind; [apply session_rely|apply (live_find_closest N _ (learns i g0) (Hview g0))|]. intros o.
    apply (tr_check N ds i Hi); [|done]. intros s [_ Ho] _. destruct o as [x|]; [|done]. by apply kept_since_fresh, Ho.
  - eapply triple_bind; [apply session_rely|apply (live_find_interpolation_pair N _ (learns i g0) (Hview g0))|]. intros o.
    apply (tr_check N ds i Hi); [|done]. intros s [_ Ho] _. destruct o as [p|]; [|done]. destruct (Ho p eq_refl) as [Hb Ha].
    by rewrite !kept_since_fresh.
  - eapply triple_bind; [apply session_rely|by apply tr_get_latest_if_fresh|]. intros o.
    apply (tr_check N ds i Hi); [|done]. intros s [_ Ho] _. destruct o as [x|]; [|done]. destruct Ho as (Hk & j & Hj & Hjr & Hx).
    rewrite (Hfresh _ j x) by done. by apply Z.leb_le.
Qed.
End SeriesProcesses.

Section SeriesPool.
Context {T : Set} `{HT : FlatType T} `{HK : !KeyExtractor T} {N : Z} {HR : RingConfig T N} `{FutexKernel} (fresh_at : Z -> T -> bool).
Context (ds : list T) (readers : list (list series_call)) (Hlen : Z.of_nat (length ds) < 2 ^ 30).
Context (Hfresh : forall c j x, 0 <= j -> c - 1 <= j -> ds !! Z.to_nat j = Some x -> fresh_at c x = true).
Abbreviation start := (fresh (CyclicRegion.total_size T N)).

Lemma series_pool_safe m us :
  reachable (start, Running <$> series_processes N fresh_at ds readers) (m, us) ->
  (forall i p, us !! i = Some (Running p) -> local_step p m <> Trapped) /\
  (forall p, us !! 0%nat = Some (Running p) -> local_step p m = Finished -> ring_log (N:=N) ds m).
Proof using HR Hlen Hfresh.
  intros Hr. set (final := 3 * Z.of_nat (length ds)). set (at_ring := ring_at (N:=N) (session_elem ds) (session_init (T:=T))).
  apply (session_pool_sound at_ring 0 final (fun _ => (0, 0)) 0%nat (inserts N ds) (check_series N fresh_at <$> readers) start m us);
    [lia|apply ring_fresh|apply never_waits_inserts|apply wp_ring_session| |exact Hr].
  intros i p Hp. apply list_lookup_fmap_Some in Hp as (calls & -> & _). by apply (tr_check_series N fresh_at ds Hlen Hfresh (S i)).
Qed.

(** C4: On a machine with store buffers emptied in order, a time series is
    looked up correctly by any number of processes while another inserts:
    whatever readers call total_writes and then find_closest,
    find_interpolation_pair or get_latest_if_fresh, however the buffers are
    emptied in between, every element they get is a whole element that was
    inserted and was among the newest N of the count they had seen before, or
    came later; what get_latest_if_fresh answers is no older than the newest
    of that count and its key reaches min_key; no process accesses memory out
    of bounds; and when the writer is through and its buffer empty the ring
    holds exactly the list inserted. *)
Theorem series_on_x86 m (ts : list (thread * list pending)) :
  sb_reachable first_only (start, idle <$> series_processes N fresh_at ds readers) (m, ts) ->
  (forall i p buf, ts !! i = Some (Running p, buf) -> local_step p (drain m buf) <> Trapped) /\
  (forall p, ts !! 0%nat = Some (Running p, []) -> local_step p m = Finished -> ring_log (N:=N) ds m).
Proof using HR Hlen Hfresh.
  intros Hts. pose proof (reads_only_series_readers N fresh_at readers) as Hq. split.
  - apply (sb_not_trapped _ start m ts (one_writer_robust _ _ _ Hq) Hts).
    intros m' us i p Hr. by apply series_pool_safe.
  - intros p Hp. destruct (sb_thread_state _ start m ts (one_writer_robust _ _ _ Hq) Hts 0%nat _ [] Hp) as (us & Hr & Hu).
    by apply (proj2 (series_pool_safe m us Hr)).
Qed.
End SeriesPool.

Module SeriesProcessesWitness.
Abbreviation sample := (Stamped uint64).
#[local] Instance config : RingConfig sample 2.
Proof. split; reflexivity. Qed.

Definition at_key (k : Z) : sample := MkStamped (to_uint 8 k) (to_uint 8 0) (to_uint 8 (k * k)).
Definition ds : list sample := at_key <$> [1000; 2000; 3000].

(** The [j]-th element has the key [1000 (j + 1)] and its square. *)
Definition is_element (c : Z) (x : sample) (j : Z) : bool :=
  (c - 1 <=? j) && (uint_val (timestamp_ns x) =? 1000 * (j + 1)) && (uint_val (data x) =? (1000 * (j + 1)) ^ 2).
Definition fresh_at (c : Z) (x : sample) : bool := existsb (is_element c x) [0; 1; 2].

Definition readers : list (list series_call) :=
  [[CallFindClosest 1400 None; CallFindPair 2500; CallLatestIfFresh 1500]].
Definition start : mem * list (thread * list pending) :=
  (fresh (CyclicRegion.total_size sample 2), idle <$> series_processes 2 fresh_at ds readers).

(** The reader starts when two elements are in and the third is half way out
    of the writer's buffer. *)
Definition sched : list sb_move :=
  acts 0 29 ++ leaves 0 27 ++ acts 0 30 ++ leaves 0 27 ++ acts 0 5 ++ acts 1 60 ++ leaves 0 2 ++ acts 0 25 ++ acts 1 40 ++
  leaves 0 25 ++ acts 0 1 ++ acts 1 76.
Definition stop : mem * list (thread * list pending) := sb_run_to first_only sched start.

Lemma series_stop_reached : sb_reachable first_only start stop.
Proof. apply sb_run_to_reachable. vm_compute. reflexivity. Qed.

Lemma series_elements_fresh c j x : 0 <= j -> c - 1 <= j -> ds !! Z.to_nat j = Some x -> fresh_at c x = true.
Proof.
  intros H0 Hj Hx. assert (Hj2 : j <= 2) by (apply lookup_lt_Some in Hx; change (length ds) with 3%nat in Hx; lia).
  apply existsb_exists. exists j. split; [simpl; lia|]. unfold is_element. rewrite (proj2 (Z.leb_le (c - 1) j)) by done.
  assert (Hcases : j = 0 \/ j = 1 \/ j = 2) by lia. destruct Hcases as [->|[->| ->]]; by injection Hx as <-.
Qed.

Lemma series_on_x86_witness :
  sb_finished stop 0 = true /\ sb_finished stop 1 = true /\ sb_trapped stop 1 = false /\ ring_log (N:=2) ds stop.1.
Proof.
  assert (Hf : sb_finished stop 0 = true) by (vm_compute; reflexivity).
  split; [exact Hf|]. split; [vm_compute; reflexivity|].
  destruct (series_on_x86 fresh_at ds readers ltac:(vm_compute; reflexivity) series_elements_fresh
              stop.1 stop.2 series_stop_reached) as [Hsafe Hlast].
  split; [by apply sb_not_trapped_false|]. apply sb_finished_running in Hf as (p & Hp & Hf). exact (Hlast p Hp Hf).
Defined.
End SeriesProcessesWitness.
