(* ===== verification/Examples.v ===== *)
(** * The example programs

    [seqlock_example.cpp] and [cyclic_buffer_example.cpp]: the structs they
    publish, their writer and reader loops, and what the readers print.  The
    console, the sleeps and the names of the segments are left out. *)
From Stdlib Require Import String SpecFloat.
From stdpp Require Import relations.
From S2P Require Import Prelude Memory Prog Equiv History Reads FlatType SeqCount Seqlock CyclicBuffer CyclicRing CyclicReaders CyclicConcurrent Stamped SanitizedKey Float TimeSeries TimeSeriesFacts TimeSeriesRing RingLog Pool RelyGuarantee StoreBuffer Session Processes.

(** ** The structs *)
Record SensorData : Set := MkSensorData {
  temperature : uint64;
  pressure : uint64;
  humidity : uint64;
  timestamp_ms : uint64
}.

#[export] Instance sensor_data_eq_dec : EqDecision SensorData.
Proof. solve_decision. Defined.

#[export] Program Instance sensor_data_flat : FlatType SensorData := {|
  sizeof := 32;
  align_log := 3;
  to_bytes s := words_bytes 8 [uint_val (temperature s); uint_val (pressure s); uint_val (humidity s); uint_val (timestamp_ms s)];
  of_bytes bs := MkSensorData (word_at 8 0 bs) (word_at 8 1 bs) (word_at 8 2 bs) (word_at 8 3 bs);
  value_init := MkSensorData (to_uint 8 0) (to_uint 8 0) (to_uint 8 0) (to_uint 8 0)
|}.
Next Obligation. intros s. apply length_words_bytes. Qed.
Next Obligation. intros []. f_equal; by apply word_at_bytes. Qed.
Next Obligation. lia. Qed.
Next Obligation. lia. Qed.
Next Obligation. lia. Qed.
Next Obligation. reflexivity. Qed.

Record IMUReading : Set := MkIMUReading {
  accel_x : uint32; accel_y : uint32; accel_z : uint32;
  gyro_x : uint32; gyro_y : uint32; gyro_z : uint32
}.

#[export] Program Instance imu_reading_flat : FlatType IMUReading := {|
  sizeof := 24;
  align_log := 2;
  to_bytes s := words_bytes 4 [uint_val (accel_x s); uint_val (accel_y s); uint_val (accel_z s);
                               uint_val (gyro_x s); uint_val (gyro_y s); uint_val (gyro_z s)];
  of_bytes bs := MkIMUReading (word_at 4 0 bs) (word_at 4 1 bs) (word_at 4 2 bs) (word_at 4 3 bs) (word_at 4 4 bs) (word_at 4 5 bs);
  value_init := MkIMUReading (to_uint 4 0) (to_uint 4 0) (to_uint 4 0) (to_uint 4 0) (to_uint 4 0) (to_uint 4 0)
|}.
Next Obligation. intros s. apply length_words_bytes. Qed.
Next Obligation. intros []. f_equal; by apply word_at_bytes. Qed.
Next Obligation. lia. Qed.
Next Obligation. lia. Qed.
Next Obligation. lia. Qed.
Next Obligation. reflexivity. Qed.

(** ** seqlock_example.cpp *)
Module SeqlockExample.
(** What iteration [i] of the writer publishes. *)
Definition reading (i : Z) : SensorData := {|
  temperature := f64_bits (f64_add (f64_lit 20 1) (f64_mul (f64_of_uint i) (f64_lit 1 10)));
  pressure := f64_bits (f64_lit 101325 100);
  humidity := f64_bits (f64_add (f64_lit 45 1) (f64_of_uint (i mod 10)));
  timestamp_ms := to_uint 8 (u64 i * 100)
|}.

Definition writer_main : prog unit :=
  Iter (fun i =>
    if i <? 100 then SeqlockWriter.store (reading i) ;;; Ret (inl (i + 1))
    else Ret (inr tt)) 0.

(** The lines the reader prints. *)
Inductive line : Set := Read (d : SensorData) | Blocking (d : option SensorData).

Definition reader_main : prog (list line) :=
  Iter (fun '(i, last_seq, printed) =>
    if i <? 50 then
      data <- SeqlockReader.load SensorData ;;
      result <- SeqlockReader.load_blocking SensorData last_seq (Some 500000000) ;;
      Ret (inl (i + 1, snd result, printed ++ [Read data; Blocking (fst result)]))
    else Ret (inr printed)) (0, 0, []).

(** [main]'s exit code and, for a reader, its lines. *)
Definition main (argv : list string) : prog (Z * list line) :=
  match argv with
  | _ :: cmd :: _ =>
      if (cmd =? "writer")%string then writer_main ;;; Ret (0, [])
      else if (cmd =? "reader")%string then printed <- reader_main ;; Ret (0, printed)
      else Ret (0, [])
  | _ => Ret (1, [])
  end.
End SeqlockExample.
Import SeqlockExample.

(** *** The writer's loop is a session *)
Definition readings (i : Z) (n : nat) : list SensorData := (fun k => reading (i + Z.of_nat k)) <$> seq 0 n.

Lemma readings_cons i n : readings i (S n) = reading i :: readings (i + 1) n.
Proof.
  unfold readings. cbn [seq fmap list_fmap]. rewrite Z.add_0_r. f_equal. rewrite <- fmap_S_seq, <- list_fmap_compose.
  apply list_fmap_ext. intros _ k _. cbn. f_equal. lia.
Qed.

Abbreviation writer_body := (fun i : Z =>
  if i <? 100 then SeqlockWriter.store (reading i) ;;; Ret (inl (i + 1)) else Ret (inr tt)).

Section WriterLoop.
Context (val : Z -> list Z).
Abbreviation at_version := (fun v m =>
  slot_at 0 (SeqlockRegion.data_offset SensorData) (sizeof SensorData) val v m /\ region_ok (T:=SensorData) m).

Lemma wp_writer_loop rc n : forall i t m v Q,
  i + Z.of_nat n = 100 -> at_version v m -> v mod 2 = 0 ->
  (forall k d, readings i n !! k = Some d -> val (v / 2 + 1 + Z.of_nat k) = to_bytes d) ->
  (forall t' m' l, versioned at_version v l (v + 2 * Z.of_nat n) -> at_version (v + 2 * Z.of_nat n) m' -> Q tt t' m' l) ->
  wp (quiet rc) (Iter writer_body i) t m Q.
Proof using Type.
  induction n as [|n IH]; intros i t m v Q Hi [Hv Hm] Hev Hval HQ; apply wp_iter.
  - rewrite (proj2 (Z.ltb_ge i 100)) by lia. apply wp_ret. apply HQ; [|by rewrite Z.add_0_r].
    apply versioned_cons with v; [lia|by split|]. constructor. lia.
  - rewrite (proj2 (Z.ltb_lt i 100)) by lia. apply wp_bind.
    eapply (wp_store val); [exact Hm|exact Hv|exact Hev| |].
    { rewrite <- (Hval 0%nat (reading i)); [f_equal; lia|by rewrite readings_cons]. }
    intros t1 m1 l1 Hl1 Hm1. apply wp_ret. cbn [quiet interfere] in *. apply (IH (i + 1) _ _ (v + 2)); [lia|exact Hm1| | |].
    + by rewrite <- Z.add_mod_idemp_r, Z.add_0_r by lia.
    + intros k d Hk. rewrite <- (Hval (S k) d) by by rewrite readings_cons. f_equal.
      replace (v + 2) with (v + 1 * 2) by lia. rewrite Z.div_add by lia. lia.
    + intros t' m' l Hl Hm'. replace (v + 2 + 2 * Z.of_nat n) with (v + 2 * Z.of_nat (S n)) in Hl, Hm' by lia.
      apply HQ; [|done]. apply versioned_cons with v; [lia|by split|].
      rewrite app_nil_r. by apply versioned_app with (v + 2).
Qed.
End WriterLoop.

Lemma never_waits_writer_main : never_waits writer_main.
Proof.
  intros i. destruct (i <? 100); [|exact I]. split; [|intros _; exact I].
  exact (proj1 (never_waits_stores (T:=SensorData) [reading i])).
Qed.

(** *** What a reader prints *)
Definition shown (printed : list line) : list SensorData :=
  concat (map (fun l => match l with Read d => [d] | Blocking (Some d) => [d] | Blocking None => [] end) printed).

(** The values there can be, the first being what the segment held. *)
Definition published : list SensorData := value_init :: readings 0 100.

(** Values of the list, in its order, repetitions and gaps allowed. *)
Inductive in_turn {A : Type} (l : list A) : nat -> list A -> nat -> Prop :=
| in_turn_nil a : in_turn l a [] a
| in_turn_snoc a xs b c x : in_turn l a xs b -> (b <= c)%nat -> l !! c = Some x -> in_turn l a (xs ++ [x]) c.

Fixpoint ascending (l : list Z) : bool :=
  match l with
  | x :: (y :: _) as l' => (x <=? y) && ascending l'
  | _ => true
  end.

(** Every value printed is one of those, and timestamps never go back. *)
Definition printed_ok (printed : list line) : bool :=
  forallb (fun d => bool_decide (d ∈ published)) (shown printed) &&
  ascending ((fun d => uint_val (timestamp_ms d)) <$> shown printed).

Lemma ascending_snoc l x : ascending l = true -> Forall (fun y => y <= x) l -> ascending (l ++ [x]) = true.
Proof.
  induction l as [|y l IH]; intros Ha Hf; [done|]. inversion Hf as [|? ? Hy Hl]; subst. destruct l as [|z l].
  - cbn. by rewrite (proj2 (Z.leb_le y x)) by lia.
  - cbn [ascending] in Ha. apply andb_prop in Ha as [Hyz Ha]. specialize (IH Ha Hl).
    cbn [app ascending] in IH |- *. by rewrite Hyz, IH.
Qed.

Lemma ascending_lookup l i j x y :
  ascending l = true -> (i <= j)%nat -> l !! i = Some x -> l !! j = Some y -> x <= y.
Proof.
  intros Ha Hij Hx Hy. revert i j x Ha Hij Hx Hy. induction l as [|z l IH]; intros i j x Ha Hij Hx Hy; [done|].
  assert (Hl : ascending l = true) by (destruct l; [done|]; cbn [ascending] in Ha; by apply andb_prop in Ha as [_ ?]).
  destruct j as [|j]; [replace i with 0%nat in Hx by lia; rewrite Hx in Hy; by injection Hy as ->|].
  destruct i as [|i]; [|by apply (IH i j); [done|lia|..]].
  injection Hx as ->. destruct l as [|w l]; [done|]. cbn [ascending] in Ha. apply andb_prop in Ha as [Hxw _]. zbool.
  etrans; [exact Hxw|]. by apply (IH 0%nat j); [done|lia|..].
Qed.

Lemma published_ascending : ascending ((fun d => uint_val (timestamp_ms d)) <$> published) = true.
Proof. vm_compute. reflexivity. Qed.

Lemma in_turn_printed xs b :
  in_turn published 0 xs b ->
  forallb (fun d => bool_decide (d ∈ published)) xs = true /\
  ascending ((fun d => uint_val (timestamp_ms d)) <$> xs) = true /\
  Forall (fun d => exists k, (k <= b)%nat /\ published !! k = Some d) xs.
Proof.
  remember published as l eqn:El. induction 1 as [a|a xs b c x Hin IH Hbc Hx]; [done|].
  destruct IH as (Hall & Hasc & Hk). split; [|split].
  - rewrite forallb_app, Hall. cbn. rewrite bool_decide_eq_true_2; [done|]. by eapply list_elem_of_lookup_2.
  - rewrite fmap_app. apply ascending_snoc; [done|]. apply Forall_fmap. eapply List.Forall_impl; [|exact Hk].
    intros d (k & Hkb & Hd). cbn. subst l. eapply (ascending_lookup _ k c); [apply published_ascending|lia| |].
    + by rewrite list_lookup_fmap, Hd.
    + by rewrite list_lookup_fmap, Hx.
  - apply Forall_app. split; [|by constructor; [exists c|]]. eapply List.Forall_impl; [|exact Hk].
    intros d (k & Hkb & Hd). exists k. split; [lia|done].
Qed.

Lemma in_turn_ok printed b : in_turn published 0 (shown printed) b -> printed_ok printed = true.
Proof. intros Hin. apply in_turn_printed in Hin as (Hall & Hasc & _). unfold printed_ok. by rewrite Hall, Hasc. Qed.

Lemma shown_two printed d o :
  shown (printed ++ [Read d; Blocking o]) = shown printed ++ [d] ++ match o with Some d => [d] | None => [] end.
Proof. unfold shown. rewrite map_app, concat_app. cbn. by rewrite app_nil_r. Qed.

(** *** The processes *)
Definition reader_process : prog unit := printed <- reader_main ;; assert (printed_ok printed).

Definition seqlock_example (readers : nat) : list (prog unit) := writer_main :: replicate readers reader_process.

Lemma reads_only_readers n : Forall reads_only (replicate n reader_process).
Proof.
  apply Forall_replicate. split; [|intros; apply reads_only_assert]. intros [[i last] printed].
  destruct (i <? 50); [|exact I]. split; [apply reads_only_load|]. intros data.
  split; [apply reads_only_load_blocking|]. intros result. exact I.
Qed.

Abbreviation example_values := (session_val 0 value_init (readings 0 100)).
Abbreviation example_at := (fun v m =>
  slot_at 0 (SeqlockRegion.data_offset SensorData) (sizeof SensorData) example_values v m /\ region_ok (T:=SensorData) m).
Abbreviation example_end := (0 + 2 * Z.of_nat (length (readings 0 100))).

Section ReaderMain.
Context (i : nat) (Hi : i <> 0%nat).
Abbreviation tr := (triple (inv example_at 0 example_end) (rely example_at 0 example_end i) (guar example_at 0 example_end i) anywhere).

(** So far the values printed are those of the session up to the [b]-th. *)
Definition printing (st : Z * Z * list line) (s : Z * mem) : Prop :=
  exists b : nat, 2 * Z.of_nat b <= s.1 /\ in_turn published 0 (shown st.2) b.

Lemma printing_stable st : stable (inv example_at 0 example_end) (rely example_at 0 example_end i) (printing st).
Proof using Hi.
  apply (stable_mono example_at 0 example_end i Hi (fun v => exists b : nat, 2 * Z.of_nat b <= v /\ in_turn published 0 (shown st.2) b)).
  intros v w Hle (b & Hb & Ht). exists b. split; [lia|done].
Qed.

Definition after_round (r : (Z * Z * list line) + list line) (s : Z * mem) : Prop :=
  match r with inl st => printing st s | inr printed => printed_ok printed = true end.

Lemma tr_reader_main : tr (from 0) reader_main (fun printed _ => printed_ok printed = true).
Proof using Hi.
  unfold reader_main.
  assert (Hc : 0 <= 0 /\ 0 mod 2 = 0) by done.
  assert (Hlen : Z.of_nat (length (readings 0 100)) < 2 ^ 31) by (unfold readings; rewrite length_fmap, length_seq; lia).
  eapply triple_conseq; [apply (triple_iter _ _ _ _ (session_rely example_at 0 example_end i) _ printing
      (fun printed _ => printed_ok printed = true) printing_stable)| |done].
  - intros a. apply stable_pure.
  - intros [[k last] printed]. destruct (k <? 50).
    2:{ apply triple_ret; [apply stable_pure|]. intros s (b & _ & Ht). by apply (in_turn_ok printed b). }
    apply triple_ex. intros b.
    apply (triple_conseq _ _ _ _ _ (fun s => in_turn published 0 (shown printed) b /\ from (2 * Z.of_nat b) s) _ _ after_round);
      [|by intros s [? ?]|done].
    apply triple_pure. intros Ht. eapply triple_bind; [apply session_rely| |].
    { apply (tr_seqlock_load value_init (readings 0 100) 0 Hc Hlen i Hi). lia. }
    intros data. apply triple_ex. intros a.
    apply (triple_conseq _ _ _ _ _ (fun s => in_turn published 0 (shown printed ++ [data]) a /\ from (2 * Z.of_nat a) s) _ _ after_round);
      [|intros s [Ha Hd] _; split; [eapply in_turn_snoc; [exact Ht|lia|exact Hd]|unfold from; lia]|done].
    apply triple_pure. intros Ht2. eapply triple_bind; [apply session_rely| |].
    { apply (tr_seqlock_load_blocking value_init (readings 0 100) 0 Hc Hlen i Hi). lia. }
    intros [o last']. apply triple_ret; [apply printing_stable|]. intros s [Hs Ho]. unfold after_round, printing. cbn [fst snd] in *.
    rewrite shown_two. destruct o as [d|].
    + destruct Ho as (e & He & Hd). exists e. split; [lia|]. rewrite app_assoc. eapply in_turn_snoc; [exact Ht2|lia|exact Hd].
    + exists a. split; [unfold from in Hs; lia|]. by rewrite app_nil_r.
  - intros s Hs _. exists 0%nat. split; [unfold from in Hs; lia|constructor].
Qed.
End ReaderMain.

Section SeqlockExampleRuns.
Context `{FutexKernel} (readers : nat).
Abbreviation segment := (fresh (SeqlockRegion.total_size SensorData)).

Lemma segment_holds : Forall byte_ok segment /\ holds (value_init : SensorData) segment /\ ld32 segment 0 = 0.
Proof using Type.
  split; [repeat constructor; vm_compute; congruence|]. split; [|reflexivity]. split; [|split]; vm_compute; reflexivity.
Qed.

Lemma wp_writer_main rc t :
  wp (quiet rc) writer_main t segment (fun _ _ m' l => versioned example_at 0 l example_end /\ example_at example_end m').
Proof using Type.
  destruct segment_holds as (Hb & Hd & Hc). destruct (session_start segment value_init (readings 0 100) Hb Hd) as [_ Hat].
  rewrite Hc in Hat. apply (wp_writer_loop example_values rc 100 0 t segment 0); [lia|split; [done|apply Hd]|done| |].
  - intros k d Hk. exact (session_val_stored 0 value_init (readings 0 100) k d Hk).
  - intros t' m' l Hl Hm'. by split.
Qed.

Lemma seqlock_example_safe m us :
  reachable (segment, Running <$> seqlock_example readers) (m, us) ->
  (forall i p, us !! i = Some (Running p) -> local_step p m <> Trapped) /\
  (forall p, us !! 0%nat = Some (Running p) -> local_step p m = Finished -> example_at example_end m).
Proof using Type.
  apply (session_pool_sound example_at 0 example_end (fun _ => (0, 0)) 0%nat writer_main (replicate readers reader_process)).
  - lia.
  - destruct segment_holds as (Hb & Hd & Hc). split; [|apply Hd].
    destruct (session_start segment value_init (readings 0 100) Hb Hd) as [_ Hat]. by rewrite Hc in Hat.
  - apply never_waits_writer_main.
  - apply wp_writer_main.
  - intros i p Hp. apply lookup_replicate in Hp as [-> _]. unfold reader_process.
    eapply triple_bind; [apply session_rely|by apply tr_reader_main|]. intros printed s Hok. rewrite Hok. revert s Hok.
    apply triple_ret; [apply stable_pure|done].
Qed.

(** C35: The seqlock example: whatever the interleaving of its writer with any
    number of its readers on a machine with x86's store buffers, every reading
    a reader prints, from load or from load_blocking, is whole - one of the
    hundred the writer publishes or the zeroes the segment began with - and
    the timestamps it prints never go back; when the writer is through, the
    segment holds its hundredth reading. *)
Theorem seqlock_example_prints m (ts : list (thread * list pending)) :
  sb_reachable first_only (segment, idle <$> seqlock_example readers) (m, ts) ->
  (forall i p buf, ts !! i = Some (Running p, buf) -> local_step p (drain m buf) <> Trapped) /\
  (forall p, ts !! 0%nat = Some (Running p, []) -> local_step p m = Finished -> holds (reading 99) m).
Proof using Type.
  intros Hts. pose proof (reads_only_readers readers) as Hq. split.
  - apply (sb_not_trapped _ segment m ts (one_writer_robust _ _ _ Hq) Hts).
    intros m' us i p Hr. by apply seqlock_example_safe.
  - intros p Hp Hf. destruct (sb_thread_state _ segment m ts (one_writer_robust _ _ _ Hq) Hts 0%nat _ [] Hp) as (us & Hr & Hu).
    destruct (proj2 (seqlock_example_safe m us Hr) p Hu Hf) as [Hs Hm].
    apply (slot_at_holds example_values example_end); [done|done|reflexivity|].
    rewrite session_val_last. reflexivity.
Qed.
End SeqlockExampleRuns.

(** The whole example with one reader: two stores between any two rounds of
    the reader. *)
Module SeqlockExampleWitness.
Definition start : mem * list (thread * list pending) :=
  (fresh (SeqlockRegion.total_size SensorData), idle <$> seqlock_example 1).
Definition store_one : list sb_move := acts 0 36 ++ leaves 0 34 ++ acts 0 1.
Definition reader_round : list sb_move := acts 1 71.
Definition sched : list sb_move :=
  store_one ++ concat (repeat (reader_round ++ store_one ++ store_one) 49) ++ reader_round ++ store_one ++
  acts 1 1 ++ acts 0 1.
Definition stop : mem * list (thread * list pending) := sb_run_to first_only sched start.

Lemma example_stop_reached : sb_reachable first_only start stop.
Proof. apply sb_run_to_reachable. vm_compute. reflexivity. Qed.

Lemma seqlock_example_prints_witness :
  sb_finished stop 0 = true /\ sb_finished stop 1 = true /\ sb_trapped stop 1 = false /\ holds (reading 99) stop.1.
Proof.
  assert (Hf : sb_finished stop 0 = true) by (vm_compute; reflexivity).
  split; [exact Hf|]. split; [vm_compute; reflexivity|].
  destruct (seqlock_example_prints 1 stop.1 stop.2 example_stop_reached) as [Hsafe Hlast].
  split; [by apply sb_not_trapped_false|]. apply sb_finished_running in Hf as (p & Hp & Hf). exact (Hlast p Hp Hf).
Defined.
End SeqlockExampleWitness.

(** ** cyclic_buffer_example.cpp *)
Module CyclicExample.
Abbreviation StampedIMU := (Stamped IMUReading).
Definition BUFFER_SIZE : Z := 64.

(** What iteration [seq] measures. *)
Definition imu (seq : Z) : IMUReading := {|
  accel_x := f32_bits (f32_mul (f32_lit 1 100) (f32_of_uint seq));
  accel_y := f32_bits (f32_of_uint 0);
  accel_z := f32_bits (SFopp (f32_lit 981 100));
  gyro_x := f32_bits (f32_of_uint 0);
  gyro_y := f32_bits (f32_of_uint 0);
  gyro_z := f32_bits (f32_mul (f32_lit 1 1000) (f32_of_uint seq))
|}.

#[export] Instance stamped_imu_flat : FlatType StampedIMU := stamped_flat IMUReading (TCEq_refl _).
#[export] Instance imu_ring : RingConfig StampedIMU BUFFER_SIZE.
Proof. split; reflexivity. Qed.

Section Main.
Context (clock : Z -> timespec)   (* what [clock_gettime] answers in iteration [seq] *)
        (now : timespec).         (* and to the reader *)

Definition stamped (seq : Z) : StampedIMU := stamp (clock seq) (imu seq) (to_uint 8 seq).

(** Answers [total_writes()], which it prints last. *)
Definition writer_main : prog Z :=
  Iter (fun seq =>
    if seq <? 200 then CyclicBufferWriter.insert BUFFER_SIZE (stamped seq) ;;; Ret (inl (u64 (seq + 1)))
    else Ret (inr tt)) 0 ;;;
  CyclicBufferWriter.total_writes.

Record report : Set := Report {
  available : Z;
  latest : StampedIMU;
  is_fresh : bool;
  closest_to : option (uint64 * Z);                       (* sequence, distance *)
  interpolated : option (uint64 * uint64 * spec_float)    (* before, after, alpha *)
}.

Definition reader_main : prog report :=
  a <- TimeSeries.available BUFFER_SIZE ;;
  latest <- TimeSeries.get_latest (T:=StampedIMU) BUFFER_SIZE ;;
  let now := monotonic_now_ns now in
  fresh <- TimeSeries.get_latest_if_fresh (T:=StampedIMU) BUFFER_SIZE (u64 (now - 1000000000)) ;;
  let target_ts := u64 (uint_val (timestamp_ns latest) - 100000000) in
  closest <- TimeSeries.find_closest (T:=StampedIMU) BUFFER_SIZE target_ts None ;;
  interp <- TimeSeries.find_interpolation_pair (T:=StampedIMU) BUFFER_SIZE target_ts ;;
  Ret (Report a latest (match fresh with Some _ => true | None => false end)
    (match closest with
     | Some c => let ts := uint_val (timestamp_ns c) in
                 Some (sequence c, if ts >? target_ts then u64 (ts - target_ts) else u64 (target_ts - ts))
     | None => None
     end)
    (match interp with
     | Some p => Some (sequence (before p), sequence (after p), alpha p)
     | None => None
     end)).

(** [main]'s exit code, and what the writer or the reader prints. *)
Definition main (argv : list string) : prog (Z * option Z * option report) :=
  match argv with
  | _ :: cmd :: _ =>
      if (cmd =? "writer")%string then writes <- writer_main ;; Ret (0, Some writes, None)
      else if (cmd =? "reader")%string then r <- reader_main ;; Ret (0, None, Some r)
      else Ret (0, None, None)
  | _ => Ret (1, None, None)
  end.
End Main.
End CyclicExample.
Import CyclicExample.

(** *** What the reader reports once the writer is through *)
Section CyclicExampleRuns.
Context (clock : Z -> timespec) (now : timespec).
Abbreviation ns := (fun k => monotonic_now_ns (clock k)).
Abbreviation target := (u64 (ns 199 - 100000000)).

(** Of the readings in the buffer, numbers 136 to 199. *)
Definition report_ok (r : report) : Prop :=
  available r = 64 /\ latest r = stamped clock 199 /\
  is_fresh r = (ns 199 >=? u64 (monotonic_now_ns now - 1000000000)) /\
  (exists k, 136 <= k < 200 /\ closest_to r = Some (to_uint 8 k, Z.abs (ns k - target)) /\
     forall j, 136 <= j < 200 -> Z.abs (ns k - target) <= Z.abs (ns j - target)) /\
  match interpolated r with
  | Some (b, a, factor) => exists i j,
      136 <= i < 200 /\ 136 <= j < 200 /\ b = to_uint 8 i /\ a = to_uint 8 j /\
      ns i <= target <= ns j /\ (forall k, 136 <= k < 200 -> ns k <= ns i \/ ns j <= ns k) /\
      unit_interval factor
  | None => target < ns 136 \/ ns 199 < target
  end.

Definition imus (n : nat) : list (Stamped IMUReading) := (fun k => stamped clock (Z.of_nat k)) <$> seq 0 n.

Lemma length_imus n : length (imus n) = n.
Proof using Type. unfold imus. by rewrite length_fmap, length_seq. Qed.

Lemma imus_lookup n k x : imus n !! k = Some x <-> (k < n)%nat /\ x = stamped clock (Z.of_nat k).
Proof using Type.
  unfold imus. rewrite list_lookup_fmap_Some. split.
  - intros (j & -> & Hj). apply lookup_seq in Hj as [-> ?]. by split.
  - intros [Hk ->]. exists k. split; [done|]. by apply lookup_seq.
Qed.

Lemma stamped_key k : extractor (stamped clock k) = ns k.
Proof using Type.
  change (uint_val (to_uint 8 (ns k)) = ns k). rewrite uint_val_to_uint. change (8 * Z.of_nat 8) with 64.
  apply u64_small, u64_range.
Qed.

Lemma in_buffer x : x ∈ kept BUFFER_SIZE (imus 200) <-> exists k, 136 <= k < 200 /\ x = stamped clock k.
Proof using Type.
  rewrite list_elem_of_lookup. split.
  - intros [r Hr]. apply kept_lookup in Hr as [Hr Hx]. rewrite length_imus in *. apply imus_lookup in Hx as [Hlt ->].
    unfold BUFFER_SIZE in Hr. eexists. split; [|done]. lia.
  - intros (k & Hk & ->). exists (199 - Z.to_nat k)%nat. apply kept_lookup. rewrite length_imus.
    split; [unfold BUFFER_SIZE; lia|]. apply imus_lookup. split; [lia|]. f_equal. lia.
Qed.

Lemma kept_newest : kept BUFFER_SIZE (imus 200) !! 0%nat = Some (stamped clock 199).
Proof using Type.
  apply kept_lookup. rewrite length_imus. split; [unfold BUFFER_SIZE; lia|]. apply imus_lookup. split; [lia|done].
Qed.

Abbreviation insert_body := (fun seq : Z =>
  if seq <? 200 then CyclicBufferWriter.insert BUFFER_SIZE (stamped clock seq) ;;; Ret (inl (u64 (seq + 1)))
  else Ret (inr tt)).

Lemma wp_insert_loop rc n : forall k t m Q,
  (k + n = 200)%nat -> ring_log (N:=BUFFER_SIZE) (imus k) m ->
  (forall t' m' l, ring_log (N:=BUFFER_SIZE) (imus 200) m' -> Q tt t' m' l) ->
  wp (quiet rc) (Iter insert_body (Z.of_nat k)) t m Q.
Proof using Type.
  induction n as [|n IH]; intros k t m Q Hk Hm HQ; apply wp_iter.
  - replace k with 200%nat in * by lia. apply wp_ret. by apply HQ.
  - rewrite (proj2 (Z.ltb_lt (Z.of_nat k) 200)) by lia. apply wp_bind. eapply wp_log_insert; [exact Hm|].
    intros t1 m1 l1 Hm1. apply wp_ret. rewrite u64_small by lia.
    replace (Z.of_nat k + 1) with (Z.of_nat (S k)) by lia. apply IH; [lia| |].
    + unfold imus. rewrite seq_S, fmap_app. exact Hm1.
    + intros t' m' l Hm'. by apply HQ.
Qed.

Lemma wp_cyclic_writer rc t Q :
  (forall t' m' l, ring_log (N:=BUFFER_SIZE) (imus 200) m' -> Q 200 t' m' l) ->
  wp (quiet rc) (CyclicExample.writer_main clock) t (fresh (CyclicRegion.total_size (Stamped IMUReading) BUFFER_SIZE)) Q.
Proof using Type.
  intros HQ. unfold CyclicExample.writer_main. apply wp_bind.
  apply (wp_insert_loop rc 200 0); [lia|apply ring_log_fresh|]. intros t1 m1 l1 Hm1.
  assert (Hlen : Z.of_nat (length (imus 200)) < 2 ^ 62) by (rewrite length_imus; lia).
  eapply wp_reads; [by apply (reads_log_total (imus 200) m1 Hm1 Hlen rc t1)|lia|].
  intros w t' l <-. rewrite length_imus. by apply HQ.
Qed.

Context (Hclock : forall j k, 0 <= j <= k -> k < 200 -> ns j <= ns k).

Lemma imus_ascend : keys_ascend (imus 200).
Proof using Hclock.
  intros i j x y Hij [Hi ->]%imus_lookup [Hj ->]%imus_lookup. rewrite !stamped_key. apply Hclock; lia.
Qed.

Lemma closest_reported (c : option (Stamped IMUReading)) :
  closest (kept BUFFER_SIZE (imus 200)) target None c ->
  exists k, 136 <= k < 200 /\ c = Some (stamped clock k) /\
    forall j, 136 <= j < 200 -> Z.abs (ns k - target) <= Z.abs (ns j - target).
Proof using Type.
  destruct c as [x|]; cbn [closest within].
  - intros ((k & Hk & ->)%in_buffer & _ & Hmin). exists k. split; [done|]. split; [done|]. intros j Hj.
    specialize (Hmin (stamped clock j)). unfold key_distance in Hmin. rewrite !stamped_key in Hmin.
    apply Hmin, in_buffer. by exists j.
  - intros Hno. destruct (Hno (stamped clock 199)); [|done]. apply in_buffer. exists 199. split; [lia|done].
Qed.

Lemma pair_reported (o : option (InterpPair (Stamped IMUReading))) :
  brackets (kept BUFFER_SIZE (imus 200)) target o ->
  match o with
  | Some p => exists i j,
      136 <= i < 200 /\ 136 <= j < 200 /\ before p = stamped clock i /\ after p = stamped clock j /\
      ns i <= target <= ns j /\ (forall k, 136 <= k < 200 -> ns k <= ns i \/ ns j <= ns k) /\ unit_interval (alpha p)
  | None => target < ns 136 \/ ns 199 < target
  end.
Proof using Type.
  assert (Hin : forall k, 136 <= k < 200 -> stamped clock k ∈ kept BUFFER_SIZE (imus 200)) by (intros; apply in_buffer; eauto).
  destruct o as [[b a f]|]; cbn [brackets before after alpha].
  - intros ((i & Hi & ->)%in_buffer & (j & Hj & ->)%in_buffer & Ht & Hnone & Hu & _). rewrite !stamped_key in *.
    exists i, j. repeat (split; [done|]). split; [|done]. intros k Hk. specialize (Hnone _ (Hin k Hk)).
    by rewrite stamped_key in Hnone.
  - intros [Hlen|[Hall|Hall]].
    + pose proof (length_kept BUFFER_SIZE (imus 200) ltac:(done)) as Hl. rewrite length_imus in Hl. unfold BUFFER_SIZE in *. lia.
    + left. rewrite <- (stamped_key 136). apply Hall, Hin. lia.
    + right. specialize (Hall _ (Hin 199 ltac:(lia))). by rewrite stamped_key in Hall.
Qed.

Lemma fresh_reported min_key :
  match match kept BUFFER_SIZE (imus 200) with
        | x :: _ => if extractor x >=? min_key then Some x else None
        | [] => None
        end with Some _ => true | None => false end = (ns 199 >=? min_key).
Proof using Type.
  assert (Hk : kept BUFFER_SIZE (imus 200) !! 0%nat = Some (stamped clock 199)) by apply kept_newest.
  destruct (kept _ _) as [|x l]; [done|]. injection Hk as ->. rewrite stamped_key. by destruct (_ >=? _).
Qed.

Lemma distance_reported k :
  let ts := uint_val (timestamp_ns (stamped clock k)) in
  (if ts >? target then u64 (ts - target) else u64 (target - ts)) = Z.abs (ns k - target).
Proof using Type.
  cbn zeta. change (uint_val (timestamp_ns (stamped clock k))) with (extractor (stamped clock k)). rewrite stamped_key.
  pose proof (u64_range (ns 199 - 100000000)). assert (0 <= ns k < 2 ^ 64) by apply u64_range.
  zcase; rewrite u64_small by lia; lia.
Qed.

(** C36: The cyclic buffer example: after its writer, which answers 200 total
    writes, the reader reports 64 available elements, reading 199 as the
    latest, fresh exactly by its timestamp, the reading of 136 to 199 whose
    timestamp is nearest to 100 ms before the latest with its distance, and
    two of these readings that bracket that time with nothing between them, as
    long as the writer's clock never goes back. *)
Theorem cyclic_example_reports rc t :
  wp (quiet rc) (writes <- CyclicExample.writer_main clock ;; r <- CyclicExample.reader_main now ;; Ret (writes, r)) t
     (fresh (CyclicRegion.total_size (Stamped IMUReading) BUFFER_SIZE))
     (fun '(writes, r) _ _ _ => writes = 200 /\ report_ok r).
Proof using Hclock.
  apply wp_bind, wp_cyclic_writer. intros t1 m1 l1 Hm.
  assert (Hlen : Z.of_nat (length (imus 200)) < 2 ^ 62) by (rewrite length_imus; lia).
  pose proof (log_view (imus 200) m1 Hm Hlen rc t1) as Hv.
  assert (Hrest : forall t m', (t1 <= t)%nat -> m1 = m' -> m1 = interfere (quiet rc) t m') by by intros ? ? _ <-.
  apply (wp_reads (quiet rc) t1 t1 m1 _ (fun ans => ans.1 = 200 /\ report_ok ans.2)); [|lia|by intros [writes r] t' l Ha].
  apply reads_bind with (R := report_ok); [|intros r Hr; by apply reads_ret].
  unfold CyclicExample.reader_main, TimeSeries.available, TimeSeries.get_latest.
  eapply reads_bind; [apply (view_available _ _ _ _ _ Hv)|]. intros a Ha.
  eapply reads_bind; [eapply reads_get_latest_kept; [done..|apply kept_newest]|]. intros x <-.
  eapply reads_bind; [by apply (reads_get_latest_if_fresh (T:=Stamped IMUReading) BUFFER_SIZE _ _ _ _ Hv)|]. intros f Hf.
  change (uint_val (timestamp_ns (stamped clock 199))) with (extractor (stamped clock 199)). rewrite stamped_key.
  pose proof (u64_range (ns 199 - 100000000)) as Ht.
  eapply reads_bind; [apply (reads_find_closest (T:=Stamped IMUReading) BUFFER_SIZE _ _ _ Hrest _ Hv (kept_descend _ _ imus_ascend)); done|].
  intros c (k & Hk & -> & Hmin)%closest_reported.
  eapply reads_bind; [by apply (reads_find_interpolation_pair (T:=Stamped IMUReading) BUFFER_SIZE _ _ _ Hrest _ Hv (kept_descend _ _ imus_ascend))|].
  intros o Ho%pair_reported. apply reads_ret. unfold report_ok. cbn [available latest is_fresh closest_to interpolated].
  split; [by rewrite <- Ha, length_kept, length_imus|].
  split; [done|]. split; [by rewrite <- Hf; apply fresh_reported|]. split.
  - exists k. split; [done|]. split; [|done]. f_equal. f_equal. by apply distance_reported.
  - destruct o as [[b a' f0]|]; [|done]. destruct Ho as (i & j & Hi & Hj & Eb & Ea & Ho). cbn in Eb, Ea. subst.
    exists i, j. by repeat (split; [done|]).
Qed.
End CyclicExampleRuns.

Module CyclicExampleWitness.
(** A clock that ticks every 5 ms. *)
Definition tick (k : Z) : timespec := Timespec (k / 200) (k mod 200 * 5000000).

Lemma tick_ns k : 0 <= k < 200 -> monotonic_now_ns (tick k) = k * 5000000.
Proof.
  intros Hk. unfold monotonic_now_ns, tick. cbn [tv_sec tv_nsec]. rewrite Z.div_small, Z.mod_small by lia.
  rewrite (u64_small (k * 5000000)), u64_small by (change (u64 (u64 0 * 1000000000)) with 0; lia). done.
Qed.

(** A reader a second and a half after the start finds the data fresh, and
    number 179 published just 100 ms before the last. *)
Lemma cyclic_example_reports_witness :
  monotonic_now_ns (tick 199) - 100000000 = monotonic_now_ns (tick 179) /\
  wp (quiet (fun _ => (0, 0)))
     (writes <- CyclicExample.writer_main tick ;; r <- CyclicExample.reader_main (Timespec 1 500000000) ;; Ret (writes, r))
     0 (fresh (CyclicRegion.total_size (Stamped IMUReading) BUFFER_SIZE))
     (fun '(writes, r) _ _ _ => writes = 200 /\ report_ok tick (Timespec 1 500000000) r).
Proof.
  split; [reflexivity|]. apply (cyclic_example_reports tick (Timespec 1 500000000)).
  intros j k Hj Hk. rewrite !tick_ns by lia. lia.
Defined.
End CyclicExampleWitness.
