(* ===== verification/ShmLock.v ===== *)
(** * The futex mutex and the storage it protects

    [shm_lock.hpp] and [storage.hpp].  The lock word lives in a segment of
    its own, mapped at address [s]; the stored object at [da]. *)
From stdpp Require Import relations.
From S2P Require Import Prelude Memory Prog FlatType Pool.

Module ShmLock.
Section Lock.
Context (s : Z).   (* address of the 32-bit lock word *)

(** [detail::futex_wait(s, 1)]: no timeout, result ignored. *)
Definition futex_wait (expected : Z) : prog unit :=
  futex_wait_call s expected None ;;; Ret tt.
Definition futex_wake (count : Z) : prog unit := futex_wake_call s count.

(** [while (exchange(1) != 0) futex_wait(s, 1);] *)
Definition lock_slow : prog unit :=
  forever (
    old <- exchange32 acquire s 1 ;;
    if negb (old =? 0) then futex_wait 1 ;;; Ret None else Ret (Some tt)).

Definition lock : prog unit :=
  old <- exchange32 acquire s 1 ;;
  if old =? 0 then Ret tt else lock_slow.

Definition unlock : prog unit :=
  store32 release s 0 ;;;
  futex_wake 1.

(** [destroy]: releases the word whoever holds it, then unlinks the segment
    ([shm_.destroy()], not part of the region). *)
Definition destroy (mapped : bool) : prog unit :=
  if mapped then store32 release s 0 else Ret tt.
End Lock.
End ShmLock.

Module Storage.
Section Storage.
Context {T : Set} `{FlatType T} (s da : Z).

Definition store (data : T) : prog unit :=
  ShmLock.lock s ;;;
  memcpy_to da (to_bytes data) ;;;
  ShmLock.unlock s.
End Storage.
End Storage.

(** A thread that stores a list of values. *)
Fixpoint store_all {T : Set} `{FlatType T} (s da : Z) (ds : list T) : prog unit :=
  match ds with
  | [] => Ret tt
  | d :: ds => Storage.store s da d ;;; store_all s da ds
  end.

(** ** Where a storing thread is *)
Section Storing.
Context {T : Set} `{FlatType T} (s da : Z).

(** The value being stored, and those after it. *)
Inductive pc : Set :=
| Idle (ds : list T)                   (* about to try the fast path, or done *)
| Spin (d : T) (ds : list T)           (* about to enter a round of the slow path *)
| Slow (d : T) (ds : list T)           (* about to exchange again *)
| Wait (d : T) (ds : list T)           (* about to call the kernel *)
| Asleep (d : T) (ds : list T)
| Copy (k : nat) (d : T) (ds : list T) (* holds the lock, [k] bytes copied *)
| Notify (ds : list T).                (* released the lock, about to wake *)

Definition in_section (c : pc) : bool := match c with Copy _ _ _ => true | _ => false end.

Definition loop_round : prog (unit + unit) :=
  r <- (old <- exchange32 acquire s 1 ;;
        if negb (old =? 0) then ShmLock.futex_wait s 1 ;;; Ret None else Ret (Some tt)) ;;
  Ret (match r with Some a => inr a | None => inl tt end).

Definition loop_next (r : unit + unit) : prog unit :=
  match r with inl s' => Iter (fun _ : unit => loop_round) s' | inr a => Ret a end.

(** What is left to do once [p], a part of [lock], returns. *)
Definition then_store (d : T) (ds : list T) (p : prog unit) : prog unit :=
  bind_ (bind_ p (fun _ => memcpy_to da (to_bytes d) ;;; ShmLock.unlock s))
        (fun _ => store_all s da ds).

Definition code (c : pc) : prog unit :=
  match c with
  | Idle ds => store_all s da ds
  | Spin d ds | Asleep d ds => then_store d ds (ShmLock.lock_slow s)
  | Slow d ds => then_store d ds (bind_ loop_round loop_next)
  | Wait d ds =>
      then_store d ds
        (bind_ (bind_ (ShmLock.futex_wait s 1 ;;; Ret None)
                      (fun r => Ret (match r with Some a => inr a | None => inl tt end))) loop_next)
  | Copy k d ds =>
      bind_ (memcpy_to (da + Z.of_nat k) (drop k (to_bytes d)) ;;; ShmLock.unlock s)
            (fun _ => store_all s da ds)
  | Notify ds => bind_ (ShmLock.futex_wake s 1) (fun _ => store_all s da ds)
  end.

(** *** The automaton of a storing thread *)
Inductive move : Set :=
| Done
| To (m : mem) (c : pc)
| Sleep (d : T) (ds : list T)
| WakeOne (ds : list T).

Definition next (c : pc) (m : mem) : move :=
  match c with
  | Idle [] => Done
  | Idle (d :: ds) => To (st32 m s 1) (if ld32 m s =? 0 then Copy 0 d ds else Spin d ds)
  | Spin d ds => To m (Slow d ds)
  | Slow d ds => To (st32 m s 1) (if ld32 m s =? 0 then Copy 0 d ds else Wait d ds)
  | Wait d ds => if ld32 m s =? 1 then Sleep d ds else To m (Spin d ds)
  | Asleep d ds => To m (Slow d ds)
  | Copy k d ds =>
      match drop k (to_bytes d) with
      | b :: _ => To (wr m (da + Z.of_nat k) [b]) (Copy (S k) d ds)
      | [] => To (st32 m s 0) (Notify ds)
      end
  | Notify ds => WakeOne ds
  end.

Definition same (p : prog unit) (c : pc) : Prop := view p = view (code c).

(** A thread and the state of its automaton. *)
Definition follows (th : thread) (c : pc) : Prop :=
  match th, c with
  | Running p, Asleep _ _ => False
  | Running p, c => same p c
  | Parked off k, Asleep d ds => off = s /\ forall rc, same (k rc) (Spin d ds)
  | Parked _ _, _ => False
  end.

Definition agrees (o : outcome) (mv : move) : Prop :=
  match o, mv with
  | Finished, Done => True
  | Moves m p, To m' c => m = m' /\ same p c
  | Sleeps off k, Sleep d ds => off = s /\ forall rc, same (k rc) (Spin d ds)
  | Wakes off n p, WakeOne ds => off = s /\ n = 1 /\ same p (Idle ds)
  | _, _ => False
  end.

Lemma local_step_view p q m : view p = view q -> local_step p m = local_step q m.
Proof using Type. unfold local_step. by intros ->. Qed.

Lemma then_store_ret d ds : view (then_store d ds (Ret tt)) = view (code (Copy 0 d ds)).
Proof using Type.
  unfold then_store, code. cbn [bind_]. by rewrite drop_0, Z.add_0_r.
Qed.

Lemma drop_head {A} k (l : list A) b bs :
  drop k l = b :: bs -> l !! k = Some b /\ drop (S k) l = bs.
Proof using Type.
  intros E. assert (Hb : l !! k = Some b) by (rewrite <- (Nat.add_0_r k), <- lookup_drop; by rewrite E).
  split; [done|]. rewrite (drop_S l b) in E by done. by injection E.
Qed.

(** The program does what the automaton does, and never traps. *)
Lemma local_step_next c m :
  atomic_ok m s 4 = true -> in_bounds m da (sizeof T) = true ->
  (forall d ds, c <> Asleep d ds) ->
  agrees (local_step (code c) m) (next c m).
Proof using Type.
  intros Hs Hda Hawake. destruct c as [[|d ds]|d ds|d ds|d ds|d ds|k d ds|ds];
    unfold local_step, next.
  - done.
  - cbn. rewrite Hs. cbn. split; [done|]. unfold same. destruct (ld32 m s =? 0); cbn [bind_].
    + apply then_store_ret.
    + unfold then_store, code. by rewrite !view_bind_.
  - cbn. split; [done|]. reflexivity.
  - cbn. rewrite Hs. cbn. split; [done|]. unfold same. destruct (ld32 m s =? 0); cbn [negb bind_].
    + apply then_store_ret.
    + reflexivity.
  - cbn. rewrite Hs. cbn. destruct (ld32 m s =? 1); cbn; [|done]. split; [done|]. done.
  - by destruct (Hawake d ds).
  - destruct (drop k (to_bytes d)) as [|b bs] eqn:Ed; unfold code; rewrite Ed, view_bind_; cbn.
    + rewrite Hs. cbn. done.
    + assert (Hk : (k < sizeof T)%nat).
      { rewrite <- (length_to_bytes d). apply drop_head in Ed as [Hb _]. by apply lookup_lt_Some in Hb. }
      replace (in_bounds m (da + Z.of_nat k) 1) with true; cbn.
      2:{ symmetry. replace (sizeof T) with (k + (1 + (sizeof T - k - 1)))%nat in Hda by lia.
          apply in_bounds_split in Hda as [_ Hda]. by apply in_bounds_split in Hda as [Hda _]. }
      split; [done|]. unfold same, code. rewrite !view_bind_. apply drop_head in Ed as [_ ->].
      replace (da + Z.of_nat (S k)) with (da + Z.of_nat k + 1) by lia.
      cbn. rewrite view_bind_. done.
  - cbn. rewrite Hs. cbn. done.
Qed.
End Storing.
