(* ===== verification/LockPool.v ===== *)
(** * Any number of threads storing under the lock

    Every interleaving of threads that call [Storage::store], with sleeping
    and waking left to the kernel: mutual exclusion, whole values, no
    deadlock. *)
From stdpp Require Import relations.
From S2P Require Import Prelude Memory Prog FlatType Pool ShmLock.

Section Pool.
Context {T : Set} `{FlatType T} (s da : Z) (init : list Z) (all : T -> Prop).
Context (Hs0 : 0 <= s) (Hda0 : 0 <= da) (Hapart : disjoint s 4 da (sizeof T)).
Abbreviation pc := (pc (T:=T)).
Abbreviation n := (sizeof T).

Definition values (c : pc) : list T :=
  match c with
  | Idle ds | Notify ds => ds
  | Spin d ds | Slow d ds | Wait d ds | Asleep d ds | Copy _ d ds => d :: ds
  end.

Definition awake (c : pc) : bool :=
  match c with Idle [] | Asleep _ _ => false | _ => true end.

Definition wake_pc (c : pc) : pc := match c with Asleep d ds => Spin d ds | c => c end.

(** A whole value: the initial contents or something stored. *)
Definition whole (bs : list Z) : Prop := bs = init \/ exists d, all d /\ bs = to_bytes d.

Definition nobody (cs : list pc) : Prop := forall i c, cs !! i = Some c -> in_section c = false.

Definition owner (m : mem) (cs : list pc) (i : nat) : Prop :=
  (exists k d ds, cs !! i = Some (Copy k d ds) /\ (k <= n)%nat /\ rd m da k = take k (to_bytes d)) /\
  forall j c, cs !! j = Some c -> in_section c = true -> j = i.

(** The lock word says whether somebody is inside. *)
Definition word (m : mem) (cs : list pc) : Prop :=
  (ld32 m s = 0 /\ nobody cs /\ whole (rd m da n)) \/ (ld32 m s = 1 /\ exists i, owner m cs i).

Record good (m : mem) (cs : list pc) : Prop := {
  good_lock : atomic_ok m s 4 = true;
  good_data : in_bounds m da n = true;
  good_vals : forall i c, cs !! i = Some c -> Forall all (values c);
  good_word : word m cs;
  good_awake : forall i d ds, cs !! i = Some (Asleep d ds) -> exists j c, cs !! j = Some c /\ awake c = true
}.

(** *** The lock word and the data under single steps *)

Lemma in_section_insert (cs : list pc) i c c' :
  cs !! i = Some c -> in_section c' = in_section c ->
  forall j x, <[i := c']> cs !! j = Some x -> exists y, cs !! j = Some y /\ in_section x = in_section y.
Proof using Type.
  intros Hi E j x Hj. apply list_lookup_insert_Some in Hj as [(<- & <- & _)|[_ Hj]]; eauto.
Qed.

Lemma word_keep m cs i c c' :
  word m cs -> cs !! i = Some c -> in_section c = false -> in_section c' = false ->
  word m (<[i := c']> cs).
Proof using Type.
  intros Hw Hi Hc Hc'. pose proof (in_section_insert cs i c c' Hi ltac:(congruence)) as Hin.
  destruct Hw as [(H0 & Hn & Hd)|(H1 & o & (k & d & ds & Ho & Hk) & Hu)]; [left|right].
  - split; [done|]. split; [|done]. intros j x Hj. destruct (Hin j x Hj) as (y & Hy & ->). eauto.
  - split; [done|]. exists o. assert (o <> i) by (intros ->; rewrite Ho in Hi; by injection Hi as <-). split.
    + exists k, d, ds. by rewrite list_lookup_insert_ne.
    + intros j x Hj Hx. destruct (Hin j x Hj) as (y & Hy & E). rewrite E in Hx. eauto.
Qed.

Lemma ld32_store_word m v : atomic_ok m s 4 = true -> ld32 (st32 m s v) s = u32 v.
Proof using Type. intros. apply ld32_st32_same. by apply atomic_ok_bounds. Qed.

Lemma rd_store_word m v k : (k <= n)%nat -> rd (st32 m s v) da k = rd m da k.
Proof using Hs0 Hda0 Hapart.
  intros Hk. unfold st32. apply rd_wr_disjoint; [done|done|]. rewrite length_le_bytes.
  unfold disjoint in *. lia.
Qed.

Lemma word_again m cs :
  atomic_ok m s 4 = true -> word m cs -> ld32 m s <> 0 -> word (st32 m s 1) cs.
Proof using Hs0 Hda0 Hapart.
  intros Hok [(H0 & _)|(_ & o & (k & d & ds & Ho & Hk & Hb) & Hu)] Hne; [done|].
  right. rewrite ld32_store_word by done. split; [done|]. exists o. split; [|done].
  exists k, d, ds. rewrite rd_store_word by lia. done.
Qed.

Lemma word_acquire m cs i c d ds :
  atomic_ok m s 4 = true -> word m cs -> ld32 m s = 0 -> cs !! i = Some c ->
  word (st32 m s 1) (<[i := Copy 0 d ds]> cs).
Proof using Type.
  intros Hok [(_ & Hn & _)|(H1 & _)] H0 Hi; [|by rewrite H0 in H1].
  right. rewrite ld32_store_word by done. split; [done|]. exists i.
  pose proof (lookup_lt_Some _ _ _ Hi). split.
  - exists O, d, ds. rewrite list_lookup_insert_eq by done. rewrite rd_0, take_0. split; [done|]. split; [lia|done].
  - intros j x Hj Hx. apply list_lookup_insert_Some in Hj as [(<- & _)|[_ Hj]]; [done|].
    by rewrite (Hn j x Hj) in Hx.
Qed.

Lemma owner_is m cs o i k d ds :
  owner m cs o -> cs !! i = Some (Copy k d ds) ->
  o = i /\ (k <= n)%nat /\ rd m da k = take k (to_bytes d).
Proof using Type.
  intros [(k' & d' & ds' & Ho & Hk & Hb) Hu] Hi. pose proof (Hu i _ Hi eq_refl) as E. subst o.
  rewrite Hi in Ho. injection Ho as <- <- <-. done.
Qed.

Lemma word_owner m cs i k d ds :
  word m cs -> cs !! i = Some (Copy k d ds) -> ld32 m s = 1 /\ owner m cs i.
Proof using Type.
  intros [(_ & Hn & _)|(H1 & o & Ho)] Hi; [by pose proof (Hn i _ Hi)|].
  destruct (owner_is _ _ _ _ _ _ _ Ho Hi) as [-> _]. done.
Qed.

Lemma word_copy m cs i k d ds b bs :
  word m cs -> in_bounds m da n = true -> cs !! i = Some (Copy k d ds) -> drop k (to_bytes d) = b :: bs ->
  word (wr m (da + Z.of_nat k) [b]) (<[i := Copy (S k) d ds]> cs).
Proof using Hs0 Hda0 Hapart.
  intros Hw Hb Hi Ed. destruct (word_owner _ _ _ _ _ _ Hw Hi) as [H1 Ho].
  destruct (owner_is _ _ _ _ _ _ _ Ho Hi) as (_ & _ & Hrd). destruct Ho as [_ Hu].
  apply drop_head in Ed as [Eb _]. pose proof (lookup_lt_Some _ _ _ Eb) as Hk. rewrite length_to_bytes in Hk.
  assert (Hbk : in_bounds m (da + Z.of_nat k) 1 = true).
  { replace n with (k + (1 + (n - k - 1)))%nat in Hb by lia.
    apply in_bounds_split in Hb as [_ Hb]. by apply in_bounds_split in Hb as [Hb _]. }
  right. split.
  { unfold ld32. rewrite rd_wr_disjoint; [exact H1|done|lia|]. unfold disjoint in *. simpl length. lia. }
  exists i. split.
  - exists (S k), d, ds. pose proof (lookup_lt_Some _ _ _ Hi). rewrite list_lookup_insert_eq by done.
    split; [done|]. split; [lia|]. replace (S k) with (k + 1)%nat at 1 by lia.
    rewrite rd_app by done. rewrite (take_S_r _ _ b) by done. f_equal.
    + rewrite rd_wr_disjoint; [done|done|lia|]. unfold disjoint. simpl length. lia.
    + by apply (rd_wr_same m _ [b]).
  - intros j x Hj Hx. apply list_lookup_insert_Some in Hj as [(<- & _)|[_ Hj]]; eauto.
Qed.

Lemma word_release m cs i k d ds :
  word m cs -> atomic_ok m s 4 = true -> cs !! i = Some (Copy k d ds) -> drop k (to_bytes d) = [] ->
  all d -> word (st32 m s 0) (<[i := Notify ds]> cs).
Proof using Hs0 Hda0 Hapart.
  intros Hw Hok Hi Ed Hd. destruct (word_owner _ _ _ _ _ _ Hw Hi) as [H1 Ho].
  destruct (owner_is _ _ _ _ _ _ _ Ho Hi) as (_ & Hk & Hrd). destruct Ho as [_ Hu].
  assert (Hn : k = n).
  { pose proof (f_equal length Ed) as El. rewrite length_drop, length_to_bytes in El. simpl in El. lia. }
  subst k. left. rewrite ld32_store_word, rd_store_word by done. split; [done|]. split.
  - intros j x Hj. apply list_lookup_insert_Some in Hj as [(_ & <- & _)|[Hne Hj]]; [done|].
    destruct (in_section x) eqn:E; [|done]. by destruct Hne; symmetry; eapply Hu.
  - right. exists d. split; [done|]. rewrite Hrd. apply take_ge. by rewrite length_to_bytes.
Qed.

(** *** Whole steps *)

Lemma awake_insert (cs : list pc) i c c' :
  cs !! i = Some c -> awake c' = true ->
  exists j x, <[i := c']> cs !! j = Some x /\ awake x = true.
Proof using Type.
  intros Hi Hc. pose proof (lookup_lt_Some _ _ _ Hi). exists i, c'. by rewrite list_lookup_insert_eq.
Qed.

Lemma vals_insert (cs : list pc) i c c' :
  (forall i c, cs !! i = Some c -> Forall all (values c)) -> cs !! i = Some c ->
  (Forall all (values c) -> Forall all (values c')) ->
  forall j x, <[i := c']> cs !! j = Some x -> Forall all (values x).
Proof using Type.
  intros Hv Hi Hc j x Hj. apply list_lookup_insert_Some in Hj as [(<- & <- & _)|[_ Hj]]; eauto.
Qed.

Lemma good_to m cs i c m' c' :
  good m cs -> cs !! i = Some c -> (forall d ds, c <> Asleep d ds) -> next s da c m = To m' c' ->
  good m' (<[i := c']> cs).
Proof using Hs0 Hda0 Hapart.
  intros [Hl Hd Hv Hw Ha] Hi Hna E. pose proof (Hv i c Hi) as Hvc.
  assert (Hres : atomic_ok m' s 4 = true /\ in_bounds m' da n = true /\ awake c' = true /\
                 (Forall all (values c) -> Forall all (values c')) /\ word m' (<[i := c']> cs)).
  { destruct c as [[|d ds]|d ds|d ds|d ds|d ds|k d ds|ds]; simpl in E; try done.
    - injection E as <- <-. unfold st32 at 1 2. rewrite atomic_ok_wr, in_bounds_wr.
      destruct (ld32 m s =? 0) eqn:E0; zbool; (do 4 (split; [done|])).
      + by eapply word_acquire.
      + apply (word_keep _ _ i (Idle (d :: ds))); try done. by apply word_again.
    - injection E as <- <-. do 4 (split; [done|]). by apply (word_keep _ _ i (Spin d ds)).
    - injection E as <- <-. unfold st32 at 1 2. rewrite atomic_ok_wr, in_bounds_wr.
      destruct (ld32 m s =? 0) eqn:E0; zbool; (do 4 (split; [done|])).
      + by eapply word_acquire.
      + apply (word_keep _ _ i (Slow d ds)); try done. by apply word_again.
    - destruct (ld32 m s =? 1); [done|]. injection E as <- <-. do 4 (split; [done|]).
      by apply (word_keep _ _ i (Wait d ds)).
    - by destruct (Hna d ds).
    - destruct (drop k (to_bytes d)) as [|b bs] eqn:Ed; injection E as <- <-.
      + unfold st32 at 1 2. rewrite atomic_ok_wr, in_bounds_wr. do 3 (split; [done|]).
        inversion Hvc. split; [done|]. by eapply word_release.
      + rewrite atomic_ok_wr, in_bounds_wr. do 4 (split; [done|]). by eapply word_copy. }
  destruct Hres as (? & ? & ? & ? & ?). split; try done.
  - by eapply vals_insert.
  - intros _ _ _ _. by eapply awake_insert.
Qed.

Lemma good_sleep m cs i d ds :
  good m cs -> cs !! i = Some (Wait d ds) -> ld32 m s = 1 -> good m (<[i := Asleep d ds]> cs).
Proof using Type.
  intros [Hl Hd Hv Hw Ha] Hi H1. split; try done.
  - by eapply vals_insert.
  - by eapply word_keep.
  - intros _ _ _ _. destruct Hw as [(H0 & _)|(_ & o & (k & d' & ds' & Ho & _) & _)]; [by rewrite H1 in H0|].
    exists o, (Copy k d' ds'). split; [|done]. rewrite list_lookup_insert_ne; [done|congruence].
Qed.

Lemma good_interrupt m cs i d ds :
  good m cs -> cs !! i = Some (Asleep d ds) -> good m (<[i := Spin d ds]> cs).
Proof using Type.
  intros [Hl Hd Hv Hw Ha] Hi. split; try done.
  - by eapply vals_insert.
  - by eapply word_keep.
  - intros _ _ _ _. by eapply awake_insert.
Qed.

Lemma wake_pc_idem c : wake_pc (wake_pc c) = wake_pc c.
Proof using Type. by destruct c. Qed.

Lemma alter_wake_lookup (js : list nat) (cs : list pc) i x :
  alter_all wake_pc js cs !! i = Some x ->
  exists c, cs !! i = Some c /\ (x = c \/ (i ∈ js /\ x = wake_pc c)).
Proof using Type.
  rewrite (alter_all_lookup _ wake_pc_idem). case_decide.
  - intros Hx. apply fmap_Some in Hx as (c & Hc & ->). eauto.
  - eauto.
Qed.

(** A wake with sleepers about leaves somebody awake. *)
Lemma good_wake m cs i ds (woken : list nat) :
  good m cs -> cs !! i = Some (Notify ds) ->
  (forall j, j ∈ woken -> exists d ds, cs !! j = Some (Asleep d ds)) ->
  ((exists j d ds, cs !! j = Some (Asleep d ds)) -> woken <> []) ->
  good m (alter_all wake_pc woken (<[i := Idle ds]> cs)).
Proof using Type.
  intros [Hl Hd Hv Hw Ha] Hi Hsub Hsome.
  assert (Hw' : word m (<[i := Idle ds]> cs)) by by eapply word_keep.
  assert (Hv' : forall j c, <[i := Idle ds]> cs !! j = Some c -> Forall all (values c))
    by by eapply vals_insert.
  set (cs1 := <[i := Idle ds]> cs) in *.
  assert (Hin : forall j x, alter_all wake_pc woken cs1 !! j = Some x ->
                exists y, cs1 !! j = Some y /\ in_section x = in_section y /\ values x = values y).
  { intros j x Hj. apply alter_wake_lookup in Hj as (c & Hc & [->|[_ ->]]); exists c; [done|].
    by destruct c. }
  split; try done.
  - intros j x Hj. destruct (Hin j x Hj) as (y & Hy & _ & ->). eauto.
  - destruct Hw' as [(H0 & Hn & Hb)|(H1 & o & (k & d' & ds' & Ho & Hk) & Hu)]; [left|right].
    + split; [done|]. split; [|done]. intros j x Hj. destruct (Hin j x Hj) as (y & Hy & -> & _). eauto.
    + split; [done|]. exists o. split.
      * exists k, d', ds'. split; [|done]. rewrite (alter_all_lookup _ wake_pc_idem), Ho.
        by case_decide.
      * intros j x Hj Hx. destruct (Hin j x Hj) as (y & Hy & E & _). rewrite E in Hx. eauto.
  - intros j d' ds' Hj. apply alter_wake_lookup in Hj as (c & Hc & Hx).
    assert (c = Asleep d' ds') as -> by (destruct Hx as [<-|[_ Hx]]; [done|by destruct c]).
    assert (Hne : woken <> []).
    { apply Hsome. apply list_lookup_insert_Some in Hc as [(_ & ? & _)|[_ Hc]]; [done|eauto]. }
    destruct woken as [|w ws]; [done|]. destruct (Hsub w ltac:(constructor)) as (d & ds0 & Hw0).
    exists w, (Spin d ds0). split; [|done].
    rewrite (alter_all_lookup _ wake_pc_idem), decide_True by constructor.
    unfold cs1. rewrite list_lookup_insert_ne by congruence. by rewrite Hw0.
Qed.
End Pool.

(** ** The pool of programs follows the automata *)
Section Simulation.
Context {T : Set} `{HT : FlatType T} `{HKn : FutexKernel} (s da : Z) (init : list Z) (all : T -> Prop).
Context (Hs0 : 0 <= s) (Hda0 : 0 <= da) (Hapart : disjoint s 4 da (sizeof T)).
Abbreviation pc := (pc (T:=T)).
Abbreviation follows := (follows (T:=T) s da).
Abbreviation good := (good s da init all).

Definition pool_ok (x : pool) : Prop := exists cs, Forall2 follows x.2 cs /\ good x.1 cs.

Lemma follows_running p (c : pc) : follows (Running p) c -> (forall d ds, c <> Asleep d ds) /\ same s da p c.
Proof using Type. by destruct c. Qed.

Lemma follows_awake p (c : pc) : (forall d ds, c <> Asleep d ds) -> same s da p c -> follows (Running p) c.
Proof using Type. destruct c as [| | | |d ds| |]; try done. intros Hn. by destruct (Hn d ds). Qed.

Lemma next_not_asleep (c : pc) m m' c' : next s da c m = To m' c' -> forall d ds, c' <> Asleep d ds.
Proof using Type.
  destruct c as [[|d ds]|d ds|d ds|d ds|d ds|k d ds|ds]; cbn; try done; intros E d' ds'.
  - injection E as _ <-. by destruct (_ =? 0).
  - injection E as _ <-. done.
  - injection E as _ <-. by destruct (_ =? 0).
  - destruct (_ =? 1); [done|]. by injection E as _ <-.
  - by injection E as _ <-.
  - destruct (drop k (to_bytes d)); by injection E as _ <-.
Qed.

(** What the running thread [i] does is what its automaton does. *)
Lemma running_agrees m ts cs i p :
  Forall2 follows ts cs -> good m cs -> ts !! i = Some (Running p) ->
  exists c, cs !! i = Some c /\ (forall d ds, c <> Asleep d ds) /\ same s da p c /\
            agrees s da (local_step p m) (next s da c m).
Proof using Type.
  intros Hf Hg Hi. destruct (Forall2_lookup_l _ _ _ _ _ Hf Hi) as (c & Hc & Hfc).
  apply follows_running in Hfc as [Hna Hsame]. exists c. split; [done|]. split; [done|]. split; [done|].
  rewrite (local_step_view p (code s da c)) by done. destruct Hg. by apply local_step_next.
Qed.

Lemma follows_resume rc th c : follows th c -> follows (resume rc th) (wake_pc c).
Proof using Type.
  destruct th as [p|off k], c; try done. intros [-> Hk]. simpl. apply Hk.
Qed.

Lemma follows_alter_all (js : list nat) ts cs :
  Forall2 follows ts cs -> Forall2 follows (alter_all (resume (0, 0)) js ts) (alter_all wake_pc js cs).
Proof using Type.
  intros Hf. induction js as [|j js IH]; [done|]. cbn [alter_all foldr].
  fold (alter_all (resume (0, 0)) js ts) (alter_all wake_pc js cs).
  apply Forall2_alter; [done|]. intros. by apply follows_resume.
Qed.

Lemma parked_asleep th c : follows th c -> parked_on s th = true <-> exists d ds, c = Asleep d ds.
Proof using Type.
  destruct th as [p|off k]; simpl.
  - intros Hc. split; [done|]. intros (d & ds & ->). done.
  - destruct c as [| | | |d ds| |]; try done. intros [-> _]. rewrite Z.eqb_refl. split; eauto.
Qed.

Lemma sleepers ts cs i :
  Forall2 follows ts cs -> i ∈ waiters s ts <-> exists d ds, cs !! i = Some (Asleep d ds).
Proof using Type.
  intros Hf. rewrite waiters_spec. split.
  - intros (th & Hi & Hp). destruct (Forall2_lookup_l _ _ _ _ _ Hf Hi) as (c & Hc & Hfc).
    pose proof (proj1 (parked_asleep _ _ Hfc) Hp) as (d & ds & ->). eauto.
  - intros (d & ds & Hi). destruct (Forall2_lookup_r _ _ _ _ _ Hf Hi) as (th & Hth & Hfc).
    exists th. split; [done|]. apply (parked_asleep _ _ Hfc). eauto.
Qed.

Lemma pool_ok_step x y : pool_ok x -> pool_step x y -> pool_ok y.
Proof using Hs0 Hda0 Hapart.
  intros (cs & Hf & Hg) Hstep.
  destruct Hstep as [i p m m' p' ts Hi E|i p m off k ts Hi E|i p m off n p' ts woken Hi E Hw|i m off k rc ts Hi];
    simpl in Hf, Hg.
  - destruct (running_agrees _ _ _ _ _ Hf Hg Hi) as (c & Hc & Hna & _ & Hag). rewrite E in Hag.
    destruct (next s da c m) as [|m0 c'| |] eqn:En; try done. destruct Hag as [<- Hsame].
    exists (<[i := c']> cs). split; [|by eapply good_to].
    apply Forall2_insert; [done|]. apply follows_awake; [by eapply next_not_asleep|done].
  - destruct (running_agrees _ _ _ _ _ Hf Hg Hi) as (c & Hc & Hna & _ & Hag). rewrite E in Hag.
    destruct (next s da c m) as [| |d ds|] eqn:En; try done.
    assert (Hcw : c = Wait d ds /\ ld32 m s = 1).
    { destruct c as [[]| | |d' ds'| |k0 d' ds'|]; simpl in En; try done.
      - destruct (ld32 m s =? 1) eqn:E1; [|done]. zbool. by injection En as -> ->.
      - by destruct (drop k0 (to_bytes d')). }
    destruct Hcw as [-> H1]. exists (<[i := Asleep d ds]> cs). split; [|by eapply good_sleep].
    apply Forall2_insert; [done|]. exact Hag.
  - destruct (running_agrees _ _ _ _ _ Hf Hg Hi) as (c & Hc & Hna & _ & Hag). rewrite E in Hag.
    destruct (next s da c m) as [| | |ds] eqn:En; try done.
    assert (c = Notify ds) as ->.
    { destruct c as [[]| | |d' ds'| |k0 d' ds'|]; simpl in En; try done.
      - by destruct (ld32 m s =? 1).
      - by destruct (drop k0 (to_bytes d')).
      - by injection En as ->. }
    destruct Hag as (-> & -> & Hsame). exists (alter_all wake_pc woken (<[i := Idle ds]> cs)). split.
    + apply follows_alter_all, Forall2_insert; [done|]. done.
    + apply good_wake with (1 := Hg) (2 := Hc).
      * intros j Hj. by apply (sleepers ts cs j Hf), (wakes_waiters _ _ _ Hw).
      * intros (j & Hj). apply (wakes_some _ _ _ Hw); [|lia].
        apply (sleepers ts cs j Hf) in Hj. intros E0. rewrite E0 in Hj. by apply not_elem_of_nil in Hj.
  - destruct (Forall2_lookup_l _ _ _ _ _ Hf Hi) as (c & Hc & Hfc).
    destruct c as [| | | |d ds| |]; try done. destruct Hfc as [-> Hk].
    exists (<[i := Spin d ds]> cs). split; [|by eapply good_interrupt].
    apply Forall2_insert; [done|]. apply Hk.
Qed.
End Simulation.

(** ** Properties *)

(** The next thing a thread does is to write the protected object, or to
    release the lock. *)
Definition inside (th : thread) : bool :=
  match th with
  | Running p =>
      match view p with
      | VAct (AStoreB _ _) _ | VAct (AStore32 _ _ _) _ => true
      | _ => false
      end
  | Parked _ _ => false
  end.

Section Properties.
Context {T : Set} `{HT : FlatType T} `{HKn : FutexKernel} (s da : Z).
Context (Hapart : 0 <= s /\ 0 <= da /\ disjoint s 4 da (sizeof T)).

(** Threads storing lists of values, from a memory whose lock is free. *)
Definition storing (dss : list (list T)) (m : mem) : pool :=
  (m, (fun ds => Running (store_all s da ds)) <$> dss).

Definition region_free (m : mem) : Prop :=
  atomic_ok m s 4 = true /\ in_bounds m da (sizeof T) = true /\ ld32 m s = 0.

Lemma storing_ok dss m0 :
  region_free m0 ->
  pool_ok s da (rd m0 da (sizeof T)) (fun d => d ∈ concat dss) (storing dss m0).
Proof using Type.
  intros (Hl & Hd & H0). exists (Idle <$> dss). split.
  - simpl. apply Forall2_fmap_2. apply Forall_Forall2_diag. apply Forall_true. done.
  - assert (Hidle : forall i c, (Idle <$> dss) !! i = Some c -> exists ds, c = Idle ds /\ ds ∈ dss).
    { intros i c Hi. apply list_lookup_fmap_Some in Hi as (ds & -> & Hi). exists ds.
      split; [done|]. by eapply list_elem_of_lookup_2. }
    split; [done|done| | |].
    + intros i c Hi. destruct (Hidle i c Hi) as (ds & -> & Hds). apply Forall_forall. intros x Hx.
      apply list_elem_of_In, in_concat. exists ds. split; [by apply list_elem_of_In|exact Hx].
    + left. split; [done|]. split; [|by left]. intros i c Hi. by destruct (Hidle i c Hi) as (ds & -> & _).
    + intros i d ds Hi. by destruct (Hidle i _ Hi) as (? & ? & _).
Qed.

Lemma storing_reachable dss m0 m ts :
  region_free m0 -> reachable (storing dss m0) (m, ts) ->
  exists cs, Forall2 (follows s da) ts cs /\ good s da (rd m0 da (sizeof T)) (fun d => d ∈ concat dss) m cs.
Proof using Hapart.
  destruct Hapart as (? & ? & ?). intros Hfree Hr.
  apply (reachable_inv (pool_ok s da (rd m0 da (sizeof T)) (fun d => d ∈ concat dss))) in Hr;
    [done| |by apply storing_ok].
  intros x y. by apply pool_ok_step.
Qed.

Lemma inside_section th (c : pc (T:=T)) : follows s da th c -> inside th = in_section c.
Proof using Type.
  destruct th as [p|off k]; [|by destruct c]. intros Hf. apply follows_running in Hf as [_ E].
  unfold inside. rewrite E. destruct c as [[]| | | | |k d ds|]; try done.
  unfold code. rewrite view_bind_. by destruct (drop k (to_bytes d)).
Qed.

Lemma storing_excludes dss m0 m ts :
  region_free m0 -> reachable (storing dss m0) (m, ts) ->
  (forall i j th th', ts !! i = Some th -> ts !! j = Some th' ->
     inside th = true -> inside th' = true -> i = j) /\
  (ld32 m s = 0 <-> forall i th, ts !! i = Some th -> inside th = false).
Proof using Hapart.
  intros Hfree Hr. destruct (storing_reachable _ _ _ _ Hfree Hr) as (cs & Hf & Hg).
  assert (Hin : forall i th, ts !! i = Some th -> exists c, cs !! i = Some c /\ inside th = in_section c).
  { intros i th Hi. destruct (Forall2_lookup_l _ _ _ _ _ Hf Hi) as (c & Hc & Hfc).
    exists c. split; [done|]. by apply inside_section. }
  destruct (good_word _ _ _ _ _ _ Hg) as [(H0 & Hn & _)|(H1 & o & (k & d & ds & Ho & _) & Hu)].
  - split.
    + intros i j th th' Hi _ Hb _. destruct (Hin i th Hi) as (c & Hc & E). rewrite E in Hb.
      by rewrite (Hn i c Hc) in Hb.
    + split; [|done]. intros _ i th Hi. destruct (Hin i th Hi) as (c & Hc & ->). eauto.
  - split.
    + intros i j th th' Hi Hj Hb Hb'. destruct (Hin i th Hi) as (c & Hc & E).
      destruct (Hin j th' Hj) as (c' & Hc' & E'). rewrite E in Hb. rewrite E' in Hb'.
      by rewrite (Hu i c Hc Hb), (Hu j c' Hc' Hb').
    + split; [by rewrite H1|]. intros Hall.
      destruct (Forall2_lookup_r _ _ _ _ _ Hf Ho) as (th & Hth & Hfc).
      specialize (Hall o th Hth). by rewrite (inside_section _ _ Hfc) in Hall.
Qed.

(** C15: Mutual exclusion: however any number of threads calling
    Storage::store are interleaved and whatever the kernel does with sleepers,
    at most one of them is between taking the lock and releasing it, and the
    lock word is zero exactly when none is. *)
Theorem lock_excludes dss m0 m ts :
  region_free m0 -> reachable (storing dss m0) (m, ts) ->
  (forall i j th th', ts !! i = Some th -> ts !! j = Some th' ->
     inside th = true -> inside th' = true -> i = j) /\
  (ld32 m s = 0 <-> forall i th, ts !! i = Some th -> inside th = false).
Proof using Hapart. exact (storing_excludes dss m0 m ts). Qed.

Lemma storing_whole dss m0 m ts :
  region_free m0 -> reachable (storing dss m0) (m, ts) ->
  (forall i p, ts !! i = Some (Running p) -> local_step p m <> Trapped) /\
  (ld32 m s = 0 ->
   rd m da (sizeof T) = rd m0 da (sizeof T) \/
   exists d, d ∈ concat dss /\ rd m da (sizeof T) = to_bytes d).
Proof using Hapart.
  intros Hfree Hr. destruct (storing_reachable _ _ _ _ Hfree Hr) as (cs & Hf & Hg). split.
  - intros i p Hi E. destruct (running_agrees _ _ _ _ _ _ _ _ _ Hf Hg Hi) as (c & _ & _ & _ & Hag).
    by rewrite E in Hag.
  - intros H0. destruct (good_word _ _ _ _ _ _ Hg) as [(_ & _ & Hw)|(H1 & _)]; [exact Hw|].
    by rewrite H0 in H1.
Qed.

(** Storage holds whole values: whenever the lock word is zero the region
    holds the initial bytes or exactly the bytes of one of the stored values,
    and no thread ever touches memory out of bounds or misaligned. *)
Theorem storage_whole dss m0 m ts :
  region_free m0 -> reachable (storing dss m0) (m, ts) ->
  (forall i p, ts !! i = Some (Running p) -> local_step p m <> Trapped) /\
  (ld32 m s = 0 ->
   rd m da (sizeof T) = rd m0 da (sizeof T) \/
   exists d, d ∈ concat dss /\ rd m da (sizeof T) = to_bytes d).
Proof using Hapart. exact (storing_whole dss m0 m ts). Qed.

Lemma storing_progress dss m0 m ts i off k :
  region_free m0 -> reachable (storing dss m0) (m, ts) -> ts !! i = Some (Parked off k) ->
  exists j p, ts !! j = Some (Running p) /\ local_step p m <> Finished /\
    exists y, pool_step (m, ts) y.
Proof using Hapart.
  intros Hfree Hr Hi. destruct (storing_reachable _ _ _ _ Hfree Hr) as (cs & Hf & Hg).
  destruct (Forall2_lookup_l _ _ _ _ _ Hf Hi) as (c & Hc & Hfc).
  destruct c as [| | | |d ds| |]; try done.
  destruct (good_awake _ _ _ _ _ _ Hg i d ds Hc) as (j & c & Hj & Ha).
  destruct (Forall2_lookup_r _ _ _ _ _ Hf Hj) as (th & Hth & Hfj).
  destruct th as [p|off' k']; [|by destruct c].
  destruct (running_agrees _ _ _ _ _ _ _ _ _ Hf Hg Hth) as (c' & Hc' & _ & _ & Hag).
  rewrite Hj in Hc'. injection Hc' as <-. exists j, p. split; [done|].
  destruct (local_step p m) as [| |m' p'|off' k'|off' n p'] eqn:E.
  - exfalso. destruct (next s da c m) eqn:En; try done.
    destruct c as [[]| | | | |k0 d0 ds0|]; simpl in *; try done; [by destruct (_ =? 1)|by destruct (drop k0 _)].
  - done.
  - split; [done|]. eexists. by eapply step_moves.
  - split; [done|]. eexists. by eapply step_sleeps.
  - split; [done|]. destruct (wakes_total (waiters off' ts) n) as [woken Hw].
    eexists. by eapply step_wakes.
Qed.

(** C16: No lost wake-up: in every reachable state in which some thread sleeps
    on the lock, another thread is running, unfinished and able to step, for
    every kernel whose wake releases at least one sleeper when there is one.
    *)
Theorem lock_no_deadlock dss m0 m ts i off k :
  region_free m0 -> reachable (storing dss m0) (m, ts) -> ts !! i = Some (Parked off k) ->
  exists j p, ts !! j = Some (Running p) /\ local_step p m <> Finished /\
    exists y, pool_step (m, ts) y.
Proof using Hapart. exact (storing_progress dss m0 m ts i off k). Qed.
End Properties.

(** ** Two threads and a lock word at 0, a 4-byte object at 8 *)
Module Witness.
Definition m0 : mem := fresh 12.
Definition dss : list (list uint32) := [[to_uint 4 7]; [to_uint 4 9]].
Definition start : pool := storing 0 8 dss m0.

Lemma free0 : region_free (T:=uint32) 0 8 m0.
Proof. repeat split. Qed.

(** Thread 0 takes the lock and copies a byte; thread 1 goes to sleep. *)
Definition sched : list nat := [0; 0; 1; 1; 1; 1]%nat.
Definition stop : pool := match exec sched start with Some x => x | None => start end.

Lemma stop_reachable : reachable start stop.
Proof. apply (exec_reachable sched). reflexivity. Qed.

Lemma lock_excludes_witness :
  ld32 stop.1 0 = 1 /\
  forall i j th th', stop.2 !! i = Some th -> stop.2 !! j = Some th' ->
    inside th = true -> inside th' = true -> i = j.
Proof.
  split; [reflexivity|].
  apply (lock_excludes (T:=uint32) 0 8 ltac:(split; [lia|split; [lia|left; simpl; lia]]) dss m0 stop.1 stop.2 free0).
  exact stop_reachable.
Defined.

Lemma storage_whole_witness :
  exists x, reachable start x /\ ld32 x.1 0 = 0 /\ rd x.1 8 4 = to_bytes (to_uint 4 9) /\
  (rd x.1 8 4 = rd m0 8 4 \/ exists d, d ∈ concat dss /\ rd x.1 8 4 = to_bytes d).
Proof.
  pose (sched' := sched ++ [0; 0; 0; 0; 0; 1; 1; 1; 1; 1; 1; 1; 1]%nat).
  pose (x := match exec sched' start with Some x => x | None => start end).
  assert (Hr : reachable start x) by (apply (exec_reachable sched'); vm_compute; reflexivity).
  exists x. split; [exact Hr|]. split; [vm_compute; reflexivity|]. split; [vm_compute; reflexivity|].
  apply (storage_whole (T:=uint32) 0 8 ltac:(split; [lia|split; [lia|left; simpl; lia]]) dss m0 x.1 x.2 free0);
    [exact Hr|vm_compute; reflexivity].
Defined.

Lemma lock_no_deadlock_witness :
  exists k, stop.2 !! 1%nat = Some (Parked 0 k) /\
  exists j p, stop.2 !! j = Some (Running p) /\ local_step p stop.1 <> Finished /\
    exists y, pool_step (stop.1, stop.2) y.
Proof.
  eexists. split; [reflexivity|].
  eapply (lock_no_deadlock (T:=uint32) 0 8 ltac:(split; [lia|split; [lia|left; simpl; lia]]) dss m0 stop.1 stop.2
            1%nat 0 _ free0 stop_reachable). reflexivity.
Defined.

(** [destroy] by a third party while thread 0 is inside lets thread 1 in. *)
Lemma destroy_breaks_exclusion :
  let ts := start.2 ++ [Running (ShmLock.destroy 0 true)] in
  exists x, reachable (m0, ts) x /\
    (inside <$> x.2 !! 0%nat) = Some true /\ (inside <$> x.2 !! 1%nat) = Some true.
Proof.
  intros ts. pose (sched := [0; 0; 2; 1]%nat).
  pose (x := match exec sched (m0, ts) with Some x => x | None => (m0, ts) end).
  exists x. split; [apply (exec_reachable sched); vm_compute; reflexivity|].
  split; vm_compute; reflexivity.
Qed.
End Witness.
