(* ===== verification/LockBuffers.v ===== *)
(** * The lock and the storage on a machine with store buffers

    Threads that never load: they take the lock by an exchange, which empties
    the buffer, and after it only store.  Their stores may wait in the buffers,
    but nothing anyone does depends on what the memory holds, except what an
    exchange answers: the pool is [robust]. *)
From stdpp Require Import relations.
From S2P Require Import Prelude Memory Prog FlatType Pool StoreBuffer ShmLock LockPool.

Abbreviation never_loads := (uses_only (@loadless)).

Lemma never_loads_robust `{FutexKernel} m0 ps : Forall never_loads ps -> robust (m0, Running <$> ps).
Proof.
  intros Hps m us i j p buf q q' m1 pj w pj' Hre _ Hi _ Hran _ _ _ Hf Hq. eexists. eapply blind_moves; [|done|exact Hq|].
  2:{ rewrite !length_drain. apply length_wr. }
  destruct (reachable_start m0 ps m us i Hre) as (p0 & Hp0 & Hst); [by eapply lookup_lt_Some|].
  destruct (keeps_reachable _ (uses_only_step (@loadless)) _ _ i (Running p0) Hre Hst) as (th & Hth & Hk);
    [by eapply (Forall_lookup_1 _ _ _ _ Hps)|].
  cbn in Hth. rewrite Hi in Hth. injection Hth as <-.
  assert (Hq' : never_loads q) by (eapply ran_keeps; [apply (uses_only_step (@loadless))|exact Hk|exact Hran]).
  apply uses_only_view in Hq'. destruct (view q); [done..|apply Hq'].
Qed.

(** ** Storing threads *)
Section Storing.
Context {T : Set} `{HT : FlatType T} (s da : Z).

Lemma never_loads_memcpy_to off bs : never_loads (memcpy_to off bs).
Proof using Type. revert off. induction bs as [|b bs IH]; intros off; [exact I|]. split; [exact I|]. intros _. apply IH. Qed.

Lemma never_loads_lock : never_loads (ShmLock.lock s).
Proof using Type.
  split; [exact I|]. intros old. destruct (old =? 0); [exact I|]. intros u. split; [|by intros [a|]].
  split; [exact I|]. intros old'. destruct (negb _); [|exact I]. split; [split; [exact I|intros; exact I]|intros; exact I].
Qed.

Lemma never_loads_store (d : T) : never_loads (Storage.store s da d).
Proof using Type.
  split; [apply never_loads_lock|]. intros _. split; [apply never_loads_memcpy_to|]. intros _. split; [exact I|intros _; exact I].
Qed.

Lemma never_loads_store_all (ds : list T) : never_loads (store_all s da ds).
Proof using Type. induction ds as [|d ds IH]; [exact I|]. split; [apply never_loads_store|]. by intros _. Qed.
End Storing.

Section OnX86.
Context {T : Set} `{HT : FlatType T} `{HKn : FutexKernel} (s da : Z).
Context (Hapart : 0 <= s /\ 0 <= da /\ disjoint s 4 da (sizeof T)).

(** The storing threads of [LockPool], their buffers empty. *)
Definition storing_threads (dss : list (list T)) : list (prog unit) := store_all s da <$> dss.

Lemma storing_pool dss m : (m, Running <$> storing_threads dss) = storing s da dss m.
Proof using Type. unfold storing, storing_threads. f_equal. by rewrite <- list_fmap_compose. Qed.

Section Reached.
Context (dss : list (list T)) (m0 m : mem) (ts : list buffered) (Hfree : region_free (T:=T) s da m0).
Context (Hts : sb_reachable first_only (m0, idle <$> storing_threads dss) (m, ts)).

Lemma storing_robust : robust (m0, Running <$> storing_threads dss).
Proof using Type. apply never_loads_robust, Forall_fmap, Forall_true. intros ds. apply never_loads_store_all. Qed.
End Reached.

(** C17: The storage on x86: on a machine with store buffers emptied in order,
    however any number of threads calling Storage::store are interleaved and
    their buffers emptied, no thread accesses memory out of bounds or
    misaligned, no two are between taking and releasing the lock, whenever the
    lock word in memory is zero the region holds the initial bytes or one
    stored value whole, and while a thread sleeps on the lock some running
    thread, or its buffer, can go on. *)
Theorem storage_on_x86 dss m0 m (ts : list (thread * list pending)) :
  region_free (T:=T) s da m0 -> sb_reachable first_only (m0, idle <$> storing_threads dss) (m, ts) ->
  (forall i p buf, ts !! i = Some (Running p, buf) -> local_step p (drain m buf) <> Trapped) /\
  (forall i j th th' buf buf', ts !! i = Some (th, buf) -> ts !! j = Some (th', buf') ->
     inside th = true -> inside th' = true -> i = j) /\
  (ld32 m s = 0 ->
   rd m da (sizeof T) = rd m0 da (sizeof T) \/ exists d, d ∈ concat dss /\ rd m da (sizeof T) = to_bytes d) /\
  (forall i off k buf, ts !! i = Some (Parked off k, buf) ->
     exists j p buf', ts !! j = Some (Running p, buf') /\ (buf' <> [] \/ local_step p m <> Finished) /\
       exists y, sb_step first_only (m, ts) y).
Proof using Hapart.
  intros Hfree Hts. pose proof (storing_robust dss m0) as Hrob.
  destruct (sb_behind _ _ _ _ Hrob Hts) as (us & Hr & Hl). rewrite storing_pool in Hr. split; [|split; [|split]].
  - apply (sb_not_trapped _ _ _ _ Hrob Hts). intros m' us' i p Hr'. rewrite storing_pool in Hr'.
    by apply (storing_whole s da Hapart dss m0 m' us' Hfree).
  - intros i j th th' buf buf' Hi Hj. destruct (decide (i = j)) as [|Hne]; [done|].
    destruct (sb_two_states _ _ _ _ Hrob Hts i j th buf th' buf' Hne Hi Hj) as (mx & ux & Hx & Hxi & Hxj). rewrite storing_pool in Hx.
    by apply (proj1 (storing_excludes s da Hapart dss m0 mx ux Hfree Hx) i j th th').
  - by apply (storing_whole s da Hapart dss m0 m us Hfree).
  - intros i off k buf Hi. destruct (proj2 Hl _ _ _ Hi) as (th' & Hu & [-> ->]%trail_parked).
    destruct (storing_progress s da Hapart dss m0 m us i off k Hfree Hr Hu) as (j & p & Hj & Hnf & _).
    destruct (trails_go_on m ts us j p Hl Hj Hnf) as (p' & buf & Hb & Hor & Hy).
    { apply (proj1 (storing_whole s da Hapart dss m0 m us Hfree Hr) j p Hj). }
    by exists j, p', buf.
Qed.
End OnX86.

(** ** Two threads, a lock word at 0, a 4-byte object at 8 *)
Module BuffersWitness.
Definition m0 : mem := fresh 12.
Definition dss : list (list uint32) := [[to_uint 4 7]; [to_uint 4 9]].
Definition start : mem * list (thread * list pending) := (m0, idle <$> storing_threads 0 8 dss).

Lemma region_unlocked : region_free (T:=uint32) 0 8 m0.
Proof. repeat split. Qed.

(** Thread 0 takes the lock, copies its value and releases the lock, all of
    which stays in its buffer; thread 1 goes to sleep. *)
Definition sched : list sb_move := acts 0 6 ++ acts 1 4.
Definition stop : mem * list (thread * list pending) := sb_run_to first_only sched start.

Lemma buffers_stop_reached : sb_reachable first_only start stop.
Proof. apply sb_run_to_reachable. vm_compute. reflexivity. Qed.

(** Four bytes and the release wait in the buffer, the memory is as it was
    but for the lock word, which is taken; thread 0 is not about to trap and
    the machine can go on. *)
Lemma storage_on_x86_witness :
  length (from_option snd [] (stop.2 !! 0%nat)) = 5%nat /\ rd stop.1 8 4 = rd m0 8 4 /\ ld32 stop.1 0 = 1 /\
  sb_trapped stop 0 = false /\ exists y, sb_step first_only (stop.1, stop.2) y.
Proof.
  split; [vm_compute; reflexivity|]. split; [vm_compute; reflexivity|]. split; [vm_compute; reflexivity|].
  assert (Hi : exists off k buf, stop.2 !! 1%nat = Some (Parked off k, buf)) by (do 3 eexists; vm_compute; reflexivity).
  destruct (storage_on_x86 (T:=uint32) 0 8 ltac:(split; [lia|split; [lia|left; simpl; lia]]) dss m0 stop.1 stop.2
              region_unlocked buffers_stop_reached) as (Hsafe & _ & _ & Hgo).
  split; [by apply sb_not_trapped_false|].
  destruct Hi as (off & k & buf & Hi). destruct (Hgo _ _ _ _ Hi) as (_ & _ & _ & _ & _ & Hy). exact Hy.
Defined.
End BuffersWitness.
