(* ===== verification/Ownership.v ===== *)
(** * Loading only what nobody else writes

    When a pool behaves on a machine with store buffers as it does interleaved:
    each thread loads flags only when it has nothing in its buffer, which shows
    in its text ([tidy]), and loads anything else only while the others leave
    it alone, which a proof by rely and guarantee shows on the way, the
    interleaving in mind ([staying]). *)
From stdpp Require Import relations.
From S2P Require Import Prelude Memory Prog Pool RelyGuarantee StoreBuffer.

(** ** Flags are loaded with an empty buffer *)

(** Whether the buffer may hold something after [x], if it may before. *)
Definition after {B : Set} (d : bool) (x : act B) : bool :=
  if is_fence x then false else match store_of x with [] => d | _ => true end.

Definition permits {B : Set} (d : bool) (x : act B) : Prop :=
  match x with ALoad32 _ _ => d = false | _ => True end.

(** [tidy d p K]: started with something in the buffer if [d], [p] loads flags
    with an empty buffer only, and ends in [K]. *)
Fixpoint tidy {A : Set} (d : bool) (p : prog A) : (A -> bool -> Prop) -> Prop :=
  match p return (A -> bool -> Prop) -> Prop with
  | Ret a => fun K => K a d
  | Act x => fun K => permits d x /\ forall v, K v (after d x)
  | Bind p k => fun K => tidy d p (fun b d' => tidy d' (k b) K)
  | @Iter _ S0 body s => fun K =>
      exists I : S0 -> bool -> Prop, I s d /\
        forall s' d', I s' d' -> tidy d' (body s') (fun r d2 => match r with inl s2 => I s2 d2 | inr a => K a d2 end)
  end.

Lemma tidy_mono {A : Set} (p : prog A) d (K K' : A -> bool -> Prop) :
  tidy d p K -> (forall a d', K a d' -> K' a d') -> tidy d p K'.
Proof.
  revert d K K'. induction p as [A a|A x|A B p IHp k IHk|A S0 body IH s]; intros d K K'; cbn [tidy]; [auto| | |].
  - intros [Hx Hk] HK. auto.
  - intros Hp HK. eapply IHp; [exact Hp|]. intros b d' Hb. eapply IHk; [exact Hb|exact HK].
  - intros (I & Hs & Hb) HK. exists I. split; [done|]. intros s' d' Hi. eapply IH; [by apply Hb|]. intros [s2|a] d2; auto.
Qed.

Lemma tidy_bind_ {A B : Set} d (p : prog B) (k : B -> prog A) K :
  tidy d p (fun b d' => tidy d' (k b) K) -> tidy d (bind_ p k) K.
Proof. by destruct p. Qed.

Lemma tidy_view {A : Set} d (p : prog A) K :
  tidy d p K ->
  match view p with
  | VRet a => K a d
  | VTau p' => tidy d p' K
  | VAct x k => permits d x /\ forall v, tidy (after d x) (k v) K
  end.
Proof.
  revert d K. induction p as [A a|A x|A B p IHp k IHk|A S0 body IH s]; intros d K; cbn [tidy view]; [done|done| |].
  - intros Hp. specialize (IHp d _ Hp). destruct (view p) as [b|p'|C x c]; [by apply IHk|by apply tidy_bind_|].
    destruct IHp as [Hx Hc]. split; [done|]. intros v. by apply tidy_bind_.
  - intros (I & Hs & Hb). apply tidy_bind_. eapply tidy_mono; [by apply Hb|]. intros [s2|a] d2; [|done].
    intros Hi. by exists I.
Qed.

(** What is left to do is tidy, if begun with the right buffer. *)
Definition dirties (d : bool) (p : prog unit) : bool := match view p with VAct x _ => after d x | _ => d end.

Lemma tidy_step d p m K :
  tidy d p K ->
  match local_step p m with
  | Moves _ p' => tidy (dirties d p) p' K
  | Wakes _ _ p' => tidy false p' K
  | Sleeps _ k => forall rc, tidy false (k rc) K
  | _ => True
  end.
Proof.
  intros Hp%tidy_view. unfold local_step, dirties. destruct (view p) as [|q|B x k]; [done..|]. destruct Hp as [_ Hk].
  destruct x; cbn [act_outcome act_step after is_fence store_of] in *; unfold guard_opt; repeat case_match; simplify_eq; auto.
Qed.

Definition anyhow (a : unit) (d : bool) : Prop := True.
Definition some_tidy (p : prog unit) : Prop := exists d, tidy d p anyhow.

Lemma some_tidy_step p m :
  some_tidy p ->
  match local_step p m with
  | Moves _ p' | Wakes _ _ p' => some_tidy p'
  | Sleeps _ k => forall rc, some_tidy (k rc)
  | _ => True
  end.
Proof.
  intros [d Hp]. pose proof (tidy_step d p m anyhow Hp) as H. destruct (local_step p m); try done; [by eexists|intros rc|]; eexists; [apply H|exact H].
Qed.

Lemma dirties_stored d p : stored p <> [] -> fencing p = false -> dirties d p = true.
Proof. unfold stored, fencing, dirties, after. destruct (view p) as [|q|B x k]; [done..|]. intros Hs ->. by destruct (store_of x). Qed.

Lemma dirties_stays p : fencing p = false -> dirties true p = true.
Proof. unfold fencing, dirties, after. destruct (view p) as [|q|B x k]; [done..|]. intros ->. by destruct (store_of x). Qed.

Lemma ran_tidy p m buf q : ran p m buf q -> tidy true p anyhow -> tidy true q anyhow.
Proof.
  induction 1 as [p m|p m m1 p1 buf q Hf E _ IH]; [done|]. intros Hp. apply IH.
  pose proof (tidy_step true p m anyhow Hp) as H. by rewrite E, dirties_stays in H.
Qed.

(** Having run from a store the buffer holds something. *)
Lemma ran_dirty p m buf q :
  ran p m buf q -> some_tidy p -> stored p <> [] -> q = p \/ tidy true q anyhow.
Proof.
  intros Hr [d Hp] Hs. destruct Hr as [p m|p m m1 p1 buf q Hf E Hr]; [by left|right].
  eapply ran_tidy; [exact Hr|]. pose proof (tidy_step d p m anyhow Hp) as H. by rewrite E, dirties_stored in H.
Qed.

(** *** Common programs *)
Lemma tidy_assert d b (K : unit -> bool -> Prop) : K tt d -> tidy d (assert b) K.
Proof. by destruct b; cbn. Qed.

Lemma tidy_memcpy_from d off n (K : list Z -> bool -> Prop) : (forall bs, K bs d) -> tidy d (memcpy_from off n) K.
Proof.
  revert off K. induction n as [|n IH]; intros off K HK; [by apply HK|]. cbn. split; [done|]. intros b. apply IH. auto.
Qed.

Lemma tidy_memcpy_to d off bs (K : unit -> bool -> Prop) : K tt d -> K tt true -> tidy d (memcpy_to off bs) K.
Proof. revert d off. induction bs as [|b bs IH]; intros d off Hd Ht; [done|]. cbn. split; [done|]. intros u. by apply IH. Qed.

Lemma tidy_forever {A : Set} (body : prog (option A)) (K : A -> bool -> Prop) :
  tidy false body (fun r d => match r with Some a => K a d | None => d = false end) -> tidy false (forever body) K.
Proof.
  intros Hb. exists (fun _ d => d = false). split; [done|]. intros [] d ->. cbn. eapply tidy_mono; [exact Hb|]. by intros [a|] d.
Qed.

(** ** Undisturbed loads *)

(** Each byte of the memory with the buffer drained is the buffer's or the
    memory's. *)
Lemma put_lookup w k :
  (exists b, forall m, (k < length m)%nat -> put m w !! k = Some b) \/ (forall m, (k < length m)%nat -> put m w !! k = m !! k).
Proof.
  unfold put, wr. set (o := Z.to_nat (p_off w)). set (bs := p_bytes w).
  destruct (decide (k < o)%nat); [right; intros m Hk; by apply list_lookup_inserts_lt|].
  destruct (decide (o + length bs <= k)%nat); [right; intros m Hk; by apply list_lookup_inserts_ge|].
  destruct (lookup_lt_is_Some_2 bs (k - o)) as [b Hb]; [lia|]. left. exists b. intros m Hk. rewrite list_lookup_inserts by lia. done.
Qed.

Lemma drain_lookup buf k :
  (exists b, forall m, (k < length m)%nat -> drain m buf !! k = Some b) \/
  (forall m, (k < length m)%nat -> drain m buf !! k = m !! k).
Proof.
  induction buf as [|w buf IH]; [by right|]. assert (Hl : forall m, length (put m w) = length m) by (intros m; apply length_wr).
  destruct IH as [[b Hb]|Hb]; [left; exists b; intros m Hk; apply Hb; by rewrite Hl|].
  destruct (put_lookup w k) as [[b Hw]|Hw]; [left; exists b|right]; intros m Hk; cbn; fold (drain (put m w) buf);
    rewrite Hb by (by rewrite Hl); auto.
Qed.

(** A write that leaves a range alone after the buffer leaves it alone before. *)
Lemma drain_put_commute m buf w off n :
  rd (put (drain m buf) w) off n = rd (drain m buf) off n -> rd (drain (put m w) buf) off n = rd (drain m buf) off n.
Proof.
  intros E. apply list_eq. intros i. pose proof (f_equal (fun x => x !! i) E) as Ei. cbn beta in Ei.
  rewrite !rd_lookup in *. case_decide; [|done]. set (k := (Z.to_nat off + i)%nat) in *.
  assert (Hl : length (put m w) = length m) by apply length_wr.
  destruct (decide (k < length m)%nat) as [Hk|Hk].
  - destruct (drain_lookup buf k) as [[b Hb]|Hb]; rewrite !Hb by lia; [done|].
    rewrite Hb in Ei by done. rewrite <- Ei. destruct (put_lookup w k) as [[b Hw]|Hw]; rewrite !Hw; rewrite ?length_drain; try done.
    by rewrite Hb.
  - rewrite !lookup_ge_None_2; rewrite ?length_drain; [done|lia..].
Qed.

(** A write does the same whatever the memory holds. *)
Lemma writes_anywhere p w m m' m1 p1 :
  writes p = [w] -> local_step p m = Moves m1 p1 -> length m' = length m -> exists p2, local_step p m' = Moves (put m' w) p2.
Proof.
  unfold writes, local_step. destruct (view p) as [|q|B x k]; [done..|].
  destruct x; cbn [store_of]; intros Hw; try done; injection Hw as <-; cbn [act_outcome act_step]; unfold guard_opt;
    intros E Hl; rewrite ?(atomic_ok_length m' m), ?(in_bounds_length m' m) by done;
    (first [destruct (atomic_ok m _ _) | destruct (in_bounds m _ _)]; [|done]); eexists; reflexivity.
Qed.

(** A load of bytes that are the same gives the same. *)
Lemma loads_same {B : Set} (x : act B) (k : B -> prog unit) m m' m1 q :
  match x with ALoad64 _ off => rd m' off 8 = rd m off 8 | ALoadB off => rd m' off 1 = rd m off 1 | _ => False end ->
  length m' = length m -> act_outcome x m k = Moves m1 q -> exists m2, act_outcome x m' k = Moves m2 q.
Proof.
  destruct x; try done; cbn [act_outcome act_step]; unfold guard_opt, ld64; intros E Hl;
    rewrite ?(atomic_ok_length m' m), ?(in_bounds_length m' m) by done; (first [destruct (atomic_ok m _ _) | destruct (in_bounds m _ _)]; [|done]); intros [= _ <-];
    eexists; by rewrite E.
Qed.

(** ** Robustness *)
Section Owned.
Context {G : Type} `{FutexKernel}.
Abbreviation st := (G * mem)%type.
Context (inv : st -> Prop) (rely : nat -> st -> st -> Prop) (guar : nat -> event -> st -> st -> Prop)
        (sleeps : nat -> Z -> Z -> st -> Prop) (Q : nat -> unit -> st -> Prop)
        (a many : Z) (may : nat -> bool) (settled : G -> Prop).
Abbreviation leave := (fun i => staying (sleeps i) (rely i)).
Context (Hguar : forall i ev s s', guar i ev s s' -> inv s')
        (Hother : forall i j ev s s', i <> j -> guar i ev s s' -> rely j s s')
        (Hmay : forall i e s, leave i (ToSleep a e) s -> may i = true)
        (Hcalm : forall i g m g' m', guar i Calm (g, m) (g', m') -> settled g' ->
                   settled g /\ ld32 m' a = ld32 m a \/ forall j e, leave j (ToSleep a e) (g', m') -> ld32 m' a = e)
        (Hwoke : forall i off n g m g' m', guar i (Woke off n) (g, m) (g', m') ->
                   settled g' -> settled g \/ (off = a /\ many <= n)).
Abbreviation pool_rg := (pool_rg inv rely guar leave Q a many may settled).
Abbreviation rgi := (fun i p s => rg inv (rely i) (guar i) (leave i) p s (Q i)).

(** A thread that has stores pending and what another may write. *)
Lemma owned_undisturbed i j q pj g m buf w m0 pj' m1 q' :
  rgi i q (g, drain m buf) -> rgi j pj (g, drain m buf) -> inv (g, drain m buf) -> i <> j ->
  tidy true q anyhow -> writes pj = [w] -> local_step pj m0 = Moves m1 pj' -> length m0 = length m ->
  fencing q = false -> forall m2, local_step q (drain m buf) = Moves m2 q' ->
  exists m3, local_step q (drain (put m w) buf) = Moves m3 q'.
Proof using Hother.
  intros Hq Hpj Hi Hne Ht Hw Hj Hl Hf m2 Eq.
  assert (Hlen : length (drain (put m w) buf) = length (drain m buf)) by (rewrite !length_drain; apply length_wr).
  assert (Hrel : exists g', rely i (g, drain m buf) (g', put (drain m buf) w) \/ (g', put (drain m buf) w) = (g, drain m buf)).
  { destruct (writes_anywhere _ _ _ (drain m buf) _ _ Hw Hj) as [p2 E2]; [by rewrite length_drain, Hl|].
    pose proof (rg_local _ _ _ _ _ j pj g _ Hpj Hi) as Hs. rewrite E2 in Hs. destruct Hs as (g' & [Hg|Hg] & _); exists g'; [left|by right].
    by eapply Hother. }
  assert (Hstay : forall off n, leave i (ToLoad off n) (g, drain m buf) ->
    rd (drain (put m w) buf) off n = rd (drain m buf) off n).
  { intros off n Hst. apply drain_put_commute. destruct Hrel as (g' & [Hr|[= _ ->]]); [by apply (Hst _ Hr)|done]. }
  pose proof (rg_step _ _ _ _ _ i q g _ Hq Hi) as Hv. apply tidy_view in Ht.
  destruct (view q) as [v|p'|B x k] eqn:Ev; [by eexists; eapply blind_moves; rewrite ?Ev..|].
  destruct x; try (by eexists; eapply blind_moves; rewrite ?Ev); [by destruct Ht| |]; destruct Hv as [Hst _];
    unfold local_step in Eq |- *; rewrite Ev in Eq |- *; (eapply loads_same; [by apply Hstay|done|exact Eq]).
Qed.

Lemma owned_robust x : pool_rg x -> (forall i th, x.2 !! i = Some th -> keeps some_tidy th) -> robust x.
Proof using Hguar Hother Hmay Hcalm Hwoke.
  intros Hx Htidy m us i j p buf q q' m1 pj w pj' Hre Hne Hi Hs Hran Hj Hw Hpj Hf Hq.
  assert (Hp : some_tidy p).
  { destruct (lookup_lt_is_Some_2 x.2 i) as [th0 H0].
    { rewrite <- (reachable_length _ _ Hre). by eapply lookup_lt_Some. }
    destruct (keeps_reachable _ some_tidy_step _ _ i th0 Hre H0 (Htidy _ _ H0)) as (th & Hth & Hk).
    cbn in Hth. rewrite Hi in Hth. by injection Hth as <-. }
  destruct (ran_dirty _ _ _ _ Hran Hp Hs) as [->|Ht].
  { eexists. eapply blind_moves; [|done|exact Hq|rewrite !length_drain; apply length_wr].
    unfold stored in Hs. destruct (view p) as [|q1|B y k]; [done..|]. by destruct y. }
  assert (Hy : pool_rg (drain m buf, <[i := Running q]> us)).
  { assert (Hr : reachable x (drain m buf, <[i := Running q]> us)) by (eapply rtc_trans; [exact Hre|by apply ran_reachable with p]).
    revert Hr. apply (reachable_inv pool_rg); [by apply pool_rg_step|done]. }
  destruct Hy as (_ & g & Hg & Hts). cbn [fst snd] in *. eapply (owned_undisturbed i j q pj g m buf w m); try done.
  - apply (Hts i (Running q)). apply list_lookup_insert_eq. by eapply lookup_lt_Some.
  - apply (Hts j (Running pj)). by rewrite list_lookup_insert_ne.
Qed.
End Owned.
