(* ===== verification/Image.v ===== *)
(** * Images

    [image.hpp]: the packed image structs, whose pixel count is computed in
    single precision. *)
From S2P Require Import Prelude FlatType Float.

Inductive ImageType : Set := RGB | RGBA | NV12.

(** [static_cast<std::size_t>(float)], undefined out of range. *)
Definition f32_to_size (x : spec_float) : option Z :=
  match x with
  | S754_zero _ => Some 0
  | S754_finite false m e =>
      let v := if e >=? 0 then Z.pos m * 2 ^ e else Z.pos m / 2 ^ (- e) in
      if v <? 2 ^ 64 then Some v else None
  | _ => None
  end.

(** [3.0f], [4.0f], [1.5f] *)
Definition channels (type : ImageType) : spec_float :=
  match type with
  | RGB => S754_finite false 12582912 (-22)
  | RGBA => S754_finite false 8388608 (-21)
  | NV12 => S754_finite false 12582912 (-23)
  end.

(** [static_cast<std::size_t>(WIDTH * HEIGHT * channels(TYPE))] *)
Definition size (width height : Z) (type : ImageType) : option Z :=
  f32_to_size (f32_mul (f32_of_uint (u64 (width * height))) (channels type)).

Record Image (n : nat) := MkImage { timestamp : uint64; frame_number : uint64; data : byte_array n }.
Arguments MkImage {n} _ _ _.
Arguments timestamp {n} _.
Arguments frame_number {n} _.
Arguments data {n} _.

(** [#pragma pack(1)]: the members follow each other without padding. *)
Definition image_bytes {n} (im : Image n) : list Z :=
  le_bytes 8 (uint_val (timestamp im)) ++ le_bytes 8 (uint_val (frame_number im)) ++
  array_bytes (data im).

Definition image_of_bytes (n : nat) (bs : list Z) : Image n :=
  MkImage (to_uint 8 (le_val (take 8 bs))) (to_uint 8 (le_val (take 8 (drop 8 bs))))
          (to_array n (take n (drop 16 bs))).

(** ** Images are flat types *)
Lemma array_bytes_length {n} (x : byte_array n) : length (array_bytes x) = n.
Proof. destruct x as [x Hx]. simpl. by apply bool_decide_unpack in Hx. Qed.

Lemma to_array_bytes {n} (x : byte_array n) : to_array n (array_bytes x) = x.
Proof.
  apply byte_array_eq. simpl. rewrite <- (array_bytes_length x) at 1. apply resize_all.
Qed.

Lemma image_roundtrip {n} (im : Image n) : image_of_bytes n (image_bytes im) = im.
Proof.
  destruct im as [ts fn d]. unfold image_of_bytes, image_bytes. simpl timestamp. simpl frame_number. simpl data.
  f_equal.
  - rewrite take_app_length' by (by rewrite length_le_bytes). apply to_uint_le_bytes.
  - rewrite drop_app_length' by (by rewrite length_le_bytes).
    rewrite take_app_length' by (by rewrite length_le_bytes). apply to_uint_le_bytes.
  - rewrite app_assoc, drop_app_length' by (by rewrite length_app, !length_le_bytes).
    rewrite take_ge by (by rewrite array_bytes_length). apply to_array_bytes.
Qed.

Program Definition image_flat (n : nat) (Hn : 0 < Z.of_nat n < 2 ^ 40) : FlatType (Image n) := {|
  sizeof := (16 + n)%nat;
  align_log := 0;
  to_bytes := image_bytes;
  of_bytes := image_of_bytes n;
  value_init := MkImage (to_uint 8 0) (to_uint 8 0) (to_array n []);
|}.
Next Obligation.
  intros n Hn im. unfold image_bytes. rewrite !length_app, !length_le_bytes, array_bytes_length. done.
Qed.
Next Obligation. intros n Hn im. apply image_roundtrip. Qed.
Next Obligation. intros. lia. Qed.
Next Obligation. intros. lia. Qed.
Next Obligation. intros. lia. Qed.
Next Obligation. intros. apply Z.mod_1_r. Qed.

(** ** The pixel count *)

(** [channels] as a fraction [num * 2 ^ k]. *)
Definition channel_num (type : ImageType) : Z := match type with RGBA => 1 | _ => 3 end.
Definition channel_exp (type : ImageType) : Z := match type with RGB => 0 | RGBA => 2 | NV12 => -1 end.

Lemma channels_scaled type : channels type = scaled 24 (channel_num type) (channel_exp type).
Proof. by destruct type. Qed.

Lemma Zdigits2_small z : 0 < z < 2 ^ 24 -> Zdigits2 z <= 24.
Proof.
  intros Hz. pose proof (Zdigits2_bounds z ltac:(lia)).
  assert (Zdigits2 z - 1 < 24); [|lia]. apply (Z.pow_lt_mono_r_iff 2); lia.
Qed.

Lemma f32_to_size_scaled z k :
  0 < z < 2 ^ 24 -> -1 <= k <= 2 ->
  f32_to_size (scaled 24 z k) = Some (if k >=? 0 then z * 2 ^ k else z / 2 ^ (- k)).
Proof.
  intros Hz Hk. pose proof (Zdigits2_small z Hz) as Hd. pose proof (Zdigits2_bounds z ltac:(lia)) as [Hd1 _].
  destruct (normalised_digits 24 ltac:(lia) z ltac:(lia) Hd) as [Hp _].
  unfold scaled, f32_to_size. rewrite Z2Pos.id by done. set (d := Zdigits2 z) in *.
  assert (Hpd : 0 < 2 ^ (24 - d)) by (apply Z.pow_pos_nonneg; lia).
  assert (Hv : (if d - 24 + k >=? 0 then z * 2 ^ (24 - d) * 2 ^ (d - 24 + k) else z * 2 ^ (24 - d) / 2 ^ (- (d - 24 + k)))
               = (if k >=? 0 then z * 2 ^ k else z / 2 ^ (- k))).
  { destruct (d - 24 + k >=? 0) eqn:E1, (k >=? 0) eqn:E2; zbool; try lia.
    - rewrite <- Z.mul_assoc, <- Z.pow_add_r by lia. do 2 f_equal. lia.
    - replace (24 - d) with (k + - (d - 24 + k)) by lia. rewrite Z.pow_add_r, Z.mul_assoc by lia.
      apply Z.div_mul. apply Z.pow_nonzero; lia.
    - replace (- (d - 24 + k)) with (24 - d + - k) by lia. rewrite Z.pow_add_r by lia.
      assert (0 < 2 ^ (- k)) by (apply Z.pow_pos_nonneg; lia).
      rewrite (Z.mul_comm (2 ^ (24 - d))), Z.div_mul_cancel_r by lia. done. }
  rewrite Hv. rewrite (proj2 (Z.ltb_lt _ _)); [done|]. destruct (k >=? 0) eqn:E; zbool.
  - assert (2 ^ k <= 2 ^ 2) by (apply Z.pow_le_mono_r; lia). nia.
  - assert (0 < 2 ^ (- k)) by (apply Z.pow_pos_nonneg; lia). assert (z / 2 ^ (- k) <= z); [|lia].
    apply Z.div_le_upper_bound; [done|]. nia.
Qed.

(** C27: The pixel byte count, computed in single precision, is exact for RGB,
    RGBA and NV12 whenever the scaled pixel count has at most 24 bits. *)
Theorem image_size_exact (width height : Z) (type : ImageType) :
  0 < width -> 0 < height -> channel_num type * (width * height) < 2 ^ 24 ->
  size width height type =
    Some (match type with
          | RGB => 3 * (width * height)
          | RGBA => 4 * (width * height)
          | NV12 => 3 * (width * height) / 2
          end).
Proof.
  intros Hw Hh Hs. set (p := width * height) in *. assert (Hp : 0 < p) by (unfold p; nia).
  assert (Hn : 1 <= channel_num type <= 3) by (destruct type; simpl; lia).
  unfold size. fold p. rewrite u64_small by nia. unfold f32_of_uint, f32_mul.
  rewrite channels_scaled, (of_uint_exact 24 128) by (try (apply Zdigits2_small); unfold emin; nia).
  pose proof (Zdigits2_small (p * channel_num type) ltac:(nia)) as Hd.
  pose proof (Zdigits2_bounds (p * channel_num type) ltac:(nia)) as [Hd1 _].
  rewrite (mul_exact 24 128) by (try done; unfold emin; destruct type; simpl in *; lia).
  rewrite f32_to_size_scaled by (destruct type; simpl in *; lia).
  destruct type; simpl; f_equal; try lia. f_equal. lia.
Qed.

Lemma image_size_exact_witness : size 1920 1080 NV12 = Some (3 * (1920 * 1080) / 2).
Proof. apply (image_size_exact 1920 1080 NV12); simpl; lia. Defined.

(** The aliases: width, height, type. *)
Definition ImageFHD_RGB : Z * Z * ImageType := (1920, 1080, RGB).
Definition ImageFHD_RGBA : Z * Z * ImageType := (1920, 1080, RGBA).
Definition ImageFHD_NV12 : Z * Z * ImageType := (1920, 1080, NV12).
Definition Image4K_RGB : Z * Z * ImageType := (3840, 2160, RGB).
Definition Image4K_RGBA : Z * Z * ImageType := (3840, 2160, RGBA).
Definition Image4K_NV12 : Z * Z * ImageType := (3840, 2160, NV12).

(** [sizeof]: two 64-bit members and the data. *)
Definition image_sizeof (alias : Z * Z * ImageType) : option Z :=
  let '(w, h, type) := alias in match size w h type with Some n => Some (n + 2 * 8) | None => None end.

(** The static assertions, and the two aliases without one; the 4K images are
    beyond the bound of the theorem. *)
Lemma alias_sizes :
  image_sizeof ImageFHD_RGB = Some (1920 * 1080 * 3 + 2 * 8) /\
  image_sizeof ImageFHD_RGBA = Some (1920 * 1080 * 4 + 2 * 8) /\
  image_sizeof ImageFHD_NV12 = Some (1920 * 1080 * 3 / 2 + 2 * 8) /\
  image_sizeof Image4K_RGB = Some (3840 * 2160 * 3 + 2 * 8) /\
  image_sizeof Image4K_RGBA = Some (3840 * 2160 * 4 + 2 * 8) /\
  image_sizeof Image4K_NV12 = Some (3840 * 2160 * 3 / 2 + 2 * 8).
Proof. repeat split; vm_compute; reflexivity. Qed.

(** Beyond it the count may be short of the pixels. *)
Lemma image_size_inexact : size 4097 4097 RGB = Some (4097 * 4097 * 3 - 3).
Proof. vm_compute. reflexivity. Qed.
