(* ===== verification/Lifecycle.v ===== *)
(** * Lifecycle: the header of an owned segment, liveness, directory queries

    [shm_lifecycle.hpp].  What the system answers ([kill], [clock_gettime],
    [stat], [unlink], [readdir]) is a parameter. *)
From Stdlib Require Import Ascii String.
From stdpp Require Import strings.
From S2P Require Import Prelude Memory Prog FlatType Seqlock Stamped.

(** ** [int32_t] *)
Record int32 := Int32 {
  int_val : Z;
  int_ok : Is_true (bool_decide (- 2 ^ 31 <= int_val < 2 ^ 31))
}.

Lemma int32_range (x : int32) : - 2 ^ 31 <= int_val x < 2 ^ 31.
Proof. destruct x as [z Hz]. simpl. by apply bool_decide_unpack in Hz. Qed.

Lemma int32_eq (x y : int32) : int_val x = int_val y -> x = y.
Proof. destruct x as [x Hx], y as [y Hy]. simpl. intros ->. f_equal. apply proof_irrel. Qed.

Lemma i32_range z : - 2 ^ 31 <= i32 z < 2 ^ 31.
Proof. unfold i32. pose proof (u32_range z). zcase; lia. Qed.

(** [static_cast<int32_t>]: modulo [2 ^ 32]. *)
Definition to_int32 (z : Z) : int32 := Int32 (i32 z) (bool_decide_pack _ (i32_range z)).

Lemma to_int32_u32 (x : int32) : to_int32 (u32 (int_val x)) = x.
Proof.
  apply int32_eq. simpl. pose proof (int32_range x). unfold i32.
  rewrite (u32_small (u32 _)) by apply u32_range. unfold u32, wrap.
  destruct (decide (0 <= int_val x)).
  - rewrite Z.mod_small by lia. zcase; lia.
  - replace (int_val x mod 2 ^ 32) with (int_val x + 2 ^ 32).
    + zcase; lia.
    + rewrite <- (Z.mod_add _ 1) by lia. symmetry. apply Z.mod_small. lia.
Qed.

(** ** The header *)
Record ShmHeader := MkHeader {
  magic : uint32;
  version : uint32;
  heartbeat_ns : uint64;
  writer_pid : int32;
  reserved : uint32 * uint32 * uint32
}.

Definition SHM_HEADER_MAGIC : Z := 1397247304.   (* 0x5348'4D48, "SHMH" *)
Definition SHM_HEADER_VERSION : Z := 1.

Definition header_bytes (h : ShmHeader) : list Z :=
  let '(r0, r1, r2) := reserved h in
  le_bytes 4 (uint_val (magic h)) ++ le_bytes 4 (uint_val (version h)) ++
  le_bytes 8 (uint_val (heartbeat_ns h)) ++ le_bytes 4 (u32 (int_val (writer_pid h))) ++
  le_bytes 4 (uint_val r0) ++ le_bytes 4 (uint_val r1) ++ le_bytes 4 (uint_val r2).

Definition field (off n : nat) (bs : list Z) : Z := le_val (take n (drop off bs)).

Definition header_of_bytes (bs : list Z) : ShmHeader :=
  MkHeader (to_uint 4 (field 0 4 bs)) (to_uint 4 (field 4 4 bs)) (to_uint 8 (field 8 8 bs))
           (to_int32 (field 16 4 bs))
           (to_uint 4 (field 20 4 bs), to_uint 4 (field 24 4 bs), to_uint 4 (field 28 4 bs)).

Lemma length_header_bytes h : length (header_bytes h) = 32%nat.
Proof.
  unfold header_bytes. destruct (reserved h) as [[r0 r1] r2].
  by rewrite !length_app, !length_le_bytes.
Qed.

Lemma header_of_header_bytes h : header_of_bytes (header_bytes h) = h.
Proof.
  destruct h as [mg v hb pid [[r0 r1] r2]].
  transitivity (MkHeader (to_uint 4 (le_val (le_bytes 4 (uint_val mg))))
                         (to_uint 4 (le_val (le_bytes 4 (uint_val v))))
                         (to_uint 8 (le_val (le_bytes 8 (uint_val hb))))
                         (to_int32 (le_val (le_bytes 4 (u32 (int_val pid)))))
                         (to_uint 4 (le_val (le_bytes 4 (uint_val r0))),
                          to_uint 4 (le_val (le_bytes 4 (uint_val r1))),
                          to_uint 4 (le_val (le_bytes 4 (uint_val r2))))); [reflexivity|].
  rewrite !to_uint_le_bytes, le_val_bytes, Z.mod_small by apply u32_range.
  by rewrite to_int32_u32.
Qed.

(** [static_assert(FlatType<ShmHeader>)], [static_assert(sizeof(ShmHeader) == 32)]. *)
#[export] Program Instance header_flat : FlatType ShmHeader := {|
  sizeof := 32;
  align_log := 3;
  to_bytes := header_bytes;
  of_bytes := header_of_bytes;
  value_init := MkHeader (to_uint 4 0) (to_uint 4 0) (to_uint 8 0) (to_int32 0) (to_uint 4 0, to_uint 4 0, to_uint 4 0)
|}.
Next Obligation. apply length_header_bytes. Qed.
Next Obligation. apply header_of_header_bytes. Qed.
Next Obligation. lia. Qed.
Next Obligation. lia. Qed.
Next Obligation. lia. Qed.
Next Obligation. reflexivity. Qed.

(** ** Is the writer alive?

    [kill pid] is the return code of [kill(pid, 0)], [now] the answer of
    [clock_gettime]. *)
Definition is_writer_alive (kill : Z -> Z) (now : timespec) (header : ShmHeader) (max_stale_ns : Z) : bool :=
  if negb (uint_val (magic header) =? SHM_HEADER_MAGIC) then false
  else if negb (kill (int_val (writer_pid header)) =? 0) then false
  else if max_stale_ns >? 0 then
    let now_ns := monotonic_now_ns now in
    if u64 (now_ns - uint_val (heartbeat_ns header)) >? max_stale_ns then false else true
  else true.

(** ** The owned segment *)
Module OwnedShm.
Section Owned.
Context (T : Set) `{FlatType T}.
Definition header_offset : Z := 0.
Definition data_offset : Z := align_up 32 (alignof T).
Definition total_size : Z := u64 (data_offset + Z.of_nat (sizeof T)).

(** Plain stores to the members of the header, at their offsets. *)
Definition set_magic (v : Z) : prog unit := memcpy_to 0 (le_bytes 4 v).
Definition set_version (v : Z) : prog unit := memcpy_to 4 (le_bytes 4 v).
Definition set_heartbeat (v : Z) : prog unit := memcpy_to 8 (le_bytes 8 v).
Definition set_writer_pid (v : Z) : prog unit := memcpy_to 16 (le_bytes 4 (u32 v)).
Definition clear_reserved : prog unit := memcpy_to 20 (replicate 12 0).

Definition update_heartbeat (now : timespec) : prog unit := set_heartbeat (monotonic_now_ns now).

(** The constructor, on the mapping [shm::Shm] provides (new or existing). *)
Definition OwnedShm (pid : Z) (now : timespec) : prog unit :=
  set_magic SHM_HEADER_MAGIC ;;;
  set_version SHM_HEADER_VERSION ;;;
  set_writer_pid (i32 pid) ;;;
  clear_reserved ;;;
  update_heartbeat now ;;;
  memcpy_to data_offset (replicate (sizeof T) 0).

Definition header (m : mem) : ShmHeader := of_bytes (rd m header_offset 32).
Definition data (m : mem) : T := of_bytes (rd m data_offset (sizeof T)).
End Owned.
End OwnedShm.

Section Owned.
Context {T : Set} `{FlatType T}.
Abbreviation data_offset := (OwnedShm.data_offset T).

Lemma owned_offset_bounds : 32 <= data_offset < 32 + 4096 /\ data_offset mod alignof T = 0.
Proof using Type.
  pose proof (alignof_bounds (T:=T)). pose proof (align_up_T (T:=T) 32 ltac:(lia)) as [Hb Hm].
  unfold OwnedShm.data_offset. lia.
Qed.

Lemma owned_size : OwnedShm.total_size T = data_offset + Z.of_nat (sizeof T).
Proof using Type.
  pose proof owned_offset_bounds. pose proof (sizeof_small (T:=T)).
  apply u64_small. lia.
Qed.

(** The header the constructor leaves. *)
Definition fresh_header (pid : Z) (now : timespec) : ShmHeader :=
  MkHeader (to_uint 4 SHM_HEADER_MAGIC) (to_uint 4 SHM_HEADER_VERSION)
           (to_uint 8 (monotonic_now_ns now)) (to_int32 pid) (to_uint 4 0, to_uint 4 0, to_uint 4 0).

Lemma le_bytes_mod n v : le_bytes n (v mod 2 ^ (8 * Z.of_nat n)) = le_bytes n v.
Proof using Type.
  revert v. induction n as [|n IH]; intros v; [done|]. cbn [le_bytes].
  replace (8 * Z.of_nat (S n)) with (8 + 8 * Z.of_nat n) by lia.
  rewrite Z.pow_add_r by lia. change (2 ^ 8) with 256.
  assert (0 < 2 ^ (8 * Z.of_nat n)) by (apply Z.pow_pos_nonneg; lia).
  rewrite Z.rem_mul_r by lia. f_equal.
  - rewrite Z.add_mod, Z.mul_comm, Z.mod_mul, Z.add_0_r, !Z.mod_mod by lia. done.
  - rewrite (Z.mul_comm 256), Z.div_add, (Z.div_small (v mod 256)) by (try apply Z.mod_pos_bound; lia).
    apply IH.
Qed.

Lemma fresh_header_bytes pid now :
  header_bytes (fresh_header pid now) =
  le_bytes 4 SHM_HEADER_MAGIC ++ le_bytes 4 SHM_HEADER_VERSION ++
  le_bytes 8 (monotonic_now_ns now) ++ le_bytes 4 (u32 (i32 pid)) ++ replicate 12 0.
Proof using Type.
  unfold header_bytes, fresh_header. simpl reserved. cbn [magic version heartbeat_ns writer_pid].
  rewrite !uint_val_to_uint. unfold wrap. rewrite !le_bytes_mod. reflexivity.
Qed.

Lemma rd_wr_keep m off n off' bs k :
  0 <= off -> 0 <= off' -> disjoint off n off' (length bs) -> rd m off n = k -> rd (wr m off' bs) off n = k.
Proof using Type. intros. by rewrite rd_wr_disjoint. Qed.

(** Every member where it belongs makes the header. *)
Record members (pid : Z) (now : timespec) (m : mem) : Prop := {
  at_magic : rd m 0 4 = le_bytes 4 SHM_HEADER_MAGIC;
  at_version : rd m 4 4 = le_bytes 4 SHM_HEADER_VERSION;
  at_heartbeat : rd m 8 8 = le_bytes 8 (monotonic_now_ns now);
  at_writer_pid : rd m 16 4 = le_bytes 4 (u32 (i32 pid));
  at_reserved : rd m 20 12 = replicate 12 0
}.

Lemma rd_header m pid now : members pid now m -> OwnedShm.header m = fresh_header pid now.
Proof using Type.
  intros [H0 H1 H2 H3 H4]. unfold OwnedShm.header, OwnedShm.header_offset. simpl of_bytes.
  rewrite <- (header_of_header_bytes (fresh_header pid now)). f_equal.
  rewrite fresh_header_bytes, <- H0, <- H1, <- H2, <- H3, <- H4.
  change 32%nat with (4 + (4 + (8 + (4 + 12))))%nat. rewrite !rd_app by lia. reflexivity.
Qed.

(** A store to one place read back there, or not seen elsewhere. *)
Ltac member_of Hb :=
  repeat first [ apply rd_wr_same'; [by rewrite ?length_replicate|apply Hb; [by rewrite ?length_wr|lia|simpl; lia]]
               | apply rd_wr_keep; [lia|lia|unfold disjoint in *; simpl length in *; lia|]
               | assumption ].

Lemma region_bounds (m m0 : mem) off n :
  Z.of_nat (length m) = OwnedShm.total_size T -> length m0 = length m ->
  0 <= off -> off + Z.of_nat n <= data_offset + Z.of_nat (sizeof T) -> in_bounds m0 off n = true.
Proof using Type. intros Hlen E ? ?. rewrite owned_size in Hlen. apply in_bounds_intro; [done|rewrite E; lia]. Qed.

Lemma wp_construct rc t (m : mem) (pid : Z) (now : timespec) Q :
  Z.of_nat (length m) = OwnedShm.total_size T ->
  (forall t' m' l, members pid now m' -> rd m' data_offset (sizeof T) = replicate (sizeof T) 0 ->
     length m' = length m -> Q tt t' m' l) ->
  wp (quiet rc) (OwnedShm.OwnedShm T pid now) t m Q.
Proof using Type.
  intros Hlen HQ. pose proof owned_offset_bounds as [Ho _].
  unfold OwnedShm.OwnedShm, OwnedShm.set_magic, OwnedShm.set_version, OwnedShm.set_writer_pid,
    OwnedShm.clear_reserved, OwnedShm.update_heartbeat, OwnedShm.set_heartbeat.
  pose proof (fun m0 off n => region_bounds m m0 off n Hlen) as Hb.
  do 5 (apply wp_bind, wp_memcpy_to; [apply Hb; [by rewrite ?length_wr|lia|simpl; lia]|]; intros ? ? _).
  apply wp_memcpy_to; [apply Hb; [by rewrite ?length_wr|lia|rewrite length_replicate; lia]|]. intros ? ? _.
  assert (Hd : disjoint 0 32 data_offset (length (replicate (sizeof T) 0))) by (unfold disjoint; lia).
  apply HQ; [split; member_of Hb| |by rewrite !length_wr].
  apply rd_wr_same'; [by rewrite length_replicate|]. apply Hb; [by rewrite ?length_wr|lia|lia].
Qed.

(** C24: The OwnedShm constructor, on a mapping with arbitrary old contents,
    terminates within bounds and leaves a header that decodes to magic,
    version, clock time, pid and zero reserved words, and all-zero data. *)
Theorem owned_shm_initialises rc t (m : mem) (pid : Z) (now : timespec) :
  Z.of_nat (length m) = OwnedShm.total_size T ->
  wp (quiet rc) (OwnedShm.OwnedShm T pid now) t m
     (fun _ _ m' _ => OwnedShm.header m' = fresh_header pid now /\
                      rd m' data_offset (sizeof T) = replicate (sizeof T) 0 /\ length m' = length m).
Proof using Type.
  intros Hlen. apply wp_construct; [done|]. intros t' m' l Hm Hd Hl. split; [by apply rd_header|done].
Qed.

(** The owner's life: construct, assign the data, refresh the heartbeat. *)
Definition owned_life (pid : Z) (now : timespec) (d : T) (beat : timespec) : prog unit :=
  OwnedShm.OwnedShm T pid now ;;;
  memcpy_to data_offset (to_bytes d) ;;;
  OwnedShm.update_heartbeat beat.

(** After construction, an assignment to the data and update_heartbeat,
    the header decodes to the new heartbeat with everything else as
    constructed and the data is the value assigned. *)
Theorem heartbeat_refreshes rc t (m : mem) (pid : Z) (now beat : timespec) (d : T) :
  Z.of_nat (length m) = OwnedShm.total_size T ->
  wp (quiet rc) (owned_life pid now d beat) t m
     (fun _ _ m' _ => OwnedShm.header m' = fresh_header pid beat /\ OwnedShm.data T m' = d).
Proof using Type.
  intros Hlen. pose proof owned_offset_bounds as [Ho _]. unfold owned_life.
  apply wp_bind, wp_construct; [done|]. intros t1 m1 l1 [H0 H1 H2 H3 H4] _ Hl1.
  pose proof (fun m0 off n => region_bounds m m0 off n Hlen) as Hb.
  assert (Hd : disjoint 0 32 data_offset (length (to_bytes d))) by (rewrite length_to_bytes; unfold disjoint; lia).
  apply wp_bind, wp_memcpy_to; [apply Hb; [done|lia|rewrite length_to_bytes; lia]|]. intros t2 l2 _.
  apply wp_memcpy_to; [apply Hb; [by rewrite ?length_wr|lia|simpl; lia]|]. intros t3 l3 _. split.
  - apply rd_header. assert (Hb' : forall m0 off n, length m0 = length m1 -> 0 <= off ->
      off + Z.of_nat n <= data_offset + Z.of_nat (sizeof T) -> in_bounds m0 off n = true)
      by (intros; apply Hb; [congruence|done|done]).
    split; member_of Hb'.
  - unfold OwnedShm.data. rewrite rd_wr_disjoint; [|lia|lia|unfold disjoint in *; simpl length; lia].
    rewrite rd_wr_same' with (bs := to_bytes d); [apply of_to_bytes|by rewrite length_to_bytes|apply Hb; [done|lia|lia]].
Qed.
End Owned.

(** ** Liveness *)

Definition nanoseconds (ts : timespec) : Z := tv_sec ts * 1000000000 + tv_nsec ts.

(** Times of the clock: normalised, and less than 584 years. *)
Definition clock_time (ts : timespec) : Prop := timespec_ok ts /\ nanoseconds ts < 2 ^ 64.

Lemma monotonic_nanoseconds ts : clock_time ts -> monotonic_now_ns ts = nanoseconds ts /\ 0 <= nanoseconds ts < 2 ^ 64.
Proof.
  intros [Hok Hlt]. split; [by apply monotonic_now_exact|]. destruct Hok. unfold nanoseconds in *. lia.
Qed.

Lemma alive_heartbeat kill now pid beat max_stale_ns :
  clock_time now -> clock_time beat -> 0 <= max_stale_ns < 2 ^ 64 ->
  is_writer_alive kill now (fresh_header pid beat) max_stale_ns =
  (kill (i32 pid) =? 0) &&
  ((max_stale_ns =? 0) || (u64 (nanoseconds now - nanoseconds beat) <=? max_stale_ns)).
Proof.
  intros Hn Hb Hm. destruct (monotonic_nanoseconds now Hn) as [En Rn].
  destruct (monotonic_nanoseconds beat Hb) as [Eb Rb].
  unfold is_writer_alive, fresh_header. cbn [magic heartbeat_ns writer_pid int_val to_int32].
  rewrite !uint_val_to_uint, En, Eb. change (wrap _ SHM_HEADER_MAGIC =? SHM_HEADER_MAGIC) with true.
  cbn [negb]. change (8 * Z.of_nat 8) with 64. rewrite (wrap_small 64 (nanoseconds beat)) by lia.
  destruct (kill (i32 pid) =? 0); cbn [negb andb]; [|done].
  destruct (max_stale_ns >? 0) eqn:E0; zbool.
  - rewrite (proj2 (Z.eqb_neq _ _)) by lia. cbn [orb]. rewrite Z.gtb_ltb.
    destruct (Z.ltb_spec max_stale_ns (u64 (nanoseconds now - nanoseconds beat))), (Z.leb_spec (u64 (nanoseconds now - nanoseconds beat)) max_stale_ns); lia || done.
  - rewrite (proj2 (Z.eqb_eq _ _)) by lia. done.
Qed.

(** C23: For a header written by OwnedShm, is_writer_alive holds exactly when
    kill reports the process and either no staleness bound is asked for or the
    exact age of the last heartbeat is within it, for heartbeats not in the
    reader's future. *)
Theorem writer_alive_exact kill now pid beat max_stale_ns :
  clock_time now -> clock_time beat -> 0 <= max_stale_ns < 2 ^ 64 -> nanoseconds beat <= nanoseconds now ->
  is_writer_alive kill now (fresh_header pid beat) max_stale_ns = true <->
  kill (i32 pid) = 0 /\ (max_stale_ns = 0 \/ nanoseconds now - nanoseconds beat <= max_stale_ns).
Proof.
  intros Hn Hb Hm Hle. rewrite alive_heartbeat by done.
  destruct (monotonic_nanoseconds now Hn) as [_ Rn]. destruct (monotonic_nanoseconds beat Hb) as [_ Rb].
  rewrite u64_small by lia. rewrite andb_true_iff, orb_true_iff, !Z.eqb_eq, Z.leb_le. done.
Qed.

Lemma writer_alive_exact_witness :
  is_writer_alive (fun _ => 0) (Timespec 7 0) (fresh_header 42 (Timespec 5 500)) 3000000000 = true <->
  0 = 0 /\ (3000000000 = 0 \/ nanoseconds (Timespec 7 0) - nanoseconds (Timespec 5 500) <= 3000000000).
Proof.
  apply (writer_alive_exact (fun _ => 0) (Timespec 7 0) 42 (Timespec 5 500) 3000000000);
    unfold clock_time, timespec_ok, nanoseconds; simpl; lia.
Defined.

(** A heartbeat that lands between the reader's clock call and its load of
    the header is in the reader's future: the unsigned age wraps, and the
    live writer is taken for dead. *)
Lemma heartbeat_ahead_is_dead kill now pid beat max_stale_ns :
  clock_time now -> clock_time beat -> nanoseconds now < nanoseconds beat ->
  0 < max_stale_ns < 2 ^ 64 - (nanoseconds beat - nanoseconds now) ->
  is_writer_alive kill now (fresh_header pid beat) max_stale_ns = false.
Proof.
  intros Hn Hb Hlt Hm. rewrite alive_heartbeat by (done || lia).
  destruct (monotonic_nanoseconds now Hn) as [_ Rn]. destruct (monotonic_nanoseconds beat Hb) as [_ Rb].
  apply andb_false_iff. right. apply orb_false_iff. split; [apply Z.eqb_neq; lia|]. apply Z.leb_gt.
  unfold u64, wrap. rewrite <- (Z.mod_add _ 1) by lia. rewrite Z.mod_small by lia. lia.
Qed.

Module OwnedWitness.
Definition rc (t : nat) : Z * Z := (0, 0).
Definition m0 : mem := replicate 40 255.

(** A stale mapping full of ones. *)
Lemma owned_shm_initialises_witness :
  wp (quiet rc) (OwnedShm.OwnedShm uint64 42 (Timespec 5 500)) 0 m0
     (fun _ _ m' _ => OwnedShm.header m' = fresh_header 42 (Timespec 5 500) /\
                      rd m' (OwnedShm.data_offset uint64) (sizeof uint64) = replicate (sizeof uint64) 0 /\
                      length m' = length m0).
Proof. apply (owned_shm_initialises rc 0 m0 42 (Timespec 5 500)). reflexivity. Defined.

Lemma heartbeat_refreshes_witness :
  wp (quiet rc) (owned_life 42 (Timespec 5 500) (to_uint 8 77) (Timespec 6 0)) 0 m0
     (fun _ _ m' _ => OwnedShm.header m' = fresh_header 42 (Timespec 6 0) /\ OwnedShm.data uint64 m' = to_uint 8 77).
Proof. apply (heartbeat_refreshes rc 0 m0 42 (Timespec 5 500) (Timespec 6 0) (to_uint 8 77)). reflexivity. Defined.
End OwnedWitness.

(** ** The directory of segments *)

(** [path.c_str()]: the system sees the string up to its first NUL. *)
Fixpoint c_str (s : string) : string :=
  match s with
  | EmptyString => EmptyString
  | String a s => if Ascii.eqb a Ascii.zero then EmptyString else String a (c_str s)
  end.

(** [std::string path = "/dev/shm/" + name; path.c_str()] *)
Definition at_path (name : string) : string := c_str ("/dev/shm/" +:+ name).

(** The names a directory entry can have: not empty, no slash, no NUL; the
    directory itself and its parent apart. *)
Fixpoint plain (s : string) : bool :=
  match s with
  | EmptyString => true
  | String a s => negb (Ascii.eqb a "/"%char) && negb (Ascii.eqb a Ascii.zero) && plain s
  end.
Definition component (name : string) : bool :=
  plain name && negb (String.eqb name "" || String.eqb name "." || String.eqb name "..").

(** What the code relies on of the system, for names that are one component.
    [stat] may fail for reasons of its own (permissions, a dangling link):
    only its success says something.  [unlink] may fail too, and then changes
    nothing; if it succeeds the name was there and it alone is gone.
    [readdir] lists names that are there, each once; it ends with the last one
    or with an error, which the code does not tell apart. *)
Class Devices := {
  dev : Set;
  stat : dev -> string -> Z;
  unlink : dev -> string -> Z * dev;
  readdir : dev -> option (list string * bool);   (* [None]: [opendir] failed; [true]: the end *)
  present : dev -> string -> Prop;
  stat_found d name : component name = true -> stat d (at_path name) = 0 -> present d name;
  unlink_done d name d' :
    component name = true -> unlink d (at_path name) = (0, d') ->
    present d name /\ forall other, present d' other <-> present d other /\ other <> name;
  unlink_failed d path rc d' : rc <> 0 -> unlink d path = (rc, d') -> forall other, present d' other <-> present d other;
  readdir_names d l b :
    readdir d = Some (l, b) ->
    NoDup l /\ forall name, name ∈ l -> name = "."%string \/ name = ".."%string \/ component name = true /\ present d name;
  readdir_end d l name : readdir d = Some (l, true) -> component name = true -> present d name -> name ∈ l
}.

Section Directory.
Context `{Devices}.
Local Open Scope string_scope.

Definition shm_exists (d : dev) (name : string) : bool := Z.eqb (stat d (at_path name)) 0.

Definition shm_remove (d : dev) (name : string) : bool * dev :=
  let '(rc, d') := unlink d (at_path name) in (Z.eqb rc 0, d').

(** [while ((entry = readdir(dir)) != nullptr)] *)
Fixpoint list_loop (prefix : string) (entries result : list string) : list string :=
  match entries with
  | [] => result
  | name :: entries =>
      if (name =? ".") || (name =? "..") then list_loop prefix entries result
      else if (prefix =? "") || String.prefix prefix name then list_loop prefix entries (result ++ [name])
      else list_loop prefix entries result
  end.

Definition shm_list (d : dev) (prefix : string) : list string :=
  match readdir d with
  | None => []
  | Some (entries, _) => list_loop prefix entries []
  end.

(** lifecycle_example.cpp: remove every segment with a prefix. *)
Fixpoint remove_all (d : dev) (names : list string) : dev :=
  match names with
  | [] => d
  | seg :: names => remove_all (shm_remove d seg).2 names
  end.
Definition cleanup_stale (d : dev) (prefix : string) : dev := remove_all d (shm_list d prefix).

(** *** Listing *)
Definition wanted (prefix name : string) : Prop := name <> "." /\ name <> ".." /\ String.prefix prefix name = true.

#[local] Instance wanted_dec prefix name : Decision (wanted prefix name).
Proof using Type. unfold wanted. apply _. Defined.

Lemma prefix_empty name : String.prefix "" name = true.
Proof using Type. by destruct name. Qed.

Lemma list_loop_filter prefix entries : forall result, list_loop prefix entries result = (result ++ filter (wanted prefix) entries)%list.
Proof using Type.
  induction entries as [|name entries IH]; intros result; cbn [list_loop]; [by rewrite app_nil_r|].
  rewrite filter_cons. destruct (String.eqb_spec name "."), (String.eqb_spec name ".."); cbn [orb].
  1-3: rewrite IH; rewrite decide_False; [done|unfold wanted; tauto].
  destruct (String.eqb_spec prefix "") as [->|Hp]; cbn [orb].
  - rewrite IH, decide_True by (unfold wanted; by rewrite prefix_empty). by rewrite <- app_assoc.
  - destruct (String.prefix prefix name) eqn:E; rewrite IH.
    + rewrite decide_True by done. by rewrite <- app_assoc.
    + rewrite decide_False; [done|]. unfold wanted. by rewrite E; intros (_ & _ & ?).
Qed.

Lemma component_wanted name : component name = true -> wanted "" name.
Proof using Type.
  unfold component, wanted. rewrite andb_true_iff, negb_true_iff, !orb_false_iff, !String.eqb_neq, prefix_empty. tauto.
Qed.

(** What is listed is there and has the prefix; if the scan came to its end,
    everything that is. *)
Lemma shm_list_sound d prefix name :
  name ∈ shm_list d prefix -> component name = true /\ present d name /\ String.prefix prefix name = true.
Proof using Type.
  unfold shm_list. destruct (readdir d) as [[l b]|] eqn:E; [|by intros ?%not_elem_of_nil].
  rewrite list_loop_filter, app_nil_l, list_elem_of_filter. intros [(Hd & Hdd & Hp) Hl].
  destruct (proj2 (readdir_names d l b E) name Hl) as [?|[?|[? ?]]]; done.
Qed.

Lemma shm_list_complete d l prefix name :
  readdir d = Some (l, true) ->
  name ∈ shm_list d prefix <-> component name = true /\ present d name /\ String.prefix prefix name = true.
Proof using Type.
  intros E. split; [apply shm_list_sound|]. intros (Hc & Hp & Hx). unfold shm_list.
  rewrite E, list_loop_filter, app_nil_l, list_elem_of_filter. pose proof (component_wanted name Hc) as (? & ? & _).
  by split; [|eapply readdir_end].
Qed.

Lemma shm_list_NoDup d prefix : NoDup (shm_list d prefix).
Proof using Type.
  unfold shm_list. destruct (readdir d) as [[l b]|] eqn:E; [|by constructor].
  rewrite list_loop_filter. rewrite app_nil_l; by apply list.NoDup_filter, (readdir_names d l b).
Qed.

(** A segment that exists is listed. *)
Theorem shm_exists_listed d l name :
  component name = true -> readdir d = Some (l, true) -> shm_exists d name = true -> name ∈ shm_list d "".
Proof using Type.
  unfold shm_exists. intros Hc E Hs%Z.eqb_eq. apply (shm_list_complete d l); [done|].
  split; [done|]. split; [by apply stat_found|apply prefix_empty].
Qed.

(** *** Removing *)
Lemma shm_remove_present d name removed d' :
  component name = true -> shm_remove d name = (removed, d') ->
  forall other, present d' other <-> present d other /\ (removed = true -> other <> name).
Proof using Type.
  unfold shm_remove. destruct (unlink d (at_path name)) as [rc d1] eqn:Eu. intros Hc [= <- <-] other.
  destruct (Z.eqb_spec rc 0) as [->|Hrc].
  - rewrite (proj2 (unlink_done d name d1 Hc Eu) other). tauto.
  - rewrite (unlink_failed d _ rc d1 Hrc Eu other). split; [by split|tauto].
Qed.

(** The names the loop's calls of [shm_remove] report as removed; the example
    does not look. *)
Fixpoint removed_by (d : dev) (names : list string) : list string :=
  match names with
  | [] => []
  | seg :: names =>
      let '(removed, d') := shm_remove d seg in
      if removed then seg :: removed_by d' names else removed_by d' names
  end.

Lemma removed_by_sub d names : removed_by d names ⊆ names.
Proof using Type.
  revert d. induction names as [|seg names IH]; intros d x; cbn [removed_by]; [done|].
  destruct (shm_remove d seg) as [[] d']; rewrite !elem_of_cons.
  - intros [->|Hx]; [by left|right; by apply (IH d')].
  - intros Hx. right. by apply (IH d').
Qed.

Lemma remove_all_present names : forall d other,
  Forall (fun name => component name = true) names ->
  present (remove_all d names) other <-> present d other /\ other ∉ removed_by d names.
Proof using Type.
  induction names as [|seg names IH]; intros d other Hn; cbn [remove_all removed_by].
  - split; [|by intros [? _]]. intros Hp. split; [done|]. apply not_elem_of_nil.
  - apply Forall_cons_iff in Hn as [Hc Hn]. destruct (shm_remove d seg) as [removed d'] eqn:E. cbn [snd].
    rewrite (IH d' other Hn), (shm_remove_present d seg removed d' Hc E). destruct removed; rewrite ?not_elem_of_cons; intuition congruence.
Qed.

(** C25: Cleaning up segments by prefix, where any unlink may fail: after the
    loop over shm_list(prefix) the directory lists exactly what it listed
    before without the names shm_remove reported as removed, each once and in
    no other way changed; those had the prefix and shm_exists no longer sees
    them; if every removal succeeded nothing with the prefix is listed any
    more. Nothing is assumed of names that are not one path component, and
    stat and readdir may fail for reasons of their own. *)
Theorem cleanup_removes_prefix d l prefix d' l' :
  readdir d = Some (l, true) -> d' = cleanup_stale d prefix -> readdir d' = Some (l', true) ->
  let removed := removed_by d (shm_list d prefix) in
  shm_list d' "" ≡ₚ filter (fun name => name ∉ removed) (shm_list d "") /\
  (forall name, name ∈ removed -> String.prefix prefix name = true /\ shm_exists d' name = false) /\
  (removed = shm_list d prefix -> shm_list d' prefix = []).
Proof using Type.
  intros E Ed E' removed.
  assert (Hn : Forall (fun name => component name = true) (shm_list d prefix))
    by (apply Forall_forall; intros name Hin%list_elem_of_In; by apply (shm_list_sound d prefix)).
  assert (Hp : forall other, present d' other <-> present d other /\ other ∉ removed)
    by (intros; rewrite Ed; by apply remove_all_present).
  assert (Hl : forall pre name, name ∈ shm_list d' pre <-> name ∈ shm_list d pre /\ name ∉ removed)
    by (intros; rewrite (shm_list_complete d' l'), (shm_list_complete d l), Hp by done; tauto).
  assert (Hr : forall name, name ∈ removed -> name ∈ shm_list d prefix) by apply removed_by_sub.
  split; [|split].
  - apply NoDup_Permutation; [apply shm_list_NoDup|apply list.NoDup_filter, shm_list_NoDup|]. intros name.
    rewrite list_elem_of_filter, Hl. tauto.
  - intros name Hin. destruct (shm_list_sound d prefix name (Hr name Hin)) as (Hc & _ & Hx). split; [done|].
    apply not_true_iff_false. intros He%(shm_exists_listed d' l' name Hc E'). apply Hl in He as [_ He]. by apply He.
  - intros Hall. apply list_nil_subseteq. intros name [Hin Hno]%Hl. by rewrite Hall in Hno.
Qed.
End Directory.

(** A directory of names, some of which may not be removed. *)
Module DirectoryWitness.
Local Open Scope string_scope.

Lemma c_str_plain s : plain s = true -> c_str s = s.
Proof.
  induction s as [|a s IH]; cbn [plain c_str]; [done|]. rewrite !andb_true_iff, !negb_true_iff. intros [[_ ->] Hs]. by rewrite IH.
Qed.

Lemma at_path_component name : component name = true -> at_path name = "/dev/shm/" +:+ name.
Proof. unfold component. intros [Hp _]%andb_prop. rewrite <- (c_str_plain name Hp) at 2. reflexivity. Qed.

Lemma app_inj (p a b : string) : p +:+ a = p +:+ b -> a = b.
Proof. induction p as [|c p IH]; cbn; [done|]. intros [= E]. auto. Qed.

(** Names with whether they may be removed. *)
Definition directory : Set := list (string * bool).
Definition names (d : directory) : list string := remove_dups (filter (fun name => component name = true) (fst <$> d)).
Definition locked (d : directory) (path : string) : bool := existsb (fun e => ("/dev/shm/" +:+ e.1 =? path) && negb e.2) d.
Definition there (d : directory) (path : string) : bool := existsb (fun name => "/dev/shm/" +:+ name =? path) (names d).

Lemma there_component d name : component name = true -> there d (at_path name) = true <-> name ∈ names d.
Proof.
  intros Hc. unfold there. rewrite existsb_exists, (at_path_component _ Hc). split.
  - intros (x & Hx & E%String.eqb_eq%app_inj). subst. by apply list_elem_of_In.
  - intros Hin. exists name. rewrite String.eqb_eq. by rewrite <- list_elem_of_In.
Qed.

Lemma names_spec d name : name ∈ names d <-> component name = true /\ exists b, (name, b) ∈ d.
Proof.
  unfold names. rewrite elem_of_remove_dups, list_elem_of_filter, list_elem_of_fmap. split; intros [Hc He]; (split; [done|]).
  - destruct He as ([x b] & -> & Hx). by exists b.
  - destruct He as [b Hb]. by exists (name, b).
Qed.

#[export] Program Instance list_devices : Devices := {|
  dev := directory;
  stat d path := if there d path then 0 else -1;
  unlink d path := if there d path && negb (locked d path) then (0, filter (fun e => "/dev/shm/" +:+ e.1 <> path) d) else (-1, d);
  readdir d := Some ("." :: ".." :: names d, true);
  present d name := name ∈ names d
|}.
Next Obligation. intros d name Hc. cbn. destruct (there d _) eqn:E; [|done]. intros _. by apply there_component. Qed.
Next Obligation.
  intros d name d' Hc. cbn. destruct (there d (at_path name)) eqn:E; [|done]. destruct (locked d _); [done|]. intros [= <-].
  split; [by apply there_component|]. intros other. rewrite !names_spec, (at_path_component _ Hc). split.
  - intros [Hc' [b Hb]]. rewrite list_elem_of_filter in Hb. destruct Hb as [Hne Hb]. split; [split; [done|by exists b]|]. by intros ->.
  - intros [[Hc' [b Hb]] Hne]. split; [done|]. exists b. rewrite list_elem_of_filter. split; [|done]. by intros ?%app_inj.
Qed.
Next Obligation. intros d path rc d' Hrc. cbn. destruct (_ && _); intros [= <- <-] other; done. Qed.
Next Obligation.
  intros d l b [= <- <-]. cbn. split.
  - assert (Hno : forall x, component x = false -> x ∉ names d) by (intros x Hx Hin; apply names_spec in Hin as [Hc _]; congruence).
    apply NoDup_cons_2; [rewrite not_elem_of_cons; split; [done|by apply Hno]|].
    apply NoDup_cons_2; [by apply Hno|apply NoDup_remove_dups].
  - intros name. rewrite !elem_of_cons. intros [->|[->|Hin]]; [by left|by right; left|]. right; right. split; [|done].
    by apply names_spec in Hin as [Hc _].
Qed.
Next Obligation. intros d l name [= <-] Hc Hp. rewrite !elem_of_cons. auto. Qed.

Definition d0 : dev (Devices:=list_devices) := [("seg_a", true); ("seg_b", false); ("other", true)].

(** One of the two segments cannot be removed and stays. *)
Lemma cleanup_removes_prefix_witness :
  shm_list d0 "seg_" = ["seg_a"; "seg_b"] /\ removed_by d0 ["seg_a"; "seg_b"] = ["seg_a"] /\
  shm_list (cleanup_stale d0 "seg_") "" ≡ₚ ["seg_b"; "other"] /\ shm_exists (cleanup_stale d0 "seg_") "seg_a" = false.
Proof.
  assert (El : shm_list d0 "seg_" = ["seg_a"; "seg_b"]) by (vm_compute; reflexivity).
  assert (Er : removed_by d0 (shm_list d0 "seg_") = ["seg_a"]) by (vm_compute; reflexivity).
  destruct (cleanup_removes_prefix d0 ("." :: ".." :: names d0) "seg_" (cleanup_stale d0 "seg_")
              ("." :: ".." :: names (cleanup_stale d0 "seg_")) eq_refl eq_refl eq_refl) as (Hp & Hx & _).
  rewrite Er in Hp, Hx. rewrite El in Er. split; [exact El|]. split; [exact Er|]. split; [exact Hp|].
  apply (Hx "seg_a"). by apply elem_of_cons; left.
Defined.

(** A name cut at a NUL. *)
Example c_str_cuts : at_path (String "a"%char (String Ascii.zero "b")) = "/dev/shm/a".
Proof. reflexivity. Qed.
End DirectoryWitness.
