(* ===== verification/DoubleBuffer.v ===== *)
(** * Double buffering: swapper, runner thread, loaders, snapshots

    [double_buffer_swapper.hpp], [swap_runner.hpp], [dblbuf_loader.hpp],
    [image_shm.hpp], [snapshot.hpp].  Everything a loader shares between its
    client and its background thread lies at fixed addresses of one memory:
    pointers are 64-bit words (null is 0), [std::atomic<uint32_t>] members
    are 32-bit words. *)
From stdpp Require Import relations.
From S2P Require Import Prelude Memory Prog Equiv FlatType Seqlock Pool ShmLock.

(** [std::atomic<uint32_t>]: [wait(old)], [notify_one], [notify_all]. *)
Definition atomic_wait (o : memory_order) (a old : Z) : prog unit :=
  forever (
    v <- load32 o a ;;
    if v =? old then futex_wait_call a old None ;;; Ret None else Ret (Some tt)).
Definition notify_one (a : Z) : prog unit := futex_wake_call a 1.
Definition notify_all (a : Z) : prog unit := futex_wake_call a INT_MAX.

Module DoubleBufferSwapper.
Section Swapper.
Context (T : Set) `{FlatType T}.
Context (active_buffer : Z)          (* address of the caller's [T *] *)
        (pre_allocated_buffer : Z)   (* the private buffer *)
        (stage_ : Z).                (* address of the member [stage_] *)

Definition set_active (buffer : Z) : prog unit :=
  assert (negb (buffer =? 0)) ;;;
  cur <- load64 plain active_buffer ;;
  assert (negb (buffer =? cur)) ;;;
  store64 plain active_buffer buffer.

Definition stage (buffer : Z) : prog unit :=
  assert (negb (buffer =? 0)) ;;;
  store64 plain stage_ buffer.

Definition swap : prog unit :=
  st <- load64 plain stage_ ;;
  assert (negb (pre_allocated_buffer =? 0)) ;;;
  assert (negb (st =? 0)) ;;;
  assert (negb (pre_allocated_buffer =? st)) ;;;
  assert (pre_allocated_buffer mod alignof T =? 0) ;;;
  assert (st mod alignof T =? 0) ;;;
  bs <- memcpy_from st (sizeof T) ;;
  memcpy_to pre_allocated_buffer bs ;;;
  store64 plain active_buffer pre_allocated_buffer ;;;
  store64 plain stage_ 0.
End Swapper.
End DoubleBufferSwapper.

Module SwapRunner.
Section Runner.
Context (triggered_ idle_ : Z)       (* the two flags *)
        (stop_ : Z).                 (* the stop state of the [jthread] *)

Definition trigger : prog unit :=
  store32 relaxed idle_ 0 ;;;
  store32 release triggered_ 1 ;;;
  notify_one triggered_.

Definition wait : prog unit := atomic_wait acquire idle_ 0.

(** [request_stop]: the flag, then the stop callback. *)
Definition on_stop : prog unit := store32 release triggered_ 1 ;;; notify_one triggered_.
Definition request_stop : prog unit := store32 release stop_ 1 ;;; on_stop.

Definition stop_requested : prog bool := v <- load32 acquire stop_ ;; Ret (negb (v =? 0)).

(** [task] answers whether it threw; [log] is the logger. *)
Definition run (task : prog bool) (log : prog unit) : prog unit :=
  (b <- stop_requested ;; if b then on_stop else Ret tt) ;;;
  forever (
    b <- stop_requested ;;
    if b then Ret (Some tt) else
    atomic_wait acquire triggered_ 0 ;;;
    b <- stop_requested ;;
    if b then Ret (Some tt) else
    store32 relaxed triggered_ 0 ;;;
    threw <- task ;;
    (if threw then log else Ret tt) ;;;
    store32 release idle_ 1 ;;;
    notify_all idle_ ;;;
    Ret None) ;;;
  store32 release idle_ 1 ;;;
  notify_all idle_.
End Runner.
End SwapRunner.

(** The addresses of a loader's members. *)
Record layout := Layout {
  at_lock : Z;           (* the word of [lock_] *)
  at_shm : Z;            (* the mapped object *)
  at_pre : Z;            (* [*pre_allocated_] *)
  at_swapper_ptr : Z;
  at_published_ptr : Z;
  at_stage : Z;
  at_triggered : Z;
  at_idle : Z;
  at_stop : Z
}.

Module Snapshot.
Section Snapshot.
Context (T : Set) `{FlatType T} (ptr : Z).   (* [std::atomic<T *> *] *)

Definition get : prog Z := load64 acquire ptr.
Definition deref : prog T :=
  p <- load64 acquire ptr ;;
  assert (negb (p =? 0)) ;;;
  bs <- memcpy_from p (sizeof T) ;;
  Ret (of_bytes bs).
End Snapshot.
End Snapshot.

Module DblBufLoader.
Section Loader.
Context (T : Set) `{FlatType T} (L : layout).

Definition swap : prog unit :=
  DoubleBufferSwapper.swap T (at_swapper_ptr L) (at_pre L) (at_stage L).

(** The task of the runner. *)
Definition task : prog bool :=
  ShmLock.lock (at_lock L) ;;;
  swap ;;;
  p <- load64 plain (at_swapper_ptr L) ;;
  store64 release (at_published_ptr L) p ;;;
  ShmLock.unlock (at_lock L) ;;;
  Ret false.

Definition runner : prog unit :=
  SwapRunner.run (at_triggered L) (at_idle L) (at_stop L) task (Ret tt).

(** The constructor's members and body; the runner starts in between. *)
Definition init_members : prog unit :=
  store64 plain (at_swapper_ptr L) 0 ;;;
  store64 plain (at_published_ptr L) 0 ;;;
  store64 plain (at_stage L) 0 ;;;
  store32 plain (at_triggered L) 0 ;;;
  store32 plain (at_idle L) 1 ;;;
  store32 plain (at_stop L) 0.

Definition init_body : prog unit :=
  DoubleBufferSwapper.set_active (at_swapper_ptr L) (at_shm L) ;;;
  p <- load64 plain (at_swapper_ptr L) ;;
  store64 release (at_published_ptr L) p.

(** Answers the address a snapshot points through. *)
Definition load : prog Z :=
  assert (negb (at_shm L =? 0)) ;;;
  DoubleBufferSwapper.stage (at_stage L) (at_shm L) ;;;
  SwapRunner.trigger (at_triggered L) (at_idle L) ;;;
  Ret (at_published_ptr L).

Definition wait : prog unit := SwapRunner.wait (at_idle L).

(** [runner_.reset()] up to the join, then [lock_.destroy()]. *)
Definition stop_runner : prog unit := SwapRunner.request_stop (at_triggered L) (at_stop L).
Definition destroy_lock : prog unit := ShmLock.destroy (at_lock L) true.
End Loader.
End DblBufLoader.

(** The loader and the storage side of one segment in one class; its text is
    written out, [get_shm] having an assertion of its own. *)
Module DoubleBufferShm.
Section DoubleBuffer.
Context (T : Set) `{FlatType T} (L : layout).

Definition get_shm : prog Z := assert (negb (at_shm L =? 0)) ;;; Ret (at_shm L).

Definition task : prog bool :=
  ShmLock.lock (at_lock L) ;;;
  DoubleBufferSwapper.swap T (at_swapper_ptr L) (at_pre L) (at_stage L) ;;;
  p <- load64 plain (at_swapper_ptr L) ;;
  store64 release (at_published_ptr L) p ;;;
  ShmLock.unlock (at_lock L) ;;;
  Ret false.

(** The constructor's members and body. *)
Definition init_members : prog unit :=
  store64 plain (at_swapper_ptr L) 0 ;;;
  store64 plain (at_published_ptr L) 0 ;;;
  store64 plain (at_stage L) 0 ;;;
  store32 plain (at_triggered L) 0 ;;;
  store32 plain (at_idle L) 1 ;;;
  store32 plain (at_stop L) 0.

Definition init_body : prog unit :=
  shm <- get_shm ;;
  DoubleBufferSwapper.set_active (at_swapper_ptr L) shm ;;;
  p <- load64 plain (at_swapper_ptr L) ;;
  store64 release (at_published_ptr L) p.

(** [runner_.reset()] up to the join, then [lock_.destroy()]. *)
Definition stop_runner : prog unit := SwapRunner.request_stop (at_triggered L) (at_stop L).
Definition destroy_lock : prog unit := ShmLock.destroy (at_lock L) true.

Definition store (data : T) : prog unit :=
  ShmLock.lock (at_lock L) ;;;
  p <- get_shm ;;
  memcpy_to p (to_bytes data) ;;;
  ShmLock.unlock (at_lock L).

Definition load : prog Z :=
  shm <- get_shm ;;
  DoubleBufferSwapper.stage (at_stage L) shm ;;;
  SwapRunner.trigger (at_triggered L) (at_idle L) ;;;
  Ret (at_published_ptr L).

Definition wait : prog unit := SwapRunner.wait (at_idle L).
Definition shm_addr : Z := at_shm L.
Definition pre_allocated_addr : Z := at_pre L.

(** It behaves like the two classes it joins: [load] always, [store] and the
    constructor's body on a segment that is mapped. *)
Lemma load_is_loader : load ≡ DblBufLoader.load L.
Proof using Type. unfold load, get_shm. rewrite bind_assoc. apply Bind_proper; [done|]. intros ?. by rewrite ret_bind. Qed.

Lemma get_shm_mapped : at_shm L <> 0 -> get_shm ≡ Ret (at_shm L).
Proof using Type. intros Hne. unfold get_shm. rewrite (proj2 (Z.eqb_neq _ _) Hne). cbn [negb assert]. by rewrite ret_bind. Qed.

Lemma store_is_storage data : at_shm L <> 0 -> store data ≡ Storage.store (at_lock L) (at_shm L) data.
Proof using Type.
  intros Hne. apply Bind_proper; [done|]. intros ?. by rewrite (get_shm_mapped Hne), ret_bind.
Qed.

Lemma init_body_is_loader : at_shm L <> 0 -> init_body ≡ DblBufLoader.init_body L.
Proof using Type. intros Hne. unfold init_body. by rewrite (get_shm_mapped Hne), ret_bind. Qed.
End DoubleBuffer.
End DoubleBufferShm.

(** ** The swapper on its own *)
Section Swap.
Context {T : Set} `{FlatType T} (a pre st : Z).
Abbreviation n := (sizeof T).

(** The two pointers, the private buffer and the staged one do not overlap. *)
Record swappable (m : mem) (src : Z) : Prop := {
  sw_active : atomic_ok m a 8 = true;
  sw_stage : atomic_ok m st 8 = true;
  sw_pre : in_bounds m pre n = true;
  sw_src : in_bounds m src n = true;
  sw_addr : 0 < pre < 2 ^ 64 /\ 0 < src < 2 ^ 64;
  sw_aligned : pre mod alignof T = 0 /\ src mod alignof T = 0;
  sw_apart : disjoint a 8 st 8 /\ disjoint a 8 pre n /\ disjoint st 8 pre n /\
             disjoint pre n src n /\ disjoint a 8 src n /\ disjoint st 8 src n
}.

Lemma wp_assert e b t m Q :
  b = true -> Q tt t m [] -> wp e (assert b) t m Q.
Proof using Type. intros -> HQ. by apply wp_ret. Qed.

Lemma atomic_ok_nonneg m off k : atomic_ok m off k = true -> 0 <= off.
Proof using Type. intros Hok. apply atomic_ok_bounds in Hok. unfold in_bounds in Hok. zbool. done. Qed.

Lemma disjoint_pre_src m src : swappable m src -> pre <> src.
Proof using Type.
  intros Hs E. destruct Hs. pose proof (sizeof_pos (T:=T)). unfold disjoint in *. lia.
Qed.

(** Staging a buffer and swapping copies it whole into the pre-allocated
    buffer, makes that the active one, clears the staged pointer and leaves
    the source as it was, without failing an assertion. *)
Theorem stage_then_swap rc t m src (d : T) :
  swappable m src -> rd m src n = to_bytes d ->
  wp (quiet rc)
     (DoubleBufferSwapper.stage st src ;;; DoubleBufferSwapper.swap T a pre st) t m
     (fun _ _ m' _ => rd m' pre n = to_bytes d /\ ld64 m' a = pre /\ ld64 m' st = 0 /\
                      rd m' src n = to_bytes d /\ length m' = length m).
Proof using Type.
  intros Hs Hd. pose proof (disjoint_pre_src m src Hs) as Hne.
  destruct Hs as [Ha Hst Hpre Hsrc [Hp0 Hs0] [Hpa Hsa] (D1 & D2 & D3 & D4 & D5 & D6)].
  pose proof (atomic_ok_nonneg _ _ _ Ha). pose proof (atomic_ok_nonneg _ _ _ Hst).
  unfold DoubleBufferSwapper.stage, DoubleBufferSwapper.swap.
  apply wp_bind, wp_bind, wp_assert; [by rewrite (proj2 (Z.eqb_neq _ _)) by lia|].
  apply wp_store64; [done|]. cbn [interfere quiet]. set (m1 := st64 m st src).
  assert (Hld : ld64 m1 st = src).
  { unfold m1. rewrite ld64_st64_same by by apply atomic_ok_bounds. apply u64_small. lia. }
  apply wp_bind, wp_load64; cbn [interfere quiet]; [by unfold m1, st64; rewrite atomic_ok_wr|].
  rewrite Hld. do 5 (apply wp_bind, wp_assert; [rewrite ?(proj2 (Z.eqb_neq _ _)) by lia; rewrite ?Z.eqb_eq; done|]).
  assert (Hrd1 : rd m1 src n = to_bytes d).
  { unfold m1, st64. rewrite rd_wr_disjoint; [done|lia|done|]. rewrite length_le_bytes. unfold disjoint in *; lia. }
  apply wp_bind, wp_memcpy_from; [auto with shm|lia|by unfold m1, st64; rewrite in_bounds_wr|]. intros l _.
  rewrite Hrd1. apply wp_bind, wp_memcpy_to.
  { rewrite length_to_bytes. unfold m1, st64. by rewrite in_bounds_wr. }
  intros t' l' _. set (m2 := wr m1 pre (to_bytes d)).
  assert (Hlen2 : length m2 = length m) by (unfold m2, m1, st64; by rewrite !length_wr).
  apply wp_bind, wp_store64; cbn [interfere quiet]; [by rewrite (atomic_ok_length m2 m) by done|].
  apply wp_store64; cbn [interfere quiet]; [by rewrite (atomic_ok_length _ m) by (unfold st64; by rewrite length_wr)|].
  unfold st64.
  set (m3 := wr m2 a (le_bytes 8 pre)).
  assert (Hlen3 : length m3 = length m) by (unfold m3; by rewrite length_wr).
  assert (Hb8 : forall m0 off, length m0 = length m -> atomic_ok m off 8 = true -> in_bounds m0 off 8 = true).
  { intros m0 off E Hok. rewrite (in_bounds_length m0 m) by done. by apply atomic_ok_bounds. }
  assert (Hpre2 : rd m2 pre n = to_bytes d).
  { apply rd_wr_same'; [by rewrite length_to_bytes|]. unfold m1, st64. by rewrite in_bounds_wr. }
  repeat split.
  - unfold m3. rewrite !rd_wr_disjoint; rewrite ?length_le_bytes; try lia; try done; unfold disjoint in *; lia.
  - unfold ld64. rewrite rd_wr_disjoint; rewrite ?length_le_bytes; try lia.
    + unfold m3. rewrite (rd_wr_same' _ _ (le_bytes 8 pre)) by (done || by apply Hb8).
      rewrite le_val_bytes. apply Z.mod_small. simpl. lia.
    + unfold disjoint in *; lia.
  - unfold ld64. rewrite (rd_wr_same' _ _ (le_bytes 8 0)) by (done || by apply Hb8). reflexivity.
  - unfold m3, m2. rewrite !rd_wr_disjoint; rewrite ?length_le_bytes, ?length_to_bytes; try lia; try done;
      unfold disjoint in *; lia.
  - by rewrite length_wr.
Qed.
End Swap.

(** ** Concrete loaders *)
Module LoaderWitness.
Definition L : layout := Layout 0 8 16 24 32 40 48 52 56.
Definition m0 : mem := wr (fresh 64) 8 (le_bytes 4 77).

Lemma m0_swappable : swappable (T:=uint32) 24 16 40 m0 8.
Proof.
  split; try reflexivity; [lia|split; reflexivity|].
  unfold disjoint. repeat split; simpl; lia.
Qed.

Lemma stage_then_swap_witness :
  rd m0 16 4 = [0; 0; 0; 0] /\ rd m0 8 4 = to_bytes (to_uint 4 77) /\
  wp (quiet (fun _ => (0, 0)))
     (DoubleBufferSwapper.stage 40 8 ;;; DoubleBufferSwapper.swap uint32 24 16 40) 0 m0
     (fun _ _ m' _ => rd m' 16 4 = to_bytes (to_uint 4 77) /\ ld64 m' 24 = 16 /\ ld64 m' 40 = 0 /\
                      rd m' 8 4 = to_bytes (to_uint 4 77) /\ length m' = length m0).
Proof.
  split; [reflexivity|]. split; [reflexivity|].
  apply (stage_then_swap (T:=uint32) 24 16 40 (fun _ => (0, 0)) 0 m0 8 (to_uint 4 77) m0_swappable). reflexivity.
Defined.

(** A client and the runner of its loader. *)
Definition started (client : prog unit) : pool :=
  (m0, [Running (DblBufLoader.init_members L ;;; DblBufLoader.init_body L ;;; client);
        Running (DblBufLoader.runner uint32 L)]).

(** [load]; [wait]: the snapshot shows the segment's value. *)
Lemma load_then_wait :
  exists x, reachable (started (DblBufLoader.load L ;;; DblBufLoader.wait L ;;; Ret tt)) x /\
    status x 0 = Some Finished /\ ld64 x.1 (at_published_ptr L) = at_pre L /\
    rd x.1 (at_pre L) 4 = to_bytes (to_uint 4 77).
Proof.
  pose (sched := repeat 0%nat 14 ++ repeat 1%nat 27 ++ repeat 0%nat 2).
  exists (run_to sched (started (DblBufLoader.load L ;;; DblBufLoader.wait L ;;; Ret tt))).
  split; [apply run_to_reachable; vm_compute; reflexivity|].
  repeat split; vm_compute; reflexivity.
Qed.

(** Two calls of [load] with no [wait] between them: when the runner has taken
    the first trigger and not yet swapped, the second stages the same buffer,
    which the first swap clears; the second swap finds no staged buffer. *)
Lemma back_to_back_loads_trap :
  exists x, reachable (started (DblBufLoader.load L ;;; DblBufLoader.load L ;;; Ret tt)) x /\
    status x 1 = Some Trapped.
Proof.
  pose (sched := repeat 0%nat 13 ++ repeat 1%nat 7 ++ repeat 0%nat 5 ++ repeat 1%nat 26).
  exists (run_to sched (started (DblBufLoader.load L ;;; DblBufLoader.load L ;;; Ret tt))).
  split; [apply run_to_reachable; vm_compute; reflexivity|vm_compute; reflexivity].
Qed.

(** On the way there [wait] would have returned: the flag is idle although the
    second trigger is pending. *)
Lemma wait_returns_early :
  exists x, reachable (started (DblBufLoader.load L ;;; DblBufLoader.load L ;;; DblBufLoader.wait L)) x /\
    status x 0 = Some Finished /\ ld32 x.1 (at_triggered L) = 1.
Proof.
  pose (sched := repeat 0%nat 13 ++ repeat 1%nat 7 ++ repeat 0%nat 5 ++ repeat 1%nat 20 ++ repeat 0%nat 2).
  exists (run_to sched (started (DblBufLoader.load L ;;; DblBufLoader.load L ;;; DblBufLoader.wait L))).
  split; [apply run_to_reachable; vm_compute; reflexivity|].
  split; vm_compute; reflexivity.
Qed.
End LoaderWitness.
