(* ===== verification/Loader.v ===== *)
(** * A loader at work

    [dblbuf_loader.hpp] end to end: the client that loads, waits, reads its
    snapshots and finally stops the runner; the runner; and any number of
    processes storing into the segment, all interleaved.  Every cell of the
    shared state has an owner at each moment (a phase of the protocol, or the
    holder of the lock), and each thread relies on the others to respect it. *)
From stdpp Require Import relations.
From S2P Require Import Prelude Memory Prog FlatType Pool RelyGuarantee ShmLock DoubleBuffer.

(** The cells of a [layout]. *)
Inductive cell : Set := CLock | CRegion | CPre | CSwp | CPub | CStage | CTrig | CIdle | CStop.

Definition private (c : cell) : bool := match c with CLock | CRegion => false | _ => true end.
Definition buffer (c : cell) : bool := match c with CRegion | CPre => true | _ => false end.

(** Where the protocol is. *)
Inductive phase : Set :=
| Start       (* constructed, nothing loaded *)
| Loading     (* [idle_] cleared, not yet triggered *)
| Triggered
| Swapping    (* the runner has taken the trigger *)
| Done        (* idle, the snapshot valid *)
| Stopping.

(** Client and runner are threads 0 and 1; the phase says whose turn it is. *)
Definition turn (ph : phase) : option nat :=
  match ph with Start | Loading | Done => Some 0%nat | Triggered | Swapping => Some 1%nat | Stopping => None end.

Definition posted (ph : phase) : Prop := match ph with Triggered | Swapping | Done => True | _ => False end.
Definition ready (ph : phase) : Prop := match ph with Start | Done => True | _ => False end.

(** ** The client *)
Section Client.
Context (T : Set) `{FlatType T} (L : layout) (good : T -> bool).

(** Reads the snapshot [k] times and insists on each value. *)
Fixpoint uses (snapshot : Z) (k : nat) : prog unit :=
  match k with
  | O => Ret tt
  | S k => (d <- Snapshot.deref T snapshot ;; assert (good d)) ;;; uses snapshot k
  end.

(** One [load] and [wait] for each entry of [ks], and so many reads. *)
Fixpoint rounds (ks : list nat) : prog unit :=
  match ks with
  | [] => Ret tt
  | k :: ks =>
      (snapshot <- DblBufLoader.load L ;; DblBufLoader.wait L ;;; uses snapshot k) ;;; rounds ks
  end.

(** From the constructor's body to the destructor's [runner_.reset()]. *)
Definition client (ks : list nat) : prog unit :=
  DblBufLoader.init_body L ;;; rounds ks ;;; DblBufLoader.stop_runner L.
End Client.

Section Protocol.
Context {T : Set} `{HT : FlatType T} (L : layout) (ok : T -> Prop).

Definition addr (c : cell) : Z :=
  match c with
  | CLock => at_lock L | CRegion => at_shm L | CPre => at_pre L | CSwp => at_swapper_ptr L
  | CPub => at_published_ptr L | CStage => at_stage L | CTrig => at_triggered L | CIdle => at_idle L
  | CStop => at_stop L
  end.
Definition width (c : cell) : nat :=
  match c with CRegion | CPre => sizeof T | CSwp | CPub | CStage => 8 | _ => 4 end.

Record laid_out (m : mem) : Prop := {
  lo_in c : in_bounds m (addr c) (width c) = true;
  lo_aligned c : buffer c = false -> addr c mod Z.of_nat (width c) = 0;
  lo_apart c d : c <> d -> disjoint (addr c) (width c) (addr d) (width d);
  lo_pre : 0 < at_pre L < 2 ^ 64 /\ at_pre L mod alignof T = 0;
  lo_shm : 0 < at_shm L < 2 ^ 64 /\ at_shm L mod alignof T = 0
}.

Definition get (m : mem) (c : cell) : list Z := rd m (addr c) (width c).
Definition word (m : mem) (c : cell) : Z := le_val (get m c).
Definition set_word (m : mem) (c : cell) (v : Z) : mem := wr m (addr c) (le_bytes (width c) v).

Lemma lo_nonneg m c : laid_out m -> 0 <= addr c.
Proof using Type. intros Hm. pose proof (lo_in m Hm c). unfold in_bounds in *. zbool. done. Qed.

Lemma lo_atomic m c : laid_out m -> buffer c = false -> atomic_ok m (addr c) (width c) = true.
Proof using Type.
  intros Hm Hc. unfold atomic_ok. rewrite (lo_in m Hm c). apply Z.eqb_eq, (lo_aligned m Hm). done.
Qed.

Lemma laid_out_length m m' : length m' = length m -> laid_out m -> laid_out m'.
Proof using Type.
  intros E Hm. destruct Hm. split; try done. intros c. by rewrite (in_bounds_length m' m).
Qed.

Lemma get_wr_ne m c d k bs :
  laid_out m -> c <> d -> 0 <= k -> k + Z.of_nat (length bs) <= Z.of_nat (width c) ->
  get (wr m (addr c + k) bs) d = get m d.
Proof using Type.
  intros Hm Hne Hk Hl. pose proof (lo_nonneg m c Hm). pose proof (lo_nonneg m d Hm).
  pose proof (lo_apart m Hm c d Hne). unfold get. apply rd_wr_disjoint; [done|lia|]. unfold disjoint in *. lia.
Qed.

Lemma get_set_ne m c d v : laid_out m -> c <> d -> get (set_word m c v) d = get m d.
Proof using Type.
  intros Hm Hne. unfold set_word. rewrite <- (Z.add_0_r (addr c)). apply get_wr_ne; [done|done|lia|].
  rewrite length_le_bytes. lia.
Qed.

Lemma word_set_ne m c d v : laid_out m -> c <> d -> word (set_word m c v) d = word m d.
Proof using Type. intros. unfold word. by rewrite get_set_ne. Qed.

Lemma word_set m c v :
  laid_out m -> 0 <= v < 2 ^ (8 * Z.of_nat (width c)) -> word (set_word m c v) c = v.
Proof using Type.
  intros Hm Hv. unfold word, get, set_word. rewrite (rd_wr_same' _ _ (le_bytes (width c) v)).
  - rewrite le_val_bytes. by apply Z.mod_small.
  - by rewrite length_le_bytes.
  - by apply lo_in.
Qed.

Lemma laid_out_wr m off bs : laid_out m -> laid_out (wr m off bs).
Proof using Type. apply laid_out_length, length_wr. Qed.

(** ** The invariant *)
Definition kept (m m' : mem) : Prop := forall c, private c = true -> get m' c = get m c.
Definition framed (P : mem -> Prop) : Prop := forall m m', kept m m' -> P m -> P m'.

Definition snap (m : mem) (c : cell) : Prop := exists d, ok d /\ get m c = to_bytes d.

Definition facts (ph : phase) (m : mem) : Prop :=
  match ph with
  | Start => word m CIdle = 1 /\ word m CTrig = 0 /\ word m CStop = 0
  | Loading | Swapping => word m CIdle = 0 /\ word m CTrig = 0 /\ word m CStop = 0
  | Triggered => word m CIdle = 0 /\ word m CTrig = 1 /\ word m CStop = 0 /\ word m CStage = at_shm L
  | Done => word m CIdle = 1 /\ word m CTrig = 0 /\ word m CStop = 0 /\ word m CPub = at_pre L /\ snap m CPre
  | Stopping => word m CStop = 1
  end.

Definition storing (ow : option nat) : bool := match ow with Some (S (S _)) => true | _ => false end.

Definition locked (ow : option nat) : Z := match ow with Some _ => 1 | None => 0 end.

Abbreviation st := ((phase * option nat) * mem)%type.

Record inv (s : st) : Prop := {
  inv_out : laid_out s.2;
  inv_facts : facts s.1.1 s.2;
  inv_word : word s.2 CLock = locked s.1.2;
  inv_region : storing s.1.2 = false -> snap s.2 CRegion
}.

(** What thread [j] may rely on while the others step from [s] to [s']. *)
Record knows (j : nat) (s s' : st) : Prop := {
  knows_lock : s.1.2 = Some j -> s'.1.2 = Some j /\ get s'.2 CRegion = get s.2 CRegion;
  knows_turn : turn s.1.1 = Some j -> s'.1.1 = s.1.1 /\ kept s.2 s'.2;
  knows_posted : j = 0%nat -> turn s.1.1 = Some 1%nat -> posted s'.1.1;
  knows_stopping : s.1.1 = Stopping -> s'.1.1 = Stopping
}.

Definition rely (j : nat) (s s' : st) : Prop := inv s' /\ knows j s s'.
Definition guar (i : nat) (s s' : st) : Prop := inv s' /\ forall j, j <> i -> knows j s s'.

Lemma rely_inv j s s' : rely j s s' -> inv s'.
Proof using Type. by intros []. Qed.

Lemma guar_inv i s s' : guar i s s' -> inv s'.
Proof using Type. by intros []. Qed.

Lemma guar_rely i j s s' : i <> j -> guar i s s' -> rely j s s'.
Proof using Type. intros Hne [Hi Hk]. split; [done|]. by apply Hk. Qed.

Lemma guar_refl i s : inv s -> guar i s s.
Proof using Type.
  intros Hi. split; [done|]. intros j Hj. split; try done. intros _ E. by destruct s as [[[] ow] m].
Qed.

Lemma framed_facts ph : framed (facts ph).
Proof using Type.
  intros m m' Hk. destruct ph; unfold facts, snap, word; rewrite !Hk by done; done.
Qed.

(** ** Steps within the guarantee *)
Lemma kept_wr m c k bs :
  laid_out m -> private c = false -> 0 <= k -> k + Z.of_nat (length bs) <= Z.of_nat (width c) ->
  kept m (wr m (addr c + k) bs).
Proof using Type. intros Hm Hc Hk Hl d Hd. apply get_wr_ne; try done. congruence. Qed.

(** Writing a cell in one's own turn. *)
Lemma guar_private i ph ow m c k bs ph' :
  inv ((ph, ow), m) -> private c = true -> turn ph = Some i \/ ph = Stopping ->
  0 <= k -> k + Z.of_nat (length bs) <= Z.of_nat (width c) ->
  facts ph' (wr m (addr c + k) bs) ->
  (ph = Stopping -> ph' = Stopping) -> (i = 1%nat -> posted ph' \/ ph' = Stopping /\ ph = Stopping) ->
  guar i ((ph, ow), m) ((ph', ow), wr m (addr c + k) bs).
Proof using Type.
  intros [Hm Hf Hw Hr] Hc Ht Hk Hl Hf' Hs Hp. cbn [fst snd] in *.
  assert (Hlock : get (wr m (addr c + k) bs) CLock = get m CLock) by (apply get_wr_ne; [done|by destruct c|done|done]).
  assert (Hreg : get (wr m (addr c + k) bs) CRegion = get m CRegion) by (apply get_wr_ne; [done|by destruct c|done|done]).
  split; [split; cbn [fst snd]|].
  - by apply laid_out_wr.
  - done.
  - unfold word. by rewrite Hlock.
  - unfold snap. by rewrite Hreg.
  - intros j Hj. split; cbn [fst snd]; try done.
    + intros E. destruct Ht as [Ht|Ht]; [congruence|by subst].
    + intros -> E. destruct Ht as [Ht|Ht]; [|by subst]. rewrite Ht in E. injection E as ->.
      destruct (Hp eq_refl) as [|[_ ->]]; done.
Qed.

(** Taking and releasing the lock. *)
Lemma guar_lock i ph ow ow' m :
  inv ((ph, ow), m) -> (ow = Some i \/ ow = None \/ ow' = ow) ->
  (storing ow' = false -> snap m CRegion) ->
  guar i ((ph, ow), m) ((ph, ow'), set_word m CLock (locked ow')).
Proof using Type.
  intros [Hm Hf Hw Hr] Ho Hs. cbn [fst snd] in *.
  assert (Hk : kept m (set_word m CLock (locked ow'))) by (intros c Hc; apply get_set_ne; [done|by intros <-]).
  assert (Hreg : get (set_word m CLock (locked ow')) CRegion = get m CRegion) by by apply get_set_ne.
  split; [split; cbn [fst snd]|].
  - by apply laid_out_wr.
  - by eapply framed_facts.
  - apply word_set; [done|]. by destruct ow'.
  - unfold snap. by rewrite Hreg.
  - intros j Hj. split; cbn [fst snd]; try done.
    + intros ->. destruct Ho as [[= ->]|[?|?]]; done.
    + intros _ E. by destruct ph.
Qed.

(** Writing the segment while holding the lock. *)
Lemma guar_region i ph m k bs :
  inv ((ph, Some (S (S i))), m) -> 0 <= k -> k + Z.of_nat (length bs) <= Z.of_nat (sizeof T) ->
  guar (S (S i)) ((ph, Some (S (S i))), m) ((ph, Some (S (S i))), wr m (at_shm L + k) bs).
Proof using Type.
  intros [Hm Hf Hw Hr] Hk Hl. cbn [fst snd] in *.
  assert (Hke : kept m (wr m (at_shm L + k) bs)) by by apply (kept_wr m CRegion).
  split; [split; cbn [fst snd]|].
  - by apply laid_out_wr.
  - by eapply framed_facts.
  - unfold word. by rewrite (get_wr_ne m CRegion CLock).
  - done.
  - intros j Hj. split; cbn [fst snd]; try done; [congruence|]. intros _ E. by destruct ph.
Qed.

(** ** Assertions *)
Abbreviation tr i := (triple inv (rely i) (fun _ => guar i) (staying freely (rely i))).
Abbreviation still i := (stable inv (rely i)).

(** [i]'s turn in phase [ph], with [P] of the cells, and [R] of the lock. *)
Definition at_ (ph : phase) (P : mem -> Prop) (R : st -> Prop) (s : st) : Prop :=
  s.1.1 = ph /\ P s.2 /\ R s.
Definition free (s : st) : Prop := True.
Definition owns (i : nat) (bs : list Z) (s : st) : Prop := s.1.2 = Some i /\ get s.2 CRegion = bs.

(** What concerns the lock and the segment only. *)
Definition lockish (i : nat) (R : st -> Prop) : Prop :=
  still i R /\
  forall ph ph' ow m m', R ((ph, ow), m) -> get m' CRegion = get m CRegion -> R ((ph', ow), m').

Lemma free_lockish i : lockish i free.
Proof using Type. by split. Qed.

Lemma owns_lockish i bs : lockish i (owns i bs).
Proof using Type.
  split.
  - intros s s' [Ho Hb] _ [_ Hk]. destruct (knows_lock _ _ _ Hk Ho) as [Ho' E]. split; [done|congruence].
  - intros ph ph' ow m m' [Ho Hb] E. split; cbn in *; congruence.
Qed.

Lemma at_still i ph P R :
  turn ph = Some i -> framed P -> lockish i R -> still i (at_ ph P R).
Proof using Type.
  intros Ht HP [HR _] s s' (E & Hp & Hr) Hi Hre. destruct Hre as [Hi' Hk] eqn:Er. clear Er.
  rewrite <- E in Ht. destruct (knows_turn _ _ _ Hk Ht) as [E' Hke]. split; [congruence|]. split; [by eapply HP|].
  by apply (HR s).
Qed.

Lemma stopping_still i : still i (fun s => s.1.1 = Stopping).
Proof using Type. intros s s' E _ [_ Hk]. by apply (knows_stopping _ _ _ Hk). Qed.

Lemma posted_still : still 0%nat (fun s => posted s.1.1).
Proof using Type.
  intros s s' E _ [_ Hk]. destruct (turn s.1.1) as [[|[|]]|] eqn:Et.
  - by destruct (knows_turn _ _ _ Hk Et) as [-> _].
  - by apply (knows_posted _ _ _ Hk).
  - by destruct s.1.1.
  - by destruct s.1.1.
Qed.

Lemma free_still i : still i free.
Proof using Type. by intros s s'. Qed.

Lemma kept_refl m : kept m m.
Proof using Type. by intros c. Qed.

(** ** Triples of single actions *)
Section Actions.
Context (i : nat).

Lemma tr_load32 o c (P : st -> Prop) (Q : Z -> st -> Prop) :
  width c = 4%nat -> buffer c = false -> still i P -> (forall v, still i (Q v)) ->
  (forall s, P s -> inv s -> Q (word s.2 c) s) -> tr i P (load32 o (addr c)) Q.
Proof using Type.
  intros Hw Hc HP HQ Hq. apply triple_act; [done|done|]. intros g m Hp Hi. cbn [safe_act act_step].
  pose proof (lo_atomic m c (inv_out _ Hi) Hc) as Hok. rewrite Hw in Hok. rewrite Hok. exists g.
  split; [by apply guar_refl|]. pose proof (Hq _ Hp Hi) as H. unfold word, get in H. by rewrite Hw in H.
Qed.

(** A pointer is loaded in one's turn. *)
Lemma tr_load64 o c {ph P R} (Q : Z -> st -> Prop) :
  width c = 8%nat -> private c = true -> buffer c = false -> turn ph = Some i -> still i (at_ ph P R) -> (forall v, still i (Q v)) ->
  (forall s, at_ ph P R s -> inv s -> Q (word s.2 c) s) -> tr i (at_ ph P R) (load64 o (addr c)) Q.
Proof using Type.
  intros Hw Hc Hbc Ht HP HQ Hq. apply triple_act; [done|done|]. intros g m Hp Hi. cbn [safe_act act_step].
  pose proof (lo_atomic m c (inv_out _ Hi) Hbc) as Hok. rewrite Hw in Hok. rewrite Hok. split.
  { intros s' [_ Hk]. destruct (knows_turn _ _ _ Hk) as [_ E]; [destruct Hp as [-> _]; done|].
    specialize (E c Hc). unfold get in E. by rewrite Hw in E. }
  exists g.
  split; [by apply guar_refl|]. pose proof (Hq _ Hp Hi) as H. unfold word, get in H. by rewrite Hw in H.
Qed.

Definition word_steps (c : cell) (v : Z) (P Q : st -> Prop) : Prop :=
  forall g m, P (g, m) -> inv (g, m) ->
  exists g', guar i (g, m) (g', set_word m c v) /\ Q (g', set_word m c v).

Lemma tr_store32 o c v (P Q : st -> Prop) :
  width c = 4%nat -> buffer c = false -> still i P -> still i Q -> word_steps c v P Q ->
  tr i P (store32 o (addr c) v) (fun _ => Q).
Proof using Type.
  intros Hw Hc HP HQ Hq. apply triple_act; [done|done|]. intros g m Hp Hi. cbn [safe_act act_step].
  pose proof (lo_atomic m c (inv_out _ Hi) Hc) as Hok. rewrite Hw in Hok. rewrite Hok.
  pose proof (Hq _ _ Hp Hi) as H. unfold set_word in H. by rewrite Hw in H.
Qed.

Lemma tr_store64 o c v (P Q : st -> Prop) :
  width c = 8%nat -> buffer c = false -> still i P -> still i Q -> word_steps c v P Q ->
  tr i P (store64 o (addr c) v) (fun _ => Q).
Proof using Type.
  intros Hw Hc HP HQ Hq. apply triple_act; [done|done|]. intros g m Hp Hi. cbn [safe_act act_step].
  pose proof (lo_atomic m c (inv_out _ Hi) Hc) as Hok. rewrite Hw in Hok. rewrite Hok.
  pose proof (Hq _ _ Hp Hi) as H. unfold set_word in H. by rewrite Hw in H.
Qed.

Lemma tr_futex_wait c expected t (P : st -> Prop) :
  width c = 4%nat -> buffer c = false -> still i P ->
  tr i P (futex_wait_call (addr c) expected t) (fun _ => P).
Proof using Type.
  intros Hw Hc HP. apply triple_act; [done|done|]. intros g m Hp Hi. cbn [safe_act].
  pose proof (lo_atomic m c (inv_out _ Hi) Hc) as Hok. rewrite Hw in Hok. split; [done|]. intros rc.
  exists g. split; [by apply guar_refl|done].
Qed.

Lemma tr_futex_wake c n (P : st -> Prop) :
  width c = 4%nat -> buffer c = false -> still i P -> tr i P (futex_wake_call (addr c) n) (fun _ => P).
Proof using Type.
  intros Hw Hc HP. apply triple_act; [done|done|]. intros g m Hp Hi. cbn [safe_act].
  pose proof (lo_atomic m c (inv_out _ Hi) Hc) as Hok. rewrite Hw in Hok. split; [done|].
  exists g. split; [by apply guar_refl|done].
Qed.

Lemma tr_ret {A : Set} (a : A) (P : st -> Prop) : still i P -> tr i P (Ret a) (fun a' s => a' = a /\ P s).
Proof using Type. intros HP. apply triple_ret; [|by auto]. apply stable_and; [apply stable_pure|done]. Qed.

Lemma tr_unit (P : st -> Prop) : still i P -> tr i P (Ret tt) (fun _ => P).
Proof using Type. intros HP. by apply triple_ret. Qed.

Lemma tr_assert b (P : st -> Prop) : b = true -> still i P -> tr i P (assert b) (fun _ => P).
Proof using Type. intros -> HP. by apply tr_unit. Qed.

Lemma tr_bind {A B : Set} (P : st -> Prop) (p : prog B) (k : B -> prog A) R Q :
  tr i P p R -> (forall b, tr i (R b) (k b) Q) -> tr i P (Bind p k) Q.
Proof using Type. apply triple_bind, rely_inv. Qed.

Lemma tr_pre {A : Set} (P P' : st -> Prop) (p : prog A) Q :
  tr i P' p Q -> (forall s, P s -> inv s -> P' s) -> tr i P p Q.
Proof using Type. intros Ht HP. by eapply triple_conseq. Qed.

(** A whole cell, byte by byte. *)
Lemma tr_memcpy_from c (F : st -> Prop) bs :
  still i F -> (forall s, F s -> inv s -> get s.2 c = bs) ->
  tr i F (memcpy_from (addr c) (width c)) (fun l s => l = bs /\ F s).
Proof using Type.
  intros HF Hb.
  assert (Hgen : forall n k, (k + n = width c)%nat ->
    tr i F (memcpy_from (addr c + Z.of_nat k) n) (fun l s => l = drop k (take (width c) bs) /\ F s)).
  { induction n as [|n IH]; intros k Hk; cbn [memcpy_from].
    - eapply triple_conseq; [by apply (tr_ret [])|done|]. intros l s [-> Hs] _. split; [|done].
      symmetry. apply drop_ge. rewrite length_take. lia.
    - eapply tr_bind.
      { apply (triple_act _ _ _ _ _ F (fun b s => bs !! k = Some b /\ F s)); [done|intros; by apply stable_and; [apply stable_pure|]|].
        intros g m Hs Hi. cbn [safe_act act_step]. pose proof (lo_in m (inv_out _ Hi) c) as Hin.
        replace (width c) with (k + (1 + n))%nat in Hin by lia.
        apply in_bounds_split in Hin as [_ Hin]. apply in_bounds_split in Hin as [Hin _]. rewrite Hin. split.
        { intros s' Hr. apply (rd_part _ _ _ (width c)); [by eapply lo_nonneg, Hi|lia|].
          transitivity bs; [by apply Hb; [eapply HF|apply Hr]|symmetry; by apply (Hb (g, m))]. }
        exists g. split; [by apply guar_refl|]. split; [|done]. rewrite <- (Hb _ Hs Hi). cbn [snd].
        pose proof (lo_nonneg m c (inv_out _ Hi)). unfold get. apply rd_byte; [done|lia|by apply lo_in, Hi]. }
      intros b. apply triple_pure. intros Eb. eapply tr_bind.
      { replace (addr c + Z.of_nat k + 1) with (addr c + Z.of_nat (S k)) by lia. apply (IH (S k)). lia. }
      intros l. apply triple_pure. intros ->. eapply triple_conseq; [by apply tr_ret|done|].
      intros l' s [-> Hs] _. split; [|done]. symmetry. apply drop_S. rewrite lookup_take, decide_True by lia. done. }
  replace (addr c) with (addr c + Z.of_nat 0) by lia. eapply triple_conseq; [apply (Hgen (width c) 0%nat); lia|done|].
  intros l s [-> Hs] Hi. split; [|done]. rewrite drop_0. apply take_ge. rewrite <- (Hb _ Hs Hi).
  unfold get. rewrite length_rd; [done|]. apply lo_in, Hi.
Qed.

Lemma get_wr_byte m c k b :
  laid_out m -> (k < width c)%nat ->
  get (wr m (addr c + Z.of_nat k) [b]) c = <[k := b]> (get m c).
Proof using Type.
  intros Hm Hk. pose proof (lo_nonneg m c Hm) as H0. pose proof (lo_in m Hm c) as Hin.
  unfold in_bounds in Hin. zbool. apply list_eq. intros j. unfold get. rewrite rd_lookup.
  assert (Ew : wr m (addr c + Z.of_nat k) [b] = <[Z.to_nat (addr c + Z.of_nat k) := b]> m) by done. rewrite Ew.
  replace (Z.to_nat (addr c + Z.of_nat k)) with (Z.to_nat (addr c) + k)%nat by lia.
  destruct (decide (j = k)) as [->|Hne].
  - rewrite decide_True by done. rewrite !list_lookup_insert_eq; [done| |lia].
    unfold rd. rewrite length_take, length_drop. lia.
  - rewrite !list_lookup_insert_ne by lia. by rewrite rd_lookup.
Qed.

Lemma tr_memcpy_to c (F : st -> Prop) bs :
  length bs = width c -> (forall k, still i (fun s => F s /\ take k (get s.2 c) = take k bs)) ->
  (forall g m k b, F (g, m) -> inv (g, m) -> (k < width c)%nat ->
     guar i (g, m) (g, wr m (addr c + Z.of_nat k) [b]) /\ F (g, wr m (addr c + Z.of_nat k) [b])) ->
  tr i F (memcpy_to (addr c) bs) (fun _ s => F s /\ get s.2 c = bs).
Proof using Type.
  intros Hlen Hst Hstep.
  assert (Hgen : forall l k, l = drop k bs ->
    tr i (fun s => F s /\ take k (get s.2 c) = take k bs) (memcpy_to (addr c + Z.of_nat k) l)
         (fun _ s => F s /\ take (length bs) (get s.2 c) = take (length bs) bs)).
  { induction l as [|b l IH]; intros k El; cbn [memcpy_to].
    - eapply tr_pre; [by apply tr_unit|]. intros s [Hs Ht] _. split; [done|].
      assert (Hk : (length bs <= k)%nat).
      { pose proof (f_equal length El) as E. rewrite length_drop in E. simpl in E. lia. }
      pose proof (f_equal (take (length bs)) Ht) as E. rewrite !take_take in E.
      by rewrite Nat.min_l in E by done.
    - symmetry in El. pose proof (drop_head _ _ _ _ El) as [Eb El'].
      pose proof (lookup_lt_Some _ _ _ Eb) as Hk. rewrite Hlen in Hk. eapply tr_bind.
      + apply (triple_act _ _ _ _ _ _ (fun _ s => F s /\ take (S k) (get s.2 c) = take (S k) bs)); [done|done|].
        intros g m [Hs Ht] Hi. cbn [safe_act act_step]. pose proof (lo_in m (inv_out _ Hi) c) as Hin.
        replace (width c) with (k + (1 + (width c - k - 1)))%nat in Hin by lia.
        apply in_bounds_split in Hin as [_ Hin]. apply in_bounds_split in Hin as [Hin _]. rewrite Hin.
        destruct (Hstep g m k b Hs Hi Hk) as [Hg Hs']. exists g. split; [done|]. split; [done|].
        cbn [snd] in *. rewrite get_wr_byte by (done || apply Hi).
        assert (Hl : length (get m c) = width c) by (apply length_rd, lo_in, Hi).
        rewrite (take_S_r _ k b), (take_S_r bs k b); [|done|by rewrite list_lookup_insert_eq by lia].
        by rewrite take_insert_ge, Ht by done.
      + intros ?. replace (addr c + Z.of_nat k + 1) with (addr c + Z.of_nat (S k)) by lia. by apply IH. }
  replace (addr c) with (addr c + Z.of_nat 0) by lia.
  eapply triple_conseq; [apply (Hgen bs 0%nat); by rewrite drop_0|by auto|].
  intros _ s [Hs Ht] Hi. split; [done|]. rewrite !take_ge in Ht; [done|done|].
  unfold get. rewrite length_rd; [lia|]. by apply lo_in, Hi.
Qed.

(** [wait(old)] returns when it has seen another value. *)
Lemma tr_atomic_wait o c old (P Q : st -> Prop) :
  width c = 4%nat -> buffer c = false -> still i P -> still i Q ->
  (forall s, P s -> inv s -> word s.2 c <> old -> Q s) ->
  tr i P (atomic_wait o (addr c) old) (fun _ => Q).
Proof using Type.
  intros Hw Hc HP HQ Hq. unfold atomic_wait. apply triple_forever; [apply rely_inv|done|done|].
  eapply tr_bind.
  { apply (tr_load32 o c P (fun v s => P s /\ (v <> old -> Q s))); try done; [|by eauto].
    intros v s s' [Hp Hv] Hi Hr. split; [by eapply HP|]. intros Hne. eapply HQ; eauto. }
  intros v. destruct (Z.eqb_spec v old) as [->|Hne].
  - eapply tr_bind; [eapply tr_pre; [by apply (tr_futex_wait c _ _ P)|by intros s []]|]. intros ?.
    by apply triple_ret.
  - eapply tr_pre; [apply (triple_ret _ _ _ _ (Some tt) Q)|]; [done|done|]. intros s [_ Hs] _. by apply Hs.
Qed.

(** ** The lock *)
Definition lock_framed (B : st -> Prop) : Prop :=
  still i B /\ forall ph ow ow' m v, laid_out m -> B ((ph, ow), m) -> B ((ph, ow'), set_word m CLock v).

Lemma tr_exchange B :
  lock_framed B ->
  tr i B (exchange32 acquire (at_lock L) 1) (fun old s => B s /\ (old = 0 -> s.1.2 = Some i)).
Proof using Type.
  intros [HB Hfr]. apply triple_act; [done| |].
  { intros old s s' [Hb Ho] Hi Hr. split; [by eapply HB|]. intros E.
    by apply (knows_lock _ _ _ (proj2 Hr)), Ho. }
  intros [ph ow] m Hb Hi. cbn [safe_act act_step]. pose proof Hi as [Hm Hf Hw Hr]. cbn [fst snd] in *.
  pose proof (lo_atomic m CLock Hm eq_refl) as Hok. cbn [addr width] in Hok. rewrite Hok.
  change (ld32 m (at_lock L)) with (word m CLock). change (st32 m (at_lock L) 1) with (set_word m CLock 1).
  rewrite Hw. destruct ow as [o|]; cbn [locked].
  - exists (ph, Some o). split; [apply (guar_lock i ph (Some o) (Some o)); auto|].
    split; [by apply Hfr with (Some o)|done].
  - exists (ph, Some i). split; [apply (guar_lock i ph None (Some i)); auto|].
    split; [by apply Hfr with None|done].
Qed.

Lemma tr_lock B :
  lock_framed B -> tr i B (ShmLock.lock (at_lock L)) (fun _ s => B s /\ s.1.2 = Some i).
Proof using Type.
  intros HB.
  assert (Hpost : still i (fun s => B s /\ s.1.2 = Some i)).
  { intros s s' [Hb Ho] Hi Hr. split; [by eapply HB|]. by apply (knows_lock _ _ _ (proj2 Hr)). }
  unfold ShmLock.lock, ShmLock.lock_slow. eapply tr_bind; [by apply tr_exchange|]. intros old.
  destruct (Z.eqb_spec old 0) as [->|Hne].
  { apply triple_ret; [done|]. intros s [Hb Ho]. by auto. }
  eapply tr_pre; [|by intros s [Hb _] _; exact Hb].
  apply triple_forever; [apply rely_inv|apply HB|done|]. eapply tr_bind; [by apply tr_exchange|]. intros old'.
  destruct (Z.eqb_spec old' 0) as [->|Hne']; cbn [negb].
  { apply triple_ret; [done|]. intros s [Hb Ho]. by auto. }
  eapply tr_bind; [|intros ?; apply triple_ret; [apply HB|by intros s Hs; exact Hs]].
  unfold ShmLock.futex_wait. eapply tr_bind; [eapply tr_pre; [apply (tr_futex_wait CLock _ _ B)|by intros s []]|];
    [done|done|apply HB|]. intros ?. apply triple_ret; [apply HB|done].
Qed.

Lemma tr_unlock B :
  lock_framed B ->
  tr i (fun s => (B s /\ s.1.2 = Some i) /\ exists d, ok d /\ get s.2 CRegion = to_bytes d)
       (ShmLock.unlock (at_lock L)) (fun _ => B).
Proof using Type.
  intros [HB Hfr]. unfold ShmLock.unlock. eapply tr_bind.
  - apply (tr_store32 _ CLock 0 _ B); [done|done| |done|].
    + intros s s' [[Hb Ho] Hd] Hi Hr. destruct (knows_lock _ _ _ (proj2 Hr) Ho) as [Ho' E].
      split; [split; [by eapply HB|done]|by rewrite E].
    + intros [ph ow] m [[Hb Ho] Hd] Hi. cbn [fst snd] in *. subst ow. exists (ph, None).
      split; [apply (guar_lock i ph (Some i) None); auto|]. apply Hfr with (Some i); [apply Hi|done].
  - intros ?. by apply (tr_futex_wake CLock).
Qed.
End Actions.

(** ** A storing process *)
Lemma free_framed i : lock_framed i free.
Proof using Type. by split. Qed.

Lemma holder_still i (P : list Z -> Prop) : still i (fun s => s.1.2 = Some i /\ P (get s.2 CRegion)).
Proof using Type.
  intros s s' [Ho Hp] _ [_ Hk]. destruct (knows_lock _ _ _ Hk Ho) as [Ho' E]. by rewrite E.
Qed.

Lemma tr_store i d :
  ok d -> tr (S (S i)) free (Storage.store (at_lock L) (at_shm L) d) (fun _ => free).
Proof using Type.
  intros Hd. unfold Storage.store. eapply tr_bind; [apply tr_lock, free_framed|]. intros ?. eapply tr_bind.
  - eapply tr_pre; [apply (tr_memcpy_to _ CRegion (fun s => s.1.2 = Some (S (S i))))|by intros s []].
    + apply length_to_bytes.
    + intros k. apply (holder_still _ (fun bs => take k bs = take k (to_bytes d))).
    + intros [ph ow] m k x Ho Hi Hk. cbn [fst snd] in *. subst ow. split; [|done].
      apply guar_region; [done|lia|simpl; simpl in Hk; lia].
  - intros ?. eapply tr_pre; [apply tr_unlock, free_framed|]. intros s [Ho Hb] _.
    split; [done|]. by exists d.
Qed.

Lemma tr_store_all i ds :
  Forall ok ds -> tr (S (S i)) free (store_all (at_lock L) (at_shm L) ds) (fun _ => free).
Proof using Type.
  induction 1 as [|d ds Hd _ IH]; cbn [store_all]; [by apply triple_ret|].
  eapply tr_bind; [by apply tr_store|]. by intros ?.
Qed.

(** ** The runner *)
Lemma facts_stop ph m : facts ph m -> word m CStop <> 0 -> ph = Stopping.
Proof using Type. destruct ph; cbn; intros Hf Hne; try done; destruct_and?; done. Qed.

Lemma tr_stop_requested i (P Q : st -> Prop) :
  still i P -> still i Q -> (forall s, P s -> inv s -> s.1.1 <> Stopping -> Q s) ->
  tr i P (SwapRunner.stop_requested (at_stop L))
     (fun b s => if b then s.1.1 = Stopping else Q s).
Proof using Type.
  intros HP HQ Hq. unfold SwapRunner.stop_requested. eapply tr_bind.
  - apply (tr_load32 i _ CStop P (fun v s => if v =? 0 then Q s else s.1.1 = Stopping)); try done.
    + intros v. destruct (v =? 0); [done|apply stopping_still].
    + intros s Hp Hi. destruct (Z.eqb_spec (word s.2 CStop) 0) as [E|Hne].
      * apply Hq; [done|done|]. intros Es. pose proof (inv_facts _ Hi) as Hf. rewrite Es in Hf. unfold facts in Hf. by rewrite E in Hf.
      * eapply facts_stop; [apply Hi|done].
  - intros v. apply triple_ret; cbn.
    + destruct (v =? 0); cbn; [done|apply stopping_still].
    + intros s. by destruct (v =? 0).
Qed.

(** Writing a private word in one's turn, perhaps handing the turn over. *)
Lemma put_step i c v ph ph' P (Q R : st -> Prop) :
  private c = true -> turn ph = Some i -> lockish i R -> (i = 1%nat -> posted ph') ->
  (forall m, laid_out m -> facts ph m -> P m ->
     facts ph' (set_word m c v) /\ forall ow, R ((ph', ow), set_word m c v) -> Q ((ph', ow), set_word m c v)) ->
  word_steps i c v (at_ ph P R) Q.
Proof using Type.
  intros Hc Ht [_ HR] Hp Hm [ph0 ow] m (E & HPm & HRm) Hi. cbn [fst snd] in *. subst ph0.
  pose proof Hi as [Hout Hf _ _]. cbn [fst snd] in *. destruct (Hm m Hout Hf HPm) as [Hf' HQ].
  exists (ph', ow). split.
  - unfold set_word in *. rewrite <- (Z.add_0_r (addr c)) in *.
    apply guar_private; try done; [by left|rewrite length_le_bytes; lia|by intros ->|by left; auto].
  - apply HQ. apply (HR ph ph' ow m); [done|]. apply get_set_ne; [done|by intros ->].
Qed.

Lemma at_lock_framed i ph P :
  turn ph = Some i -> framed P -> lock_framed i (at_ ph P free).
Proof using Type.
  intros Ht HP. split; [apply at_still; [done|done|apply free_lockish]|].
  intros ph0 ow ow' m v Hm (E & Hp & _). split; [done|]. split; [|done]. cbn [fst snd] in *.
  eapply HP; [|exact Hp]. intros c Hc. apply get_set_ne; [done|by intros <-].
Qed.
(** A store to a flag and the wake of its waiters. *)
Lemma tr_signal i o c v n (P Q : st -> Prop) :
  width c = 4%nat -> buffer c = false -> still i P -> still i Q -> word_steps i c v P Q ->
  tr i P (store32 o (addr c) v ;;; futex_wake_call (addr c) n) (fun _ => Q).
Proof using Type.
  intros Hw Hc HP HQ Hs. eapply tr_bind; [by eapply tr_store32|]. intros ?. by apply tr_futex_wake.
Qed.

(** Once it is stopping, the flags are anyone's. *)
Definition stopping (s : st) : Prop := s.1.1 = Stopping.

Lemma put_stopping i c v :
  c = CTrig \/ c = CIdle -> i = 0%nat \/ i = 1%nat -> word_steps i c v stopping stopping.
Proof using Type.
  intros Hc Hii [ph ow] m E Hi. unfold stopping in *. cbn [fst snd] in *. subst ph. exists (Stopping, ow). split; [|done].
  pose proof Hi as [Hm Hf _ _]. cbn [fst snd] in *. unfold set_word. rewrite <- (Z.add_0_r (addr c)).
  apply guar_private; [done|by destruct Hc as [-> | ->]|by right|done|rewrite length_le_bytes; lia| |done|by right].
  rewrite Z.add_0_r. fold (set_word m c v). unfold facts in *. by destruct Hc as [-> | ->]; rewrite word_set_ne.
Qed.

Lemma tr_stopping_signal i o c v n :
  c = CTrig \/ c = CIdle -> i = 0%nat \/ i = 1%nat ->
  tr i stopping (store32 o (addr c) v ;;; futex_wake_call (addr c) n) (fun _ => free).
Proof using Type.
  intros Hc Hii. eapply triple_conseq; [apply (tr_signal i o c v n stopping stopping)|done|done];
    [by destruct Hc as [-> | ->]|by destruct Hc as [-> | ->]|apply stopping_still|apply stopping_still|].
  by apply put_stopping.
Qed.
End Protocol.

Ltac solve_framed :=
  let Hk := fresh in intros ? ? Hk; unfold word; rewrite ?Hk by done; done.
Ltac words := repeat first [rewrite word_set_ne by done | rewrite word_set by (done || (cbn; lia))].

Section Runner.
Context {T : Set} `{HT : FlatType T} (L : layout) (ok : T -> Prop).
Abbreviation inv := (inv L ok).
Abbreviation tr i := (triple inv (rely L ok i) (fun _ => guar L ok i) (staying freely (rely L ok i))).
Abbreviation word := (word (T:=T) L).
Abbreviation get := (get (T:=T) L).
Abbreviation framed := (framed (T:=T) L).
Abbreviation owns := (owns (T:=T) L).
Abbreviation laid_out := (laid_out (T:=T) L).

Definition swapped (d : T) (m : mem) : Prop := get m CPre = to_bytes d /\ word m CSwp = at_pre L.

(** Copying into the private buffer is the runner's while it swaps. *)
Lemma copy_step (R : (phase * option nat) * mem -> Prop) g m k b :
  lockish L ok 1 R -> at_ Swapping (fun _ => True) R (g, m) -> inv (g, m) -> (k < sizeof T)%nat ->
  guar L ok 1 (g, m) (g, wr m (at_pre L + Z.of_nat k) [b]) /\
  at_ Swapping (fun _ => True) R (g, wr m (at_pre L + Z.of_nat k) [b]).
Proof using Type.
  intros [_ HR] (E & _ & Hr) Hi Hk. destruct g as [ph ow]. cbn [fst snd] in *. subst ph.
  pose proof Hi as [Hm Hf _ _]. cbn [fst snd] in *.
  assert (Hne : forall c, c <> CPre -> get (wr m (at_pre L + Z.of_nat k) [b]) c = get m c).
  { intros c Hc. apply (get_wr_ne L m CPre); [done|done|lia|cbn; lia]. }
  split.
  - apply (guar_private L ok 1 Swapping ow m CPre); try done; [by left|lia|cbn; lia| |by left].
    unfold facts, Loader.word. rewrite !Hne by done. done.
  - split; [done|]. split; [done|]. apply (HR Swapping _ _ m); [done|]. by apply Hne.
Qed.

Lemma tr_swap d m0 :
  laid_out m0 ->
  tr 1%nat (at_ Swapping (fun m => word m CStage = at_shm L) (owns 1 (to_bytes d))) (DblBufLoader.swap T L)
     (fun _ => at_ Swapping (swapped d) (owns 1 (to_bytes d))).
Proof using Type.
  intros Hlo. set (R := owns 1 (to_bytes d)). assert (HR : lockish L ok 1 R) by apply owns_lockish.
  assert (Hst : forall P, framed P -> stable inv (rely L ok 1) (at_ Swapping P R))
    by (intros P HP; by apply at_still).
  destruct (lo_pre L m0 Hlo) as [Hp Hpa]. destruct (lo_shm L m0 Hlo) as [Hs Hsa].
  assert (Hne : at_pre L <> at_shm L).
  { pose proof (lo_apart L m0 Hlo CPre CRegion ltac:(done)) as Hd. pose proof (sizeof_pos (T:=T)).
    unfold disjoint in Hd. cbn in Hd. lia. }
  unfold DblBufLoader.swap, DoubleBufferSwapper.swap. eapply tr_bind.
  { apply (tr_load64 L ok 1 _ CStage (fun v s => v = at_shm L /\ at_ Swapping (fun _ => True) R s)); try done.
    - apply Hst. solve_framed.
    - intros v. apply stable_and; [apply stable_pure|by apply Hst].
    - intros s (E & Hstage & Hr) _. done. }
  intros st. apply triple_pure. intros ->.
  do 5 (eapply tr_bind; [apply tr_assert; [rewrite ?(proj2 (Z.eqb_neq _ _)) by lia; rewrite ?Z.eqb_eq; done|by apply Hst]|intros ?]).
  eapply tr_bind.
  { apply (tr_memcpy_from L ok 1 CRegion _ (to_bytes d)); [by apply Hst|]. by intros s (_ & _ & _ & Hb) _. }
  intros bs. apply triple_pure. intros ->. eapply tr_bind.
  { eapply triple_conseq; [|by intros s Hat _; exact Hat|].
    - apply (tr_memcpy_to L ok 1 CPre (at_ Swapping (fun _ => True) R) (to_bytes d)); [apply length_to_bytes| |].
      + intros k. apply (stable_iff inv (rely L ok 1) (at_ Swapping (fun m => take k (get m CPre) = take k (to_bytes d)) R));
          [intros s; unfold at_; tauto|apply Hst; solve_framed].
      + intros g m k b' Hat Hi Hk. by apply copy_step.
    - intros ? s [(E & _ & Hr) Hb] _.
      exact (conj E (conj Hb Hr) : at_ Swapping (fun m => get m CPre = to_bytes d) R s). }
  intros ?. eapply tr_bind.
  { apply (tr_store64 L ok 1 _ CSwp (at_pre L) _ (at_ Swapping (swapped d) R)); try done;
      [apply Hst; solve_framed|apply Hst; unfold swapped; solve_framed|].
    apply put_step with (ph' := Swapping); try done. intros m Hm Hf Hb. split.
    - unfold facts in *. words. done.
    - intros ow Hr. split; [done|]. split; [|done]. split; cbn [snd]; [by rewrite get_set_ne|by words]. }
  intros ?. apply (tr_store64 L ok 1 _ CStage 0 (at_ Swapping (swapped d) R)); try done;
    [apply Hst; unfold swapped; solve_framed..|].
  apply put_step with (ph' := Swapping); try done. intros m Hm Hf [Hb Hw]. split.
  - unfold facts in *. words. done.
  - intros ow Hr. split; [done|]. split; [|done]. split; cbn [snd]; [by rewrite get_set_ne|by words].
Qed.

Definition published (m : mem) : Prop := word m CPub = at_pre L /\ snap L ok m CPre.

Lemma tr_task m0 :
  laid_out m0 ->
  tr 1%nat (at_ Swapping (fun m => word m CStage = at_shm L) free) (DblBufLoader.task T L)
     (fun threw s => threw = false /\ at_ Swapping published free s).
Proof using Type.
  intros Hlo. unfold DblBufLoader.task. eapply tr_bind.
  { apply tr_lock, at_lock_framed; [done|solve_framed]. }
  intros ?. eapply (tr_pre _ _ _ _ (fun s => exists d, ok d /\
    at_ Swapping (fun m => word m CStage = at_shm L) (owns 1 (to_bytes d)) s)).
  2:{ intros s [(E & Hs & _) Ho] Hi. destruct (inv_region _ _ _ Hi) as (d & Hd & Hb); [by rewrite Ho|].
      exists d. split; [done|]. split; [done|]. done. }
  apply triple_ex. intros d. apply triple_pure. intros Hd.
  set (R := owns 1 (to_bytes d)). assert (HR : lockish L ok 1 R) by apply owns_lockish.
  assert (Hst : forall P, framed P -> stable inv (rely L ok 1) (at_ Swapping P R))
    by (intros P HP; by apply at_still).
  eapply tr_bind; [by apply (tr_swap d m0)|]. intros ?. eapply tr_bind.
  { apply (tr_load64 L ok 1 _ CSwp (fun v s => v = at_pre L /\ at_ Swapping (swapped d) R s)); try done.
    - apply Hst. unfold swapped. solve_framed.
    - intros v. apply stable_and; [apply stable_pure|apply Hst; unfold swapped; solve_framed].
    - intros s (E & [Hb Hw] & Hr) _. done. }
  intros p. apply triple_pure. intros ->. eapply tr_bind.
  { apply (tr_store64 L ok 1 _ CPub (at_pre L) _ (at_ Swapping published R)); try done;
      [apply Hst; unfold swapped; solve_framed|apply Hst; unfold published, snap; solve_framed|].
    apply put_step with (ph' := Swapping); try done. intros m Hm Hf [Hb Hw]. split.
    - unfold facts in *. words. done.
    - intros ow Hr. split; [done|]. split; [|done]. split; cbn [snd].
      + apply word_set; [done|]. cbn. destruct (lo_pre L m0 Hlo). lia.
      + exists d. split; [done|]. by rewrite get_set_ne. }
  intros ?. eapply tr_bind.
  { eapply tr_pre; [apply (tr_unlock L ok 1 (at_ Swapping published free))|].
    - apply at_lock_framed; [done|]. unfold published, snap. solve_framed.
    - intros s (E & Hp & Ho & Hb) _. split; [done|]. by exists d. }
  intros ?. apply tr_ret. apply at_still; [done| |apply free_lockish]. unfold published, snap. solve_framed.
Qed.

(** From the wake-up to the next round. *)
Lemma tr_work m0 :
  laid_out m0 ->
  tr 1%nat (at_ Triggered (fun _ => True) free)
     (store32 relaxed (at_triggered L) 0 ;;;
      threw <- DblBufLoader.task T L ;;
      (if threw then Ret tt else Ret tt) ;;;
      store32 release (at_idle L) 1 ;;;
      notify_all (at_idle L) ;;;
      Ret (None : option unit))
     (fun r s => match r with Some _ => stopping s | None => free s end).
Proof using Type.
  intros Hlo. assert (Hf0 : lockish L ok 1 free) by apply free_lockish.
  assert (Hpub : framed published) by (unfold published, snap; solve_framed).
  eapply tr_bind.
  { apply (tr_store32 L ok 1 _ CTrig 0 _ (at_ Swapping (fun m => word m CStage = at_shm L) free)); try done;
      [by apply at_still|apply at_still; [done|solve_framed|done]|].
    apply put_step with (ph' := Swapping); try done. intros m Hm Hf _. unfold facts in *. split.
    - words. destruct_and!. done.
    - intros ow _. split; [done|]. split; [|done]. cbn [snd]. words. by destruct_and!. }
  intros ?. eapply tr_bind; [by apply (tr_task m0)|]. intros threw. apply triple_pure. intros ->.
  eapply tr_bind; [apply tr_unit; by apply at_still|]. intros ?. eapply tr_bind.
  { apply (tr_store32 L ok 1 _ CIdle 1 _ free); try done; [by apply at_still|].
    apply put_step with (ph' := Done); try done. intros m Hm Hf [Hw Hs]. unfold facts, snap in *. split; [|done].
    rewrite get_set_ne by done. words. destruct_and!. done. }
  intros ?. eapply tr_bind; [by apply (tr_futex_wake L ok 1 CIdle _ free)|]. intros ?. by apply triple_ret.
Qed.

Lemma tr_runner m0 : laid_out m0 -> tr 1%nat free (DblBufLoader.runner T L) (fun _ => free).
Proof using Type.
  intros Hlo. unfold DblBufLoader.runner, SwapRunner.run.
  assert (Hstop : tr 1%nat free (SwapRunner.stop_requested (at_stop L))
                     (fun b s => if b then stopping s else free s))
    by (by apply tr_stop_requested).
  assert (Hsst : stable inv (rely L ok 1) stopping) by apply stopping_still.
  assert (Htst : stable inv (rely L ok 1) (at_ Triggered (fun _ => True) free)) by (apply at_still; [done|done|apply free_lockish]).
  eapply tr_bind.
  { eapply tr_bind; [exact Hstop|]. intros [|]; [|by apply tr_unit].
    apply (tr_stopping_signal L ok 1 _ CTrig); auto. }
  intros ?. eapply tr_bind.
  2:{ intros ?. apply (tr_stopping_signal L ok 1 _ CIdle); auto. }
  apply triple_forever; [apply rely_inv|done|done|]. eapply tr_bind; [exact Hstop|].
  intros [|]; [by apply triple_ret|]. eapply tr_bind.
  { apply (tr_atomic_wait L ok 1 _ CTrig 0 _ (fun s => at_ Triggered (fun _ => True) free s \/ stopping s)); try done.
    - by apply stable_or.
    - intros [[ph ow] m] _ Hi Hne. destruct Hi as [_ Hf _ _]. unfold at_, stopping. cbn [fst snd] in *.
      destruct ph; cbn [facts] in Hf; try (by left); try (by right); destruct_and?; congruence. }
  intros ?. eapply tr_bind.
  { apply (tr_stop_requested L ok 1 _ (at_ Triggered (fun _ => True) free)); [by apply stable_or|done|].
    by intros s [Hs|Hs] _ Hne. }
  intros [|]; [by apply triple_ret|]. by apply (tr_work m0).
Qed.
End Runner.

Section ClientProof.
Context {T : Set} `{HT : FlatType T} (L : layout) (ok : T -> Prop).
Abbreviation inv := (inv L ok).
Abbreviation tr := (triple inv (rely L ok 0) (fun _ => guar L ok 0) (staying freely (rely L ok 0))).
Abbreviation still := (stable inv (rely L ok 0)).
Abbreviation word := (word (T:=T) L).
Abbreviation get := (get (T:=T) L).
Abbreviation framed := (framed (T:=T) L).
Abbreviation laid_out := (laid_out (T:=T) L).
Context (m_init : mem) (Hlo : laid_out m_init).

Lemma at0_still ph P : turn ph = Some 0%nat -> framed P -> still (at_ ph P free).
Proof using Type. intros Ht HP. apply at_still; [done|done|apply free_lockish]. Qed.

Definition idle (s : (phase * option nat) * mem) : Prop := exists ph, ready ph /\ at_ ph (fun _ => True) free s.

Lemma idle_still : still idle.
Proof using Type.
  intros s s' (ph & Hp & Hs) Hi Hr. exists ph. split; [done|].
  eapply (at0_still ph); [by destruct ph|done|exact Hs|done|done].
Qed.

Lemma tr_idle {A : Set} (p : prog A) Q :
  (forall ph, ready ph -> tr (at_ ph (fun _ => True) free) p Q) -> tr idle p Q.
Proof using Type. intros Hp. apply triple_ex. intros ph. by apply triple_pure, Hp. Qed.

Lemma tr_init_body :
  tr (at_ Start (fun m => word m CSwp = 0) free) (DblBufLoader.init_body L) (fun _ => idle).
Proof using Hlo.
  destruct (lo_shm L m_init Hlo) as [Hs _]. unfold DblBufLoader.init_body, DoubleBufferSwapper.set_active.
  assert (Hst : forall P, framed P -> still (at_ Start P free)) by (intros P HP; by apply at0_still).
  eapply tr_bind.
  { eapply tr_bind; [apply tr_assert; [by rewrite (proj2 (Z.eqb_neq _ _)) by lia|apply Hst; solve_framed]|].
    intros ?. eapply tr_bind.
    { apply (tr_load64 L ok 0 _ CSwp (fun v s => v = 0 /\ at_ Start (fun _ => True) free s)); try done.
      - apply Hst. solve_framed.
      - intros v. apply stable_and; [apply stable_pure|by apply Hst].
      - by intros s (E & Hw & _) _. }
    intros cur. apply triple_pure. intros ->.
    eapply tr_bind; [apply tr_assert; [by rewrite (proj2 (Z.eqb_neq _ _)) by lia|by apply Hst]|]. intros ?.
    apply (tr_store64 L ok 0 _ CSwp _ _ (at_ Start (fun _ => True) free)); try done; [by apply Hst..|].
    apply put_step with (ph' := Start); try done. intros m Hm Hf _. split; [|done].
    unfold facts in *. by words. }
  intros ?. eapply tr_bind.
  { apply (tr_load64 L ok 0 _ CSwp (fun _ => at_ Start (fun _ => True) free)); try done; intros; by apply Hst. }
  intros p. apply (tr_store64 L ok 0 _ CPub _ _ idle); try done; [by apply Hst|apply idle_still|].
  apply put_step with (ph' := Start); try done. intros m Hm Hf _. split; [|by exists Start].
  unfold facts in *. by words.
Qed.

Lemma tr_load :
  tr idle (DblBufLoader.load L) (fun v s => v = at_published_ptr L /\ posted s.1.1).
Proof using Hlo.
  destruct (lo_shm L m_init Hlo) as [Hs _]. apply tr_idle. intros ph Hph.
  assert (Ht : turn ph = Some 0%nat) by by destruct ph.
  unfold DblBufLoader.load, DoubleBufferSwapper.stage, SwapRunner.trigger.
  eapply tr_bind; [apply tr_assert; [by rewrite (proj2 (Z.eqb_neq _ _)) by lia|by apply at0_still]|].
  intros ?. eapply tr_bind.
  { eapply tr_bind; [apply tr_assert; [by rewrite (proj2 (Z.eqb_neq _ _)) by lia|by apply at0_still]|].
    intros ?. apply (tr_store64 L ok 0 _ CStage _ _ (at_ ph (fun m => word m CStage = at_shm L) free)); try done;
      [by apply at0_still|apply at0_still; [done|solve_framed]|].
    apply put_step with (ph' := ph); try done. intros m Hm Hf _. split.
    - destruct ph; try done; unfold facts, snap in *; rewrite ?get_set_ne by done; by words.
    - intros ow _. split; [done|]. split; [|done]. cbn [snd]. apply word_set; [done|]. cbn. lia. }
  intros ?. eapply tr_bind.
  { eapply tr_bind.
    { apply (tr_store32 L ok 0 _ CIdle 0 _ (at_ Loading (fun m => word m CStage = at_shm L) free)); try done;
        [apply at0_still; [done|solve_framed]..|].
      apply put_step with (ph' := Loading); try done. intros m Hm Hf Hw. split.
      - destruct ph; try done; unfold facts in *; words; destruct_and!; done.
      - intros ow _. split; [done|]. split; [|done]. cbn [snd]. by words. }
    intros ?. eapply (tr_signal L ok 0 _ CTrig 1); try done; [apply at0_still; [done|solve_framed]|apply posted_still|].
    apply put_step with (ph' := Triggered); try done. intros m Hm Hf Hw. split; [|done].
    unfold facts in *. words. destruct_and!. done. }
  intros ?. apply tr_ret, posted_still.
Qed.

Lemma tr_wait : tr (fun s => posted s.1.1) (DblBufLoader.wait L) (fun _ => at_ Done (fun _ => True) free).
Proof using Type.
  apply (tr_atomic_wait L ok 0 _ CIdle 0); try done; [apply posted_still|by apply at0_still|].
  intros [[ph ow] m] Hp Hi Hne. destruct Hi as [_ Hf _ _]. cbn [fst snd] in *.
  destruct ph; try done; cbn [facts] in Hf; destruct_and?; congruence.
Qed.

Section Uses.
Context (good : T -> bool) (Hgood : forall d, ok d -> good d = true).

Lemma tr_use :
  tr (at_ Done (fun _ => True) free) (d <- Snapshot.deref T (at_published_ptr L) ;; assert (good d))
     (fun _ => at_ Done (fun _ => True) free).
Proof using Hlo Hgood.
  destruct (lo_pre L m_init Hlo) as [Hp _].
  assert (Hst : forall P, framed P -> still (at_ Done P free)) by (intros P HP; by apply at0_still).
  unfold Snapshot.deref. eapply tr_bind.
  { eapply tr_bind.
    { apply (tr_load64 L ok 0 _ CPub (fun v s => exists d, (ok d /\ v = at_pre L) /\
               at_ Done (fun m => get m CPre = to_bytes d) free s)); try done; [by apply Hst| |].
      - intros v. apply stable_ex. intros d. apply stable_and; [apply stable_pure|apply Hst; solve_framed].
      - intros s (E & _) [_ Hf _ _]. rewrite E in Hf. destruct Hf as (_ & _ & _ & Hw & d & Hd & Hb).
        by exists d. }
    intros p. apply triple_ex. intros d. apply triple_pure. intros [Hd ->].
    eapply tr_bind; [apply tr_assert; [by rewrite (proj2 (Z.eqb_neq _ _)) by lia|apply Hst; solve_framed]|].
    intros ?. eapply tr_bind.
    { apply (tr_memcpy_from L ok 0 CPre _ (to_bytes d)); [apply Hst; solve_framed|by intros s (_ & Hb & _) _]. }
    intros bs. apply triple_pure. intros ->. rewrite of_to_bytes.
    apply (triple_ret _ _ _ _ d _ (fun d' s => good d' = true /\ at_ Done (fun _ => True) free s)).
    - apply stable_and; [apply stable_pure|by apply Hst].
    - intros s (E & _ & _). by rewrite (Hgood d Hd). }
  intros d. apply triple_pure. intros Hd. apply tr_assert; [done|by apply Hst].
Qed.

Lemma tr_rounds ks : tr idle (rounds T L good ks) (fun _ => idle).
Proof using Hlo Hgood.
  induction ks as [|k ks IH]; cbn [rounds]; [apply tr_unit, idle_still|].
  apply (tr_bind L ok 0 idle _ _ (fun _ => idle)); [|by intros ?].
  eapply tr_bind; [apply tr_load|]. intros p. apply triple_pure. intros ->.
  eapply tr_bind; [apply tr_wait|]. intros ?.
  assert (Hu : tr (at_ Done (fun _ => True) free) (uses T good (at_published_ptr L) k) (fun _ => at_ Done (fun _ => True) free)).
  { induction k as [|k IHk]; cbn [uses]; [apply tr_unit; by apply at0_still|].
    eapply tr_bind; [apply tr_use|]. by intros ?. }
  eapply triple_conseq; [exact Hu|done|]. intros ? s Hs _. by exists Done.
Qed.

Lemma tr_client ks :
  tr (at_ Start (fun m => word m CSwp = 0) free) (client T L good ks) (fun _ => free).
Proof using Hlo Hgood.
  unfold client. eapply tr_bind; [apply tr_init_body|]. intros ?. eapply tr_bind; [apply tr_rounds|]. intros ?.
  apply tr_idle. intros ph Hph. assert (Ht : turn ph = Some 0%nat) by by destruct ph.
  unfold DblBufLoader.stop_runner, SwapRunner.request_stop. eapply tr_bind.
  { apply (tr_store32 L ok 0 _ CStop 1 _ stopping); try done; [by apply at0_still|apply stopping_still|].
    apply put_step with (ph' := Stopping); try done. intros m Hm Hf _. split; [|done].
    cbn [facts]. apply word_set; [done|]. cbn. lia. }
  intros ?. apply (tr_stopping_signal L ok 0 _ CTrig); auto.
Qed.
End Uses.
End ClientProof.

(** ** The whole pool *)
Section Deployed.
Context {T : Set} `{HT : FlatType T} `{HK : FutexKernel} (L : layout) (good : T -> bool).
Abbreviation ok := (fun d => good d = true).
Abbreviation inv := (inv L ok).

(** Thread 0 is the client, thread 1 the runner, the rest store. *)
Definition deployed_threads (ks : list nat) (dss : list (list T)) : list (prog unit) :=
  client T L good ks :: DblBufLoader.runner T L :: (store_all (at_lock L) (at_shm L) <$> dss).
Definition deployed (ks : list nat) (dss : list (list T)) (m : mem) : pool := (m, Running <$> deployed_threads ks dss).

(** What the constructor finds: the members in place, the lock free, [d] in
    the segment. *)
Record found (m : mem) (d : T) : Prop := {
  found_out : laid_out (T:=T) L m;
  found_lock : ld32 m (at_lock L) = 0;
  found_value : rd m (at_shm L) (sizeof T) = to_bytes d
}.

Lemma constructed rc t m t' m' d :
  found m d -> runs (quiet rc) (DblBufLoader.init_members L) t m tt t' m' ->
  found m' d /\ facts L ok Start m' /\ word (T:=T) L m' CSwp = 0.
Proof using Type.
  intros [Hm Hl Hv] Hr. unfold DblBufLoader.init_members in Hr.
  assert (E : m' = set_word (T:=T) L (set_word (T:=T) L (set_word (T:=T) L (set_word (T:=T) L (set_word (T:=T) L (set_word (T:=T) L m
                     CSwp 0) CPub 0) CStage 0) CTrig 0) CIdle 1) CStop 0).
  { runs_inv. cbn [act_step interfere quiet] in *. unfold guard_opt in *. repeat case_match; simplify_eq. done. }
  assert (Hne : forall c v m0, laid_out (T:=T) L m0 -> laid_out (T:=T) L (set_word (T:=T) L m0 c v))
    by (intros; by apply laid_out_wr).
  rewrite E. split; [split|].
  - by repeat apply Hne.
  - change (word (T:=T) L m CLock = 0) in Hl.
    match goal with |- ld32 ?x _ = 0 => change (word (T:=T) L x CLock = 0) end. by rewrite !word_set_ne by auto 10.
  - change (get (T:=T) L m CRegion = to_bytes d) in Hv.
    match goal with |- rd ?x _ _ = _ => change (get (T:=T) L x CRegion = to_bytes d) end. by rewrite !get_set_ne by auto 10.
  - unfold facts. repeat first [rewrite word_set_ne by auto 10 | rewrite word_set by (auto 10 || (cbn; lia))]. done.
Qed.

Lemma deployed_rg ks dss m d :
  found m d -> facts L ok Start m -> word (T:=T) L m CSwp = 0 -> good d = true ->
  (forall x, x ∈ concat dss -> good x = true) ->
  pool_rg inv (rely L ok) (fun i _ => guar L ok i) (fun i => staying freely (rely L ok i)) (fun _ _ => free)
          0 (Z.of_nat (2 + length dss)) (fun _ => true) (fun _ => False) (deployed ks dss m).
Proof using Type.
  intros [Hm Hl Hv] Hf Hw Hd Hds.
  assert (Hi : inv ((Start, None), m)) by (split; cbn [fst snd storing]; [done|done|exact Hl|by exists d]).
  split; [apply few_all; cbn; rewrite !length_fmap; lia|]. exists (Start, None).
  split; [exact Hi|]. intros i th Hth. cbn [deployed fst snd] in *.
  apply list_lookup_fmap_Some in Hth as (p & -> & Hth). destruct i as [|[|i]]; cbn [deployed_threads lookup list_lookup] in Hth.
  - injection Hth as <-. by apply (tr_client L ok m Hm good).
  - injection Hth as <-. by apply (tr_runner L ok m).
  - change ((store_all (at_lock L) (at_shm L) <$> dss) !! i = Some p) in Hth.
    apply list_lookup_fmap_Some in Hth as (ds & -> & Eds).
    apply (tr_store_all L ok); [|done|done]. apply Forall_forall. intros x Hx. apply Hds.
    apply list_elem_of_In, in_concat. exists ds. split; [|done]. apply list_elem_of_In. by eapply list_elem_of_lookup_2.
Qed.

Lemma deployed_safe ks dss m d mx ts i p :
  found m d -> facts L ok Start m -> word (T:=T) L m CSwp = 0 -> good d = true ->
  (forall y, y ∈ concat dss -> good y = true) ->
  reachable (deployed ks dss m) (mx, ts) -> ts !! i = Some (Running p) -> local_step p mx <> Trapped.
Proof using Type.
  intros Hfo Hf Hw Hd Hds Hre Hp.
  edestruct (pool_rg_sound inv (rely L ok) (fun i _ => guar L ok i) (fun i => staying freely (rely L ok i)) (fun _ _ => free)
              0 (Z.of_nat (2 + length dss)) (fun _ => true) (fun _ => False))
    as [Hnt _]; [| |done|done|done|by eapply deployed_rg|exact Hre|by eapply Hnt].
  - intros j ev s s'. apply guar_inv.
  - intros j k ev s s'. apply guar_rely.
Qed.

(** The same interleaved: no assertion of the swapper, the loader or the
    snapshot fails, no access leaves its object, and every value read through
    the snapshot is whole. *)
Theorem loader_snapshots_whole rc t m t' m' d ks dss mx ts i p :
  found m d -> runs (quiet rc) (DblBufLoader.init_members L) t m tt t' m' ->
  good d = true -> (forall y, y ∈ concat dss -> good y = true) ->
  reachable (deployed ks dss m') (mx, ts) -> ts !! i = Some (Running p) ->
  local_step p mx <> Trapped.
Proof using Type.
  intros Hfo Hr Hd Hds. destruct (constructed _ _ _ _ _ _ Hfo Hr) as (Hfo' & Hf & Hw). by apply (deployed_safe ks dss m' d).
Qed.
End Deployed.

(** ** A concrete deployment: a value of 77, and one process storing 9 *)
Module DeployedWitness.
Definition L : layout := LoaderWitness.L.
Definition m0 : mem := LoaderWitness.m0.
Definition good (x : uint32) : bool := (uint_val x =? 77) || (uint_val x =? 9).

Lemma found0 : found L m0 (to_uint 4 77).
Proof.
  split; [split|reflexivity|reflexivity].
  - intros []; reflexivity.
  - intros []; try done; reflexivity.
  - intros [] [] Hne; try (by destruct Hne); unfold disjoint; simpl; lia.
  - split; [simpl; lia|reflexivity].
  - split; [simpl; lia|reflexivity].
Qed.

Definition m1 : mem :=
  match run 6 (quiet (fun _ => (0, 0))) (DblBufLoader.init_members L) 0 m0 with Value _ _ m => m | _ => m0 end.
Definition start : pool := deployed L good [1%nat; 2%nat] [[to_uint 4 9]] m1.

(** The first round reads 77, the store follows, the second round reads 9
    twice; the client has stopped the runner and finished. *)
Definition sched : list nat :=
  repeat 0%nat 11 ++ repeat 1%nat 30 ++ repeat 0%nat 14 ++ repeat 2%nat 7 ++ repeat 1%nat 27 ++ repeat 0%nat 15.
Definition stop : pool := run_to sched start.

Lemma deployed_stop_reachable : reachable start stop.
Proof. apply run_to_reachable. vm_compute. reflexivity. Qed.

Lemma loader_snapshots_whole_witness :
  rd stop.1 (at_pre L) 4 = to_bytes (to_uint 4 9) /\ finished stop 0 = true /\
  forall i p, stop.2 !! i = Some (Running p) -> local_step p stop.1 <> Trapped.
Proof.
  split; [vm_compute; reflexivity|]. split; [vm_compute; reflexivity|]. intros i p.
  apply (loader_snapshots_whole L good (fun _ => (0, 0)) 0 m0 6 m1 (to_uint 4 77) [1%nat; 2%nat] [[to_uint 4 9]]
           stop.1 stop.2 i p found0).
  - split; [lia|vm_compute; reflexivity].
  - reflexivity.
  - intros y. cbn. rewrite list_elem_of_singleton. by intros ->.
  - exact deployed_stop_reachable.
Defined.
End DeployedWitness.
