(* ===== verification/Delivery.v ===== *)
(** * A loader with one client delivers what was stored

    [image_shm.hpp] and [dblbuf_loader.hpp] used by a single thread that
    stores, loads, waits and reads its snapshot, as the benchmarks do.  Client
    and runner hand a baton to and fro: whoever has it owns every cell but the
    flags, so the part of the program in between is proved like a sequential
    one.  Both flags have sleepers; the ghost state says which wakes are owed,
    and from it follows that the two never sleep at the same time. *)
From stdpp Require Import relations.
From S2P Require Import Prelude Memory Prog History FlatType SeqCount Seqlock Pool RelyGuarantee Session ShmLock DoubleBuffer Loader.

(** ** The program *)
Section Program.
Context (T : Set) `{FlatType T} (L : layout).

(** [load], [wait] and what the snapshot holds, after a [store] or without. *)
Definition collect : prog T :=
  snapshot <- DoubleBufferShm.load L ;;
  DoubleBufferShm.wait L ;;;
  Snapshot.deref T snapshot.

Definition delivery (d : option T) : prog T :=
  match d with Some d => DoubleBufferShm.store T L d ;;; collect | None => collect end.

Fixpoint deliveries (rounds : list (option T)) : prog (list T) :=
  match rounds with
  | [] => Ret []
  | d :: rounds => x <- delivery d ;; xs <- deliveries rounds ;; Ret (x :: xs)
  end.

(** What the snapshots should hold, [d] being in the segment. *)
Fixpoint delivered (d : T) (rounds : list (option T)) : list T :=
  match rounds with [] => [] | o :: rounds => default d o :: delivered (default d o) rounds end.

(** From the constructor's body to the destructor's [runner_.reset()]. *)
Definition delivery_client (d0 : T) (rounds : list (option T)) : prog unit :=
  DblBufLoader.init_body L ;;;
  xs <- deliveries rounds ;;
  assert (bool_decide (to_bytes <$> xs = to_bytes <$> delivered d0 rounds)) ;;;
  DblBufLoader.stop_runner L.
End Program.

(** ** Who has the baton *)
Inductive hand (T : Set) : Set :=
| Mine                (* the client's, the runner idle *)
| Armed               (* the client's, [idle_] cleared *)
| Sent (d : T)        (* triggered: the runner's, with [d] in the segment *)
| Taken (d : T)       (* the runner has taken the trigger *)
| Back (d : T)        (* the runner is done: the client's as soon as it looks *)
| Ending              (* stop requested *)
| Ended.              (* and the runner triggered a last time *)
Arguments Mine {T}. Arguments Armed {T}. Arguments Sent {T} d. Arguments Taken {T} d. Arguments Back {T} d.
Arguments Ending {T}. Arguments Ended {T}.

(** Besides, whether a wake is owed to the sleepers of either flag. *)
Record ghost (T : Set) := Ghost { held : hand T; owes_trig : bool; owes_idle : bool }.
Arguments Ghost {T} _ _ _. Arguments held {T} _. Arguments owes_trig {T} _. Arguments owes_idle {T} _.

Section Baton.
Context {T : Set} `{HT : FlatType T} (L : layout).
Abbreviation word := (word (T:=T) L).
Abbreviation get := (get (T:=T) L).
Abbreviation addr := (addr L).
Abbreviation set_word := (set_word (T:=T) L).
Abbreviation laid_out := (laid_out (T:=T) L).
Abbreviation st := (ghost T * mem)%type.

Definition turn (h : hand T) : option nat :=
  match h with Mine | Armed | Back _ => Some 0%nat | Sent _ | Taken _ => Some 1%nat | Ending | Ended => None end.

Definition taken (h : hand T) : Prop := match h with Taken _ => True | _ => False end.
Definition over (h : hand T) : Prop := match h with Ending | Ended => True | _ => False end.
Definition posted (d : T) (h : hand T) : Prop := h = Sent d \/ h = Taken d \/ h = Back d.

Definition flags (h : hand T) (m : mem) : Prop :=
  match h with
  | Mine | Back _ => word m CIdle = 1 /\ word m CTrig = 0 /\ word m CStop = 0
  | Armed | Taken _ => word m CIdle = 0 /\ word m CTrig = 0 /\ word m CStop = 0
  | Sent _ => word m CIdle = 0 /\ word m CTrig = 1 /\ word m CStop = 0
  | Ending => word m CStop = 1
  | Ended => word m CTrig = 1 /\ word m CStop = 1
  end.

(** What comes with the baton. *)
Definition request (d : T) (m : mem) : Prop :=
  word m CLock = 0 /\ word m CStage = at_shm L /\ get m CRegion = to_bytes d.
Definition answer (d : T) (m : mem) : Prop :=
  word m CLock = 0 /\ get m CRegion = to_bytes d /\ word m CPub = at_pre L /\ get m CPre = to_bytes d.
Definition stored (d : T) (m : mem) : Prop := word m CLock = 0 /\ get m CRegion = to_bytes d.
Definition carries (h : hand T) (m : mem) : Prop :=
  match h with Sent d => request d m | Back d => answer d m | _ => True end.

Record inv (s : st) : Prop := {
  inv_out : laid_out s.2;
  inv_flags : flags (held s.1) s.2;
  inv_carries : carries (held s.1) s.2
}.

(** A thread owes nothing itself. *)
Definition even (j : nat) (g : ghost T) : Prop :=
  match j with O => owes_trig g = false | S O => owes_idle g = false | _ => True end.

(** What thread [j] knows of the steps of the other. *)
Record knows (j : nat) (s s' : st) : Prop := {
  knows_turn : turn (held s.1) = Some j -> held s'.1 = held s.1 /\ s'.2 = s.2;
  knows_over : over (held s.1) -> over (held s'.1);
  knows_ended : held s.1 = Ended -> held s'.1 = Ended;
  knows_posted d : j = 0%nat -> posted d (held s.1) -> posted d (held s'.1);
  knows_ending : j = 0%nat -> held s.1 = Ending -> held s'.1 = Ending;
  knows_taken : j = 1%nat -> ~ taken (held s.1) -> ~ taken (held s'.1);
  knows_even : even j s.1 -> even j s'.1 \/ j = 0%nat /\ held s'.1 = Ending
}.

(** The wakes owed to the sleepers of a flag, all of whom expect 0. *)
Definition account (c : cell) (owes : ghost T -> bool) (ev : event) (s s' : st) : Prop :=
  owes s'.1 = false ->
  match ev with
  | Calm => owes s.1 = false /\ word s'.2 c = word s.2 c \/ word s'.2 c = 0
  | Woke off n => owes s.1 = false \/ off = addr c /\ 1 <= n
  end.

Definition rely (j : nat) (s s' : st) : Prop := inv s' /\ knows j s s'.
Definition guar (i : nat) (ev : event) (s s' : st) : Prop :=
  inv s' /\ (forall j, j <> i -> knows j s s') /\
  account CTrig owes_trig ev s s' /\ account CIdle owes_idle ev s s'.

(** Each sleeps on its flag only, owing nothing. *)
Definition sleeps (i : nat) (off expected : Z) (s : st) : Prop :=
  expected = 0 /\ even i s.1 /\
  match i with
  | O => off = addr CIdle /\ exists d, posted d (held s.1)
  | S O => off = addr CTrig /\ ~ taken (held s.1)
  | _ => False
  end.

Abbreviation tr i := (triple inv (rely i) (guar i) (staying (sleeps i) (rely i))).
Abbreviation still i := (stable inv (rely i)).

Lemma baton_rely i s s' : rely i s s' -> inv s'.
Proof using Type. by intros []. Qed.

Lemma tr_seq {A B : Set} i (P : st -> Prop) (p : prog B) (k : B -> prog A) R Q :
  tr i P p R -> (forall b, tr i (R b) (k b) Q) -> tr i P (Bind p k) Q.
Proof using Type. apply triple_bind, baton_rely. Qed.

Lemma guar_idle i ev s :
  inv s -> match ev with Calm => True | Woke _ _ => even 0 s.1 /\ even 1 s.1 end -> guar i ev s s.
Proof using Type.
  intros Hi He. split; [done|]. split; [|split; unfold account; destruct ev; [by left|by left; apply He|by left|by left; apply He]].
  intros j _. split; auto.
Qed.

(** ** In one's turn: nothing else happens *)
Definition at_ (j : nat) (h : hand T) (P : mem -> Prop) (s : st) : Prop :=
  held s.1 = h /\ P s.2 /\ even j s.1.

Lemma has_still j h P : turn h = Some j -> still j (at_ j h P).
Proof using Type.
  intros Ht s s' (<- & Hp & He) _ [Hi Hk]. destruct (knows_turn _ _ _ Hk Ht) as [Eh Em].
  split; [done|]. split; [by rewrite Em|]. destruct (knows_even _ _ _ Hk He) as [|[_ E]]; [done|].
  rewrite Eh in E. by rewrite E in Ht.
Qed.

Definition private_hand (h : hand T) : Prop := match h with Mine | Armed | Taken _ => True | _ => False end.
Definition fine (h : hand T) (m : mem) : Prop := laid_out m /\ flags h m.

Lemma flags_same h m m' c :
  private_hand h -> flags h m -> flags h m' -> c = CTrig \/ c = CIdle -> word m' c = word m c.
Proof using Type. intros Hh Hf Hf' Hc. unfold flags in *. destruct h; try done; destruct_and!; destruct Hc as [-> | ->]; congruence. Qed.

(** A step within the turn. *)
Lemma turn_step j h g m m' ev :
  private_hand h -> turn h = Some j -> held g = h -> inv (g, m) -> fine h m' ->
  guar j ev (g, m) (g, m').
Proof using Type.
  intros Hh Ht <- Hi [Hm Hf]. pose proof (inv_flags _ Hi) as Hf0. cbn [fst snd] in *.
  split; [split; [done|done|cbn [fst snd]; by destruct (held g)]|]. split.
  - intros i Hne. split; auto; cbn [fst snd]; first [congruence|by left].
  - split; intros Ho; destruct ev; auto; left; (split; [done|]); (eapply flags_same; [exact Hh|done|done|auto]).
Qed.

Lemma wp_now {A : Set} (F : mem -> Prop) rc (p : prog A) t m (X : A -> mem -> Prop) :
  wp (quiet rc) p t m (fun a _ m' l => Forall F l /\ F m' /\ X a m') -> F m.
Proof using Type.
  intros Hw. destruct (ret_of p) as [b|] eqn:E.
  - destruct Hw as (a & t' & m' & Hr & _ & HF & _). by apply (ret_of_runs _ _ _ _ _ E) in Hr as (_ & _ & ->).
  - apply wp_first in Hw as (q & m1 & _ & a & t' & m' & _ & Hl & _); [|done]. by inversion Hl.
Qed.

Lemma wp_later {A : Set} (F : mem -> Prop) rc (p : prog A) t m (X : A -> mem -> Prop) x :
  wp (quiet rc) p t m (fun a _ m' l => Forall F (x :: l) /\ F m' /\ X a m') ->
  wp (quiet rc) p t m (fun a _ m' l => Forall F l /\ F m' /\ X a m').
Proof using Type. intros Hw. eapply wp_conseq; [exact Hw|]. intros a t' m' l (Hl & HF). split; [by inversion Hl|done]. Qed.

(** What a program that never waits does alone, it does in its turn. *)
Lemma turn_triple {A : Set} j h rc t (p : prog A) (P : mem -> Prop) (Q : A -> mem -> Prop) :
  private_hand h -> turn h = Some j -> never_waits p ->
  (forall m, fine h m -> P m -> wp (quiet rc) p t m (fun a _ m' l => Forall (fine h) l /\ fine h m' /\ Q a m')) ->
  tr j (at_ j h P) p (fun a => at_ j h (Q a)).
Proof using Type.
  intros Hh Ht Hnw Hwp s (Eh & HP & He) Hi.
  exists (fun q s => held s.1 = h /\ even j s.1 /\ never_waits q /\ exists q0 t, seen q q0 /\
            wp (quiet rc) q0 t s.2 (fun a _ m' l => Forall (fine h) l /\ fine h m' /\ Q a m')).
  split; [split|].
  { intros q s1 s2 (E1 & He1 & Hq & Hw) Hi1 Hr.
    destruct (has_still j h (fun m' => m' = s1.2) Ht s1 s2 (conj E1 (conj eq_refl He1)) Hi1 Hr) as (E2 & Em & He2).
    split; [done|]. split; [done|]. split; [done|]. by rewrite Em. }
  2:{ split; [done|]. split; [done|]. split; [done|]. exists p, t. split; [done|]. apply Hwp; [|done].
      split; [apply Hi|]. rewrite <- Eh. apply Hi. }
  intros q g m1 (Eg & Heg & Hq%uses_only_view & q0 & t0 & Hs & Hw) Hi1. cbn [fst snd] in *. rewrite Hs in Hq. rewrite Hs.
  pose proof (step_view q0 (rc t0) m1) as Hst. destruct (view q0) as [a|q'|B x c] eqn:Ev.
  - apply ret_of_view in Ev. destruct Hw as (a' & t' & m' & Hr & _ & _ & HQ).
    apply (ret_of_runs _ _ _ _ _ Ev) in Hr as (-> & _ & ->). done.
  - assert (Er : ret_of q0 = None) by (destruct (ret_of q0) eqn:E; [apply ret_of_view in E; congruence|done]).
    split; [done|]. split; [done|]. split; [done|]. apply wp_first in Hw as (q1 & m2 & Es & Hw); [|done]. cbn [quiet interfere futex_rc] in Es.
    destruct Hst as (q2 & Es' & Hseen). rewrite Es in Es'. injection Es' as -> ->. exists q2, (S t0). split; [done|].
    by eapply wp_later.
  - assert (Er : ret_of q0 = None) by (destruct (ret_of q0) eqn:E; [apply ret_of_view in E; congruence|done]).
    destruct Hq as [Hx Hc]. apply wp_first in Hw as (q1 & m2 & Es & Hw); [|done]. cbn [quiet interfere futex_rc] in Es.
    destruct (act_step (rc t0) x m1) as [[b m']|] eqn:Ea; [|congruence].
    destruct Hst as (q2 & Es' & Hseen). rewrite Es in Es'. injection Es' as -> ->.
    eapply safe_act_step; [exact Hx| |exact Ea|].
    { intros off n s' Hr. destruct (has_still j h (fun m' => m' = m1) Ht (g, m1) s' (conj Eg (conj eq_refl Heg)) Hi1 Hr) as (_ & -> & _). done. }
    intros ev. apply wp_later in Hw. exists g. split.
    + apply (turn_step j h); try done. by eapply wp_now.
    + split; [done|]. split; [done|]. split; [apply Hc|]. by exists q2, (S t0).
Qed.

(** *** Running alone without touching the flags *)
Definition flag (c : cell) : bool := match c with CTrig | CIdle | CStop => true | _ => false end.

Lemma flags_kept h m m' : (forall c, flag c = true -> word m' c = word m c) -> flags h m -> flags h m'.
Proof using Type. intros Hw. unfold flags. by rewrite !Hw. Qed.

Lemma fine_set h m c v : fine h m -> flag c = false -> fine h (set_word m c v).
Proof using Type.
  intros [Hm Hf] Hc. split; [by apply laid_out_wr|]. eapply flags_kept; [|exact Hf].
  intros d Hd. apply word_set_ne; [done|]. intros ->. by rewrite Hc in Hd.
Qed.

Lemma get_outside m m' c d :
  laid_out m -> outside (addr c) (width (T:=T) c) m m' -> c <> d -> get m' d = get m d.
Proof using Type.
  intros Hm Ho Hne. pose proof (lo_nonneg L m c Hm). pose proof (lo_nonneg L m d Hm).
  unfold Loader.get. symmetry. eapply outside_agree; [exact H| |by apply (lo_apart L m Hm)|done]. done.
Qed.

Definition inside (h : hand T) {A : Set} (p : prog A) (m : mem) (Q : A -> mem -> Prop) : Prop :=
  forall rc t, wp (quiet rc) p t m (fun a _ m' l => Forall (fine h) l /\ fine h m' /\ Q a m').

Section Inside.
Context (h : hand T).

Lemma inside_ret {A : Set} (a : A) m (Q : A -> mem -> Prop) : fine h m -> Q a m -> inside h (Ret a) m Q.
Proof using Type. intros Hm HQ rc t. by apply wp_ret. Qed.

Lemma inside_bind {A B : Set} (p : prog B) (k : B -> prog A) m Q :
  inside h p m (fun b m1 => inside h (k b) m1 Q) -> inside h (Bind p k) m Q.
Proof using Type.
  intros Hp rc t. apply wp_bind. eapply wp_conseq; [apply Hp|]. intros b t1 m1 l1 (Hl1 & _ & Hk).
  eapply wp_conseq; [apply Hk|]. intros a t2 m2 l2 (Hl2 & Hm2 & HQ). split; [by apply Forall_app|done].
Qed.

Lemma inside_load32 o c m (Q : Z -> mem -> Prop) :
  fine h m -> width (T:=T) c = 4%nat -> buffer c = false -> Q (word m c) m -> inside h (load32 o (addr c)) m Q.
Proof using Type.
  intros Hm Hw Hc HQ rc t. pose proof (lo_atomic L m c (proj1 Hm) Hc) as Hok. rewrite Hw in Hok.
  apply wp_load32; [done|]. cbn [quiet interfere]. unfold Loader.word, Loader.get in HQ. rewrite Hw in HQ. auto.
Qed.

Lemma inside_load64 o c m (Q : Z -> mem -> Prop) :
  fine h m -> width (T:=T) c = 8%nat -> buffer c = false -> Q (word m c) m -> inside h (load64 o (addr c)) m Q.
Proof using Type.
  intros Hm Hw Hc HQ rc t. pose proof (lo_atomic L m c (proj1 Hm) Hc) as Hok. rewrite Hw in Hok.
  apply wp_load64; [done|]. cbn [quiet interfere]. unfold Loader.word, Loader.get in HQ. rewrite Hw in HQ. auto.
Qed.

Lemma inside_store32 o c v m (Q : unit -> mem -> Prop) :
  fine h m -> width (T:=T) c = 4%nat -> buffer c = false -> flag c = false -> Q tt (set_word m c v) ->
  inside h (store32 o (addr c) v) m Q.
Proof using Type.
  intros Hm Hw Hc Hf HQ rc t. pose proof (lo_atomic L m c (proj1 Hm) Hc) as Hok. rewrite Hw in Hok.
  pose proof (fine_set h m c v Hm Hf) as Hm'. unfold Loader.set_word in *. rewrite Hw in *.
  apply wp_store32; [done|]. cbn [quiet interfere]. auto.
Qed.

Lemma inside_store64 o c v m (Q : unit -> mem -> Prop) :
  fine h m -> width (T:=T) c = 8%nat -> buffer c = false -> flag c = false -> Q tt (set_word m c v) ->
  inside h (store64 o (addr c) v) m Q.
Proof using Type.
  intros Hm Hw Hc Hf HQ rc t. pose proof (lo_atomic L m c (proj1 Hm) Hc) as Hok. rewrite Hw in Hok.
  pose proof (fine_set h m c v Hm Hf) as Hm'. unfold Loader.set_word in *. rewrite Hw in *.
  apply wp_store64; [done|]. cbn [quiet interfere]. auto.
Qed.

Lemma inside_xchg32 o c v m (Q : Z -> mem -> Prop) :
  fine h m -> width (T:=T) c = 4%nat -> buffer c = false -> flag c = false -> Q (word m c) (set_word m c v) ->
  inside h (exchange32 o (addr c) v) m Q.
Proof using Type.
  intros Hm Hw Hc Hf HQ rc t. pose proof (lo_atomic L m c (proj1 Hm) Hc) as Hok. rewrite Hw in Hok.
  pose proof (fine_set h m c v Hm Hf) as Hm'. unfold Loader.set_word, Loader.word, Loader.get in *. rewrite Hw in *.
  eapply wp_act; [cbn [act_step quiet interfere]; by rewrite Hok|]. auto.
Qed.

Lemma inside_wake c n m (Q : unit -> mem -> Prop) :
  fine h m -> width (T:=T) c = 4%nat -> buffer c = false -> Q tt m -> inside h (futex_wake_call (addr c) n) m Q.
Proof using Type.
  intros Hm Hw Hc HQ rc t. pose proof (lo_atomic L m c (proj1 Hm) Hc) as Hok. rewrite Hw in Hok.
  apply wp_futex_wake; [done|]. cbn [quiet interfere]. auto.
Qed.

Lemma inside_assert b m (Q : unit -> mem -> Prop) : fine h m -> b = true -> Q tt m -> inside h (assert b) m Q.
Proof using Type. intros Hm -> HQ. by apply inside_ret. Qed.

Lemma inside_memcpy_from c m (Q : list Z -> mem -> Prop) :
  fine h m -> Q (get m c) m -> inside h (memcpy_from (addr c) (width (T:=T) c)) m Q.
Proof using Type.
  intros Hm HQ rc t. pose proof (lo_in L m (proj1 Hm) c) as Hin. apply wp_memcpy_from; [auto with shm|by eapply lo_nonneg, Hm|done|].
  intros l Hl. split; [|done]. eapply List.Forall_impl; [|exact Hl]. by intros ? <-.
Qed.

Lemma inside_memcpy_to c bs m (Q : unit -> mem -> Prop) :
  fine h m -> buffer c = true -> length bs = width (T:=T) c ->
  (forall m', fine h m' -> get m' c = bs -> (forall d, d <> c -> get m' d = get m d) -> Q tt m') ->
  inside h (memcpy_to (addr c) bs) m Q.
Proof using Type.
  intros Hm Hc Hlen HQ rc t. pose proof (lo_in L m (proj1 Hm) c) as Hin. rewrite <- Hlen in Hin.
  assert (Hf : forall m', outside (addr c) (length bs) m m' -> fine h m' /\ forall d, d <> c -> get m' d = get m d).
  { intros m' Ho. rewrite Hlen in Ho. assert (Hget : forall d, d <> c -> get m' d = get m d).
    { intros d Hd. eapply get_outside; [apply Hm|exact Ho|by intros ->]. }
    split; [|done]. split; [eapply laid_out_length; [symmetry; apply Ho|apply Hm]|]. eapply flags_kept; [|apply Hm].
    intros d Hd. unfold Loader.word. rewrite Hget; [done|]. by intros ->; destruct c. }
  apply wp_memcpy_to; [done|]. intros t' l Hl.
  assert (Hw : outside (addr c) (length bs) m (wr m (addr c) bs)) by (symmetry; by apply outside_wr).
  destruct (Hf _ Hw) as [Hfw Hget].
  split; [eapply List.Forall_impl; [|exact Hl]; intros m' Hm'; by apply Hf|]. split; [done|]. apply HQ; [done| |done].
  unfold Loader.get. rewrite <- Hlen. by apply rd_wr_same.
Qed.
End Inside.

(** *** The lock is never contended *)
Lemma tr_at_pure {A : Set} i j h (phi : Prop) (P : mem -> Prop) (p : prog A) Q :
  (phi -> tr i (at_ j h P) p Q) -> tr i (at_ j h (fun m => phi /\ P m)) p Q.
Proof using Type.
  intros Hp. apply (triple_conseq _ _ _ _ _ (fun s => phi /\ at_ j h P s) _ _ Q); [by apply triple_pure| |done].
  by intros s (E & [Hphi HP] & He) _.
Qed.

Lemma tr_take_lock j h (P : mem -> Prop) :
  private_hand h -> turn h = Some j -> (forall m, P m -> word m CLock = 0) ->
  tr j (at_ j h P) (ShmLock.lock (at_lock L)) (fun _ => at_ j h (fun m' => exists m, P m /\ laid_out m /\ m' = set_word m CLock 1)).
Proof using Type.
  intros Hh Ht HP. unfold ShmLock.lock. eapply tr_seq.
  { apply (turn_triple j h (fun _ => (0, 0)) 0 _ _
      (fun old m' => old = 0 /\ exists m, P m /\ laid_out m /\ m' = set_word m CLock 1) Hh Ht); [done|].
    intros m Hm Hp. apply (inside_xchg32 h _ CLock); try done. split; [by apply HP|]. exists m. split; [done|]. split; [apply Hm|done]. }
  intros old. apply tr_at_pure. intros ->. apply triple_ret; [by apply has_still|done].
Qed.

Lemma fine_get_region h m : fine h m -> in_bounds m (at_shm L) (sizeof T) = true.
Proof using Type. intros [Hm _]. apply (lo_in L m Hm CRegion). Qed.

Lemma tr_client_store d :
  tr 0%nat (at_ 0 Mine (fun m => word m CLock = 0)) (DoubleBufferShm.store T L d)
     (fun _ => at_ 0 Mine (stored d)).
Proof using Type.
  unfold DoubleBufferShm.store, DoubleBufferShm.get_shm. eapply tr_seq; [by apply tr_take_lock|]. intros ?.
  apply (turn_triple 0 Mine (fun _ => (0, 0)) 0 _ _
    (fun _ => stored d)); [done|done|split; [by destruct (negb _)|split; [apply never_waits_memcpy_to|done]]|].
  intros m1 Hm1 (m & _ & Hm & ->). destruct (lo_shm L m Hm) as [Hs _].
  apply inside_bind, inside_bind, inside_assert; [done|by rewrite (proj2 (Z.eqb_neq _ _)) by lia|].
  apply inside_ret; [done|]. apply inside_bind.
  apply (inside_memcpy_to Mine CRegion); [done|done|apply length_to_bytes|]. intros m2 Hm2 Hb Hother.
  unfold ShmLock.unlock. apply inside_bind. apply (inside_store32 Mine _ CLock); try done.
  pose proof (fine_set Mine m2 CLock 0 Hm2 eq_refl) as Hm3.
  apply (inside_wake Mine CLock); try done. split; [apply word_set; [apply Hm2|cbn; lia]|].
  by rewrite get_set_ne; [|apply Hm2|].
Qed.

Lemma tr_stage d :
  (exists m, laid_out m) ->
  tr 0%nat (at_ 0 Mine (stored d))
     (DoubleBufferSwapper.stage (at_stage L) (at_shm L))
     (fun _ => at_ 0 Mine (request d)).
Proof using Type.
  intros (m0 & Hlo). destruct (lo_shm L m0 Hlo) as [Hs _].
  assert (Ha : negb (at_shm L =? 0) = true) by by rewrite (proj2 (Z.eqb_neq _ _)) by lia.
  unfold DoubleBufferSwapper.stage. rewrite Ha.
  apply (turn_triple 0 Mine (fun _ => (0, 0)) 0 _ _ (fun _ => request d)); [done|done|repeat split|].
  intros m Hm [Hl Hb]. apply inside_bind, inside_assert; [done|done|].
  apply (inside_store64 Mine _ CStage); try done. split; [|split].
  - by rewrite word_set_ne; [|apply Hm|].
  - apply word_set; [apply Hm|]. cbn. lia.
  - by rewrite get_set_ne; [|apply Hm|].
Qed.

(** ** Handing over *)
Definition other (i : nat) : nat := match i with O => 1 | _ => 0 end.

Lemma guar_other i ev s s' :
  (i < 2)%nat -> inv s' -> knows (other i) s s' -> account CTrig owes_trig ev s s' -> account CIdle owes_idle ev s s' ->
  guar i ev s s'.
Proof using Type.
  intros Hi2 Hi Hk Ht Hd. split; [done|]. split; [|done]. intros j Hne.
  destruct (decide (j < 2)%nat) as [Hj|Hj].
  - by assert (j = other i) as -> by (destruct i as [|[|]], j as [|[|]]; cbn; lia).
  - destruct Hk. destruct j as [|[|j]]; [lia..|]. split; auto; try done; try (by left); by destruct (held s.1).
Qed.

Section Acts.
Context (i : nat).

Lemma tr_put32 o c v (P Q : st -> Prop) :
  width (T:=T) c = 4%nat -> buffer c = false -> still i P -> still i Q ->
  (forall g m, P (g, m) -> inv (g, m) -> exists g', guar i Calm (g, m) (g', set_word m c v) /\ Q (g', set_word m c v)) ->
  tr i P (store32 o (addr c) v) (fun _ => Q).
Proof using Type.
  intros Hw Hc HP HQ Hq. apply triple_act; [done|done|]. intros g m Hp Hi. cbn [safe_act act_step].
  pose proof (lo_atomic L m c (inv_out _ Hi) Hc) as Hok. rewrite Hw in Hok. rewrite Hok.
  pose proof (Hq _ _ Hp Hi) as H. unfold Loader.set_word in H. by rewrite Hw in H.
Qed.

Lemma tr_get32 o c (P : st -> Prop) (Q : Z -> st -> Prop) :
  width (T:=T) c = 4%nat -> buffer c = false -> still i P -> (forall v, still i (Q v)) ->
  (forall g m, P (g, m) -> inv (g, m) -> exists g', guar i Calm (g, m) (g', m) /\ Q (word m c) (g', m)) ->
  tr i P (load32 o (addr c)) Q.
Proof using Type.
  intros Hw Hc HP HQ Hq. apply triple_act; [done|done|]. intros g m Hp Hi. cbn [safe_act act_step].
  pose proof (lo_atomic L m c (inv_out _ Hi) Hc) as Hok. rewrite Hw in Hok. rewrite Hok.
  pose proof (Hq _ _ Hp Hi) as H. unfold Loader.word, Loader.get in H. by rewrite Hw in H.
Qed.

Lemma tr_wake c n (P Q : st -> Prop) :
  width (T:=T) c = 4%nat -> buffer c = false -> still i P -> still i Q ->
  (forall g m, P (g, m) -> inv (g, m) -> exists g', guar i (Woke (addr c) n) (g, m) (g', m) /\ Q (g', m)) ->
  tr i P (futex_wake_call (addr c) n) (fun _ => Q).
Proof using Type.
  intros Hw Hc HP HQ Hq. apply triple_act; [done|done|]. intros g m Hp Hi. cbn [safe_act].
  pose proof (lo_atomic L m c (inv_out _ Hi) Hc) as Hok. rewrite Hw in Hok. split; [done|]. by apply Hq.
Qed.

Lemma tr_sleep c (P : st -> Prop) :
  width (T:=T) c = 4%nat -> buffer c = false -> still i P ->
  (forall s, P s -> inv s -> sleeps i (addr c) 0 s) -> tr i P (futex_wait_call (addr c) 0 None) (fun _ => P).
Proof using Type.
  intros Hw Hc HP Hs. apply triple_act; [done|done|]. intros g m Hp Hi. cbn [safe_act].
  pose proof (lo_atomic L m c (inv_out _ Hi) Hc) as Hok. rewrite Hw in Hok.
  split; [split; [done|by apply Hs]|]. intros rc. exists g. split; [by apply guar_idle|done].
Qed.

(** Waiting for a flag to become other than 0. *)
Lemma tr_await o c (P Q : st -> Prop) :
  width (T:=T) c = 4%nat -> buffer c = false -> still i P -> still i Q ->
  (forall s, P s -> inv s -> sleeps i (addr c) 0 s) ->
  (forall g m, P (g, m) -> inv (g, m) -> word m c <> 0 -> exists g', guar i Calm (g, m) (g', m) /\ Q (g', m)) ->
  tr i P (atomic_wait o (addr c) 0) (fun _ => Q).
Proof using Type.
  intros Hw Hc HP HQ Hs Hq. unfold atomic_wait. apply triple_forever; [apply baton_rely|done|done|]. eapply tr_seq.
  { apply (tr_get32 o c P (fun v s => if v =? 0 then P s else Q s)); try done; [by intros v; destruct (v =? 0)|].
    intros g m Hp Hi. destruct (Z.eqb_spec (word m c) 0) as [E|Hne]; [|by apply Hq].
    exists g. split; [by apply guar_idle|done]. }
  intros v. cbn beta. destruct (v =? 0).
  - eapply tr_seq; [by apply (tr_sleep c P)|]. intros rc. by apply triple_ret.
  - by apply triple_ret.
Qed.
End Acts.

(** *** The client's side *)
Definition waiting (d : T) (s : st) : Prop := posted d (held s.1) /\ even 0 s.1.

Lemma posted_not_ending d h : posted d h -> h <> Ending.
Proof using Type. by intros [->|[->| ->]]. Qed.

Lemma waiting_still d : still 0%nat (waiting d).
Proof using Type.
  intros s s' [Hp He] _ [_ Hk]. pose proof (knows_posted _ _ _ Hk d eq_refl Hp) as Hp'. split; [done|].
  destruct (knows_even _ _ _ Hk He) as [|[_ E]]; [done|]. by destruct (posted_not_ending d _ Hp').
Qed.

(** Between the store to the flag and its wake. *)
Definition sending (d : T) (s : st) : Prop := posted d (held s.1).

Lemma sending_still d : still 0%nat (sending d).
Proof using Type. intros s s' Hp _ [_ Hk]. by apply (knows_posted _ _ _ Hk). Qed.

Ltac knows_step := split; cbn; auto; try done; try (by intros ? ? [?|[?|?]]); try (intros; congruence).
Ltac in_words := unfold flags in *; destruct_and?; repeat first [rewrite word_set_ne by done | rewrite word_set by (done || (cbn; lia))].

Lemma tr_trigger d :
  tr 0%nat (at_ 0 Mine (request d)) (SwapRunner.trigger (at_triggered L) (at_idle L)) (fun _ => waiting d).
Proof using Type.
  assert (Hreq : forall m c v, laid_out m -> c = CIdle \/ c = CTrig -> request d m -> request d (set_word m c v)).
  { intros m c v Hm Hc (Hl & Hst & Hb). unfold request. destruct Hc as [-> | ->]; rewrite !word_set_ne, get_set_ne by done; done. }
  unfold SwapRunner.trigger. eapply tr_seq.
  { apply (tr_put32 0 _ CIdle 0 _ (at_ 0 Armed (request d))); [done|done|by apply has_still|by apply has_still|].
    intros [h b1 b2] m (E & HP & He) [Hm Hf _]. cbn [fst snd held] in *. subst h. exists (Ghost Armed b1 b2).
    assert (Hf' : flags Armed (set_word m CIdle 0)) by by in_words.
    split; [|split; [done|]; split; [by apply Hreq; auto|done]].
    apply guar_other; [lia|split; [by apply laid_out_wr|done|done]|knows_step| |].
    - intros Ho. left. split; [done|]. cbn [snd]. by rewrite word_set_ne.
    - intros Ho. right. apply Hf'. }
  intros ?. eapply tr_seq.
  { apply (tr_put32 0 _ CTrig 1 _ (sending d)); [done|done|by apply has_still|apply sending_still|].
    intros [h b1 b2] m (E & HP & He) [Hm Hf _]. cbn [fst snd held] in *. subst h. exists (Ghost (Sent d) true b2).
    assert (Hf' : flags (Sent d) (set_word m CTrig 1)) by by in_words.
    split; [|by left].
    apply guar_other; [lia|split; [by apply laid_out_wr|done|by apply Hreq; auto]|knows_step|done|].
    intros Ho. left. split; [done|]. cbn [snd]. by rewrite word_set_ne. }
  intros ?. apply (tr_wake 0 CTrig 1 _ (waiting d)); [done|done|apply sending_still|apply waiting_still|].
  intros [h b1 b2] m HP Hi. exists (Ghost h false b2). split; [|done]. unfold sending in HP. cbn [fst snd held] in *.
  apply guar_other; [lia|by destruct Hi|knows_step| |by left]. intros _. by right.
Qed.

Lemma tr_client_wait d :
  tr 0%nat (waiting d) (DblBufLoader.wait L) (fun _ => at_ 0 Mine (answer d)).
Proof using Type.
  apply (tr_await 0 _ CIdle); [done|done|apply waiting_still|by apply has_still| |].
  { intros s [Hp He] Hi. split; [done|]. split; [done|]. split; [done|]. by exists d. }
  intros [h b1 b2] m [Hp He] [Hm Hf Hc] Hne. cbn [fst snd held] in *.
  destruct Hp as [->|[->| ->]]; cbn in Hf; destruct_and?; [done|done|].
  exists (Ghost Mine b1 b2). split; [|done].
  apply guar_other; [lia|by split|knows_step|by left|by left].
Qed.

Lemma tr_read d :
  (exists m, laid_out m) ->
  tr 0%nat (at_ 0 Mine (answer d)) (Snapshot.deref T (at_published_ptr L)) (fun x => at_ 0 Mine (fun m => x = d /\ stored d m)).
Proof using Type.
  intros (m0 & Hlo). destruct (lo_pre L m0 Hlo) as [Hp _].
  apply (turn_triple 0 Mine (fun _ => (0, 0)) 0 _ _ (fun x m => x = d /\ stored d m)); [done|done| |].
  - split; [done|]. intros p. split; [apply never_waits_assert|]. intros _. split; [apply never_waits_memcpy_from|done].
  - intros m Hm (Hl & Hr & Hw & Hb). unfold Snapshot.deref. apply inside_bind.
    apply (inside_load64 Mine _ CPub); try done. rewrite Hw.
    apply inside_bind, inside_assert; [done|by rewrite (proj2 (Z.eqb_neq _ _)) by lia|].
    apply inside_bind, (inside_memcpy_from Mine CPre); [done|]. apply inside_ret; [done|]. by rewrite Hb, of_to_bytes.
Qed.

Lemma tr_collect d :
  (exists m, laid_out m) ->
  tr 0%nat (at_ 0 Mine (stored d)) (collect T L) (fun x => at_ 0 Mine (fun m => x = d /\ stored d m)).
Proof using Type.
  intros Hlo. unfold collect. eapply tr_seq with (R := fun p s => p = at_published_ptr L /\ waiting d s).
  { unfold DoubleBufferShm.load, DoubleBufferShm.get_shm.
    pose proof (tr_stage d Hlo) as Hstage. destruct Hlo as (m0 & Hlo). destruct (lo_shm L m0 Hlo) as [Hs _].
    rewrite (proj2 (Z.eqb_neq _ _)) by lia.
    eapply tr_seq with (R := fun shm s => shm = at_shm L /\ at_ 0 Mine (stored d) s).
    { eapply tr_seq with (R := fun _ => at_ 0 Mine (stored d)); [apply triple_ret; [by apply has_still|done]|]. intros ?.
      apply triple_ret; [|done]. apply stable_and; [apply stable_pure|by apply has_still]. }
    intros shm. apply triple_pure. intros ->. eapply tr_seq; [exact Hstage|]. intros ?. eapply tr_seq; [apply tr_trigger|]. intros ?.
    apply triple_ret; [|done]. apply stable_and; [apply stable_pure|apply waiting_still]. }
  intros p. apply triple_pure. intros ->. eapply tr_seq; [apply tr_client_wait|]. intros ?. by apply tr_read.
Qed.

Lemma tr_deliveries d rounds :
  (exists m, laid_out m) ->
  tr 0%nat (at_ 0 Mine (stored d)) (deliveries T L rounds)
     (fun xs => at_ 0 Mine (fun m => xs = delivered T d rounds /\ word m CLock = 0)).
Proof using Type.
  intros Hlo. revert d. induction rounds as [|o rounds IH]; intros d; cbn [deliveries delivered].
  { apply triple_ret; [by apply has_still|]. by intros s (E & [Hl _] & He). }
  eapply tr_seq with (R := fun x => at_ 0 Mine (fun m => x = default d o /\ stored (default d o) m)).
  { destruct o as [d'|]; cbn [delivery default]; [|by apply tr_collect].
    eapply tr_seq; [eapply triple_conseq; [apply (tr_client_store d')|by intros s (E & [Hl _] & He)|done]|]. intros ?. by apply tr_collect. }
  intros x. apply tr_at_pure. intros ->. eapply tr_seq; [apply IH|]. intros xs. apply tr_at_pure. intros ->.
  apply triple_ret; [by apply has_still|]. by intros s (E & Hl & He).
Qed.

Lemma tr_init d :
  (exists m, laid_out m) ->
  tr 0%nat (at_ 0 Mine (fun m => stored d m /\ word m CSwp = 0)) (DblBufLoader.init_body L)
     (fun _ => at_ 0 Mine (stored d)).
Proof using Type.
  intros (m0 & Hlo). destruct (lo_shm L m0 Hlo) as [Hs _].
  assert (Hn : at_shm L <> 0) by lia.
  apply (turn_triple 0 Mine (fun _ => (0, 0)) 0 _ _ (fun _ => stored d)); [done|done| |].
  - unfold DblBufLoader.init_body, DoubleBufferSwapper.set_active. split; [|done]. split; [apply never_waits_assert|].
    intros _. split; [done|]. intros cur. split; [apply never_waits_assert|done].
  - intros m Hm [[Hl Hr] Hw]. unfold DblBufLoader.init_body, DoubleBufferSwapper.set_active.
    apply inside_bind, inside_bind, inside_assert; [done|by rewrite (proj2 (Z.eqb_neq _ _))|].
    apply inside_bind, (inside_load64 Mine _ CSwp); try done. rewrite Hw.
    apply inside_bind, inside_assert; [done|by rewrite (proj2 (Z.eqb_neq _ _))|].
    apply (inside_store64 Mine _ CSwp); try done.
    pose proof (fine_set Mine m CSwp (at_shm L) Hm eq_refl) as Hm2.
    apply inside_bind, (inside_load64 Mine _ CSwp); try done.
    apply (inside_store64 Mine _ CPub); try done. split.
    + by rewrite word_set_ne, word_set_ne; [|apply Hm|done|apply Hm2|].
    + by rewrite get_set_ne, get_set_ne; [|apply Hm|done|apply Hm2|].
Qed.

(** Asking the runner to stop. *)
Definition ended (s : st) : Prop := held s.1 = Ended /\ even 0 s.1.

Lemma ended_still : still 0%nat ended.
Proof using Type.
  intros s s' [E He] _ [_ Hk]. pose proof (knows_ended _ _ _ Hk E) as E'. split; [done|].
  destruct (knows_even _ _ _ Hk He) as [|[_ E2]]; [done|]. by rewrite E' in E2.
Qed.

Lemma tr_stop : tr 0%nat (at_ 0 Mine (fun m => word m CLock = 0)) (DblBufLoader.stop_runner L) (fun _ => ended).
Proof using Type.
  assert (Hending : still 0%nat (fun s => held s.1 = Ending)) by (intros s s' E _ [_ Hk]; by apply (knows_ending _ _ _ Hk)).
  assert (Hended : still 0%nat (fun s => held s.1 = Ended)) by (intros s s' E _ [_ Hk]; by apply (knows_ended _ _ _ Hk)).
  unfold DblBufLoader.stop_runner, SwapRunner.request_stop, SwapRunner.on_stop. eapply tr_seq.
  { apply (tr_put32 0 _ CStop 1 _ (fun s => held s.1 = Ending)); [done|done|by apply has_still|done|].
    intros [h b1 b2] m (E & _ & He) [Hm Hf _]. cbn [fst snd held] in *. subst h. exists (Ghost Ending b1 b2).
    split; [|done].
    assert (Hf' : flags Ending (set_word m CStop 1)) by by in_words.
    apply guar_other; [lia|split; [by apply laid_out_wr|done|done]
      |knows_step| |].
    - intros Ho. left. split; [done|]. cbn [snd]. by rewrite word_set_ne.
    - intros Ho. left. split; [done|]. cbn [snd]. by rewrite word_set_ne. }
  intros ?. eapply tr_seq.
  { apply (tr_put32 0 _ CTrig 1 _ (fun s => held s.1 = Ended)); [done|done|done|done|].
    intros [h b1 b2] m E [Hm Hf _]. cbn [fst snd held] in *. subst h. exists (Ghost Ended true b2).
    split; [|done].
    assert (Hf' : flags Ended (set_word m CTrig 1)) by by in_words.
    apply guar_other; [lia|split; [by apply laid_out_wr|done|done]|knows_step|done|].
    - intros Ho. left. split; [done|]. cbn [snd]. by rewrite word_set_ne. }
  intros ?. apply (tr_wake 0 CTrig 1 _ ended); [done|done|done|apply ended_still|].
  intros [h b1 b2] m E Hi. cbn [fst snd held] in *. subst h. exists (Ghost Ended false b2). split; [|done].
  apply guar_other; [lia|by destruct Hi|knows_step| |by left]. intros _. by right.
Qed.

Lemma tr_delivery_client d0 rounds :
  (exists m, laid_out m) ->
  tr 0%nat (at_ 0 Mine (fun m => stored d0 m /\ word m CSwp = 0)) (delivery_client T L d0 rounds) (fun _ => ended).
Proof using Type.
  intros Hlo. unfold delivery_client. eapply tr_seq; [by apply tr_init|]. intros ?.
  eapply tr_seq; [by apply tr_deliveries|]. intros xs. apply tr_at_pure. intros ->.
  rewrite bool_decide_eq_true_2 by done. eapply tr_seq; [|intros ?; apply tr_stop].
  apply triple_ret; [by apply has_still|done].
Qed.

(** *** The runner's side *)
Definition looping (s : st) : Prop := ~ taken (held s.1) /\ even 1 s.1.
Definition stopping (s : st) : Prop := over (held s.1).

Lemma looping_still : still 1%nat looping.
Proof using Type.
  intros s s' [Ht He] _ [_ Hk]. split; [by apply (knows_taken _ _ _ Hk)|].
  by destruct (knows_even _ _ _ Hk He) as [|[? _]].
Qed.

Lemma baton_stopping_still : still 1%nat stopping.
Proof using Type. intros s s' Ho _ [_ Hk]. by apply (knows_over _ _ _ Hk). Qed.

Lemma stopped_over h m : flags h m -> word m CStop <> 0 -> over h.
Proof using Type. destruct h; cbn; intros Hf Hne; try done; by destruct_and?. Qed.

Lemma over_stopped h m : flags h m -> over h -> word m CStop <> 0.
Proof using Type. destruct h; cbn; intros Hf Ho; try done; destruct_and?; congruence. Qed.

(** Asking whether to stop, in a state that may be over. *)
Lemma tr_asked (P Q : st -> Prop) :
  still 1%nat P -> still 1%nat Q -> (forall s, P s -> ~ over (held s.1) -> Q s) ->
  tr 1%nat P (SwapRunner.stop_requested (at_stop L)) (fun b s => if b then stopping s else Q s).
Proof using Type.
  intros HP HQ Hq. unfold SwapRunner.stop_requested. eapply tr_seq.
  - apply (tr_get32 1 _ CStop P (fun v s => if v =? 0 then Q s else stopping s)); try done.
    + intros v. destruct (v =? 0); [done|apply baton_stopping_still].
    + intros g m Hp Hi. exists g. split; [by apply guar_idle|]. destruct (Z.eqb_spec (word m CStop) 0) as [E|Hne].
      * apply Hq; [done|]. intros Ho. by destruct (over_stopped _ _ (inv_flags _ Hi) Ho).
      * by apply (stopped_over _ _ (inv_flags _ Hi)).
  - intros v. apply triple_ret; cbn.
    + destruct (v =? 0); cbn; [done|apply baton_stopping_still].
    + intros s. by destruct (v =? 0).
Qed.

(** The critical section of the task. *)
Definition section_of_task : prog bool :=
  DblBufLoader.swap T L ;;;
  p <- load64 plain (at_swapper_ptr L) ;;
  store64 release (at_published_ptr L) p ;;;
  ShmLock.unlock (at_lock L) ;;;
  Ret false.

Lemma section_never_waits : never_waits section_of_task.
Proof using Type.
  unfold section_of_task, DblBufLoader.swap, DoubleBufferSwapper.swap.
  repeat first [exact I | apply never_waits_assert | apply never_waits_memcpy_from | apply never_waits_memcpy_to
               | split | intros ?].
Qed.

Lemma section_swaps d m :
  fine (Taken d) m -> request d m ->
  inside (Taken d) section_of_task (set_word m CLock 1) (fun threw m' => threw = false /\ answer d m').
Proof using Type.
  intros Hm0 (_ & Hst0 & Hb0). destruct (lo_pre L m (proj1 Hm0)) as [Hp Hpa]. destruct (lo_shm L m (proj1 Hm0)) as [Hs Hsa].
  assert (Hne : at_pre L <> at_shm L).
  { pose proof (lo_apart L m (proj1 Hm0) CPre CRegion ltac:(done)) as Hd. pose proof (sizeof_pos (T:=T)).
    unfold disjoint in Hd. cbn in Hd. lia. }
  pose proof (fine_set (Taken d) m CLock 1 Hm0 eq_refl) as Hm.
  assert (Hst : word (set_word m CLock 1) CStage = at_shm L) by by rewrite word_set_ne; [|apply Hm0|].
  assert (Hb : get (set_word m CLock 1) CRegion = to_bytes d) by by rewrite get_set_ne; [|apply Hm0|].
  clear Hst0 Hb0. revert Hm Hst Hb. generalize (set_word m CLock 1). clear m Hm0. intros m Hm Hst Hb.
  unfold section_of_task, DblBufLoader.swap, DoubleBufferSwapper.swap.
  apply inside_bind, inside_bind, (inside_load64 _ _ CStage); try done. rewrite Hst.
  do 5 (apply inside_bind, inside_assert; [done|rewrite ?(proj2 (Z.eqb_neq _ _)) by lia; rewrite ?Z.eqb_eq; done|]).
  apply inside_bind, (inside_memcpy_from _ CRegion); [done|]. rewrite Hb.
  apply inside_bind, (inside_memcpy_to _ CPre); [done|done|apply length_to_bytes|]. intros m1 Hm1 Hpre Hother.
  apply inside_bind, (inside_store64 _ _ CSwp); try done.
  pose proof (fine_set _ m1 CSwp (at_pre L) Hm1 eq_refl) as Hm2. set (m2 := set_word m1 CSwp (at_pre L)) in *.
  apply (inside_store64 _ _ CStage); try done.
  pose proof (fine_set _ m2 CStage 0 Hm2 eq_refl) as Hm3. set (m3 := set_word m2 CStage 0) in *.
  apply inside_bind, (inside_load64 _ _ CSwp); try done.
  assert (Hw : word m3 CSwp = at_pre L).
  { unfold m3, m2. rewrite word_set_ne; [|apply Hm2|done]. apply word_set; [apply Hm1|cbn; lia]. }
  rewrite Hw. apply inside_bind, (inside_store64 _ _ CPub); try done.
  pose proof (fine_set _ m3 CPub (at_pre L) Hm3 eq_refl) as Hm4. set (m4 := set_word m3 CPub (at_pre L)) in *.
  apply inside_bind. unfold ShmLock.unlock. apply inside_bind, (inside_store32 _ _ CLock); try done.
  pose proof (fine_set _ m4 CLock 0 Hm4 eq_refl) as Hm5. apply (inside_wake _ CLock); try done.
  apply inside_ret; [done|]. split; [done|]. split; [|split; [|split]].
  - apply word_set; [apply Hm4|cbn; lia].
  - unfold m4, m3, m2. rewrite !get_set_ne; try done; try apply Hm1; try apply Hm2; try apply Hm3; try apply Hm4.
    by rewrite Hother.
  - rewrite word_set_ne; [|apply Hm4|done]. apply word_set; [apply Hm3|cbn; lia].
  - unfold m4, m3, m2. rewrite !get_set_ne; try done; try apply Hm1; try apply Hm2; try apply Hm3; apply Hm4.
Qed.

Lemma tr_baton_task d :
  tr 1%nat (at_ 1 (Taken d) (request d)) (DblBufLoader.task T L)
     (fun threw s => threw = false /\ at_ 1 (Taken d) (answer d) s).
Proof using Type.
  unfold DblBufLoader.task. eapply tr_seq; [apply tr_take_lock; [done|done|by intros m []]|]. intros ?.
  eapply triple_conseq; [apply (turn_triple 1 (Taken d) (fun _ => (0, 0)) 0 section_of_task
      (fun m' => exists m, request d m /\ laid_out m /\ m' = set_word m CLock 1)
      (fun threw m' => threw = false /\ answer d m'))| |].
  - done.
  - done.
  - apply section_never_waits.
  - intros m' Hm' (m & Hr & Hm & ->). apply section_swaps; [|done]. split; [done|].
    destruct Hm' as [_ Hf]. eapply flags_kept; [|exact Hf]. intros c Hc. symmetry. apply word_set_ne; [done|].
    by intros <-.
  - by intros s Hp _.
  - intros threw s (E & [Ht Ha] & He) _. by split.
Qed.

(** A flag set and its sleepers woken once all is over. *)
Lemma tr_over_trig o :
  tr 1%nat stopping (store32 o (at_triggered L) 1 ;;; futex_wake_call (at_triggered L) 1) (fun _ => stopping).
Proof using Type.
  eapply tr_seq with (R := fun _ => stopping).
  - apply (tr_put32 1 _ CTrig); [done|done|apply baton_stopping_still..|].
    intros [h b1 b2] m Ho [Hm Hf Hc]. unfold stopping in *. cbn [fst snd held] in *.
    assert (Hf' : flags h (set_word m CTrig 1)) by (destruct h; try done; by in_words).
    destruct h; try done.
    + exists (Ghost Ending true b2). split; [|done].
      apply guar_other; [lia|split; [by apply laid_out_wr|done|done]|knows_step|done|].
      intros Hb. left. split; [done|]. cbn [snd]. by rewrite word_set_ne.
    + exists (Ghost Ended b1 b2). split; [|done].
      apply guar_other; [lia|split; [by apply laid_out_wr|done|done]|knows_step| |].
      * intros Hb. left. split; [done|]. cbn [snd fst]. destruct Hf as [-> _]. apply word_set; [done|cbn; lia].
      * intros Hb. left. split; [done|]. cbn [snd]. by rewrite word_set_ne.
  - intros ?. apply (tr_wake 1 CTrig); [done|done|apply baton_stopping_still..|].
    intros g m Ho Hi. exists g. split; [|done].
    apply guar_other; [lia|done|knows_step|by left|by left].
Qed.

Lemma tr_over_idle o :
  tr 1%nat stopping (store32 o (at_idle L) 1 ;;; futex_wake_call (at_idle L) INT_MAX) (fun _ => stopping).
Proof using Type.
  eapply tr_seq with (R := fun _ => stopping).
  - apply (tr_put32 1 _ CIdle); [done|done|apply baton_stopping_still..|].
    intros [h b1 b2] m Ho [Hm Hf Hc]. unfold stopping in *. cbn [fst snd held] in *.
    assert (Hf' : flags h (set_word m CIdle 1)) by (destruct h; try done; by in_words).
    assert (Ht : turn h = None) by by destruct h.
    exists (Ghost h b1 true). split; [|done].
    apply guar_other; [lia|split; [by apply laid_out_wr|done|by destruct h]|knows_step| |done].
    intros Hb. left. split; [done|]. cbn [snd]. by rewrite word_set_ne.
  - intros ?. apply (tr_wake 1 CIdle); [done|done|apply baton_stopping_still..|].
    intros g m Ho Hi. exists g. split; [|done].
    apply guar_other; [lia|done|knows_step|by left|by left].
Qed.

(** From the trigger to the next round. *)
Lemma tr_round d :
  tr 1%nat (at_ 1 (Sent d) (fun _ => True))
     (store32 relaxed (at_triggered L) 0 ;;;
      threw <- DblBufLoader.task T L ;;
      (if threw then Ret tt else Ret tt) ;;;
      store32 release (at_idle L) 1 ;;;
      notify_all (at_idle L) ;;;
      Ret (None : option unit))
     (fun r s => match r with Some _ => stopping s | None => looping s end).
Proof using Type.
  assert (Hreq : forall (Ans : T -> mem -> Prop) m c v, laid_out m -> c = CIdle \/ c = CTrig ->
            Ans = request \/ Ans = answer -> Ans d m -> Ans d (set_word m c v)).
  { intros Ans m c v Hm Hc HA Ha. by destruct HA as [-> | ->], Hc as [-> | ->]; unfold request, answer in *;
      rewrite !word_set_ne, !get_set_ne by done. }
  eapply tr_seq.
  { apply (tr_put32 1 _ CTrig 0 _ (at_ 1 (Taken d) (request d))); [done|done|by apply has_still|by apply has_still|].
    intros [h o1 o2] m (E & _ & He) [Hm Hf Hc]. cbn [fst snd held] in *. subst h. exists (Ghost (Taken d) o1 o2).
    assert (Hf' : flags (Taken d) (set_word m CTrig 0)) by by in_words.
    split; [|split; [done|]; split; [by apply (Hreq request); auto|done]].
    apply guar_other; [lia|split; [by apply laid_out_wr|done|done]|knows_step| |].
    - intros d' _ [[= ->]|[?|?]]; try done. right. by left.
    - intros Hb. right. apply Hf'.
    - intros Hb. left. split; [done|]. cbn [snd]. by rewrite word_set_ne. }
  intros ?. eapply tr_seq; [apply tr_baton_task|]. intros threw. apply triple_pure. intros ->.
  eapply tr_seq with (R := fun _ => at_ 1 (Taken d) (answer d)); [apply triple_ret; [by apply has_still|done]|]. intros ?.
  assert (Hnt : still 1%nat (fun s => ~ taken (held s.1))) by (intros s s' Ht _ [_ Hk]; by apply (knows_taken _ _ _ Hk)).
  eapply tr_seq.
  { apply (tr_put32 1 _ CIdle 1 _ (fun s => ~ taken (held s.1))); [done|done|by apply has_still|done|].
    intros [h o1 o2] m (E & Ha & He) [Hm Hf Hc]. cbn [fst snd held] in *. subst h. exists (Ghost (Back d) o1 true).
    assert (Hf' : flags (Back d) (set_word m CIdle 1)) by by in_words.
    split; [|by intros ?].
    apply guar_other; [lia|split; [by apply laid_out_wr|done|by apply (Hreq answer); auto]|knows_step| |done].
    - intros d' _ [?|[[= ->]|?]]; try done. by right; right.
    - intros Hb. left. split; [done|]. cbn [snd]. by rewrite word_set_ne. }
  intros ?. eapply tr_seq.
  { apply (tr_wake 1 CIdle INT_MAX _ looping); [done|done|done|apply looping_still|].
    intros [h o1 o2] m Ht Hi. exists (Ghost h o1 false). cbn [fst snd held] in *. split; [|done].
    apply guar_other; [lia|by destruct Hi|knows_step|by left|]. intros _. right. split; [done|]. unfold INT_MAX. lia. }
  intros ?. apply triple_ret; [apply looping_still|done].
Qed.

Lemma tr_baton_runner : tr 1%nat looping (DblBufLoader.runner T L) (fun _ => stopping).
Proof using Type.
  unfold DblBufLoader.runner, SwapRunner.run.
  assert (Hask : tr 1%nat looping (SwapRunner.stop_requested (at_stop L)) (fun b s => if b then stopping s else looping s))
    by (apply tr_asked; [apply looping_still|apply looping_still|done]).
  assert (Hsent : still 1%nat (fun s => exists d, at_ 1 (Sent d) (fun _ => True) s)) by (apply stable_ex; intros d; by apply has_still).
  eapply tr_seq with (R := fun _ s => looping s \/ stopping s).
  { eapply tr_seq; [exact Hask|]. intros [|].
    - eapply triple_conseq; [apply tr_over_trig|done|by right].
    - apply triple_ret; [apply stable_or; [apply looping_still|apply baton_stopping_still]|by left]. }
  intros ?. eapply tr_seq; [|intros ?; apply tr_over_idle].
  assert (Hls : still 1%nat (fun s => looping s \/ stopping s))
    by (apply stable_or; [apply looping_still|apply baton_stopping_still]).
  apply triple_forever; [apply baton_rely|done|intros; apply baton_stopping_still|].
  eapply tr_seq.
  { apply (tr_asked _ looping Hls looping_still). intros s [Hl|Ho] Hn; [done|by destruct (Hn Ho)]. }
  intros [|]; [apply triple_ret; [apply baton_stopping_still|done]|].
  assert (Hor : still 1%nat (fun s => (exists d, at_ 1 (Sent d) (fun _ => True) s) \/ stopping s))
    by (apply stable_or; [done|apply baton_stopping_still]).
  eapply tr_seq.
  { apply (tr_await 1 _ CTrig _ (fun s => (exists d, at_ 1 (Sent d) (fun _ => True) s) \/ stopping s));
      [done|done|apply looping_still|done| |].
    - by intros s [Ht He] _.
    - intros g m [Ht He] Hi Hne. exists g. split; [by apply guar_idle|].
      destruct Hi as [_ Hf _]. unfold at_, stopping in *. cbn [fst snd] in *.
      destruct (held g) as [| |d|d|d| |] eqn:E; cbn in Hf, Ht; destruct_and?; try done; [left; by exists d|by right..]. }
  intros ?. eapply tr_seq.
  { apply (tr_asked _ (fun s => exists d, at_ 1 (Sent d) (fun _ => True) s) Hor Hsent).
    intros s [Hs|Ho] Hn; [done|by destruct (Hn Ho)]. }
  intros [|]; [apply triple_ret; [apply baton_stopping_still|done]|].
  apply triple_ex. intros d. eapply triple_conseq; [apply tr_round|done|].
  intros [u|] s Hs _; [done|by left].
Qed.
End Baton.

(** ** Both together *)
Section Delivered.
Context {T : Set} `{HT : FlatType T} `{HK : FutexKernel} (L : layout).
Abbreviation st := (ghost T * mem)%type.
Abbreviation word := (word (T:=T) L).

Definition delivering (d0 : T) (rounds : list (option T)) : list (prog unit) :=
  [delivery_client T L d0 rounds; DblBufLoader.runner T L].

Definition outcome_of (i : nat) (_ : unit) (s : st) : Prop := match i with O => ended s | _ => stopping s end.

(** Who may sleep on which flag, and the wakes owed to it. *)
Definition sleeper (c : cell) : nat := match c with CIdle => 0%nat | _ => 1%nat end.
Definition may (c : cell) (i : nat) : bool := (i =? sleeper c)%nat.
Definition debt (c : cell) (g : ghost T) : bool := match c with CTrig => owes_trig g | _ => owes_idle g end.

Lemma few_may c n : few 1 (may c) n.
Proof using Type.
  unfold few.
  assert (Hgen : forall a, (length (filter (fun i => may c i = true) (seq a n)) <= if (sleeper c <? a)%nat then 0 else 1)%nat).
  { induction n as [|n IH]; intros a; [cbn; lia|]. cbn [seq]. rewrite filter_cons. specialize (IH (S a)).
    case_decide as Hd; unfold may in Hd; rewrite Nat.eqb_eq in Hd; cbn [length].
    - subst a. rewrite Nat.ltb_irrefl. by rewrite (proj2 (Nat.ltb_lt _ _)) in IH by lia; lia.
    - destruct (Nat.ltb_spec (sleeper c) a), (Nat.ltb_spec (sleeper c) (S a)); lia. }
  specialize (Hgen 0%nat). cbn in Hgen. lia.
Qed.

Lemma guar_account c i ev (s s' : st) :
  c = CIdle \/ c = CTrig -> guar L i ev s s' -> account L c (debt c) ev s s'.
Proof using Type. by intros [-> | ->] (_ & _ & Ht & Hd). Qed.

Lemma sleeps_may c i e (s : st) :
  addr L CIdle <> addr L CTrig -> c = CIdle \/ c = CTrig -> sleeps L i (addr L c) e s -> may c i = true.
Proof using Type.
  intros Hne Hc (_ & _ & Hs). destruct i as [|[|i]]; [| |done]; destruct Hs as [E _]; destruct Hc as [-> | ->]; try done; by destruct Hne.
Qed.

Abbreviation delivering_rg c :=
  (pool_rg (inv L) (rely L) (guar L) (fun i => staying (sleeps L i) (rely L i)) outcome_of (addr L c) 1 (may c) (fun g => debt c g = false)).

Lemma delivering_start c rounds m0 d0 :
  found (T:=T) L m0 d0 -> flags L (Mine : hand T) m0 -> word m0 CSwp = 0 ->
  delivering_rg c (m0, Running <$> delivering d0 rounds).
Proof using Type.
  intros [Hm Hl Hv] Hf Hw. split; [apply few_may|]. exists (Ghost Mine false false). split; [by split|].
  intros i th Hth. cbn [fst snd] in *. destruct i as [|[|i]]; cbn in Hth; [| |done]; injection Hth as <-.
  - apply tr_delivery_client; [by exists m0|by split|by split].
  - apply tr_baton_runner; [split; [by intros []|done]|by split].
Qed.

(** The account of one flag is in order. *)
Section Account.
Context (c : cell) (m0 : mem) (Hc : c = CIdle \/ c = CTrig) (Hm : laid_out (T:=T) L m0).

Lemma delivering_other i j ev (s s' : st) : i <> j -> guar L i ev s s' -> rely L j s s'.
Proof using Type. intros Hij (Hi & Hk & _). split; [done|]. apply Hk. by intros ->. Qed.

Lemma delivering_may i e (s : st) : staying (sleeps L i) (rely L i) (ToSleep (addr L c) e) s -> may c i = true.
Proof using Hc Hm.
  apply sleeps_may; [|done]. pose proof (lo_apart L m0 Hm CIdle CTrig ltac:(done)) as Hd. unfold disjoint in Hd. cbn in Hd |- *. lia.
Qed.

Lemma delivering_calm i (g : ghost T) m1 g' m1' :
  guar L i Calm (g, m1) (g', m1') -> debt c g' = false ->
  debt c g = false /\ ld32 m1' (addr L c) = ld32 m1 (addr L c) \/
  forall j e, staying (sleeps L j) (rely L j) (ToSleep (addr L c) e) (g', m1') -> ld32 m1' (addr L c) = e.
Proof using Hc.
  intros Hg Hd. destruct (guar_account c _ _ _ _ Hc Hg Hd) as [[H1 H2]|H1]; [left|right].
  - split; [done|]. by destruct Hc as [-> | ->].
  - intros j e (-> & _). by destruct Hc as [-> | ->].
Qed.

Lemma delivering_woke i off n (g : ghost T) m1 g' m1' :
  guar L i (Woke off n) (g, m1) (g', m1') -> debt c g' = false -> debt c g = false \/ off = addr L c /\ 1 <= n.
Proof using Hc. intros Hg Hd. exact (guar_account c _ _ _ _ Hc Hg Hd). Qed.
End Account.

(** Soundness with the account of one flag. *)
Lemma delivering_sound c rounds m0 d0 m ts :
  c = CIdle \/ c = CTrig -> found (T:=T) L m0 d0 -> flags L (Mine : hand T) m0 -> word m0 CSwp = 0 ->
  reachable (m0, Running <$> delivering d0 rounds) (m, ts) ->
  (forall i p, ts !! i = Some (Running p) -> local_step p m <> Trapped) /\
  exists g : ghost T, inv L (g, m) /\
    (forall i p, ts !! i = Some (Running p) -> local_step p m = Finished -> exists v, outcome_of i v (g, m)) /\
    (forall i off k, ts !! i = Some (Parked off k) ->
       exists expected, sleeps L i off expected (g, m) /\ (debt c g = false -> off = addr L c -> ld32 m (addr L c) = expected)).
Proof using Type.
  intros Hc Hfo Hf Hw Hr.
  apply (pool_rg_sound (inv L) (rely L) (guar L) (fun i => staying (sleeps L i) (rely L i)) outcome_of (addr L c) 1 (may c) (fun g => debt c g = false))
    with (x := (m0, Running <$> delivering d0 rounds)); [| | | | |by apply delivering_start|exact Hr].
  - by intros i ev s s' [].
  - apply delivering_other.
  - by eapply delivering_may, Hfo.
  - by apply delivering_calm.
  - by apply delivering_woke.
Qed.

(** The client asleep: the runner is awake and has work. *)
Lemma client_asleep (g1 g2 : ghost T) m off off' e :
  inv L (g1, m) -> sleeps L 0 off 0 (g1, m) -> sleeps L 0 off 0 (g2, m) ->
  (debt CIdle g1 = false -> ld32 m (addr L CIdle) = 0) -> sleeps L 1 off' e (g1, m) ->
  (debt CTrig g2 = false -> ld32 m (addr L CTrig) = 0) -> False.
Proof using Type.
  intros [_ Hf _] (_ & _ & _ & d & Hp) (_ & He2 & _) Hidle (_ & He1 & _ & Hnt) Htrig. cbn [fst snd] in *.
  specialize (Hidle He1). specialize (Htrig He2).
  change (word m CIdle = 0) in Hidle. change (word m CTrig = 0) in Htrig.
  destruct Hp as [E|[E|E]]; rewrite E in *; cbn [flags] in Hf; [|by destruct Hnt|]; destruct_and!; congruence.
Qed.

(** Whoever is asleep, the other is neither asleep nor through. *)
Lemma never_both_stuck rounds m0 d0 m ts :
  found (T:=T) L m0 d0 -> flags L (Mine : hand T) m0 -> word m0 CSwp = 0 ->
  reachable (m0, Running <$> delivering d0 rounds) (m, ts) ->
  (forall i p, ts !! i = Some (Running p) -> local_step p m = Finished) -> forall i off k, ts !! i <> Some (Parked off k).
Proof using Type.
  intros Hfo Hf Hw Hr Hfin i off k Hi.
  destruct (delivering_sound CIdle rounds m0 d0 m ts (or_introl eq_refl) Hfo Hf Hw Hr) as (_ & g1 & Hi1 & Hq1 & Hs1).
  destruct (delivering_sound CTrig rounds m0 d0 m ts (or_intror eq_refl) Hfo Hf Hw Hr) as (_ & g2 & Hi2 & Hq2 & Hs2).
  pose proof (reachable_length _ _ Hr) as Hlen. cbn in Hlen.
  destruct ts as [|t0 [|t1 [|]]]; try done. destruct i as [|[|i]]; cbn in Hi; [| |done]; injection Hi as ->.
  - destruct (Hs1 0%nat _ _ eq_refl) as (e1 & Hc1 & Hidle). destruct (Hs2 0%nat _ _ eq_refl) as (e2 & Hc2 & _).
    pose proof Hc1 as (-> & _ & -> & d & Hp). pose proof Hc2 as (-> & _). destruct t1 as [p|off' k'].
    + destruct (Hq1 1%nat p eq_refl (Hfin 1%nat p eq_refl)) as (v & Ho). cbn in Ho, Hp. unfold stopping in Ho. cbn in Ho.
      by destruct Hp as [E|[E|E]]; rewrite E in Ho.
    + destruct (Hs1 1%nat _ _ eq_refl) as (e3 & Hr1 & _). destruct (Hs2 1%nat _ _ eq_refl) as (e4 & (-> & _ & -> & _) & Htrig).
      eapply (client_asleep g1 g2 m); [done|exact Hc1|exact Hc2|by intros Hd; apply Hidle|exact Hr1|by intros Hd; apply Htrig].
  - destruct t0 as [p|off' k'].
    + destruct (Hq2 0%nat p eq_refl (Hfin 0%nat p eq_refl)) as (v & E & He). cbn [fst] in E, He.
      destruct (Hs2 1%nat _ _ eq_refl) as (e & (-> & _ & -> & _) & Htrig). specialize (Htrig He eq_refl).
      destruct Hi2 as [_ Hf2 _]. cbn [fst snd] in *. rewrite E in Hf2. cbn [flags] in Hf2. destruct Hf2 as [Hf2 _].
      change (word m CTrig = 0) in Htrig. congruence.
    + destruct (Hs1 0%nat _ _ eq_refl) as (e1 & Hc1 & Hidle). destruct (Hs2 0%nat _ _ eq_refl) as (e2 & Hc2 & _).
      pose proof Hc1 as (-> & _ & -> & d & Hp). pose proof Hc2 as (-> & _).
      destruct (Hs1 1%nat _ _ eq_refl) as (e3 & Hr1 & _). destruct (Hs2 1%nat _ _ eq_refl) as (e4 & (-> & _ & -> & _) & Htrig).
      eapply (client_asleep g1 g2 m); [done|exact Hc1|exact Hc2|by intros Hd; apply Hidle|exact Hr1|by intros Hd; apply Htrig].
Qed.

Lemma delivering_runs rounds m0 d0 m ts :
  found (T:=T) L m0 d0 -> flags L (Mine : hand T) m0 -> word m0 CSwp = 0 ->
  reachable (m0, Running <$> delivering d0 rounds) (m, ts) ->
  (forall i p, ts !! i = Some (Running p) -> local_step p m <> Trapped) /\
  ((forall i th, ts !! i = Some th -> exists p, th = Running p /\ local_step p m = Finished) \/
   exists i p, ts !! i = Some (Running p) /\ local_step p m <> Finished).
Proof using Type.
  intros Hfo Hf Hw Hre. split; [by destruct (delivering_sound CIdle rounds m0 d0 m ts (or_introl eq_refl) Hfo Hf Hw Hre)|].
  destruct (all_finished_or m ts) as [Hfin|Hgo]; [left|by right].
  intros i [p|off k] Hi; [by eauto|]. by destruct (never_both_stuck rounds m0 d0 m ts Hfo Hf Hw Hre Hfin i off k).
Qed.

(** The same interleaved: each load and wait leaves the value stored last in
    the snapshot, no assertion of the library fails, and unless both threads
    have finished one of them can go on. *)
Theorem double_buffer_delivers rc t m t' m' d0 rounds mx ts :
  found (T:=T) L m d0 -> runs (quiet rc) (DblBufLoader.init_members L) t m tt t' m' ->
  reachable (m', Running <$> delivering d0 rounds) (mx, ts) ->
  (forall i p, ts !! i = Some (Running p) -> local_step p mx <> Trapped) /\
  ((forall i th, ts !! i = Some th -> exists p, th = Running p /\ local_step p mx = Finished) \/
   exists i p, ts !! i = Some (Running p) /\ local_step p mx <> Finished).
Proof using Type.
  intros Hfo Hr Hre. destruct (constructed L (fun _ : T => true) _ _ _ _ _ _ Hfo Hr) as (Hfo' & Hf & Hw).
  by apply (delivering_runs rounds m' d0).
Qed.
End Delivered.

(** ** The segment's value and two more delivered *)
Module DeliveryWitness.
Definition L : layout := DeployedWitness.L.
Definition rounds : list (option uint32) := [None; Some (to_uint 4 5); Some (to_uint 4 6)].
Definition start : pool := (DeployedWitness.m1, Running <$> delivering L (to_uint 4 77) rounds).
Definition sched : list nat :=
  repeat 0%nat 11 ++ repeat 1%nat 30 ++ repeat 0%nat 21 ++ repeat 1%nat 27 ++ repeat 0%nat 21 ++ repeat 1%nat 27 ++
  repeat 0%nat 10 ++ repeat 1%nat 5.

(** The client asleep on [idle_] the first time. *)
Definition midway : pool := run_to (repeat 0%nat 11) start.
Definition stop : pool := run_to sched start.

Lemma delivery_midway_reachable : reachable start midway.
Proof. apply run_to_reachable. vm_compute. reflexivity. Qed.

Lemma delivery_stop_reachable : reachable start stop.
Proof. apply run_to_reachable. vm_compute. reflexivity. Qed.

Lemma double_buffer_delivers_witness :
  rd stop.1 (at_pre L) 4 = to_bytes (to_uint 4 6) /\ finished stop 0 = true /\ finished stop 1 = true /\
  (forall i p, stop.2 !! i = Some (Running p) -> local_step p stop.1 <> Trapped) /\
  asleep_on midway 0 = Some (at_idle L) /\
  exists i p, midway.2 !! i = Some (Running p) /\ local_step p midway.1 <> Finished.
Proof.
  assert (Hm1 : runs (quiet (fun _ => (0, 0))) (DblBufLoader.init_members L) 0 DeployedWitness.m0 tt 6 DeployedWitness.m1).
  { split; [lia|vm_compute; reflexivity]. }
  split; [vm_compute; reflexivity|]. split; [vm_compute; reflexivity|]. split; [vm_compute; reflexivity|]. split.
  - exact (proj1 (double_buffer_delivers L _ 0 _ 6 _ _ rounds stop.1 stop.2 DeployedWitness.found0 Hm1 delivery_stop_reachable)).
  - split; [vm_compute; reflexivity|].
    destruct (double_buffer_delivers L _ 0 _ 6 _ _ rounds midway.1 midway.2 DeployedWitness.found0 Hm1 delivery_midway_reachable)
      as [_ [Hall|Hgo]]; [|exact Hgo].
    destruct (asleep_parked midway 0 (at_idle L)) as [k Hk]; [vm_compute; reflexivity|].
    destruct (Hall 0%nat _ Hk) as (p & E & _). discriminate E.
Defined.
End DeliveryWitness.
