(* ===== verification/LoaderBuffers.v ===== *)
(** * The loaders on a machine with store buffers

    What [Loader] and [Delivery] prove of the loaders interleaved, on x86: the
    flags are loaded after a wake or a locked instruction only, and everything
    else while it is one's own, so the pools are [robust]. *)
From stdpp Require Import relations.
From S2P Require Import Prelude Memory Prog FlatType Pool RelyGuarantee StoreBuffer Ownership ShmLock DoubleBuffer Loader Delivery.

(** ** The flags *)
Ltac tidy_steps :=
  repeat (cbn [tidy after is_fence store_of permits load32 load64 store32 store64 exchange32 futex_wait_call futex_wake_call];
          first [ done | split | intros ? | apply tidy_assert | apply tidy_memcpy_from | apply tidy_memcpy_to ]).

Section Tidy.
Context {T : Set} `{HT : FlatType T} (L : layout).

Lemma tidy_lock d s (K : unit -> bool -> Prop) : K tt false -> tidy d (ShmLock.lock s) K.
Proof using Type.
  intros HK. unfold ShmLock.lock. cbn [tidy exchange32]. split; [done|]. intros old. destruct (old =? 0); [done|].
  unfold ShmLock.lock_slow, ShmLock.futex_wait. apply tidy_forever. cbn [tidy exchange32]. split; [done|]. intros old'.
  destruct (negb _); [|done]. tidy_steps.
Qed.

Lemma tidy_unlock d s (K : unit -> bool -> Prop) : K tt false -> tidy d (ShmLock.unlock s) K.
Proof using Type. intros HK. unfold ShmLock.unlock, ShmLock.futex_wake. tidy_steps. by destruct v0. Qed.

Lemma tidy_store d (x : T) (K : unit -> bool -> Prop) : K tt false -> tidy d (Storage.store (at_lock L) (at_shm L) x) K.
Proof using Type. intros HK. unfold Storage.store. apply tidy_lock. apply tidy_memcpy_to; by apply tidy_unlock. Qed.

Lemma tidy_store_all d (xs : list T) : tidy d (store_all (at_lock L) (at_shm L) xs) anyhow.
Proof using Type. revert d. induction xs as [|x xs IH]; intros d; [done|]. cbn [store_all tidy]. by apply tidy_store. Qed.

Lemma tidy_atomic_wait o a old (K : unit -> bool -> Prop) : K tt false -> tidy false (atomic_wait o a old) K.
Proof using Type. intros HK. unfold atomic_wait. apply tidy_forever. tidy_steps. destruct (v =? old); tidy_steps. Qed.

Lemma tidy_notify d o a v n (K : unit -> bool -> Prop) : K tt false -> tidy d (store32 o a v ;;; futex_wake_call a n) K.
Proof using Type. intros HK. tidy_steps. by destruct v1. Qed.

Lemma tidy_init_body d (K : unit -> bool -> Prop) : K tt true -> tidy d (DblBufLoader.init_body L) K.
Proof using Type. intros HK. unfold DblBufLoader.init_body, DoubleBufferSwapper.set_active. tidy_steps. by destruct v2. Qed.

Lemma tidy_load d (K : Z -> bool -> Prop) : K (at_published_ptr L) false -> tidy d (DblBufLoader.load L) K.
Proof using Type.
  intros HK. unfold DblBufLoader.load, DoubleBufferSwapper.stage, SwapRunner.trigger, notify_one. tidy_steps.
Qed.

Lemma tidy_wait (K : unit -> bool -> Prop) : K tt false -> tidy false (DblBufLoader.wait L) K.
Proof using Type. apply tidy_atomic_wait. Qed.

Lemma tidy_deref d p (K : T -> bool -> Prop) : (forall x, K x d) -> tidy d (Snapshot.deref T p) K.
Proof using Type. intros HK. unfold Snapshot.deref. tidy_steps. Qed.

Lemma tidy_stop d (K : unit -> bool -> Prop) : K tt false -> tidy d (DblBufLoader.stop_runner L) K.
Proof using Type.
  intros HK. unfold DblBufLoader.stop_runner, SwapRunner.request_stop, SwapRunner.on_stop, notify_one. cbn [tidy store32]. split; [done|].
  intros ?. by apply tidy_notify.
Qed.

Lemma tidy_task d (K : bool -> bool -> Prop) : K false false -> tidy d (DblBufLoader.task T L) K.
Proof using Type.
  intros HK. unfold DblBufLoader.task. apply tidy_lock. unfold DblBufLoader.swap, DoubleBufferSwapper.swap.
  tidy_steps; by apply tidy_unlock.
Qed.

Lemma tidy_runner : tidy false (DblBufLoader.runner T L) anyhow.
Proof using Type.
  unfold DblBufLoader.runner, SwapRunner.run, SwapRunner.on_stop, SwapRunner.stop_requested, notify_one, notify_all.
  cbn [tidy load32]. split; [done|]. intros v.
  destruct (negb _); [apply tidy_notify|]; (apply tidy_forever; cbn [tidy load32]; split; [done|]; intros v1);
    (destruct (negb _); [by apply tidy_notify|]); (apply tidy_atomic_wait; cbn [tidy load32]; split; [done|]; intros v2);
    (destruct (negb _); [by apply tidy_notify|]); (cbn [tidy store32]; split; [done|]; intros ?); apply tidy_task; tidy_steps.
Qed.

Lemma tidy_uses good k d (K : unit -> bool -> Prop) : K tt d -> tidy d (uses T good (at_published_ptr L) k) K.
Proof using Type.
  intros HK. induction k as [|k IH]; [done|]. cbn [uses tidy]. apply tidy_deref. intros x. by apply tidy_assert.
Qed.

Lemma tidy_rounds good ks d (K : unit -> bool -> Prop) : (forall d, K tt d) -> tidy d (rounds T L good ks) K.
Proof using Type.
  intros HK. revert d. induction ks as [|k ks IH]; intros d; [by apply HK|]. cbn [rounds tidy].
  apply tidy_load, tidy_wait. by apply tidy_uses.
Qed.

Lemma tidy_client good ks : tidy false (client T L good ks) anyhow.
Proof using Type. unfold client. apply tidy_init_body. apply tidy_rounds. intros d. by apply tidy_stop. Qed.

Lemma tidy_deliveries rounds d (K : list T -> bool -> Prop) : (forall xs d, K xs d) -> tidy d (deliveries T L rounds) K.
Proof using Type.
  revert d K. induction rounds as [|o rounds IH]; intros d K HK; [by apply HK|]. cbn [deliveries tidy].
  assert (Hc : forall d, tidy d (collect T L) (fun x d' => tidy d' (deliveries T L rounds) (fun xs d2 => K (x :: xs) d2))).
  { intros d'. unfold collect, DoubleBufferShm.load, DoubleBufferShm.get_shm, DoubleBufferShm.wait.
    cbn [tidy]. apply tidy_assert. cbn [tidy].
    unfold DoubleBufferSwapper.stage, SwapRunner.trigger, notify_one. tidy_steps. apply tidy_wait, tidy_deref. intros x. by apply IH. }
  destruct o as [x|]; cbn [delivery]; [|apply Hc]. unfold DoubleBufferShm.store, DoubleBufferShm.get_shm. cbn [tidy].
  apply tidy_lock, tidy_assert. cbn [tidy]. apply tidy_memcpy_to; by apply tidy_unlock.
Qed.

Lemma tidy_delivery_client d0 rounds : tidy false (delivery_client T L d0 rounds) anyhow.
Proof using Type.
  unfold delivery_client. apply tidy_init_body, tidy_deliveries. intros xs d. apply tidy_assert. by apply tidy_stop.
Qed.
End Tidy.

(** ** The pools *)
Section OnX86.
Context {T : Set} `{HT : FlatType T} `{HK : FutexKernel} (L : layout).

Lemma started_tidy (m : mem) ps i th :
  Forall (fun p => tidy false p anyhow) ps -> (m, Running <$> ps).2 !! i = Some th -> keeps some_tidy th.
Proof using Type.
  intros Hps Hi. cbn in Hi. apply list_lookup_fmap_Some in Hi as (p & -> & Hi). exists false.
  by apply (Forall_lookup_1 _ _ _ _ Hps Hi).
Qed.

Lemma deployed_robust good ks dss m d :
  found L m d -> facts L (fun d : T => good d = true) Start m -> word (T:=T) L m CSwp = 0 -> good d = true ->
  (forall x, x ∈ concat dss -> good x = true) -> robust (deployed L good ks dss m).
Proof using Type.
  intros Hfo Hf Hw Hd Hds. set (ok := fun d : T => good d = true).
  eapply (owned_robust (Loader.inv L ok) (Loader.rely L ok) (fun i _ => Loader.guar L ok i)
    (fun _ => freely) (fun _ _ => free) 0 (Z.of_nat (2 + length dss)) (fun _ => true) (fun _ => False)).
  - intros i ev s s'. apply Loader.guar_inv.
  - intros i j ev s s'. apply Loader.guar_rely.
  - done.
  - done.
  - done.
  - by apply (deployed_rg L good ks dss m d).
  - intros i th. apply started_tidy. constructor; [apply tidy_client|]. constructor; [apply tidy_runner|].
    apply Forall_fmap, Forall_true. intros ds. apply tidy_store_all.
Qed.

(** C7: A loader at work on x86: on a machine with store buffers emptied in
    order, a client constructs the loader, loads, waits and reads its snapshot
    any number of times, then stops the runner, while the runner swaps and any
    number of processes store into the segment: however their actions are
    interleaved and the buffers emptied, no assertion of the swapper, the
    loader or the snapshot fails, no access leaves its object, and every value
    read through the snapshot is whole, the one the segment had or one that
    was stored. *)
Theorem loader_on_x86 (good : T -> bool) rc t m t' m' d ks dss mx (ts : list (thread * list pending)) i p buf :
  found L m d -> runs (quiet rc) (DblBufLoader.init_members L) t m tt t' m' ->
  good d = true -> (forall y, y ∈ concat dss -> good y = true) ->
  sb_reachable first_only (m', StoreBuffer.idle <$> deployed_threads L good ks dss) (mx, ts) ->
  ts !! i = Some (Running p, buf) -> local_step p (drain mx buf) <> Trapped.
Proof using Type.
  intros Hfo Hr Hd Hds Hts. destruct (constructed L good _ _ _ _ _ _ Hfo Hr) as (Hfo' & Hf & Hw).
  revert i p buf. apply (sb_not_trapped _ _ _ _ (deployed_robust good ks dss m' d Hfo' Hf Hw Hd Hds) Hts).
  intros m1 us i p Hre Hp. by apply (deployed_safe L good ks dss m' d m1 us i p).
Qed.

Lemma delivering_robust rounds m0 (d0 : T) :
  found L m0 d0 -> flags L (Mine : hand T) m0 -> word (T:=T) L m0 CSwp = 0 ->
  robust (m0, Running <$> delivering L d0 rounds).
Proof using Type.
  intros Hfo Hf Hw. eapply owned_robust; [| | | | |by apply (delivering_start L CIdle)|].
  - by intros i ev s s' [].
  - apply delivering_other.
  - eapply delivering_may; [by left|apply Hfo].
  - apply delivering_calm. by left.
  - apply delivering_woke. by left.
  - intros i th. apply started_tidy. constructor; [apply tidy_delivery_client|]. constructor; [apply tidy_runner|constructor].
Qed.

Lemma delivering_unstuck rounds m0 (d0 : T) mx (ts : list (thread * list pending)) :
  found L m0 d0 -> flags L (Mine : hand T) m0 -> word (T:=T) L m0 CSwp = 0 ->
  sb_reachable first_only (m0, StoreBuffer.idle <$> delivering L d0 rounds) (mx, ts) -> sb_unstuck (mx, ts).
Proof using Type.
  intros Hfo Hf Hw Hts. pose proof (delivering_robust rounds m0 d0 Hfo Hf Hw) as Hrob. split.
  { apply (sb_not_trapped _ _ _ _ Hrob Hts). intros m1 us i p Hre. by apply (delivering_runs L rounds m0 d0 m1 us). }
  destruct (sb_behind _ _ _ _ Hrob Hts) as (us & Hre & Htr).
  destruct (delivering_runs L rounds m0 d0 mx us Hfo Hf Hw Hre) as [Hnt [Hfin|(i & p & Hi & Hgo)]].
  - left. by apply (trails_finished mx ts us).
  - right. exists i. apply (trails_go_on mx ts us i p Htr Hi Hgo). by apply (Hnt i p).
Qed.

(** C8: A double buffer with one client delivers on x86: on a machine with
    store buffers emptied in order, whatever the interleaving of the client
    and the runner, however the buffers are emptied, and whatever sleepers the
    kernel wakes, each load and wait leaves the value stored last in the
    snapshot, no assertion of the library fails, and unless both threads have
    finished and their buffers are empty, one of them or its buffer can go on:
    neither wait can lose a wake-up, the two never sleep together. *)
Theorem delivery_on_x86 rc t m t' m' (d0 : T) rounds mx (ts : list (thread * list pending)) :
  found L m d0 -> runs (quiet rc) (DblBufLoader.init_members L) t m tt t' m' ->
  sb_reachable first_only (m', StoreBuffer.idle <$> delivering L d0 rounds) (mx, ts) ->
  (forall i p buf, ts !! i = Some (Running p, buf) -> local_step p (drain mx buf) <> Trapped) /\
  ((forall i th buf, ts !! i = Some (th, buf) -> buf = [] /\ exists p, th = Running p /\ local_step p mx = Finished) \/
   exists i p buf, ts !! i = Some (Running p, buf) /\ (buf <> [] \/ local_step p mx <> Finished) /\
     exists y, sb_step first_only (mx, ts) y).
Proof using Type.
  intros Hfo Hr. destruct (constructed L (fun _ : T => true) _ _ _ _ _ _ Hfo Hr) as (Hfo' & Hf & Hw).
  by apply (delivering_unstuck rounds m' d0).
Qed.
End OnX86.

(** ** The deployments of [Loader] and [Delivery] *)
Module LoadersWitness.
Definition L : layout := DeployedWitness.L.
Definition m1 : mem := DeployedWitness.m1.

Lemma members_run :
  runs (quiet (fun _ => (0, 0))) (DblBufLoader.init_members L) 0 DeployedWitness.m0 tt 6 m1.
Proof. split; [lia|vm_compute; reflexivity]. Qed.

(** The runner's round, its swap in the buffer until the unlock. *)
Definition swaps (k : nat) : list sb_move :=
  acts 1 k ++ leaves 1 1 ++ acts 1 15 ++ leaves 1 8 ++ acts 1 2 ++ leaves 1 1 ++ acts 1 6.

(** The client reads 77, a process stores 9, the client reads it twice and
    stops the runner. *)
Definition used : mem * list (thread * list pending) :=
  (m1, StoreBuffer.idle <$> deployed_threads L DeployedWitness.good [1%nat; 2%nat] [[to_uint 4 9]]).
Definition used_sched : list sb_move :=
  acts 0 7 ++ leaves 0 5 ++ acts 0 4 ++ swaps 7 ++ acts 0 10 ++ leaves 0 3 ++ acts 0 4 ++
  acts 2 6 ++ leaves 2 5 ++ acts 2 1 ++ swaps 4 ++ acts 0 14 ++ leaves 0 2 ++ acts 0 1 ++ acts 1 4 ++ leaves 1 1 ++ acts 1 1.
Definition used_stop : mem * list (thread * list pending) := sb_run_to first_only used_sched used.

Lemma used_stop_reached : sb_reachable first_only used used_stop.
Proof. apply sb_run_to_reachable. vm_compute. reflexivity. Qed.

Lemma loader_on_x86_witness :
  rd used_stop.1 (at_pre L) 4 = to_bytes (to_uint 4 9) /\ sb_finished used_stop 0 = true /\ sb_finished used_stop 1 = true /\
  forall i p buf, used_stop.2 !! i = Some (Running p, buf) -> local_step p (drain used_stop.1 buf) <> Trapped.
Proof.
  split; [vm_compute; reflexivity|]. split; [vm_compute; reflexivity|]. split; [vm_compute; reflexivity|]. intros i p buf.
  apply (loader_on_x86 L DeployedWitness.good (fun _ => (0, 0)) 0 DeployedWitness.m0 6 m1 (to_uint 4 77) [1%nat; 2%nat]
           [[to_uint 4 9]] used_stop.1 used_stop.2 i p buf DeployedWitness.found0 members_run).
  - reflexivity.
  - intros y. cbn. rewrite list_elem_of_singleton. by intros ->.
  - exact used_stop_reached.
Defined.

(** Three rounds; midway the trigger is still in the client's buffer. *)
Definition begun : mem * list (thread * list pending) :=
  (m1, StoreBuffer.idle <$> delivering L (to_uint 4 77) DeliveryWitness.rounds).
Definition stores_loads : list sb_move := acts 0 13 ++ leaves 0 5 ++ acts 0 4 ++ leaves 0 3 ++ acts 0 4.
Definition begun_sched : list sb_move :=
  acts 0 7 ++ leaves 0 5 ++ acts 0 4 ++ swaps 7 ++ stores_loads ++ swaps 4 ++ stores_loads ++ swaps 4 ++
  acts 0 9 ++ leaves 0 2 ++ acts 0 1 ++ acts 1 4 ++ leaves 1 1 ++ acts 1 1.
Definition delivered_stop : mem * list (thread * list pending) := sb_run_to first_only begun_sched begun.
Definition midway : mem * list (thread * list pending) := sb_run_to first_only (acts 1 4 ++ acts 0 7) begun.

Lemma delivered_stop_reached : sb_reachable first_only begun delivered_stop.
Proof. apply sb_run_to_reachable. vm_compute. reflexivity. Qed.

Lemma midway_reached : sb_reachable first_only begun midway.
Proof. apply sb_run_to_reachable. vm_compute. reflexivity. Qed.

Lemma delivery_on_x86_witness :
  rd delivered_stop.1 (at_pre L) 4 = to_bytes (to_uint 4 6) /\
  sb_finished delivered_stop 0 = true /\ sb_finished delivered_stop 1 = true /\
  (forall i p buf, delivered_stop.2 !! i = Some (Running p, buf) -> local_step p (drain delivered_stop.1 buf) <> Trapped) /\
  ld32 midway.1 (at_triggered L) = 0 /\ length (from_option snd [] (midway.2 !! 0%nat)) = 5%nat /\
  exists i p buf, midway.2 !! i = Some (Running p, buf) /\ (buf <> [] \/ local_step p midway.1 <> Finished) /\
    exists y, sb_step first_only (midway.1, midway.2) y.
Proof.
  split; [vm_compute; reflexivity|]. split; [vm_compute; reflexivity|]. split; [vm_compute; reflexivity|]. split.
  - exact (proj1 (delivery_on_x86 L _ 0 _ 6 m1 _ DeliveryWitness.rounds delivered_stop.1 delivered_stop.2
                    DeployedWitness.found0 members_run delivered_stop_reached)).
  - assert (Hl : length (from_option snd [] (midway.2 !! 0%nat)) = 5%nat) by (vm_compute; reflexivity).
    split; [vm_compute; reflexivity|]. split; [exact Hl|].
    destruct (delivery_on_x86 L _ 0 _ 6 m1 _ DeliveryWitness.rounds midway.1 midway.2
                DeployedWitness.found0 members_run midway_reached) as [_ [Hall|Hgo]]; [|exact Hgo].
    destruct (midway.2 !! 0%nat) as [[th buf]|] eqn:E; [|discriminate Hl].
    destruct (Hall 0%nat th buf E) as [-> _]. discriminate Hl.
Defined.
End LoadersWitness.
