(* ===== verification/ProducerConsumer.v ===== *)
(** * Producer and consumer over two semaphores

    [producer_consumer.hpp].  Any number of threads call [produce] and
    [consume]; the object is copied byte by byte.  The semaphores are a
    library's: the class [Semaphore] states what [sem_wait] and [sem_post]
    document. *)
From stdpp Require Import relations.
From S2P Require Import Prelude FlatType.

Class Semaphore := {
  sem : Set;
  create : Z -> sem;
  sem_wait : sem -> option sem;    (* [None]: the caller blocks *)
  sem_post : sem -> sem;
  count : sem -> Z;
  count_create n : 0 <= n -> count (create n) = n;
  count_nonneg s : 0 <= count s;
  sem_wait_count s s' : sem_wait s = Some s' -> count s' = count s - 1;
  sem_wait_blocks s : sem_wait s = None <-> count s = 0;
  sem_post_count s : count (sem_post s) = count s + 1
}.

Module ProducerConsumer.
Section Code.
Context {T : Set} `{FlatType T}.

(** What a call does, one access at a time. *)
Inductive instr : Set :=
| WaitWrite                      (* [sem_write_.wait()] *)
| PutByte (k : nat) (b : Z)      (* one byte of [get() = data] *)
| PostRead (data : T)            (* [sem_read_.post()], with what was published *)
| WaitRead                       (* [sem_read_.wait()] *)
| GetByte (k : nat)              (* one byte the consumer reads of [get()] *)
| Consumer                       (* [consumer(...)] has what it wanted *)
| PostWrite.                     (* [sem_write_.post()] *)

Fixpoint puts (k : nat) (bs : list Z) : list instr :=
  match bs with [] => [] | b :: bs => PutByte k b :: puts (S k) bs end.

Fixpoint gets (k n : nat) : list instr :=
  match n with O => [] | S n => GetByte k :: gets (S k) n end.

Definition produce (data : T) : list instr :=
  WaitWrite :: puts 0 (to_bytes data) ++ [PostRead data].

(** A consumer that throws leaves by the exception: no post. *)
Definition consume (throws : bool) : list instr :=
  WaitRead :: gets 0 (sizeof T) ++ Consumer :: (if throws then [] else [PostWrite]).
End Code.
Arguments instr T : clear implicits.
End ProducerConsumer.
Import ProducerConsumer.

Section System.
Context {T : Set} `{HT : FlatType T} `{HS : Semaphore}.
Abbreviation instr := (instr T).
Abbreviation n := (sizeof T).

(** What the calls of a thread are. *)
Inductive call : Set := Produce (d : T) | Consume (throws : bool).

Definition call_code (c : call) : list instr :=
  match c with Produce d => produce d | Consume throws => consume throws end.

Fixpoint calls_code (cs : list call) : list instr :=
  match cs with [] => [] | c :: cs => call_code c ++ calls_code cs end.

(** A thread: the bytes its consumer has seen, and what it has to do. *)
Definition thread : Set := list Z * list instr.

Record state := State {
  sem_read : sem;
  sem_write : sem;
  region : list Z;
  threads : list thread;
  produced : list T;            (* in the order of publication *)
  consumed : list (list Z)      (* in the order of consumption *)
}.

Definition start (bs : list Z) (css : list (list call)) : state :=
  State (create 0) (create 1) bs ((fun cs => ([], calls_code cs)) <$> css) [] [].

Inductive step : state -> state -> Prop :=
| step_wait_write r w w' g ts p c i acc k :
    ts !! i = Some (acc, WaitWrite :: k) -> sem_wait w = Some w' ->
    step (State r w g ts p c) (State r w' g (<[i := (acc, k)]> ts) p c)
| step_put r w g ts p c i acc j b k :
    ts !! i = Some (acc, PutByte j b :: k) ->
    step (State r w g ts p c) (State r w (<[j := b]> g) (<[i := (acc, k)]> ts) p c)
| step_post_read r w g ts p c i acc d k :
    ts !! i = Some (acc, PostRead d :: k) ->
    step (State r w g ts p c) (State (sem_post r) w g (<[i := (acc, k)]> ts) (p ++ [d]) c)
| step_wait_read r r' w g ts p c i acc k :
    ts !! i = Some (acc, WaitRead :: k) -> sem_wait r = Some r' ->
    step (State r w g ts p c) (State r' w g (<[i := ([], k)]> ts) p c)
| step_get r w g ts p c i acc j b k :
    ts !! i = Some (acc, GetByte j :: k) -> g !! j = Some b ->
    step (State r w g ts p c) (State r w g (<[i := (acc ++ [b], k)]> ts) p c)
| step_consumer r w g ts p c i acc k :
    ts !! i = Some (acc, Consumer :: k) ->
    step (State r w g ts p c) (State r w g (<[i := (acc, k)]> ts) p (c ++ [acc]))
| step_post_write r w g ts p c i acc k :
    ts !! i = Some (acc, PostWrite :: k) ->
    step (State r w g ts p c) (State r (sem_post w) g (<[i := (acc, k)]> ts) p c).

(** *** Where a thread is *)
Inductive pos : Set :=
| Out (cs : list call)
| Putting (k : nat) (d : T) (cs : list call)
| Getting (k : nat) (throws : bool) (cs : list call)
| Leaving (cs : list call).

Definition pos_code (x : pos) : list instr :=
  match x with
  | Out cs => calls_code cs
  | Putting k d cs => puts k (drop k (to_bytes d)) ++ PostRead d :: calls_code cs
  | Getting k throws cs => gets k (n - k) ++ Consumer :: (if throws then [] else [PostWrite]) ++ calls_code cs
  | Leaving cs => PostWrite :: calls_code cs
  end.

Definition outside (x : pos) : bool := match x with Out _ => true | _ => false end.

(** Some consumer still to come may throw. *)
Definition pos_throws (x : pos) : Prop :=
  match x with
  | Out cs | Putting _ _ cs | Leaving cs => Consume true ∈ cs
  | Getting _ throws cs => throws = true \/ Consume true ∈ cs
  end.

Context (throwing : Prop).   (* there are consumers that throw *)

(** The region, the logs and the thread that holds the token. *)
Inductive phase : Z -> Z -> list Z -> list T -> list (list Z) -> option (list Z * pos) -> Prop :=
| Empty g p : length g = n -> phase 0 1 g p (to_bytes <$> p) None
| Filling g p acc k d cs :
    length g = n -> (k <= n)%nat -> take k g = take k (to_bytes d) ->
    phase 0 0 g p (to_bytes <$> p) (Some (acc, Putting k d cs))
| Full p d : phase 1 0 (to_bytes d) (p ++ [d]) (to_bytes <$> p) None
| Reading p d k throws cs :
    (k <= n)%nat ->
    phase 0 0 (to_bytes d) (p ++ [d]) (to_bytes <$> p) (Some (take k (to_bytes d), Getting k throws cs))
| Read g p acc cs : length g = n -> phase 0 0 g p (to_bytes <$> p) (Some (acc, Leaving cs))
| Stalled g p : length g = n -> throwing -> phase 0 0 g p (to_bytes <$> p) None.

Definition next_pos (x : pos) : option (instr * pos) :=
  match x with
  | Out [] => None
  | Out (Produce d :: cs) => Some (WaitWrite, Putting 0 d cs)
  | Out (Consume throws :: cs) => Some (WaitRead, Getting 0 throws cs)
  | Putting k d cs =>
      match drop k (to_bytes d) with
      | b :: _ => Some (PutByte k b, Putting (S k) d cs)
      | [] => Some (PostRead d, Out cs)
      end
  | Getting k throws cs =>
      if decide (k < n)%nat then Some (GetByte k, Getting (S k) throws cs)
      else Some (Consumer, if throws then Out cs else Leaving cs)
  | Leaving cs => Some (PostWrite, Out cs)
  end.

Lemma drop_next (d : T) k b bs :
  drop k (to_bytes d) = b :: bs -> (k < n)%nat /\ to_bytes d !! k = Some b /\ drop (S k) (to_bytes d) = bs.
Proof using Type.
  intros E. assert (Hb : to_bytes d !! k = Some b).
  { rewrite <- (Nat.add_0_r k), <- lookup_drop. by rewrite E. }
  split; [rewrite <- (length_to_bytes d); by eapply lookup_lt_Some|]. split; [done|].
  rewrite (drop_S _ b) in E by done. by injection E.
Qed.

Lemma pos_code_next x :
  pos_code x = match next_pos x with Some (ins, x') => ins :: pos_code x' | None => [] end.
Proof using Type.
  destruct x as [[|[d|throws] cs]|k d cs|k throws cs|cs]; cbn [pos_code next_pos calls_code call_code].
  - done.
  - unfold produce. by rewrite drop_0, <- app_comm_cons, <- app_assoc.
  - unfold consume. rewrite Nat.sub_0_r, <- app_comm_cons, <- app_assoc. by destruct throws.
  - destruct (drop k (to_bytes d)) as [|b bs] eqn:E; [done|].
    apply drop_next in E as (_ & _ & E). cbn [puts pos_code app]. by rewrite E.
  - destruct (decide (k < n)%nat) as [Hk|Hk].
    + cbn [pos_code]. replace (n - k)%nat with (S (n - S k)) by lia. done.
    + replace (n - k)%nat with O by lia. by destruct throws.
  - done.
Qed.

Lemma code_cons x ins k : pos_code x = ins :: k -> exists x', next_pos x = Some (ins, x') /\ k = pos_code x'.
Proof using Type.
  rewrite pos_code_next. destruct (next_pos x) as [[ins' x']|]; [|done]. intros [= <- <-]. eauto.
Qed.

(** *** The invariant *)
Record good (s : state) (xs : list pos) (h : option (list Z * pos)) : Prop := {
  good_code : Forall2 (fun (th : thread) x => th.2 = pos_code x) (threads s) xs;
  good_phase : phase (count (sem_read s)) (count (sem_write s)) (region s) (produced s) (consumed s) h;
  good_holder : forall i x th, xs !! i = Some x -> outside x = false ->
                  threads s !! i = Some th -> h = Some (th.1, x);
  good_unique : forall i j x y, xs !! i = Some x -> xs !! j = Some y ->
                  outside x = false -> outside y = false -> i = j;
  good_exists : forall a x, h = Some (a, x) -> exists i, xs !! i = Some x /\ outside x = false;
  good_throws : forall i x, xs !! i = Some x -> pos_throws x -> throwing
}.

Definition ok (s : state) : Prop := exists xs h, good s xs h.

(** One thread moves from [x] to [x']. *)
Lemma good_move s s' xs h h' i acc acc' k x x' :
  good s xs h ->
  threads s !! i = Some (acc, k) -> xs !! i = Some x ->
  threads s' = <[i := (acc', pos_code x')]> (threads s) ->
  phase (count (sem_read s')) (count (sem_write s')) (region s') (produced s') (consumed s') h' ->
  (outside x = true -> forall j y, xs !! j = Some y -> outside y = true) ->
  (outside x' = false -> h' = Some (acc', x')) ->
  (outside x' = true -> h' = None) ->
  (pos_throws x' -> pos_throws x) ->
  good s' (<[i := x']> xs) h'.
Proof using Type.
  intros [Hc Hp Hh Hu He Hthrows] Hi Hx Ht' Hp' Hout Hin Hnone Hthr.
  pose proof (lookup_lt_Some _ _ _ Hi) as Hlt. pose proof (lookup_lt_Some _ _ _ Hx) as Hltx.
  assert (Hothers : forall j y, j <> i -> xs !! j = Some y -> outside y = true).
  { intros j y Hne Hj. destruct (outside y) eqn:E; [done|]. destruct (outside x) eqn:Ex.
    - by rewrite (Hout eq_refl j y Hj) in E.
    - by destruct Hne; eapply Hu. }
  assert (Hrest : forall j y, j <> i -> <[i := x']> xs !! j = Some y -> outside y = true).
  { intros j y Hne Hj. rewrite list_lookup_insert_ne in Hj by done. eauto. }
  split.
  - rewrite Ht'. by apply Forall2_insert.
  - done.
  - intros j y th Hj Hy Hth. destruct (decide (j = i)) as [->|Hne].
    + rewrite list_lookup_insert_eq in Hj by done. injection Hj as <-.
      rewrite Ht', list_lookup_insert_eq in Hth by done. injection Hth as <-. by apply Hin.
    + rewrite list_lookup_insert_ne in Hj by done. by rewrite (Hothers j y) in Hy.
  - intros j1 j2 y1 y2 Hj1 Hj2 Hy1 Hy2.
    destruct (decide (j1 = i)) as [->|N1], (decide (j2 = i)) as [->|N2]; try done;
      [by rewrite (Hrest j2 y2 N2 Hj2) in Hy2|by rewrite (Hrest j1 y1 N1 Hj1) in Hy1|by rewrite (Hrest j1 y1 N1 Hj1) in Hy1].
  - intros a y Ey. exists i. rewrite list_lookup_insert_eq by done.
    destruct (outside x') eqn:E; [by rewrite Hnone in Ey|]. rewrite Hin in Ey by done.
    by injection Ey as _ <-.
  - intros j y Hj. apply list_lookup_insert_Some in Hj as [(_ & <- & _)|[_ Hj]]; eauto.
Qed.

(** In a phase without a holder everybody is outside. *)
Lemma nobody_inside s xs : good s xs None -> forall j y, xs !! j = Some y -> outside y = true.
Proof using Type.
  intros [Hc _ Hh _ _ _] j y Hj. destruct (outside y) eqn:E; [done|].
  destruct (Forall2_lookup_r _ _ _ _ _ Hc Hj) as (th & Hth & _). by specialize (Hh j y th Hj E Hth).
Qed.

Lemma take_insert_next (g : list Z) (d : T) k b bs :
  length g = n -> take k g = take k (to_bytes d) -> drop k (to_bytes d) = b :: bs ->
  length (<[k := b]> g) = n /\ take (S k) (<[k := b]> g) = take (S k) (to_bytes d).
Proof using Type.
  intros Hg Ht E. apply drop_next in E as (Hk & Hb & _). rewrite length_insert. split; [done|].
  rewrite (take_S_r (<[k:=b]> g) k b) by (apply list_lookup_insert_eq; lia).
  rewrite (take_S_r (to_bytes d) k b) by done. by rewrite take_insert_ge by lia; rewrite Ht.
Qed.

(** *** What a phase says of the state *)
Lemma phase_write r w g p c h :
  phase r w g p c h -> 1 <= w -> h = None /\ r = 0 /\ w = 1 /\ c = to_bytes <$> p /\ length g = n.
Proof using Type. destruct 1; intros; try lia. done. Qed.

Lemma phase_read r w g p c h :
  phase r w g p c h -> 1 <= r ->
  h = None /\ r = 1 /\ w = 0 /\ exists p' d, p = p' ++ [d] /\ c = to_bytes <$> p' /\ g = to_bytes d.
Proof using Type. destruct 1; intros; try lia. repeat split. eauto. Qed.

Lemma phase_putting r w g p c acc k d cs :
  phase r w g p c (Some (acc, Putting k d cs)) ->
  r = 0 /\ w = 0 /\ c = to_bytes <$> p /\ length g = n /\ (k <= n)%nat /\ take k g = take k (to_bytes d).
Proof using Type. inversion 1; subst. done. Qed.

Lemma phase_getting r w g p c acc k throws cs :
  phase r w g p c (Some (acc, Getting k throws cs)) ->
  r = 0 /\ w = 0 /\ exists p' d, p = p' ++ [d] /\ c = to_bytes <$> p' /\ g = to_bytes d /\ (k <= n)%nat /\
  acc = take k (to_bytes d).
Proof using Type. inversion 1; subst. repeat split. do 2 eexists. done. Qed.

Lemma phase_leaving r w g p c acc cs :
  phase r w g p c (Some (acc, Leaving cs)) ->
  r = 0 /\ w = 0 /\ c = to_bytes <$> p /\ length g = n.
Proof using Type. inversion 1; subst. done. Qed.

Lemma ok_step s s' : ok s -> step s s' -> ok s'.
Proof using Type.
  intros (xs & h & Hg) Hstep. pose proof Hg as [Hc Hp Hh Hu He Hth].
  destruct Hstep as [r w w' g ts p c i acc k Hi Hw|r w g ts p c i acc j b k Hi|r w g ts p c i acc d k Hi
                    |r r' w g ts p c i acc k Hi Hr|r w g ts p c i acc j b k Hi Hb|r w g ts p c i acc k Hi
                    |r w g ts p c i acc k Hi]; simpl in *;
    destruct (Forall2_lookup_l _ _ _ _ _ Hc Hi) as (x & Hx & Ecode);
    symmetry in Ecode; cbn [snd] in Ecode; apply code_cons in Ecode as (x' & En & ->);
    destruct x as [[|[d0|throws] cs]|k0 d0 cs|k0 throws cs|cs]; simpl in En; try done;
    try match type of En with
    | context [drop ?k ?l] => destruct (drop k l) as [|b0 bs] eqn:Ed; try done
    | context [decide ?P] => destruct (decide P) as [Hk|Hk]; try done
    end;
    injection En as; subst.
  - destruct (phase_write _ _ _ _ _ _ Hp) as (-> & Er & Ew & -> & Hg0).
    { pose proof (sem_wait_count _ _ Hw). pose proof (count_nonneg w'). lia. }
    exists (<[i := Putting 0 d0 cs]> xs), (Some (acc, Putting 0 d0 cs)).
    eapply good_move; [exact Hg|exact Hi|exact Hx|reflexivity| |intros _; by eapply nobody_inside|done|done|simpl; rewrite ?elem_of_cons; first [tauto|intros [->|]; auto]].
    simpl. rewrite (sem_wait_count _ _ Hw), Er, Ew. apply Filling; [done|lia|done].
  - pose proof (Hh i _ _ Hx eq_refl Hi) as Eh; cbn [fst] in Eh; subst h. destruct (phase_putting _ _ _ _ _ _ _ _ _ Hp) as (Er & Ew & -> & Hg0 & Hk & Ht).
    destruct (take_insert_next g d0 j b bs Hg0 Ht Ed) as [Hg' Ht'].
    exists (<[i := Putting (S j) d0 cs]> xs), (Some (acc, Putting (S j) d0 cs)).
    eapply good_move; [exact Hg|exact Hi|exact Hx|reflexivity| |done|done|done|simpl; tauto].
    simpl. rewrite Er, Ew. apply drop_next in Ed as (? & _). by apply Filling.
  - pose proof (Hh i _ _ Hx eq_refl Hi) as Eh; cbn [fst] in Eh; subst h. destruct (phase_putting _ _ _ _ _ _ _ _ _ Hp) as (Er & Ew & -> & Hg0 & Hk & Ht).
    assert (g = to_bytes d).
    { pose proof (f_equal length Ed) as El. rewrite length_drop, length_to_bytes in El. simpl in El.
      rewrite (take_ge g), (take_ge (to_bytes d)) in Ht; rewrite ?length_to_bytes; done || lia. }
    subst g. exists (<[i := Out cs]> xs), None.
    eapply good_move; [exact Hg|exact Hi|exact Hx|reflexivity| |done|done|done|simpl; tauto].
    simpl. rewrite sem_post_count, Er, Ew. apply Full.
  - destruct (phase_read _ _ _ _ _ _ Hp) as (-> & Er & Ew & p' & d & -> & -> & ->).
    { pose proof (sem_wait_count _ _ Hr). pose proof (count_nonneg r'). lia. }
    exists (<[i := Getting 0 throws cs]> xs), (Some ([], Getting 0 throws cs)).
    eapply good_move; [exact Hg|exact Hi|exact Hx|reflexivity| |intros _; by eapply nobody_inside|done|done|simpl; rewrite ?elem_of_cons; first [tauto|intros [->|]; auto]].
    simpl. rewrite (sem_wait_count _ _ Hr), Er, Ew. apply (Reading p' d 0). lia.
  - pose proof (Hh i _ _ Hx eq_refl Hi) as Eh; cbn [fst] in Eh; subst h.
    destruct (phase_getting _ _ _ _ _ _ _ _ _ Hp) as (Er & Ew & p' & d & -> & -> & -> & Hk0 & ->).
    exists (<[i := Getting (S j) throws cs]> xs), (Some (take j (to_bytes d) ++ [b], Getting (S j) throws cs)).
    eapply good_move; [exact Hg|exact Hi|exact Hx|reflexivity| |done|done|done|simpl; tauto].
    simpl. rewrite Er, Ew, <- (take_S_r _ _ b) by done. by apply Reading.
  - pose proof (Hh i _ _ Hx eq_refl Hi) as Eh; cbn [fst] in Eh; subst h.
    destruct (phase_getting _ _ _ _ _ _ _ _ _ Hp) as (Er & Ew & p' & d & -> & -> & -> & Hk0 & ->).
    assert (Ec : (to_bytes <$> p') ++ [take k0 (to_bytes d)] = to_bytes <$> (p' ++ [d])).
    { rewrite fmap_app, take_ge by (rewrite length_to_bytes; lia). done. }
    exists (<[i := if throws then Out cs else Leaving cs]> xs),
           (if throws then None else Some (take k0 (to_bytes d), Leaving cs)).
    eapply good_move; [exact Hg|exact Hi|exact Hx|reflexivity| |done|by destruct throws|by destruct throws|destruct throws; simpl; tauto].
    simpl. rewrite Er, Ew, Ec. destruct throws; constructor; try apply length_to_bytes. apply (Hth i _ Hx). by left.
  - pose proof (Hh i _ _ Hx eq_refl Hi) as Eh; cbn [fst] in Eh; subst h. destruct (phase_leaving _ _ _ _ _ _ _ Hp) as (Er & Ew & -> & Hg0).
    exists (<[i := Out cs]> xs), None.
    eapply good_move; [exact Hg|exact Hi|exact Hx|reflexivity| |done|done|done|simpl; tauto].
    simpl. rewrite sem_post_count, Er, Ew. by apply Empty.
Qed.

Definition may_throw (css : list (list call)) : Prop := exists cs, cs ∈ css /\ Consume true ∈ cs.

Lemma ok_start bs css : length bs = n -> (may_throw css -> throwing) -> ok (start bs css).
Proof using Type.
  intros Hb Hthr. exists (Out <$> css), None. split; simpl.
  - apply Forall2_fmap_2, Forall_Forall2_diag, Forall_true. done.
  - rewrite !count_create by lia. by apply (Empty bs []).
  - intros i x th Hx. apply list_lookup_fmap_Some in Hx as (cs & -> & _). done.
  - intros i j x y Hx. apply list_lookup_fmap_Some in Hx as (cs & -> & _). done.
  - done.
  - intros i x Hx. apply list_lookup_fmap_Some in Hx as (cs & -> & Hi). simpl. intros Ht. apply Hthr.
    exists cs. split; [by eapply list_elem_of_lookup_2|done].
Qed.

Lemma ok_reachable bs css s :
  length bs = n -> (may_throw css -> throwing) -> rtc step (start bs css) s -> ok s.
Proof using Type.
  intros Hb Hthr Hr. pose proof (ok_start bs css Hb Hthr) as Hok.
  induction Hr as [|x y z Hstep _ IH]; [done|]. apply IH. by eapply ok_step.
Qed.

(** The thread that holds the token can always go on. *)
Lemma holder_steps s xs h : good s xs (Some h) -> exists s', step s s'.
Proof using Type.
  intros Hg. pose proof Hg as [Hc Hp Hh _ He _]. destruct h as [a x].
  destruct (He a x eq_refl) as (i & Hx & Hout). destruct s as [r w g ts p c]. simpl in *.
  destruct (Forall2_lookup_r _ _ _ _ _ Hc Hx) as ([acc k] & Hi & Ek). cbn [snd] in Ek.
  specialize (Hh i x _ Hx Hout Hi). cbn [fst] in Hh. injection Hh as ->.
  rewrite pos_code_next in Ek. destruct x as [|k0 d cs|k0 throws cs|cs]; try done; simpl in Ek.
  - destruct (drop k0 (to_bytes d)); subst k; eexists; [by eapply step_post_read|by eapply step_put].
  - destruct (phase_getting _ _ _ _ _ _ _ _ _ Hp) as (_ & _ & p' & d & _ & _ & -> & Hk & _).
    destruct (decide (k0 < n)%nat) as [Hlt|]; subst k; [|eexists; by eapply step_consumer].
    destruct (lookup_lt_is_Some_2 (to_bytes d) k0) as [b Hb]; [rewrite length_to_bytes; lia|].
    eexists. by eapply step_get.
  - subst k. eexists. by eapply step_post_write.
Qed.
End System.

(** ** Properties *)
Section Properties.
Context {T : Set} `{HT : FlatType T} `{HS : Semaphore}.

(** C28: Whatever the interleaving of any number of producers and consumers,
    what consumers have read is a prefix, in order and byte for byte, of what
    producers have published: nothing is lost, duplicated or torn. *)
Theorem handoff_fifo (bs : list Z) (css : list (list (call (T:=T)))) s :
  length bs = sizeof T -> rtc step (start bs css) s ->
  (length (consumed s) <= length (produced s) <= length (consumed s) + 1)%nat /\
  consumed s = to_bytes <$> take (length (consumed s)) (produced s).
Proof using Type.
  intros Hb Hr. destruct (ok_reachable True bs css s Hb ltac:(done) Hr) as (xs & h & Hg).
  assert (Hlog : exists p q, produced s = p ++ q /\ consumed s = to_bytes <$> p /\ (length q <= 1)%nat).
  { destruct (good_phase _ _ _ _ Hg) as [g p|g p|p d|p d|g p|g p];
      [exists p, []|exists p, []|exists p, [d]|exists p, [d]|exists p, []|exists p, []];
      rewrite ?app_nil_r; simpl; repeat split; lia || done. }
  destruct Hlog as (p & q & -> & -> & Hq). rewrite length_app, length_fmap, take_app_length.
  split; [lia|done].
Qed.

(** C29: If no consumer throws, some thread can always step, unless every
    unfinished thread is a consumer waiting for a value or every one is a
    producer waiting for room. *)
Theorem handoff_progress (bs : list Z) (css : list (list (call (T:=T)))) s :
  length bs = sizeof T -> ~ may_throw css -> rtc step (start bs css) s ->
  (exists s', step s s') \/
  (forall i acc k, threads s !! i = Some (acc, k) -> k = [] \/ exists k', k = WaitRead :: k') \/
  (forall i acc k, threads s !! i = Some (acc, k) -> k = [] \/ exists k', k = WaitWrite :: k').
Proof using Type.
  intros Hb Hno Hr. destruct (ok_reachable False bs css s Hb ltac:(done) Hr) as (xs & h & Hg).
  destruct h as [h|]; [left; by eapply holder_steps|].
  pose proof (nobody_inside _ _ _ Hg) as Hout. destruct Hg as [Hc Hp _ _ _ _].
  assert (Hhead : forall i acc k, threads s !! i = Some (acc, k) ->
            k = [] \/ (exists k', k = WaitWrite :: k') \/ (exists k', k = WaitRead :: k')).
  { intros i acc k Hi. destruct (Forall2_lookup_l _ _ _ _ _ Hc Hi) as (x & Hx & E). cbn [snd] in E.
    specialize (Hout i x Hx). destruct x as [[|[d|throws] cs]| | |]; try done; rewrite E; simpl; eauto. }
  destruct s as [r w g ts p c]. simpl in *.
  destruct (sem_wait w) as [w'|] eqn:Ew.
  - (* a producer could go on *)
    destruct (decide (Exists (fun th : thread => match th.2 with WaitWrite :: _ => true | _ => false end = true) ts))
      as [Hex|Hnex]; [|right; left].
    { left. apply Exists_exists in Hex as ([acc k] & Hin & Hk). apply list_elem_of_In, list_elem_of_lookup in Hin as [i Hi].
      cbn in Hk. destruct k as [|[] k]; try done. eexists. by eapply step_wait_write. }
    intros i acc k Hi. destruct (Hhead i acc k Hi) as [->|[[k' ->]|Hk]]; auto. destruct Hnex.
    apply Exists_exists. exists (acc, WaitWrite :: k'). split; [by apply list_elem_of_In; eapply list_elem_of_lookup_2|done].
  - (* nobody inside and no write token: there is a read token *)
    apply sem_wait_blocks in Ew. rewrite Ew in Hp.
    assert (Er : count r = 1) by (inversion Hp; by subst).
    destruct (sem_wait r) as [r'|] eqn:Ew'; [|apply sem_wait_blocks in Ew'; lia].
    destruct (decide (Exists (fun th : thread => match th.2 with WaitRead :: _ => true | _ => false end = true) ts))
      as [Hex|Hnex]; [|right; right].
    { left. apply Exists_exists in Hex as ([acc k] & Hin & Hk). apply list_elem_of_In, list_elem_of_lookup in Hin as [i Hi].
      cbn in Hk. destruct k as [|[] k]; try done. eexists. by eapply step_wait_read. }
    intros i acc k Hi. destruct (Hhead i acc k Hi) as [->|[Hk|[k' ->]]]; auto. destruct Hnex.
    apply Exists_exists. exists (acc, WaitRead :: k'). split; [by apply list_elem_of_In; eapply list_elem_of_lookup_2|done].
Qed.
End Properties.

(** ** Schedules, executable *)
Section Schedule.
Context {T : Set} `{HT : FlatType T} `{HS : Semaphore}.

(** Thread [i] takes its next step. *)
Definition exec1 (i : nat) (s : state (T:=T)) : option state :=
  let '(State r w g ts p c) := s in
  match ts !! i with
  | Some (acc, WaitWrite :: k) => w' ← sem_wait w; Some (State r w' g (<[i := (acc, k)]> ts) p c)
  | Some (acc, PutByte j b :: k) => Some (State r w (<[j := b]> g) (<[i := (acc, k)]> ts) p c)
  | Some (acc, PostRead d :: k) => Some (State (sem_post r) w g (<[i := (acc, k)]> ts) (p ++ [d]) c)
  | Some (_, WaitRead :: k) => r' ← sem_wait r; Some (State r' w g (<[i := ([], k)]> ts) p c)
  | Some (acc, GetByte j :: k) => b ← g !! j; Some (State r w g (<[i := (acc ++ [b], k)]> ts) p c)
  | Some (acc, Consumer :: k) => Some (State r w g (<[i := (acc, k)]> ts) p (c ++ [acc]))
  | Some (acc, PostWrite :: k) => Some (State r (sem_post w) g (<[i := (acc, k)]> ts) p c)
  | _ => None
  end.

Fixpoint exec (sched : list nat) (s : state) : option state :=
  match sched with [] => Some s | i :: sched => s' ← exec1 i s; exec sched s' end.

Lemma exec1_step i s s' : exec1 i s = Some s' -> step s s'.
Proof.
  destruct s as [r w g ts p c]. cbn. destruct (ts !! i) as [[acc [|[] k]]|] eqn:Ei; try done.
  - intros (w' & Ew & [= <-])%bind_Some. by eapply step_wait_write.
  - intros [= <-]. by eapply step_put.
  - intros [= <-]. by eapply step_post_read.
  - intros (r' & Er & [= <-])%bind_Some. by eapply step_wait_read.
  - intros (b & Eb & [= <-])%bind_Some. by eapply step_get.
  - intros [= <-]. by eapply step_consumer.
  - intros [= <-]. by eapply step_post_write.
Qed.

Lemma exec_steps sched s s' : exec sched s = Some s' -> rtc step s s'.
Proof.
  revert s. induction sched as [|i sched IH]; intros s; cbn [exec]; [intros [= ->]; constructor|].
  intros (s1 & E1 & E)%bind_Some. eapply rtc_l; [by eapply exec1_step|by apply IH].
Qed.
End Schedule.

Module HandoffWitness.
#[export] Program Instance nat_semaphore : Semaphore := {|
  sem := nat;
  create := Z.to_nat;
  sem_wait s := match s with O => None | S s => Some s end;
  sem_post := S;
  count := Z.of_nat
|}.
Next Obligation. intros. simpl. lia. Qed.
Next Obligation. intros. lia. Qed.
Next Obligation. intros [|s] s'; [done|]. intros [= ->]. lia. Qed.
Next Obligation. intros [|s]; split; try done; lia. Qed.
Next Obligation. intros. simpl. lia. Qed.

Definition bytes0 : list Z := [0; 0; 0; 0].
Definition css : list (list (call (T:=uint32))) :=
  [[Produce (to_uint 4 7); Produce (to_uint 4 9)]; [Consume false; Consume false]].
(** Six steps of the producer, seven of the consumer, six of the producer. *)
Definition sched : list nat := repeat 0%nat 6 ++ repeat 1%nat 7 ++ repeat 0%nat 6.
Definition stop : state := match exec sched (start bytes0 css) with Some s => s | None => start bytes0 css end.

Lemma stop_reached : rtc step (start bytes0 css) stop.
Proof. apply (exec_steps sched). reflexivity. Qed.

Lemma no_throws : ~ may_throw css.
Proof.
  intros (cs & Hcs & Ht). unfold css in Hcs.
  apply elem_of_cons in Hcs as [->|Hcs]; [|apply list_elem_of_singleton in Hcs as ->];
    repeat (apply elem_of_cons in Ht as [?|Ht]; [done|]); by apply not_elem_of_nil in Ht.
Qed.

Lemma handoff_fifo_witness :
  length (produced stop) = 2%nat /\ consumed stop = [to_bytes (to_uint 4 7)] /\
  consumed stop = to_bytes <$> take (length (consumed stop)) (produced stop).
Proof.
  split; [reflexivity|]. split; [reflexivity|].
  apply (handoff_fifo bytes0 css stop); [reflexivity|exact stop_reached].
Defined.

Lemma handoff_progress_witness :
  (exists s', step stop s') \/
  (forall i acc k, threads stop !! i = Some (acc, k) -> k = [] \/ exists k', k = WaitRead :: k') \/
  (forall i acc k, threads stop !! i = Some (acc, k) -> k = [] \/ exists k', k = WaitWrite :: k').
Proof.
  apply (handoff_progress bytes0 css stop); [reflexivity|exact no_throws|exact stop_reached].
Defined.

(** After a consumer has thrown nobody gets a token any more: the producer
    waits for ever. *)
Lemma throwing_consumer_stalls :
  exists s, rtc step (start bytes0 [[Produce (to_uint 4 7); Produce (to_uint 4 9)]; [Consume true]]) s /\
    (exists acc d k, threads s !! 0%nat = Some (acc, WaitWrite :: puts 0 (to_bytes d) ++ PostRead d :: k)) /\
    forall s', ~ step s s'.
Proof.
  pose (s0 := start bytes0 [[Produce (to_uint 4 7); Produce (to_uint 4 9)]; [Consume true]]).
  pose (s := match exec (repeat 0%nat 6 ++ repeat 1%nat 6) s0 with Some s => s | None => s0 end).
  exists s. split; [apply (exec_steps (repeat 0%nat 6 ++ repeat 1%nat 6)); reflexivity|].
  split; [exists [], (to_uint 4 9), []; reflexivity|].
  intros s' Hstep. inversion Hstep as [? ? ? ? ? ? ? i ? ? Hi Hw|? ? ? ? ? ? i ? ? ? ? Hi|? ? ? ? ? ? i ? ? ? Hi
    |? ? ? ? ? ? ? i ? ? Hi|? ? ? ? ? ? i ? ? ? ? Hi|? ? ? ? ? ? i ? ? Hi|? ? ? ? ? ? i ? ? Hi]; subst;
    destruct i as [|[|i]]; simpl in Hi; try done; by injection Hi.
Qed.
End HandoffWitness.
