(* ===== verification/Bindings.v ===== *)
(** * The Python modules

    [nanobind_safe_shm.cpp] and [nanobind_image_shm.cpp].  What the modules
    add to the headers: concrete element types and capacities, validators
    that raise, and a producer/consumer object whose [load] hands out one
    shared image. *)
From Stdlib Require Import String DecimalString.
From stdpp Require Import gmap.
From S2P Require Import Prelude Memory Prog History Reads FlatType SeqCount Seqlock CyclicBuffer CyclicRing CyclicReaders CyclicConcurrent Stamped SanitizedKey Float TimeSeries TimeSeriesFacts TimeSeriesRing RingLog Image ProducerConsumer.

(** ** safe_shm_py *)

(** [std::to_string] of an unsigned number. *)
Definition to_string (z : Z) : string := NilZero.string_of_uint (N.to_uint (Z.to_N z)).

Module SafeShmPy.
(** A [double] is the 64 bits of its representation. *)
Abbreviation F64 := uint64.
Abbreviation StampedF64 := (Stamped uint64).
Definition capacity : Z := 64.

Definition stamp_f64 (now : timespec) (data : F64) (seq : uint64) : StampedF64 := stamp now data seq.

Definition SeqlockWriterF64_store (data : F64) : prog unit := SeqlockWriter.store data.
Definition SeqlockReaderF64_load : prog F64 := SeqlockReader.load F64.
Definition SeqlockReaderF64_sequence : prog Z := SeqlockReader.sequence.
Definition SeqlockWriterStampedF64_store (data : StampedF64) : prog unit := SeqlockWriter.store data.
Definition SeqlockReaderStampedF64_load : prog StampedF64 := SeqlockReader.load StampedF64.
Definition SeqlockReaderStampedF64_sequence : prog Z := SeqlockReader.sequence.

Definition CBWriter_insert (data : StampedF64) : prog unit := CyclicBufferWriter.insert capacity data.
Definition CBWriter_total_writes : prog Z := CyclicBufferWriter.total_writes.

Definition CBReader_get_latest : prog StampedF64 := CyclicBufferReader.get_latest StampedF64 capacity.
Definition CBReader_get (reverse_index : Z) : prog StampedF64 := CyclicBufferReader.get StampedF64 capacity reverse_index.
Definition CBReader_try_get (reverse_index : Z) (max_retries : option Z) : prog (option StampedF64) :=
  CyclicBufferReader.try_get StampedF64 capacity reverse_index (default 4 max_retries).
Definition CBReader_available : prog Z := CyclicBufferReader.available capacity.
Definition CBReader_total_writes : prog Z := CyclicBufferReader.total_writes.

Definition TS_find_closest (target_timestamp_ns : Z) (max_distance_ns : option Z) : prog (option StampedF64) :=
  TimeSeries.find_closest capacity target_timestamp_ns max_distance_ns.
Definition TS_find_interpolation_pair (target_timestamp_ns : Z) : prog (option (InterpPair StampedF64)) :=
  TimeSeries.find_interpolation_pair capacity target_timestamp_ns.
Definition TS_get_latest_if_fresh (min_timestamp_ns : Z) : prog (option StampedF64) :=
  TimeSeries.get_latest_if_fresh capacity min_timestamp_ns.
Definition TS_get_latest : prog StampedF64 := TimeSeries.get_latest (T:=StampedF64) capacity.
Definition TS_available : prog Z := TimeSeries.available capacity.
Definition TS_total_writes : prog Z := TimeSeries.total_writes.

(** The validators: the value, or the message of a [ValueError]. *)
Definition result : Set := string + uint64.
Local Open Scope string_scope.

Definition validate_monotonic_ns (v : uint64) : result :=
  if negb (MonotonicNsValidator v) then
    inl ("Value " ++ to_string (uint_val v) ++ " is not a plausible CLOCK_MONOTONIC nanosecond timestamp "
         ++ "(expected >= 1s, got " ++ to_string (uint_val v) ++ " ns)")
  else inr v.

Definition validate_range (v min_val max_val : uint64) : result :=
  if negb (RangeValidator min_val max_val v) then
    inl ("Value " ++ to_string (uint_val v) ++ " is outside range [" ++ to_string (uint_val min_val)
         ++ ", " ++ to_string (uint_val max_val) ++ "]")
  else inr v.

Definition validate_proximity (v reference tolerance : uint64) : result :=
  if negb (ProximityValidator reference tolerance v) then
    inl ("Value " ++ to_string (uint_val v) ++ " differs from reference " ++ to_string (uint_val reference)
         ++ " by more than tolerance " ++ to_string (uint_val tolerance))
  else inr v.
End SafeShmPy.
Import SafeShmPy.

(** ** image_shm_dblbuff *)
Module ImageShmDblbuff.
Definition width : Z := 3840.
Definition height : Z := 2160.

(** [shape()] of [Image4K_RGB]; the channels are converted from [float]. *)
Definition shape : option (list Z) :=
  match f32_to_size (channels RGB) with Some c => Some [height; width; c] | None => None end.

Section Accessors.
Context {n : nat}.
Definition get_data (self : Image n) : list Z := array_bytes (data self).

(** [memcpy(self.data.data(), array.data(), array.size())] *)
Definition set_data (self : Image n) (array : list Z) : Image n :=
  MkImage (timestamp self) (frame_number self)
          (to_array n (array ++ drop (length array) (array_bytes (data self)))).
End Accessors.

(** The object [ProducerConsumer] and the images Python can reach, by
    handle.  [None]: the caller blocks (or the handle names no image). *)
Abbreviation images := (gmap nat (list Z)).

Section ProducerConsumer.
Context `{Semaphore}.

Record object := Object {
  shm_ : list Z;            (* the bytes of the mapped image *)
  sem_read_ : sem;
  sem_write_ : sem;
  image_ : nat              (* the [shared_ptr] every [load] answers *)
}.

(** The constructor: [image_] is a new image, [mapped] the bytes the segment
    has. *)
Definition init (n : nat) (image : nat) (heap : images) (mapped : list Z) : object * images :=
  (Object mapped (create 0) (create 1) image, <[image := replicate n 0]> heap).

Definition store (self : object) (heap : images) (image : nat) : option (object * images) :=
  match sem_wait (sem_write_ self), heap !! image with
  | Some w, Some bytes => Some (Object bytes (sem_post (sem_read_ self)) w (image_ self), heap)
  | _, _ => None
  end.

Definition load (self : object) (heap : images) : option (object * images * nat) :=
  match sem_wait (sem_read_ self) with
  | Some r =>
      let heap := <[image_ self := shm_ self]> heap in
      Some (Object (shm_ self) r (sem_post (sem_write_ self)) (image_ self), heap, image_ self)
  | None => None
  end.

(** What a Python program does with one object: it also makes images and
    overwrites those it has. *)
Inductive py_op : Set := Store (image : nat) | Load | SetImage (image : nat) (bytes : list Z).

Definition py_step (s : object * images) (op : py_op) : option (object * images * option nat) :=
  let '(self, heap) := s in
  match op with
  | Store image => match store self heap image with Some (self, heap) => Some (self, heap, None) | None => None end
  | Load => match load self heap with Some (self, heap, i) => Some (self, heap, Some i) | None => None end
  | SetImage image bytes => Some (self, <[image := bytes]> heap, None)
  end.

(** The images a program has read, each as it was when [load] returned it,
    and where it stops: at the end or at the first call that blocks. *)
Fixpoint py_run (s : object * images) (ops : list py_op) : list (option (list Z)) * images :=
  match ops with
  | [] => ([], s.2)
  | op :: ops =>
      match py_step s op with
      | Some (self, heap, out) =>
          let '(outs, final) := py_run (self, heap) ops in
          (match out with Some i => (heap !! i) :: outs | None => outs end, final)
      | None => ([], s.2)
      end
  end.
End ProducerConsumer.
End ImageShmDblbuff.
Import ImageShmDblbuff.

#[export] Instance py_ring : RingConfig StampedF64 capacity.
Proof. split; reflexivity. Qed.

Example message :
  validate_range (to_uint 8 7) (to_uint 8 10) (to_uint 8 20) = inl "Value 7 is outside range [10, 20]"%string.
Proof. vm_compute. reflexivity. Qed.

(** *** Validators raise exactly when there is no key *)

(** C34: The Python validators return the value unchanged exactly when it
    meets the policy the C++ validator stands for, over the full 64-bit range,
    and otherwise raise with a message that starts with the rejected value. *)
Theorem validators_raise_exactly (v lo hi reference tolerance : uint64) :
  (validate_monotonic_ns v = inr v <-> meets MonotonicNs (uint_val v)) /\
  (validate_range v lo hi = inr v <-> meets (InRange lo hi) (uint_val v)) /\
  (validate_proximity v reference tolerance = inr v <-> meets (Near reference tolerance) (uint_val v)) /\
  (forall r, r ∈ [validate_monotonic_ns v; validate_range v lo hi; validate_proximity v reference tolerance] ->
     r = inr v \/ exists rest, r = inl ("Value " ++ to_string (uint_val v) ++ " " ++ rest)%string).
Proof.
  unfold validate_monotonic_ns, validate_range, validate_proximity.
  split; [|split; [|split]].
  - cbn [meets]. rewrite <- monotonic_spec. by destruct (MonotonicNsValidator v).
  - cbn [meets]. rewrite <- range_spec. by destruct (RangeValidator lo hi v).
  - cbn [meets]. rewrite <- proximity_spec. by destruct (ProximityValidator reference tolerance v).
  - intros r Hr. rewrite !elem_of_cons in Hr. destruct Hr as [->|[->|[->|Hr%not_elem_of_nil]]]; [| | |done].
    + destruct (MonotonicNsValidator v); [by left|right; by eexists].
    + destruct (RangeValidator lo hi v); [by left|right; by eexists].
    + destruct (ProximityValidator reference tolerance v); [by left|right; by eexists].
Qed.

(** The message of [validate_monotonic_ns] blames the lower bound whatever
    the reason. *)
Example too_late_is_blamed_on_too_early :
  validate_monotonic_ns (to_uint 8 (2 ^ 63)) =
  inl ("Value 9223372036854775808 is not a plausible CLOCK_MONOTONIC nanosecond timestamp " ++
       "(expected >= 1s, got 9223372036854775808 ns)")%string.
Proof. vm_compute. reflexivity. Qed.

(** *** Image data *)

(** The numpy views have as many elements as the array they alias. *)
Lemma shape_matches :
  shape = Some [2160; 3840; 3] /\ size width height RGB = Some (foldr Z.mul 1 [2160; 3840; 3]).
Proof. split; vm_compute; reflexivity. Qed.

(** set_data with an array of the image's size followed by get_data gives
    back the array, and leaves timestamp and frame number, the first sixteen
    bytes, alone. *)
Theorem set_get_data {n : nat} (self : Image n) (array : list Z) :
  length array = n ->
  get_data (set_data self array) = array /\
  image_bytes (set_data self array) = take 16 (image_bytes self) ++ array.
Proof.
  intros Hn. assert (Ed : array_bytes (to_array n (array ++ drop (length array) (array_bytes (data self)))) = array).
  { unfold to_array. cbn [array_bytes]. rewrite drop_ge, app_nil_r by (by rewrite array_bytes_length, Hn).
    rewrite <- Hn. apply resize_all. }
  split; [exact Ed|]. unfold image_bytes, set_data. cbn [timestamp frame_number data].
  rewrite Ed, app_assoc, (app_assoc (le_bytes 8 _)), take_app_length'; [done|].
  by rewrite length_app, !length_le_bytes.
Qed.

(** *** The producer/consumer object is a channel of one place *)
Section Channel.
Context `{HS : Semaphore} (i : nat).

Fixpoint channel_run (slot : option (list Z)) (heap : images) (ops : list py_op) : list (option (list Z)) * images :=
  match ops with
  | [] => ([], heap)
  | Store image :: ops =>
      match slot, heap !! image with
      | None, Some bytes => channel_run (Some bytes) heap ops
      | _, _ => ([], heap)
      end
  | Load :: ops =>
      match slot with
      | Some bytes =>
          let '(outs, final) := channel_run None (<[i := bytes]> heap) ops in (Some bytes :: outs, final)
      | None => ([], heap)
      end
  | SetImage image bytes :: ops => channel_run slot (<[image := bytes]> heap) ops
  end.

Definition channel_rel (self : object) (slot : option (list Z)) : Prop :=
  image_ self = i /\
  match slot with
  | Some bytes => count (sem_read_ self) = 1 /\ count (sem_write_ self) = 0 /\ shm_ self = bytes
  | None => count (sem_read_ self) = 0 /\ count (sem_write_ self) = 1
  end.

Lemma sem_wait_positive s : 0 < count s -> exists s', sem_wait s = Some s' /\ count s' = count s - 1.
Proof using Type.
  intros Hs. destruct (sem_wait s) as [s'|] eqn:E.
  - exists s'. split; [done|]. by apply sem_wait_count.
  - apply sem_wait_blocks in E. lia.
Qed.

Lemma channel_refines self slot heap ops :
  channel_rel self slot -> py_run (self, heap) ops = channel_run slot heap ops.
Proof using Type.
  revert self slot heap. induction ops as [|[image| |image bytes] ops IH]; intros self slot heap [Ei Hrel]; cbn [py_run channel_run].
  - done.
  - cbn [py_step]. unfold store. destruct slot as [b|].
    + destruct Hrel as (Hr & Hw & _). rewrite (proj2 (sem_wait_blocks _) Hw). done.
    + destruct Hrel as [Hr Hw]. destruct (sem_wait_positive (sem_write_ self)) as (w & -> & Ew); [lia|].
      destruct (heap !! image) as [bytes|]; [|done].
      rewrite (IH _ (Some bytes)); [by destruct (channel_run _ _ _)|].
      split; [done|]. cbn. rewrite sem_post_count. repeat split; lia.
  - cbn [py_step]. unfold load. destruct slot as [b|].
    + destruct Hrel as (Hr & Hw & Eb). destruct (sem_wait_positive (sem_read_ self)) as (r & -> & Er); [lia|].
      rewrite Ei, Eb, (IH _ None); [|split; [done|]; cbn; rewrite sem_post_count; lia].
      rewrite lookup_insert_eq. by destruct (channel_run _ _ _).
    + destruct Hrel as [Hr Hw]. rewrite (proj2 (sem_wait_blocks _) Hr). done.
  - cbn [py_step]. rewrite (IH _ slot) by done. by destruct (channel_run _ _ _).
Qed.
End Channel.

(** C32: The Python ProducerConsumer object refines a channel of one place:
    for any program of stores, loads and image updates every load reads the
    bytes last stored, and the program blocks exactly when it stores into a
    full or loads from an empty channel. *)
Theorem producer_consumer_is_channel `{Semaphore} (n i : nat) (heap : images) (mapped : list Z) (ops : list py_op) :
  py_run (init n i heap mapped) ops = channel_run i None (<[i := replicate n 0]> heap) ops.
Proof. apply channel_refines. split; [done|]. cbn. rewrite !count_create by lia. done. Qed.

Module BindingsWitness.
Lemma set_get_data_witness :
  let self := MkImage (to_uint 8 5) (to_uint 8 6) (to_array 4 [1; 2; 3; 4]) in
  get_data (set_data self [9; 8; 7; 6]) = [9; 8; 7; 6] /\
  image_bytes (set_data self [9; 8; 7; 6]) = take 16 (image_bytes self) ++ [9; 8; 7; 6].
Proof. intros self. apply (set_get_data self [9; 8; 7; 6]). reflexivity. Defined.

Definition heap : images := <[1%nat := [7; 7]]> (<[2%nat := [9; 9]]> ∅).
Definition session : list py_op := [Store 1; Load; Store 2; Load; Load].

Lemma producer_consumer_is_channel_witness :
  py_run (H:=HandoffWitness.nat_semaphore) (init (H:=HandoffWitness.nat_semaphore) 2 0 heap [5; 5]) session = channel_run 0 None (<[0%nat := replicate 2 0]> heap) session.
Proof. apply (producer_consumer_is_channel 2 0 heap [5; 5] session). Defined.

(** [load] answers the same image every time: what the first call returned
    has changed after the second. *)
Lemma loads_share_one_image :
  (channel_run 0 None heap session).1 = [Some [7; 7]; Some [9; 9]] /\
  (channel_run 0 None heap session).2 !! 0%nat = Some [9; 9].
Proof. split; vm_compute; reflexivity. Qed.
End BindingsWitness.
