(* ===== verification/PySession.v ===== *)
(** * Python sessions on the ring of 64 stamped doubles

    The three classes [nanobind_safe_shm.cpp] makes of the cyclic buffer and
    the time series, called from a script in any order: one object of each,
    attached to one segment.  The answers are specified on the list of what
    the script inserted, with the module's capacity and defaults as numbers. *)
From S2P Require Import Prelude Memory Prog Equiv History Reads FlatType SeqCount Seqlock CyclicBuffer CyclicRing CyclicReaders CyclicConcurrent Stamped SanitizedKey Float TimeSeries TimeSeriesFacts TimeSeriesRing RingLog Bindings.
Import SafeShmPy.

(** ** Scripts *)

(** A call, with its class and its arguments; [None] is an argument left out. *)
Inductive py_call : Set :=
| Writer_insert (data : StampedF64)
| Writer_total_writes
| Reader_get_latest
| Reader_get (reverse_index : Z)
| Reader_try_get (reverse_index : Z) (max_retries : option Z)
| Reader_available
| Reader_total_writes
| Series_find_closest (target_timestamp_ns : Z) (max_distance_ns : option Z)
| Series_find_interpolation_pair (target_timestamp_ns : Z)
| Series_get_latest_if_fresh (min_timestamp_ns : Z)
| Series_get_latest
| Series_available
| Series_total_writes.

(** What a call answers; an empty [std::optional] is [None]. *)
Inductive py_value : Set :=
| PyNone
| PyInt (n : Z)
| PyStamped (x : StampedF64)
| PyPair (p : InterpPair StampedF64).

Definition py_optional {A : Set} (f : A -> py_value) (o : option A) : py_value :=
  match o with Some a => f a | None => PyNone end.

Definition py_do (c : py_call) : prog py_value :=
  match c with
  | Writer_insert d => CBWriter_insert d ;;; Ret PyNone
  | Writer_total_writes => n <- CBWriter_total_writes ;; Ret (PyInt n)
  | Reader_get_latest => x <- CBReader_get_latest ;; Ret (PyStamped x)
  | Reader_get r => x <- CBReader_get r ;; Ret (PyStamped x)
  | Reader_try_get r k => o <- CBReader_try_get r k ;; Ret (py_optional PyStamped o)
  | Reader_available => n <- CBReader_available ;; Ret (PyInt n)
  | Reader_total_writes => n <- CBReader_total_writes ;; Ret (PyInt n)
  | Series_find_closest k d => o <- TS_find_closest k d ;; Ret (py_optional PyStamped o)
  | Series_find_interpolation_pair k => o <- TS_find_interpolation_pair k ;; Ret (py_optional PyPair o)
  | Series_get_latest_if_fresh k => o <- TS_get_latest_if_fresh k ;; Ret (py_optional PyStamped o)
  | Series_get_latest => x <- TS_get_latest ;; Ret (PyStamped x)
  | Series_available => n <- TS_available ;; Ret (PyInt n)
  | Series_total_writes => n <- TS_total_writes ;; Ret (PyInt n)
  end.

Fixpoint py_session (calls : list py_call) : prog (list py_value) :=
  match calls with
  | [] => Ret []
  | c :: calls => v <- py_do c ;; vs <- py_session calls ;; Ret (v :: vs)
  end.

(** ** Their specification *)

Definition newest (ds : list StampedF64) : list StampedF64 := take 64 (reverse ds).

Definition zero_sample : StampedF64 := MkStamped (to_uint 8 0) (to_uint 8 0) (to_uint 8 0).

(** What a call answers after [ds] have been inserted.  An index [get] should
    not be called with leads to some element or to zeros. *)
Definition py_answer (ds : list StampedF64) (c : py_call) (v : py_value) : Prop :=
  match c with
  | Writer_insert _ => v = PyNone
  | Writer_total_writes | Reader_total_writes | Series_total_writes => v = PyInt (Z.of_nat (length ds))
  | Reader_available | Series_available => v = PyInt (Z.min (Z.of_nat (length ds)) 64)
  | Reader_get_latest | Series_get_latest => v = PyStamped (default zero_sample (newest ds !! 0%nat))
  | Reader_get r => exists x, v = PyStamped x /\
      match newest ds !! Z.to_nat r with Some y => x = y | None => x ∈ zero_sample :: ds end
  | Reader_try_get r _ => v = py_optional PyStamped (newest ds !! Z.to_nat r)
  | Series_find_closest k d => exists o, v = py_optional PyStamped o /\ closest (newest ds) k d o
  | Series_find_interpolation_pair k => exists o, v = py_optional PyPair o /\ brackets (newest ds) k o
  | Series_get_latest_if_fresh k =>
      v = py_optional PyStamped (x ← newest ds !! 0%nat; if extractor x >=? k then Some x else None)
  end.

Definition py_next (ds : list StampedF64) (c : py_call) : list StampedF64 :=
  match c with Writer_insert d => ds ++ [d] | _ => ds end.

Fixpoint py_answers (ds : list StampedF64) (calls : list py_call) (vs : list py_value) : Prop :=
  match calls, vs with
  | [], [] => True
  | c :: calls, v :: vs => py_answer ds c v /\ py_answers (py_next ds c) calls vs
  | _, _ => False
  end.

(** The arguments are of their C++ types: [std::size_t], [unsigned],
    [std::uint64_t]. *)
Definition call_ok (c : py_call) : Prop :=
  match c with
  | Reader_get r => 0 <= r
  | Reader_try_get r k => 0 <= r /\ 0 <= default 0 k
  | Series_find_closest k d => 0 <= k < 2 ^ 64 /\ 0 <= default 0 d
  | Series_find_interpolation_pair k | Series_get_latest_if_fresh k => 0 <= k < 2 ^ 64
  | _ => True
  end.

(** What the script inserts altogether. *)
Fixpoint inserted_by (calls : list py_call) : list StampedF64 :=
  match calls with
  | [] => []
  | Writer_insert d :: calls => d :: inserted_by calls
  | _ :: calls => inserted_by calls
  end.

Lemma inserted_by_cons ds c calls : py_next ds c ++ inserted_by calls = ds ++ inserted_by (c :: calls).
Proof. destruct c; simpl; try done. by rewrite <- app_assoc. Qed.

Lemma keys_ascend_prefix (ds ds' : list StampedF64) : keys_ascend (ds ++ ds') -> keys_ascend ds.
Proof. intros Ha i j x y Hij Hx Hy. by apply (Ha i j x y Hij); apply lookup_app_l_Some. Qed.

(** ** A call on a ring at rest *)
Section Call.
Context (rc : nat -> Z * Z) (ds : list StampedF64) (m : mem).
Context (Hm : ring_log (N:=64) ds m) (Hlen : Z.of_nat (length ds) < 2 ^ 62).

(** A reader's call: its method answers [P], and [P] is the specification. *)
Lemma wp_call {A : Set} (p : prog A) (f : A -> py_value) (P : A -> Prop) c t (Q : py_value -> nat -> mem -> list mem -> Prop) :
  reads (quiet rc) t (eq m) p P -> (forall a, P a -> py_answer ds c (f a)) ->
  (forall v t' m' l, py_answer ds c v -> ring_log (N:=64) ds m' -> Q v t' m' l) ->
  wp (quiet rc) (a <- p ;; Ret (f a)) t m Q.
Proof using Hm.
  intros Hp HP HQ. apply wp_bind. eapply wp_reads; [exact Hp|lia|]. intros a t' l Ha. apply wp_ret, HQ; auto.
Qed.

Lemma reads_latest t :
  reads (quiet rc) t (eq m) (CyclicBufferReader.get_latest StampedF64 64) (eq (default zero_sample (newest ds !! 0%nat))).
Proof using Hm Hlen.
  destruct (newest ds !! 0%nat) as [x|] eqn:E; [by eapply (reads_get_latest_kept (N:=64))|].
  assert (ds = []) as ->.
  { apply lookup_ge_None in E. unfold newest in E. rewrite length_take, length_reverse in E. apply nil_length_inv. lia. }
  intros t1 m' _ <-. eapply wp_get_latest; [auto with shm|exact Hm|done|]. done.
Qed.

Lemma reads_any_index r t :
  0 <= r -> reads (quiet rc) t (eq m) (CyclicBufferReader.get StampedF64 64 r)
    (fun x => match newest ds !! Z.to_nat r with Some y => x = y | None => x ∈ zero_sample :: ds end).
Proof using Hm Hlen.
  intros Hr. destruct (newest ds !! Z.to_nat r) as [y|] eqn:E.
  - eapply reads_conseq; [by eapply (reads_get_kept (N:=64))|]. by intros x <-.
  - eapply reads_conseq; [by apply (reads_log_get_any (N:=64) ds m)|].
    intros x [Hx| ->]; rewrite elem_of_cons; [by right|by left].
Qed.

Lemma reads_try r k t :
  0 <= r -> 0 <= k -> reads (quiet rc) t (eq m) (CyclicBufferReader.try_get StampedF64 64 r k) (eq (newest ds !! Z.to_nat r)).
Proof using Hm Hlen.
  intros Hr Hret t1 m' _ <-. eapply wp_try_get; [auto with shm|exact Hm|lia|done|done|].
  intros t' l Ht. split; [done|]. split; [done|].
  destruct (newest ds !! Z.to_nat r) as [x|] eqn:E.
  - apply (kept_lookup 64) in E as [? Hx]. rewrite (proj2 (Z.ltb_lt _ _)) by lia. unfold session_elem.
    replace (Z.to_nat _) with (length ds - 1 - Z.to_nat r)%nat by lia. by rewrite nth_lookup, Hx.
  - apply lookup_ge_None in E. unfold newest in E. rewrite length_take, length_reverse in E.
    by rewrite (proj2 (Z.ltb_ge _ _)) by lia.
Qed.

Context (Hk : keys_ascend ds).
Lemma wp_py_do c t (Q : py_value -> nat -> mem -> list mem -> Prop) :
  call_ok c ->
  (forall v t' m' l, py_answer ds c v -> ring_log (N:=64) (py_next ds c) m' -> Q v t' m' l) ->
  wp (quiet rc) (py_do c) t m Q.
Proof using Hm Hlen Hk.
  intros Hok HQ. pose proof (log_view (N:=64) ds m Hm Hlen rc t) as Hv.
  assert (Hrest : forall t' m', (t <= t')%nat -> m = m' -> m = interfere (quiet rc) t' m') by by intros ? ? _ <-.
  pose proof (kept_descend 64 ds Hk) as Hd.
  destruct c; simpl in Hok; cbn [py_next] in HQ.
  { apply wp_bind, wp_log_insert with ds; [done|]. intros t1 m1 l1 Hm1. by apply wp_ret, HQ. }
  all: eapply wp_call; [| |exact HQ].
  all: try first [ by apply reads_latest | by apply reads_any_index | by apply reads_try
    | by apply (reads_log_available (N:=64) ds) | by apply (reads_log_total (N:=64) ds) ].
  all: try by intros ? <-.
  - intros x Hx. by exists x.
  - apply reads_try; [lia|]. destruct max_retries; simpl in *; lia.
  - by intros ? <-.
  - apply (reads_find_closest 64 _ _ _ Hrest _ Hv Hd); [apply Hok|].
    destruct Hok as [_ Hok]. by intros md ->.
  - intros o Ho. by exists o.
  - by apply (reads_find_interpolation_pair 64 _ _ _ Hrest _ Hv Hd).
  - intros o Ho. by exists o.
  - apply (reads_get_latest_if_fresh 64 _ _ _ _ Hv).
  - intros o <-. unfold py_answer. change (newest ds) with (kept 64 ds). by destruct (kept 64 ds).
Qed.
End Call.

Lemma segment_size : CyclicRegion.total_size StampedF64 64 = 2056.
Proof. reflexivity. Qed.

(** ** A slot whose writer died

    In this module slot [i] has its counter at byte [8 + 32 i]. *)
Lemma slot_counter_offset i : 0 <= i < 64 -> slot_seq_offset StampedF64 i = 8 + 32 * i.
Proof.
  intros Hi. unfold slot_seq_offset. change (CyclicRegion.slots_offset StampedF64) with 8.
  change (CyclicSlot.slot_size StampedF64) with 32. rewrite !u64_small; rewrite ?u64_small; lia.
Qed.

Lemma try_get_stopped rc r k n t m :
  Z.of_nat (length m) = 2056 -> 0 <= r < Z.min (ld64 m 0) 64 ->
  let s := 8 + 32 * ((ld64 m 0 - 1 - r) mod 64) in
  Z.land (ld32 m s) 1 <> 0 -> 0 <= k < 2 ^ 32 - 1 -> (2 * Z.to_nat k + 4 <= n)%nat ->
  let p := CyclicBufferReader.try_get StampedF64 64 r k in
  trace n (quiet rc) p t m = Does (ALoad64 acquire 0) :: replicate (Z.to_nat k + 1) (Does (ALoad32 acquire s)) /\
  exists t', run n (quiet rc) p t m = Value None t' m.
Proof.
  intros Hlen Hr s Hodd Hk Hn p. set (i := (ld64 m 0 - 1 - r) mod 64) in *.
  assert (Hi : 0 <= i < 64) by (apply Z.mod_pos_bound; lia).
  assert (Hreg : ring_region (T:=StampedF64) (N:=64) m) by done.
  pose proof (ring_header_ok (T:=StampedF64) (N:=64) m Hreg) as Hh.
  pose proof (slot_seq_ok _ _ _ _ (ring_slot_ok (T:=StampedF64) (N:=64) m i Hreg Hi)) as Hs.
  assert (Es : slot_seq_offset StampedF64 i = s) by by apply slot_counter_offset.
  destruct n as [|n]; [lia|]. subst p. unfold CyclicBufferReader.try_get, CyclicBufferReader.total_writes_ref.
  cbn [trace run ret_of next_label step load64 act_step quiet interfere futex_rc guard_opt]. rewrite Hh. cbn [guard_opt].
  match goal with |- context [run n _ ?q _ _] => assert (E : q ≡ attempts (T:=StampedF64) i k 0) end.
  { rewrite ret_bind. destruct (r >=? _) eqn:Ege; [zbool; lia|].
    replace (u64 (ld64 m 0 - 1)) with (u64 (u64 (ld64 m 0) - 1)) by by apply wrap_sub_l.
    by rewrite (reverse_slot (T:=StampedF64) (N:=64)). }
  destruct (sim_run n (quiet rc) _ _ (S t) m (E n)) as (-> & _ & ->).
  destruct (attempts_stopped (T:=StampedF64) rc i k (Z.to_nat k + 1) 0 n (S t) m) as [-> Hrun]; rewrite ?Es; try done || lia.
  by rewrite <- Es.
Qed.

(** C33: A Python script on the ring: on a fresh segment a script may call the
    three classes in any order, with any arguments of their types; if the
    inserted timestamps do not decrease, every call answers what the list of
    the newest 64 inserted elements answers: the counts, the element at an
    index, the closest within the distance asked for, the bracketing pair, the
    newest if fresh. And on a slot whose writer died half-way, try_get loads
    the counter once more than max_retries allows retries, five times if the
    argument is left out, and then answers None. *)
Theorem python_session (calls : list py_call) rc t :
  Forall call_ok calls -> keys_ascend (inserted_by calls) -> Z.of_nat (length (inserted_by calls)) < 2 ^ 62 ->
  wp (quiet rc) (py_session calls) t (fresh 2056) (fun vs _ _ _ => py_answers [] calls vs) /\
  forall r k m n,
    Z.of_nat (length m) = 2056 -> 0 <= r < Z.min (ld64 m 0) 64 ->
    let s := 8 + 32 * ((ld64 m 0 - 1 - r) mod 64) in
    let times := match k with Some k => Z.to_nat k + 1 | None => 5 end%nat in
    Z.land (ld32 m s) 1 <> 0 -> 0 <= default 0 k < 2 ^ 32 - 1 -> (2 * times + 2 <= n)%nat ->
    trace n (quiet rc) (py_do (Reader_try_get r k)) t m =
      Does (ALoad64 acquire 0) :: replicate times (Does (ALoad32 acquire s)) /\
    exists t', run n (quiet rc) (py_do (Reader_try_get r k)) t m = Value PyNone t' m.
Proof.
  intros Hok Hk Hlen. split.
  - assert (Hgen : forall ds t m, ring_log (N:=64) ds m -> keys_ascend (ds ++ inserted_by calls) ->
      Z.of_nat (length (ds ++ inserted_by calls)) < 2 ^ 62 ->
      wp (quiet rc) (py_session calls) t m (fun vs _ _ _ => py_answers ds calls vs)).
    { clear t Hk Hlen. induction Hok as [|c calls Hc _ IH]; intros ds t m Hm Hk Hlen; cbn [py_session].
      { by apply wp_ret. }
      rewrite <- inserted_by_cons in Hk, Hlen. apply wp_bind.
      assert (Hds : keys_ascend ds /\ Z.of_nat (length ds) < 2 ^ 62).
      { rewrite length_app in Hlen. destruct c; cbn [py_next] in *;
          rewrite ?length_app, <- ?app_assoc in *; (split; [by eapply keys_ascend_prefix|lia]). }
      apply (wp_py_do rc ds m Hm (proj2 Hds) (proj1 Hds) c); [done|]. intros v t1 m1 l1 Hv Hm1.
      apply wp_bind. eapply wp_conseq; [by apply (IH (py_next ds c))|].
      intros vs t2 m2 l2 Hvs. by apply wp_ret. }
    apply (Hgen [] t); [rewrite <- segment_size; apply (ring_log_fresh (T:=StampedF64) (N:=64))|done|done].
  - intros r k m n Hm Hr s times Hodd Hret Hn. cbn [py_do].
    destruct (try_get_stopped rc r (default 4 k) n t m) as [Ht [t' Hrun]]; try done;
      [by destruct k; simpl in *; lia|destruct k; simpl in *; lia|].
    replace times with (Z.to_nat (default 4%Z k) + 1)%nat by by destruct k.
    destruct (run_map (quiet rc) (py_optional PyStamped) n (CBReader_try_get r k) t m) as [-> ->].
    change (CBReader_try_get r k) with (CyclicBufferReader.try_get StampedF64 64 r (default 4 k)).
    rewrite Ht, Hrun. split; [done|]. by exists t'.
Qed.

Module PySessionWitness.
Definition sample (k : Z) : StampedF64 := MkStamped (to_uint 8 k) (to_uint 8 0) (to_uint 8 k).

(** Two inserts with questions before, between and after. *)
Definition script : list py_call :=
  [Reader_get_latest; Reader_try_get 0 None; Writer_insert (sample 10); Series_find_interpolation_pair 10;
   Writer_insert (sample 20); Reader_get 1; Reader_try_get 1 (Some 0); Reader_try_get 2 None; Reader_available;
   Writer_total_writes; Series_find_closest 13 None; Series_find_closest 13 (Some 2); Series_get_latest_if_fresh 20;
   Series_get_latest_if_fresh 21].

Definition answers : list py_value :=
  [PyStamped zero_sample; PyNone; PyNone; PyNone; PyNone; PyStamped (sample 10); PyStamped (sample 10); PyNone; PyInt 2;
   PyInt 2; PyStamped (sample 10); PyNone; PyStamped (sample 20); PyNone].

Definition show (v : py_value) : list Z :=
  match v with
  | PyNone => []
  | PyInt n => [n]
  | PyStamped x => [uint_val (timestamp_ns x); uint_val (data x)]
  | PyPair p => [uint_val (timestamp_ns (before p)); uint_val (timestamp_ns (after p))]
  end.

Example script_answers :
  match run 2000 (quiet (fun _ => (0, 0))) (py_session script) 0 (fresh 2056) with
  | Value vs _ _ => show <$> vs = show <$> answers
  | _ => False
  end.
Proof. vm_compute. reflexivity. Qed.

(** A segment where 64 elements are in and the writer of the next died after
    making the counter of slot 0 odd: the oldest cannot be read. *)
Definition half_way : mem := st32 (st64 (fresh 2056) 0 64) 8 3.

Lemma python_session_witness :
  wp (quiet (fun _ => (0, 0))) (py_session script) 0 (fresh 2056) (fun vs _ _ _ => py_answers [] script vs) /\
  trace 100 (quiet (fun _ => (0, 0))) (py_do (Reader_try_get 63 None)) 0 half_way =
    Does (ALoad64 acquire 0) :: replicate 5 (Does (ALoad32 acquire 8)).
Proof.
  destruct (python_session script (fun _ => (0, 0)) 0) as [H1 H2]; [| |simpl; lia|].
  - repeat constructor; simpl; lia.
  - intros [|[|i]] [|[|j]] x y Hij Hx Hy; simpl in Hx, Hy; try done; try lia;
      injection Hx as <-; injection Hy as <-; vm_compute; discriminate.
  - split; [exact H1|].
    apply (H2 63 None half_way 100%nat); [reflexivity|vm_compute; split; congruence|vm_compute; discriminate|simpl; lia|lia].
Defined.
End PySessionWitness.
