(* ===== verification/BindingsLoader.v ===== *)
(** * The Python modules: snapshots, the double buffer, the life-cycle functions

    [nanobind_image_shm.cpp] from the class [Snapshot] on and the last lines
    of [nanobind_safe_shm.cpp].  The numpy array a snapshot answers is no
    copy: it stands for an address, read whenever Python reads it. *)
From Stdlib Require Import String HexString.
From stdpp Require Import relations.
From S2P Require Import Prelude Memory Prog Reads FlatType Stamped Image Lifecycle Pool RelyGuarantee ShmLock DoubleBuffer Loader Delivery Bindings.

(** [fmt]'s [{:p}] *)
Definition pointer (p : Z) : string := HexString.of_N (Z.to_N p).

(** ** image_shm_dblbuff: Snapshot *)
Module ImageSnapshot.
Section Snapshot.
Context (ptr : Z) (n : nat).   (* of [std::atomic<Image *> *], bytes of an image's data *)

(** [self->] *)
Definition arrow : prog Z :=
  p <- load64 acquire ptr ;;
  assert (negb (p =? 0)) ;;;
  Ret p.

Definition timestamp : prog uint64 := p <- arrow ;; bs <- memcpy_from p 8 ;; Ret (to_uint 8 (le_val bs)).
Definition frame_number : prog uint64 := p <- arrow ;; bs <- memcpy_from (p + 8) 8 ;; Ret (to_uint 8 (le_val bs)).
(** [nb::ndarray<...>(self->data.data())] *)
Definition get_data : prog Z := p <- arrow ;; Ret (p + 16).

Definition repr : prog string :=
  p <- load64 acquire ptr ;;
  t <- timestamp ;;
  f <- frame_number ;;
  Ret ("Snapshot(ptr=" ++ pointer p ++ ", timestamp=" ++ to_string (uint_val t) ++
       ", frame_number=" ++ to_string (uint_val f) ++ ")")%string.
End Snapshot.

(** Python reads an array. *)
Definition elements (view : Z) (n : nat) : prog (list Z) := memcpy_from view n.
End ImageSnapshot.

(** ** image_shm_dblbuff: DoubleBufferShm *)
Module ImageShm.
Section DoubleBuffer.
Context {n : nat} `{FlatType (Image n)} (L : layout).
Definition store (image : Image n) : prog unit := DoubleBufferShm.store (Image n) L image.
Definition load : prog Z := DoubleBufferShm.load L.
Definition wait : prog unit := DoubleBufferShm.wait L.
Definition repr : string :=
  ("DoubleBufferShm(shm=" ++ pointer (DoubleBufferShm.shm_addr L) ++
   ", pre_allocated=" ++ pointer (DoubleBufferShm.pre_allocated_addr L) ++ ")")%string.
End DoubleBuffer.
End ImageShm.

(** ** safe_shm_py: the life-cycle functions *)
Module SafeShmPyLifecycle.
Section Lifecycle.
Context `{Devices} (kill : Z -> Z).
Definition shm_exists (d : dev) (name : string) : bool := Lifecycle.shm_exists d name.
Definition shm_remove (d : dev) (name : string) : bool * dev := Lifecycle.shm_remove d name.
Definition shm_list (d : dev) (prefix : option string) : list string := Lifecycle.shm_list d (default ""%string prefix).
Definition is_writer_alive (now : timespec) (header : ShmHeader) (max_stale_ns : option Z) : bool :=
  Lifecycle.is_writer_alive kill now header (default 0 max_stale_ns).
End Lifecycle.
(** The attributes of [ShmHeader]. *)
Definition header_fields (h : ShmHeader) : Z * Z * Z * Z :=
  (uint_val (magic h), uint_val (version h), uint_val (heartbeat_ns h), int_val (writer_pid h)).
End SafeShmPyLifecycle.

(** ** What Python sees of an image at rest *)
Section Accessors.
Context {n : nat} (rc : nat -> Z * Z) (t0 : nat) (m : mem) (ptr p : Z) (im : Image n).
Context (Hptr : atomic_ok m ptr 8 = true /\ ld64 m ptr = p /\ p <> 0)
        (Him : in_bounds m p (16 + n) = true /\ rd m p (16 + n) = image_bytes im).
Abbreviation reads := (reads (quiet rc) t0 (eq m)).

Lemma reads_bytes off k bs :
  0 <= off -> off + Z.of_nat k <= Z.of_nat (16 + n) -> take k (drop (Z.to_nat off) (image_bytes im)) = bs ->
  reads (memcpy_from (p + off) k) (eq bs).
Proof using Him.
  clear Hptr. intros Ho Hk E t m' _ <-. destruct Him as [Hb Hr]. assert (0 <= p) by (unfold in_bounds in Hb; zbool; done).
  apply wp_memcpy_from; [auto with shm|lia|unfold in_bounds in *; zbool; lia|].
  intros l _. split; [lia|]. split; [done|]. rewrite <- E, <- Hr. unfold rd.
  rewrite skipn_firstn_comm, drop_drop, take_take. f_equal; [lia|]. f_equal. lia.
Qed.

Lemma reads_pointer : reads (load64 acquire ptr) (eq p).
Proof using Hptr. destruct Hptr as (Ha & E & _). intros t m' _ <-. apply wp_load64; [done|]. by auto. Qed.

Lemma reads_arrow : reads (ImageSnapshot.arrow ptr) (eq p).
Proof using Hptr.
  eapply reads_bind; [apply reads_pointer|]. intros q <-. rewrite (proj2 (Z.eqb_neq p 0)) by apply Hptr.
  eapply reads_bind with (R := fun _ => True); [by apply reads_ret|]. intros [] _. by apply reads_ret.
Qed.

(** The accessors answer the members, the array's elements are the data. *)
Theorem snapshot_accessors :
  reads (ImageSnapshot.timestamp ptr) (eq (Image.timestamp im)) /\
  reads (ImageSnapshot.frame_number ptr) (eq (Image.frame_number im)) /\
  reads (view <- ImageSnapshot.get_data ptr ;; ImageSnapshot.elements view n) (eq (array_bytes (data im))) /\
  reads (ImageSnapshot.repr ptr)
    (eq ("Snapshot(ptr=" ++ pointer p ++ ", timestamp=" ++ to_string (uint_val (Image.timestamp im)) ++
         ", frame_number=" ++ to_string (uint_val (Image.frame_number im)) ++ ")")%string).
Proof using Hptr Him.
  assert (Ht : reads (ImageSnapshot.timestamp ptr) (eq (Image.timestamp im))).
  { eapply reads_bind; [apply reads_arrow|]. intros q <-.
    eapply reads_bind; [rewrite <- (Z.add_0_r p); apply (reads_bytes 0 8 (le_bytes 8 (uint_val (Image.timestamp im)))); [done|lia|]|].
    - unfold image_bytes. change (Z.to_nat 0) with 0%nat. rewrite drop_0. by rewrite take_app_length' by by rewrite length_le_bytes.
    - intros bs <-. apply reads_ret. symmetry. apply to_uint_le_bytes. }
  assert (Hf : reads (ImageSnapshot.frame_number ptr) (eq (Image.frame_number im))).
  { eapply reads_bind; [apply reads_arrow|]. intros q <-.
    eapply reads_bind; [apply (reads_bytes 8 8 (le_bytes 8 (uint_val (Image.frame_number im)))); [done|lia|]|].
    - unfold image_bytes. change (Z.to_nat 8) with 8%nat. rewrite drop_app_length' by (by rewrite length_le_bytes).
      by rewrite take_app_length' by by rewrite length_le_bytes.
    - intros bs <-. apply reads_ret. symmetry. apply to_uint_le_bytes. }
  split; [exact Ht|]. split; [exact Hf|]. split.
  - eapply reads_bind; [eapply reads_bind; [apply reads_arrow|]; intros q <-; by apply (reads_ret _ _ _ _ (eq (p + 16)))|].
    intros v <-. apply reads_bytes; [done|lia|]. unfold image_bytes. change (Z.to_nat 16) with 16%nat.
    rewrite app_assoc, drop_app_length' by (by rewrite length_app, !length_le_bytes).
    by rewrite take_ge by by rewrite array_bytes_length.
  - eapply reads_bind; [apply reads_pointer|]. intros q <-. eapply reads_bind; [exact Ht|]. intros x <-.
    eapply reads_bind; [exact Hf|]. intros y <-. by apply reads_ret.
Qed.
End Accessors.

(** ** An array does not keep its image *)
Module ViewWitness.
#[local] Instance tiny : FlatType (Image 4) := image_flat 4 ltac:(lia).
Definition L : layout := Layout 0 8 32 56 64 72 80 84 88.
Definition image (t b : Z) : Image 4 := MkImage (to_uint 8 t) (to_uint 8 t) (to_array 4 (replicate 4 b)).

(** Store an image, take the array of its snapshot, store and load another:
    the array Python still holds has become the second image. *)
Definition script : prog unit :=
  DblBufLoader.init_body L ;;;
  ImageShm.store L (image 1 10) ;;;
  snapshot <- ImageShm.load L ;;
  ImageShm.wait L ;;;
  view <- ImageSnapshot.get_data snapshot ;;
  before <- ImageSnapshot.elements view 4 ;;
  assert (bool_decide (before = replicate 4 10)) ;;;
  ImageShm.store L (image 2 20) ;;;
  again <- ImageShm.load L ;;
  ImageShm.wait L ;;;
  after <- ImageSnapshot.elements view 4 ;;
  assert (bool_decide (after = replicate 4 20)) ;;;
  DblBufLoader.stop_runner L.

Definition m1 : mem :=
  match run 10 (quiet (fun _ => (0, 0))) (DblBufLoader.init_members L) 0 (fresh 96) with Value _ _ m => m | _ => [] end.
Definition start : pool := (m1, Running <$> [script; DblBufLoader.runner (Image 4) L]).
Definition sched : list nat := repeat 0%nat 34 ++ repeat 1%nat 62 ++ repeat 0%nat 37 ++ repeat 1%nat 59 ++ repeat 0%nat 9 ++ repeat 1%nat 5.

Lemma array_follows_the_buffer :
  exists stop, reachable start stop /\ finished stop 0 = true /\ finished stop 1 = true.
Proof.
  exists (run_to sched start). split; [apply run_to_reachable; vm_compute; reflexivity|].
  split; vm_compute; reflexivity.
Qed.
End ViewWitness.
