(* ===== verification/Bench.v ===== *)
(** * The benchmarks of the library

    [benchmark.cpp] and [benchmark_competitors.cpp] where they run the
    library: the payloads, the operation each benchmark repeats, and what it
    reads.  nanobench, which decides how often, only repeats.  Each block uses
    regions of its own; the loaders' blocks are two threads.  What the
    competitors do in the kernel is in [BenchKernel]. *)
From stdpp Require Import relations vector.
From S2P Require Import Prelude Memory Prog Equiv History Reads FlatType SeqCount Seqlock CyclicBuffer CyclicRing CyclicReaders CyclicConcurrent Stamped SanitizedKey Float TimeSeries TimeSeriesFacts TimeSeriesRing RingLog Image SharedMemory Pool RelyGuarantee StoreBuffer Session ShmLock DoubleBuffer Loader Delivery LoaderBuffers.

(** ** Payloads *)

(** [double values[8]] *)
Record SmallPayload : Set := MkSmall { values : vec uint64 8 }.
(** [uint8_t data[4096]], [uint8_t data[1024 * 1024]] *)
Definition MediumPayload : Set := byte_array (Z.to_nat 4096).
Definition LargePayload : Set := byte_array (Z.to_nat (1024 * 1024)).

Definition small_bytes (p : SmallPayload) : list Z := words_bytes 8 (map uint_val (values p)).
Definition small_of_bytes (bs : list Z) : SmallPayload := MkSmall (fun_to_vec (fun i : fin 8 => word_at 8 i bs)).

Lemma small_roundtrip p : small_of_bytes (small_bytes p) = p.
Proof.
  destruct p as [v]. unfold small_of_bytes, small_bytes. f_equal. apply vec_eq. intros i.
  rewrite lookup_fun_to_vec. apply word_at_bytes. cbn [values]. rewrite list_lookup_fmap.
  by rewrite (proj1 (vlookup_lookup v i _) eq_refl).
Qed.

#[export] Program Instance small_payload_flat : FlatType SmallPayload := {|
  sizeof := 64;
  align_log := 3;
  to_bytes := small_bytes;
  of_bytes := small_of_bytes;
  value_init := MkSmall (vreplicate 8 (to_uint 8 0))
|}.
Next Obligation. intros p. unfold small_bytes. by rewrite length_words_bytes, length_map, length_vec_to_list. Qed.
Next Obligation. apply small_roundtrip. Qed.
Next Obligation. lia. Qed.
Next Obligation. lia. Qed.
Next Obligation. lia. Qed.
Next Obligation. reflexivity. Qed.

Lemma bytes_ok_size (z : Z) : 0 < z < 2 ^ 40 -> TCEq ((0 <? Z.of_nat (Z.to_nat z)) && (Z.of_nat (Z.to_nat z) <? 2 ^ 40)) true.
Proof.
  intros Hz. rewrite Z2Nat.id by lia. by rewrite (proj2 (Z.ltb_lt 0 z)), (proj2 (Z.ltb_lt z _)) by lia.
Qed.

#[export] Instance medium_payload_flat : FlatType MediumPayload := array_flat _ (bytes_ok_size 4096 ltac:(lia)).
#[export] Instance large_payload_flat : FlatType LargePayload := array_flat _ (bytes_ok_size (1024 * 1024) ltac:(lia)).

(** [std::fill] of the values, [std::memset] of the data. *)
Definition small (x : spec_float) : SmallPayload := MkSmall (vreplicate 8 (f64_bits x)).
Definition filled (n : nat) (b : Z) : byte_array n := to_array n (replicate n b).
Definition medium (b : Z) : MediumPayload := filled _ b.
Definition large (b : Z) : LargePayload := filled _ b.

(** [b.run(name, op)]: so many times the operation; what it hands to
    [doNotOptimizeAway]. *)
Fixpoint times {A : Set} (n : nat) (op : prog A) : prog (list A) :=
  match n with O => Ret [] | S n => x <- op ;; xs <- times n op ;; Ret (x :: xs) end.

(** ** benchmark.cpp

    Each block's operations, [n] times, over the regions it creates. *)
Module Benchmark.
Section Operations.
Context {T : Set} `{FlatType T}.

(** [memcpy(dst, src, size)], then [dst[0]]: local memory and raw POSIX
    segments alike, at addresses of one memory. *)
Definition memcpy_op (dst src : Z) (size : nat) : prog Z :=
  bs <- memcpy_from src size ;; memcpy_to dst bs ;;; load_byte dst.

Definition shared_memory_op (src : T) : prog T := SharedMemory.set_get T src ;;; SharedMemory.get T.
Definition seqlock_op (src : T) : prog T := Seqlock.store src ;;; Seqlock.load.
End Operations.

(** The source filled, the destination as allocated or mapped. *)
Definition memcpy_run (n : nat) (bs : list Z) (dst src : Z) : prog (list Z) :=
  memcpy_to src bs ;;; times n (memcpy_op dst src (length bs)).

(** [sizeof(safe_shm::img::ImageFHD_RGB)], an image with both its numbers [t]. *)
Definition fhd_bytes : nat := Z.to_nat (1920 * 1080 * 3).
Definition fhd (t b : Z) : Image fhd_bytes := MkImage (to_uint 8 t) (to_uint 8 t) (filled _ b).
#[export] Instance fhd_flat : FlatType (Image fhd_bytes) := image_flat fhd_bytes ltac:(unfold fhd_bytes; rewrite Z2Nat.id; lia).

Definition sizes : list nat := [64%nat; Z.to_nat 4096; Z.to_nat (1024 * 1024); sizeof (Image fhd_bytes)].
Definition memcpy_block (n : nat) (dst src : Z) : list (prog (list Z)) :=
  (fun size => memcpy_run n (replicate size 0xAA) dst src) <$> sizes.
Definition raw_posix_block (n : nat) (shm src : Z) : list (prog (list Z)) :=
  (fun size => memcpy_run n (replicate size 0xBB) shm src) <$> sizes.

Definition shared_memory_block (n : nat) : prog (list SmallPayload) * prog (list MediumPayload) * prog (list LargePayload) :=
  (times n (shared_memory_op (small (f64_lit 314 100))), times n (shared_memory_op (medium 0xCC)), times n (shared_memory_op (large 0xDD))).

Definition seqlock_block (n : nat) : prog (list SmallPayload) * prog (list MediumPayload) * prog (list LargePayload) :=
  (times n (seqlock_op (small (f64_lit 3 1))), times n (seqlock_op (medium 0xEE)), times n (seqlock_op (large 0xFF))).

(** [doNotOptimizeAway(val.timestamp)] *)
Definition fhd_seqlock_op : prog uint64 := val <- seqlock_op (fhd 3 0xCC) ;; Ret (Image.timestamp val).
Definition fhd_raw (n : nat) (raw img : Z) : prog (list Z) := memcpy_run n (to_bytes (fhd 2 0xAA)) raw img.

(** [store], [load], [wait], [*snap] so many times, on two threads: the
    double buffer and, [storage] being another object on the same segment and
    its [store] the same program ([store_is_storage]), [Storage] with
    [DblBufLoader]. *)
Definition loader_run {T : Set} `{FlatType T} (n : nat) (L : layout) (d0 src : T) : list (prog unit) :=
  delivering L d0 (replicate n (Some src)).

Definition dblbuf_block (n : nat) (L1 L2 L3 : layout) : list (list (prog unit)) :=
  [loader_run n L1 value_init (small (f64_lit 1 1)); loader_run n L2 value_init (medium 0xAA); loader_run n L3 value_init (large 0xBB)].
Definition double_buffer_block (n : nat) (L1 L2 L3 : layout) : list (list (prog unit)) :=
  [loader_run n L1 value_init (small (f64_lit 2 1)); loader_run n L2 value_init (medium 0xCC); loader_run n L3 value_init (large 0xDD)].

(** What the forked child of iteration [iter] does before it exits. *)
Definition xproc_data (iter : Z) : SmallPayload :=
  MkSmall (vinsert 0%fin (f64_bits (f64_of_uint iter)) (values value_init)).
Definition xproc_child (L : layout) (iter : Z) : prog unit := Storage.store (at_lock L) (at_shm L) (xproc_data iter).
(** The parent, which constructs a loader for every iteration. *)
Definition xproc_parent (L : layout) (iter : Z) : list (prog unit) := delivering L (xproc_data iter) [None].
End Benchmark.

Import Benchmark.

(** ** benchmark_competitors.cpp *)
Module Competitors.
Definition cyclic_op {T : Set} `{FlatType T} (N : Z) (src : T) : prog T := CyclicBuffer.insert N src ;;; CyclicBuffer.get_latest N.

Definition cyclic_block (n : nat) : prog (list SmallPayload) * prog (list MediumPayload) * prog (list LargePayload) :=
  (times n (cyclic_op 64 (small (f64_lit 1 1))), times n (cyclic_op 16 (medium 0xAA)), times n (cyclic_op 4 (large 0xBB))).

Definition fhd_cyclic_op : prog uint64 := val <- cyclic_op 4 (fhd 1 0xFF) ;; Ret (Image.timestamp val).

Definition comparison_block (n : nat) : prog (list SmallPayload) * prog (list SmallPayload) :=
  (times n (seqlock_op (small (f64_lit 3 1))), times n (cyclic_op 64 (small (f64_lit 3 1)))).

(** The lookups of a time series, on a buffer filled before. *)
#[export] Instance stamped_small_flat : FlatType (Stamped SmallPayload) := stamped_flat SmallPayload (TCEq_refl _).

Definition sample (i : Z) : Stamped SmallPayload :=
  MkStamped (to_uint 8 (u64 (i * 1000))) (to_uint 8 i)
    (MkSmall (vinsert 0%fin (f64_bits (f64_of_uint i)) (values value_init))).

Definition prefill : prog unit :=
  Iter (fun i =>
    if i <? 64 then CyclicBuffer.insert 64 (sample i) ;;; Ret (inl (u64 (i + 1)))
    else Ret (inr tt)) 0.

Definition find_closest_op : prog (option (Stamped SmallPayload)) := TimeSeries.find_closest 64 32500 None.
Definition find_pair_op : prog (option (InterpPair (Stamped SmallPayload))) := TimeSeries.find_interpolation_pair 64 32500.
Definition fresh_op : prog (option (Stamped SmallPayload)) := TimeSeries.get_latest_if_fresh 64 60000.

Definition lookup_block (n : nat) :
    prog (list (option (Stamped SmallPayload)) * list (option (InterpPair (Stamped SmallPayload))) * list (option (Stamped SmallPayload))) :=
  prefill ;;;
  closest <- times n find_closest_op ;;
  pairs <- times n find_pair_op ;;
  latest <- times n fresh_op ;;
  Ret (closest, pairs, latest).

(** The memory copies of the comparison table. *)
Definition memcpy_block (n : nat) (dst src : Z) : list (prog (list Z)) :=
  (fun size => memcpy_run n (replicate size 0xAA) dst src) <$> take 3 sizes.
End Competitors.
Import Competitors.

(** ** What is read back *)
Section Times.
Context {A : Set} (rc : nat -> Z * Z).

(** An operation that keeps an invariant and always answers [x]. *)
Lemma wp_times (op : prog A) (x : A) (I : nat -> mem -> Prop) n :
  (forall k t m, (k < n)%nat -> I k m -> wp (quiet rc) op t m (fun a _ m' _ => a = x /\ I (S k) m')) ->
  forall t m, I 0%nat m -> wp (quiet rc) (times n op) t m (fun xs _ m' _ => xs = replicate n x /\ I n m').
Proof using Type.
  intros Hop. assert (Hk : forall j k t m, (k + j = n)%nat -> I k m ->
    wp (quiet rc) (times j op) t m (fun xs _ m' _ => xs = replicate j x /\ I n m')).
  { induction j as [|j IH]; intros k t m Hk Hm; cbn [times].
    - apply wp_ret. split; [done|]. by replace n with k by lia.
    - apply wp_bind. eapply wp_conseq; [apply (Hop k); [lia|done]|]. intros a t1 m1 l1 [-> Hm1].
      apply wp_bind. eapply wp_conseq; [apply (IH (S k)); [lia|done]|]. intros xs t2 m2 l2 [-> Hm2].
      by apply wp_ret. }
  intros t m Hm. by apply (Hk n 0%nat).
Qed.

Lemma wp_times_always (op : prog A) (x : A) (I : mem -> Prop) n :
  (forall t m, I m -> wp (quiet rc) op t m (fun a _ m' _ => a = x /\ I m')) ->
  forall t m, I m -> wp (quiet rc) (times n op) t m (fun xs _ m' _ => xs = replicate n x /\ I m').
Proof using Type. intros Hop t m Hm. by apply (wp_times op x (fun _ => I)); [auto|]. Qed.

(** Part of what is read. *)
Lemma wp_show {B : Set} (op : prog B) (f : B -> A) (x : B) (I : mem -> Prop) t m :
  wp (quiet rc) op t m (fun a _ m' _ => a = x /\ I m') ->
  wp (quiet rc) (val <- op ;; Ret (f val)) t m (fun a _ m' _ => a = f x /\ I m').
Proof using Type.
  intros Hop. apply wp_bind. eapply wp_conseq; [exact Hop|]. intros a t1 m1 l1 [-> Hm]. by apply wp_ret.
Qed.
End Times.

Section ReadsBack.
Context {T : Set} `{FlatType T} (rc : nat -> Z * Z) (n : nat).

Lemma memcpy_reads_back t m b bs dst src :
  in_bounds m src (length (b :: bs)) = true -> in_bounds m dst (length (b :: bs)) = true ->
  disjoint dst (length (b :: bs)) src (length (b :: bs)) ->
  wp (quiet rc) (memcpy_run n (b :: bs) dst src) t m (fun xs _ _ _ => xs = replicate n b).
Proof using Type.
  set (l := b :: bs). intros Hs Hd Hne. unfold memcpy_run. apply wp_bind, wp_memcpy_to; [done|]. intros t1 l1 _.
  set (ok := fun m' => length m' = length m /\ rd m' src (length l) = l).
  assert (Hok : ok (wr m src l)) by (split; [apply length_wr|by apply rd_wr_same']).
  eapply wp_conseq; [apply (wp_times_always rc _ b ok); [|exact Hok]|by intros xs ? ? ? [-> _]].
  intros t2 m2 [Hl Hm]. unfold memcpy_op.
  assert (Hb : forall off k, in_bounds m2 off k = in_bounds m off k) by (intros; by apply in_bounds_length).
  assert (0 <= src /\ 0 <= dst) as [Hs0 Hd0] by (unfold in_bounds in *; zbool; lia).
  apply wp_bind, wp_memcpy_from; [auto with shm|done|by rewrite Hb|]. intros l2 _. rewrite Hm.
  apply wp_bind, wp_memcpy_to; [by rewrite Hb|]. intros t3 l3 _.
  eapply wp_load_byte; cbn [quiet interfere]; [by rewrite in_bounds_wr, Hb; apply (in_bounds_split m dst 1 (length bs))|].
  assert (E : rd (wr m2 dst l) dst (length l) = l) by (apply rd_wr_same'; [done|by rewrite Hb]).
  unfold l in E at 2. cbn [length] in E. rewrite rd_cons in E; [|done|by rewrite in_bounds_wr, Hb].
  split; [by injection E|]. split; [by rewrite length_wr|]. rewrite rd_wr_disjoint; [done|done|done|]. by apply or_comm.
Qed.

Lemma shared_memory_reads_back t m (src : T) :
  Z.of_nat (length m) = SharedMemory.size T ->
  wp (quiet rc) (times n (shared_memory_op src)) t m (fun xs _ _ _ => xs = replicate n src).
Proof using Type.
  intros Hm. eapply wp_conseq; [apply (wp_times_always rc _ src (fun m => Z.of_nat (length m) = SharedMemory.size T)); [|done]
    |by intros xs ? ? ? [-> _]].
  intros t1 m1 Hm1. eapply wp_conseq; [by apply shared_memory_roundtrip|]. intros x t2 m2 l [-> ->]. split; [done|].
  by rewrite length_to_bytes.
Qed.

(** A seqlock with no write in progress. *)
Definition seqlock_rest (k : nat) (m0 : mem) (val : Z -> list Z) (m : mem) : Prop :=
  slot_at 0 (SeqlockRegion.data_offset T) (sizeof T) val (2 * Z.of_nat k + ld32 m0 0) m /\ region_ok (T:=T) m.

Lemma seqlock_op_keeps k t m0 m (src : T) val :
  ld32 m0 0 mod 2 = 0 -> (forall v, ld32 m0 0 / 2 < v -> val v = to_bytes src) -> seqlock_rest k m0 val m ->
  wp (quiet rc) (seqlock_op src) t m (fun a _ m' _ => a = src /\ seqlock_rest (S k) m0 val m').
Proof using Type.
  intros Hev Hval [Hat Hr]. set (v0 := ld32 m0 0) in *. set (v1 := 2 * Z.of_nat k + v0).
  assert (Hv1 : v1 mod 2 = 0 /\ v1 / 2 = Z.of_nat k + v0 / 2).
  { unfold v1. rewrite (Z.mul_comm 2), Z.add_comm, Z.mod_add, Z.div_add by lia. split; [done|lia]. }
  unfold seqlock_op. apply wp_bind. eapply equiv_wp; [symmetry; apply combined_store|].
  eapply (wp_store val _ _ _ v1); [done|exact Hat|apply Hv1|rewrite (proj2 Hv1); apply Hval; lia|].
  intros t2 m2 l2 _ [Hat2 Hr2]. eapply equiv_wp; [symmetry; apply combined_load|].
  assert (Hv2 : (v1 + 2) mod 2 = 0 /\ (v1 + 2) / 2 = v1 / 2 + 1).
  { replace (v1 + 2) with (v1 + 1 * 2) by lia. rewrite Z.mod_add, Z.div_add by lia. split; [apply Hv1|done]. }
  unfold SeqlockReader.load, SeqlockReader.seq, SeqlockReader.payload. apply wp_bind, wp_forever.
  apply wp_read_attempt with (val := val) (v := v1 + 2); [auto with shm|by apply region_slot_ok|exact Hat2|apply Hv2|].
  intros t' l' _. apply wp_ret. rewrite (proj2 Hv2), (proj2 Hv1), Hval by lia. split; [apply of_to_bytes|].
  split; [|done]. cbn [quiet interfere]. by replace (2 * Z.of_nat (S k) + ld32 m0 0) with (v1 + 2) by (unfold v1, v0; lia).
Qed.

Lemma seqlock_rest_start m (src : T) :
  region_ok (T:=T) m -> Forall byte_ok m ->
  seqlock_rest 0 m (fun v => if v =? ld32 m 0 / 2 then rd m (SeqlockRegion.data_offset T) (sizeof T) else to_bytes src) m.
Proof using Type.
  intros Hr Hb. split; [|done]. split; [symmetry; by apply u32_small, ld32_range|]. intros _. cbn [Z.of_nat Z.mul Z.add].
  by rewrite Z.eqb_refl.
Qed.

(** On any region of the size with an even counter. *)
Lemma seqlock_shows_back {A : Set} (op : prog A) (x : A) t m (src : T) :
  region_ok (T:=T) m -> Forall byte_ok m -> ld32 m 0 mod 2 = 0 ->
  (forall (I : mem -> Prop) t m,
     wp (quiet rc) (seqlock_op src) t m (fun a _ m' _ => a = src /\ I m') -> wp (quiet rc) op t m (fun a _ m' _ => a = x /\ I m')) ->
  wp (quiet rc) (times n op) t m (fun xs _ _ _ => xs = replicate n x).
Proof using Type.
  intros Hr Hb Hev Hop. pose proof (seqlock_rest_start m src Hr Hb) as H0. set (val := fun v => _) in H0.
  eapply wp_conseq; [apply (wp_times rc op x (fun k => seqlock_rest k m val)); [|exact H0]|by intros xs ? ? ? [-> _]].
  intros k t1 m1 _ Hk. apply Hop. eapply seqlock_op_keeps; [done| |exact Hk]. intros v Hv. unfold val. zcase; [lia|done].
Qed.

Context (N : Z) {HR : RingConfig T N}.

Lemma cyclic_op_keeps t m ds (src : T) :
  ring_log (N:=N) ds m -> Z.of_nat (S (length ds)) < 2 ^ 62 ->
  wp (quiet rc) (cyclic_op N src) t m (fun a _ m' _ => a = src /\ ring_log (N:=N) (ds ++ [src]) m').
Proof using HR.
  intros Hm Hlen. unfold cyclic_op. apply wp_bind. eapply equiv_wp; [symmetry; apply combined_insert|].
  eapply wp_log_insert; [exact Hm|]. intros t1 m1 l1 Hm1. eapply equiv_wp; [symmetry; apply combined_get_latest|].
  eapply wp_reads; [eapply (reads_get_latest_kept (ds ++ [src])); [exact Hm1|rewrite length_app; cbn; lia|]|done|].
  - pose proof (capacity_pos (T:=T) (N:=N)). apply kept_lookup. rewrite length_app. cbn. split; [lia|].
    rewrite lookup_app_r by lia. by replace (_ - _)%nat with 0%nat by lia.
  - by intros a t' l <-.
Qed.

Lemma cyclic_shows_back {A : Set} (op : prog A) (x : A) t (src : T) :
  Z.of_nat n < 2 ^ 62 ->
  (forall (I : mem -> Prop) t m,
     wp (quiet rc) (cyclic_op N src) t m (fun a _ m' _ => a = src /\ I m') -> wp (quiet rc) op t m (fun a _ m' _ => a = x /\ I m')) ->
  wp (quiet rc) (times n op) t (fresh (CyclicRegion.total_size T N)) (fun xs _ _ _ => xs = replicate n x).
Proof using HR.
  intros Hn Hop.
  eapply wp_conseq; [apply (wp_times rc op x (fun k => ring_log (N:=N) (replicate k src))); [|apply ring_log_fresh]|by intros xs ? ? ? [-> _]].
  intros k t1 m1 Hk Hm. apply Hop. rewrite replicate_S_end. apply cyclic_op_keeps; [done|]. rewrite length_replicate. lia.
Qed.
End ReadsBack.

(** The rings the benchmarks use. *)
Lemma ring_config {T : Set} `{FlatType T} (N : Z) :
  capacity_ok N = true -> N <= 2 ^ 20 -> Z.of_nat (sizeof T) < 2 ^ 40 -> Z.of_nat (sizeof T) mod 4 = 0 -> RingConfig T N.
Proof.
  intros Hc HN Hs Hm. split; [done| |apply slot_size_aligned; by right].
  pose proof (slots_offset_bounds T). pose proof (slot_size_eq T). pose proof (slot_data_offset_bounds T).
  apply capacity_ok_pow2 in Hc as (k & Hk & ->). assert (0 < 2 ^ k) by (apply Z.pow_pos_nonneg; lia). nia.
Qed.

#[export] Instance small_ring : RingConfig SmallPayload 64.
Proof. by apply ring_config. Qed.
#[export] Instance medium_ring : RingConfig MediumPayload 16.
Proof. apply ring_config; [done|done|..]; change (sizeof MediumPayload) with (Z.to_nat 4096); by rewrite Z2Nat.id. Qed.
#[export] Instance large_ring : RingConfig LargePayload 4.
Proof. apply ring_config; [done|done|..]; change (sizeof LargePayload) with (Z.to_nat (1024 * 1024)); by rewrite Z2Nat.id. Qed.
#[export] Instance fhd_ring : RingConfig (Image fhd_bytes) 4.
Proof.
  apply ring_config; [done|done|..]; change (sizeof (Image fhd_bytes)) with (16 + fhd_bytes)%nat; unfold fhd_bytes;
    by rewrite Nat2Z.inj_add, Z2Nat.id.
Qed.
#[export] Instance sample_ring : RingConfig (Stamped SmallPayload) 64.
Proof. by apply ring_config. Qed.

(** ** The blocks *)
Definition reads_back {A : Set} (rc : nat -> Z * Z) (n : nat) (p : prog (list A)) (m : mem) (x : A) : Prop :=
  forall t, wp (quiet rc) p t m (fun xs _ _ _ => xs = replicate n x).

Section Blocks.
Context (rc : nat -> Z * Z) (n : nat).
Abbreviation reads_back := (reads_back rc n).

(** Two places for an image each. *)
Definition rooms (m : mem) (dst src : Z) : Prop :=
  let size := sizeof (Image fhd_bytes) in
  in_bounds m src size = true /\ in_bounds m dst size = true /\ disjoint dst size src size.

Lemma rooms_run m dst src b bs :
  rooms m dst src -> (length (b :: bs) <= sizeof (Image fhd_bytes))%nat -> reads_back (memcpy_run n (b :: bs) dst src) m b.
Proof using Type.
  intros (Hs & Hd & Hne) Hlen t. apply memcpy_reads_back.
  - unfold in_bounds in *. zbool. lia.
  - unfold in_bounds in *. zbool. lia.
  - unfold disjoint in *. lia.
Qed.

(** An image begins with its timestamp. *)
Lemma fhd_head : exists bs, to_bytes (fhd 2 0xAA) = 2 :: bs.
Proof using Type.
  eexists. change (to_bytes (fhd 2 0xAA)) with ([2; 0; 0; 0; 0; 0; 0; 0] ++ le_bytes 8 2 ++ array_bytes (filled fhd_bytes 0xAA)).
  cbn [app]. reflexivity.
Qed.

Lemma run_sizes m dst src fill :
  rooms m dst src -> Forall (fun p => reads_back p m fill) ((fun size => memcpy_run n (replicate size fill) dst src) <$> sizes).
Proof using Type.
  intros Hm. assert (Hs : Forall (fun size => 0 < size <= sizeof (Image fhd_bytes))%nat sizes).
  { unfold sizes. change (sizeof (Image fhd_bytes)) with (16 + fhd_bytes)%nat. unfold fhd_bytes.
    repeat (apply List.Forall_cons; [lia|]). apply List.Forall_nil. }
  apply Forall_fmap. eapply List.Forall_impl; [|exact Hs]. intros [|k] Hk; [lia|]. apply rooms_run; [done|].
  cbn [length]. rewrite length_replicate. lia.
Qed.

Lemma shared_memory_fresh {T : Set} `{FlatType T} (src : T) :
  reads_back (times n (shared_memory_op src)) (fresh (SharedMemory.size T)) src.
Proof using Type. intros t. apply shared_memory_reads_back. rewrite length_fresh. unfold SharedMemory.size. lia. Qed.

Lemma seqlock_fresh {T A : Set} `{FlatType T} (op : prog A) (x : A) (src : T) :
  (forall (I : mem -> Prop) t m,
     wp (quiet rc) (seqlock_op src) t m (fun a _ m' _ => a = src /\ I m') -> wp (quiet rc) op t m (fun a _ m' _ => a = x /\ I m')) ->
  reads_back (times n op) (fresh (SeqlockRegion.total_size T)) x.
Proof using Type.
  intros Hop t. pose proof (total_size_eq (T:=T)). pose proof (data_offset_bounds (T:=T)).
  apply (seqlock_shows_back rc n op x t _ src); [| | |exact Hop].
  - unfold region_ok. rewrite length_fresh. lia.
  - by apply Forall_replicate.
  - unfold ld32. rewrite rd_fresh; [done|]. apply in_bounds_intro; [done|]. rewrite length_fresh. lia.
Qed.

Lemma seqlock_plain {T : Set} `{FlatType T} (src : T) :
  reads_back (times n (seqlock_op src)) (fresh (SeqlockRegion.total_size T)) src.
Proof using Type. by apply (seqlock_fresh (seqlock_op src) src src). Qed.

Lemma cyclic_plain {T : Set} `{FlatType T} {N : Z} {HR : RingConfig T N} (src : T) :
  Z.of_nat n < 2 ^ 62 -> reads_back (times n (cyclic_op N src)) (fresh (CyclicRegion.total_size T N)) src.
Proof using Type. intros Hn t. by apply (cyclic_shows_back rc n N (cyclic_op N src) src t src). Qed.

(** *** The lookups *)
Definition samples (k : nat) : list (Stamped SmallPayload) := (fun i => sample (Z.of_nat i)) <$> seq 0 k.

Lemma length_samples k : length (samples k) = k.
Proof using Type. unfold samples. by rewrite length_fmap, length_seq. Qed.

Lemma samples_lookup k i x : samples k !! i = Some x <-> (i < k)%nat /\ x = sample (Z.of_nat i).
Proof using Type.
  unfold samples. rewrite list_lookup_fmap_Some. split.
  - intros (j & -> & Hj). apply lookup_seq in Hj as [-> ?]. by split.
  - intros [Hi ->]. exists i. split; [done|]. by apply lookup_seq.
Qed.

Lemma sample_key i : 0 <= i < 64 -> extractor (sample i) = i * 1000.
Proof using Type.
  intros Hi. change (uint_val (to_uint 8 (u64 (i * 1000))) = i * 1000). rewrite uint_val_to_uint.
  change (8 * Z.of_nat 8) with 64. change (wrap 64) with u64. by rewrite !(u64_small (i * 1000)) by lia.
Qed.

Lemma samples_ascend k : (k <= 64)%nat -> keys_ascend (samples k).
Proof using Type.
  intros Hk i j x y Hij [Hi ->]%samples_lookup [Hj ->]%samples_lookup. rewrite (sample_key (Z.of_nat i)), (sample_key (Z.of_nat j)); lia.
Qed.

Lemma in_samples x : x ∈ TimeSeriesRing.kept 64 (samples 64) <-> exists i, 0 <= i < 64 /\ x = sample i.
Proof using Type.
  rewrite list_elem_of_lookup. split.
  - intros [r Hr]. apply kept_lookup in Hr as [_ Hx]. apply samples_lookup in Hx as [Hlt ->]. eexists. split; [|done]. lia.
  - intros (i & Hi & ->). exists (63 - Z.to_nat i)%nat. apply kept_lookup. rewrite length_samples. split; [lia|].
    apply samples_lookup. split; [lia|]. f_equal. lia.
Qed.

Lemma wp_prefill t Q :
  (forall t' m' l, ring_log (N:=64) (samples 64) m' -> Q tt t' m' l) ->
  wp (quiet rc) prefill t (fresh (CyclicRegion.total_size (Stamped SmallPayload) 64)) Q.
Proof using Type.
  intros HQ. unfold prefill. pose proof (ring_log_fresh (T:=Stamped SmallPayload) (N:=64)) as Hm.
  change (@nil (Stamped SmallPayload)) with (samples 0) in Hm. set (m := fresh _) in *. clearbody m. revert t m Q HQ Hm.
  assert (Hj : forall j k t m (Q : unit -> nat -> mem -> list mem -> Prop), (k + j = 64)%nat ->
    ring_log (N:=64) (samples k) m -> (forall t' m' l, ring_log (N:=64) (samples 64) m' -> Q tt t' m' l) ->
    wp (quiet rc) (Iter (fun i => if i <? 64 then CyclicBuffer.insert 64 (sample i) ;;; Ret (inl (u64 (i + 1))) else Ret (inr tt)) (Z.of_nat k)) t m Q).
  { induction j as [|j IH]; intros k t m Q Hk Hm HQ; apply wp_iter.
    - replace k with 64%nat in * by lia. apply wp_ret. by apply HQ.
    - rewrite (proj2 (Z.ltb_lt (Z.of_nat k) 64)) by lia. apply wp_bind. eapply equiv_wp; [symmetry; apply combined_insert|].
      eapply wp_log_insert; [exact Hm|]. intros t1 m1 l1 Hm1. apply wp_ret. rewrite (u64_small (Z.of_nat k + 1)) by lia.
      replace (Z.of_nat k + 1) with (Z.of_nat (S k)) by lia. apply IH; [lia| |auto].
      unfold samples. rewrite seq_S, fmap_app. exact Hm1. }
  intros t m Q HQ Hm. by apply (Hj 64%nat 0%nat).
Qed.

Definition bracketed (o : option (InterpPair (Stamped SmallPayload))) : Prop :=
  exists f, o = Some (MkPair (sample 32) (sample 33) f) /\ unit_interval f.

Lemma closest_sample o :
  closest (TimeSeriesRing.kept 64 (samples 64)) 32500 None o -> o = Some (sample 32) \/ o = Some (sample 33).
Proof using Type.
  assert (H32 : sample 32 ∈ TimeSeriesRing.kept 64 (samples 64)) by (apply in_samples; by exists 32).
  destruct o as [y|]; cbn [closest within].
  - intros ((i & Hi & ->)%in_samples & _ & Hmin). specialize (Hmin _ H32). unfold key_distance in Hmin.
    rewrite !sample_key in Hmin by lia. assert (i = 32 \/ i = 33) as [-> | ->] by lia; auto.
  - intros Hno. by destruct (Hno _ H32).
Qed.

Lemma bracketed_samples o : brackets (TimeSeriesRing.kept 64 (samples 64)) 32500 o -> bracketed o.
Proof using Type.
  assert (Hin : forall i, 0 <= i < 64 -> sample i ∈ TimeSeriesRing.kept 64 (samples 64)) by (intros i Hi; apply in_samples; eauto).
  destruct o as [[b a f]|]; cbn [brackets before after alpha].
  - intros ((i & Hi & ->)%in_samples & (j & Hj & ->)%in_samples & Ht & Hnone & Hu & _). rewrite !sample_key in Ht by lia.
    pose proof (Hnone _ (Hin 32 ltac:(lia))) as H32. pose proof (Hnone _ (Hin 33 ltac:(lia))) as H33.
    rewrite !sample_key in H32, H33 by lia. exists f. split; [|done]. by replace i with 32 by lia; replace j with 33 by lia.
  - intros [Hlen|[Hall|Hall]].
    + pose proof (length_kept 64 (samples 64) ltac:(done)) as Hl. rewrite length_samples in Hl. lia.
    + specialize (Hall _ (Hin 0 ltac:(lia))). rewrite sample_key in Hall by lia. lia.
    + specialize (Hall _ (Hin 63 ltac:(lia))). rewrite sample_key in Hall by lia. lia.
Qed.

Lemma reads_times {A : Set} e t0 (M : mem -> Prop) (op : prog A) (P : A -> Prop) k :
  reads e t0 M op P -> reads e t0 M (times k op) (fun xs => length xs = k /\ Forall P xs).
Proof using Type.
  intros Hop. induction k as [|k IH]; cbn [times]; [by apply reads_ret|].
  eapply reads_bind; [exact Hop|]. intros x Hx. eapply reads_bind; [exact IH|]. intros xs [Hl Hxs].
  apply reads_ret. split; [cbn; by rewrite Hl|by constructor].
Qed.

Definition looked_up (r : list (option (Stamped SmallPayload)) * list (option (InterpPair (Stamped SmallPayload))) *
                             list (option (Stamped SmallPayload))) : Prop :=
  let '(closest, pairs, latest) := r in
  (length closest = n /\ Forall (fun o => o = Some (sample 32) \/ o = Some (sample 33)) closest) /\
  (length pairs = n /\ Forall bracketed pairs) /\
  length latest = n /\ Forall (eq (Some (sample 63))) latest.

(** The lookup benchmarks: on the 64 samples inserted before, taken every
    1000 ns, however often they are repeated, find_closest(32500) answers one
    of the two samples at distance 500, find_interpolation_pair(32500) samples
    32 and 33 with a factor in [0, 1], and get_latest_if_fresh(60000) sample
    63. *)
Theorem lookups_benchmarked t :
  wp (quiet rc) (lookup_block n) t (fresh (CyclicRegion.total_size (Stamped SmallPayload) 64))
     (fun r _ _ _ => looked_up r).
Proof using Type.
  unfold lookup_block. apply wp_bind, wp_prefill. intros t1 m1 l1 Hm.
  assert (Hlen : Z.of_nat (length (samples 64)) < 2 ^ 62) by (rewrite length_samples; lia).
  pose proof (log_view (samples 64) m1 Hm Hlen rc t1) as Hv.
  assert (Hrest : forall t m', (t1 <= t)%nat -> m1 = m' -> m1 = interfere (quiet rc) t m') by by intros ? ? _ <-.
  pose proof (kept_descend 64 (samples 64) (samples_ascend 64 ltac:(lia))) as Hk.
  apply (wp_reads (quiet rc) t1 t1 m1 _ looked_up); [|lia|done].
  eapply reads_bind; [apply reads_times; eapply reads_conseq; [by apply (reads_find_closest (T:=Stamped SmallPayload) 64 _ _ _ Hrest _ Hv Hk)|apply closest_sample]|].
  intros c Hc.
  eapply reads_bind; [apply reads_times; eapply reads_conseq; [by apply (reads_find_interpolation_pair (T:=Stamped SmallPayload) 64 _ _ _ Hrest _ Hv Hk)|apply bracketed_samples]|].
  intros p Hp.
  eapply reads_bind; [apply reads_times, (reads_get_latest_if_fresh (T:=Stamped SmallPayload) 64 _ _ _ _ Hv)|].
  intros f [Hf Hall]. apply reads_ret. split; [exact Hc|]. split; [exact Hp|]. split; [exact Hf|].
  assert (H63 : TimeSeriesRing.kept 64 (samples 64) !! 0%nat = Some (sample 63)).
  { apply kept_lookup. rewrite length_samples. split; [lia|]. apply samples_lookup. split; [lia|done]. }
  destruct (TimeSeriesRing.kept 64 (samples 64)) as [|x l]; [done|]. injection H63 as ->. rewrite sample_key in Hall by lia. exact Hall.
Qed.

(** C37: Every benchmark of a copy or a container reads back what it wrote:
    however often the operation is repeated, memcpy between local buffers and
    into a raw segment shows the byte copied, and SharedMemory, Seqlock and
    CyclicBuffer of each payload return the value stored or inserted, on a new
    segment, without undefined behaviour. *)
Theorem benchmarks_read_back m dst src :
  rooms m dst src -> Z.of_nat n < 2 ^ 62 ->
  (Forall (fun p => reads_back p m 0xAA) (Benchmark.memcpy_block n dst src) /\
   Forall (fun p => reads_back p m 0xBB) (raw_posix_block n dst src) /\
   reads_back (fhd_raw n dst src) m 2 /\
   Forall (fun p => reads_back p m 0xAA) (Competitors.memcpy_block n dst src)) /\
  (let '(s, m, l) := shared_memory_block n in
   reads_back s (fresh (SharedMemory.size SmallPayload)) (small (f64_lit 314 100)) /\
   reads_back m (fresh (SharedMemory.size MediumPayload)) (medium 0xCC) /\
   reads_back l (fresh (SharedMemory.size LargePayload)) (large 0xDD)) /\
  (let '(s, m, l) := seqlock_block n in
   reads_back s (fresh (SeqlockRegion.total_size SmallPayload)) (small (f64_lit 3 1)) /\
   reads_back m (fresh (SeqlockRegion.total_size MediumPayload)) (medium 0xEE) /\
   reads_back l (fresh (SeqlockRegion.total_size LargePayload)) (large 0xFF) /\
   reads_back (times n fhd_seqlock_op) (fresh (SeqlockRegion.total_size (Image fhd_bytes))) (to_uint 8 3)) /\
  (let '(s, m, l) := cyclic_block n in
   reads_back s (fresh (CyclicRegion.total_size SmallPayload 64)) (small (f64_lit 1 1)) /\
   reads_back m (fresh (CyclicRegion.total_size MediumPayload 16)) (medium 0xAA) /\
   reads_back l (fresh (CyclicRegion.total_size LargePayload 4)) (large 0xBB) /\
   reads_back (times n fhd_cyclic_op) (fresh (CyclicRegion.total_size (Image fhd_bytes) 4)) (to_uint 8 1)) /\
  (let '(s, c) := comparison_block n in
   reads_back s (fresh (SeqlockRegion.total_size SmallPayload)) (small (f64_lit 3 1)) /\
   reads_back c (fresh (CyclicRegion.total_size SmallPayload 64)) (small (f64_lit 3 1))).
Proof using Type.
  intros Hm Hn. unfold shared_memory_block, seqlock_block, cyclic_block, comparison_block. cbv beta iota.
  repeat split_and.
  - by apply run_sizes.
  - by apply run_sizes.
  - destruct fhd_head as [bs E]. unfold fhd_raw. rewrite E. apply rooms_run; [done|].
    by rewrite <- E, length_to_bytes.
  - unfold memcpy_block. rewrite fmap_take. by apply Forall_take, run_sizes.
  - by intros t; apply shared_memory_fresh.
  - by intros t; apply shared_memory_fresh.
  - by intros t; apply shared_memory_fresh.
  - apply seqlock_plain.
  - apply seqlock_plain.
  - apply seqlock_plain.
  - apply (seqlock_fresh fhd_seqlock_op (to_uint 8 3) (fhd 3 0xCC)). intros I t m0. apply (wp_show rc _ Image.timestamp (fhd 3 0xCC)).
  - by apply cyclic_plain.
  - by apply cyclic_plain.
  - by apply cyclic_plain.
  - intros t. apply (cyclic_shows_back rc n 4 fhd_cyclic_op (to_uint 8 1) t (fhd 1 0xFF) Hn). intros I t1 m0.
    apply (wp_show rc _ Image.timestamp (fhd 1 0xFF)).
  - apply seqlock_plain.
  - by apply cyclic_plain.
Qed.
End Blocks.

(** ** Between processes *)
Section CrossProcess.
Context (L : layout) (rc : nat -> Z * Z).

(** A store on its own. *)
Lemma wp_storage_store {T : Set} `{FlatType T} t m (d0 d : T) :
  found L m d0 -> wp (quiet rc) (Storage.store (at_lock L) (at_shm L) d) t m (fun _ _ m' _ => found L m' d).
Proof using Type.
  intros [Hm Hl Hv]. assert (Ha : forall m', laid_out (T:=T) L m' -> atomic_ok m' (at_lock L) 4 = true)
    by (intros m' Hm'; by apply (lo_atomic (T:=T) L m' CLock)).
  assert (Hne : disjoint (at_lock L) 4 (at_shm L) (sizeof T)) by by apply (lo_apart (T:=T) L m Hm CLock CRegion).
  pose proof (lo_nonneg (T:=T) L m CLock Hm). pose proof (lo_nonneg (T:=T) L m CRegion Hm). cbn [addr] in *.
  unfold Storage.store, ShmLock.lock. apply wp_bind, wp_bind.
  eapply wp_act; [cbn [act_step quiet interfere]; rewrite Ha by done; unfold guard_opt; reflexivity|].
  rewrite Hl. apply wp_ret.
  assert (Hm1 : laid_out (T:=T) L (st32 m (at_lock L) 1)) by by apply laid_out_wr.
  apply wp_bind, wp_memcpy_to; [rewrite length_to_bytes; by apply (lo_in (T:=T) L _ Hm1 CRegion)|]. intros t2 l2 _.
  set (m2 := wr _ (at_shm L) (to_bytes d)). assert (Hm2 : laid_out (T:=T) L m2) by by apply laid_out_wr.
  unfold ShmLock.unlock, ShmLock.futex_wake. apply wp_bind, wp_store32; [by apply Ha|]. cbn [quiet interfere].
  assert (Hm3 : laid_out (T:=T) L (st32 m2 (at_lock L) 0)) by by apply laid_out_wr.
  apply wp_futex_wake; [by apply Ha|]. cbn [quiet interfere]. split; [done| |].
  - rewrite ld32_st32_same; [done|]. by apply (lo_in (T:=T) L m2 Hm2 CLock).
  - unfold st32. rewrite rd_wr_disjoint; [|done|done|rewrite length_le_bytes; by apply or_comm].
    apply rd_wr_same'; [by rewrite length_to_bytes|]. by apply (lo_in (T:=T) L _ Hm1 CRegion).
Qed.

Lemma wp_init_members {T : Set} `{FlatType T} t m (d : T) :
  found L m d ->
  wp (quiet rc) (DblBufLoader.init_members L) t m (fun _ _ m' _ => found L m' d /\ flags L (Mine : hand T) m' /\ word (T:=T) L m' CSwp = 0).
Proof using Type.
  intros Hm. assert (Hr : wp (quiet rc) (DblBufLoader.init_members L) t m (fun _ _ _ _ => True)).
  { pose proof (fun c => lo_atomic (T:=T) L m c (found_out _ _ _ Hm)) as Ha. unfold DblBufLoader.init_members.
    do 3 (apply wp_bind, wp_store64; [|]; cbn [quiet interfere]; [unfold st64; rewrite ?atomic_ok_wr;
      first [by apply (Ha CSwp)|by apply (Ha CPub)|by apply (Ha CStage)]|]).
    do 2 (apply wp_bind, wp_store32; [|]; cbn [quiet interfere]; [unfold st64, st32; rewrite ?atomic_ok_wr;
      first [by apply (Ha CTrig)|by apply (Ha CIdle)]|]).
    apply wp_store32; [|done]. cbn [quiet interfere]. unfold st64, st32. rewrite !atomic_ok_wr. by apply (Ha CStop). }
  destruct Hr as ([] & t' & m' & Hr & _). exists tt, t', m'. split; [done|]. by apply (constructed L (fun _ : T => true) rc t m t' m' d).
Qed.

(** Both loader blocks, each run on a new segment. *)
Lemma loader_run_delivers {T : Set} `{FlatType T} n t m (d0 src : T) :
  found L m d0 ->
  wp (quiet rc) (DblBufLoader.init_members L) t m (fun _ _ m2 _ => forall mx ts,
    sb_reachable first_only (m2, StoreBuffer.idle <$> loader_run n L d0 src) (mx, ts) -> sb_unstuck (mx, ts)).
Proof using Type.
  intros Hm. eapply wp_conseq; [by apply (wp_init_members t m d0)|]. cbn beta. intros [] t2 m2 l2 (Hm2 & Hf & Hw) mx ts Hre.
  by apply (delivering_unstuck L (replicate n (Some src)) m2 d0).
Qed.

(** C38: The cross-process benchmark, each iteration: on any segment whose
    lock is free the child's store terminates, and then, on a machine with
    store buffers emptied in order, whatever the interleaving of the parent
    and its runner and whatever sleepers the kernel wakes, the parent's fresh
    loader delivers what the child wrote and never gets stuck. *)
Theorem cross_process_delivers iter t m (d0 : SmallPayload) :
  found L m d0 ->
  wp (quiet rc) (xproc_child L iter) t m (fun _ t1 m1 _ =>
    found L m1 (xproc_data iter) /\
    wp (quiet rc) (DblBufLoader.init_members L) t1 m1 (fun _ _ m2 _ =>
      found L m2 (xproc_data iter) /\
      forall mx ts, sb_reachable first_only (m2, StoreBuffer.idle <$> xproc_parent L iter) (mx, ts) -> sb_unstuck (mx, ts))).
Proof using Type.
  intros Hm. eapply wp_conseq; [by apply (wp_storage_store t m d0)|]. intros [] t1 m1 l1 Hm1. split; [done|].
  eapply wp_conseq; [by apply (wp_init_members t1 m1 (xproc_data iter))|]. cbn beta. intros [] t2 m2 l2 (Hm2 & Hf & Hw).
  split; [done|]. intros mx ts Hre. by apply (delivering_unstuck L [None] m2 (xproc_data iter)).
Qed.
End CrossProcess.

Module BenchWitness.
Definition size : Z := 16 + 1920 * 1080 * 3.

(** Buffers back to back, three repetitions. *)
Lemma rooms_back_to_back : rooms (fresh (2 * size)) 0 size.
Proof.
  assert (Hs : Z.of_nat (sizeof (Image fhd_bytes)) = size).
  { change (sizeof (Image fhd_bytes)) with (16 + fhd_bytes)%nat. unfold fhd_bytes, size. by rewrite Nat2Z.inj_add, Z2Nat.id. }
  split; [|split]; [apply in_bounds_intro..|]; try (rewrite length_fresh, Hs; unfold size; lia); try (unfold size; lia).
  left. rewrite Hs. unfold size. lia.
Qed.

Lemma benchmarks_read_back_witness :
  reads_back (fun _ => (0, 0)) 3 (times 3 (cyclic_op 64 (small (f64_lit 3 1)))) (fresh (CyclicRegion.total_size SmallPayload 64))
    (small (f64_lit 3 1)).
Proof.
  destruct (benchmarks_read_back (fun _ => (0, 0)) 3 (fresh (2 * size)) 0 size rooms_back_to_back) as (_ & _ & _ & _ & _ & Hc).
  - lia.
  - exact Hc.
Defined.

(** A segment of zeroes. *)
Definition L : layout := Layout 0 64 128 192 200 208 216 220 224.

Lemma found_zeroes : found L (fresh 256) (value_init : SmallPayload).
Proof.
  split; [split|reflexivity|vm_compute; reflexivity].
  - intros []; reflexivity.
  - intros []; try done; reflexivity.
  - intros [] [] Hne; try (by destruct Hne); unfold disjoint; simpl; lia.
  - split; [simpl; lia|reflexivity].
  - split; [simpl; lia|reflexivity].
Qed.

Lemma cross_process_delivers_witness :
  wp (quiet (fun _ => (0, 0))) (xproc_child L 7) 0 (fresh 256) (fun _ t1 m1 _ =>
    found L m1 (xproc_data 7) /\
    wp (quiet (fun _ => (0, 0))) (DblBufLoader.init_members L) t1 m1 (fun _ _ m2 _ =>
      found L m2 (xproc_data 7) /\
      forall mx ts, sb_reachable first_only (m2, StoreBuffer.idle <$> xproc_parent L 7) (mx, ts) -> sb_unstuck (mx, ts))).
Proof. apply (cross_process_delivers L (fun _ => (0, 0)) 7 0 (fresh 256) value_init found_zeroes). Defined.

(** What the seventh iteration writes: 7.0 and seven zeroes. *)
Example seventh_written : uint_val <$> vec_to_list (values (xproc_data 7)) = [0x401C000000000000; 0; 0; 0; 0; 0; 0; 0].
Proof. vm_compute. reflexivity. Qed.
End BenchWitness.
