(* ===== verification/BenchKernel.v ===== *)
(** * What the benchmarks compare with: channels of the kernel

    [benchmark.cpp] and [benchmark_competitors.cpp] where they go through the
    kernel: the raw POSIX segment as an object that owns a descriptor, a
    mapping and a name, and the pipe, message-queue and socket operations.
    The system calls answer what the environment says; what the manual pages
    promise of the answers are the laws of the classes below. *)
From Stdlib Require Import String.
From stdpp Require Import gmap sets strings list.
From S2P Require Import Prelude.

(** ** The raw segment *)

(** The open descriptors, the mappings with their lengths, the names. *)
Record world := World { fds : gset Z; maps : gset (Z * Z); names : gset string }.

Definition MAP_FAILED : Z := -1.

(** [shm_open] answers an unused descriptor or a negative number, [mmap] a new
    address or [MAP_FAILED]. *)
Class PosixShm := {
  shm_open : string -> world -> Z;
  ftruncate : Z -> Z -> world -> Z;
  mmap : Z -> Z -> world -> Z;
  shm_open_unused name w : 0 <= shm_open name w -> shm_open name w ∉ fds w;
  mmap_new size fd w : mmap size fd w <> MAP_FAILED -> mmap size fd w <> 0 /\ forall len, (mmap size fd w, len) ∉ maps w
}.

Module RawPosixShm.
Record t := Obj { name_ : string; size_ : Z; fd_ : Z; ptr_ : Z }.

Section Raw.
Context `{PosixShm}.

(** [inl] is the exception thrown, with what the world is then: no object
    exists and no destructor runs. *)
Definition create (name : string) (size : Z) (w : world) : (string + t) * world :=
  let fd := shm_open name w in
  if fd <? 0 then (inl "shm_open failed"%string, w) else
  let w := World ({[fd]} ∪ fds w) (maps w) ({[name]} ∪ names w) in
  if ftruncate fd size w <? 0 then (inl "ftruncate failed"%string, w) else
  let ptr := mmap size fd w in
  if ptr =? MAP_FAILED then (inl "mmap failed"%string, w)
  else (inr (Obj name size fd ptr), World (fds w) ({[(ptr, size)]} ∪ maps w) (names w)).

Definition get (o : t) : Z := ptr_ o.

(** [munmap] of the whole mapping; of another length it would leave some of it
    mapped. *)
Definition munmap (ptr len : Z) (w : world) : world := World (fds w) (maps w ∖ {[(ptr, len)]}) (names w).

Definition destroy (o : t) (w : world) : world :=
  let w := if negb (ptr_ o =? 0) && negb (ptr_ o =? MAP_FAILED) then munmap (ptr_ o) (size_ o) w else w in
  let w := if fd_ o >=? 0 then World (fds w ∖ {[fd_ o]}) (maps w) (names w) else w in
  World (fds w) (maps w) (names w ∖ {[name_ o]}).

(** What an exception of the constructor leaves behind. *)
Definition leaked (name : string) (w w' : world) : Prop :=
  exists fd, fd ∉ fds w /\ w' = World ({[fd]} ∪ fds w) (maps w) ({[name]} ∪ names w).

(** C39: A raw segment gives back what it takes, if its constructor returns:
    then the destructor closes the descriptor, unmaps the memory over its
    whole length and unlinks the name, and touches nothing else. If the
    constructor throws because shm_open failed nothing has happened; if it
    throws later, no destructor runs and the descriptor and the name are left
    behind. *)
Theorem raw_segment_releases name size w :
  match create name size w with
  | (inr o, w1) =>
      (get o, size) ∈ maps w1 /\ (forall len, (get o, len) ∉ maps w) /\ fd_ o ∈ fds w1 /\ fd_ o ∉ fds w /\
      destroy o w1 = World (fds w) (maps w) (names w ∖ {[name]})
  | (inl what, w1) =>
      what = "shm_open failed"%string /\ w1 = w \/
      (what = "ftruncate failed"%string \/ what = "mmap failed"%string) /\ leaked name w w1
  end.
Proof using Type.
  unfold create. destruct (shm_open name w <? 0) eqn:E; [by left|]. zbool.
  pose proof (shm_open_unused name w E) as Hfd. set (fd := shm_open name w) in *. cbn [fds maps names].
  set (w1 := World _ _ _). destruct (ftruncate fd size w1 <? 0); [right; split; [by left|by exists fd]|].
  destruct (mmap size fd w1 =? MAP_FAILED) eqn:Em; [right; split; [by right|by exists fd]|]. zbool.
  destruct (mmap_new size fd w1 Em) as [Hz Hm]. unfold get, destroy, munmap. cbn [name_ size_ fd_ ptr_ fds maps names].
  split; [set_solver|]. split; [exact Hm|]. split; [set_solver|]. split; [exact Hfd|].
  rewrite (proj2 (Z.eqb_neq _ _) Hz), (proj2 (Z.eqb_neq _ _) Em). cbn [negb andb fds maps names].
  rewrite (proj2 (Z.geb_le fd 0)) by lia. cbn [fds maps names]. specialize (Hm size). f_equal; apply leibniz_equiv; set_solver.
Qed.
End Raw.
End RawPosixShm.

(** ** Operations that may block

    [None] is an operation that never returns: the benchmarks are single
    threaded, so nobody else reads or writes their channels. *)
Fixpoint repeat_op {S A : Type} (n : nat) (op : S -> option (A * S)) (s : S) : option (list A * S) :=
  match n with
  | O => Some ([], s)
  | S n =>
      match op s with
      | Some (a, s) => match repeat_op n op s with Some (l, s) => Some (a :: l, s) | None => None end
      | None => None
      end
  end.



(** ** Streams of bytes

    What the manual pages say of [write]/[send] and [read]/[recv] on a
    blocking byte stream whose other end is open: a write takes a beginning
    of the buffer or fails; a read answers how many bytes it has put into the
    buffer, the oldest of the stream, or fails, and blocks only on an empty
    stream. *)
Class ByteStream := {
  chan : Type;
  queued : chan -> list Z;                               (* written, not yet read, in order *)
  transmit : list Z -> chan -> option (Z * chan);
  receive : nat -> chan -> option (Z * list Z * chan);   (* besides, the bytes put into the buffer *)
  transmit_takes bs c w c' :
    transmit bs c = Some (w, c') -> w <= Z.of_nat (length bs) /\ queued c' = queued c ++ take (Z.to_nat w) bs;
  receive_gives n c r bs c' :
    receive n c = Some (r, bs, c') -> length bs = Z.to_nat r /\ (length bs <= n)%nat /\ queued c = bs ++ queued c';
  receive_waits n c : (0 < n)%nat -> receive n c = None -> queued c = []
}.

(** [pipe(7)]: a write to a pipe returns when all is written, unless a signal
    handler interrupts it (the benchmarks install none); into an empty pipe
    nobody else reads it returns if that is no more than the capacity, and
    otherwise blocks for ever. *)
Class Pipe := {
  pipe_stream :: ByteStream;
  pipe : option chan;                     (* what [pipe(fds)] makes *)
  capacity : chan -> Z;
  set_pipe_size : Z -> chan -> chan;      (* [fcntl(F_SETPIPE_SZ)], whose result is not looked at *)
  pipe_empty c : pipe = Some c -> queued c = [];
  set_pipe_size_queued z c : queued (set_pipe_size z c) = queued c;
  pipe_writes_all bs c w c' : transmit bs c = Some (w, c') -> w = Z.of_nat (length bs);
  pipe_full bs c : queued c = [] -> transmit bs c = None <-> capacity c < Z.of_nat (length bs);
  transmit_capacity bs c w c' : transmit bs c = Some (w, c') -> capacity c' = capacity c;
  receive_capacity n c r bs c' : receive n c = Some (r, bs, c') -> capacity c' = capacity c
}.

Section Pipe.
Context `{Pipe}.
Abbreviation state := (chan * list Z)%type.   (* the pipe, and the buffer [recv] *)


(** Answers [w] and [r], and what is in [recv] then. *)
Definition pipe_op (buf : list Z) (s : state) : option ((Z * Z * list Z) * state) :=
  match transmit buf s.1 with
  | Some (w, c) =>
      match receive (length buf) c with
      | Some (r, bs, c) => let recv := list_inserts 0 bs s.2 in Some ((w, r, recv), (c, recv))
      | None => None
      end
  | None => None
  end.

Definition run_pipe (n size : nat) (fds : chan) : option (list (Z * Z * list Z) * state) :=
  let buf := replicate size 0xEE in
  let recv := replicate size 0 in
  repeat_op n (pipe_op buf) (set_pipe_size (i32 (Z.max (Z.of_nat size) 65536)) fds, recv).

(** [pipe(fds)] may fail: benchmark.cpp throws, benchmark_competitors.cpp skips. *)
Definition pipe_or_throw (n size : nat) : string + option (list (Z * Z * list Z) * state) :=
  match pipe with Some fds => inr (run_pipe n size fds) | None => inl "pipe failed"%string end.
Definition pipe_or_skip (n size : nat) : option (option (list (Z * Z * list Z) * state)) :=
  match pipe with Some fds => Some (run_pipe n size fds) | None => None end.






End Pipe.

(** ** The message queue

    [mq_overview(7)]: [mq_open] with these attributes, the old queue being
    unlinked, makes an empty queue; [mq_send] of priority 0 appends a message
    that is no longer than [mq_msgsize] or blocks while the queue is full;
    [mq_receive] with a buffer of at least [mq_msgsize] takes the oldest one or
    blocks on an empty queue.  Calls that fail change nothing. *)
Class MessageQueue := {
  mqueue : Type;
  mq_open : nat -> nat -> option mqueue;
  mq_messages : mqueue -> list (list Z);
  mq_maxmsg : mqueue -> nat;
  mq_msgsize : mqueue -> nat;
  mq_send : list Z -> mqueue -> option (Z * mqueue);
  mq_receive : nat -> mqueue -> option (Z * list Z * mqueue);
  mq_open_new mx sz q : mq_open mx sz = Some q -> mq_messages q = [] /\ mq_maxmsg q = mx /\ mq_msgsize q = sz;
  mq_send_appends bs q r q' :
    mq_send bs q = Some (r, q') ->
    mq_messages q' = (if r =? 0 then mq_messages q ++ [bs] else mq_messages q) /\
    mq_maxmsg q' = mq_maxmsg q /\ mq_msgsize q' = mq_msgsize q;
  mq_send_fits bs q r q' : (length bs <= mq_msgsize q)%nat -> mq_send bs q = Some (r, q') -> r = 0;
  mq_send_waits bs q : mq_send bs q = None -> (mq_maxmsg q <= length (mq_messages q))%nat;
  mq_receive_takes n q r bs q' :
    mq_receive n q = Some (r, bs, q') ->
    (if r <? 0 then bs = [] /\ mq_messages q' = mq_messages q
     else r = Z.of_nat (length bs) /\ mq_messages q = bs :: mq_messages q') /\
    mq_maxmsg q' = mq_maxmsg q /\ mq_msgsize q' = mq_msgsize q;
  mq_receive_fits n q r bs q' : (mq_msgsize q <= n)%nat -> mq_receive n q = Some (r, bs, q') -> 0 <= r;
  mq_receive_waits n q : (mq_msgsize q <= n)%nat -> mq_receive n q = None -> mq_messages q = []
}.

Section MessageQueue.
Context `{MessageQueue}.
Abbreviation state := (mqueue * list Z)%type.   (* the queue, and the buffer [dst] *)




End MessageQueue.

(** ** The socket pair *)
Class SocketPair := {
  socket_stream :: ByteStream;
  socketpair : option chan;               (* from [fds[0]] to [fds[1]] *)
  set_sndbuf : Z -> chan -> chan;         (* [setsockopt], whose results are not looked at *)
  set_rcvbuf : Z -> chan -> chan;
  socketpair_empty c : socketpair = Some c -> queued c = [];
  set_sndbuf_queued z c : queued (set_sndbuf z c) = queued c;
  set_rcvbuf_queued z c : queued (set_rcvbuf z c) = queued c
}.

Section Socket.
Context `{SocketPair}.
Abbreviation state := (chan * list Z)%type.   (* the stream, and the buffer [dst] *)

Inductive looped : Type :=
| Left (total : nat) (s : state)       (* the loop ended *)
| Blocked
| OutOfFuel.

(** [while (total < size) { r = recv(...); if (r <= 0) break; total += r; }] *)
Fixpoint recv_loop (fuel size total : nat) (s : state) : looped :=
  match fuel with
  | O => OutOfFuel
  | S fuel =>
      if (total <? size)%nat then
        match receive (size - total) s.1 with
        | None => Blocked
        | Some (r, bs, c) =>
            let s := (c, list_inserts total bs s.2) in
            if r <=? 0 then Left total s else recv_loop fuel size (total + Z.to_nat r) s
        end
      else Left total s
  end.

(** Answers [w] and what is in [dst]. *)
Definition uds_op (src : list Z) (s : state) : option ((Z * list Z) * state) :=
  match transmit src s.1 with
  | None => None
  | Some (w, c) =>
      match recv_loop (S (length src)) (length src) 0 (c, s.2) with
      | Left _ s => Some ((w, s.2), s)
      | _ => None
      end
  end.

Definition run_uds (n size : nat) (fds : chan) : option (list (Z * list Z) * state) :=
  let buf_size := i32 (Z.max (Z.of_nat size * 2) 65536) in
  repeat_op n (uds_op (replicate size 0xBB)) (set_rcvbuf buf_size (set_sndbuf buf_size fds), replicate size 0).

(** [socketpair] may fail. *)
Definition uds_or_skip (n size : nat) : option (option (list (Z * list Z) * state)) :=
  match socketpair with Some fds => Some (run_uds n size fds) | None => None end.




End Socket.


(** ** Kernels *)
Module KernelWitness.
(** The lowest number above all in use. *)
Definition above (z : Z) (s : gset Z) : Z := foldr Z.max z (elements s) + 1.

Lemma max_of z l x : z <= foldr Z.max z l /\ (In x l -> x <= foldr Z.max z l).
Proof. induction l as [|y l [IH1 IH2]]; cbn [foldr In]; [by split|]. split; [lia|]. intros [->|Hx]; [lia|]. specialize (IH2 Hx). lia. Qed.

Lemma above_new z s : above z s ∉ s /\ z < above z s.
Proof.
  unfold above. split; [|pose proof (proj1 (max_of z (elements s) 0)); lia].
  intros Hin. rewrite <- elem_of_elements, list_elem_of_In in Hin. apply (max_of z) in Hin. lia.
Qed.

(** A system where [mmap] fails for more than 100 bytes. *)
#[local] Program Instance kernel : PosixShm := {|
  shm_open := fun _ w => above 2 (fds w);
  ftruncate := fun _ _ _ => 0;
  mmap := fun size _ w => if size <=? 100 then above 4096 (set_map fst (maps w)) else MAP_FAILED
|}.
Next Obligation. intros name w _. apply above_new. Qed.
Next Obligation.
  intros size fd w. cbn. destruct (size <=? 100); [|done]. intros _.
  pose proof (above_new 4096 (set_map fst (maps w))) as [Hn Hz]. split; [lia|].
  intros len Hin. apply Hn, elem_of_map. by exists (above 4096 (set_map fst (maps w)), len).
Qed.

Definition quiet_world : world := World {[0; 1; 2]} ∅ ∅.

(** The benchmark's own segment leaks when the mapping fails. *)
Lemma raw_segment_releases_witness :
  let '(r, w) := RawPosixShm.create "/bench_raw_posix" 4096 quiet_world in
  r = inl "mmap failed"%string /\ RawPosixShm.leaked "/bench_raw_posix" quiet_world w.
Proof.
  pose proof (RawPosixShm.raw_segment_releases "/bench_raw_posix" 4096 quiet_world) as Hr.
  destruct (RawPosixShm.create "/bench_raw_posix" 4096 quiet_world) as [r w] eqn:E.
  assert (Er : r = inl "mmap failed"%string) by (apply (f_equal fst) in E; vm_compute in E; by symmetry).
  subst r. split; [done|]. destruct Hr as [[Hr _]|[_ Hr]]; [done|exact Hr].
Defined.

(** A stream as a list with a capacity, which [limited] enforces; a read
    takes a [piece] of what it could. *)
Section Lists.
Context (limited : bool) (piece : nat -> nat) (Hpiece : forall k, (piece k <= k)%nat /\ ((0 < k)%nat -> (0 < piece k)%nat)).
Definition list_transmit (bs : list Z) (c : Z * list Z) : option (Z * (Z * list Z)) :=
  if limited && (c.1 <? Z.of_nat (length c.2 + length bs)) then None else Some (Z.of_nat (length bs), (c.1, c.2 ++ bs)).
Definition list_receive (n : nat) (c : Z * list Z) : option (Z * list Z * (Z * list Z)) :=
  let k := piece (Nat.min n (length c.2)) in
  match k with O => None | _ => Some (Z.of_nat k, take k c.2, (c.1, drop k c.2)) end.

Lemma list_receive_some n c r bs c' :
  list_receive n c = Some (r, bs, c') ->
  0 < r /\ r = Z.of_nat (piece (Nat.min n (length c.2))) /\ length bs = Z.to_nat r /\ (length bs <= n)%nat /\
  c.2 = bs ++ c'.2 /\ c'.1 = c.1.
Proof using Hpiece.
  unfold list_receive. pose proof (Hpiece (Nat.min n (length c.2))) as [Hle _].
  destruct (piece _) as [|k] eqn:E; [done|]. intros [= <- <- <-]. cbn [fst snd].
  rewrite take_drop, length_take. repeat split; lia.
Qed.

Program Definition list_stream : ByteStream := {|
  chan := Z * list Z;
  queued := snd;
  transmit := list_transmit;
  receive := list_receive
|}.
Next Obligation.
  intros bs c w c'. unfold list_transmit. destruct (_ && _); [done|]. intros [= <- <-]. rewrite Nat2Z.id, firstn_all. by split; [lia|].
Qed.
Next Obligation. intros n c r bs c' Hr%list_receive_some. cbn. tauto. Qed.
Next Obligation.
  intros n [z q] Hn. unfold list_receive. cbn [fst snd]. destruct q as [|b q]; [done|]. cbn [length].
  pose proof (proj2 (Hpiece (Nat.min n (S (length q)))) ltac:(lia)). by destruct (piece _); [lia|].
Qed.
End Lists.

(** A pipe whose system refuses more than 64 KiB. *)
#[local] Program Instance list_pipe : Pipe := {|
  pipe_stream := list_stream true (fun k => k) _;
  pipe := Some (65536, []);
  capacity := fst;
  set_pipe_size := fun z c => if z <=? 65536 then (z, c.2) else c
|}.
Next Obligation. lia. Qed.
Next Obligation. by intros c [= <-]. Qed.
Next Obligation. intros z c. cbn. by destruct (z <=? 65536). Qed.
Next Obligation. intros bs c w c'. cbn. unfold list_transmit. by destruct (_ && _); intros; simplify_eq/=. Qed.
Next Obligation.
  intros bs [z q]. cbn. unfold list_transmit. cbn. intros ->. cbn. destruct (Z.ltb_spec z (Z.of_nat (length bs))); split; intros ?; (done || lia).
Qed.
Next Obligation. intros bs c w c'. cbn. unfold list_transmit. by destruct (_ && _); intros; simplify_eq/=. Qed.
Next Obligation. cbn. intros n c r bs c' Hr. by apply list_receive_some in Hr as (_ & _ & _ & _ & _ & ?); [|lia]. Qed.

(** Sockets that hand over three bytes at a time. *)
#[local] Program Instance threes : SocketPair := {|
  socket_stream := list_stream false (Nat.min 3) _;
  socketpair := Some (212992, []);
  set_sndbuf := fun z c => c;
  set_rcvbuf := fun z c => c
|}.
Next Obligation. lia. Qed.
Next Obligation. by intros c [= <-]. Qed.
Next Obligation. done. Qed.
Next Obligation. done. Qed.

(** A queue as its messages, with its attributes. *)
#[local] Program Instance list_queue : MessageQueue := {|
  mqueue := nat * nat * list (list Z);
  mq_open := fun mx sz => Some (mx, sz, []);
  mq_messages := snd;
  mq_maxmsg := fun q => q.1.1;
  mq_msgsize := fun q => q.1.2;
  mq_send := fun bs q =>
    if (q.1.2 <? length bs)%nat then Some (-1, q)
    else if (q.1.1 <=? length q.2)%nat then None else Some (0, (q.1, q.2 ++ [bs]));
  mq_receive := fun n q =>
    if (n <? q.1.2)%nat then Some (-1, [], q)
    else match q.2 with [] => None | bs :: rest => Some (Z.of_nat (length bs), bs, (q.1, rest)) end
|}.
Next Obligation. by intros mx sz q [= <-]. Qed.
Next Obligation. intros bs q r q'. cbn -[Nat.ltb Nat.leb]. destruct (_ <? _)%nat; [by intros [= <- <-]|]. destruct (_ <=? _)%nat; [done|]. by intros [= <- <-]. Qed.
Next Obligation.
  intros bs q r q' Hl. cbn -[Nat.ltb Nat.leb]. rewrite (proj2 (Nat.ltb_ge (q.1.2) (length bs)) Hl). destruct (_ <=? _)%nat; [done|]. by intros [= <- <-].
Qed.
Next Obligation. intros bs q. cbn -[Nat.ltb Nat.leb]. destruct (_ <? _)%nat; [done|]. destruct (Nat.leb_spec (q.1.1) (length q.2)); [done|done]. Qed.
Next Obligation.
  intros n q r bs q'. cbn -[Nat.ltb Nat.leb]. destruct (_ <? _)%nat; [by intros [= <- <- <-]|]. destruct (q.2) as [|b rest] eqn:E; [done|].
  intros [= <- <- <-]. rewrite (proj2 (Z.ltb_ge _ _)) by lia. done.
Qed.
Next Obligation.
  intros n q r bs q' Hl. cbn -[Nat.ltb Nat.leb]. rewrite (proj2 (Nat.ltb_ge n (q.1.2)) Hl). destruct (q.2); [done|]. intros [= <- <- <-]. lia.
Qed.
Next Obligation. intros n q Hl. cbn -[Nat.ltb Nat.leb]. rewrite (proj2 (Nat.ltb_ge n (q.1.2)) Hl). by destruct (q.2). Qed.




Example uds_in_pieces : option_map (fun r => snd (snd r)) (run_uds 2 8 (212992, [])) = Some (replicate 8 0xBB).
Proof. reflexivity. Qed.
End KernelWitness.
